(* ===== verification/_CoqProject ===== *)
-Q . S2P
Prelude.v
BlockMap.v
DataDistribution.v
FirstTouch.v
FirstTouchNodes.v
GlobalPtr.v
Mem.v
Swdsm.v
SwdsmBase.v
SwdsmInv.v
SwdsmDir.v
SwdsmOps.v
SwdsmLoad.v
SwdsmHandler.v
SwdsmSync.v
SwdsmBarrier.v
Atomics.v
SwdsmSpec.v
SwdsmTheorems.v
HandlerThreads.v
Mempool.v
Alloc.v
AllocSpec.v
NewDelete.v
Env.v
Init.v
Locks.v
McsLock.v
Coherence.v
Backends.v
TasOnDsm.v
PoolOnDsm.v
NodeBarrier.v
CohortLock.v
Reset.v
VirtualMemory.v
ThreadBarrier.v
MpiLock.v
Signal.v
SingleNodeBackend.v
PoolInit.v
System.v
WriteBuffer.v
CacheLock.v
Statistics.v
Interface.v
WriteBufferDsm.v
