(* ===== verification/Prelude.v ===== *)
(** * ArgoDSM: a verification library

    ArgoDSM is a page-based software distributed shared memory.  Processes (nodes)
    share one range of virtual addresses; every page has a home node that stores it,
    the other nodes cache it.  Faults bring pages in and register readers and writers
    in a directory (Pyxis), synchronisation invalidates and writes back.

    ** Parts of the program and where they are modelled

    - Placement: [data_distribution/*.hpp] maps an address to a home node and an
      offset.  [DataDistribution] has the four static policies and the interface
      class [PlacementLaws]; [BlockMap] the arithmetic of dealing blocks to nodes;
      [FirstTouch] the directories of the policy that places a page where it is touched
      first and its calls one after the other, [FirstTouchNodes] the policy as the nodes
      run it, one access to a directory per step; [GlobalPtr] the pointers that cache a
      place.
    - The MPI backend: [backend/mpi/swdsm.cpp], [write_buffer.hpp].  [Mem] has
      memories and node bit masks, [Swdsm] the state of all nodes (cache control,
      page copies, directories, page tables, write buffers, home memories) and every
      operation: fault handler, loading, eviction, diffs, write buffer,
      self-invalidation, upgrade, acquire, release, barrier.  [SwdsmBase],
      [SwdsmInv], [SwdsmDir], [SwdsmOps], [SwdsmLoad], [SwdsmHandler], [SwdsmSync]
      and [SwdsmBarrier] prove the coherence invariant and what each operation does;
      [SwdsmSpec] has the abstract memory and the simulation, [SwdsmTheorems] the
      theorems.  [Coherence] has the selective operations ([coherence.cpp]), [Reset]
      the reset of the coherence state.
    - Its threads: [HandlerThreads] has the threads of a node in the fault handler and
      the requests they delegate to the write buffer's queue, [ThreadBarrier] the
      barrier of all threads of all nodes, [MpiLock] the window locks
      ([mpi_lock.cpp]) over the class [WindowLocks] of MPI's epochs, [CacheLock] the
      locks of the cache blocks.
    - Its write buffer as a class, with statistics and copies: [WriteBuffer];
      [WriteBufferDsm] shows that the buffer inside of the DSM model is that class.
      The counters of a node and [print_statistics]: [Statistics].
    - Signals: [signal/signal.hpp] and the decoding of a fault in [Signal].
    - Atomics: [backend/backend.hpp] and [mpi.cpp] in [Atomics], with the interface
      class [AtomicMemory]; [backend/singlenode/singlenode.cpp] in [Backends], its
      barrier in [NodeBarrier], its start and reset in [SingleNodeBackend].
    - Memory: [mempools/*.hpp] in [Mempool], [allocators/*.hpp] in [Alloc] (generic
      allocator over the class of pools), [AllocSpec] (instances and theorems) and
      [NewDelete] ([new_], [delete_], the collective allocator, the C interface);
      [PoolOnDsm] has the global pool with its offset and lock in the DSM, [PoolInit]
      its constructor and reset on all nodes.
    - Start-up: [env/env.cpp] in [Env], [argo.cpp] and [argo_initialize] in [Init];
      [virtual_memory/*.cpp] and the mappings [argo_initialize] makes with them in
      [VirtualMemory], over the class [Kernel] of system calls.  [System] composes
      the parts: start, reset and stop of all nodes, with the MPI windows.
    - Locks: [global_tas_lock.hpp] and [ticket_lock.hpp] in [Locks], [mcs_lock.cpp]
      in [McsLock], [cohort_lock.hpp] in [CohortLock] (over the class [LocalLock]);
      [TasOnDsm] runs the global lock on the DSM.  The public barriers, [broadcast], the
      null lock and [initmpi] are in [Interface].

    A definition has the name of the function it translates; a prefix tells
    homonyms apart ([ft_], [gp_], [wb_], [mpi_]).  Fallible code returns an
    [outcome]: a value, an exception (also for failed assertions and undefined
    behaviour, which the theorems exclude) or [Hang] for a loop that does not end.

    ** What is proved

    - The DSM refines a flat memory: whatever data-race-free sequence of loads,
      stores, atomics, acquires, releases and barriers other than [upgrade_all] the nodes
      issue (stores may race if they agree), it returns and delivers the flat memory's
      bytes; no such sequence, racy or not, makes it throw, fail an assertion or leave an
      ill-typed state; what an acquire keeps and a release publishes; merging of
      concurrent write-backs; index bounds; restart after a reset.
    - Programs that protect their data with the global lock see a sequentially
      consistent memory, the lock being built from the atomics and the caches.
    - The static placement policies are total, injective, in bounds and use the whole
      memory.  Under first touch, in every interleaving of the nodes' accesses, all
      answers agree with one injective placement, every call returns, and once all pages
      are published the policy is a fixed placement with the same laws, unless the null
      value truncated to a node id is a node's number ([first_touch_null_alias]).
      Global pointers keep their place.
    - The atomics are operations on one register; the backends agree on those both accept.
    - Held blocks are disjoint, aligned and inside the memory, as long as requests
      succeed; collective allocation agrees on all nodes; constructors and destructors
      match.
    - Start-up establishes the assumptions [cfg_ok] of the DSM theorems; a system that
      starts within the bounds of [startable] runs data-race-free programs as on a flat
      memory, accesses windows only inside their bounds, and stops with all data at
      home, unless a node's memory cannot be set up; [argo::reset] restarts it.
    - Threads in the handler keep the coherence invariant and finish, under a stated
      condition on evictions which the code does not enforce
      ([eviction_races_with_buffer]); the barrier of all threads separates its rounds
      and completes; the window locks exclude, and their statistics are consistent.
    - Faults of the application are the accesses of the DSM model; other faults go to
      the application's handlers.
    - After [argo::init], in which all nodes construct it at the same time, the global
      pool in the DSM is linearisable.
    - The write buffer is a bounded FIFO queue, whatever writing back does, and the one
      inside of the DSM is the class; the cache locks exclude and their
      statistics are true; the printed statistics add up, are cleared by a reset and
      come out in order and uninterrupted in every interleaving of the nodes.
    - The single-node backend keeps working memory and directories over its resets.
    - A page of the global memory is the very memory the runtime has at the slot or
      the part of the share it was mapped to, on every virtual memory layer.
    - The locks exclude, the ticket and MCS locks are first-in-first-out queues in
      every interleaving, the cohort lock gives up the global lock in time, the
      single-node barrier separates its rounds and loses no wake-up.
    - Where the code falls short of its intent a theorem evaluates an instance,
      such as [upgrade_all_loses_store] or [mcs_try_lock_never_succeeds].

    ** Bounds and fuel

    A load is retried after at most one fault, a store after at most two, and the
    flush loop runs once per buffered page: the fuel is that number, and the
    theorems show that it is enough.  The search loops of prime-mapp and of a single
    first-touch call are fuelled by the number of blocks and nodes, and choosing the unit of the
    memory size by the number of units.  [cfg_ok] limits the DSM to 64
    nodes (the bit masks are 64 bits wide) and to 4 TiB (see
    [directory_index_truncated]).

    ** Limits of the model

    In the DSM theorems a backend operation is one step of the whole system; the
    threads of a node, the barrier and the window locks are treated in files of their
    own, where a step is what runs under one cache lock, one wait or one lock call.
    In the DSM model the placement is static: first touch is verified by itself and not
    composed with the caches.  Locks and barriers interleave single
    accesses to shared words, sequentially consistently.  Times are integers.  Signed
    overflow of the lock counters wraps.  Allocator calls of one node are
    sequential, user constructors return.  Floating-point addition is a parameter.

    ** Not modelled

    The text layout of the statistics, the time statistics of the operations in
    [swdsm.cpp] (their sums are part of [Statistics], the clock readings that add to
    them are not), the MPI data types of [init_mpi_struct] and [init_mpi_cacheblock],
    the C wrappers, the type aliases, and the queue-delegation lock, a submodule. *)

From stdpp Require Export base numbers list gmap option strings.
From Stdlib Require Export ZArith Lia.

#[export] Set Default Goal Selector "!".

#[global] Open Scope Z_scope.

(** The facts the components' side conditions are made of. *)
Create HintDb argo.

(** ** Machine integers

    [std::size_t], [std::uintptr_t] and [std::uint64_t] are 64-bit, [node_id_t]
    is [unsigned int].  A value is a [Z]; every operation of the source that can
    leave the range is written with the wrap-around of its width. *)
Definition u64 (x : Z) : Z := x mod 2 ^ 64.
Definition u32 (x : Z) : Z := x mod 2 ^ 32.
Definition add64 (a b : Z) : Z := u64 (a + b).
Definition sub64 (a b : Z) : Z := u64 (a - b).
Definition mul64 (a b : Z) : Z := u64 (a * b).

(** [SIZE_MAX] and [UINT_MAX]. *)
Definition SIZE_MAX : Z := 2 ^ 64 - 1.
Definition UINT_MAX : Z := 2 ^ 32 - 1.

Definition is_u64 (x : Z) : Prop := 0 <= x < 2 ^ 64.
Definition is_u32 (x : Z) : Prop := 0 <= x < 2 ^ 32.

Lemma u64_small x : 0 <= x < 2 ^ 64 -> u64 x = x.
Proof. apply Z.mod_small. Qed.
Lemma u32_small x : 0 <= x < 2 ^ 32 -> u32 x = x.
Proof. apply Z.mod_small. Qed.
Lemma u64_u64 x : u64 (u64 x) = u64 x.
Proof. unfold u64. by rewrite Z.mod_mod. Qed.
Lemma u64_range x : 0 <= u64 x < 2 ^ 64.
Proof. apply Z.mod_pos_bound. lia. Qed.
Lemma u32_range x : 0 <= u32 x < 2 ^ 32.
Proof. apply Z.mod_pos_bound. lia. Qed.
#[export] Hint Resolve u64_range u32_range : argo.
Lemma add64_small a b : 0 <= a + b < 2 ^ 64 -> add64 a b = a + b.
Proof. apply u64_small. Qed.
Lemma sub64_small a b : 0 <= a - b < 2 ^ 64 -> sub64 a b = a - b.
Proof. apply u64_small. Qed.
Lemma mul64_small a b : 0 <= a * b < 2 ^ 64 -> mul64 a b = a * b.
Proof. apply u64_small. Qed.

(** Remove the wraps whose operands are in range by linear arithmetic. *)
Ltac unwrap_with tac :=
  repeat match goal with
  | |- context [u64 ?a] => rewrite (u64_small a) by tac
  | |- context [u32 ?a] => rewrite (u32_small a) by tac
  | |- context [add64 ?a ?b] => rewrite (add64_small a b) by tac
  | |- context [sub64 ?a ?b] => rewrite (sub64_small a b) by tac
  | |- context [mul64 ?a ?b] => rewrite (mul64_small a b) by tac
  end.
Ltac unwrap := unwrap_with lia.

Lemma mul_le_cap x b s : 0 <= x -> 0 < b -> x * b <= s -> x <= s.
Proof. nia. Qed.

(** Comparing block starts. *)
Lemma block_le_cancel b n w c : 0 < w -> 0 <= c -> b * w + c <= n * w -> b <= n.
Proof. nia. Qed.
Lemma block_lt_cancel b n w c : 0 < w -> c < w -> n * w < b * w + c -> n <= b.
Proof. nia. Qed.

(** ** Outcomes

    A call returns a value, throws, or (for a loop run with fuel) has not
    returned within the fuel.  [assertion_failed] and [undefined_behaviour] are
    not exceptions of the source: the first is a failing [assert], the second
    marks executions the language gives no meaning to. *)
Inductive exn :=
  | bad_alloc
  | system_error (what : string)
  | invalid_argument (what : string)
  | logic_error (what : string)
  | runtime_error (what : string)
  | out_of_range
  | char_throw (what : string)
  | assertion_failed (what : string)
  | undefined_behaviour (what : string).

#[export] Instance exn_eq_dec : EqDecision exn.
Proof. solve_decision. Defined.

Inductive outcome (A : Type) :=
  | Ok (a : A)
  | Throw (e : exn)
  | Hang.
Arguments Ok {A} a.
Arguments Throw {A} e.
Arguments Hang {A}.

#[export] Instance outcome_eq_dec {A} `{EqDecision A} : EqDecision (outcome A).
Proof. solve_decision. Defined.

#[export] Instance outcome_ret : MRet outcome := fun A a => Ok a.
#[export] Instance outcome_bind : MBind outcome := fun A B f m =>
  match m with Ok a => f a | Throw e => Throw e | Hang => Hang end.
#[export] Instance outcome_fmap : FMap outcome := fun A B f m =>
  match m with Ok a => Ok (f a) | Throw e => Throw e | Hang => Hang end.

Lemma outcome_bind_Ok {A B} (m : outcome A) (f : A -> outcome B) b :
  (m ≫= f) = Ok b -> exists a, m = Ok a /\ f a = Ok b.
Proof. destruct m; naive_solver. Qed.

(** Invert every successful bind of the context. *)
Ltac inv_ok :=
  repeat match goal with
  | H : (_ ≫= _) = Ok _ |- _ =>
      apply outcome_bind_Ok in H; destruct H as (? & ? & H)
  | H : Ok _ = Ok _ |- _ => injection H; clear H; intros; subst
  | H : Throw _ = Ok _ |- _ => discriminate H
  | H : Hang = Ok _ |- _ => discriminate H
  | H : (if ?b then _ else _) = Ok _ |- _ => let E := fresh "E" in destruct b eqn:E
  end.

(** ** Loops

    [for (a : l) s = f(a, s)], stopping at the first call that does not return. *)
Fixpoint for_each {A S} (l : list A) (f : A -> S -> outcome S) (s : S) : outcome S :=
  match l with
  | [] => Ok s
  | a :: l => s ← f a s; for_each l f s
  end.

Lemma for_each_app {A S} (l l' : list A) (f : A -> S -> outcome S) s :
  for_each (l ++ l') f s = (s ← for_each l f s; for_each l' f s).
Proof.
  revert s. induction l as [|a l IH]; intros s; [done|]. simpl.
  destruct (f a s); simpl; auto.
Qed.

(** A loop over an index range whose body keeps an indexed invariant. *)
Lemma for_range_ok {S} n (f : Z -> S -> outcome S) (P : Z -> S -> Prop) s :
  0 <= n -> P 0 s ->
  (forall i s, 0 <= i < n -> P i s -> exists s', f i s = Ok s' /\ P (i + 1) s') ->
  exists s', for_each (seqZ 0 n) f s = Ok s' /\ P n s'.
Proof.
  intros Hn H0 Hstep.
  assert (forall k, (k <= Z.to_nat n)%nat ->
    exists s', for_each (seqZ 0 (Z.of_nat k)) f s = Ok s' /\ P (Z.of_nat k) s') as H.
  { induction k as [|k IH]; intros Hk; [by exists s|].
    destruct IH as (s1 & E & H1); [lia|].
    destruct (Hstep (Z.of_nat k) s1) as (s2 & E2 & H2); [lia|done|].
    exists s2. rewrite Nat2Z.inj_succ, <- Z.add_1_r, seqZ_app, for_each_app by lia.
    assert (seqZ (0 + Z.of_nat k) 1 = [Z.of_nat k]) as -> by (unfold seqZ; simpl; f_equal; lia).
    rewrite E. simpl. rewrite E2. done. }
  destruct (H (Z.to_nat n)) as (s' & E & H'); [lia|]. rewrite Z2Nat.id in * by lia. eauto.
Qed.

(** A loop whose body keeps an invariant. *)
Lemma for_each_ok {A S} (l : list A) (f : A -> S -> outcome S) (P : S -> Prop) s :
  P s -> (forall a s, a ∈ l -> P s -> exists s', f a s = Ok s' /\ P s') ->
  exists s', for_each l f s = Ok s' /\ P s'.
Proof.
  revert s. induction l as [|a l IH]; intros s Hs H; [by exists s|].
  destruct (H a s) as (s1 & E & H1); [left|done|]. simpl. rewrite E. simpl.
  apply IH; [done|]. intros b s2 Hb. apply H. by right.
Qed.

(** What holds of the elements done so far. *)
Lemma for_each_prefix {A S} (f : A -> S -> outcome S) (P : list A -> S -> Prop) l s s' :
  P [] s -> (forall l1 a l2 s1 s2, l = l1 ++ a :: l2 -> P l1 s1 -> f a s1 = Ok s2 -> P (l1 ++ [a]) s2) ->
  for_each l f s = Ok s' -> P l s'.
Proof.
  intros H0 Hstep. enough (forall l2 l1 s1, l = l1 ++ l2 -> P l1 s1 -> for_each l2 f s1 = Ok s' -> P l s') as H by eauto using app_nil_l.
  induction l2 as [|a l2 IH]; intros l1 s1 El H1 E; simpl in E.
  - injection E as <-. by rewrite El, app_nil_r.
  - apply outcome_bind_Ok in E as (s2 & E1 & E2). apply (IH (l1 ++ [a]) s2); [by rewrite <- app_assoc|by eapply Hstep|done].
Qed.

(** ** Sums over an index range *)
Fixpoint sum_to (f : Z -> Z) (k : nat) : Z :=
  match k with O => 0 | S k => sum_to f k + f (Z.of_nat k) end.
Definition sumZ (f : Z -> Z) (n : Z) : Z := sum_to f (Z.to_nat n).

Lemma sumZ_ext f g n : (forall i, 0 <= i < n -> f i = g i) -> sumZ f n = sumZ g n.
Proof.
  unfold sumZ. intros H. assert (Hk : Z.of_nat (Z.to_nat n) <= Z.max 0 n) by lia.
  revert Hk. generalize (Z.to_nat n) as k. induction k as [|k IH]; intros Hk; [done|].
  simpl. rewrite IH, H by lia. done.
Qed.

Lemma sumZ_le f c n : 0 <= n -> (forall i, 0 <= i < n -> f i <= c) -> sumZ f n <= n * c.
Proof.
  unfold sumZ. intros Hn H.
  cut (sum_to f (Z.to_nat n) <= Z.of_nat (Z.to_nat n) * c); [rewrite Z2Nat.id by lia; done|].
  assert (Hk : Z.of_nat (Z.to_nat n) <= n) by lia.
  revert Hk. generalize (Z.to_nat n) as k. induction k as [|k IH]; intros Hk; [simpl; lia|].
  specialize (H (Z.of_nat k) ltac:(lia)). simpl sum_to. rewrite Nat2Z.inj_succ. lia.
Qed.

Lemma sumZ_const c n : 0 <= n -> sumZ (fun _ => c) n = n * c.
Proof.
  intros Hn. unfold sumZ. rewrite <- (Z2Nat.id n) at 2 by lia.
  induction (Z.to_nat n) as [|k IH]; [simpl; lia|].
  simpl sum_to. rewrite Nat2Z.inj_succ. lia.
Qed.

(** Changing one summand changes the sum by the difference. *)
Lemma sumZ_update f g j c n :
  0 <= j < n -> g j = f j + c -> (forall i, 0 <= i < n -> i ≠ j -> g i = f i) ->
  sumZ g n = sumZ f n + c.
Proof.
  unfold sumZ. intros Hj Hgj Hg.
  assert (Hk : j < Z.of_nat (Z.to_nat n) <= n) by lia.
  revert Hk. generalize (Z.to_nat n) as k. induction k as [|k IH]; intros Hk; [lia|].
  simpl. destruct (Z.eq_dec (Z.of_nat k) j) as [Ek|Hne].
  - rewrite Ek, Hgj.
    pose proof (sumZ_ext g f (Z.of_nat k)) as E. unfold sumZ in E. rewrite Nat2Z.id in E.
    rewrite E; [lia|]. intros i Hi. apply Hg; lia.
  - rewrite IH, (Hg (Z.of_nat k)) by lia. lia.
Qed.

(** A sum of values at most [c] with one of them below [c] is below [n * c]. *)
Lemma sumZ_pos f n : 0 <= n -> (forall i, 0 <= i < n -> 0 <= f i) -> 0 <= sumZ f n.
Proof.
  intros Hn Hf. unfold sumZ. rewrite <- (Z2Nat.id n Hn) in Hf. clear Hn. induction (Z.to_nat n) as [|k IH]; [done|].
  cbn [sum_to]. specialize (IH ltac:(intros; apply Hf; lia)). specialize (Hf (Z.of_nat k)). lia.
Qed.

Lemma sumZ_lt f c n j :
  0 <= j < n -> f j < c -> (forall i, 0 <= i < n -> f i <= c) -> sumZ f n < n * c.
Proof.
  intros Hj Hlt Hle.
  set (g := fun i => if decide (i = j) then c else f i).
  assert (E : sumZ g n = sumZ f n + (c - f j)).
  { apply (sumZ_update f g j); [done| |]; unfold g.
    - rewrite decide_True by done. lia.
    - intros i Hi Hne. by rewrite decide_False. }
  assert (L : sumZ g n <= n * c); [|lia].
  apply sumZ_le; [lia|]. intros i Hi. unfold g. case_decide; [lia|auto].
Qed.

(** ** Counting

    How many numbers below [k] satisfy [P]. *)
Fixpoint count_upto (P : nat -> bool) (k : nat) : nat :=
  match k with
  | O => O
  | S k => ((if P k then 1 else 0) + count_upto P k)%nat
  end.

Lemma count_ext P Q k : (forall t, (t < k)%nat -> P t = Q t) -> count_upto P k = count_upto Q k.
Proof. induction k as [|k IH]; intros H; simpl; [done|]. rewrite H by lia. rewrite IH; [done|]. intros. apply H. lia. Qed.

Lemma count_le P k : (count_upto P k <= k)%nat.
Proof. induction k as [|k IH]; simpl; [done|]. destruct (P k); lia. Qed.

(** Changing the predicate at one thread. *)
Lemma count_change P Q t k : (t < k)%nat -> (forall u, u <> t -> P u = Q u) ->
  (count_upto P k + (if Q t then 1 else 0) = count_upto Q k + (if P t then 1 else 0))%nat.
Proof.
  induction k as [|k IH]; intros Ht H; simpl; [lia|]. destruct (decide (t = k)) as [->|Hne].
  - rewrite (count_ext P Q k); [lia|]. intros u Hu. apply H. lia.
  - rewrite (H k) by lia. specialize (IH ltac:(lia) H). lia.
Qed.

Lemma count_full P k : count_upto P k = k -> forall t, (t < k)%nat -> P t = true.
Proof.
  induction k as [|k IH]; simpl; intros H t Ht; [lia|]. pose proof (count_le P k). destruct (P k) eqn:E; [|lia].
  destruct (decide (t = k)) as [->|]; [done|]. apply IH; lia.
Qed.

Lemma count_all P k : (forall t, (t < k)%nat -> P t = true) -> count_upto P k = k.
Proof. induction k as [|k IH]; intros H; simpl; [done|]. rewrite H by lia. rewrite IH; [done|]. intros. apply H. lia. Qed.

Lemma count_none P k : count_upto P k = 0%nat -> forall t, (t < k)%nat -> P t = false.
Proof.
  induction k as [|k IH]; simpl; intros H t Ht; [lia|]. destruct (P k) eqn:E; [lia|].
  destruct (decide (t = k)) as [->|]; [done|]. apply IH; lia.
Qed.

Lemma count_some P k : (0 < count_upto P k)%nat -> exists t, (t < k)%nat /\ P t = true.
Proof.
  induction k as [|k IH]; simpl; intros H; [lia|]. destruct (P k) eqn:E; [exists k; split; [lia|done]|].
  destruct IH as (t & Ht & HP); [lia|]. exists t. split; [lia|done].
Qed.

Lemma count_missing P k : (count_upto P k < k)%nat -> exists t, (t < k)%nat /\ P t = false.
Proof.
  induction k as [|k IH]; simpl; intros H; [lia|]. destruct (P k) eqn:E; [|exists k; split; [lia|done]].
  destruct IH as (t & Ht & HP); [lia|]. exists t. split; [lia|done].
Qed.

Lemma count_succ P Q t k : (t < k)%nat -> (forall u, u <> t -> Q u = P u) -> P t = false -> Q t = true ->
  count_upto Q k = S (count_upto P k).
Proof. intros Ht H E1 E2. pose proof (count_change P Q t k Ht (fun u Hu => eq_sym (H u Hu))) as E. rewrite E1, E2 in E. lia. Qed.

(** Sums over the numbers below [k]. *)
Fixpoint sum_upto (f : nat -> nat) (k : nat) : nat :=
  match k with
  | O => O
  | S k => (f k + sum_upto f k)%nat
  end.

Lemma sum_le f g k : (forall t, (t < k)%nat -> (f t <= g t)%nat) -> (sum_upto f k <= sum_upto g k)%nat.
Proof. induction k as [|k IH]; intros H; simpl; [done|]. pose proof (H k ltac:(lia)). specialize (IH (fun t Ht => H t ltac:(lia))). lia. Qed.

Lemma sum_lt f g t k : (t < k)%nat -> (f t < g t)%nat -> (forall u, (u < k)%nat -> (f u <= g u)%nat) -> (sum_upto f k < sum_upto g k)%nat.
Proof.
  induction k as [|k IH]; intros Ht Hlt H; simpl; [lia|]. pose proof (H k ltac:(lia)) as Hk.
  destruct (decide (t = k)) as [->|]; [pose proof (sum_le f g k (fun u Hu => H u ltac:(lia))); lia|].
  specialize (IH ltac:(lia) Hlt (fun u Hu => H u ltac:(lia))). lia.
Qed.
