(* ===== verification/BlockMap.v ===== *)
(** * Block placement arithmetic

    The policies of [src/src/data_distribution/] place blocks of pages on nodes.
    This file holds the integer facts they share, free of machine widths: the
    round-robin layout and the two-phase layout of the prime-mapp policy, with
    the number of earlier blocks of the same node in closed form. *)

From S2P Require Import Prelude.

(** Rounding [x - h] up to a multiple of [n] moves by one exactly when [x] is in
    residue class [h]. *)
Lemma ceil_step n h x :
  0 <= h < n ->
  (x + n - h) / n = (x + n - 1 - h) / n + (if x mod n =? h then 1 else 0).
Proof.
  intros Hh.
  rewrite (Z.div_mod x n) at 1 2 by lia.
  pose proof (Z.mod_pos_bound x n ltac:(lia)) as Hm.
  replace (n * (x / n) + x mod n + n - h) with (x mod n + n - h + (x / n) * n) by ring.
  replace (n * (x / n) + x mod n + n - 1 - h)
    with (x mod n + n - 1 - h + (x / n) * n) by ring.
  rewrite !Z.div_add by lia.
  destruct (Z.eqb_spec (x mod n) h) as [E|E].
  - replace (x mod n + n - h) with n by lia.
    replace (x mod n + n - 1 - h) with (n - 1) by lia.
    rewrite Z.div_same, (Z.div_small (n - 1)) by lia. lia.
  - destruct (Z.lt_ge_cases (x mod n) h).
    + rewrite (Z.div_small (x mod n + n - h)), (Z.div_small (x mod n + n - 1 - h)) by lia.
      lia.
    + rewrite <- (Z.div_unique (x mod n + n - h) n 1 (x mod n - h)) by lia.
      rewrite <- (Z.div_unique (x mod n + n - 1 - h) n 1 (x mod n - 1 - h)) by lia.
      lia.
Qed.

Lemma div_mod_split a n q r : 0 <= r < n -> a = n * q + r -> a / n = q /\ a mod n = r.
Proof.
  intros Hr ->. split.
  - symmetry. apply (Z.div_unique_pos _ _ _ r); lia.
  - symmetry. apply (Z.mod_unique_pos _ _ q); lia.
Qed.

(** Successor of a quotient and remainder. *)
Lemma div_mod_succ p P :
  0 < P ->
  (p mod P + 1 < P /\ (p + 1) / P = p / P /\ (p + 1) mod P = p mod P + 1) \/
  (p mod P = P - 1 /\ (p + 1) / P = p / P + 1 /\ (p + 1) mod P = 0).
Proof.
  intros HP. pose proof (Z.mod_pos_bound p P HP). pose proof (Z.div_mod p P ltac:(lia)).
  destruct (Z.lt_ge_cases (p mod P + 1) P).
  - left. split; [lia|]. apply div_mod_split; lia.
  - right. split; [lia|]. apply div_mod_split; lia.
Qed.

(** ** Two-phase placement

    [N] real nodes, rounds of [P >= N] blocks.  The first [N] blocks of a round
    go to the nodes in order, the remaining [P - N] are dealt out cyclically. *)
Section TwoPhase.

Context (N P : Z) (HN : 1 <= N) (HP : N <= P).

Definition two_phase_home (p : Z) : Z :=
  if N <=? p mod P then ((p / P) * (P - N) + (p mod P - N)) mod N else p mod P.

(** The number of blocks before [p] that live on node [h]. *)
Definition two_phase_rank (h p : Z) : Z :=
  p / P + (if h <? p mod P then 1 else 0)
  + ((p / P) * (P - N) + Z.max 0 (p mod P - N) + N - 1 - h) / N.

Lemma two_phase_home_bound p : 0 <= two_phase_home p < N.
Proof using HN HP.
  unfold two_phase_home. pose proof (Z.mod_pos_bound p P ltac:(lia)).
  destruct (Z.leb_spec N (p mod P)); [apply Z.mod_pos_bound|]; lia.
Qed.

Lemma two_phase_rank_succ h p :
  0 <= h < N ->
  two_phase_rank h (p + 1)
  = two_phase_rank h p + (if two_phase_home p =? h then 1 else 0).
Proof using HN HP.
  intros Hh. unfold two_phase_rank, two_phase_home.
  pose proof (Z.mod_pos_bound p P ltac:(lia)) as Hm.
  destruct (div_mod_succ p P ltac:(lia)) as [(Hlt & -> & ->)|(Hlast & -> & ->)];
    set (r := p / P) in *; set (m := p mod P) in *; clearbody r m.
  - destruct (Z.leb_spec N m) as [Hv|Hr].
    + rewrite (Z.max_r 0 (m + 1 - N)), (Z.max_r 0 (m - N)) by lia.
      pose proof (ceil_step N h (r * (P - N) + (m - N)) Hh) as Hs.
      replace (r * (P - N) + (m + 1 - N) + N - 1 - h)
        with (r * (P - N) + (m - N) + N - h) by ring.
      rewrite Hs.
      destruct (Z.ltb_spec h (m + 1)), (Z.ltb_spec h m); lia.
    + rewrite (Z.max_l 0 (m + 1 - N)), (Z.max_l 0 (m - N)) by lia.
      destruct (Z.ltb_spec h (m + 1)), (Z.ltb_spec h m), (Z.eqb_spec m h); lia.
  - destruct (Z.leb_spec N m) as [Hv|Hr].
    + rewrite (Z.max_l 0 (0 - N)), (Z.max_r 0 (m - N)) by lia.
      pose proof (ceil_step N h (r * (P - N) + (m - N)) Hh) as Hs.
      replace ((r + 1) * (P - N) + 0 + N - 1 - h)
        with (r * (P - N) + (m - N) + N - h) by lia.
      rewrite Hs.
      destruct (Z.ltb_spec h 0), (Z.ltb_spec h m); lia.
    + assert (P = N) as -> by lia.
      rewrite (Z.max_l 0 (0 - N)), (Z.max_l 0 (m - N)), Z.sub_diag, !Z.mul_0_r by lia.
      rewrite !Z.div_small by lia.
      destruct (Z.ltb_spec h 0), (Z.ltb_spec h m), (Z.eqb_spec m h); lia.
Qed.

Lemma two_phase_rank_mono h p q :
  0 <= h < N -> p <= q -> two_phase_rank h p <= two_phase_rank h q.
Proof using HN HP.
  intros Hh Hpq. replace q with (p + Z.of_nat (Z.to_nat (q - p))) by lia.
  induction (Z.to_nat (q - p)) as [|k IH]; [rewrite Z.add_0_r; lia|].
  rewrite Nat2Z.inj_succ, <- Z.add_1_r, Z.add_assoc, two_phase_rank_succ by done.
  destruct (_ =? h); lia.
Qed.

(** Two blocks on the same node are told apart by their ranks. *)
Lemma two_phase_rank_inj p q :
  two_phase_home p = two_phase_home q ->
  two_phase_rank (two_phase_home p) p = two_phase_rank (two_phase_home q) q -> p = q.
Proof using HN HP.
  assert (Hstrict : forall p q, two_phase_home p = two_phase_home q -> p < q ->
            two_phase_rank (two_phase_home p) p < two_phase_rank (two_phase_home q) q).
  { clear p q. intros p q Heq Hlt. pose proof (two_phase_home_bound p) as Hb.
    pose proof (two_phase_rank_succ (two_phase_home p) p Hb) as Hs.
    rewrite Z.eqb_refl in Hs.
    pose proof (two_phase_rank_mono (two_phase_home p) (p + 1) q Hb ltac:(lia)).
    rewrite <- Heq. lia. }
  intros Heq Hr. destruct (Z.lt_trichotomy p q) as [H|[H|H]]; [|done|].
  - pose proof (Hstrict p q Heq H). lia.
  - pose proof (Hstrict q p (eq_sym Heq) H). lia.
Qed.

(** A dealt block has rank [p / N]; the first [N] blocks have rank 0. *)
Lemma two_phase_rank_dealt p :
  N <= p mod P -> two_phase_rank (two_phase_home p) p = p / N.
Proof using HN HP.
  intros Hv. unfold two_phase_rank.
  assert (two_phase_home p = ((p / P) * (P - N) + (p mod P - N)) mod N) as Hh.
  { unfold two_phase_home. destruct (Z.leb_spec N (p mod P)); [done|lia]. }
  pose proof (two_phase_home_bound p) as Hb. rewrite Hh in *.
  pose proof (Z.mod_pos_bound p P ltac:(lia)) as Hm.
  pose proof (Z.div_mod p P ltac:(lia)) as Hp.
  set (r := p / P) in *. set (m := p mod P) in *.
  rewrite (Z.max_r 0 (m - N)) by lia.
  set (v := r * (P - N) + (m - N)) in *.
  assert (p / N = r + 1 + v / N) as ->.
  { replace p with (v + (r + 1) * N) by (unfold v; lia). rewrite Z.div_add by lia. lia. }
  pose proof (Z.div_mod v N ltac:(lia)) as Hv2.
  set (h := v mod N) in *.
  destruct (Z.ltb_spec h m); [|lia].
  replace (v + N - 1 - h) with ((N - 1) + (v / N) * N) by lia.
  rewrite Z.div_add, (Z.div_small (N - 1)) by lia. lia.
Qed.

Lemma two_phase_first p : 0 <= p < N ->
  two_phase_home p = p /\ two_phase_rank p p = 0.
Proof using HN HP.
  intros Hp. unfold two_phase_home, two_phase_rank.
  rewrite (Z.mod_small p P), (Z.div_small p P) by lia.
  destruct (Z.leb_spec N p), (Z.ltb_spec p p); try lia.
  rewrite (Z.max_l 0 (p - N)), Z.mul_0_l, Z.div_small by lia. lia.
Qed.

Lemma two_phase_rank_at_N h : 0 <= h < N -> two_phase_rank h N = 1.
Proof using HN HP.
  intros Hh. unfold two_phase_rank.
  destruct (Z.eq_dec N P) as [<-|Hne].
  - rewrite Z.div_same, Z.mod_same, (Z.max_l 0 (0 - N)) by lia.
    rewrite Z.sub_diag, Z.mul_0_r, Z.div_small by lia.
    destruct (Z.ltb_spec h 0); lia.
  - rewrite (Z.div_small N P), (Z.mod_small N P), Z.sub_diag, Z.mul_0_l by lia.
    rewrite Z.max_id, Z.div_small by lia. destruct (Z.ltb_spec h N); lia.
Qed.

(** Where the backwards search may stop, [p / N] is the rank. *)
Lemma two_phase_rank_stop p :
  0 <= p -> p <= N \/ N <= p mod P -> p / N = two_phase_rank (two_phase_home p) p.
Proof using HN HP.
  intros Hp [Hle|Hv]; [|by rewrite two_phase_rank_dealt].
  destruct (Z.eq_dec p N) as [->|Hne].
  - rewrite Z.div_same, two_phase_rank_at_N by (lia || apply two_phase_home_bound). done.
  - destruct (two_phase_first p ltac:(lia)) as [-> ->]. apply Z.div_small. lia.
Qed.

(** Over whole rounds every node receives the same number of blocks. *)
Lemma two_phase_rank_total h k :
  0 <= h < N -> 0 <= k -> two_phase_rank h (k * N * P) = k * P.
Proof using HN HP.
  intros Hh Hk. unfold two_phase_rank.
  rewrite Z.div_mul, Z.mod_mul by lia.
  destruct (Z.ltb_spec h 0); [lia|]. rewrite (Z.max_l 0 (0 - N)) by lia.
  replace (k * N * (P - N) + 0 + N - 1 - h) with ((N - 1 - h) + (k * (P - N)) * N) by ring.
  rewrite Z.div_add, Z.div_small by lia. ring.
Qed.

Lemma two_phase_rank_bound p k :
  0 <= k -> p < k * N * P -> two_phase_rank (two_phase_home p) p < k * P.
Proof using HN HP.
  intros Hk Hp. pose proof (two_phase_home_bound p) as Hb.
  rewrite <- (two_phase_rank_total (two_phase_home p) k Hb Hk).
  pose proof (two_phase_rank_succ (two_phase_home p) p Hb) as Hs.
  rewrite Z.eqb_refl in Hs.
  pose proof (two_phase_rank_mono (two_phase_home p) (p + 1) (k * N * P) Hb ltac:(lia)).
  lia.
Qed.

Lemma two_phase_rank_nonneg h p : 0 <= h < N -> 0 <= p -> 0 <= two_phase_rank h p.
Proof using HN HP.
  intros Hh Hp. pose proof (two_phase_rank_mono h 0 p Hh Hp) as Hm.
  pose proof (two_phase_rank_total h 0 Hh ltac:(lia)) as H0. rewrite !Z.mul_0_l in H0. lia.
Qed.

End TwoPhase.

(** ** Round-robin placement with a rotation per round

    [cyclic] rotates by nothing and [skew_mapp] by one more node per round. *)
Lemma rotated_round_inj N rot p q :
  1 <= N -> p / N = q / N ->
  (p + rot (p / N)) mod N = (q + rot (q / N)) mod N -> p = q.
Proof.
  intros HN Hd Hm. rewrite <- Hd in Hm. set (c := rot (p / N)) in *. clearbody c.
  pose proof (Z.div_mod p N ltac:(lia)). pose proof (Z.div_mod q N ltac:(lia)).
  pose proof (Z.mod_pos_bound p N ltac:(lia)). pose proof (Z.mod_pos_bound q N ltac:(lia)).
  pose proof (Z.div_mod (p + c) N ltac:(lia)). pose proof (Z.div_mod (q + c) N ltac:(lia)).
  assert (N * ((p + c) / N - (q + c) / N) = p - q) by lia.
  assert (- N < N * ((p + c) / N - (q + c) / N) < N) by nia.
  assert ((p + c) / N - (q + c) / N = 0) by nia. nia.
Qed.

(** A block index and a position inside the block determine the byte. *)
Lemma block_pos_inj B s t a b :
  0 < B -> 0 <= a < B -> 0 <= b < B -> s * B + a = t * B + b -> s = t /\ a = b.
Proof. intros. assert (s = t) by nia. nia. Qed.
