(* ===== verification/DataDistribution.v ===== *)
(** * Data distribution

    The static page placement policies of [src/src/data_distribution/]
    ([naive], [cyclic], [skew_mapp], [prime_mapp]), the base class they derive
    from and the policy selection of [data_distribution.hpp].  The stateful
    first-touch policy is in [FirstTouch.v].

    The promise a policy makes to the backend is the class [PlacementLaws]:
    every address of the global space has a home node and an offset inside that
    node's share, no two addresses share both, and a page is contiguous in its
    home node's share. *)

From S2P Require Import Prelude BlockMap.

(** ** base_distribution.hpp *)
Definition invalid_node_id : Z := UINT_MAX.
Definition invalid_offset : Z := SIZE_MAX.
Definition granularity : Z := 4096.

Definition msg_fetch_homenode_fail : string :=
  "ArgoDSM failed to fetch a valid backing node. Please report a bug.".
Definition msg_fetch_offset_fail : string :=
  "ArgoDSM failed to fetch a valid backing offset. Please report a bug.".

(** The static members of [base_distribution]. *)
Record base_distribution := BaseDist {
  nodes : Z;
  start_address : Z;
  total_size : Z;
  size_per_node : Z;
}.

Definition set_memory_space (n start size : Z) : base_distribution :=
  {| nodes := n; start_address := start; total_size := size; size_per_node := size / n |}.

Definition get_size_per_node (d : base_distribution) : Z := size_per_node d.

(** The virtual methods of a policy. *)
Record placement := Placement {
  homenode : Z -> outcome Z;
  peek_homenode : Z -> outcome Z;
  local_offset : Z -> outcome Z;
  peek_local_offset : Z -> outcome Z;
}.

(** The base class answers "invalid" everywhere. *)
Definition base_placement : placement := {|
  homenode _ := Ok invalid_node_id;
  peek_homenode _ := Ok invalid_node_id;
  local_offset _ := Ok invalid_offset;
  peek_local_offset _ := Ok invalid_offset;
|}.

Definition get_ptr (d : base_distribution) (homenode offset : Z) : Z :=
  add64 (add64 (start_address d) (mul64 homenode (size_per_node d))) offset.

(** [ptr - start_address] as an unsigned value, and its page base. *)
Definition rel (d : base_distribution) (ptr : Z) : Z := sub64 ptr (start_address d).
Definition page_base (d : base_distribution) (ptr : Z) : Z :=
  mul64 (rel d ptr / granularity) granularity.

(** The range checks at the end of every [homenode] and [local_offset]. *)
Definition check_homenode (d : base_distribution) (h : Z) : outcome Z :=
  if nodes d <=? h then Throw (system_error msg_fetch_homenode_fail) else Ok h.
Definition check_offset (d : base_distribution) (o : Z) : outcome Z :=
  if size_per_node d <=? o then Throw (system_error msg_fetch_offset_fail) else Ok o.

(** ** naive_distribution.hpp *)
Definition naive_homenode (d : base_distribution) (ptr : Z) : outcome Z :=
  let addr := rel d ptr in
  let homenode := u32 (addr / size_per_node d) in
  check_homenode d homenode.

Definition naive_local_offset (d : base_distribution) (ptr : Z) : outcome Z :=
  let addr := rel d ptr in
  h ← naive_homenode d ptr;
  let offset := sub64 addr (mul64 h (size_per_node d)) in
  check_offset d offset.

Definition naive_distribution (d : base_distribution) : placement := {|
  homenode := naive_homenode d;
  peek_homenode := naive_homenode d;
  local_offset := naive_local_offset d;
  peek_local_offset := naive_local_offset d;
|}.

(** ** cyclic_distribution.hpp; [bs] is [env::allocation_block_size()] *)
Definition cyclic_homenode (d : base_distribution) (bs ptr : Z) : outcome Z :=
  let pageblock := mul64 bs granularity in
  let addr := page_base d ptr in
  let pagenum := addr / pageblock in
  let homenode := u32 (pagenum mod nodes d) in
  check_homenode d homenode.

Definition cyclic_local_offset (d : base_distribution) (bs ptr : Z) : outcome Z :=
  let pageblock := mul64 bs granularity in
  let drift := rel d ptr mod granularity in
  let addr := page_base d ptr in
  let pagenum := addr / pageblock in
  let offset :=
    add64 (add64 (mul64 (pagenum / nodes d) pageblock) (addr mod pageblock)) drift in
  check_offset d offset.

Definition cyclic_distribution (d : base_distribution) (bs : Z) : placement := {|
  homenode := cyclic_homenode d bs;
  peek_homenode := cyclic_homenode d bs;
  local_offset := cyclic_local_offset d bs;
  peek_local_offset := cyclic_local_offset d bs;
|}.

(** ** skew_mapp_distribution.hpp *)
Definition skew_mapp_homenode (d : base_distribution) (bs ptr : Z) : outcome Z :=
  let pageblock := mul64 bs granularity in
  let addr := page_base d ptr in
  let pagenum := addr / pageblock in
  let homenode := u32 (add64 (add64 pagenum (pagenum / nodes d)) 1 mod nodes d) in
  check_homenode d homenode.

Definition skew_mapp_local_offset (d : base_distribution) (bs ptr : Z) : outcome Z :=
  let pageblock := mul64 bs granularity in
  let drift := rel d ptr mod granularity in
  let addr := page_base d ptr in
  let pagenum := addr / pageblock in
  let offset :=
    add64 (add64 (mul64 (pagenum / nodes d) pageblock) (addr mod pageblock)) drift in
  check_offset d offset.

Definition skew_mapp_distribution (d : base_distribution) (bs : Z) : placement := {|
  homenode := skew_mapp_homenode d bs;
  peek_homenode := skew_mapp_homenode d bs;
  local_offset := skew_mapp_local_offset d bs;
  peek_local_offset := skew_mapp_local_offset d bs;
|}.

(** ** prime_mapp_distribution.hpp *)
Definition prime_of (d : base_distribution) : Z := u32 (3 * nodes d) / 2.

Definition prime_mapp_homenode (d : base_distribution) (bs ptr : Z) : outcome Z :=
  let pageblock := mul64 bs granularity in
  let prime := prime_of d in
  let addr := page_base d ptr in
  let pagenum := addr / pageblock in
  let homenode := u32 (
    if nodes d <=? pagenum mod prime
    then add64 (mul64 (pagenum / prime) (sub64 prime (nodes d)))
               (sub64 (pagenum mod prime) (nodes d)) mod nodes d
    else pagenum mod prime) in
  check_homenode d homenode.

(** The backwards search of [local_offset]; [addr] has already been decremented. *)
Fixpoint prime_mapp_search (fuel : nat) (d : base_distribution) (bs realhome : Z)
    (addr homecounter drift : Z) : outcome Z :=
  match fuel with
  | O => Hang
  | S fuel =>
    let pageblock := mul64 bs granularity in
    let prime := prime_of d in
    let pagenum := addr / pageblock in
    currhome ← prime_mapp_homenode d bs (add64 (start_address d) addr);
    let homecounter := add64 homecounter (if currhome =? realhome then 1 else 0) in
    if ((addr <=? mul64 (nodes d) pageblock) && (currhome =? realhome))
       || ((nodes d <=? pagenum mod prime) && (currhome =? realhome))
    then
      let offset := add64 (mul64 (pagenum / nodes d) pageblock) (addr mod pageblock) in
      Ok (add64 offset (add64 (mul64 homecounter pageblock) drift))
    else prime_mapp_search fuel d bs realhome (sub64 addr pageblock) homecounter drift
  end.

(** The search visits each lower block at most once, hence the fuel. *)
Definition prime_mapp_local_offset (d : base_distribution) (bs ptr : Z) : outcome Z :=
  let pageblock := mul64 bs granularity in
  let prime := prime_of d in
  let drift := rel d ptr mod granularity in
  let addr := page_base d ptr in
  let pagenum := addr / pageblock in
  offset ←
    (if (addr <=? mul64 (nodes d) pageblock) || (nodes d <=? pagenum mod prime)
     then Ok (add64 (add64 (mul64 (pagenum / nodes d) pageblock) (addr mod pageblock)) drift)
     else
       realhome ← prime_mapp_homenode d bs ptr;
       prime_mapp_search (Z.to_nat pagenum) d bs realhome (sub64 addr pageblock) 0 drift);
  check_offset d offset.

Definition prime_mapp_distribution (d : base_distribution) (bs : Z) : placement := {|
  homenode := prime_mapp_homenode d bs;
  peek_homenode := prime_mapp_homenode d bs;
  local_offset := prime_mapp_local_offset d bs;
  peek_local_offset := prime_mapp_local_offset d bs;
|}.

(** ** data_distribution.hpp *)
Inductive memory_policy := naive | cyclic | skew_mapp | prime_mapp | first_touch.

#[export] Instance memory_policy_eq_dec : EqDecision memory_policy.
Proof. solve_decision. Defined.

(** The enumerator values. *)
Definition policy_number (p : memory_policy) : Z :=
  match p with
  | naive => 0 | cyclic => 1 | skew_mapp => 2 | prime_mapp => 3 | first_touch => 4
  end.

(** [policy] below is [env::allocation_policy()]. *)
Definition is_cyclic_policy (policy : Z) : bool :=
  (policy =? policy_number cyclic) || (policy =? policy_number skew_mapp)
  || (policy =? policy_number prime_mapp).
Definition is_prime_mapp_policy (policy : Z) : bool := policy =? policy_number prime_mapp.
Definition is_first_touch_policy (policy : Z) : bool := policy =? policy_number first_touch.

Definition policy_padding (policy block_size number_of_nodes : Z) : Z :=
  let padding := if is_cyclic_policy policy then block_size else 1 in
  mul64 padding (if is_prime_mapp_policy policy then u32 (3 * number_of_nodes) / 2 else 1).

Definition policy_block_size (policy block_size : Z) (d : base_distribution) : Z :=
  if is_cyclic_policy policy then mul64 block_size granularity
  else if is_first_touch_policy policy then granularity else get_size_per_node d.

(** The table [global_ptr::policies] restricted to the static policies. *)
Definition static_policy (policy bs : Z) (d : base_distribution) : option placement :=
  if policy =? 0 then Some (naive_distribution d)
  else if policy =? 1 then Some (cyclic_distribution d bs)
  else if policy =? 2 then Some (skew_mapp_distribution d bs)
  else if policy =? 3 then Some (prime_mapp_distribution d bs)
  else None.

(** ** The contract of a policy *)

(** A memory space as the backends set it up: equal shares, all arithmetic of
    the policies below [2^64]. *)
Record space_ok (d : base_distribution) : Prop := {
  so_nodes : 1 <= nodes d < 2 ^ 30;
  so_start : 0 <= start_address d;
  so_end : start_address d + total_size d < 2 ^ 64;
  so_size : total_size d < 2 ^ 62;
  so_spn : 0 < size_per_node d;
  so_total : total_size d = nodes d * size_per_node d;
}.

Definition in_space (d : base_distribution) (ptr : Z) : Prop :=
  start_address d <= ptr < start_address d + total_size d.

Class PlacementLaws (d : base_distribution) (pl : placement) : Prop := {
  pl_home_ok ptr : in_space d ptr ->
    exists h, homenode pl ptr = Ok h /\ 0 <= h < nodes d;
  pl_offset_ok ptr : in_space d ptr ->
    exists o, local_offset pl ptr = Ok o /\ 0 <= o < size_per_node d;
  pl_injective p q h o : in_space d p -> in_space d q ->
    homenode pl p = Ok h -> homenode pl q = Ok h ->
    local_offset pl p = Ok o -> local_offset pl q = Ok o -> p = q;
  pl_page p k h o : in_space d p ->
    (p - start_address d) mod granularity = 0 -> 0 <= k < granularity ->
    homenode pl p = Ok h -> local_offset pl p = Ok o ->
    homenode pl (p + k) = Ok h /\ local_offset pl (p + k) = Ok (o + k);
  pl_peek ptr : peek_homenode pl ptr = homenode pl ptr /\
    peek_local_offset pl ptr = local_offset pl ptr;
}.

(** A policy that maps whole blocks of [B] bytes: block [b] is the [rank b]-th
    block of node [home b]. *)
Record block_scheme (d : base_distribution) (B : Z) (home rank : Z -> Z)
    (pl : placement) : Prop := {
  bsc_block : 0 < B /\ (granularity | B);
  bsc_home_range b : 0 <= b < total_size d / B -> 0 <= home b < nodes d;
  bsc_rank_range b : 0 <= b < total_size d / B ->
    0 <= rank b /\ (rank b + 1) * B <= size_per_node d;
  bsc_inj b c : 0 <= b < total_size d / B -> 0 <= c < total_size d / B ->
    home b = home c -> rank b = rank c -> b = c;
  bsc_div : (B | total_size d);
  bsc_homenode r : 0 <= r < total_size d ->
    homenode pl (start_address d + r) = Ok (home (r / B));
  bsc_offset r : 0 <= r < total_size d ->
    local_offset pl (start_address d + r) = Ok (rank (r / B) * B + r mod B);
  bsc_peek ptr : peek_homenode pl ptr = homenode pl ptr /\
    peek_local_offset pl ptr = local_offset pl ptr;
}.

Lemma block_index_range T B r : 0 < B -> (B | T) -> 0 <= r < T -> 0 <= r / B < T / B.
Proof.
  intros HB [k ->] Hr. rewrite Z.div_mul by lia. split; [apply Z.div_pos; lia|].
  apply Z.div_lt_upper_bound; lia.
Qed.

(** Moving inside a page stays inside the block. *)
Lemma block_page_step g B r k :
  0 < g -> 0 < B -> (g | B) -> r mod g = 0 -> 0 <= k < g ->
  (r + k) / B = r / B /\ (r + k) mod B = r mod B + k.
Proof.
  intros Hg HB [c Hc] Hr Hk.
  assert (r mod B + k < B).
  { pose proof (Z.mod_pos_bound r B HB).
    assert (Hz : (r mod B) mod g = 0).
    { rewrite Z.mod_mod_divide by (exists c; lia). done. }
    apply Z.mod_divide in Hz as [e He]; [|lia]. assert (e < c) by nia. nia. }
  pose proof (Z.mod_pos_bound r B HB). pose proof (Z.div_mod r B ltac:(lia)).
  apply div_mod_split; lia.
Qed.

Lemma block_scheme_laws d B home rank pl :
  space_ok d -> block_scheme d B home rank pl -> PlacementLaws d pl.
Proof.
  intros Hd [[HB HgB] Hhome Hrank Hinj Hdiv Hh Ho Hpeek].
  assert (Hrel : forall p, in_space d p -> exists r, p = start_address d + r /\
            0 <= r < total_size d /\ 0 <= r / B < total_size d / B).
  { intros p Hp. exists (p - start_address d). unfold in_space in Hp.
    split; [lia|]. split; [lia|]. apply block_index_range; auto; lia. }
  split.
  - intros p (r & -> & Hr & Hb)%Hrel. rewrite Hh by done. eauto.
  - intros p (r & -> & Hr & Hb)%Hrel. rewrite Ho by done. eexists; split; [done|].
    pose proof (Hrank _ Hb). pose proof (Z.mod_pos_bound r B HB). nia.
  - intros p q h o (r & -> & Hr & Hb)%Hrel (s & -> & Hs & Hc)%Hrel.
    rewrite !Hh, !Ho by done. intros [= E1] [= E2] [= E3] [= E4].
    pose proof (Z.mod_pos_bound r B HB). pose proof (Z.mod_pos_bound s B HB).
    destruct (block_pos_inj B (rank (r / B)) (rank (s / B)) (r mod B) (s mod B))
      as [Er Em]; try lia.
    assert (r / B = s / B) as Eb by (apply Hinj; auto; lia).
    rewrite (Z.div_mod r B), (Z.div_mod s B), Eb, Em by lia. done.
  - intros p k h o (r & -> & Hr & Hb)%Hrel Hal Hk.
    replace (start_address d + r - start_address d) with r in Hal by ring.
    rewrite Hh, Ho by done. intros [= E1] [= E2].
    destruct (block_page_step granularity B r k ltac:(done) HB HgB Hal Hk) as [Eq Em].
    assert (r + k < total_size d).
    { pose proof (Z.div_mod (r + k) B ltac:(lia)).
      pose proof (Z.mod_pos_bound (r + k) B HB). destruct Hdiv as [c Hc].
      rewrite Hc, Z.div_mul in Hb by lia. rewrite Eq in *. nia. }
    rewrite <- Z.add_assoc, Hh, Ho, Eq, Em by lia. split; f_equal; lia.
  - done.
Qed.

(** ** Machine-level facts *)
Section Machine.

Context (d : base_distribution) (Hd : space_ok d).

Lemma rel_of r : 0 <= r < total_size d -> rel d (start_address d + r) = r.
Proof using Hd.
  intros Hr. unfold rel. destruct Hd.
  replace (start_address d + r) with (r + start_address d) by ring.
  unwrap. lia.
Qed.

Lemma page_base_of r :
  0 <= r < total_size d ->
  page_base d (start_address d + r) = r - r mod granularity.
Proof using Hd.
  intros Hr. unfold page_base. rewrite rel_of by done. destruct Hd.
  pose proof (Z.mod_pos_bound r granularity ltac:(done)).
  pose proof (Z.div_mod r granularity ltac:(done)). unfold granularity in *. unwrap. lia.
Qed.

(** The block of a page base is the block of the address, and the position
    inside the block is recovered by adding the drift. *)
Lemma page_base_block B r :
  0 < B -> (granularity | B) ->
  (r - r mod granularity) / B = r / B /\
  (r - r mod granularity) mod B + r mod granularity = r mod B.
Proof using.
  intros HB HgB. pose proof (Z.mod_pos_bound r granularity ltac:(done)) as Hm.
  destruct (block_page_step granularity B (r - r mod granularity) (r mod granularity))
    as [E1 E2]; try done.
  { rewrite Zminus_mod_idemp_r, Z.sub_diag. done. }
  rewrite Z.sub_add in E1, E2. lia.
Qed.

Lemma check_homenode_ok h : 0 <= h < nodes d -> check_homenode d h = Ok h.
Proof using. intros H. unfold check_homenode. destruct (Z.leb_spec (nodes d) h); [lia|done]. Qed.

Lemma check_offset_ok o : 0 <= o < size_per_node d -> check_offset d o = Ok o.
Proof using.
  intros H. unfold check_offset. destruct (Z.leb_spec (size_per_node d) o); [lia|done].
Qed.

Lemma spn_le_total : size_per_node d <= total_size d.
Proof using Hd. destruct Hd. nia. Qed.

Lemma rounds_rank_bound b k : 0 <= b < k * nodes d -> 0 <= b / nodes d < k.
Proof using Hd.
  intros Hb. destruct Hd. split; [apply Z.div_pos; lia|].
  apply Z.div_lt_upper_bound; lia.
Qed.

End Machine.

(** ** The policies keep the contract *)
Section Policies.

Context (d : base_distribution) (Hd : space_ok d).

Theorem naive_scheme :
  (granularity | size_per_node d) ->
  block_scheme d (size_per_node d) (fun b => b) (fun _ => 0) (naive_distribution d).
Proof using Hd.
  intros Hg. destruct Hd.
  assert (Ht : total_size d / size_per_node d = nodes d)
    by (rewrite so_total0; apply Z.div_mul; lia).
  assert (Hhome : forall r, 0 <= r < total_size d ->
            naive_homenode d (start_address d + r) = Ok (r / size_per_node d)).
  { intros r Hr. unfold naive_homenode. rewrite rel_of by done.
    pose proof (block_index_range (total_size d) (size_per_node d) r so_spn0) as Hb.
    rewrite Ht in Hb. specialize (Hb ltac:(exists (nodes d); lia) Hr).
    rewrite u32_small by lia. apply check_homenode_ok; lia. }
  split; simpl; try done; rewrite ?Ht.
  - intros b Hb. lia.
  - intros b Hb. lia.
  - exists (nodes d). lia.
  - intros r Hr. unfold naive_local_offset. rewrite Hhome by done. simpl.
    rewrite rel_of by done.
    pose proof (Z.div_mod r (size_per_node d) ltac:(lia)).
    pose proof (Z.mod_pos_bound r (size_per_node d) ltac:(lia)).
    pose proof (Z.div_pos r (size_per_node d) ltac:(lia) ltac:(lia)).
    assert (0 <= r / size_per_node d * size_per_node d <= r) by nia.
    unwrap. rewrite check_offset_ok by lia. f_equal. lia.
Qed.

#[export] Instance naive_laws :
  (granularity | size_per_node d) -> PlacementLaws d (naive_distribution d).
Proof using Hd. intros Hg. eapply block_scheme_laws; [done|]. by apply naive_scheme. Qed.

(** For the block-cyclic policies the space is a whole number of rounds. *)
Context (bs : Z) (Hbs : 1 <= bs).

Section Rounds.

Context (Hfit : (granularity * nodes d * bs | total_size d)).

Let B := bs * granularity.

Lemma rounds_block_fits : 0 < B < 2 ^ 62 /\ nodes d * B <= total_size d.
Proof using Hd Hbs Hfit.
  destruct Hd, Hfit as [k Hk]. unfold granularity in *. unfold B.
  assert (0 < k) by nia. nia.
Qed.

Lemma rounds_mul64 : mul64 bs granularity = B.
Proof using Hd Hbs Hfit. pose proof rounds_block_fits. unfold mul64, B in *. unwrap. done. Qed.

Lemma rounds_spn : exists k, 0 < k /\ size_per_node d = k * B /\ total_size d / B = k * nodes d
  /\ (B | total_size d).
Proof using Hd Hbs Hfit.
  pose proof rounds_block_fits as Hb. destruct Hd, Hfit as [k Hk]. exists k.
  assert (total_size d = k * nodes d * B) as Ht by (unfold B; lia).
  assert (0 < k) by (unfold granularity in *; nia).
  repeat split; try done.
  - unfold B in *. nia.
  - rewrite Ht, Z.div_mul by lia. lia.
  - exists (k * nodes d). lia.
Qed.

(** The offset expression the cyclic policies share. *)
Lemma rounds_offset r :
  0 <= r < total_size d ->
  add64 (add64 (mul64 ((r - r mod granularity) / B / nodes d) B)
               ((r - r mod granularity) mod B)) (r mod granularity)
  = (r / B / nodes d) * B + r mod B.
Proof using Hd Hbs Hfit.
  intros Hr. pose proof rounds_block_fits as [Hb Hb']. destruct Hd.
  assert (HgB : (granularity | B)) by (exists bs; done).
  destruct (page_base_block B r ltac:(lia) HgB) as [-> Hp].
  pose proof (Z.mod_pos_bound r granularity ltac:(done)).
  pose proof (Z.mod_pos_bound (r - r mod granularity) B ltac:(lia)).
  pose proof (Z.div_mod r B ltac:(lia)). pose proof (Z.mod_pos_bound r B ltac:(lia)).
  pose proof (Z.div_pos r B ltac:(lia) ltac:(lia)).
  pose proof (Z.div_pos (r / B) (nodes d) ltac:(lia) ltac:(lia)).
  pose proof (Z.div_le_upper_bound (r / B) (nodes d) (r / B) ltac:(lia) ltac:(nia)).
  assert (0 <= r / B / nodes d * B <= r) by nia.
  unwrap. lia.
Qed.

Lemma rounds_offset_check r :
  0 <= r < total_size d ->
  check_offset d ((r / B / nodes d) * B + r mod B)
  = Ok ((r / B / nodes d) * B + r mod B).
Proof using Hd Hbs Hfit.
  intros Hr. pose proof rounds_block_fits as [Hb _].
  destruct rounds_spn as (k & Hk & Hspn & Ht & Hdv).
  pose proof (block_index_range _ _ r (proj1 Hb) Hdv Hr) as Hi. rewrite Ht in Hi.
  pose proof (rounds_rank_bound d Hd _ _ Hi). pose proof (Z.mod_pos_bound r B (proj1 Hb)).
  apply check_offset_ok. nia.
Qed.

(** A policy whose rank is [b / nodes] and whose home rotates with the round is
    a block scheme. *)
Lemma rotated_scheme (rot : Z -> Z) pl :
  (forall r, 0 <= r < total_size d ->
     homenode pl (start_address d + r) = Ok ((r / B + rot (r / B / nodes d)) mod nodes d)) ->
  (forall r, 0 <= r < total_size d ->
     local_offset pl (start_address d + r) = Ok ((r / B / nodes d) * B + r mod B)) ->
  (forall ptr, peek_homenode pl ptr = homenode pl ptr /\
     peek_local_offset pl ptr = local_offset pl ptr) ->
  block_scheme d B (fun b => (b + rot (b / nodes d)) mod nodes d) (fun b => b / nodes d) pl.
Proof using Hd Hbs Hfit.
  intros Hh Ho Hpk. pose proof rounds_block_fits as [Hb _].
  destruct rounds_spn as (k & Hk & Hspn & Ht & Hdv). destruct Hd.
  split; try done; rewrite ?Ht.
  - split; [lia|]. exists bs. done.
  - intros b Hbb. apply Z.mod_pos_bound. lia.
  - intros b Hbb. pose proof (rounds_rank_bound d Hd b k Hbb). nia.
  - intros b c Hbb Hcc Eh Er. apply (rotated_round_inj (nodes d) rot); [lia|done|done].
Qed.

Theorem cyclic_scheme :
  block_scheme d B (fun b => (b + 0) mod nodes d) (fun b => b / nodes d)
    (cyclic_distribution d bs).
Proof using Hd Hbs Hfit.
  pose proof rounds_block_fits as [Hb _]. pose proof (so_nodes d Hd).
  assert (HgB : (granularity | B)) by (exists bs; done).
  apply (rotated_scheme (fun _ => 0)); [| |done]; intros r Hr; simpl;
    unfold cyclic_homenode, cyclic_local_offset;
    rewrite rounds_mul64, page_base_of by done.
  - destruct (page_base_block B r ltac:(lia) HgB) as [-> _].
    pose proof (Z.mod_pos_bound (r / B) (nodes d) ltac:(lia)).
    rewrite Z.add_0_r, u32_small by lia. apply check_homenode_ok; lia.
  - rewrite rel_of, rounds_offset by done. by apply rounds_offset_check.
Qed.

Theorem skew_mapp_scheme :
  block_scheme d B (fun b => (b + (b / nodes d + 1)) mod nodes d) (fun b => b / nodes d)
    (skew_mapp_distribution d bs).
Proof using Hd Hbs Hfit.
  pose proof rounds_block_fits as [Hb _]. pose proof (so_nodes d Hd).
  pose proof (so_size d Hd).
  assert (HgB : (granularity | B)) by (exists bs; done).
  apply (rotated_scheme (fun q => q + 1)); [| |done]; intros r Hr; simpl;
    unfold skew_mapp_homenode, skew_mapp_local_offset;
    rewrite rounds_mul64, page_base_of by done.
  - destruct (page_base_block B r ltac:(lia) HgB) as [-> _].
    pose proof (Z.div_pos r B ltac:(lia) ltac:(lia)).
    pose proof (Z.div_le_upper_bound r B r ltac:(lia) ltac:(nia)).
    pose proof (Z.div_pos (r / B) (nodes d) ltac:(lia) ltac:(lia)).
    pose proof (Z.div_le_upper_bound (r / B) (nodes d) (r / B) ltac:(lia) ltac:(nia)).
    pose proof (Z.mod_pos_bound (r / B + (r / B / nodes d + 1)) (nodes d) ltac:(lia)).
    unwrap. rewrite <- Z.add_assoc, u32_small by lia. apply check_homenode_ok; lia.
  - rewrite rel_of, rounds_offset by done. by apply rounds_offset_check.
Qed.

#[export] Instance cyclic_laws : PlacementLaws d (cyclic_distribution d bs).
Proof using Hd Hbs Hfit. eapply block_scheme_laws; [done|]. exact cyclic_scheme. Qed.

#[export] Instance skew_mapp_laws : PlacementLaws d (skew_mapp_distribution d bs).
Proof using Hd Hbs Hfit. eapply block_scheme_laws; [done|]. exact skew_mapp_scheme. Qed.

End Rounds.

Section PrimeRounds.

Context (Hfit : (granularity * nodes d * (bs * prime_of d) | total_size d)).

Let B := bs * granularity.
Let N := nodes d.
Let P := prime_of d.

Lemma prime_of_eq : P <= 2 * N /\ 1 <= N <= P.
Proof using B Hd N P bs d.
  destruct Hd. unfold P, N, prime_of. rewrite u32_small by lia.
  pose proof (Z.div_le_upper_bound (3 * nodes d) 2 (2 * nodes d)).
  pose proof (Z.div_le_lower_bound (3 * nodes d) 2 (nodes d)). lia.
Qed.

Lemma prime_rounds : exists k, 0 < k /\ total_size d = k * N * P * B /\
  size_per_node d = k * P * B /\ total_size d / B = k * N * P /\ (B | total_size d) /\
  0 < B /\ N * B <= total_size d.
Proof using Hd Hbs Hfit.
  pose proof prime_of_eq as [HP2 HNP]. destruct Hd, Hfit as [k Hk]. exists k.
  fold P N in Hk. fold N in so_total0, so_nodes0.
  assert (Ht : total_size d = k * N * P * B) by (unfold B; lia).
  assert (HB : 0 < B) by (unfold B, granularity; lia).
  assert (0 < N * P * B) by (apply Z.mul_pos_pos; nia).
  assert (0 < k) by nia.
  repeat split; try done.
  - assert (N * (size_per_node d - k * P * B) = 0) by lia. nia.
  - rewrite Ht, Z.div_mul by lia. done.
  - exists (k * N * P). lia.
  - assert (N * B * 1 <= N * B * (k * P)) by (apply Z.mul_le_mono_nonneg_l; nia). lia.
Qed.

Lemma prime_mul64 : mul64 bs granularity = B.
Proof using Hd Hbs Hfit.
  destruct prime_rounds as (k & ? & ? & ? & ? & ? & HB & Hle).
  pose proof prime_of_eq as [HP2 HNP]. destruct Hd.
  assert (B <= N * B) by nia. unfold mul64, B in *. unwrap. done.
Qed.

Lemma prime_homenode_of r :
  0 <= r < total_size d ->
  prime_mapp_homenode d bs (start_address d + r) = Ok (two_phase_home N P (r / B)).
Proof using Hd Hbs Hfit.
  intros Hr. destruct prime_rounds as (k & ? & ? & ? & ? & Hdv & HB & Hle).
  pose proof prime_of_eq as [HP2 HNP]. pose proof (two_phase_home_bound N P ltac:(lia) ltac:(lia) (r / B)) as Hh.
  unfold prime_mapp_homenode. rewrite prime_mul64, page_base_of by done.
  destruct (page_base_block B r HB ltac:(by exists bs)) as [-> _].
  fold P N. pose proof (Z.mod_pos_bound (r / B) P ltac:(lia)).
  pose proof (Z.div_mod (r / B) P ltac:(lia)).
  pose proof (Z.div_pos r B ltac:(lia) ltac:(lia)).
  pose proof (Z.div_pos (r / B) P ltac:(lia) ltac:(lia)).
  pose proof (Z.div_le_upper_bound r B r ltac:(lia) ltac:(nia)).
  assert (0 <= r / B / P * (P - N) <= r / B) by nia.
  destruct Hd. fold N in so_nodes0. unfold two_phase_home in *.
  destruct (Z.leb_spec N (r / B mod P)); unwrap; by apply check_homenode_ok.
Qed.

Lemma prime_search_ok b : forall c h hc drift,
  0 <= b -> h <= b -> 0 <= h < N -> 0 <= c -> c + drift < B -> 0 <= drift -> 0 <= hc ->
  (two_phase_rank N P h (b + 1) + hc + 1) * B <= size_per_node d ->
  (b + 1) * B <= total_size d ->
  prime_mapp_search (Z.to_nat (b + 1)) d bs h (b * B + c) hc drift
  = Ok ((two_phase_rank N P h (b + 1) + hc) * B + c + drift).
Proof using Hd Hbs Hfit.
  destruct prime_rounds as (k & Hk & Ht & Hspn & Htd & Hdv & HB & Hle).
  pose proof prime_of_eq as [HP2 HNP]. pose proof (spn_le_total d Hd) as Hst.
  remember (Z.to_nat (b + 1)) as fuel eqn:Hfuel.
  revert b Hfuel. induction fuel as [|fuel IH]; intros b Hfuel c h hc drift Hb Hhb Hh Hc Hcd Hdr Hhc Hcap Htot;
    [lia|].
  destruct Hd. simpl prime_mapp_search. rewrite prime_mul64. fold N P.
  assert (HbB : 0 <= b * B) by (apply Z.mul_nonneg_nonneg; lia).
  assert (Haddr : 0 <= b * B + c < total_size d) by lia.
  rewrite (add64_small (start_address d)), prime_homenode_of by lia. cbn [mbind outcome_bind].
  destruct (div_mod_split (b * B + c) B b c ltac:(lia) ltac:(ring)) as [-> ->].
  pose proof (two_phase_rank_succ N P ltac:(lia) ltac:(lia) h b Hh) as Hsucc.
  pose proof (two_phase_rank_nonneg N P ltac:(lia) ltac:(lia) h b Hh Hb) as Hnn.
  set (rk := two_phase_rank N P h b) in *. rewrite Hsucc in *.
  pose proof (Z.div_pos b N ltac:(lia) ltac:(lia)).
  pose proof (Z.div_le_upper_bound b N b ltac:(lia) ltac:(nia)).
  rewrite (mul64_small N B) by lia.
  (* the stop test, restricted to the home found *)
  destruct (Z.eqb_spec (two_phase_home N P b) h) as [Eh|Eh]; simpl; cycle 1.
  { rewrite !andb_false_r. simpl.
    assert (h < b).
    { destruct (Z.lt_ge_cases h b); [done|]. assert (h = b) as -> by lia.
      destruct (two_phase_first N P ltac:(lia) ltac:(lia) b ltac:(lia)). lia. }
    assert (rk + 0 + hc + 1 <= size_per_node d) by (apply (mul_le_cap _ B); lia).
    assert (1 * B <= b * B) by (apply Z.mul_le_mono_nonneg_r; lia).
    rewrite Z.add_0_r in *. unwrap.
    replace (b * B + c - B) with ((b - 1) * B + c) by ring.
    rewrite IH by (rewrite ?Z.sub_add; fold rk; lia). rewrite Z.sub_add. fold rk.
    f_equal. lia. }
  rewrite !andb_true_r.
  assert (rk + 1 + hc + 1 <= size_per_node d) by (apply (mul_le_cap _ B); lia).
  destruct (orb (b * B + c <=? N * B) (N <=? b mod P)) eqn:Estop; cycle 1.
  { apply orb_false_iff in Estop as [E1 E2]. apply Z.leb_gt in E1, E2.
    assert (N <= b) by (apply (block_lt_cancel _ _ B c); lia).
    assert (h < b) by lia.
    assert (1 * B <= b * B) by (apply Z.mul_le_mono_nonneg_r; lia).
    unwrap. replace (b * B + c - B) with ((b - 1) * B + c) by ring.
    rewrite IH by (rewrite ?Z.sub_add; fold rk; lia). rewrite Z.sub_add. fold rk.
    f_equal. lia. }
  assert (b / N = rk) as ->.
  { unfold rk. rewrite <- Eh. apply two_phase_rank_stop; [lia..|].
    apply orb_true_iff in Estop as [E|E]; apply Z.leb_le in E; [left|by right].
    apply (block_le_cancel _ _ B c); lia. }
  assert (0 <= rk * B) by (apply Z.mul_nonneg_nonneg; lia).
  assert (0 <= (hc + 1) * B) by (apply Z.mul_nonneg_nonneg; lia).
  assert (rk * B + (hc + 1) * B + B <= size_per_node d) by lia.
  unwrap. f_equal. ring.
Qed.

Lemma prime_offset_of r :
  0 <= r < total_size d ->
  prime_mapp_local_offset d bs (start_address d + r)
  = Ok (two_phase_rank N P (two_phase_home N P (r / B)) (r / B) * B + r mod B).
Proof using Hd Hbs Hfit.
  intros Hr. destruct prime_rounds as (k & Hk & Ht & Hspn & Htd & Hdv & HB & Hle).
  pose proof prime_of_eq as [HP2 HNP]. pose proof (spn_le_total d Hd) as Hst.
  unfold prime_mapp_local_offset. rewrite prime_mul64, page_base_of, rel_of by done.
  fold N P. destruct (page_base_block B r HB ltac:(by exists bs)) as [-> Hpos].
  pose proof (Z.mod_pos_bound r granularity ltac:(done)) as Hdr.
  pose proof (Z.mod_pos_bound (r - r mod granularity) B HB) as Hc.
  set (drift := r mod granularity) in *. set (c := (r - drift) mod B) in *.
  pose proof (Z.mod_pos_bound r B HB) as Hrm. pose proof (Z.div_mod r B ltac:(lia)) as Hrd.
  pose proof (block_index_range _ _ r HB Hdv Hr) as Hbr. rewrite Htd in Hbr.
  assert (Hpb : r - drift = r / B * B + c) by lia. rewrite Hpb.
  set (b := r / B) in *. set (h := two_phase_home N P b).
  pose proof (two_phase_home_bound N P ltac:(lia) ltac:(lia) b) as Hh. fold h in Hh.
  pose proof (two_phase_rank_bound N P ltac:(lia) ltac:(lia) b k ltac:(lia) ltac:(lia)) as Hrb.
  pose proof (two_phase_rank_nonneg N P ltac:(lia) ltac:(lia) h b Hh ltac:(lia)) as Hrn.
  fold h in Hrb. set (rk := two_phase_rank N P h b) in *.
  assert (0 <= rk * B) by (apply Z.mul_nonneg_nonneg; lia).
  assert ((rk + 1) * B <= size_per_node d) by (rewrite Hspn; apply Z.mul_le_mono_nonneg_r; lia).
  assert (0 <= b * B) by (apply Z.mul_nonneg_nonneg; lia).
  destruct Hd. rewrite (mul64_small N B) by lia.
  destruct ((b * B + c <=? N * B) || (N <=? b mod P)) eqn:Estop.
  - assert (b / N = rk) as ->.
    { apply two_phase_rank_stop; [lia..|].
      apply orb_true_iff in Estop as [E|E]; apply Z.leb_le in E; [left|by right].
      apply (block_le_cancel _ _ B c); lia. }
    unwrap. simpl. rewrite check_offset_ok by lia. f_equal. lia.
  - apply orb_false_iff in Estop as [E1 E2]. apply Z.leb_gt in E1, E2.
    assert (N <= b) by (apply (block_lt_cancel _ _ B c); lia).
    assert (1 * B <= b * B) by (apply Z.mul_le_mono_nonneg_r; lia).
    rewrite prime_homenode_of by done. fold b h. cbn [mbind outcome_bind].
    rewrite sub64_small by lia.
    replace (b * B + c - B) with ((b - 1) * B + c) by ring.
    replace (Z.to_nat b) with (Z.to_nat (b - 1 + 1)) by (f_equal; lia).
    rewrite prime_search_ok by (rewrite ?Z.sub_add; fold rk; lia).
    rewrite Z.sub_add. fold rk. cbn [mbind outcome_bind].
    rewrite check_offset_ok by lia. f_equal. lia.
Qed.

Theorem prime_mapp_scheme :
  block_scheme d B (two_phase_home N P) (fun b => two_phase_rank N P (two_phase_home N P b) b)
    (prime_mapp_distribution d bs).
Proof using Hd Hbs Hfit.
  destruct prime_rounds as (k & Hk & Ht & Hspn & Htd & Hdv & HB & Hle).
  pose proof prime_of_eq as [HP2 HNP].
  split; try done; rewrite ?Htd.
  - split; [done|]. by exists bs.
  - intros b Hb. apply two_phase_home_bound; lia.
  - intros b Hb. split; [apply two_phase_rank_nonneg; try lia; apply two_phase_home_bound; lia|].
    rewrite Hspn. apply Z.mul_le_mono_nonneg_r; [lia|].
    pose proof (two_phase_rank_bound N P ltac:(lia) ltac:(lia) b k ltac:(lia) ltac:(lia)). lia.
  - intros b c Hb Hc Eh Er. apply (two_phase_rank_inj N P); auto; lia.
  - apply prime_homenode_of.
  - apply prime_offset_of.
Qed.

#[export] Instance prime_mapp_laws : PlacementLaws d (prime_mapp_distribution d bs).
Proof using Hd Hbs Hfit. eapply block_scheme_laws; [done|]. exact prime_mapp_scheme. Qed.

End PrimeRounds.

End Policies.

(** ** Properties *)

(** The alignment [argo_initialize] gives the space for a policy. *)
Definition policy_fits (policy bs : Z) (d : base_distribution) : Prop :=
  (granularity * nodes d *
     (if policy =? 0 then 1 else if policy =? 3 then bs * prime_of d else bs)
   | total_size d).

Lemma static_policy_laws (d : base_distribution) (policy bs : Z) :
  space_ok d -> 0 <= policy <= 3 -> 1 <= bs -> policy_fits policy bs d ->
  exists pl, static_policy policy bs d = Some pl /\ PlacementLaws d pl.
Proof.
  intros Hd Hp Hbs Hfit. unfold policy_fits in Hfit.
  assert (policy = 0 \/ policy = 1 \/ policy = 2 \/ policy = 3) as [->|[->|[->| ->]]] by lia;
    simpl in *; (eexists; split; [reflexivity|]).
  - apply naive_laws; [done|]. destruct Hfit as [k Hk], Hd. exists k. unfold granularity in *.
    nia.
  - by apply cyclic_laws.
  - by apply skew_mapp_laws.
  - by apply prime_mapp_laws.
Qed.

(** C21: every static policy keeps the placement contract on a space aligned for
    it: every address has a home node and an offset within that node's share, the
    pair identifies the address, a page is contiguous at its home, and peeking
    answers the same as asking. *)
Theorem static_policy_contract (d : base_distribution) (policy bs : Z) :
  space_ok d -> 0 <= policy <= 3 -> 1 <= bs -> policy_fits policy bs d ->
  exists pl, static_policy policy bs d = Some pl /\ PlacementLaws d pl.
Proof. apply static_policy_laws. Qed.

(** A four-node space of 48 blocks of two pages. *)
Definition demo_space : base_distribution := set_memory_space 4 65536 (48 * 8192).

Lemma static_policy_contract_witness :
  exists pl, static_policy 3 2 demo_space = Some pl /\ PlacementLaws demo_space pl.
Proof.
  apply (static_policy_contract demo_space 3 2); [|lia|lia|].
  - split; vm_compute; intuition congruence.
  - by exists 2.
Defined.


Definition ok_or (dflt : Z) (o : outcome Z) : Z := match o with Ok v => v | _ => dflt end.

(** Counting: an injective list of home/offset pairs that is as long as the list
    of all pairs contains every pair. *)
Lemma placement_covers d pl :
  space_ok d -> PlacementLaws d pl ->
  incl (list_prod (seqZ 0 (nodes d)) (seqZ 0 (size_per_node d)))
       ((fun i => (ok_or 0 (homenode pl (start_address d + i)),
                   ok_or 0 (local_offset pl (start_address d + i))))
          <$> seqZ 0 (total_size d)).
Proof.
  intros Hd Hpl. set (f := fun i => _).
  assert (Hin : forall i, i ∈ seqZ 0 (total_size d) -> in_space d (start_address d + i)).
  { intros i Hi%elem_of_seqZ. unfold in_space. lia. }
  apply List.NoDup_length_incl.
  - apply NoDup_ListNoDup, NoDup_fmap_2_strong; [|apply NoDup_seqZ].
    intros i j Hi%Hin Hj%Hin. unfold f. intros [= E1 E2].
    destruct (pl_home_ok _ Hi) as (h & Eh & _), (pl_home_ok _ Hj) as (h' & Eh' & _).
    destruct (pl_offset_ok _ Hi) as (o & Eo & _), (pl_offset_ok _ Hj) as (o' & Eo' & _).
    rewrite Eh, Eh', Eo, Eo' in *. simpl in *. subst.
    pose proof (pl_injective _ _ _ _ Hi Hj Eh Eh' Eo Eo'). lia.
  - rewrite List.length_prod, length_fmap, !length_seqZ. destruct Hd.
    rewrite so_total0, Z2Nat.inj_mul by lia. done.
  - intros [h o] (i & E & Hi%Hin)%list_elem_of_In%list_elem_of_fmap. unfold f in E.
    destruct (pl_home_ok _ Hi) as (h' & Eh & Hh), (pl_offset_ok _ Hi) as (o' & Eo & Ho).
    rewrite Eh, Eo in E. simpl in E. injection E as -> ->.
    apply List.in_prod; apply list_elem_of_In, elem_of_seqZ; lia.
Qed.

(** Any policy with the contract uses the backing store completely: every
    offset of every node's share backs exactly one address. *)
Theorem placement_onto (d : base_distribution) (pl : placement) (h o : Z) :
  space_ok d -> PlacementLaws d pl -> 0 <= h < nodes d -> 0 <= o < size_per_node d ->
  exists! ptr, in_space d ptr /\ homenode pl ptr = Ok h /\ local_offset pl ptr = Ok o.
Proof.
  intros Hd Hpl Hh Ho.
  assert (Hp : List.In (h, o) (list_prod (seqZ 0 (nodes d)) (seqZ 0 (size_per_node d)))).
  { apply List.in_prod; apply list_elem_of_In, elem_of_seqZ; lia. }
  apply (placement_covers d pl) in Hp; [|done..].
  apply list_elem_of_In, list_elem_of_fmap in Hp as (i & E & Hi%elem_of_seqZ).
  assert (Hin : in_space d (start_address d + i)) by (unfold in_space; lia).
  destruct (pl_home_ok _ Hin) as (h' & Eh & _), (pl_offset_ok _ Hin) as (o' & Eo & _).
  rewrite Eh, Eo in E. simpl in E. injection E as -> ->.
  exists (start_address d + i). split; [done|].
  intros q (Hq & Eh' & Eo'). by apply (pl_injective (pl := pl) _ _ h' o').
Qed.

Lemma placement_onto_witness :
  exists! ptr, in_space demo_space ptr /\
    homenode (cyclic_distribution demo_space 2) ptr = Ok 3 /\
    local_offset (cyclic_distribution demo_space 2) ptr = Ok 8200.
Proof.
  assert (Hd : space_ok demo_space) by (split; vm_compute; intuition congruence).
  apply (placement_onto demo_space (cyclic_distribution demo_space 2) 3 8200 Hd).
  - apply cyclic_laws; [done|lia|]. by exists 12.
  - vm_compute; intuition congruence.
  - vm_compute; intuition congruence.
Defined.

(** The blocks before block [b] that prime-mapp places on node [h]. *)
Definition prime_mapp_earlier (d : base_distribution) (bs h b : Z) : list Z :=
  filter (fun q => prime_mapp_homenode d bs (start_address d + q * (bs * granularity)) = Ok h)
    (seqZ 0 b).

Lemma prime_mapp_earlier_rank d bs h b :
  space_ok d -> 1 <= bs -> (granularity * nodes d * (bs * prime_of d) | total_size d) ->
  0 <= h < nodes d -> 0 <= b -> b * (bs * granularity) <= total_size d ->
  Z.of_nat (length (prime_mapp_earlier d bs h b)) = two_phase_rank (nodes d) (prime_of d) h b.
Proof.
  intros Hd Hbs Hfit Hh Hb Hle.
  destruct (prime_of_eq d Hd bs) as [HP2 HNP].
  revert Hle. pattern b. apply natlike_ind; [| |done]; clear b Hb.
  - intros _. pose proof (two_phase_rank_total (nodes d) (prime_of d) (proj1 HNP) (proj2 HNP) h 0 Hh) as E.
    rewrite !Z.mul_0_l in E. rewrite E by lia. done.
  - intros b Hb IH Hle. unfold prime_mapp_earlier, Z.succ in *.
    assert (HB : 0 < bs * granularity) by (unfold granularity; lia).
    rewrite seqZ_app, filter_app, length_app, Nat2Z.inj_add, IH by lia.
    rewrite two_phase_rank_succ by lia. f_equal.
    rewrite Z.add_0_l, seqZ_cons, filter_cons, seqZ_nil, filter_nil by lia.
    rewrite prime_homenode_of, Z.div_mul by (done || nia).
    destruct (Z.eqb_spec (two_phase_home (nodes d) (prime_of d) b) h);
      case_decide; simpl; congruence || done.
Qed.

(** C22: the backwards search of prime-mapp terminates and finds the right slot:
    the offset it returns is the number of earlier blocks of the same home node
    times the block size, plus the position inside the block. *)
Theorem prime_mapp_local_offset_rank (d : base_distribution) (bs r h : Z) :
  space_ok d -> 1 <= bs -> (granularity * nodes d * (bs * prime_of d) | total_size d) ->
  0 <= r < total_size d ->
  prime_mapp_homenode d bs (start_address d + r) = Ok h ->
  prime_mapp_local_offset d bs (start_address d + r)
  = Ok (Z.of_nat (length (prime_mapp_earlier d bs h (r / (bs * granularity))))
        * (bs * granularity) + r mod (bs * granularity)).
Proof.
  intros Hd Hbs Hfit Hr Hh. rewrite prime_homenode_of in Hh by done. injection Hh as <-.
  destruct (prime_of_eq d Hd bs) as [HP2 HNP].
  assert (HB : 0 < bs * granularity) by (unfold granularity; lia).
  rewrite prime_offset_of, prime_mapp_earlier_rank; try done.
  - apply two_phase_home_bound; lia.
  - apply Z.div_pos; lia.
  - pose proof (Z.mul_div_le r (bs * granularity) HB). lia.
Qed.

Lemma prime_mapp_local_offset_rank_witness :
  prime_mapp_local_offset demo_space 2 (start_address demo_space + 100000)
  = Ok (Z.of_nat (length (prime_mapp_earlier demo_space 2 0 (100000 / (2 * granularity))))
        * (2 * granularity) + 100000 mod (2 * granularity)).
Proof.
  apply (prime_mapp_local_offset_rank demo_space 2 100000 0).
  - split; vm_compute; intuition congruence.
  - lia.
  - by exists 2.
  - vm_compute; intuition congruence.
  - vm_compute. reflexivity.
Defined.

(** [get_ptr] inverts the naive policy: the address it builds from a node and
    an offset is placed on that node at that offset. *)
Theorem naive_get_ptr_roundtrip (d : base_distribution) (h o : Z) :
  space_ok d -> 0 <= h < nodes d -> 0 <= o < size_per_node d ->
  naive_homenode d (get_ptr d h o) = Ok h /\ naive_local_offset d (get_ptr d h o) = Ok o.
Proof.
  intros Hd Hh Ho.
  assert (Hr : 0 <= h * size_per_node d + o < total_size d) by (destruct Hd; nia).
  assert (get_ptr d h o = start_address d + (h * size_per_node d + o)) as ->.
  { unfold get_ptr. destruct Hd. assert (0 <= h * size_per_node d) by nia. unwrap. ring. }
  destruct (div_mod_split (h * size_per_node d + o) (size_per_node d) h o Ho ltac:(ring))
    as [Eq _].
  assert (Hn : naive_homenode d (start_address d + (h * size_per_node d + o)) = Ok h).
  { unfold naive_homenode. rewrite rel_of, Eq by done. destruct Hd.
    rewrite u32_small by lia. apply check_homenode_ok; lia. }
  split; [done|]. unfold naive_local_offset. rewrite Hn. simpl.
  rewrite rel_of by done. destruct Hd. assert (0 <= h * size_per_node d) by nia. unwrap.
  rewrite check_offset_ok by lia. f_equal. ring.
Qed.

Lemma naive_get_ptr_roundtrip_witness :
  naive_homenode demo_space (get_ptr demo_space 2 77) = Ok 2 /\
  naive_local_offset demo_space (get_ptr demo_space 2 77) = Ok 77.
Proof.
  apply (naive_get_ptr_roundtrip demo_space 2 77); [split|..]; vm_compute; intuition congruence.
Defined.
