(* ===== verification/FirstTouch.v ===== *)
(** * The first-touch policy

    [src/src/data_distribution/first_touch_distribution.hpp] with the directory
    operations of [src/src/backend/mpi/mpi.cpp] it is built on.  The owners
    directory and the offsets table are MPI windows: one copy per node.  Entry
    [disp] of node [rank]'s copy is keyed [(rank, disp)]; an absent key still
    holds the value [argo_reset_coherence] stores, [global_null] in the owners
    directory and 0 in the offsets table.

    [FirstTouchNodes] has the policy as the nodes run it, one access to a window at a
    time.  The functions of this file run a whole call of one node while no other node
    is in a call, which is how [GlobalPtr] and the single-node backend use the policy;
    [ft_do_alone] there shows that they are what the accesses add up to.  A spin loop
    that would wait for another node is [Hang]. *)

From S2P Require Import Prelude BlockMap DataDistribution.

Record ft_state := FtState {
  owners_dir : gmap (Z * Z) Z;
  offsets_tbl : gmap (Z * Z) Z;
}.

(** The state [argo_reset_coherence] establishes. *)
Definition ft_reset : ft_state := {| owners_dir := ∅; offsets_tbl := ∅ |}.

Section FirstTouch.

Context (d : base_distribution).

Definition global_null : Z := add64 (total_size d) 1.

(** ** Directory operations (mpi.cpp) *)
Definition load_owner (s : ft_state) (rank disp : Z) : Z :=
  default global_null (owners_dir s !! (rank, disp)).
Definition load_offset (s : ft_state) (rank disp : Z) : Z :=
  default 0 (offsets_tbl s !! (rank, disp)).
Definition put_owner (s : ft_state) (rank disp v : Z) : ft_state :=
  {| owners_dir := <[(rank, disp) := v]> (owners_dir s); offsets_tbl := offsets_tbl s |}.
Definition put_offset (s : ft_state) (rank disp v : Z) : ft_state :=
  {| owners_dir := owners_dir s; offsets_tbl := <[(rank, disp) := v]> (offsets_tbl s) |}.

Definition page_info : Type := Z * Z * Z.

(** [_load_public_owners_dir] and [_load_local_owners_dir] with count 3. *)
Definition load_page_info (s : ft_state) (rank disp : Z) : page_info :=
  (load_owner s rank disp, load_owner s rank (disp + 1), load_owner s rank (disp + 2)).

(** [_store_public_owners_dir] and [_store_local_owners_dir] with count 3. *)
Definition store_page_info (s : ft_state) (rank disp : Z) (pi : page_info) : ft_state :=
  let '(h, o, r) := pi in
  put_owner (put_owner (put_owner s rank disp h) rank (disp + 1) o) rank (disp + 2) r.

(** [_compare_exchange_owners_dir] and [_compare_exchange_offsets_tbl]: the old
    value and the new state. *)
Definition compare_exchange_owners_dir (s : ft_state) (desired expected rank disp : Z) :
    Z * ft_state :=
  let old := load_owner s rank disp in
  (old, if old =? expected then put_owner s rank disp desired else s).
Definition compare_exchange_offsets_tbl (s : ft_state) (desired expected rank disp : Z) :
    Z * ft_state :=
  let old := load_offset s rank disp in
  (old, if old =? expected then put_offset s rank disp desired else s).

Definition is_all_equal_to (pi : page_info) (v : Z) : bool :=
  let '(a, b, c) := pi in (a =? v) && (b =? v) && (c =? v).
Definition is_one_equal_to (pi : page_info) (v : Z) : bool :=
  let '(a, b, c) := pi in (a =? v) || (b =? v) || (c =? v).

(** ** Claiming a page *)
Definition page_info_size : Z := 3.
Definition msg_first_touch_fail : string :=
  "ArgoDSM failed to find a backing node. Please report a bug.".

(** The inner loop of [first_touch]: claim the next offset of node [n], starting
    from the cached [offset].  [inl] is success, [inr] a full node; both carry the
    last offset. *)
Fixpoint claim_offset (fuel : nat) (s : ft_state) (n offset : Z) :
    outcome (ft_state * (Z + Z)) :=
  match fuel with
  | O => Hang
  | S fuel =>
    if offset <? size_per_node d then
      let incr_offset := add64 offset granularity in
      let '(result, s) := compare_exchange_offsets_tbl s incr_offset offset n n in
      if result =? offset then Ok (s, inl offset) else claim_offset fuel s n result
    else Ok (s, inr offset)
  end.

(** The search over the nodes, starting from the claiming one.  The counter
    [searched] runs to [nodes]; [todo] is what is left of it. *)
Fixpoint claim_node (todo : nat) (s : ft_state) (rank n : Z) :
    outcome (ft_state * option (Z * Z)) :=
  match todo with
  | O => Ok (s, None)
  | S todo =>
    let offset := load_offset s rank n in
    '(s, r) ← claim_offset 3 s n offset;
    let off := match r with inl o => o | inr o => o end in
    let s := if n =? rank then s else put_offset s rank n off in
    match r with
    | inl o => Ok (s, Some (n, o))
    | inr _ => claim_node todo s rank (add64 n 1 mod nodes d)
    end
  end.

Definition first_touch (s : ft_state) (rank addr : Z) : outcome ft_state :=
  let idx := mul64 page_info_size (addr / granularity) in
  let cas_node := (addr / granularity) mod nodes d in
  let '(result, s) := compare_exchange_owners_dir s rank global_null cas_node (idx + 2) in
  if result =? global_null then
    '(s, found) ← claim_node (Z.to_nat (nodes d)) s rank rank;
    match found with
    | None => Throw (system_error msg_first_touch_fail)
    | Some (homenode, offset) =>
      let pi := (homenode, offset, rank) in
      let s := store_page_info s rank idx pi in
      Ok (if rank =? cas_node then s else store_page_info s cas_node idx pi)
    end
  else if rank =? cas_node then Ok s
  else
    let pi := load_page_info s cas_node idx in
    if is_one_equal_to pi global_null then Hang
    else Ok (store_page_info s rank idx pi).

Definition update_dirs (s : ft_state) (rank addr : Z) (do_first_touch : bool) :
    outcome ft_state :=
  let idx := mul64 page_info_size (addr / granularity) in
  let cas_node := (addr / granularity) mod nodes d in
  let ownership := load_owner s rank (idx + 2) in
  if ownership =? global_null then
    let pi := load_page_info s cas_node idx in
    if negb (is_all_equal_to pi global_null) then
      if rank =? cas_node then Ok s
      else if is_one_equal_to pi global_null then Hang
      else Ok (store_page_info s rank idx pi)
    else if do_first_touch then first_touch s rank addr else Ok s
  else Ok s.

(** ** The policy methods *)
Definition ft_homenode (s : ft_state) (rank ptr : Z) : outcome (ft_state * Z) :=
  let addr := page_base d ptr in
  let idx := mul64 page_info_size (addr / granularity) in
  s ← update_dirs s rank addr true;
  let homenode := u32 (load_owner s rank idx) in
  if homenode =? u32 global_null then Hang
  else if nodes d <=? homenode then Throw (system_error msg_fetch_homenode_fail)
  else Ok (s, homenode).

Definition ft_peek_homenode (s : ft_state) (rank ptr : Z) : outcome (ft_state * Z) :=
  let addr := page_base d ptr in
  let idx := mul64 page_info_size (addr / granularity) in
  s ← update_dirs s rank addr false;
  let '(h, o, r) := load_page_info s rank idx in
  if negb (r =? global_null) && (h =? global_null) then Hang
  else
    let homenode := if h =? global_null then invalid_node_id else u32 h in
    if nodes d <=? homenode then Throw (system_error msg_fetch_homenode_fail)
    else Ok (s, homenode).

Definition ft_local_offset (s : ft_state) (rank ptr : Z) : outcome (ft_state * Z) :=
  let drift := rel d ptr mod granularity in
  let addr := page_base d ptr in
  let idx := mul64 page_info_size (addr / granularity) in
  s ← update_dirs s rank addr true;
  let offset := load_owner s rank (idx + 1) in
  if offset =? global_null then Hang
  else
    let offset := add64 offset drift in
    if size_per_node d <=? offset then Throw (system_error msg_fetch_offset_fail)
    else Ok (s, offset).

Definition ft_peek_local_offset (s : ft_state) (rank ptr : Z) : outcome (ft_state * Z) :=
  let drift := rel d ptr mod granularity in
  let addr := page_base d ptr in
  let idx := mul64 page_info_size (addr / granularity) in
  s ← update_dirs s rank addr false;
  let '(h, o, r) := load_page_info s rank idx in
  if negb (r =? global_null) && (o =? global_null) then Hang
  else
    let offset := if o =? global_null then invalid_offset else add64 o drift in
    if negb (offset =? invalid_offset) && (size_per_node d <=? offset)
    then Throw (system_error msg_fetch_offset_fail)
    else Ok (s, offset).

End FirstTouch.

(** ** Reading the directory by page *)
Section Directory.

Context (d : base_distribution) (Hd : space_ok d) (Hg : (granularity | size_per_node d)).

Abbreviation N := (nodes d).
Abbreviation gn := (global_null d).
Abbreviation g := granularity.

Definition npages : Z := total_size d / granularity.
Definition cas_of (pg : Z) : Z := pg mod nodes d.
Definition null_info : page_info := (global_null d, global_null d, global_null d).
Definition entry (s : ft_state) (rank pg : Z) : page_info :=
  load_page_info d s rank (3 * pg).
(** The authoritative entry of a page, in its CAS node's window, and the next
    free offset of a node, in its own table. *)
Definition home_entry (s : ft_state) (pg : Z) : page_info := entry s (cas_of pg) pg.
Definition used (s : ft_state) (n : Z) : Z := load_offset s n n.

Lemma gn_eq : gn = total_size d + 1.
Proof using Hd. unfold global_null. destruct Hd. assert (0 < total_size d) by nia. unwrap. done. Qed.

Lemma entry_store s r pg pi r' pg' :
  entry (store_page_info s r (3 * pg) pi) r' pg'
  = if decide (r = r' /\ pg = pg') then pi else entry s r' pg'.
Proof.
  destruct pi as [[h o] w].
  unfold entry, load_page_info, store_page_info, load_owner, put_owner; simpl.
  case_decide as E.
  - destruct E as [-> ->].
    rewrite (lookup_insert_ne _ _ (r', 3 * pg')) by (intros [=]; lia).
    rewrite (lookup_insert_ne _ _ (r', 3 * pg')) by (intros [=]; lia).
    rewrite lookup_insert_eq.
    rewrite (lookup_insert_ne _ _ (r', 3 * pg' + 1)) by (intros [=]; lia).
    rewrite !lookup_insert_eq. done.
  - assert (forall k k', 0 <= k <= 2 -> 0 <= k' <= 2 -> (r, 3 * pg + k) ≠ (r', 3 * pg' + k')) as Hne.
    { intros k k' Hk Hk' [= -> E2]. apply E. split; [done|lia]. }
    pose proof (Hne 0) as H0. rewrite Z.add_0_r in H0.
    rewrite !lookup_insert_ne; try done;
      first [ apply (Hne 2 2); lia | apply (Hne 1 2); lia | apply (Hne 2 1); lia
            | apply (Hne 1 1); lia | apply (H0 1); lia | apply (H0 2); lia | idtac ];
      rewrite <- (Z.add_0_r (3 * pg')); first [apply Hne; lia | apply H0; lia].
Qed.

Lemma used_store s r disp pi n m : load_offset (store_page_info s r disp pi) n m = load_offset s n m.
Proof. by destruct pi as [[??]?]. Qed.

(** ** Claiming an offset *)
Record table_ok (s : ft_state) : Prop := {
  tk_used n : 0 <= n < N -> 0 <= used s n <= size_per_node d /\ (g | used s n);
  tk_cached r n : 0 <= r < N -> 0 <= n < N -> 0 <= load_offset s r n <= used s n;
}.

Lemma load_put_offset s r n v r' n' :
  load_offset (put_offset s r n v) r' n'
  = if decide (r = r' /\ n = n') then v else load_offset s r' n'.
Proof.
  unfold load_offset, put_offset; simpl. case_decide as E.
  - destruct E as [-> ->]. by rewrite lookup_insert_eq.
  - rewrite lookup_insert_ne; [done|]. intros [= -> ->]. by apply E.
Qed.

Lemma claim_offset_spec s n offset :
  table_ok s -> 0 <= n < N -> 0 <= offset <= used s n ->
  claim_offset d 3 s n offset
  = Ok (if used s n <? size_per_node d
        then (put_offset s n n (used s n + g), inl (used s n))
        else (s, inr (used s n))).
Proof using Hd.
  intros Hs Hn Ho. destruct (tk_used s Hs n Hn) as [Hu [k Hk]].
  assert (Hsp : size_per_node d < 2 ^ 62) by (pose proof (spn_le_total d Hd); destruct Hd; lia).
  assert (Hstep : forall f, claim_offset d (S f) s n (used s n)
            = Ok (if used s n <? size_per_node d
                  then (put_offset s n n (used s n + g), inl (used s n))
                  else (s, inr (used s n)))).
  { intros f. simpl. unfold compare_exchange_offsets_tbl. fold (used s n).
    rewrite Z.eqb_refl. destruct (Z.ltb_spec (used s n) (size_per_node d)); [|done].
    unfold granularity in *. unwrap. done. }
  destruct (Z.eq_dec offset (used s n)) as [->|Hne]; [apply Hstep|].
  transitivity (claim_offset d 2 s n (used s n)); [|apply Hstep].
  simpl claim_offset at 1. destruct (Z.ltb_spec offset (size_per_node d)); [|lia].
  unfold compare_exchange_offsets_tbl. fold (used s n).
  destruct (Z.eqb_spec (used s n) offset); [lia|]. done.
Qed.

(** What a successful claim of node [m] does to the table, and what it leaves
    alone. *)
Record claimed_from (s s' : ft_state) (m : Z) : Prop := {
  cf_owners : owners_dir s' = owners_dir s;
  cf_node : 0 <= m < N /\ used s m < size_per_node d;
  cf_used n : used s' n = used s n + (if decide (n = m) then g else 0);
  cf_table : table_ok s';
}.

Lemma table_ok_cache s rank n v :
  table_ok s -> 0 <= rank < N -> 0 <= n < N -> n ≠ rank -> 0 <= v <= used s n ->
  table_ok (put_offset s rank n v) /\
  forall m, used (put_offset s rank n v) m = used s m.
Proof.
  intros Hs Hr Hn Hne Hv.
  assert (Hu : forall m, used (put_offset s rank n v) m = used s m).
  { intros m. unfold used at 1. rewrite load_put_offset, decide_False; [done|].
    intros [-> ->]. done. }
  split; [|done]. split.
  - intros m Hm. rewrite Hu. by apply tk_used.
  - intros r m Hr' Hm. rewrite Hu, load_put_offset. case_decide as E.
    + destruct E as [<- <-]. lia.
    + by apply tk_cached.
Qed.

Lemma table_ok_claim s n :
  table_ok s -> 0 <= n < N -> used s n < size_per_node d ->
  claimed_from s (put_offset s n n (used s n + g)) n.
Proof using Hg.
  intros Hs Hn Hlt.
  assert (Hu : forall m, used (put_offset s n n (used s n + g)) m
                 = used s m + (if decide (m = n) then g else 0)).
  { intros m. unfold used at 1. rewrite load_put_offset.
    destruct (decide (m = n)) as [->|Hm]; [by rewrite decide_True|].
    rewrite decide_False by (intros [? ?]; congruence). unfold used. lia. }
  split; [done|done|done|]. split.
  - intros m Hm. rewrite Hu. destruct (tk_used s Hs m Hm) as [Hb [k Hk]], Hg as [c Hc].
    case_decide as E; [subst m|split; [lia|exists k; lia]].
    split; [|exists (k + 1); lia]. unfold granularity in *. assert (k < c) by lia. lia.
  - intros r m Hr Hm. rewrite Hu, load_put_offset.
    pose proof (tk_cached s Hs r m Hr Hm).
    destruct (decide (m = n)) as [->|Hmn].
    + case_decide; unfold granularity; pose proof (tk_used s Hs n Hn); lia.
    + rewrite decide_False by (intros [? ?]; congruence). lia.
Qed.

(** Caching the offset read from another node changes no node's own counter. *)
Lemma cache_if_remote s rank n v :
  table_ok s -> 0 <= rank < N -> 0 <= n < N -> 0 <= v <= used s n ->
  let s' := if n =? rank then s else put_offset s rank n v in
  table_ok s' /\ (forall m, used s' m = used s m) /\ owners_dir s' = owners_dir s.
Proof.
  intros Hs Hr Hn Hv. simpl. destruct (Z.eqb_spec n rank) as [->|Hne]; [done|].
  destruct (table_ok_cache s rank n v) as [H1 H2]; done.
Qed.

(** The search finds the next node, in cyclic order from [n], with room, or all
    nodes tried are full. *)
Lemma claim_node_spec todo : forall s rank n,
  table_ok s -> 0 <= rank < N -> 0 <= n < N ->
  (exists s' m, claim_node d todo s rank n = Ok (s', Some (m, used s m)) /\
     claimed_from s s' m) \/
  (exists s', claim_node d todo s rank n = Ok (s', None) /\
     forall j, 0 <= j < Z.of_nat todo -> size_per_node d <= used s ((n + j) mod N)).
Proof using Hd Hg.
  pose proof (so_nodes d Hd) as HN.
  induction todo as [|todo IH]; intros s rank n Hs Hr Hn.
  { right. exists s. split; [done|]. lia. }
  cbn [claim_node]. rewrite claim_offset_spec by (try apply tk_cached; done).
  cbn [mbind outcome_bind].
  destruct (Z.ltb_spec (used s n) (size_per_node d)) as [Hlt|Hge]; cbn [mbind outcome_bind].
  - left. pose proof (table_ok_claim s n Hs Hn Hlt) as [Ho _ Hu Ht].
    set (s1 := put_offset s n n (used s n + g)) in *.
    destruct (cache_if_remote s1 rank n (used s n) Ht Hr Hn) as (Ht2 & Hu2 & Ho2).
    { rewrite Hu, decide_True by done. pose proof (tk_used s Hs n Hn).
      unfold granularity. lia. }
    eexists _, n. split; [reflexivity|]. split; [|done| |done].
    + etransitivity; [exact Ho2|done].
    + intros m. rewrite Hu2. apply Hu.
  - destruct (cache_if_remote s rank n (used s n) Hs Hr Hn) as (Ht2 & Hu2 & Ho2).
    { pose proof (tk_used s Hs n Hn). lia. }
    set (s1 := if n =? rank then s else put_offset s rank n (used s n)) in *.
    pose proof (Z.mod_pos_bound (n + 1) N ltac:(lia)).
    rewrite add64_small by lia.
    destruct (IH s1 rank ((n + 1) mod N) Ht2 Hr ltac:(lia))
      as [(s' & m & E & [Ho [Hm1 Hm2] Hu Ht])|(s' & E & Hfull)].
    + left. exists s', m. rewrite E, Hu2. split; [done|]. rewrite Hu2 in Hm2.
      split; [congruence|done|intros k; rewrite Hu, Hu2; done|done].
    + right. exists s'. split; [done|]. intros j Hj.
      destruct (Z.eq_dec j 0) as [->|Hj0].
      * rewrite Z.add_0_r, Z.mod_small by lia. lia.
      * specialize (Hfull (j - 1) ltac:(lia)). rewrite Hu2, Zplus_mod_idemp_l in Hfull.
        replace (n + 1 + (j - 1)) with (n + j) in Hfull by ring. done.
Qed.

(** ** The directory invariant *)
Definition claimed (s : ft_state) (pg : Z) : bool :=
  bool_decide (home_entry s pg ≠ null_info).

Record ft_inv (s : ft_state) : Prop := {
  fi_table : table_ok s;
  fi_home pg : 0 <= pg < npages -> claimed s pg = true ->
    exists h o r, home_entry s pg = (h, o, r) /\ 0 <= h < N /\ 0 <= r < N /\
      0 <= o /\ o + g <= used s h /\ (g | o);
  fi_local r pg : 0 <= r < N -> 0 <= pg < npages ->
    entry s r pg = null_info \/ entry s r pg = home_entry s pg;
  fi_inj p q : 0 <= p < npages -> 0 <= q < npages ->
    claimed s p = true -> claimed s q = true ->
    fst (home_entry s p) = fst (home_entry s q) -> p = q;
  fi_count : sumZ (used s) N = g * sumZ (fun pg => if claimed s pg then 1 else 0) npages;
}.

Lemma npages_total : npages * g = N * size_per_node d.
Proof using Hd Hg.
  unfold npages. pose proof (so_total d Hd) as Ht. destruct Hg as [c Hc].
  rewrite Ht, Hc, Z.mul_assoc. by rewrite Z.div_mul.
Qed.

Lemma cas_of_range pg : 0 <= cas_of pg < N.
Proof using Hd. apply Z.mod_pos_bound. destruct Hd. lia. Qed.

Lemma ft_reset_inv : ft_inv ft_reset.
Proof using Hd.
  assert (Hc : forall pg, claimed ft_reset pg = false).
  { intros pg. apply bool_decide_eq_false_2. intros H. by apply H. }
  destruct Hd. split.
  - unfold ft_reset. split; unfold used, load_offset; cbn -[Z.le]; intros; [|done].
    rewrite lookup_empty; cbn. split; [lia|by exists 0].
  - intros pg _. by rewrite Hc.
  - intros r pg _ _. by left.
  - intros p q _ _. by rewrite Hc.
  - rewrite (sumZ_ext _ (fun _ => 0) npages) by (intros; by rewrite Hc).
    rewrite sumZ_const by (unfold npages; apply Z.div_pos; [nia|done]).
    rewrite (sumZ_ext _ (fun _ => 0) N), sumZ_const by (done || lia). lia.
Qed.

Lemma entry_put s r pg v r' pg' :
  r ≠ r' \/ pg ≠ pg' -> entry (put_owner s r (3 * pg + 2) v) r' pg' = entry s r' pg'.
Proof.
  intros H. unfold entry, load_page_info, load_owner, put_owner; simpl.
  rewrite !lookup_insert_ne; [done|..]; intros [= E1 E2]; lia.
Qed.

Lemma entry_ext s s' r pg : owners_dir s' = owners_dir s -> entry s' r pg = entry s r pg.
Proof. intros E. unfold entry, load_page_info, load_owner. by rewrite E. Qed.

Lemma load_offset_ext s s' r n :
  offsets_tbl s' = offsets_tbl s -> load_offset s' r n = load_offset s r n.
Proof. intros E. unfold load_offset. by rewrite E. Qed.

Lemma table_ok_ext s s' : offsets_tbl s' = offsets_tbl s -> table_ok s -> table_ok s'.
Proof.
  intros E [H1 H2]. split; intros; unfold used; rewrite !(load_offset_ext s s') by done;
    [by apply H1|by apply H2].
Qed.

(** While some page is unclaimed some node has room. *)
Lemma room_left s pg :
  ft_inv s -> 0 <= pg < npages -> claimed s pg = false ->
  ~ (forall n, 0 <= n < N -> size_per_node d <= used s n).
Proof using Hd Hg.
  intros Hs Hpg Hc Hall. pose proof (fi_count s Hs) as Hcnt.
  pose proof npages_total as Hnp. pose proof (so_nodes d Hd).
  assert (Hlt : sumZ (fun pg => if claimed s pg then 1 else 0) npages < npages * 1).
  { apply (sumZ_lt _ 1 _ pg); [done|by rewrite Hc|]. intros i _. destruct (claimed s i); lia. }
  assert (Heq : sumZ (used s) N = sumZ (fun _ => size_per_node d) N).
  { apply sumZ_ext. intros n Hn. pose proof (tk_used s (fi_table s Hs) n Hn) as [Hu _].
    specialize (Hall n Hn). lia. }
  rewrite sumZ_const in Heq by lia. unfold granularity in *. lia.
Qed.

(** The effect of a claim on the directory. *)
Record touched (s s' : ft_state) (rank pg h o : Z) : Prop := {
  td_new r : r = rank \/ r = cas_of pg -> entry s' r pg = (h, o, rank);
  td_same r q : q ≠ pg \/ (r ≠ rank /\ r ≠ cas_of pg) -> entry s' r q = entry s r q;
  td_node : 0 <= h < N /\ o = used s h /\ used s h < size_per_node d;
  td_used n : used s' n = used s n + (if decide (n = h) then g else 0);
  td_table : table_ok s';
}.

Lemma first_touch_spec s rank pg :
  ft_inv s -> 0 <= rank < N -> 0 <= pg < npages -> home_entry s pg = null_info ->
  exists s' h o, first_touch d s rank (g * pg) = Ok s' /\ touched s s' rank pg h o.
Proof using Hd Hg.
  intros Hs Hr Hpg Hnull. pose proof npages_total as Hnp. pose proof (so_nodes d Hd) as HN.
  assert (Hpb : 0 <= 3 * pg < 2 ^ 64).
  { destruct Hd. unfold granularity in *. lia. }
  unfold first_touch. rewrite (Z.mul_comm g pg), Z.div_mul by done.
  unfold page_info_size. rewrite mul64_small by done. fold (cas_of pg).
  assert (Hown : load_owner d s (cas_of pg) (3 * pg + 2) = gn).
  { unfold home_entry, entry, load_page_info, null_info in Hnull. congruence. }
  unfold compare_exchange_owners_dir. rewrite Hown, Z.eqb_refl.
  set (s0 := put_owner s (cas_of pg) (3 * pg + 2) rank).
  assert (Ht0 : table_ok s0) by (by apply (table_ok_ext s); [|apply fi_table]).
  assert (Hu0 : forall n, used s0 n = used s n) by done.
  destruct (claim_node_spec (Z.to_nat N) s0 rank rank Ht0 Hr Hr)
    as [(s1 & h & E & [Ho [Hh Hlt] Hu Ht])|(s1 & E & Hfull)]; cycle 1.
  { exfalso. apply (room_left s pg Hs Hpg).
    - by apply bool_decide_eq_false_2; intros Hx; apply Hx.
    - intros n Hn. specialize (Hfull ((n - rank) mod N)).
      pose proof (Z.mod_pos_bound (n - rank) N ltac:(lia)).
      rewrite Zplus_mod_idemp_r in Hfull. replace (rank + (n - rank)) with n in Hfull by ring.
      rewrite (Z.mod_small n N) in Hfull by lia. apply Hfull. lia. }
  rewrite E. cbn [mbind outcome_bind]. rewrite Hu0 in *.
  set (pi := (h, used s h, rank)).
  set (s2 := store_page_info s1 rank (3 * pg) pi).
  set (s3 := if rank =? cas_of pg then s2 else store_page_info s2 (cas_of pg) (3 * pg) pi).
  assert (Hoff : offsets_tbl s3 = offsets_tbl s1).
  { unfold s3. by destruct (rank =? cas_of pg). }
  assert (Hent : forall r q, entry s3 r q
            = if decide ((r = rank \/ r = cas_of pg) /\ q = pg) then pi else entry s r q).
  { intros r q.
    assert (entry s3 r q = if decide ((r = rank \/ r = cas_of pg) /\ q = pg) then pi
              else entry s1 r q) as ->.
    { unfold s3, s2. destruct (Z.eqb_spec rank (cas_of pg)) as [Ec|Ec];
        rewrite ?entry_store; repeat case_decide; destruct_and?; destruct_or?; subst;
        try done; exfalso; intuition congruence. }
    case_decide as Ed; [done|]. rewrite (entry_ext s0) by done.
    apply entry_put. destruct (decide (q = pg)) as [->|]; [left|right; congruence].
    intros <-. apply Ed. auto. }
  exists s3, h, (used s h). split; [done|]. split.
  - intros r Hrr. rewrite Hent, decide_True; done.
  - intros r q Hq. rewrite Hent, decide_False; intuition congruence.
  - done.
  - intros n. unfold used at 1. rewrite (load_offset_ext s1) by done. apply Hu.
  - by apply (table_ok_ext s1).
Qed.

Lemma node_not_null h : 0 <= h < N -> h ≠ gn.
Proof using Hd.
  rewrite gn_eq. destruct Hd. nia.
Qed.

Lemma claimed_false s pg : claimed s pg = false <-> home_entry s pg = null_info.
Proof.
  unfold claimed. rewrite bool_decide_eq_false. split; [|intros E H; by apply H].
  intros H. by apply dec_stable.
Qed.

Lemma claimed_true s pg : claimed s pg = true <-> home_entry s pg ≠ null_info.
Proof. unfold claimed. by rewrite bool_decide_eq_true. Qed.

Section Touched.

Context (s s' : ft_state) (rank pg h o : Z).
Context (Hs : ft_inv s) (Hr : 0 <= rank < N) (Hpg : 0 <= pg < npages).
Context (Hnull : home_entry s pg = null_info) (Ht : touched s s' rank pg h o).

Lemma touched_home q :
  home_entry s' q = if decide (q = pg) then (h, o, rank) else home_entry s q.
Proof using Ht.
  unfold home_entry. case_decide as E.
  - subst q. apply (td_new _ _ _ _ _ _ Ht). by right.
  - apply (td_same _ _ _ _ _ _ Ht). by left.
Qed.

Lemma touched_claimed q :
  claimed s' q = if decide (q = pg) then true else claimed s q.
Proof using Hd Ht.
  destruct (decide (q = pg)) as [->|Hne].
  - apply claimed_true. rewrite touched_home, decide_True by done.
    destruct (td_node _ _ _ _ _ _ Ht) as [Hh _]. intros [= E _ _].
    by apply (node_not_null h).
  - unfold claimed. by rewrite touched_home, decide_False.
Qed.

Lemma touched_used n : used s n <= used s' n.
Proof using Ht. rewrite (td_used _ _ _ _ _ _ Ht). unfold granularity. case_decide; lia. Qed.

Lemma touched_fresh q :
  0 <= q < npages -> claimed s q = true -> fst (home_entry s q) ≠ (h, o).
Proof using Hs Ht.
  intros Hq Hc E. destruct (fi_home s Hs q Hq Hc) as (h' & o' & r' & E' & _ & _ & _ & Hu & _).
  rewrite E' in E. injection E as -> ->.
  destruct (td_node _ _ _ _ _ _ Ht) as (_ & -> & _). unfold granularity in Hu. lia.
Qed.

Lemma touched_inv : ft_inv s'.
Proof using All.
  pose proof touched_home as Hhome. pose proof touched_claimed as Hcl.
  pose proof (td_node _ _ _ _ _ _ Ht) as (Hh & Ho & Hlt).
  pose proof (tk_used s (fi_table s Hs) h Hh) as [Hu0 Hgu].
  split.
  - apply Ht.
  - intros q Hq. rewrite Hcl, Hhome. case_decide as E; intros Hc.
    + exists h, o, rank. rewrite (td_used _ _ _ _ _ _ Ht), decide_True by done.
      subst o. repeat split; try done; lia.
    + destruct (fi_home s Hs q Hq Hc) as (h' & o' & r' & ? & ? & ? & ? & ? & ?).
      exists h', o', r'. pose proof (touched_used h'). repeat split; try done; lia.
  - intros r q Hrr Hq. rewrite Hhome. destruct (decide (q = pg)) as [->|Hne].
    + destruct (decide (r = rank \/ r = cas_of pg)) as [Hc|Hc].
      * right. by apply (td_new _ _ _ _ _ _ Ht).
      * left. rewrite (td_same _ _ _ _ _ _ Ht) by tauto.
        destruct (fi_local s Hs r pg Hrr Hq); congruence.
    + rewrite (td_same _ _ _ _ _ _ Ht) by tauto. by apply fi_local.
  - intros p q Hp Hq. rewrite !Hcl, !Hhome.
    destruct (decide (p = pg)), (decide (q = pg)); cbn [fst]; intros Hcp Hcq E.
    + congruence.
    + by destruct (touched_fresh q Hq Hcq).
    + by destruct (touched_fresh p Hp Hcp).
    + by apply (fi_inj s Hs).
  - rewrite (sumZ_update (used s) _ h g N); [|done| |].
    + rewrite (sumZ_update (fun q => if claimed s q then 1 else 0) _ pg 1 npages);
        [rewrite (fi_count s Hs); ring|done| |].
      * rewrite Hcl, decide_True by done. apply claimed_false in Hnull. by rewrite Hnull.
      * intros i _ Hi. by rewrite Hcl, decide_False.
    + by rewrite (td_used _ _ _ _ _ _ Ht), decide_True.
    + intros i _ Hi. rewrite (td_used _ _ _ _ _ _ Ht), decide_False by done. lia.
Qed.

End Touched.

(** ** One directory update

    What [update_dirs] on page [pg] does: placed pages keep their place, only
    [pg] can be placed, and the caller's window holds the page's entry. *)
Record updated (s s' : ft_state) (rank pg : Z) (dft : bool) : Prop := {
  up_inv : ft_inv s';
  up_keep q : 0 <= q < npages -> claimed s q = true -> home_entry s' q = home_entry s q;
  up_new q : 0 <= q < npages -> claimed s q = false ->
    claimed s' q = bool_decide (q = pg) && dft;
  up_local : entry s' rank pg = home_entry s' pg;
}.

Lemma cache_entry_updated s rank pg dft :
  ft_inv s -> 0 <= rank < N -> 0 <= pg < npages -> claimed s pg = true ->
  rank ≠ cas_of pg ->
  updated s (store_page_info s rank (3 * pg) (home_entry s pg)) rank pg dft.
Proof using Hd.
  intros Hs Hr Hpg Hc Hne.
  set (s' := store_page_info s rank (3 * pg) (home_entry s pg)).
  assert (Hhome : forall q, home_entry s' q = home_entry s q).
  { intros q. unfold home_entry at 1, s'. rewrite entry_store. case_decide as E; [|done].
    destruct E as [E1 <-]. congruence. }
  assert (Hcl : forall q, claimed s' q = claimed s q) by (intros q; unfold claimed; by rewrite Hhome).
  assert (Hoff : offsets_tbl s' = offsets_tbl s) by (unfold s'; by destruct (home_entry s pg) as [[??]?]).
  assert (Hu : forall n, used s' n = used s n) by (intros n; by apply load_offset_ext).
  split; [split|..].
  - apply (table_ok_ext s); [done|by apply fi_table].
  - intros q. rewrite Hcl, Hhome. setoid_rewrite Hu. by apply fi_home.
  - intros r q Hrr Hq. rewrite Hhome. unfold s'. rewrite entry_store. case_decide as E.
    + destruct E as [-> ->]. by right.
    + by apply fi_local.
  - intros p q Hp Hq. rewrite !Hcl, !Hhome. by apply fi_inj.
  - rewrite (sumZ_ext _ _ N (fun i _ => Hu i)). rewrite (fi_count s Hs). f_equal.
    apply sumZ_ext. intros i _. by rewrite Hcl.
  - done.
  - intros q Hq Hcq. rewrite Hcl, Hcq. destruct (bool_decide_reflect (q = pg)); [congruence|done].
  - unfold s' at 1. rewrite entry_store, decide_True by done. by rewrite Hhome.
Qed.

Lemma updated_refl s rank pg dft :
  ft_inv s -> entry s rank pg = home_entry s pg -> claimed s pg = true \/ dft = false ->
  updated s s rank pg dft.
Proof.
  intros Hs He Hc. split; [done|done| |done].
  intros q Hq Hcq. rewrite Hcq. destruct (bool_decide_reflect (q = pg)) as [->|]; [|done].
  by destruct Hc as [Hc| ->]; [congruence|].
Qed.

Lemma claimed_complete s pg :
  ft_inv s -> 0 <= pg < npages -> claimed s pg = true ->
  is_one_equal_to (home_entry s pg) gn = false.
Proof using Hd.
  intros Hs Hpg Hc. destruct (fi_home s Hs pg Hpg Hc) as (h & o & r & -> & Hh & Hr & Ho & Hu & _).
  pose proof (tk_used s (fi_table s Hs) h Hh). pose proof (spn_le_total d Hd).
  pose proof (node_not_null h Hh). pose proof (node_not_null r Hr).
  pose proof gn_eq. unfold granularity in *. simpl. rewrite !orb_false_iff, !Z.eqb_neq. lia.
Qed.

Lemma update_dirs_spec s rank pg dft :
  ft_inv s -> 0 <= rank < N -> 0 <= pg < npages ->
  exists s', update_dirs d s rank (g * pg) dft = Ok s' /\ updated s s' rank pg dft.
Proof using Hd Hg.
  intros Hs Hr Hpg. pose proof npages_total as Hnp.
  assert (Hpb : 0 <= 3 * pg < 2 ^ 64) by (destruct Hd; unfold granularity in *; lia).
  unfold update_dirs. rewrite (Z.mul_comm g pg), Z.div_mul by done.
  unfold page_info_size. rewrite mul64_small by done. fold (cas_of pg).
  change (load_owner d s rank (3 * pg + 2)) with (snd (entry s rank pg)).
  change (load_page_info d s (cas_of pg) (3 * pg)) with (home_entry s pg).
  destruct (claimed s pg) eqn:Hc.
  - pose proof (claimed_complete s pg Hs Hpg Hc) as Hone.
    destruct (fi_local s Hs rank pg Hr Hpg) as [Hl|Hl]; rewrite Hl.
    + simpl snd. rewrite Z.eqb_refl.
      assert (is_all_equal_to (home_entry s pg) gn = false) as ->.
      { destruct (home_entry s pg) as [[a b] c]. simpl in *.
        by destruct (a =? gn), (b =? gn), (c =? gn). }
      assert (Hne : rank ≠ cas_of pg).
      { intros ->. fold (home_entry s pg) in Hl. by apply claimed_true in Hc. }
      apply Z.eqb_neq in Hne as Hne'. simpl negb. rewrite Hne', Hone.
      eexists; split; [done|]. by apply cache_entry_updated.
    + assert ((snd (home_entry s pg) =? gn) = false) as ->.
      { destruct (home_entry s pg) as [[a b] c]. simpl in *.
        by destruct (a =? gn), (b =? gn), (c =? gn). }
      exists s. split; [done|]. apply updated_refl; auto.
  - apply claimed_false in Hc as Hn. rewrite Hn.
    assert (Hl : entry s rank pg = null_info) by (destruct (fi_local s Hs rank pg Hr Hpg); congruence).
    rewrite Hl. simpl snd. simpl is_all_equal_to. rewrite !Z.eqb_refl. simpl negb. cbv match.
    destruct dft.
    + destruct (first_touch_spec s rank pg Hs Hr Hpg Hn) as (s' & h & o & E & Ht).
      rewrite (Z.mul_comm pg g). exists s'. split; [done|].
      pose proof (touched_claimed _ _ _ _ _ _ Ht) as Hcl.
      pose proof (touched_home _ _ _ _ _ _ Ht) as Hhome.
      split; [by eapply touched_inv| | |].
      * intros q Hq Hcq. rewrite Hhome, decide_False by congruence. done.
      * intros q Hq Hcq. rewrite Hcl, Hcq. by destruct (decide (q = pg)), (bool_decide_reflect (q = pg)).
      * rewrite Hhome, decide_True by done. apply (td_new _ _ _ _ _ _ Ht). by left.
    + exists s. split; [done|]. apply updated_refl; [done|congruence|by right].
Qed.

(** ** Where a page is placed *)
Definition place (s : ft_state) (pg : Z) : option (Z * Z) :=
  if claimed s pg then Some (fst (home_entry s pg)) else None.

Lemma place_range s pg h o :
  ft_inv s -> 0 <= pg < npages -> place s pg = Some (h, o) ->
  0 <= h < N /\ 0 <= o /\ o + g <= size_per_node d /\ (g | o).
Proof.
  intros Hs Hpg. unfold place. destruct (claimed s pg) eqn:Hc; [|done].
  destruct (fi_home s Hs pg Hpg Hc) as (h' & o' & r' & -> & Hh & _ & Ho & Hu & Hgo).
  intros [= <- <-]. pose proof (tk_used s (fi_table s Hs) h' Hh).
  repeat split; try done; lia.
Qed.

Lemma place_inj s p q l :
  ft_inv s -> 0 <= p < npages -> 0 <= q < npages ->
  place s p = Some l -> place s q = Some l -> p = q.
Proof.
  intros Hs Hp Hq. unfold place.
  destruct (claimed s p) eqn:Ep, (claimed s q) eqn:Eq; try done.
  intros E1 E2. apply (fi_inj s Hs p q); auto.
  apply (inj Some). congruence.
Qed.

Lemma updated_place s s' rank pg dft q l :
  updated s s' rank pg dft -> 0 <= q < npages -> place s q = Some l -> place s' q = Some l.
Proof using Hd.
  intros [Hinv Hkeep _ _] Hq. unfold place. destruct (claimed s q) eqn:Hc; [|done].
  intros E. assert (claimed s' q = true) as ->; [|by rewrite Hkeep].
  apply claimed_true. rewrite Hkeep by done. by apply claimed_true.
Qed.

Lemma updated_claims s s' rank pg :
  updated s s' rank pg true -> 0 <= pg < npages -> claimed s' pg = true.
Proof.
  intros [_ Hkeep Hnew _] Hpg. destruct (claimed s pg) eqn:Hc.
  - apply claimed_true. rewrite Hkeep by done. by apply claimed_true.
  - rewrite Hnew, bool_decide_true by done. done.
Qed.

(** The page of an offset from the start of the space. *)
Lemma page_of_range r : 0 <= r < total_size d -> 0 <= r / g < npages.
Proof using Hd Hg.
  intros Hr. apply block_index_range; [done| |done].
  destruct Hg as [c Hc]. exists (N * c). destruct Hd. nia.
Qed.

Lemma page_base_page r :
  0 <= r < total_size d -> page_base d (start_address d + r) = g * (r / g).
Proof using Hd.
  intros Hr. rewrite page_base_of by done. pose proof (Z.div_mod r g ltac:(done)). lia.
Qed.

Lemma window_index r :
  0 <= r < total_size d ->
  mul64 page_info_size (g * (r / g) / g) = 3 * (r / g).
Proof using Hd.
  intros Hr. rewrite (Z.mul_comm g), Z.div_mul by done. unfold page_info_size.
  pose proof (Z.div_mod r g ltac:(done)). pose proof (Z.mod_pos_bound r g ltac:(done)).
  destruct Hd. unfold granularity in *. apply mul64_small. lia.
Qed.

(** The entry a caller reads after an update. *)
Lemma updated_entry s s' rank pg dft h o :
  updated s s' rank pg dft -> place s' pg = Some (h, o) ->
  exists w, load_page_info d s' rank (3 * pg) = (h, o, w).
Proof.
  intros [_ _ _ Hl] Hp. fold (entry s' rank pg). rewrite Hl. unfold place in Hp.
  destruct (claimed s' pg); [|done]. destruct (home_entry s' pg) as [[a b] c].
  exists c. simpl in Hp. congruence.
Qed.

(** The low 32 bits of [global_null], which [homenode] compares with, must not be
    the number of a node. *)
Context (Hnull : N <= u32 gn).

Lemma ft_homenode_spec s rank r :
  ft_inv s -> 0 <= rank < N -> 0 <= r < total_size d ->
  exists s' h o, ft_homenode d s rank (start_address d + r) = Ok (s', h) /\
    updated s s' rank (r / g) true /\ place s' (r / g) = Some (h, o).
Proof using Hd Hg Hnull.
  intros Hs Hr Hrr. pose proof (page_of_range r Hrr) as Hpg.
  unfold ft_homenode. rewrite page_base_page, window_index by done.
  destruct (update_dirs_spec s rank (r / g) true Hs Hr Hpg) as (s' & -> & Hup).
  cbn [mbind outcome_bind].
  assert (exists h o, place s' (r / g) = Some (h, o)) as (h & o & Hpl).
  { unfold place. rewrite (updated_claims _ _ _ _ Hup Hpg). by destruct (home_entry s' (r / g)) as [[h o] w]; exists h, o. }
  destruct (updated_entry _ _ _ _ _ _ _ Hup Hpl) as [w Hw]. injection Hw as Eh _ _.
  destruct (place_range s' (r / g) h o (up_inv _ _ _ _ _ Hup) Hpg Hpl) as [Hh _].
  rewrite Eh, (u32_small h) by (destruct Hd; lia).
  destruct (Z.eqb_spec h (u32 gn)); [lia|]. destruct (Z.leb_spec N h); [lia|].
  by exists s', h, o.
Qed.

Lemma ft_local_offset_spec s rank r :
  ft_inv s -> 0 <= rank < N -> 0 <= r < total_size d ->
  exists s' h o, ft_local_offset d s rank (start_address d + r) = Ok (s', o + r mod g) /\
    updated s s' rank (r / g) true /\ place s' (r / g) = Some (h, o).
Proof using Hd Hg.
  intros Hs Hr Hrr. pose proof (page_of_range r Hrr) as Hpg.
  unfold ft_local_offset. rewrite page_base_page, window_index, rel_of by done.
  destruct (update_dirs_spec s rank (r / g) true Hs Hr Hpg) as (s' & -> & Hup).
  cbn [mbind outcome_bind].
  assert (exists h o, place s' (r / g) = Some (h, o)) as (h & o & Hpl).
  { unfold place. rewrite (updated_claims _ _ _ _ Hup Hpg). by destruct (home_entry s' (r / g)) as [[h o] w]; exists h, o. }
  destruct (updated_entry _ _ _ _ _ _ _ Hup Hpl) as [w Hw]. injection Hw as _ Eo _.
  destruct (place_range s' (r / g) h o (up_inv _ _ _ _ _ Hup) Hpg Hpl) as (_ & Ho & Hb & _).
  pose proof (spn_le_total d Hd). pose proof gn_eq. pose proof (so_size d Hd).
  pose proof (Z.mod_pos_bound r g ltac:(done)).
  rewrite Eo, add64_small by (unfold granularity in *; lia).
  destruct (Z.eqb_spec o gn); [unfold granularity in *; lia|].
  destruct (Z.leb_spec (size_per_node d) (o + r mod g)); [lia|].
  by exists s', h, o.
Qed.

(** The peeking calls place nothing. *)
Lemma ft_peek_homenode_spec s rank r :
  ft_inv s -> 0 <= rank < N -> 0 <= r < total_size d ->
  exists s', updated s s' rank (r / g) false /\
    ft_peek_homenode d s rank (start_address d + r)
    = match place s' (r / g) with
      | Some (h, _) => Ok (s', h)
      | None => Throw (system_error msg_fetch_homenode_fail)
      end.
Proof using Hd Hg.
  intros Hs Hr Hrr. pose proof (page_of_range r Hrr) as Hpg.
  unfold ft_peek_homenode. rewrite page_base_page, window_index by done.
  destruct (update_dirs_spec s rank (r / g) false Hs Hr Hpg) as (s' & -> & Hup).
  cbn [mbind outcome_bind]. exists s'. split; [done|].
  destruct (place s' (r / g)) as [[h o]|] eqn:Hpl.
  - destruct (updated_entry _ _ _ _ _ _ _ Hup Hpl) as [w ->].
    destruct (place_range s' (r / g) h o (up_inv _ _ _ _ _ Hup) Hpg Hpl) as [Hh _].
    pose proof (node_not_null h Hh) as Hn%Z.eqb_neq. rewrite Hn, andb_false_r.
    rewrite u32_small by (destruct Hd; lia). by destruct (Z.leb_spec N h); [lia|].
  - unfold place in Hpl. destruct (claimed s' (r / g)) eqn:Hc; [done|].
    apply claimed_false in Hc. pose proof (up_local _ _ _ _ _ Hup) as Hl.
    unfold entry in Hl. rewrite Hl, Hc. unfold null_info. rewrite Z.eqb_refl. simpl negb. cbn [andb].
    destruct (Z.leb_spec N invalid_node_id) as [_|Hlt]; [done|].
    pose proof (so_nodes d Hd) as HN. cbv [invalid_node_id UINT_MAX] in Hlt. lia.
Qed.

Lemma ft_peek_local_offset_spec s rank r :
  ft_inv s -> 0 <= rank < N -> 0 <= r < total_size d ->
  exists s', updated s s' rank (r / g) false /\
    ft_peek_local_offset d s rank (start_address d + r)
    = Ok (s', match place s' (r / g) with
              | Some (_, o) => o + r mod g
              | None => invalid_offset
              end).
Proof using Hd Hg.
  intros Hs Hr Hrr. pose proof (page_of_range r Hrr) as Hpg.
  unfold ft_peek_local_offset. rewrite page_base_page, window_index, rel_of by done.
  destruct (update_dirs_spec s rank (r / g) false Hs Hr Hpg) as (s' & -> & Hup).
  cbn [mbind outcome_bind]. exists s'. split; [done|].
  destruct (place s' (r / g)) as [[h o]|] eqn:Hpl.
  - destruct (updated_entry _ _ _ _ _ _ _ Hup Hpl) as [w ->].
    destruct (place_range s' (r / g) h o (up_inv _ _ _ _ _ Hup) Hpg Hpl) as (_ & Ho & Hb & _).
    pose proof (spn_le_total d Hd). pose proof gn_eq. pose proof (so_size d Hd).
    pose proof (Z.mod_pos_bound r g ltac:(done)).
    destruct (Z.eqb_spec o gn); [unfold granularity in *; lia|]. rewrite andb_false_r.
    rewrite add64_small by (unfold granularity in *; lia).
    destruct (Z.leb_spec (size_per_node d) (o + r mod g)); [lia|]. by rewrite andb_false_r.
  - unfold place in Hpl. destruct (claimed s' (r / g)) eqn:Hc; [done|].
    apply claimed_false in Hc. pose proof (up_local _ _ _ _ _ Hup) as Hl.
    unfold entry in Hl. rewrite Hl, Hc. unfold null_info. rewrite !Z.eqb_refl. done.
Qed.

End Directory.

(** ** Calls one after the other *)
Inductive ft_call := Homenode | PeekHomenode | LocalOffset | PeekLocalOffset.

Definition ft_do (d : base_distribution) (s : ft_state) (c : ft_call) (rank ptr : Z) :
    outcome (ft_state * Z) :=
  match c with
  | Homenode => ft_homenode d s rank ptr
  | PeekHomenode => ft_peek_homenode d s rank ptr
  | LocalOffset => ft_local_offset d s rank ptr
  | PeekLocalOffset => ft_peek_local_offset d s rank ptr
  end.

Inductive ft_step (d : base_distribution) (s s' : ft_state) : Prop :=
  | ft_step_call c rank ptr v :
      0 <= rank < nodes d -> in_space d ptr -> ft_do d s c rank ptr = Ok (s', v) ->
      ft_step d s s'.

(** The memory spaces the policy works on. *)
Record ft_space (d : base_distribution) : Prop := {
  fs_space : space_ok d;
  fs_pages : (granularity | size_per_node d);
  fs_null : nodes d <= u32 (global_null d);
}.

Section Runs.

Context (d : base_distribution) (Hf : ft_space d).

Lemma in_space_rel ptr :
  in_space d ptr -> exists r, ptr = start_address d + r /\ 0 <= r < total_size d.
Proof. unfold in_space. exists (ptr - start_address d). lia. Qed.

Lemma ft_step_spec s s' :
  ft_inv d s -> ft_step d s s' -> exists rank pg dft, updated d s s' rank pg dft.
Proof using Hf.
  destruct Hf as [Hd Hg Hn].
  intros Hs [c rank ptr v Hr (r & -> & Hrr)%in_space_rel Hdo]. destruct c; simpl in Hdo.
  - destruct (ft_homenode_spec d Hd Hg Hn s rank r Hs Hr Hrr) as (s1 & h & o & E & Hu & _).
    rewrite E in Hdo. inv_ok. eauto.
  - destruct (ft_peek_homenode_spec d Hd Hg s rank r Hs Hr Hrr) as (s1 & Hu & E).
    rewrite E in Hdo. destruct (place d s1 _) as [[??]|]; [|done]. inv_ok. eauto.
  - destruct (ft_local_offset_spec d Hd Hg s rank r Hs Hr Hrr) as (s1 & h & o & E & Hu & _).
    rewrite E in Hdo. inv_ok. eauto.
  - destruct (ft_peek_local_offset_spec d Hd Hg s rank r Hs Hr Hrr) as (s1 & Hu & E).
    rewrite E in Hdo. inv_ok. eauto.
Qed.

(** Along any run the invariant holds and placed pages stay where they are. *)
Lemma ft_run_spec s s' :
  rtc (ft_step d) s s' -> ft_inv d s ->
  ft_inv d s' /\ forall q l, 0 <= q < npages d -> place d s q = Some l -> place d s' q = Some l.
Proof using Hf.
  induction 1 as [s|s s1 s2 Hstep _ IH]; [done|]. intros Hs.
  destruct (ft_step_spec s s1 Hs Hstep) as (rank & pg & dft & Hu).
  destruct (IH (up_inv _ _ _ _ _ _ Hu)) as [Hi Hp]. split; [done|].
  intros q l Hq Hl. apply Hp; [done|]. eapply updated_place; eauto. apply Hf.
Qed.

Lemma ft_reachable_inv s : rtc (ft_step d) ft_reset s -> ft_inv d s.
Proof using Hf. intros H. apply (ft_run_spec _ _ H). apply ft_reset_inv, Hf. Qed.

Lemma updated_peek s s' rank pg q :
  updated d s s' rank pg false -> 0 <= q < npages d -> place d s' q = place d s q.
Proof using Hf.
  intros Hu Hq. destruct (place d s q) eqn:E.
  - eapply updated_place; eauto. apply Hf.
  - unfold place in *. destruct (claimed d s q) eqn:Hc; [done|].
    rewrite (up_new _ _ _ _ _ _ Hu q Hq Hc), andb_false_r. done.
Qed.

(** Peeking places nothing.  On a placed page both peeking calls return the
    page's location; on a page no node has touched [peek_local_offset] returns
    [invalid_offset] but [peek_homenode] throws. *)
Theorem first_touch_peek s rank r :
  rtc (ft_step d) ft_reset s -> 0 <= rank < nodes d -> 0 <= r < total_size d ->
  exists s1 v, ft_peek_local_offset d s rank (start_address d + r) = Ok (s1, v) /\
    (forall q, 0 <= q < npages d -> place d s1 q = place d s q) /\
    match place d s (r / granularity) with
    | Some (h, o) => v = o + r mod granularity /\
        exists s2, ft_peek_homenode d s rank (start_address d + r) = Ok (s2, h)
    | None => v = invalid_offset /\
        ft_peek_homenode d s rank (start_address d + r)
        = Throw (system_error msg_fetch_homenode_fail)
    end.
Proof using Hf.
  intros Hs%ft_reachable_inv Hr Hrr. destruct Hf as [Hd Hg Hn].
  pose proof (page_of_range d Hd Hg r Hrr) as Hpg.
  destruct (ft_peek_local_offset_spec d Hd Hg s rank r Hs Hr Hrr) as (s1 & Hu1 & E1).
  destruct (ft_peek_homenode_spec d Hd Hg s rank r Hs Hr Hrr) as (s2 & Hu2 & E2).
  rewrite (updated_peek _ _ _ _ _ Hu1 Hpg) in E1. rewrite (updated_peek _ _ _ _ _ Hu2 Hpg) in E2.
  eexists s1, _. split; [exact E1|]. split; [intros q Hq; by eapply updated_peek|].
  destruct (place d s (r / granularity)) as [[h o]|]; [|done]. split; [done|]. by exists s2.
Qed.

End Runs.

(** ** Concrete runs *)
Definition ft_demo : base_distribution := set_memory_space 2 (2 ^ 32) (4 * 4096).

Lemma ft_demo_space : ft_space ft_demo.
Proof.
  split; [split; vm_compute; repeat split; try (intros H; discriminate H)| |].
  - exists 2. done.
  - vm_compute. intros H; discriminate H.
Qed.

(** Node 1 touches three pages, the third of which no longer fits its share;
    node 0 then asks for the second one. *)
Definition ft_demo_run : outcome (ft_state * Z) :=
  '(s, _) ← ft_homenode ft_demo ft_reset 1 (2 ^ 32);
  '(s, _) ← ft_homenode ft_demo s 1 (2 ^ 32 + 4096);
  '(s, _) ← ft_homenode ft_demo s 1 (2 ^ 32 + 2 * 4096);
  ft_homenode ft_demo s 0 (2 ^ 32 + 4096).

Example ft_demo_overflow : snd <$> ft_demo_run = Ok 1.
Proof. vm_compute. done. Qed.

Lemma ft_demo_in_space k : 0 <= k < 4 * 4096 -> in_space ft_demo (2 ^ 32 + k).
Proof. unfold in_space, ft_demo. simpl. lia. Qed.

Definition ft_demo_s1 : ft_state :=
  match ft_homenode ft_demo ft_reset 1 (2 ^ 32) with Ok (s, _) => s | _ => ft_reset end.

Lemma ft_demo_s1_reach : rtc (ft_step ft_demo) ft_reset ft_demo_s1.
Proof.
  apply rtc_once, (ft_step_call _ _ _ Homenode 1 (2 ^ 32) 1).
  - vm_compute. split; [intros H; discriminate H|done].
  - apply (ft_demo_in_space 0). lia.
  - vm_compute. done.
Qed.

Lemma first_touch_peek_witness :
  place ft_demo ft_demo_s1 3 = None /\
  exists s1 v, ft_peek_local_offset ft_demo ft_demo_s1 0 (2 ^ 32 + 3 * 4096) = Ok (s1, v) /\
    v = invalid_offset /\
    ft_peek_homenode ft_demo ft_demo_s1 0 (2 ^ 32 + 3 * 4096)
    = Throw (system_error msg_fetch_homenode_fail).
Proof.
  split; [vm_compute; reflexivity|].
  destruct (first_touch_peek ft_demo ft_demo_space ft_demo_s1 0 (3 * 4096))
    as (s1 & v & E & _ & H).
  - exact ft_demo_s1_reach.
  - simpl. lia.
  - simpl. lia.
  - exists s1, v. split; [exact E|].
    replace (place ft_demo ft_demo_s1 (3 * 4096 / granularity)) with (@None (Z * Z)) in H
      by (vm_compute; reflexivity).
    exact H.
Defined.
