(* ===== verification/FirstTouchNodes.v ===== *)
(** * The first-touch policy on all nodes at once

    [src/src/data_distribution/first_touch_distribution.hpp] as the nodes run it.  Its
    mutex is one per process: a node has one policy call under way, the calls of
    different nodes interleave.  Every access to the owners directory and to the offsets
    table is made inside an [MPI_Win_lock] epoch of the window it touches, exclusive if
    it writes ([src/src/backend/mpi/mpi.cpp]), so one access is one step, and a spin
    loop is a step that leaves the state as it is. *)

From stdpp Require Import functions relations.
From S2P Require Import Prelude BlockMap DataDistribution FirstTouch.

(** The access a call does next. *)
Inductive at_op :=
  | LoadOwnership
  | LoadPublic
  | WaitPublic
  | CopyLocal (pi : page_info)
  | ClaimPage
  | LoadOffset (n searched : Z)
  | ClaimOffset (n searched offset : Z)
  | CacheOffset (n searched offset : Z) (succeeded : bool)
  | StoreLocal (homenode offset : Z)
  | StorePublic (homenode offset : Z)
  | ReadEntry.

(** What follows an access: the next one, or the end of the call. *)
Inductive next := Go (l : at_op) | Done (v : outcome Z).

Definition peeks (c : ft_call) : bool :=
  match c with PeekHomenode | PeekLocalOffset => true | Homenode | LocalOffset => false end.

Section Call.

Context (d : base_distribution).

(** ** The accesses of [update_dirs] *)
Definition dir_index (addr : Z) : Z := mul64 page_info_size (addr / granularity).
Definition cas_node (addr : Z) : Z := (addr / granularity) mod nodes d.

Definition load_ownership (s : ft_state) (rank addr : Z) : next :=
  let ownership := load_owner d s rank (dir_index addr + 2) in
  if ownership =? global_null d then Go LoadPublic else Go ReadEntry.

Definition load_public (s : ft_state) (rank addr : Z) (do_first_touch : bool) : next :=
  let pi := load_page_info d s (cas_node addr) (dir_index addr) in
  if negb (is_all_equal_to pi (global_null d)) then
    if rank =? cas_node addr then Go ReadEntry
    else if is_one_equal_to pi (global_null d) then Go WaitPublic else Go (CopyLocal pi)
  else if do_first_touch then Go ClaimPage else Go ReadEntry.

(** The spin loops of [update_dirs] and [first_touch] on the CAS node's entry. *)
Definition wait_public (s : ft_state) (addr : Z) : next :=
  let pi := load_page_info d s (cas_node addr) (dir_index addr) in
  if is_one_equal_to pi (global_null d) then Go WaitPublic else Go (CopyLocal pi).

(** ** The accesses of [first_touch] *)

(** The head of the loop over the nodes, the code behind the loop included. *)
Definition search_node (n searched : Z) : next :=
  if searched <? nodes d then Go (LoadOffset n searched)
  else Done (Throw (system_error msg_first_touch_fail)).

(** The end of the loop's body. *)
Definition node_searched (n searched offset : Z) (succeeded : bool) : next :=
  if succeeded then Go (StoreLocal n offset)
  else search_node (add64 n 1 mod nodes d) (searched + 1).

(** Behind the inner loop: a remote offset is cached first. *)
Definition offset_known (rank n searched offset : Z) (succeeded : bool) : next :=
  if n =? rank then node_searched n searched offset succeeded
  else Go (CacheOffset n searched offset succeeded).

(** The head of the inner loop. *)
Definition try_offset (rank n searched offset : Z) : next :=
  if offset <? size_per_node d then Go (ClaimOffset n searched offset)
  else offset_known rank n searched offset false.

Definition claim_page (s : ft_state) (rank addr : Z) : ft_state * next :=
  let '(result, s) :=
    compare_exchange_owners_dir d s rank (global_null d) (cas_node addr) (dir_index addr + 2) in
  (s, if result =? global_null d then search_node rank 0
      else if rank =? cas_node addr then Go ReadEntry else Go WaitPublic).

Definition claim_node_offset (s : ft_state) (rank n searched offset : Z) : ft_state * next :=
  let incr_offset := add64 offset granularity in
  let '(result, s) := compare_exchange_offsets_tbl s incr_offset offset n n in
  (s, if result =? offset then offset_known rank n searched offset true
      else try_offset rank n searched result).

(** ** The loops at the end of the policy methods *)
Definition read_entry (s : ft_state) (rank : Z) (c : ft_call) (ptr : Z) : next :=
  let drift := rel d ptr mod granularity in
  let idx := dir_index (page_base d ptr) in
  let '(h, o, r) := load_page_info d s rank idx in
  let gn := global_null d in
  match c with
  | Homenode =>
    let homenode := u32 h in
    if homenode =? u32 gn then Go ReadEntry
    else Done (if nodes d <=? homenode then Throw (system_error msg_fetch_homenode_fail) else Ok homenode)
  | PeekHomenode =>
    if negb (r =? gn) && (h =? gn) then Go ReadEntry
    else
      let homenode := if h =? gn then invalid_node_id else u32 h in
      Done (if nodes d <=? homenode then Throw (system_error msg_fetch_homenode_fail) else Ok homenode)
  | LocalOffset =>
    if o =? gn then Go ReadEntry
    else
      let offset := add64 o drift in
      Done (if size_per_node d <=? offset then Throw (system_error msg_fetch_offset_fail) else Ok offset)
  | PeekLocalOffset =>
    if negb (r =? gn) && (o =? gn) then Go ReadEntry
    else
      let offset := if o =? gn then invalid_offset else add64 o drift in
      Done (if negb (offset =? invalid_offset) && (size_per_node d <=? offset)
            then Throw (system_error msg_fetch_offset_fail) else Ok offset)
  end.

(** One access of node [rank]'s call. *)
Definition ft_access (s : ft_state) (rank : Z) (c : ft_call) (ptr : Z) (l : at_op) : ft_state * next :=
  let addr := page_base d ptr in
  match l with
  | LoadOwnership => (s, load_ownership s rank addr)
  | LoadPublic => (s, load_public s rank addr (negb (peeks c)))
  | WaitPublic => (s, wait_public s addr)
  | CopyLocal pi => (store_page_info s rank (dir_index addr) pi, Go ReadEntry)
  | ClaimPage => claim_page s rank addr
  | LoadOffset n searched => (s, try_offset rank n searched (load_offset s rank n))
  | ClaimOffset n searched offset => claim_node_offset s rank n searched offset
  | CacheOffset n searched offset succeeded =>
    (put_offset s rank n offset, node_searched n searched offset succeeded)
  | StoreLocal homenode offset =>
    (store_page_info s rank (dir_index addr) (homenode, offset, rank),
     if rank =? cas_node addr then Go ReadEntry else Go (StorePublic homenode offset))
  | StorePublic homenode offset =>
    (store_page_info s (cas_node addr) (dir_index addr) (homenode, offset, rank), Go ReadEntry)
  | ReadEntry => (s, read_entry s rank c ptr)
  end.

End Call.

(** ** All nodes *)

(** The end of a call: who called what, and what came back. *)
Record event := Event { ev_rank : Z; ev_call : ft_call; ev_ptr : Z; ev_result : outcome Z }.

(** The directories, the call each node has under way, and the calls that have ended,
    the last one first. *)
Record ft_nodes := FtNodes {
  dirs : ft_state;
  under_way : Z -> option (ft_call * Z * at_op);
  events : list event;
}.

(** [argo_reset_coherence] has been executed and no node has called the policy yet. *)
Definition nodes_reset : ft_nodes := {| dirs := ft_reset; under_way := fun _ => None; events := [] |}.

Definition begin_call (s : ft_nodes) (rank : Z) (c : ft_call) (ptr : Z) : ft_nodes :=
  {| dirs := dirs s; under_way := <[rank := Some (c, ptr, LoadOwnership)]> (under_way s); events := events s |}.

Definition go_on (d : base_distribution) (s : ft_nodes) (rank : Z) (c : ft_call) (ptr : Z) (l : at_op) : ft_nodes :=
  let '(f, nx) := ft_access d (dirs s) rank c ptr l in
  match nx with
  | Go l' => {| dirs := f; under_way := <[rank := Some (c, ptr, l')]> (under_way s); events := events s |}
  | Done v => {| dirs := f; under_way := <[rank := None]> (under_way s); events := Event rank c ptr v :: events s |}
  end.

Inductive nodes_step (d : base_distribution) (s : ft_nodes) : ft_nodes -> Prop :=
  | step_begin rank c ptr : 0 <= rank < nodes d -> in_space d ptr -> under_way s rank = None ->
      nodes_step d s (begin_call s rank c ptr)
  | step_go_on rank c ptr l : 0 <= rank < nodes d -> under_way s rank = Some (c, ptr, l) ->
      nodes_step d s (go_on d s rank c ptr l).

Definition nodes_reachable (d : base_distribution) (s : ft_nodes) : Prop := rtc (nodes_step d) nodes_reset s.

(** ** The invariant

    [pl] has the place, a node and an offset there, of every page an offset has been
    claimed for.  It only grows. *)
Definition page_of (d : base_distribution) (ptr : Z) : Z := (ptr - start_address d) / granularity.

Definition claiming (l : at_op) : bool :=
  match l with
  | LoadOffset _ _ | ClaimOffset _ _ _ | CacheOffset _ _ _ _ | StoreLocal _ _ | StorePublic _ _ => true
  | _ => false
  end.

Section Nodes.

Context (d : base_distribution) (Hd : space_ok d) (Hg : (granularity | size_per_node d)).

Abbreviation N := (nodes d).
Abbreviation gn := (global_null d).
Abbreviation g := granularity.
Abbreviation spn := (size_per_node d).
Abbreviation home_entry := (home_entry d).
Abbreviation entry := (entry d).
Abbreviation cas_of := (cas_of d).
Abbreviation null_info := (null_info d).
Abbreviation npages := (npages d).

Implicit Types (pl : gmap Z (Z * Z)) (s : ft_state).

(** Node [x] has claimed the page and has not published its place. *)
Definition pending (x : Z) : page_info := (gn, gn, x).

(** The page's place is on the node [x] that claimed it, or [x] had no room. *)
Definition hosted s (h x : Z) : Prop := h = x \/ spn <= used s x.

Definition full pl s (pg : Z) (pi : page_info) : Prop :=
  exists h o x, pi = (h, o, x) /\ pl !! pg = Some (h, o) /\ 0 <= x < N /\ hosted s h x.

Record places_ok pl (used : Z -> Z) : Prop := {
  po_range pg h o : pl !! pg = Some (h, o) ->
    0 <= pg < npages /\ 0 <= h < N /\ 0 <= o /\ o + g <= used h /\ (g | o);
  po_inj p q l : pl !! p = Some l -> pl !! q = Some l -> p = q;
}.

Record dirs_ok pl s : Prop := {
  do_table : table_ok d s;
  do_places : places_ok pl (used s);
  do_count : sumZ (used s) N = g * Z.of_nat (size pl);
  do_home pg : 0 <= pg < npages ->
    (home_entry s pg = null_info /\ pl !! pg = None) \/
    (exists x, 0 <= x < N /\ home_entry s pg = pending x) \/
    full pl s pg (home_entry s pg);
  do_local r pg : 0 <= r < N -> 0 <= pg < npages -> r <> cas_of pg ->
    entry s r pg = null_info \/ full pl s pg (entry s r pg);
}.

Definition searched_ok s (r n searched : Z) : Prop :=
  0 <= searched < N /\ n = (r + searched) mod N /\
  forall j, 0 <= j < searched -> spn <= used s ((r + j) mod N).

(** What holds where node [r]'s call on page [pg] is. *)
Definition op_ok pl s (r : Z) (c : ft_call) (pg : Z) (l : at_op) : Prop :=
  match l with
  | LoadOwnership | LoadPublic => True
  | WaitPublic => r <> cas_of pg /\ home_entry s pg <> null_info
  | CopyLocal pi => r <> cas_of pg /\ full pl s pg pi
  | ClaimPage => True
  | LoadOffset n searched => home_entry s pg = pending r /\ pl !! pg = None /\ searched_ok s r n searched
  | ClaimOffset n searched offset =>
    home_entry s pg = pending r /\ pl !! pg = None /\ searched_ok s r n searched /\ 0 <= offset <= used s n /\ offset < spn
  | CacheOffset n searched offset succeeded =>
    home_entry s pg = pending r /\ searched_ok s r n searched /\ n <> r /\ 0 <= offset <= used s n /\
    if succeeded then pl !! pg = Some (n, offset) /\ hosted s n r
    else pl !! pg = None /\ spn <= used s n
  | StoreLocal h o => home_entry s pg = pending r /\ pl !! pg = Some (h, o) /\ hosted s h r
  | StorePublic h o =>
    home_entry s pg = pending r /\ pl !! pg = Some (h, o) /\ hosted s h r /\ r <> cas_of pg /\ entry s r pg <> null_info
  | ReadEntry => peeks c = true \/ entry s r pg <> null_info
  end.

(** What a step of node [r] on page [pg] leaves to the other nodes and pages. *)
Record evolves pl s pl' s' (r pg : Z) : Prop := {
  ev_used n : 0 <= n < N -> used s n <= used s' n;
  ev_places : pl ⊆ pl';
  ev_place q : q <> pg -> pl' !! q = pl !! q;
  ev_home q : q <> pg -> home_entry s' q = home_entry s q;
  ev_pending x : 0 <= x < N -> home_entry s pg = pending x -> x <> r -> home_entry s' pg = pending x /\ pl' !! pg = pl !! pg;
  ev_new x : home_entry s' pg = pending x -> x = r \/ home_entry s pg = pending x;
  ev_claimed : home_entry s pg <> null_info -> home_entry s' pg <> null_info;
  ev_local r' q : r' <> r -> r' <> cas_of q -> entry s' r' q = entry s r' q;
}.

Lemma evolves_refl pl s r pg : evolves pl s pl s r pg.
Proof. split; auto; lia. Qed.

Lemma hosted_mono pl s pl' s' r pg h x : evolves pl s pl' s' r pg -> 0 <= x < N -> hosted s h x -> hosted s' h x.
Proof. intros E Hx [->|H]; [by left|right]. pose proof (ev_used _ _ _ _ _ _ E x Hx). lia. Qed.

Lemma full_mono pl s pl' s' r pg q pi : evolves pl s pl' s' r pg -> full pl s q pi -> full pl' s' q pi.
Proof.
  intros E (h & o & x & -> & Hp & Hx & Hh). exists h, o, x. split; [done|]. split; [|split; [done|by eapply hosted_mono]].
  by apply (lookup_weaken pl); [|apply E].
Qed.

Lemma ev_not_null pl s pl' s' r pg q : evolves pl s pl' s' r pg -> home_entry s q <> null_info -> home_entry s' q <> null_info.
Proof. intros E H. destruct (decide (q = pg)) as [->|Hq]; [by apply E|by rewrite (ev_home _ _ _ _ _ _ E)]. Qed.

Lemma ev_kept pl s pl' s' r pg q r' : evolves pl s pl' s' r pg -> 0 <= r' < N -> r' <> r -> home_entry s q = pending r' ->
  home_entry s' q = pending r' /\ pl' !! q = pl !! q.
Proof.
  intros E Hr' Hr H. destruct (decide (q = pg)) as [->|Hq]; [by apply (ev_pending _ _ _ _ _ _ E)|].
  by rewrite (ev_home _ _ _ _ _ _ E), (ev_place _ _ _ _ _ _ E).
Qed.

Lemma node_range n k : 0 <= (n + k) mod N < N.
Proof using Hd. apply Z.mod_pos_bound. pose proof (so_nodes d Hd). lia. Qed.

Lemma searched_mono pl s pl' s' r pg r' n k : evolves pl s pl' s' r pg -> searched_ok s r' n k -> searched_ok s' r' n k.
Proof using Hd.
  intros E (Hk & Hn & Hf). split; [done|]. split; [done|]. intros j Hj.
  pose proof (ev_used _ _ _ _ _ _ E _ (node_range r' j)). specialize (Hf j Hj). lia.
Qed.

Lemma ev_entry pl s pl' s' r pg r' q : evolves pl s pl' s' r pg -> r' <> r -> entry s r' q <> null_info -> entry s' r' q <> null_info.
Proof.
  intros E Hr H. destruct (decide (r' = cas_of q)) as [->|Hc]; [by apply (ev_not_null _ _ _ _ _ _ _ E)|].
  by rewrite (ev_local _ _ _ _ _ _ E).
Qed.

(** Another node's step keeps what a call relies on. *)
Lemma op_ok_mono pl s pl' s' r pg r' c q l :
  evolves pl s pl' s' r pg -> 0 <= r' < N -> r' <> r -> op_ok pl s r' c q l -> op_ok pl' s' r' c q l.
Proof using Hd.
  intros E Hr' Hr. pose proof (ev_kept _ _ _ _ _ _ q r' E Hr' Hr) as K.
  assert (Hu : forall j k, j = (r' + k) mod N -> used s j <= used s' j) by (intros j k ->; apply (ev_used _ _ _ _ _ _ E), node_range).
  pose proof (fun h => hosted_mono _ _ _ _ _ _ h r' E Hr') as Hh.
  pose proof (fun n k => searched_mono _ _ _ _ _ _ r' n k E) as Hs.
  destruct l; simpl; try done.
  - intros [H1 H2]. split; [done|]. by eapply ev_not_null.
  - intros [H1 H2]. split; [done|]. by eapply full_mono.
  - intros (H1 & H2 & H3). destruct (K H1) as [-> ->]. auto.
  - intros (H1 & H2 & H3 & H4 & H5). destruct (K H1) as [-> ->]. pose proof (Hu n searched ltac:(apply H3)). split_and!; auto; lia.
  - intros (H1 & H3 & H4 & H5 & H6). destruct (K H1) as [-> ->]. pose proof (Hu n searched ltac:(apply H3)).
    split_and!; auto; [lia|lia|]. destruct succeeded; destruct H6 as [H6 H7]; split; auto; lia.
  - intros (H1 & H2 & H3). destruct (K H1) as [-> ->]. auto.
  - intros (H1 & H2 & H3 & H4 & H5). destruct (K H1) as [-> ->]. split_and!; auto. by eapply ev_entry.
  - intros [H|H]; [by left|right]. by eapply ev_entry.
Qed.

(** ** Reading the entries of a page *)
Lemma page_in_space ptr : in_space d ptr -> 0 <= page_of d ptr < npages.
Proof using Hd Hg. intros H. apply (page_of_range d Hd Hg). unfold in_space in H. lia. Qed.

Lemma page_address ptr : in_space d ptr ->
  dir_index (page_base d ptr) = 3 * page_of d ptr /\ cas_node d (page_base d ptr) = cas_of (page_of d ptr) /\
  rel d ptr = ptr - start_address d.
Proof using Hd.
  intros H. unfold in_space in H. assert (Hr : 0 <= ptr - start_address d < total_size d) by lia.
  replace ptr with (start_address d + (ptr - start_address d)) by ring.
  unfold page_of. rewrite Z.add_simpl_l, (page_base_page d Hd) by done.
  split; [by apply (window_index d Hd)|]. split; [|by apply (rel_of d Hd)].
  unfold cas_node, FirstTouch.cas_of. by rewrite Z.mul_comm, Z.div_mul.
Qed.

Lemma null_one : is_one_equal_to null_info gn = true.
Proof. unfold FirstTouch.null_info. simpl. by rewrite Z.eqb_refl. Qed.

Lemma pending_one x : is_one_equal_to (pending x) gn = true.
Proof. unfold pending. simpl. by rewrite Z.eqb_refl. Qed.

Lemma pending_not_null x : 0 <= x < N -> pending x <> null_info.
Proof using Hd. intros Hx [= E]. by apply (node_not_null d Hd x). Qed.

Lemma place_bounds pl s pg h o : dirs_ok pl s -> pl !! pg = Some (h, o) ->
  0 <= pg < npages /\ 0 <= h < N /\ 0 <= o /\ o + g <= spn /\ h <> gn /\ o <> gn.
Proof using Hd.
  intros H E. destruct (po_range _ _ (do_places _ _ H) _ _ _ E) as (Hp & Hh & Ho & Hu & _).
  destruct (tk_used _ _ (do_table _ _ H) h Hh) as [Hb _]. pose proof (node_not_null d Hd h Hh).
  pose proof (gn_eq d Hd). pose proof (spn_le_total d Hd). unfold granularity in *. split_and!; lia.
Qed.

Lemma full_one pl s pg pi : dirs_ok pl s -> full pl s pg pi -> is_one_equal_to pi gn = false.
Proof using Hd.
  intros H (h & o & x & -> & E & Hx & _). destruct (place_bounds _ _ _ _ _ H E) as (_ & _ & _ & _ & H1 & H2).
  pose proof (node_not_null d Hd x Hx). simpl. rewrite !orb_false_iff, !Z.eqb_neq. done.
Qed.

Lemma one_false pi : is_one_equal_to pi gn = false ->
  pi <> null_info /\ (forall x, pi <> pending x) /\ is_all_equal_to pi gn = false /\ (snd pi =? gn) = false.
Proof.
  destruct pi as [[a b] x]. simpl. rewrite !orb_false_iff, !Z.eqb_neq. intros [[H1 H2] H3].
  split; [intros [= -> _ _]; done|]. split; [intros y [= -> _ _]; done|]. rewrite !andb_false_iff, !Z.eqb_neq. auto.
Qed.

(** The three kinds of entry of a CAS node. *)
Lemma home_cases pl s pg : dirs_ok pl s -> 0 <= pg < npages ->
  (home_entry s pg = null_info /\ pl !! pg = None) \/
  (exists x, 0 <= x < N /\ home_entry s pg = pending x /\ is_all_equal_to (home_entry s pg) gn = false /\
     is_one_equal_to (home_entry s pg) gn = true /\ (snd (home_entry s pg) =? gn) = false) \/
  (full pl s pg (home_entry s pg) /\ is_all_equal_to (home_entry s pg) gn = false /\
     is_one_equal_to (home_entry s pg) gn = false /\ (snd (home_entry s pg) =? gn) = false).
Proof using Hd.
  intros H Hpg. destruct (do_home _ _ H pg Hpg) as [Hn|[(x & Hx & ->)|Hf]]; [by left| |].
  - right; left. exists x. pose proof (node_not_null d Hd x Hx) as Hx'%Z.eqb_neq. unfold pending. simpl. by rewrite Z.eqb_refl, Hx'.
  - right; right. pose proof (full_one _ _ _ _ H Hf) as E. destruct (one_false _ E) as (_ & _ & ? & ?). done.
Qed.

Lemma snd_null pi : pi = null_info -> (snd pi =? gn) = true.
Proof. intros ->. simpl. apply Z.eqb_refl. Qed.

Lemma all_null : is_all_equal_to null_info gn = true.
Proof. simpl. by rewrite Z.eqb_refl. Qed.

(** While a claimed page has no place some node has room. *)
Lemma places_size pl u pg : places_ok pl u -> pl !! pg = None -> 0 <= pg < npages -> Z.of_nat (size pl) < npages.
Proof.
  intros H Hn Hpg. rewrite <- (size_dom (D := gset Z) pl).
  assert (Hs : {[pg]} ∪ dom pl ⊆ (list_to_set (seqZ 0 npages) : gset Z)).
  { intros q. rewrite elem_of_union, elem_of_singleton, elem_of_list_to_set, elem_of_seqZ.
    intros [->|[[h o] E]%elem_of_dom]; [lia|]. destruct (po_range _ _ H _ _ _ E). lia. }
  apply subseteq_size in Hs. rewrite size_list_to_set in Hs by apply NoDup_seqZ. rewrite length_seqZ in Hs.
  rewrite size_union, size_singleton in Hs; [lia|]. by apply disjoint_singleton_l, not_elem_of_dom.
Qed.

Lemma room_for pl s r pg : dirs_ok pl s -> 0 <= r < N -> 0 <= pg < npages -> pl !! pg = None ->
  ~ (forall j, 0 <= j < N -> spn <= used s ((r + j) mod N)).
Proof using Hd Hg.
  intros H Hr Hpg Hn Hall. pose proof (places_size _ _ _ (do_places _ _ H) Hn Hpg) as Hsz.
  pose proof (do_count _ _ H) as Hc. pose proof (npages_total d Hd Hg) as Hnp. pose proof (so_nodes d Hd).
  assert (Heq : sumZ (used s) N = sumZ (fun _ => spn) N).
  { apply sumZ_ext. intros n Hn'. specialize (Hall ((n - r) mod N)). pose proof (Z.mod_pos_bound (n - r) N ltac:(lia)).
    rewrite Zplus_mod_idemp_r in Hall. replace (r + (n - r)) with n in Hall by ring. rewrite (Z.mod_small n N) in Hall by lia.
    pose proof (tk_used _ _ (do_table _ _ H) n Hn'). lia. }
  rewrite sumZ_const in Heq by lia. unfold granularity in *. lia.
Qed.

(** ** The accesses that write *)
Section Store.

Context pl s (w pg r : Z) (pi : page_info).
Context (H : dirs_ok pl s) (Hpg : 0 <= pg < npages) (Hf : full pl s pg pi).
Context (Hw : w = r \/ w = cas_of pg) (Hc : w = cas_of pg -> home_entry s pg = pending r).

Abbreviation s' := (store_page_info s w (3 * pg) pi).

Lemma store_used n : used s' n = used s n.
Proof using Type. apply used_store. Qed.

Lemma store_home q : home_entry s' q = if decide (w = cas_of pg /\ pg = q) then pi else home_entry s q.
Proof using Type.
  unfold FirstTouch.home_entry. rewrite entry_store. destruct (decide (w = cas_of q /\ pg = q)) as [[E <-]|E].
  - by rewrite decide_True.
  - rewrite decide_False; [done|]. intros [? <-]. by apply E.
Qed.

Lemma store_evolves : evolves pl s pl s' r pg.
Proof using Hd H Hpg Hf Hw Hc.
  destruct (one_false _ (full_one _ _ _ _ H Hf)) as (N1 & N2 & _).
  split.
  - intros n _. rewrite store_used. lia.
  - done.
  - done.
  - intros q Hq. rewrite store_home, decide_False; [done|]. intros [_ ->]. done.
  - intros x _ Hx Hr. split; [|done]. rewrite store_home. case_decide as E; [|done].
    destruct E as [E _]. rewrite (Hc E) in Hx. by injection Hx as ->.
  - intros x. rewrite store_home. case_decide as E; [|by right]. by intros ?%N2.
  - intros Hn. rewrite store_home. by case_decide.
  - intros r' q Hr Hq. rewrite entry_store, decide_False; [done|]. intros [-> ->]. by destruct Hw.
Qed.

Lemma store_dirs_ok : dirs_ok pl s'.
Proof using Hd H Hpg Hf Hw Hc.
  pose proof store_evolves as E.
  assert (Hm : forall q x, full pl s q x -> full pl s' q x) by (intros; by eapply full_mono).
  split.
  - apply (table_ok_ext d s); [by destruct pi as [[??]?]|apply H].
  - destruct (do_places _ _ H) as [P I]. split; [|done]. intros q h o Hq. rewrite store_used. by apply P.
  - rewrite <- (do_count _ _ H). apply sumZ_ext. intros n _. apply store_used.
  - intros q Hq. rewrite store_home. case_decide as Ed; [destruct Ed as [_ <-]; auto|].
    destruct (do_home _ _ H q Hq) as [?|[?|?]]; auto.
  - intros x q Hx Hq Hne. rewrite entry_store. case_decide as Ed; [destruct Ed as [_ <-]; auto|].
    destruct (do_local _ _ H x q Hx Hq Hne); auto.
Qed.

End Store.

(** Depositing a rank in an empty ownership word. *)
Section Claim.

Context pl s (pg r : Z) (H : dirs_ok pl s) (Hpg : 0 <= pg < npages) (Hr : 0 <= r < N).
Context (Hn : home_entry s pg = null_info).

Abbreviation s' := (put_owner s (cas_of pg) (3 * pg + 2) r).

Lemma deposit_entry w q : entry s' w q = if decide (w = cas_of pg /\ q = pg) then pending r else entry s w q.
Proof using Hn.
  case_decide as E.
  - destruct E as [-> ->]. unfold FirstTouch.home_entry, FirstTouch.entry, load_page_info, FirstTouch.null_info in Hn. injection Hn as E1 E2 _.
    unfold FirstTouch.entry, load_page_info, pending. f_equal; [f_equal|].
    + etransitivity; [|exact E1]. unfold load_owner, put_owner; simpl. rewrite lookup_insert_ne; [done|]. intros [=]; lia.
    + etransitivity; [|exact E2]. unfold load_owner, put_owner; simpl. rewrite lookup_insert_ne; [done|]. intros [=]; lia.
    + unfold load_owner, put_owner; simpl. by rewrite lookup_insert_eq.
  - apply entry_put. destruct (decide (q = pg)) as [->|]; [left; intros <-; by apply E|right; congruence].
Qed.

Lemma deposit_home q : home_entry s' q = if decide (q = pg) then pending r else home_entry s q.
Proof using Hn.
  unfold FirstTouch.home_entry. rewrite deposit_entry. destruct (decide (q = pg)) as [->|Hq]; [by rewrite decide_True|].
  rewrite decide_False; [done|]. by intros [_ ->].
Qed.

Lemma deposit_evolves : evolves pl s pl s' r pg.
Proof using Hd Hpg Hr Hn.
  split.
  - intros n _. apply Z.le_refl.
  - done.
  - done.
  - intros q Hq. by rewrite deposit_home, decide_False.
  - intros x Hx E. rewrite Hn in E. by destruct (pending_not_null x Hx).
  - intros x. rewrite deposit_home, decide_True by done. intros [= ->]. by left.
  - intros _. rewrite deposit_home, decide_True by done. by apply pending_not_null.
  - intros r' q Hne Hq. rewrite deposit_entry, decide_False; [done|]. intros [-> ->]. done.
Qed.

Lemma deposit_ok : dirs_ok pl s'.
Proof using Hd H Hpg Hr Hn.
  pose proof deposit_evolves as E.
  assert (Hm : forall q x, full pl s q x -> full pl s' q x) by (intros; by eapply full_mono).
  split.
  - apply (table_ok_ext d s); [done|apply H].
  - apply H.
  - apply H.
  - intros q Hq. rewrite deposit_home. case_decide as Ed; [right; left; by exists r|].
    destruct (do_home _ _ H q Hq) as [?|[?|?]]; auto.
  - intros x q Hx Hq Hne. rewrite deposit_entry. case_decide as Ed; [by destruct Ed as [-> ->]|].
    destruct (do_local _ _ H x q Hx Hq Hne); auto.
Qed.

End Claim.

(** Taking the next offset of node [n] for a page without a place, and caching an
    offset. *)
Lemma entry_put_offset s r n v w q : entry (put_offset s r n v) w q = entry s w q.
Proof. by apply entry_ext. Qed.

Lemma take_offset pl s r n pg : dirs_ok pl s -> 0 <= pg < npages -> 0 <= r < N -> 0 <= n < N ->
  home_entry s pg = pending r -> pl !! pg = None -> used s n < spn ->
  let s' := put_offset s n n (used s n + g) in let pl' := <[pg := (n, used s n)]> pl in
  dirs_ok pl' s' /\ evolves pl s pl' s' r pg /\ used s' n = used s n + g /\ home_entry s' pg = pending r.
Proof using Hg.
  intros H Hpg Hr Hn Hh Hp Hlt s' pl'.
  destruct (table_ok_claim d Hg s n (do_table _ _ H) Hn Hlt) as [_ _ Hu Ht]. fold s' in Hu, Ht.
  assert (Eh : forall q, home_entry s' q = home_entry s q) by (intros q; by apply entry_ext).
  assert (E : evolves pl s pl' s' r pg).
  { split.
    - intros m _. rewrite Hu. case_decide; unfold granularity; lia.
    - by apply insert_subseteq.
    - intros q Hq. by apply lookup_insert_ne.
    - done.
    - intros x _ Hx Hne. rewrite Hh in Hx. injection Hx as ->. done.
    - intros x Hx. rewrite Eh in Hx. by right.
    - by rewrite Eh.
    - intros r' q _ _. apply entry_ext. done. }
  assert (Hm : forall q x, full pl s q x -> full pl' s' q x) by (intros; by eapply full_mono).
  destruct (do_places _ _ H) as [P I]. destruct (tk_used _ _ (do_table _ _ H) n Hn) as [Hb Hdiv].
  split; [|split; [done|split; [by rewrite Hu, decide_True|by rewrite Eh]]]. split.
  - done.
  - assert (Hfresh : forall q, pl !! q <> Some (n, used s n)).
    { intros q Hq. destruct (P _ _ _ Hq) as (_ & _ & _ & Hl & _). unfold granularity in Hl. lia. }
    split.
    + intros q h o [[-> [= <- <-]]|[Hne Hq]]%lookup_insert_Some.
      * rewrite Hu, decide_True by done. split_and!; try done; lia.
      * destruct (P _ _ _ Hq) as (? & ? & ? & ? & ?). rewrite Hu. split_and!; try done; [lia..|]. case_decide; unfold granularity in *; lia.
    + intros p q l [[-> El]|[Hp' El]]%lookup_insert_Some [[-> El']|[Hq' El']]%lookup_insert_Some; try done.
      * subst l. by destruct (Hfresh q).
      * subst l. by destruct (Hfresh p).
      * by eapply I.
  - rewrite (sumZ_update (used s) _ n g N); [|done|by rewrite Hu, decide_True|intros i _ Hi; rewrite Hu, decide_False by done; lia].
    unfold pl'. rewrite map_size_insert_None, (do_count _ _ H) by done. lia.
  - intros q Hq. rewrite Eh. destruct (decide (q = pg)) as [->|Hne]; [right; left; by exists r|].
    unfold pl'. rewrite lookup_insert_ne by done. destruct (do_home _ _ H q Hq) as [?|[?|?]]; auto.
  - intros x q Hx Hq Hne. unfold s'. rewrite entry_put_offset. destruct (do_local _ _ H x q Hx Hq Hne); auto.
Qed.

Lemma cache_offset pl s r n v pg : dirs_ok pl s -> 0 <= r < N -> 0 <= n < N -> n <> r -> 0 <= v <= used s n ->
  let s' := put_offset s r n v in
  dirs_ok pl s' /\ evolves pl s pl s' r pg /\ (forall m, used s' m = used s m) /\ forall w q, entry s' w q = entry s w q.
Proof.
  intros H Hr Hn Hne Hv s'. destruct (table_ok_cache d s r n v (do_table _ _ H) Hr Hn Hne Hv) as [Ht Hu].
  assert (Ee : forall w q, entry s' w q = entry s w q) by (intros; by apply entry_ext).
  assert (Hf : forall q x, full pl s q x -> full pl s' q x).
  { intros q x (h & o & y & -> & E & Hy & Hh). exists h, o, y. unfold hosted. rewrite Hu. done. }
  split; [|split; [|done]].
  - split; [done| | |intros q Hq|intros x q Hx Hq Hc].
    + destruct (do_places _ _ H) as [P I]. split; [|done]. intros q h o Hq. rewrite Hu. by apply P.
    + rewrite <- (do_count _ _ H). apply sumZ_ext. intros m _. apply Hu.
    + unfold FirstTouch.home_entry. rewrite Ee. destruct (do_home _ _ H q Hq) as [?|[?|?]]; auto.
    + rewrite Ee. destruct (do_local _ _ H x q Hx Hq Hc); auto.
  - assert (Eh : forall q, home_entry s' q = home_entry s q) by (intros q; apply Ee).
    split; intros; rewrite ?Hu, ?Eh, ?Ee in *; auto; lia.
Qed.

(** ** What a call answers *)

(** The result fits the places: a peek at a page without one answers
    [invalid_offset] or throws. *)
Definition answer_ok pl (c : ft_call) (ptr : Z) (v : outcome Z) : Prop :=
  let at_offset v := exists h o, pl !! page_of d ptr = Some (h, o) /\ v = o + (ptr - start_address d) mod g in
  match v with
  | Ok v =>
    match c with
    | Homenode | PeekHomenode => exists o, pl !! page_of d ptr = Some (v, o)
    | LocalOffset => at_offset v
    | PeekLocalOffset => v = invalid_offset \/ at_offset v
    end
  | Throw e => c = PeekHomenode /\ e = system_error msg_fetch_homenode_fail
  | Hang => False
  end.

Lemma answer_mono pl pl' c ptr v : pl ⊆ pl' -> answer_ok pl c ptr v -> answer_ok pl' c ptr v.
Proof.
  intros Hs. assert (K : forall q l, pl !! q = Some l -> pl' !! q = Some l) by (intros q l E; by apply (lookup_weaken pl)).
  assert (O : forall x, (exists h o, pl !! page_of d ptr = Some (h, o) /\ x = o + (ptr - start_address d) mod g) ->
    exists h o, pl' !! page_of d ptr = Some (h, o) /\ x = o + (ptr - start_address d) mod g) by (intros x (h & o & E & ->); eauto).
  destruct v; simpl; [|done..]. destruct c; [intros [o E]; eauto..|apply O|intros [H|H]; auto].
Qed.

Definition next_ok pl s (r : Z) (c : ft_call) (ptr : Z) (nx : next) : Prop :=
  let pg := page_of d ptr in
  match nx with
  | Go l => op_ok pl s r c pg l /\ (home_entry s pg = pending r -> claiming l = true)
  | Done v => answer_ok pl c ptr v /\ home_entry s pg <> pending r
  end.

Section Search.

Context pl s (r : Z) (c : ft_call) (ptr n searched : Z).
Context (H : dirs_ok pl s) (Hr : 0 <= r < N) (Hp : in_space d ptr) (Hs : searched_ok s r n searched).
Context (Hh : home_entry s (page_of d ptr) = pending r).

Lemma node_searched_ok offset succeeded :
  (if succeeded : bool then pl !! page_of d ptr = Some (n, offset) /\ hosted s n r
   else pl !! page_of d ptr = None /\ spn <= used s n) ->
  next_ok pl s r c ptr (node_searched d n searched offset succeeded).
Proof using Hd Hg H Hr Hp Hs Hh.
  unfold node_searched. destruct succeeded; [intros [H1 H2]; by repeat split|]. intros [H1 H2].
  destruct Hs as (Hk & Hn & Hf). pose proof (so_nodes d Hd).
  assert (Hfull : forall j, 0 <= j < searched + 1 -> spn <= used s ((r + j) mod N)).
  { intros j Hj. destruct (Z.eq_dec j searched) as [->|]; [by rewrite <- Hn|apply Hf; lia]. }
  unfold search_node. destruct (Z.ltb_spec (searched + 1) N).
  - split; [|done]. split; [done|]. split; [done|]. split; [lia|]. split; [|done].
    pose proof (node_range r searched). rewrite add64_small by lia. by rewrite Hn, Zplus_mod_idemp_l, Z.add_assoc.
  - exfalso. apply (room_for pl s r _ H Hr (page_in_space ptr Hp) H1). intros j Hj. apply Hfull. lia.
Qed.

Lemma offset_known_ok offset succeeded : 0 <= offset <= used s n ->
  (if succeeded : bool then pl !! page_of d ptr = Some (n, offset) /\ hosted s n r
   else pl !! page_of d ptr = None /\ spn <= used s n) ->
  next_ok pl s r c ptr (offset_known d r n searched offset succeeded).
Proof using Hd Hg H Hr Hp Hs Hh.
  intros Ho Hb. unfold offset_known. destruct (Z.eqb_spec n r); [by apply node_searched_ok|]. split; [|done]. simpl. split_and!; try done; lia.
Qed.

Lemma try_offset_ok offset : 0 <= offset <= used s n -> pl !! page_of d ptr = None ->
  next_ok pl s r c ptr (try_offset d r n searched offset).
Proof using Hd Hg H Hr Hp Hs Hh.
  intros Ho Hn. unfold try_offset. destruct (Z.ltb_spec offset spn); [split; [|done]; simpl; split_and!; try done; lia|].
  apply offset_known_ok; [done|]. split; [done|lia].
Qed.

Lemma searched_hosted : hosted s n r.
Proof using Hs Hr.
  destruct Hs as (Hk & -> & Hf). destruct (Z.eq_dec searched 0) as [->|Hne].
  - left. by rewrite Z.add_0_r, Z.mod_small.
  - right. specialize (Hf 0). rewrite Z.add_0_r, Z.mod_small in Hf by done. apply Hf. lia.
Qed.

End Search.

Context (Hnull : N <= u32 gn).

Lemma entry_cases pl s r pg : dirs_ok pl s -> 0 <= r < N -> 0 <= pg < npages ->
  entry s r pg = null_info \/ (r = cas_of pg /\ exists x, 0 <= x < N /\ entry s r pg = pending x) \/ full pl s pg (entry s r pg).
Proof.
  intros H Hr Hpg. destruct (decide (r = cas_of pg)) as [->|Hc].
  - destruct (do_home _ _ H pg Hpg) as [[? _]|[?|?]]; auto.
  - destruct (do_local _ _ H r pg Hr Hpg Hc); auto.
Qed.

(** The last loop of a call: it spins while the page is pending, and then returns. *)
Lemma read_entry_spec pl s r c ptr : dirs_ok pl s -> 0 <= r < N -> in_space d ptr ->
  (entry s r (page_of d ptr) = null_info -> peeks c = true ->
     exists v, read_entry d s r c ptr = Done v /\ answer_ok pl c ptr v) /\
  ((exists x, 0 <= x < N /\ entry s r (page_of d ptr) = pending x) -> read_entry d s r c ptr = Go ReadEntry) /\
  (full pl s (page_of d ptr) (entry s r (page_of d ptr)) ->
     exists v, read_entry d s r c ptr = Done (Ok v) /\ answer_ok pl c ptr (Ok v) /\ (c = PeekLocalOffset -> v <> invalid_offset)).
Proof using Hd Hg Hnull.
  intros H Hr Hp. destruct (page_address ptr Hp) as (Ei & _ & Er). unfold read_entry. rewrite Ei, Er.
  fold (entry s r (page_of d ptr)). split; [|split].
  - intros ->. unfold FirstTouch.null_info. destruct c; [done| |done|]; intros _.
    + rewrite Z.eqb_refl. simpl negb. cbn [andb]. eexists. split; [done|].
      destruct (Z.leb_spec N invalid_node_id) as [_|Hlt]; [done|].
      pose proof (so_nodes d Hd) as HN. cbv [invalid_node_id UINT_MAX] in Hlt. lia.
    + rewrite !Z.eqb_refl. simpl negb. cbn [andb]. eexists. split; [done|]. by left.
  - intros (x & Hx & ->). unfold pending. pose proof (node_not_null d Hd x Hx) as Hx'%Z.eqb_neq.
    destruct c; rewrite ?Hx', ?Z.eqb_refl; done.
  - intros (h & o & x & -> & E & Hx & _). destruct (place_bounds _ _ _ _ _ H E) as (_ & Hh & Ho & Hb & N1 & N2).
    apply Z.eqb_neq in N1, N2. rewrite N1, N2, !andb_false_r. rewrite u32_small by (pose proof (so_nodes d Hd); lia).
    pose proof (spn_le_total d Hd). pose proof (so_size d Hd). set (drift := (ptr - start_address d) mod g).
    assert (0 <= drift < g) by (by apply Z.mod_pos_bound). rewrite add64_small by (unfold granularity in *; lia).
    assert (Hoff : (spn <=? o + drift) = false) by (apply Z.leb_gt; lia). assert (Hhome : (N <=? h) = false) by (apply Z.leb_gt; lia).
    assert (Hinv : o + drift <> invalid_offset) by (unfold invalid_offset, SIZE_MAX; lia).
    destruct c; rewrite ?Hoff, ?Hhome, ?andb_false_r.
    + destruct (Z.eqb_spec h (u32 gn)); [lia|]. exists h. split_and!; [done| |done]. by exists o.
    + exists h. split_and!; [done| |done]. by exists o.
    + exists (o + drift). split_and!; [done| |done]. by exists h, o.
    + exists (o + drift). split_and!; [done| |done]. right. by exists h, o.
Qed.

(** What one access of a call preserves: first the accesses that only read. *)
Section Access.

Context pl s (r : Z) (c : ft_call) (ptr : Z).
Context (H : dirs_ok pl s) (Hr : 0 <= r < N) (Hp : in_space d ptr).

Abbreviation pg := (page_of d ptr).

Lemma ownership_ok : home_entry s pg <> pending r -> next_ok pl s r c ptr (load_ownership d s r (page_base d ptr)).
Proof using Hd Hp.
  intros Hown. destruct (page_address ptr Hp) as (Ei & _ & _). unfold load_ownership. rewrite Ei.
  change (load_owner d s r (3 * pg + 2)) with (snd (entry s r pg)).
  destruct (snd (entry s r pg) =? gn) eqn:E; (split; [|by intros ?%Hown]); [done|]. right. intros En. by rewrite snd_null in E.
Qed.

Lemma wait_public_ok : home_entry s pg <> pending r -> r <> cas_of pg -> home_entry s pg <> null_info ->
  next_ok pl s r c ptr (wait_public d s (page_base d ptr)).
Proof using Hd Hg H Hp.
  intros Hown Hc Hn. destruct (page_address ptr Hp) as (Ei & Ec & _). unfold wait_public. rewrite Ei, Ec. fold (entry s (cas_of pg) pg) (home_entry s pg).
  destruct (home_cases pl s pg H (page_in_space ptr Hp)) as [[E _]|[(x & _ & _ & _ & -> & _)|(Hf & _ & -> & _)]];
    [done|..]; (split; [|by intros ?%Hown]); done.
Qed.

Lemma load_public_ok : home_entry s pg <> pending r -> next_ok pl s r c ptr (load_public d s r (page_base d ptr) (negb (peeks c))).
Proof using Hd Hg H Hp.
  intros Hown. pose proof (wait_public_ok Hown) as W. destruct (page_address ptr Hp) as (Ei & Ec & _).
  unfold load_public. unfold wait_public in W. rewrite Ei, Ec in *. fold (entry s (cas_of pg) pg) (home_entry s pg) in *.
  assert (K : is_all_equal_to (home_entry s pg) gn = false -> home_entry s pg <> null_info) by (intros E En; by rewrite En, all_null in E).
  destruct (is_all_equal_to (home_entry s pg) gn) eqn:Ea; cbn [negb].
  - destruct (peeks c) eqn:Epk; cbn [negb]; (split; [|by intros ?%Hown]); [by left|done].
  - destruct (Z.eqb_spec r (cas_of pg)) as [Er|Er]; [|by apply W; auto].
    split; [|by intros ?%Hown]. right. rewrite Er. by apply K.
Qed.

Lemma read_ok : home_entry s pg <> pending r -> peeks c = true \/ entry s r pg <> null_info ->
  next_ok pl s r c ptr (read_entry d s r c ptr).
Proof using Hd Hg Hnull H Hr Hp.
  intros Hown Hop. destruct (read_entry_spec pl s r c ptr H Hr Hp) as (R1 & R2 & R3).
  destruct (entry_cases pl s r pg H Hr (page_in_space ptr Hp)) as [E|[(_ & x & Hx & E)|E]].
  - destruct Hop as [Hpk|]; [|done]. destruct (R1 E Hpk) as (v & -> & Hv). done.
  - rewrite R2 by eauto. split; [|by intros ?%Hown]. right. rewrite E. by apply pending_not_null.
  - destruct (R3 E) as (v & -> & Hv & _). done.
Qed.

(** Then those that write. *)
Definition goes_well (x : ft_state * next) : Prop :=
  exists pl', dirs_ok pl' (fst x) /\ evolves pl s pl' (fst x) r pg /\ next_ok pl' (fst x) r c ptr (snd x).

Lemma goes_well_refl nx : next_ok pl s r c ptr nx -> goes_well (s, nx).
Proof using H. intros Hnx. exists pl. split; [done|]. split; [apply evolves_refl|done]. Qed.

Lemma claim_page_ok : home_entry s pg <> pending r -> goes_well (claim_page d s r (page_base d ptr)).
Proof using Hd Hg H Hr Hp.
  intros Hown. pose proof (page_in_space ptr Hp) as Hpg. destruct (page_address ptr Hp) as (Ei & Ec & _).
  unfold claim_page, compare_exchange_owners_dir. rewrite Ei, Ec. change (load_owner d s (cas_of pg) (3 * pg + 2)) with (snd (home_entry s pg)).
  assert (K : (snd (home_entry s pg) =? gn) = false -> goes_well (s, if r =? cas_of pg then Go ReadEntry else Go WaitPublic)).
  { intros E. assert (home_entry s pg <> null_info) by (intros En; by rewrite snd_null in E). apply goes_well_refl.
    destruct (Z.eqb_spec r (cas_of pg)) as [->|]; (split; [|by intros ?%Hown]); [by right|done]. }
  destruct (home_cases pl s pg H Hpg) as [[E Hn]|[(x & _ & _ & _ & _ & E)|(_ & _ & _ & E)]]; [|rewrite E; auto..].
  rewrite (snd_null _ E). exists pl. cbn [fst snd]. split; [by apply deposit_ok|]. split; [by apply deposit_evolves|].
  unfold search_node. pose proof (so_nodes d Hd). destruct (Z.ltb_spec 0 N); [|lia]. split; [|done].
  split; [by rewrite deposit_home, decide_True|]. split; [done|]. split; [lia|]. rewrite Z.add_0_r, Z.mod_small by lia. split; [done|lia].
Qed.

Lemma claim_offset_ok n k o : op_ok pl s r c pg (ClaimOffset n k o) -> goes_well (claim_node_offset d s r n k o).
Proof using Hd Hg H Hr Hp.
  intros (Hh & Hn & Hs & Ho & Hlt). pose proof (page_in_space ptr Hp) as Hpg.
  assert (Hnr : 0 <= n < N) by (destruct Hs as (_ & -> & _); apply node_range).
  unfold claim_node_offset, compare_exchange_offsets_tbl. fold (used s n). destruct (Z.eqb_spec (used s n) o) as [<-|Hne].
  - destruct (take_offset pl s r n pg H Hpg Hr Hnr Hh Hn Hlt) as (H' & E & Hu & Hh').
    exists (<[pg := (n, used s n)]> pl). cbn [fst snd]. pose proof (spn_le_total d Hd). pose proof (so_size d Hd).
    assert (Ea : add64 (used s n) g = used s n + g) by (apply add64_small; unfold granularity; lia). rewrite Ea. split_and!; [done..|].
    apply offset_known_ok; try done; [by eapply searched_mono|rewrite Hu; unfold granularity; lia|].
    split; [by rewrite lookup_insert_eq|]. eapply hosted_mono; [done|done|]. by eapply searched_hosted.
  - apply goes_well_refl, try_offset_ok; try done. lia.
Qed.

Lemma cache_offset_ok n k o b : op_ok pl s r c pg (CacheOffset n k o b) -> goes_well (put_offset s r n o, node_searched d n k o b).
Proof using Hd Hg H Hr Hp.
  intros (Hh & Hs & Hne & Ho & Hb). assert (Hnr : 0 <= n < N) by (destruct Hs as (_ & -> & _); apply node_range).
  destruct (cache_offset pl s r n o pg H Hr Hnr Hne Ho) as (H' & E & Hu & Ee). exists pl. cbn [fst snd]. split; [done|]. split; [done|].
  apply node_searched_ok; try done; [by eapply searched_mono|]. unfold hosted in *. by rewrite !Hu.
Qed.

Lemma store_goes_well w pi l : full pl s pg pi -> w = r \/ w = cas_of pg -> (w = cas_of pg -> home_entry s pg = pending r) ->
  next_ok pl (store_page_info s w (3 * pg) pi) r c ptr (Go l) -> goes_well (store_page_info s w (3 * pg) pi, Go l).
Proof using Hd Hg H Hp.
  intros Hf Hw Hc Hnx. pose proof (page_in_space ptr Hp) as Hpg. exists pl. cbn [fst snd].
  split; [by eapply (store_dirs_ok _ _ _ _ r)|]. split; [by apply store_evolves|done].
Qed.

Lemma copy_ok pi : home_entry s pg <> pending r -> op_ok pl s r c pg (CopyLocal pi) ->
  goes_well (store_page_info s r (dir_index (page_base d ptr)) pi, Go ReadEntry).
Proof using Hd Hg H Hp.
  intros Hown [Hc Hf]. destruct (page_address ptr Hp) as (Ei & _ & _). rewrite Ei. apply store_goes_well; auto; [done|].
  destruct (one_false _ (full_one _ _ _ _ H Hf)) as (Hn & _). split.
  - right. by rewrite entry_store, decide_True.
  - rewrite store_home, decide_False; [by intros ?%Hown|]. by intros [? _].
Qed.

Lemma place_local_ok h o : op_ok pl s r c pg (StoreLocal h o) ->
  goes_well (store_page_info s r (dir_index (page_base d ptr)) (h, o, r),
    if r =? cas_node d (page_base d ptr) then Go ReadEntry else Go (StorePublic h o)).
Proof using Hd Hg H Hr Hp.
  intros (Hh & Hpl & Hho). destruct (page_address ptr Hp) as (Ei & Ec & _). rewrite Ei, Ec.
  assert (Hf : full pl s pg (h, o, r)) by (by exists h, o, r). destruct (one_false _ (full_one _ _ _ _ H Hf)) as (Hn & Hq & _).
  assert (Ee : entry (store_page_info s r (3 * pg) (h, o, r)) r pg <> null_info) by (by rewrite entry_store, decide_True).
  destruct (Z.eqb_spec r (cas_of pg)) as [Er|Er]; apply store_goes_well; auto.
  - split; [by right|]. rewrite store_home, decide_True by done. by intros ?%Hq.
  - split; [|done]. cbn [op_ok]. rewrite store_home, decide_False by (by intros [? _]). unfold hosted. by rewrite store_used.
Qed.

Lemma place_public_ok h o : op_ok pl s r c pg (StorePublic h o) ->
  goes_well (store_page_info s (cas_node d (page_base d ptr)) (dir_index (page_base d ptr)) (h, o, r), Go ReadEntry).
Proof using Hd Hg H Hr Hp.
  intros (Hh & Hpl & Hho & Hc & He). destruct (page_address ptr Hp) as (Ei & Ec & _). rewrite Ei, Ec.
  assert (Hf : full pl s pg (h, o, r)) by (by exists h, o, r). destruct (one_false _ (full_one _ _ _ _ H Hf)) as (Hn & Hq & _).
  apply store_goes_well; auto. split; [right|].
  - rewrite entry_store, decide_False; [done|]. intros [? _]. congruence.
  - rewrite store_home, decide_True by done. by intros ?%Hq.
Qed.

Lemma access_ok l : op_ok pl s r c pg l -> (home_entry s pg = pending r -> claiming l = true) -> goes_well (ft_access d s r c ptr l).
Proof using Hd Hg Hnull H Hr Hp.
  intros Hop Hown. assert (Hn : claiming l = false -> home_entry s pg <> pending r) by (intros E Eh; by rewrite Hown in E).
  destruct l; cbn [ft_access]; try specialize (Hn eq_refl).
  - by apply goes_well_refl, ownership_ok.
  - by apply goes_well_refl, load_public_ok.
  - destruct Hop. by apply goes_well_refl, wait_public_ok.
  - by apply copy_ok.
  - by apply claim_page_ok.
  - destruct Hop as (Hh & Hpl & Hs). apply goes_well_refl, try_offset_ok; try done.
    apply (tk_cached _ _ (do_table _ _ H)); [done|]. destruct Hs as (_ & -> & _). apply node_range.
  - by apply claim_offset_ok.
  - by apply cache_offset_ok.
  - by apply place_local_ok.
  - by apply place_public_ok.
  - by apply goes_well_refl, read_ok.
Qed.

End Access.

(** ** All nodes *)
Implicit Types (x : ft_nodes).

Lemma at_insert {A} (f : Z -> A) (r r' : Z) a : <[r := a]> f r' = if decide (r = r') then a else f r'.
Proof using Type. done. Qed.

Record nodes_inv pl x : Prop := {
  ni_dirs : dirs_ok pl (dirs x);
  ni_calls r c ptr l : 0 <= r < N -> under_way x r = Some (c, ptr, l) ->
    in_space d ptr /\ op_ok pl (dirs x) r c (page_of d ptr) l;
  ni_owned pg r : 0 <= pg < npages -> 0 <= r < N -> home_entry (dirs x) pg = pending r ->
    exists c ptr l, under_way x r = Some (c, ptr, l) /\ page_of d ptr = pg /\ claiming l = true;
  ni_events e : e ∈ events x -> answer_ok pl (ev_call e) (ev_ptr e) (ev_result e);
}.

Lemma reset_inv : nodes_inv ∅ nodes_reset.
Proof using Hd.
  pose proof (ft_reset_inv d Hd) as F. assert (Hc : forall pg, home_entry ft_reset pg = null_info) by done.
  split; [split|..]; cbn [dirs under_way events nodes_reset]; try done.
  - apply F.
  - rewrite (sumZ_ext _ (fun _ => 0) N) by done. pose proof (so_nodes d Hd). rewrite sumZ_const by lia. rewrite map_size_empty. lia.
  - intros pg _. left. by rewrite lookup_empty.
  - intros r pg _ _ _. by left.
  - intros pg r _ Hr. rewrite Hc. intros E. by destruct (pending_not_null r Hr).
  - by intros e ?%elem_of_nil.
Qed.

Lemma begin_inv pl x r c ptr : nodes_inv pl x -> 0 <= r < N -> in_space d ptr -> under_way x r = None ->
  nodes_inv pl (begin_call x r c ptr).
Proof using Type.
  intros [H Hc Ho He] Hr Hp Hn. split; cbn [begin_call dirs under_way events]; [done| | |done].
  - intros r' c' ptr' l' Hr'. rewrite at_insert. case_decide; [intros [= <- <- <-]; by split|by apply Hc].
  - intros pg r' Hpg Hr' E. destruct (Ho pg r' Hpg Hr' E) as (c' & ptr' & l' & E' & ?).
    exists c', ptr', l'. rewrite at_insert, decide_False by congruence. done.
Qed.

Lemma own_claiming pl x r c ptr l : nodes_inv pl x -> 0 <= r < N -> under_way x r = Some (c, ptr, l) ->
  home_entry (dirs x) (page_of d ptr) = pending r -> claiming l = true.
Proof using Hd Hg.
  intros H Hr E Eh. destruct (ni_calls _ _ H r c ptr l Hr E) as [Hp _].
  destruct (ni_owned _ _ H _ r (page_in_space ptr Hp) Hr Eh) as (c' & ptr' & l' & E' & _ & Hl). congruence.
Qed.

(** A node's step: the places grow, and the other calls go on from where they were. *)
Lemma go_on_inv pl x r c ptr l : nodes_inv pl x -> 0 <= r < N -> under_way x r = Some (c, ptr, l) ->
  exists pl', evolves pl (dirs x) pl' (dirs (go_on d x r c ptr l)) r (page_of d ptr) /\ nodes_inv pl' (go_on d x r c ptr l).
Proof using Hd Hg Hnull.
  intros H Hr Ec. destruct (ni_calls _ _ H r c ptr l Hr Ec) as [Hp Hop]. pose proof (page_in_space ptr Hp) as Hpg.
  destruct (access_ok pl (dirs x) r c ptr (ni_dirs _ _ H) Hr Hp l Hop (own_claiming _ _ _ _ _ _ H Hr Ec)) as (pl' & H' & E & Hnx).
  unfold go_on. destruct (ft_access d (dirs x) r c ptr l) as [s' nx]. cbn [fst snd] in *.
  set (u := match nx with Go l' => Some (c, ptr, l') | Done _ => None end).
  set (ev := match nx with Go _ => events x | Done v => Event r c ptr v :: events x end).
  exists pl'. enough (evolves pl (dirs x) pl' s' r (page_of d ptr) /\ nodes_inv pl' (FtNodes s' (<[r := u]> (under_way x)) ev)) as K by (by destruct nx).
  split; [done|]. split; cbn [dirs under_way events]; [done|..].
  - intros r' c' ptr' l' Hr'. rewrite at_insert. case_decide as Er.
    + subst r'. destruct nx; [|done]. unfold u. intros [= <- <- <-]. split; [done|]. apply Hnx.
    + intros E'. destruct (ni_calls _ _ H r' c' ptr' l' Hr' E') as [Hp' Hop']. split; [done|]. eapply op_ok_mono; [done|done|congruence|done].
  - intros q r' Hq Hr' Eq. rewrite at_insert. destruct (decide (r = r')) as [<-|Hne].
    + destruct (decide (q = page_of d ptr)) as [->|Hne].
      * destruct nx; [|by destruct Hnx]. destruct Hnx as [_ Hcl]. exists c, ptr, l0. auto.
      * rewrite (ev_home _ _ _ _ _ _ E) in Eq by done. destruct (ni_owned _ _ H q r Hq Hr Eq) as (c' & ptr' & l' & E' & <- & _). congruence.
    + assert (home_entry (dirs x) q = pending r') as Eq'.
      { destruct (decide (q = page_of d ptr)) as [->|Hnq]; [|by rewrite <- (ev_home _ _ _ _ _ _ E)].
        destruct (ev_new _ _ _ _ _ _ E r' Eq) as [->|?]; done. }
      by apply (ni_owned _ _ H).
  - assert (Hold : forall e, e ∈ events x -> answer_ok pl' (ev_call e) (ev_ptr e) (ev_result e)).
    { intros e He. eapply answer_mono; [apply E|]. by apply (ni_events _ _ H). }
    unfold ev. destruct nx; [done|]. intros e [-> |?]%elem_of_cons; [apply Hnx|auto].
Qed.

Lemma step_inv pl x x' : nodes_inv pl x -> nodes_step d x x' -> exists pl', pl ⊆ pl' /\ nodes_inv pl' x'.
Proof using Hd Hg Hnull.
  intros H [r c ptr Hr Hp Hn|r c ptr l Hr E].
  - exists pl. split; [done|]. by apply begin_inv.
  - destruct (go_on_inv pl x r c ptr l H Hr E) as (pl' & Ev & H'). exists pl'. split; [apply Ev|done].
Qed.

Lemma run_inv pl x x' : rtc (nodes_step d) x x' -> nodes_inv pl x -> exists pl', pl ⊆ pl' /\ nodes_inv pl' x'.
Proof using Hd Hg Hnull.
  intros Hrun. revert pl. induction Hrun as [x|x x1 x2 Hs _ IH]; intros pl H; [by exists pl|].
  destruct (step_inv pl x x1 H Hs) as (p1 & S1 & H1). destruct (IH p1 H1) as (p2 & S2 & H2).
  exists p2. split; [by etransitivity|done].
Qed.

Lemma nodes_reachable_inv x : nodes_reachable d x -> exists pl, nodes_inv pl x.
Proof using Hd Hg Hnull. intros H. destruct (run_inv ∅ _ _ H reset_inv) as (pl & _ & Hi). eauto. Qed.

(** ** Progress

    How many accesses a call has left, at most, when those that spin are not counted.
    A claim that fails has read a larger offset. *)
Definition to_search (searched : Z) : Z := (N - searched) * (spn + 5).

Definition work_left (l : at_op) : Z :=
  match l with
  | LoadOwnership => to_search (-1) + 2
  | LoadPublic => to_search (-1) + 1
  | ClaimPage => to_search (-1)
  | LoadOffset _ searched => to_search searched + 3
  | ClaimOffset _ searched offset => to_search (searched + 1) + (spn - offset) + 6
  | CacheOffset _ searched _ _ => to_search (searched + 1) + 5
  | WaitPublic | StoreLocal _ _ => 3
  | CopyLocal _ | StorePublic _ _ => 2
  | ReadEntry => 1
  end.
Definition next_work (nx : next) : Z := match nx with Go l => work_left l | Done _ => 0 end.

Lemma to_search_step k : to_search k = to_search (k + 1) + (spn + 5).
Proof using Type. unfold to_search. ring. Qed.
Lemma to_search_pos k : k <= N -> 0 <= to_search k.
Proof using Hd. unfold to_search. pose proof (so_spn d Hd). nia. Qed.

Lemma node_searched_work n k o b : k < N -> next_work (node_searched d n k o b) < to_search (k + 1) + 5.
Proof using Hd.
  intros Hk. pose proof (to_search_pos (k + 1) ltac:(lia)). unfold node_searched, search_node.
  destruct b; simpl; [lia|]. destruct (_ <? _); simpl; lia.
Qed.

Lemma offset_known_work r n k o b : k < N -> next_work (offset_known d r n k o b) <= to_search (k + 1) + 5.
Proof using Hd.
  intros Hk. pose proof (node_searched_work n k o b Hk). unfold offset_known. destruct (_ =? _); [|simpl]; lia.
Qed.

Lemma try_offset_work r n k o : k < N -> next_work (try_offset d r n k o) <= to_search (k + 1) + 5 + Z.max 0 (spn - o + 1).
Proof using Hd.
  intros Hk. pose proof (offset_known_work r n k o false Hk). unfold try_offset. destruct (Z.ltb_spec o spn); [simpl|]; lia.
Qed.

(** A spinning access: the same access is next. *)
Definition spins (l : at_op) (nx : next) : bool :=
  match l, nx with
  | WaitPublic, Go WaitPublic | ReadEntry, Go ReadEntry => true
  | _, _ => false
  end.

Lemma work_pos pl s r c pg l : op_ok pl s r c pg l -> 0 < work_left l.
Proof using Hd.
  pose proof (to_search_pos (-1)) as H0. pose proof (so_nodes d Hd). destruct l; simpl; try lia.
  - rewrite to_search_step. pose proof (to_search_pos (-1 + 1)). pose proof (so_spn d Hd). lia.
  - intros (_ & _ & Hk & _). pose proof (to_search_pos searched). lia.
  - intros (_ & _ & (Hk & _) & Ho & Hl). pose proof (to_search_pos (searched + 1)). lia.
  - intros (_ & (Hk & _) & _). pose proof (to_search_pos (searched + 1)). lia.
Qed.

Lemma access_work pl s r c ptr l : dirs_ok pl s -> 0 <= r < N -> in_space d ptr -> op_ok pl s r c (page_of d ptr) l ->
  spins l (snd (ft_access d s r c ptr l)) = false -> next_work (snd (ft_access d s r c ptr l)) < work_left l.
Proof using Hd Hg.
  intros H Hr Hp Hop. pose proof (so_nodes d Hd). pose proof (so_spn d Hd). pose proof (to_search_pos (-1 + 1) ltac:(lia)). pose proof (to_search_step (-1)).
  destruct l; cbn [ft_access].
  - intros _. cbn [snd]. unfold load_ownership. destruct (_ =? _); simpl; lia.
  - intros _. cbn [snd]. unfold load_public. repeat case_match; simpl; lia.
  - cbn [snd]. unfold wait_public. destruct (is_one_equal_to _ _); simpl; [done|lia].
  - simpl. lia.
  - intros _. unfold claim_page. destruct (compare_exchange_owners_dir _ _ _ _ _ _) as [v s']. cbn [snd]. change (-1 + 1) with 0 in *.
    unfold search_node. repeat case_match; simpl; lia.
  - destruct Hop as (_ & _ & Hk & Hn & _). intros _. cbn [snd]. pose proof (try_offset_work r n searched (load_offset s r n) ltac:(lia)).
    assert (0 <= load_offset s r n). { apply (tk_cached _ _ (do_table _ _ H)); [done|]. rewrite Hn. apply node_range. }
    simpl. rewrite to_search_step. lia.
  - destruct Hop as (_ & _ & (Hk & _) & Ho & Hl). intros _. unfold claim_node_offset, compare_exchange_offsets_tbl. fold (used s n). cbn [snd].
    destruct (Z.eqb_spec (used s n) offset).
    + pose proof (offset_known_work r n searched offset true ltac:(lia)). simpl. lia.
    + pose proof (try_offset_work r n searched (used s n) ltac:(lia)). simpl. lia.
  - destruct Hop as (_ & (Hk & _) & _). intros _. cbn [snd]. apply node_searched_work. lia.
  - intros _. cbn [snd]. destruct (_ =? _); simpl; lia.
  - simpl. lia.
  - cbn [snd]. unfold read_entry. destruct (load_page_info _ _ _ _) as [[??]?]. destruct c; repeat case_match; simpl; intros Es; first [discriminate Es | lia].
Qed.

(** A step of a call under way that does not spin. *)
Inductive active x : ft_nodes -> Prop :=
  | active_step r c ptr l : 0 <= r < N -> under_way x r = Some (c, ptr, l) ->
      spins l (snd (ft_access d (dirs x) r c ptr l)) = false -> active x (go_on d x r c ptr l).

Definition node_work x (r : Z) : Z := match under_way x r with Some (_, _, l) => work_left l | None => 0 end.
Definition nodes_work x : Z := sumZ (node_work x) N.

Lemma node_work_pos pl x r : nodes_inv pl x -> 0 <= r < N -> 0 <= node_work x r.
Proof using Hd.
  intros H Hr. unfold node_work. destruct (under_way x r) as [[[c ptr] l]|] eqn:E; [|done].
  destruct (ni_calls _ _ H r c ptr l Hr E) as [_ Hop]. pose proof (work_pos _ _ _ _ _ _ Hop). lia.
Qed.

Lemma active_work pl x x' : nodes_inv pl x -> active x x' -> 0 <= nodes_work x' < nodes_work x /\ exists pl', nodes_inv pl' x'.
Proof using Hd Hg Hnull.
  intros H [r c ptr l Hr E Hs]. destruct (go_on_inv pl x r c ptr l H Hr E) as (pl' & _ & H').
  pose proof (so_nodes d Hd). split; [|by exists pl']. split.
  - apply sumZ_pos; [lia|]. intros i Hi. by eapply node_work_pos.
  - destruct (ni_calls _ _ H r c ptr l Hr E) as [Hp Hop].
    pose proof (access_work pl _ r c ptr l (ni_dirs _ _ H) Hr Hp Hop Hs) as Hw.
    unfold nodes_work. rewrite (sumZ_update (node_work x) (node_work (go_on d x r c ptr l)) r
      (next_work (snd (ft_access d (dirs x) r c ptr l)) - work_left l) N Hr).
    + lia.
    + unfold node_work, go_on. rewrite E. destruct (ft_access d (dirs x) r c ptr l) as [s' [l'|v]]; cbn [under_way snd next_work];
        rewrite at_insert, decide_True by done; lia.
    + intros i _ Hi. unfold node_work, go_on. destruct (ft_access d (dirs x) r c ptr l) as [s' [l'|v]]; cbn [under_way];
        by rewrite at_insert, decide_False.
Qed.

(** A call that spins waits for the node that has claimed its page. *)
Lemma pending_active pl x pg r : nodes_inv pl x -> 0 <= pg < npages -> 0 <= r < N -> home_entry (dirs x) pg = pending r -> exists x', active x x'.
Proof using Type.
  intros H Hpg Hr E. destruct (ni_owned _ _ H pg r Hpg Hr E) as (c & ptr & l & Ec & _ & Hl).
  eexists. apply (active_step x r c ptr l); [done|done|]. by destruct l.
Qed.

Lemma some_active pl x r : nodes_inv pl x -> 0 <= r < N -> under_way x r <> None -> exists x', active x x'.
Proof using Hd Hg Hnull.
  intros H Hr Hu. destruct (under_way x r) as [[[c ptr] l]|] eqn:E; [|done].
  destruct (ni_calls _ _ H r c ptr l Hr E) as [Hp Hop]. pose proof (page_in_space ptr Hp) as Hpg.
  destruct (spins l (snd (ft_access d (dirs x) r c ptr l))) eqn:Es; [|eexists; by apply (active_step x r c ptr l)].
  destruct l; try done; cbn [ft_access snd] in Es.
  - destruct (page_address ptr Hp) as (Ei & Ec & _). unfold wait_public in Es. rewrite Ei, Ec in Es. fold (entry (dirs x) (cas_of (page_of d ptr)) (page_of d ptr)) (home_entry (dirs x) (page_of d ptr)) in Es.
    destruct (home_cases pl (dirs x) (page_of d ptr) (ni_dirs _ _ H) Hpg) as [[En _]|[(y & Hy & Ey & _)|(_ & _ & Eo & _)]].
    + by destruct Hop.
    + by eapply pending_active.
    + by rewrite Eo in Es.
  - destruct (read_entry_spec pl (dirs x) r c ptr (ni_dirs _ _ H) Hr Hp) as (R1 & _ & R3).
    destruct (entry_cases pl (dirs x) r (page_of d ptr) (ni_dirs _ _ H) Hr Hpg) as [En|[(-> & y & Hy & Ey)|Ef]].
    + destruct Hop as [Hpk|]; [|done]. destruct (R1 En Hpk) as (v & Ev & _). by rewrite Ev in Es.
    + by eapply pending_active.
    + destruct (R3 Ef) as (v & Ev & _). by rewrite Ev in Es.
Qed.

Lemma active_bounded n : forall pl x k x', nodes_inv pl x -> nodes_work x <= Z.of_nat n -> nsteps active k x x' -> (k <= n)%nat.
Proof using Hd Hg Hnull.
  induction n as [|n IH]; intros pl x k x' H Hw Hr; destruct Hr as [|k x x1 x2 Ha Hr]; try lia;
    destruct (active_work pl x x1 H Ha) as (Hlt & pl1 & H1); [lia|].
  enough (k <= n)%nat by lia. eapply (IH pl1 x1); [done|lia|done].
Qed.

Lemma active_finishes n : forall pl x, nodes_inv pl x -> nodes_work x <= Z.of_nat n ->
  exists x', rtc active x x' /\ forall r, 0 <= r < N -> under_way x' r = None.
Proof using Hd Hg Hnull.
  assert (Dec : forall x k, (k <= Z.to_nat N)%nat -> (forall r, 0 <= r < Z.of_nat k -> under_way x r = None) \/ exists r, 0 <= r < N /\ under_way x r <> None).
  { intros x k. induction k as [|k IH]; intros Hk; [left; lia|]. destruct IH as [IH|IH]; [lia| |by right].
    destruct (under_way x (Z.of_nat k)) eqn:E; [right; exists (Z.of_nat k); split; [lia|congruence]|].
    left. intros r Hr. destruct (decide (r = Z.of_nat k)) as [->|]; [done|apply IH; lia]. }
  induction n as [|n IH]; intros pl x H Hw; pose proof (so_nodes d Hd); destruct (Dec x (Z.to_nat N) ltac:(lia)) as [Hidle|(r & Hr & Hu)].
  - exists x. split; [done|]. intros r Hr. apply Hidle. lia.
  - destruct (some_active pl x r H Hr Hu) as (x1 & Ha). pose proof (active_work pl x x1 H Ha) as [Hlt _]. lia.
  - exists x. split; [done|]. intros r Hr. apply Hidle. lia.
  - destruct (some_active pl x r H Hr Hu) as (x1 & Ha). destruct (active_work pl x x1 H Ha) as (Hlt & pl1 & H1).
    destruct (IH pl1 x1 H1 ltac:(lia)) as (x' & Hr' & Hidle). exists x'. split; [by eapply rtc_l|done].
Qed.

(** ** When every page has been published *)
Definition published s (pg : Z) : bool := negb (is_one_equal_to (home_entry s pg) gn).

Lemma published_full pl s pg : dirs_ok pl s -> 0 <= pg < npages -> published s pg = true -> full pl s pg (home_entry s pg).
Proof using Hd.
  intros H Hpg Hp. apply negb_true_iff in Hp.
  destruct (home_cases pl s pg H Hpg) as [[E _]|[(y & _ & _ & _ & E & _)|[E _]]]; [|congruence|done].
  by rewrite E, null_one in Hp.
Qed.

Lemma published_place pl s pg : dirs_ok pl s -> 0 <= pg < npages -> published s pg = true ->
  exists h o, pl !! pg = Some (h, o) /\ place d s pg = Some (h, o).
Proof using Hd.
  intros H Hpg Hp. pose proof (published_full pl s pg H Hpg Hp) as Hf. destruct (one_false _ (full_one _ _ _ _ H Hf)) as (Hn & _).
  unfold place. apply claimed_true in Hn. destruct Hf as (h & o & y & E & Hl & _). rewrite Hn. exists h, o. by rewrite E.
Qed.

(** Where the calls under way are that began after the page was published. *)
Definition settled_op s (r pg : Z) (l : at_op) : Prop :=
  match l with
  | LoadOwnership | LoadPublic => True
  | CopyLocal _ => r <> cas_of pg
  | ReadEntry => entry s r pg <> null_info
  | _ => False
  end.

Record settled_inv s0 x : Prop := {
  si_home q : home_entry (dirs x) q = home_entry s0 q;
  si_calls r c ptr l : 0 <= r < N -> under_way x r = Some (c, ptr, l) -> settled_op (dirs x) r (page_of d ptr) l;
}.

Lemma settled_access pl s r c ptr l : dirs_ok pl s -> 0 <= r < N -> in_space d ptr -> published s (page_of d ptr) = true ->
  op_ok pl s r c (page_of d ptr) l -> settled_op s r (page_of d ptr) l ->
  let '(s', nx) := ft_access d s r c ptr l in
  (forall q, home_entry s' q = home_entry s q) /\ (forall r' q, r' <> r -> entry s' r' q = entry s r' q) /\
  match nx with
  | Go l' => settled_op s' r (page_of d ptr) l'
  | Done v => exists w, v = Ok w /\ answer_ok pl c ptr (Ok w) /\ (c = PeekLocalOffset -> w <> invalid_offset)
  end.
Proof using Hd Hg Hnull.
  intros H Hr Hp Hpub Hop Hset. pose proof (page_in_space ptr Hp) as Hpg. destruct (page_address ptr Hp) as (Ei & Ec & _).
  pose proof (published_full pl s _ H Hpg Hpub) as Hf. pose proof (full_one _ _ _ _ H Hf) as Eo.
  destruct (one_false _ Eo) as (Hn & _ & Ea & _). destruct l; try done; cbn [ft_access].
  - split; [done|]. split; [done|]. unfold load_ownership. rewrite Ei. change (load_owner d s r (3 * page_of d ptr + 2)) with (snd (entry s r (page_of d ptr))).
    destruct (_ =? gn) eqn:E; [done|]. intros En. by rewrite snd_null in E.
  - split; [done|]. split; [done|]. unfold load_public. rewrite Ei, Ec. fold (entry s (cas_of (page_of d ptr)) (page_of d ptr)) (home_entry s (page_of d ptr)).
    rewrite Ea, Eo. cbn [negb]. destruct (Z.eqb_spec r (cas_of (page_of d ptr))) as [->|]; done.
  - destruct Hop as [Hc Hpi]. rewrite Ei. split; [|split].
    + intros q. rewrite store_home, decide_False; [done|]. by intros [? _].
    + intros r' q Hne. rewrite entry_store, decide_False; [done|]. intros [? _]. congruence.
    + cbn [settled_op]. rewrite entry_store, decide_True by done. by destruct (one_false _ (full_one _ _ _ _ H Hpi)).
  - split; [done|]. split; [done|]. destruct (read_entry_spec pl s r c ptr H Hr Hp) as (_ & _ & R3).
    destruct (entry_cases pl s r (page_of d ptr) H Hr Hpg) as [E|[(-> & y & Hy & E)|E]]; [done| |].
    + fold (home_entry s (page_of d ptr)) in E. by rewrite E, pending_one in Eo.
    + destruct (R3 E) as (v & -> & Hv). by exists v.
Qed.

(** Where the directory [s] has the pages. *)
Definition settled_placement s : placement :=
  let located (f : Z * Z -> Z -> Z) ptr := let r := ptr - start_address d in
    match place d s (r / g) with Some l => Ok (f l r) | None => Throw (system_error msg_fetch_homenode_fail) end in
  let home := located (fun l _ => fst l) in
  let offset := located (fun l r => snd l + r mod g) in
  Placement home home offset offset.

(** What a placement answers to a call of the policy. *)
Definition answer (pl : placement) (c : ft_call) (ptr : Z) : outcome Z :=
  match c with
  | Homenode => homenode pl ptr
  | PeekHomenode => peek_homenode pl ptr
  | LocalOffset => local_offset pl ptr
  | PeekLocalOffset => peek_local_offset pl ptr
  end.

Lemma settled_answer pl s c ptr v : dirs_ok pl s -> in_space d ptr -> published s (page_of d ptr) = true ->
  answer_ok pl c ptr (Ok v) -> (c = PeekLocalOffset -> v <> invalid_offset) -> answer (settled_placement s) c ptr = Ok v.
Proof using Hd Hg.
  intros H Hp Hpub Ha Hi. destruct (published_place pl s _ H (page_in_space ptr Hp) Hpub) as (h & o & Epl & Epc).
  unfold page_of in *.
  destruct c; cbn [answer settled_placement homenode peek_homenode local_offset peek_local_offset answer_ok] in *; rewrite Epc; cbn [fst snd]; unfold page_of in *.
  - destruct Ha as [o' E]. congruence.
  - destruct Ha as [o' E]. congruence.
  - destruct Ha as (h' & o' & E & ->). congruence.
  - destruct Ha as [->|(h' & o' & E & ->)]; [by destruct Hi|congruence].
Qed.

Section Settled.

Context (s0 : ft_state) (Hall : forall pg, 0 <= pg < npages -> published s0 pg = true).

Lemma settled_published x q : settled_inv s0 x -> 0 <= q < npages -> published (dirs x) q = true.
Proof using Hall. intros H Hq. unfold published. rewrite (si_home _ _ H). by apply Hall. Qed.

Lemma settled_step pl x x' : nodes_inv pl x -> settled_inv s0 x -> nodes_step d x x' ->
  settled_inv s0 x' /\ (events x' = events x \/
    exists e, events x' = e :: events x /\ ev_result e = answer (settled_placement s0) (ev_call e) (ev_ptr e)).
Proof using Hd Hg Hnull Hall.
  intros H S [r c ptr Hr Hp Hn|r c ptr l Hr E].
  - split; [|by left]. split; cbn [begin_call dirs under_way]; [apply S|]. intros r' c' ptr' l' Hr'.
    rewrite at_insert. case_decide; [by intros [= <- <- <-]|by apply (si_calls _ _ S)].
  - destruct (ni_calls _ _ H r c ptr l Hr E) as [Hp Hop]. pose proof (page_in_space ptr Hp) as Hpg.
    pose proof (settled_access pl (dirs x) r c ptr l (ni_dirs _ _ H) Hr Hp (settled_published x _ S Hpg) Hop (si_calls _ _ S r c ptr l Hr E)) as A.
    unfold go_on. destruct (ft_access d (dirs x) r c ptr l) as [s' nx]. destruct A as (Ah & Ae & An).
    assert (Hothers : forall r' pt l', r' <> r -> settled_op (dirs x) r' pt l' -> settled_op s' r' pt l').
    { intros r' pt l' Hne. destruct l'; try done. cbn [settled_op]. by rewrite Ae. }
    assert (Hh : forall q, home_entry s' q = home_entry s0 q) by (intros q; rewrite Ah; apply S).
    destruct nx as [l'|v]; cbn [dirs under_way events].
    + split; [|by left]. split; cbn [dirs under_way]; [done|]. intros r' c' ptr' l1 Hr'. rewrite at_insert.
      case_decide as Er; [subst r'; by intros [= <- <- <-]|]. intros E'. apply Hothers; [congruence|]. by eapply (si_calls _ _ S).
    + split.
      * split; cbn [dirs under_way]; [done|]. intros r' c' ptr' l1 Hr'. rewrite at_insert.
        case_decide as Er; [done|]. intros E'. apply Hothers; [congruence|]. by eapply (si_calls _ _ S).
      * right. eexists. split; [done|]. cbn [ev_result ev_call ev_ptr]. destruct An as (w & -> & Hw & Hi). symmetry.
        assert (Esp : forall q, place d s0 q = place d (dirs x) q) by (intros q; unfold place, claimed; by rewrite (si_home _ _ S)).
        transitivity (answer (settled_placement (dirs x)) c ptr); [destruct c; cbn [answer settled_placement homenode peek_homenode local_offset peek_local_offset]; by rewrite Esp|].
        eapply settled_answer; [apply H|done|by apply settled_published|done|done].
Qed.

Lemma settled_run pl x x' : rtc (nodes_step d) x x' -> nodes_inv pl x -> settled_inv s0 x ->
  exists es, events x' = es ++ events x /\ forall e, e ∈ es -> ev_result e = answer (settled_placement s0) (ev_call e) (ev_ptr e).
Proof using Hd Hg Hnull Hall.
  intros Hrun. revert pl. induction Hrun as [x|x x1 x2 Hs _ IH]; intros pl H S; [exists []; split; [done|by intros e ?%elem_of_nil]|].
  destruct (step_inv pl x x1 H Hs) as (p1 & _ & H1). destruct (settled_step pl x x1 H S Hs) as [S1 Hev].
  destruct (IH p1 H1 S1) as (es & -> & Hes). destruct Hev as [->|(e & -> & He)]; [by exists es|].
  exists (es ++ [e]). split; [by rewrite <- app_assoc|]. intros e' [?| ->%list_elem_of_singleton]%elem_of_app; auto.
Qed.

Lemma settled_located pl ptr : dirs_ok pl s0 -> in_space d ptr -> exists h o, place d s0 (page_of d ptr) = Some (h, o) /\
  pl !! page_of d ptr = Some (h, o) /\ 0 <= h < N /\ 0 <= o /\ o + g <= spn /\ (g | o).
Proof using Hd Hg Hall.
  intros H Hp. pose proof (page_in_space ptr Hp) as Hpg. destruct (published_place pl s0 _ H Hpg (Hall _ Hpg)) as (h & o & E1 & E2).
  destruct (place_bounds _ _ _ _ _ H E1) as (_ & Hh & Ho & Hb & _). destruct (po_range _ _ (do_places _ _ H) _ _ _ E1) as (_ & _ & _ & _ & Hdiv).
  by exists h, o.
Qed.

(** The settled placement has the laws of a policy. *)
Lemma settled_laws pl : dirs_ok pl s0 -> PlacementLaws d (settled_placement s0).
Proof using Hd Hg Hall.
  intros H. pose proof (fun ptr => settled_located pl ptr H) as L. unfold page_of in L.
  split; cbn [settled_placement homenode local_offset peek_homenode peek_local_offset].
  - intros ptr Hp. destruct (L ptr Hp) as (h & o & -> & _ & Hh & _). by exists h.
  - intros ptr Hp. destruct (L ptr Hp) as (h & o & -> & _ & _ & Ho & Hb & _). eexists. split; [done|]. cbn [snd].
    pose proof (Z.mod_pos_bound (ptr - start_address d) g ltac:(done)). lia.
  - intros p q h o Hp Hq. destruct (L p Hp) as (h1 & o1 & -> & L1 & _ & _ & _ & [k ->]). destruct (L q Hq) as (h2 & o2 & -> & L2 & _ & _ & _ & [k' ->]).
    cbn [fst snd]. intros [= ->] [= ->] [= <-] [= E].
    pose proof (Z.mod_pos_bound (p - start_address d) g ltac:(done)). pose proof (Z.mod_pos_bound (q - start_address d) g ltac:(done)).
    destruct (block_pos_inj g k k' ((p - start_address d) mod g) ((q - start_address d) mod g)) as [-> Em]; try done.
    pose proof (po_inj _ _ (do_places _ _ H) _ _ _ L1 L2) as Eq.
    pose proof (Z.div_mod (p - start_address d) g ltac:(done)). pose proof (Z.div_mod (q - start_address d) g ltac:(done)). rewrite Eq, Em in *. lia.
  - intros p k h o Hp Hm Hk. destruct (L p Hp) as (h1 & o1 & E1 & _). replace (p + k - start_address d) with (k + (p - start_address d)) by ring.
    pose proof (Z.div_mod (p - start_address d) g ltac:(done)) as Ed. rewrite Hm, Z.add_0_r in Ed.
    assert (Eq : (k + (p - start_address d)) / g = (p - start_address d) / g).
    { rewrite Ed at 1. rewrite Z.mul_comm, Z.div_add, (Z.div_small k) by done. ring. }
    assert (Er : (k + (p - start_address d)) mod g = k) by (rewrite Ed, Z.mul_comm, Z.mod_add, Z.mod_small by done; done).
    rewrite Eq, Er, E1, Hm. cbn [fst snd]. intros [= ->] [= <-]. split; [done|]. f_equal. ring.
  - done.
Qed.

End Settled.

End Nodes.

(** ** The policy on all nodes *)

(** C23: the nodes agree.  In every state the nodes can reach from the reset directories,
    whatever calls they make and however their accesses interleave, there is one
    placement, of each page at most one page-aligned place inside the share of one node
    and of each place at most one page, that every call that has ended so far answers
    with, on whichever node and whenever it was made.  The only exception thrown is that
    of [peek_homenode] on a page without a place; [peek_local_offset] then returns
    [invalid_offset].  A published page is on the node that claimed it unless that
    node's share is used up.  The space is one whose null value, truncated to a node id,
    is not the number of a node ([ft_space]). *)
Theorem first_touch_agreement (d : base_distribution) (x : ft_nodes) : ft_space d -> nodes_reachable d x ->
  exists pl : gmap Z (Z * Z), places_ok d pl (fun _ => size_per_node d) /\
    (forall e, e ∈ events x -> answer_ok d pl (ev_call e) (ev_ptr e) (ev_result e)) /\
    forall pg h o y, 0 <= pg < npages d -> published d (dirs x) pg = true -> home_entry d (dirs x) pg = (h, o, y) ->
      pl !! pg = Some (h, o) /\ (h = y \/ used (dirs x) y = size_per_node d).
Proof.
  intros [Hd Hg Hn] Hx. destruct (nodes_reachable_inv d Hd Hg Hn x Hx) as [pl H]. exists pl. pose proof (do_table _ _ _ (ni_dirs _ _ _ H)) as Ht. split; [|split].
  - destruct (do_places _ _ _ (ni_dirs _ _ _ H)) as [P I]. split; [|done]. intros pg h o E. destruct (P _ _ _ E) as (? & Hh & ? & ? & ?).
    destruct (tk_used _ _ Ht h Hh). split_and!; try done; lia.
  - apply (ni_events _ _ _ H).
  - intros pg h o y Hpg Hpub E. destruct (published_full d Hd pl _ pg (ni_dirs _ _ _ H) Hpg Hpub) as (h' & o' & y' & E' & Hl & Hy & Hh).
    rewrite E in E'. injection E' as <- <- <-. split; [done|]. destruct Hh as [?|Hu]; [by left|right]. destruct (tk_used _ _ Ht y Hy). lia.
Qed.

(** C24: every call returns.  In every reachable state: while a call is under way some call
    can make an access that does not spin; a call that spins waits for the node that
    claimed its page, whose call does not; no run has more than [nodes_work] accesses
    that do not spin before all calls under way have ended, and such a run exists.  The
    space is as for the agreement of the nodes. *)
Theorem first_touch_calls_return (d : base_distribution) (x : ft_nodes) : ft_space d -> nodes_reachable d x ->
  (forall r, 0 <= r < nodes d -> under_way x r <> None -> exists x', active d x x') /\
  (forall k x', nsteps (active d) k x x' -> (k <= Z.to_nat (nodes_work d x))%nat) /\
  exists x', rtc (active d) x x' /\ forall r, 0 <= r < nodes d -> under_way x' r = None.
Proof.
  intros [Hd Hg Hn] Hx. destruct (nodes_reachable_inv d Hd Hg Hn x Hx) as [pl H]. split; [|split].
  - intros r Hr Hu. by eapply some_active.
  - intros k x' Hk. by eapply active_bounded; [..|exact Hk]; [done..|exact H|lia].
  - eapply (active_finishes d Hd Hg Hn (Z.to_nat (nodes_work d x)) pl x H). lia.
Qed.

(** C25: the policy settles.  When every page has been published and no call is under way, the
    directory is a placement with the laws of a data distribution, and every call made
    from then on, of all four kinds, on any node and in any interleaving, returns what
    this placement says. *)
Theorem first_touch_settles (d : base_distribution) (x : ft_nodes) : ft_space d -> nodes_reachable d x ->
  (forall pg, 0 <= pg < npages d -> published d (dirs x) pg = true) ->
  (forall r, 0 <= r < nodes d -> under_way x r = None) ->
  PlacementLaws d (settled_placement d (dirs x)) /\
  forall x', rtc (nodes_step d) x x' -> exists es, events x' = es ++ events x /\
    forall e, e ∈ es -> ev_result e = answer (settled_placement d (dirs x)) (ev_call e) (ev_ptr e).
Proof.
  intros [Hd Hg Hn] Hx Hall Hidle. destruct (nodes_reachable_inv d Hd Hg Hn x Hx) as [pl H]. split.
  - apply (settled_laws d Hd Hg _ Hall pl), H.
  - intros x' Hrun. apply (settled_run d Hd Hg Hn (dirs x) Hall pl x x' Hrun H). split; [done|].
    intros r c ptr l Hr E. by rewrite Hidle in E.
Qed.

(** ** A call with no other call under way

    The functions of [FirstTouch] run a call as one step; they are what the accesses of
    the call add up to when no other node's access comes in between. *)
Section Alone.

Context (d : base_distribution) (rank : Z) (c : ft_call) (ptr : Z).

Inductive alone_step : ft_state * next -> ft_state * next -> Prop :=
  | alone_access s l : alone_step (s, Go l) (ft_access d s rank c ptr l).
Abbreviation leads := (rtc alone_step).

Lemma leads_access s l y : leads (ft_access d s rank c ptr l) y -> leads (s, Go l) y.
Proof. intros H. eapply rtc_l; [constructor|done]. Qed.

Lemma claim_offset_leads fuel : forall s n k o s' r, claim_offset d fuel s n o = Ok (s', r) ->
  leads (s, try_offset d rank n k o)
    (s', match r with inl o' => offset_known d rank n k o' true | inr o' => offset_known d rank n k o' false end).
Proof.
  induction fuel as [|fuel IH]; intros s n k o s' r E; cbn [claim_offset] in E; [done|]. unfold try_offset at 1.
  destruct (o <? size_per_node d) eqn:Eo; [|injection E as <- <-; apply rtc_refl].
  apply leads_access. cbn [ft_access]. unfold claim_node_offset. destruct (compare_exchange_offsets_tbl s (add64 o granularity) o n n) as [res s1].
  destruct (res =? o); [injection E as <- <-; apply rtc_refl|by apply IH].
Qed.

Lemma claim_node_leads todo : forall s n k s' found, claim_node d todo s rank n = Ok (s', found) -> k + Z.of_nat todo = nodes d ->
  leads (s, search_node d n k)
    (s', match found with Some (h, o) => Go (StoreLocal h o) | None => Done (Throw (system_error msg_first_touch_fail)) end).
Proof.
  induction todo as [|todo IH]; intros s n k s' found E Hk; cbn [claim_node] in E; unfold search_node.
  { injection E as <- <-. destruct (Z.ltb_spec k (nodes d)); [lia|apply rtc_refl]. }
  destruct (Z.ltb_spec k (nodes d)); [|lia]. apply leads_access. cbn [ft_access].
  apply outcome_bind_Ok in E as ([s1 r] & E1 & E2). etransitivity; [by apply (claim_offset_leads _ _ _ _ _ _ _ E1)|].
  assert (K : forall (o : Z) (b : bool), (if b then Ok (if n =? rank then s1 else put_offset s1 rank n o, Some (n, o))
      else claim_node d todo (if n =? rank then s1 else put_offset s1 rank n o) rank (add64 n 1 mod nodes d)) = Ok (s', found) ->
    leads (s1, offset_known d rank n k o b)
      (s', match found with Some (h, o) => Go (StoreLocal h o) | None => Done (Throw (system_error msg_first_touch_fail)) end)).
  { intros o b Eb. assert (leads (s1, offset_known d rank n k o b) (if n =? rank then s1 else put_offset s1 rank n o, node_searched d n k o b)) as L.
    { unfold offset_known. destruct (n =? rank); [apply rtc_refl|]. apply leads_access. cbn [ft_access]. apply rtc_refl. }
    etransitivity; [exact L|]. unfold node_searched. destruct b; [injection Eb as <- <-; apply rtc_refl|]. apply IH; [done|lia]. }
  destruct r as [o|o]; by apply K.
Qed.

Lemma update_dirs_leads s s' : 0 <= nodes d -> update_dirs d s rank (page_base d ptr) (negb (peeks c)) = Ok s' -> leads (s, Go LoadOwnership) (s', Go ReadEntry).
Proof.
  intros HN. unfold update_dirs. fold (dir_index (page_base d ptr)) (cas_node d (page_base d ptr)). intros E.
  apply leads_access. cbn [ft_access]. unfold load_ownership.
  destruct (_ =? _) in E |- *; [|injection E as <-; apply rtc_refl]. apply leads_access. cbn [ft_access]. unfold load_public.
  destruct (negb (is_all_equal_to _ _)) in E |- *.
  { destruct (rank =? _) in E |- *; [injection E as <-; apply rtc_refl|]. destruct (is_one_equal_to _ _) in E |- *; [done|].
    injection E as <-. apply leads_access. apply rtc_refl. }
  destruct (peeks c); cbn [negb] in *; [injection E as <-; apply rtc_refl|].
  apply leads_access. cbn [ft_access]. unfold first_touch in E. fold (dir_index (page_base d ptr)) (cas_node d (page_base d ptr)) in E. unfold claim_page.
  destruct (compare_exchange_owners_dir _ _ _ _ _ _) as [res s1]. destruct (res =? _) in E |- *.
  - apply outcome_bind_Ok in E as ([s2 found] & E1 & E2). etransitivity; [apply (claim_node_leads _ _ _ _ _ _ E1); lia|].
    destruct found as [[h o]|]; [|done]. apply leads_access. cbn [ft_access]. destruct (rank =? _) in E2 |- *; injection E2 as <-; [apply rtc_refl|].
    apply leads_access. apply rtc_refl.
  - destruct (rank =? _) in E |- *; [injection E as <-; apply rtc_refl|]. apply leads_access. cbn [ft_access]. unfold wait_public.
    destruct (is_one_equal_to _ _) in E |- *; [done|]. injection E as <-. apply leads_access. apply rtc_refl.
Qed.

Theorem ft_do_alone s s' v : 0 <= nodes d -> ft_do d s c rank ptr = Ok (s', v) -> leads (s, Go LoadOwnership) (s', Done (Ok v)).
Proof.
  intros HN E.
  assert (K : forall s1, update_dirs d s rank (page_base d ptr) (negb (peeks c)) = Ok s1 -> read_entry d s1 rank c ptr = Done (Ok v) -> s1 = s' ->
    leads (s, Go LoadOwnership) (s', Done (Ok v))).
  { intros s1 Eu Er <-. etransitivity; [by apply update_dirs_leads|]. apply leads_access. cbn [ft_access]. rewrite Er. apply rtc_refl. }
  destruct c; cbn [ft_do peeks negb] in *; apply outcome_bind_Ok in E as (s1 & Eu & E); apply (K s1 Eu); unfold read_entry, load_page_info in *;
    fold (dir_index (page_base d ptr)) in E; repeat case_match; simplify_eq; done.
Qed.

End Alone.

(** ** Concrete runs *)

(** A schedule: a node begins a call, or its call goes on. *)
Definition scheduled (d : base_distribution) (x : ft_nodes) (t : Z * option (ft_call * Z)) : option ft_nodes :=
  let '(rank, o) := t in
  if (0 <=? rank) && (rank <? nodes d) then
    match o, under_way x rank with
    | Some (c, ptr), None =>
      if (start_address d <=? ptr) && (ptr <? start_address d + total_size d) then Some (begin_call x rank c ptr) else None
    | None, Some (c, ptr, l) => Some (go_on d x rank c ptr l)
    | _, _ => None
    end
  else None.

Fixpoint run_schedule (d : base_distribution) (x : ft_nodes) (l : list (Z * option (ft_call * Z))) : option ft_nodes :=
  match l with [] => Some x | t :: l => match scheduled d x t with Some x' => run_schedule d x' l | None => None end end.

Lemma scheduled_step d x t x' : scheduled d x t = Some x' -> nodes_step d x x'.
Proof.
  destruct t as [rank o]. unfold scheduled. destruct ((0 <=? rank) && (rank <? nodes d)) eqn:Er; [|done].
  destruct o as [[c ptr]|], (under_way x rank) as [[[c' ptr'] l]|] eqn:E; try done.
  - destruct ((start_address d <=? ptr) && (ptr <? start_address d + total_size d)) eqn:Ep; [|done]. intros E1%(inj Some). subst x'. constructor; [lia|unfold in_space; lia|done].
  - intros E1%(inj Some). subst x'. constructor; [lia|done].
Qed.

Lemma run_schedule_run d l : forall x x', run_schedule d x l = Some x' -> rtc (nodes_step d) x x'.
Proof.
  induction l as [|t l IH]; intros x x' E; cbn [run_schedule] in E; [injection E as <-; apply rtc_refl|].
  destruct (scheduled d x t) as [x1|] eqn:E1; [|done]. eapply rtc_l; [by eapply scheduled_step|by apply IH].
Qed.

Definition ft_after (d : base_distribution) (l : list (Z * option (ft_call * Z))) : ft_nodes := default nodes_reset (run_schedule d nodes_reset l).
Lemma after_reachable d l : nodes_reachable d (ft_after d l).
Proof. unfold ft_after. destruct (run_schedule d nodes_reset l) as [x|] eqn:E; [by eapply run_schedule_run|apply rtc_refl]. Qed.

(** Both nodes ask for the first page; both find it unclaimed, node 1 claims it, and
    node 0, whose window is the page's CAS node, spins until node 1 has published. *)
Definition race : list (Z * option (ft_call * Z)) :=
  [(0, Some (Homenode, 2 ^ 32)); (1, Some (LocalOffset, 2 ^ 32 + 8)); (0, None); (1, None); (0, None); (1, None); (1, None); (0, None); (0, None); (1, None); (1, None); (0, None)].
Definition race_ends : list (Z * option (ft_call * Z)) := race ++ [(1, None); (1, None); (0, None); (1, None)].

Lemma first_touch_agreement_witness :
  events (ft_after ft_demo race_ends) = [Event 1 LocalOffset (2 ^ 32 + 8) (Ok 8); Event 0 Homenode (2 ^ 32) (Ok 1)] /\
  exists pl : gmap Z (Z * Z), answer_ok ft_demo pl LocalOffset (2 ^ 32 + 8) (Ok 8) /\ answer_ok ft_demo pl Homenode (2 ^ 32) (Ok 1).
Proof.
  assert (E : events (ft_after ft_demo race_ends) = [Event 1 LocalOffset (2 ^ 32 + 8) (Ok 8); Event 0 Homenode (2 ^ 32) (Ok 1)]) by (vm_compute; reflexivity).
  split; [exact E|].
  destruct (first_touch_agreement ft_demo (ft_after ft_demo race_ends) ft_demo_space (after_reachable _ _)) as (pl & _ & H & _).
  rewrite E in H. exists pl. split.
  - apply (H (Event 1 LocalOffset (2 ^ 32 + 8) (Ok 8))). left.
  - apply (H (Event 0 Homenode (2 ^ 32) (Ok 1))). right. left.
Defined.

Lemma first_touch_calls_return_witness :
  under_way (ft_after ft_demo race) 0 = Some (Homenode, 2 ^ 32, ReadEntry) /\
  spins ReadEntry (snd (ft_access ft_demo (dirs (ft_after ft_demo race)) 0 Homenode (2 ^ 32) ReadEntry)) = true /\
  exists x', rtc (active ft_demo) (ft_after ft_demo race) x' /\ forall r, 0 <= r < 2 -> under_way x' r = None.
Proof.
  split; [vm_compute; reflexivity|]. split; [vm_compute; reflexivity|].
  destruct (first_touch_calls_return ft_demo (ft_after ft_demo race) ft_demo_space (after_reachable _ _)) as (_ & _ & H).
  exact H.
Defined.

(** Node 1 touches the first two pages and node 0 the others: the shares are the other
    way round than under the naive policy. *)
Definition touch (rank pg : Z) : list (Z * option (ft_call * Z)) :=
  (rank, Some (Homenode, 2 ^ 32 + pg * 4096)) :: replicate (if rank =? pg mod 2 then 7 else 8) (rank, None).
Definition touch_all : list (Z * option (ft_call * Z)) := touch 1 0 ++ touch 1 1 ++ touch 0 2 ++ touch 0 3.

Lemma first_touch_settles_witness :
  homenode (settled_placement ft_demo (dirs (ft_after ft_demo touch_all))) (2 ^ 32) = Ok 1 /\
  PlacementLaws ft_demo (settled_placement ft_demo (dirs (ft_after ft_demo touch_all))).
Proof.
  split; [vm_compute; reflexivity|].
  apply (first_touch_settles ft_demo (ft_after ft_demo touch_all) ft_demo_space (after_reachable _ _)).
  - intros pg Hpg. assert (pg = 0 \/ pg = 1 \/ pg = 2 \/ pg = 3) as Hc by (change (npages ft_demo) with 4 in Hpg; lia).
    destruct Hc as [-> | [-> | [-> | ->]]]; vm_compute; reflexivity.
  - intros r Hr. assert (r = 0 \/ r = 1) as Hc by (simpl in Hr; lia). destruct Hc as [-> | ->]; vm_compute; reflexivity.
Defined.

(** On a space of [2^32] bytes [global_null] truncated to a node id is 1: node 1, which has
    claimed, placed and published a page, takes its own number for "not yet visible" and
    spins although no other call is under way. *)
Definition wide : base_distribution := set_memory_space 2 (2 ^ 44) (2 ^ 32).
Definition alone_on_wide : ft_nodes := ft_after wide ((1, Some (Homenode, 2 ^ 44)) :: replicate 7 (1, None)).

Theorem first_touch_null_alias :
  under_way alone_on_wide 1 = Some (Homenode, 2 ^ 44, ReadEntry) /\ under_way alone_on_wide 0 = None /\
  published wide (dirs alone_on_wide) 0 = true /\
  spins ReadEntry (snd (ft_access wide (dirs alone_on_wide) 1 Homenode (2 ^ 44) ReadEntry)) = true.
Proof. split_and!; vm_compute; reflexivity. Qed.
