(* ===== verification/GlobalPtr.v ===== *)
(** * Global pointers

    [src/src/data_distribution/global_ptr.hpp].  A [global_ptr] caches the home
    node and the local offset of its address and asks the selected policy only
    when a cached value is still invalid.  The client is proved against the
    interface [StablePolicy], which the four static policies and the first-touch
    policy implement. *)

From S2P Require Import Prelude BlockMap DataDistribution FirstTouch.

(** The virtual methods of the selected policy as state transformers: the state
    is whatever directories the policy keeps. *)
Record policy (S : Type) := Policy {
  p_homenode : S -> Z -> outcome (S * Z);
  p_peek_homenode : S -> Z -> outcome (S * Z);
  p_local_offset : S -> Z -> outcome (S * Z);
  p_peek_local_offset : S -> Z -> outcome (S * Z);
}.
Arguments p_homenode {S}.
Arguments p_peek_homenode {S}.
Arguments p_local_offset {S}.
Arguments p_peek_local_offset {S}.

(** What a policy over [N] nodes promises to a global pointer.  [loc s p] is where
    [p] lives, if anywhere yet. *)
Class StablePolicy {S : Type} (P : policy S) (N : Z) (dom : Z -> Prop) (Inv : S -> Prop)
    (loc : S -> Z -> option (Z * Z)) : Prop := {
  sp_range s p h o : Inv s -> dom p -> loc s p = Some (h, o) -> 0 <= h < N;
  sp_valid s p h o : Inv s -> dom p -> loc s p = Some (h, o) ->
    h ≠ invalid_node_id /\ o ≠ invalid_offset;
  sp_homenode s p : Inv s -> dom p -> exists s' h o,
    p_homenode P s p = Ok (s', h) /\ Inv s' /\ loc s' p = Some (h, o) /\
    forall q l, dom q -> loc s q = Some l -> loc s' q = Some l;
  sp_offset s p : Inv s -> dom p -> exists s' h o,
    p_local_offset P s p = Ok (s', o) /\ Inv s' /\ loc s' p = Some (h, o) /\
    forall q l, dom q -> loc s q = Some l -> loc s' q = Some l;
  sp_peek_homenode s p h o : Inv s -> dom p -> loc s p = Some (h, o) ->
    exists s', p_peek_homenode P s p = Ok (s', h) /\ Inv s' /\
    forall q, dom q -> loc s' q = loc s q;
  sp_peek_offset s p : Inv s -> dom p -> exists s',
    p_peek_local_offset P s p
      = Ok (s', match loc s p with Some (_, o) => o | None => invalid_offset end) /\
    Inv s' /\ forall q, dom q -> loc s' q = loc s q;
}.

(** ** The class *)
Record global_ptr := GlobalPtr {
  gp_homenode : Z;
  gp_local_offset : Z;
  (** [None]: the default constructor leaves it uninitialised *)
  gp_access_ptr : option Z;
}.

#[export] Instance global_ptr_eq_dec : EqDecision global_ptr.
Proof. solve_decision. Defined.

Definition gp_null : global_ptr :=
  {| gp_homenode := invalid_node_id; gp_local_offset := invalid_offset; gp_access_ptr := None |}.

Definition gp_set_node (g : global_ptr) (h : Z) : global_ptr :=
  {| gp_homenode := h; gp_local_offset := gp_local_offset g; gp_access_ptr := gp_access_ptr g |}.
Definition gp_set_offset (g : global_ptr) (o : Z) : global_ptr :=
  {| gp_homenode := gp_homenode g; gp_local_offset := o; gp_access_ptr := gp_access_ptr g |}.

Section GlobalPtr.

Context {S : Type} (P : policy S).

(** Reading an uninitialised [access_ptr]. *)
Definition with_ptr {A} (g : global_ptr) (k : Z -> outcome A) : outcome A :=
  match gp_access_ptr g with
  | Some p => k p
  | None => Throw (undefined_behaviour "access_ptr is not initialised")
  end.

Definition gp_get (g : global_ptr) : outcome Z := with_ptr g Ok.

(** The constructor from an address. *)
Definition gp_make (s : S) (ptr : Z) (compute_homenode compute_offset : bool) :
    outcome (S * global_ptr) :=
  let g := {| gp_homenode := invalid_node_id; gp_local_offset := invalid_offset;
              gp_access_ptr := Some ptr |} in
  '(s, g) ← (if compute_homenode
             then '(s, h) ← p_homenode P s ptr; Ok (s, gp_set_node g h)
             else Ok (s, g));
  if compute_offset
  then '(s, o) ← p_local_offset P s ptr; Ok (s, gp_set_offset g o)
  else Ok (s, g).

Definition gp_node (s : S) (g : global_ptr) : outcome (S * global_ptr * Z) :=
  if gp_homenode g =? invalid_node_id then
    with_ptr g (fun p =>
      '(s, h) ← p_homenode P s p; Ok (s, gp_set_node g h, h))
  else Ok (s, g, gp_homenode g).

Definition gp_peek_node (s : S) (g : global_ptr) : outcome (S * global_ptr * Z) :=
  if gp_homenode g =? invalid_node_id then
    with_ptr g (fun p =>
      '(s, new_node) ← p_peek_homenode P s p;
      let g := if new_node =? invalid_node_id then g else gp_set_node g new_node in
      Ok (s, g, gp_homenode g))
  else Ok (s, g, gp_homenode g).

Definition gp_offset (s : S) (g : global_ptr) : outcome (S * global_ptr * Z) :=
  if gp_local_offset g =? invalid_offset then
    with_ptr g (fun p =>
      '(s, o) ← p_local_offset P s p; Ok (s, gp_set_offset g o, o))
  else Ok (s, g, gp_local_offset g).

Definition gp_peek_offset (s : S) (g : global_ptr) : outcome (S * global_ptr * Z) :=
  if gp_local_offset g =? invalid_offset then
    with_ptr g (fun p =>
      '(s, new_offset) ← p_peek_local_offset P s p;
      let g := if new_offset =? invalid_offset then g else gp_set_offset g new_offset in
      Ok (s, g, gp_local_offset g))
  else Ok (s, g, gp_local_offset g).

(** The copy constructor evaluates [node()], [offset()] and [get()] of its
    by-value argument, in member order. *)
Definition gp_copy (s : S) (other : global_ptr) : outcome (S * global_ptr) :=
  '(s, other, h) ← gp_node s other;
  '(s, other, o) ← gp_offset s other;
  p ← gp_get other;
  Ok (s, {| gp_homenode := h; gp_local_offset := o; gp_access_ptr := Some p |}).

End GlobalPtr.

(** ** Caching is transparent *)
Section Caching.

Context {S : Type} (P : policy S) (N : Z) (dom : Z -> Prop) (Inv : S -> Prop)
  (loc : S -> Z -> option (Z * Z)) `{!StablePolicy P N dom Inv loc}.

(** A pointer to [p] whose cached fields are invalid or where [p] lives. *)
Record gp_ok (s : S) (p : Z) (g : global_ptr) : Prop := {
  go_ptr : gp_access_ptr g = Some p;
  go_node : gp_homenode g = invalid_node_id \/ exists o, loc s p = Some (gp_homenode g, o);
  go_offset : gp_local_offset g = invalid_offset \/
    exists h, loc s p = Some (h, gp_local_offset g);
}.

(** Placed pages stay placed. *)
Definition keeps (s s' : S) : Prop :=
  forall q l, dom q -> loc s q = Some l -> loc s' q = Some l.

Lemma gp_ok_keeps s s' p g : dom p -> keeps s s' -> gp_ok s p g -> gp_ok s' p g.
Proof.
  intros Hp Hk [H1 H2 H3]. split; [done| |].
  - destruct H2 as [?|[o Ho]]; [by left|right; exists o; by apply Hk].
  - destruct H3 as [?|[h Hh]]; [by left|right; exists h; by apply Hk].
Qed.

Lemma keeps_refl s : keeps s s.
Proof. by intros q l. Qed.
#[local] Hint Resolve keeps_refl : core.

Lemma keeps_eq s s' : (forall q, dom q -> loc s' q = loc s q) -> keeps s s'.
Proof. intros H q l Hq E. by rewrite H. Qed.

Lemma gp_node_spec s p g :
  Inv s -> dom p -> gp_ok s p g -> exists s' g' h o,
    gp_node P s g = Ok (s', g', h) /\ Inv s' /\ keeps s s' /\ gp_ok s' p g' /\
    loc s' p = Some (h, o) /\ gp_homenode g' = h /\ gp_local_offset g' = gp_local_offset g.
Proof using All.
  intros Hs Hp Hg. pose proof Hg as [Hptr Hn Ho]. unfold gp_node, with_ptr. rewrite Hptr.
  destruct (Z.eqb_spec (gp_homenode g) invalid_node_id) as [E|E].
  - destruct (sp_homenode s p Hs Hp) as (s' & h & o & -> & Hs' & Hl & Hk).
    destruct (gp_ok_keeps s s' p g Hp Hk Hg) as [_ _ Ho'].
    eexists s', _, h, o. repeat split; try done. simpl. right. by exists o.
  - destruct Hn as [?|[o Hl]]; [done|]. by exists s, g, (gp_homenode g), o.
Qed.

Lemma gp_offset_spec s p g :
  Inv s -> dom p -> gp_ok s p g -> exists s' g' h o,
    gp_offset P s g = Ok (s', g', o) /\ Inv s' /\ keeps s s' /\ gp_ok s' p g' /\
    loc s' p = Some (h, o) /\ gp_local_offset g' = o /\ gp_homenode g' = gp_homenode g.
Proof using All.
  intros Hs Hp Hg. pose proof Hg as [Hptr Hn Ho]. unfold gp_offset, with_ptr. rewrite Hptr.
  destruct (Z.eqb_spec (gp_local_offset g) invalid_offset) as [E|E].
  - destruct (sp_offset s p Hs Hp) as (s' & h & o & -> & Hs' & Hl & Hk).
    destruct (gp_ok_keeps s s' p g Hp Hk Hg) as [_ Hn' _].
    eexists s', _, h, o. repeat split; try done. simpl. right. by exists h.
  - destruct Ho as [?|[h Hl]]; [done|]. by exists s, g, h, (gp_local_offset g).
Qed.

Lemma gp_peek_offset_spec s p g :
  Inv s -> dom p -> gp_ok s p g -> exists s' g',
    gp_peek_offset P s g
      = Ok (s', g', match loc s p with Some (_, o) => o | None => invalid_offset end) /\
    Inv s' /\ keeps s s' /\ gp_ok s' p g'.
Proof using All.
  intros Hs Hp Hg. pose proof Hg as [Hptr Hn Ho]. unfold gp_peek_offset, with_ptr. rewrite Hptr.
  destruct (Z.eqb_spec (gp_local_offset g) invalid_offset) as [E|E].
  - destruct (sp_peek_offset s p Hs Hp) as (s' & -> & Hs' & Hk).
    pose proof (keeps_eq s s' Hk) as Hk'. cbn [mbind outcome_bind].
    destruct (loc s p) as [[h o]|] eqn:Hl.
    + destruct (sp_valid s p h o Hs Hp Hl) as [_ Hv%Z.eqb_neq]. rewrite Hv.
      destruct (gp_ok_keeps s s' p g Hp Hk' Hg) as [_ Hn' _].
      eexists s', _. repeat split; try done. right. exists h. simpl. by rewrite Hk.
    + rewrite Z.eqb_refl, E. eexists s', g. split; [done|]. split; [done|].
      split; [done|]. by apply (gp_ok_keeps s s').
  - destruct Ho as [?|[h Hl]]; [done|]. rewrite Hl. by exists s, g.
Qed.

Lemma gp_peek_node_spec s p g h o :
  Inv s -> dom p -> gp_ok s p g -> loc s p = Some (h, o) -> exists s' g',
    gp_peek_node P s g = Ok (s', g', h) /\ Inv s' /\ keeps s s' /\ gp_ok s' p g'.
Proof using All.
  intros Hs Hp Hg Hl. pose proof Hg as [Hptr Hn Ho]. unfold gp_peek_node, with_ptr. rewrite Hptr.
  destruct (Z.eqb_spec (gp_homenode g) invalid_node_id) as [E|E].
  - destruct (sp_peek_homenode s p h o Hs Hp Hl) as (s' & -> & Hs' & Hk).
    pose proof (keeps_eq s s' Hk) as Hk'. cbn [mbind outcome_bind].
    destruct (sp_valid s p h o Hs Hp Hl) as [Hv%Z.eqb_neq _]. rewrite Hv.
    destruct (gp_ok_keeps s s' p g Hp Hk' Hg) as [_ _ Ho'].
    eexists s', _. repeat split; try done. right. exists o. simpl. by rewrite Hk.
  - destruct Hn as [?|[o' Hl']]; [done|]. assert (gp_homenode g = h) as <- by congruence.
    by exists s, g.
Qed.

Lemma gp_make_ok s p b1 b2 :
  Inv s -> dom p -> exists s' g,
    gp_make P s p b1 b2 = Ok (s', g) /\ Inv s' /\ keeps s s' /\ gp_ok s' p g.
Proof using All.
  intros Hs Hp. unfold gp_make. set (g0 := GlobalPtr _ _ _).
  assert (H0 : gp_ok s p g0) by (split; [done|by left|by left]).
  assert (exists s1 g1, (if b1 then '(s, h) ← p_homenode P s p; Ok (s, gp_set_node g0 h)
            else Ok (s, g0)) = Ok (s1, g1) /\ Inv s1 /\ keeps s s1 /\ gp_ok s1 p g1 /\
            gp_local_offset g1 = invalid_offset) as (s1 & g1 & -> & Hs1 & Hk1 & Hg1 & Eo).
  { destruct b1; [|by exists s, g0].
    destruct (sp_homenode s p Hs Hp) as (s' & h & o & -> & Hs' & Hl & Hk).
    eexists s', _. repeat split; try done; [|by left]. right. by exists o. }
  cbn [mbind outcome_bind]. destruct b2; [|by exists s1, g1].
  destruct (sp_offset s1 p Hs1 Hp) as (s' & h & o & -> & Hs' & Hl & Hk).
  eexists s', _. split; [done|]. split; [done|].
  split; [intros q l Hq E; auto|]. destruct (gp_ok_keeps s1 s' p g1 Hp Hk Hg1).
  split; [done|done|]. right. by exists h.
Qed.

(** Whatever a global pointer has cached, and whichever of its constructors'
    flags were used, copying it yields a pointer to the same address with both
    fields filled in, and afterwards [node()], [offset()] and the two peeking
    methods of the copy return the location of the address under the policy,
    without changing the copy. *)
Theorem global_ptr_copy s p b1 b2 :
  Inv s -> dom p -> exists s1 g s2 c h o,
    gp_make P s p b1 b2 = Ok (s1, g) /\ gp_copy P s1 g = Ok (s2, c) /\
    loc s2 p = Some (h, o) /\ gp_get c = Ok p /\
    gp_node P s2 c = Ok (s2, c, h) /\ gp_peek_node P s2 c = Ok (s2, c, h) /\
    gp_offset P s2 c = Ok (s2, c, o) /\ gp_peek_offset P s2 c = Ok (s2, c, o).
Proof using All.
  intros Hs Hp. destruct (gp_make_ok s p b1 b2 Hs Hp) as (s1 & g & E & Hs1 & _ & Hg).
  destruct (gp_node_spec s1 p g Hs1 Hp Hg) as (s2 & g2 & h & o & E2 & Hs2 & _ & Hg2 & Hl2 & En & _).
  destruct (gp_offset_spec s2 p g2 Hs2 Hp Hg2)
    as (s3 & g3 & h3 & o3 & E3 & Hs3 & Hk3 & Hg3 & Hl3 & Eo3 & En3).
  assert (Hl : loc s3 p = Some (h, o)) by (by apply Hk3). rewrite Hl in Hl3.
  injection Hl3 as <- <-.
  eexists s1, g, s3, _, h, o. split; [done|]. split.
  { unfold gp_copy. rewrite E2. cbn [mbind outcome_bind]. rewrite E3. cbn [mbind outcome_bind].
    unfold gp_get, with_ptr. rewrite (go_ptr _ _ _ Hg3). reflexivity. }
  destruct (sp_valid s3 p h o Hs3 Hp Hl) as [Hv1%Z.eqb_neq Hv2%Z.eqb_neq].
  unfold gp_node, gp_peek_node, gp_offset, gp_peek_offset, gp_get, with_ptr; simpl.
  rewrite Hv1, Hv2. done.
Qed.

End Caching.

(** ** The policies behind the pointer *)

(** A static policy keeps no directory. *)
Definition lift_policy {S} (pl : placement) : policy S := {|
  p_homenode s p := h ← homenode pl p; Ok (s, h);
  p_peek_homenode s p := h ← peek_homenode pl p; Ok (s, h);
  p_local_offset s p := o ← local_offset pl p; Ok (s, o);
  p_peek_local_offset s p := o ← peek_local_offset pl p; Ok (s, o);
|}.

Definition ft_policy (d : base_distribution) (rank : Z) : policy ft_state := {|
  p_homenode s p := ft_homenode d s rank p;
  p_peek_homenode s p := ft_peek_homenode d s rank p;
  p_local_offset s p := ft_local_offset d s rank p;
  p_peek_local_offset s p := ft_peek_local_offset d s rank p;
|}.

(** [policies[env::allocation_policy()]], for node [rank]; an index past the
    table has no policy. *)
Definition policies (index bs : Z) (d : base_distribution) (rank : Z) :
    option (policy ft_state) :=
  if index =? 4 then Some (ft_policy d rank)
  else lift_policy <$> static_policy index bs d.

Definition static_loc {S} (pl : placement) (_ : S) (p : Z) : option (Z * Z) :=
  match homenode pl p, local_offset pl p with
  | Ok h, Ok o => Some (h, o)
  | _, _ => None
  end.

Definition ft_loc (d : base_distribution) (s : ft_state) (p : Z) : option (Z * Z) :=
  let r := p - start_address d in
  match place d s (r / granularity) with
  | Some (h, o) => Some (h, o + r mod granularity)
  | None => None
  end.

#[export] Instance lift_stable {S} d pl (Hd : space_ok d) `{!PlacementLaws d pl} :
  StablePolicy (S := S) (lift_policy pl) (nodes d) (in_space d) (fun _ => True) (static_loc pl).
Proof.
  pose proof (spn_le_total d Hd) as Hle.
  assert (Hloc : forall p, in_space d p -> exists h o, homenode pl p = Ok h /\
            local_offset pl p = Ok o /\ 0 <= h < nodes d /\ 0 <= o < size_per_node d).
  { intros p Hp. destruct (pl_home_ok p Hp) as (h & E1 & H1).
    destruct (pl_offset_ok p Hp) as (o & E2 & H2). eauto 10. }
  split; unfold lift_policy, static_loc; simpl.
  - intros s p h o _ Hp. destruct (Hloc p Hp) as (h' & o' & -> & -> & Hh & Ho). by intros [= <- <-].
  - intros s p h o _ Hp. destruct (Hloc p Hp) as (h' & o' & -> & -> & Hh & Ho). intros [= <- <-].
    destruct Hd. unfold invalid_node_id, invalid_offset, UINT_MAX, SIZE_MAX. lia.
  - intros s p _ Hp. destruct (Hloc p Hp) as (h & o & -> & -> & _). by exists s, h, o.
  - intros s p _ Hp. destruct (Hloc p Hp) as (h & o & -> & -> & _). by exists s, h, o.
  - intros s p h o _ Hp. destruct (pl_peek p) as [-> _].
    destruct (Hloc p Hp) as (h' & o' & -> & -> & _). intros [= <- <-]. by exists s.
  - intros s p _ Hp. destruct (pl_peek p) as [_ ->].
    destruct (Hloc p Hp) as (h' & o' & -> & -> & _). by exists s.
Qed.

Lemma ft_loc_at d s r :
  ft_loc d s (start_address d + r)
  = match place d s (r / granularity) with
    | Some (h, o) => Some (h, o + r mod granularity)
    | None => None
    end.
Proof. unfold ft_loc. by replace (start_address d + r - start_address d) with r by ring. Qed.

#[export] Instance ft_stable d rank (Hf : ft_space d) (Hr : 0 <= rank < nodes d) :
  StablePolicy (ft_policy d rank) (nodes d) (in_space d) (ft_inv d) (ft_loc d).
Proof.
  pose proof Hf as [Hd Hg Hn]. pose proof (spn_le_total d Hd) as Hle.
  assert (Hkeep : forall s s' pg dft, updated d s s' rank pg dft ->
            forall q l, in_space d q -> ft_loc d s q = Some l -> ft_loc d s' q = Some l).
  { intros s s' pg dft Hu q l (b & -> & Hb)%in_space_rel. rewrite !ft_loc_at.
    destruct (place d s (b / granularity)) as [[h o]|] eqn:E; [|done].
    rewrite (updated_place d Hd _ _ _ _ _ _ _ Hu (page_of_range d Hd Hg b Hb) E). done. }
  assert (Hpeek : forall s s' pg, updated d s s' rank pg false ->
            forall q, in_space d q -> ft_loc d s' q = ft_loc d s q).
  { intros s s' pg Hu q (b & -> & Hb)%in_space_rel. rewrite !ft_loc_at.
    by rewrite (updated_peek d Hf _ _ _ _ _ Hu (page_of_range d Hd Hg b Hb)). }
  split; unfold ft_policy; simpl.
  - intros s p h o Hs (r & -> & Hrr)%in_space_rel. rewrite ft_loc_at.
    destruct (place d s (r / granularity)) as [[h' o']|] eqn:E; [|done]. intros [= <- <-].
    by destruct (place_range d s _ h' o' Hs (page_of_range d Hd Hg r Hrr) E) as (Hh & _).
  - intros s p h o Hs (r & -> & Hrr)%in_space_rel. rewrite ft_loc_at.
    destruct (place d s (r / granularity)) as [[h' o']|] eqn:E; [|done]. intros [= <- <-].
    destruct (place_range d s _ h' o' Hs (page_of_range d Hd Hg r Hrr) E) as (Hh & Ho & Hb & _).
    pose proof (Z.mod_pos_bound r granularity ltac:(done)). destruct Hd.
    unfold invalid_node_id, invalid_offset, UINT_MAX, SIZE_MAX. lia.
  - intros s p Hs (r & -> & Hrr)%in_space_rel.
    destruct (ft_homenode_spec d Hd Hg Hn s rank r Hs Hr Hrr) as (s' & h & o & -> & Hu & Hp).
    exists s', h, (o + r mod granularity). rewrite ft_loc_at, Hp.
    split_and!; [done|by apply Hu|done|by eapply Hkeep].
  - intros s p Hs (r & -> & Hrr)%in_space_rel.
    destruct (ft_local_offset_spec d Hd Hg s rank r Hs Hr Hrr) as (s' & h & o & -> & Hu & Hp).
    exists s', h, (o + r mod granularity). rewrite ft_loc_at, Hp.
    split_and!; [done|by apply Hu|done|by eapply Hkeep].
  - intros s p h o Hs (r & -> & Hrr)%in_space_rel. rewrite ft_loc_at.
    destruct (ft_peek_homenode_spec d Hd Hg s rank r Hs Hr Hrr) as (s' & Hu & ->).
    rewrite (updated_peek d Hf _ _ _ _ _ Hu (page_of_range d Hd Hg r Hrr)).
    destruct (place d s (r / granularity)) as [[h' o']|]; [|done]. intros [= <- <-].
    exists s'. split_and!; [done|by apply Hu|by eapply Hpeek].
  - intros s p Hs (r & -> & Hrr)%in_space_rel. rewrite ft_loc_at.
    destruct (ft_peek_local_offset_spec d Hd Hg s rank r Hs Hr Hrr) as (s' & Hu & ->).
    rewrite (updated_peek d Hf _ _ _ _ _ Hu (page_of_range d Hd Hg r Hrr)).
    exists s'. split_and!; [|by apply Hu|by eapply Hpeek].
    by destruct (place d s (r / granularity)) as [[h' o']|].
Qed.

Lemma global_ptr_copy_witness :
  exists s1 g s2 c h o,
    gp_make (ft_policy ft_demo 1) ft_demo_s1 (2 ^ 32 + 4100) false true = Ok (s1, g) /\
    gp_copy (ft_policy ft_demo 1) s1 g = Ok (s2, c) /\
    ft_loc ft_demo s2 (2 ^ 32 + 4100) = Some (h, o) /\ gp_get c = Ok (2 ^ 32 + 4100) /\
    gp_node (ft_policy ft_demo 1) s2 c = Ok (s2, c, h) /\
    gp_peek_node (ft_policy ft_demo 1) s2 c = Ok (s2, c, h) /\
    gp_offset (ft_policy ft_demo 1) s2 c = Ok (s2, c, o) /\
    gp_peek_offset (ft_policy ft_demo 1) s2 c = Ok (s2, c, o).
Proof.
  assert (Hr : 0 <= 1 < nodes ft_demo) by (simpl; lia).
  apply (global_ptr_copy (ft_policy ft_demo 1) (nodes ft_demo) (in_space ft_demo) (ft_inv ft_demo)
    (ft_loc ft_demo) (StablePolicy0 := ft_stable ft_demo 1 ft_demo_space Hr)
    ft_demo_s1 (2 ^ 32 + 4100) false true).
  - apply ft_reachable_inv; [exact ft_demo_space|exact ft_demo_s1_reach].
  - apply (ft_demo_in_space 4100). lia.
Defined.
