(* ===== verification/Mem.v ===== *)
(** * Byte memories and node bit masks

    The memories of all nodes as one finite map from (node, byte offset) to byte
    values; an absent byte holds 0.  Range writes ([memcpy], [MPI_Put]) and range
    reads ([MPI_Get]) are loops over it.  The second part is about the 64-bit
    masks the Pyxis directory stores, one bit per node. *)

From S2P Require Import Prelude.

Abbreviation mem := (gmap (Z * Z) Z).

Definition mget (m : mem) (r a : Z) : Z := default 0 (m !! (r, a)).
Definition mput (m : mem) (r a v : Z) : mem := <[(r, a) := v]> m.

Fixpoint mem_write (m : mem) (r a : Z) (bs : list Z) : mem :=
  match bs with
  | [] => m
  | b :: bs => mem_write (mput m r a b) r (a + 1) bs
  end.

Fixpoint mem_read_n (m : mem) (r a : Z) (n : nat) : list Z :=
  match n with
  | O => []
  | S n => mget m r a :: mem_read_n m r (a + 1) n
  end.
Definition mem_read (m : mem) (r a len : Z) : list Z := mem_read_n m r a (Z.to_nat len).

(** The byte at position [i] of a list. *)
Definition byte_at (bs : list Z) (i : Z) : Z := nth (Z.to_nat i) bs 0.

Lemma mget_mput m r a v r' a' :
  mget (mput m r a v) r' a' = if decide (r = r' /\ a = a') then v else mget m r' a'.
Proof.
  unfold mget, mput. case_decide as E.
  - destruct E as [-> ->]. by rewrite lookup_insert_eq.
  - rewrite lookup_insert_ne; [done|]. intros [= -> ->]. by apply E.
Qed.

Lemma mget_write bs : forall m r a r' a',
  mget (mem_write m r a bs) r' a'
  = if decide (r = r' /\ a <= a' < a + Z.of_nat (length bs)) then byte_at bs (a' - a)
    else mget m r' a'.
Proof.
  induction bs as [|b bs IH]; intros m r a r' a'; simpl mem_write.
  - rewrite decide_False; [done|]. simpl. lia.
  - rewrite IH, mget_mput. simpl length. unfold byte_at.
    destruct (decide (r = r' /\ a + 1 <= a' < a + 1 + Z.of_nat (length bs))) as [E|E].
    + rewrite decide_True by lia. replace (Z.to_nat (a' - a)) with (S (Z.to_nat (a' - (a + 1)))) by lia.
      done.
    + destruct (decide (r = r' /\ a = a')) as [[-> ->]|E2].
      * rewrite decide_True by lia. by rewrite Z.sub_diag.
      * by rewrite decide_False by lia.
Qed.

Lemma mem_read_length m r a len : 0 <= len -> Z.of_nat (length (mem_read m r a len)) = len.
Proof.
  intros H. unfold mem_read.
  assert (E : forall n a, length (mem_read_n m r a n) = n).
  { induction n as [|n IH]; intros; simpl; [done|]. by rewrite IH. }
  rewrite E. lia.
Qed.

Lemma byte_at_read m r a len i : 0 <= i < len -> byte_at (mem_read m r a len) i = mget m r (a + i).
Proof.
  intros H. unfold byte_at, mem_read.
  assert (E : forall n k a, (k < n)%nat -> nth k (mem_read_n m r a n) 0 = mget m r (a + Z.of_nat k)).
  { induction n as [|n IH]; intros k b Hk; [lia|]. destruct k as [|k]; simpl.
    - f_equal. lia.
    - rewrite IH by lia. f_equal. lia. }
  rewrite E by lia. f_equal. lia.
Qed.

Lemma read_seq m r (f : Z -> Z) p n : forall a,
  (forall k, 0 <= k < n -> mget m r (a + k) = f (p + k)) -> mem_read m r a n = f <$> seqZ p n.
Proof.
  intros a H. unfold mem_read, seqZ.
  assert (G : forall k a p, (forall i, 0 <= i < Z.of_nat k -> mget m r (a + i) = f (p + i)) ->
            mem_read_n m r a k = f <$> ((fun i => Z.of_nat i + p) <$> seq 0 k)).
  { clear. induction k as [|k IH]; intros a p H; [done|].
    change (seq 0 (S k)) with (0%nat :: seq 1 k). rewrite !fmap_cons. cbn [mem_read_n]. f_equal.
    - rewrite <- (Z.add_0_r a), H by lia. f_equal. lia.
    - rewrite (IH (a + 1) (p + 1)).
      + rewrite <- fmap_S_seq, <- !list_fmap_compose. apply list_fmap_ext. intros i x _. simpl. f_equal. lia.
      + intros i Hi. rewrite <- !Z.add_assoc. apply H. lia. }
  apply G. intros i Hi. apply H. lia.
Qed.

(** ** Node bit masks *)
Definition node_bit (n : Z) : Z := Z.shiftl 1 n.
Definition has_bit (x n : Z) : bool := Z.testbit x n.

(** [isZeroOrPowerOf2], with the wrap of [x - 1] at 0. *)
Definition isZeroOrPowerOf2 (x : Z) : bool := Z.land x (sub64 x 1) =? 0.

(** [~id] at 64 bits. *)
Definition inv_bit (n : Z) : Z := Z.lxor (2 ^ 64 - 1) (node_bit n).

(** A mask of the nodes [0 .. k-1]. *)
Definition mask_of (k x : Z) : Prop := 0 <= x /\ forall i, has_bit x i = true -> 0 <= i < k.

Lemma node_bit_spec n i : 0 <= n -> has_bit (node_bit n) i = bool_decide (i = n).
Proof.
  intros Hn. unfold has_bit, node_bit. destruct (Z.ltb_spec i 0).
  - rewrite Z.testbit_neg_r by lia. symmetry. apply bool_decide_eq_false_2. lia.
  - rewrite Z.shiftl_spec by lia. destruct (bool_decide_reflect (i = n)) as [->|Hne].
    + by rewrite Z.sub_diag.
    + destruct (Z.ltb_spec (i - n) 0); [by rewrite Z.testbit_neg_r|].
      apply Z.bits_above_log2; [lia|]. simpl. lia.
Qed.

Lemma has_bit_neg x i : i < 0 -> has_bit x i = false.
Proof. apply Z.testbit_neg_r. Qed.

Lemma has_bit_lor x y i : has_bit (Z.lor x y) i = has_bit x i || has_bit y i.
Proof. apply Z.lor_spec. Qed.

Lemma has_bit_land x y i : has_bit (Z.land x y) i = has_bit x i && has_bit y i.
Proof. apply Z.land_spec. Qed.

Lemma mask_ext x y : (forall i, 0 <= i -> has_bit x i = has_bit y i) -> x = y.
Proof.
  intros H. apply Z.bits_inj'. intros i Hi. by apply H.
Qed.

Lemma mask_of_0 k : mask_of k 0.
Proof. split; [done|]. intros i. unfold has_bit. by rewrite Z.bits_0. Qed.

Lemma mask_of_bit k n : 0 <= n < k -> mask_of k (node_bit n).
Proof.
  intros Hn. split; [unfold node_bit; rewrite Z.shiftl_mul_pow2 by lia; lia|].
  intros i. rewrite node_bit_spec by lia. rewrite bool_decide_eq_true. lia.
Qed.

Lemma mask_of_lor k x y : mask_of k x -> mask_of k y -> mask_of k (Z.lor x y).
Proof.
  intros [H1 H2] [H3 H4]. split; [by apply Z.lor_nonneg|].
  intros i. rewrite has_bit_lor, orb_true_iff. intros [?|?]; auto.
Qed.

Lemma mask_of_land k x y : mask_of k x -> mask_of k (Z.land x y).
Proof.
  intros [H1 H2]. split; [apply Z.land_nonneg; by left|].
  intros i. rewrite has_bit_land, andb_true_iff. intros [? ?]; auto.
Qed.

Lemma mask_zero x : x = 0 <-> forall i, 0 <= i -> has_bit x i = false.
Proof.
  split; [intros -> i _; apply Z.bits_0|].
  intros H. apply mask_ext. intros i Hi. rewrite H by done. symmetry. apply Z.bits_0.
Qed.

Lemma mask_nonzero x : 0 <= x -> x ≠ 0 -> exists i, 0 <= i /\ has_bit x i = true.
Proof.
  intros Hx Hne. exists (Z.log2 x). split; [apply Z.log2_nonneg|].
  apply Z.bit_log2. lia.
Qed.

(** A mask with a bit [n] is that bit alone, or has a second one. *)
Lemma mask_single_or_more x n :
  0 <= n -> 0 <= x -> has_bit x n = true -> x = node_bit n \/ exists m, m ≠ n /\ has_bit x m = true.
Proof.
  intros Hn Hx Hb. destruct (decide (Z.ldiff x (node_bit n) = 0)) as [E|E].
  - left. apply mask_ext. intros i Hi. rewrite node_bit_spec by done.
    rewrite mask_zero in E. specialize (E i Hi). unfold has_bit in E, Hb |- *.
    rewrite Z.ldiff_spec in E. fold (has_bit (node_bit n) i) in E. rewrite node_bit_spec in E by done.
    destruct (bool_decide_reflect (i = n)) as [Ei|Ei]; [by subst|].
    simpl in E. by rewrite andb_true_r in E.
  - right. destruct (mask_nonzero (Z.ldiff x (node_bit n))) as (m & Hm & Hb2); [|done|].
    { apply Z.ldiff_nonneg. by left. }
    unfold has_bit in Hb2. rewrite Z.ldiff_spec in Hb2. fold (has_bit (node_bit n) m) in Hb2.
    rewrite node_bit_spec in Hb2 by done. apply andb_true_iff in Hb2 as [H1 H2].
    exists m. split; [|done]. intros ->. by rewrite bool_decide_true in H2.
Qed.

(** [isZeroOrPowerOf2] tells apart no or one node from at least two. *)
Lemma power_of_2_bit n : 0 <= n < 64 -> isZeroOrPowerOf2 (node_bit n) = true.
Proof.
  intros Hn. unfold isZeroOrPowerOf2. apply Z.eqb_eq.
  unfold node_bit. rewrite Z.shiftl_mul_pow2, Z.mul_1_l by lia.
  assert (0 < 2 ^ n < 2 ^ 64) by (split; [lia|apply Z.pow_lt_mono_r; lia]).
  rewrite sub64_small by lia. replace (2 ^ n - 1) with (Z.ones n) by (rewrite Z.ones_equiv; lia).
  rewrite Z.land_ones by lia. by rewrite Z.mod_same by lia.
Qed.

Lemma two_bits_not_power x n m :
  0 <= x < 2 ^ 64 -> 0 <= n -> 0 <= m -> n ≠ m -> has_bit x n = true -> has_bit x m = true ->
  isZeroOrPowerOf2 x = false.
Proof.
  intros Hx Hn Hm Hne Hbn Hbm. unfold isZeroOrPowerOf2. apply Z.eqb_neq.
  assert (x ≠ 0) by (intros ->; unfold has_bit in Hbn; by rewrite Z.bits_0 in Hbn).
  rewrite sub64_small by lia. intros E.
  (* the top bit survives the decrement when a lower one is set *)
  set (k := Z.log2 x). assert (Hk : 0 <= k) by apply Z.log2_nonneg.
  pose proof (Z.log2_spec x ltac:(lia)) as Hl. fold k in Hl.
  assert (exists j, 0 <= j < k /\ has_bit x j = true) as (j & Hj & Hbj).
  { assert (forall b, 0 <= b -> has_bit x b = true -> b <= k) as Hle.
    { intros b Hb Hbb. destruct (Z.le_gt_cases b k); [done|].
      unfold has_bit in Hbb. rewrite Z.bits_above_log2 in Hbb by (lia || (fold k; lia)). done. }
    pose proof (Hle n Hn Hbn). pose proof (Hle m Hm Hbm).
    destruct (Z.eq_dec n k); [exists m|exists n]; split; try done; lia. }
  assert (Hgt : 2 ^ k < x).
  { destruct (Z.eq_dec x (2 ^ k)) as [Ex|]; [|lia].
    unfold has_bit in Hbj. rewrite Ex, Z.pow2_bits_eqb in Hbj by lia.
    apply Z.eqb_eq in Hbj. lia. }
  assert (Hb1 : has_bit (x - 1) k = true).
  { unfold has_bit. replace k with (Z.log2 (x - 1)); [apply Z.bit_log2; lia|].
    apply Z.log2_unique; lia. }
  assert (Hb0 : has_bit x k = true) by (apply Z.bit_log2; lia).
  assert (has_bit (Z.land x (x - 1)) k = true) by (rewrite has_bit_land, Hb0, Hb1; done).
  rewrite E in H0. unfold has_bit in H0. by rewrite Z.bits_0 in H0.
Qed.

Lemma mask_bound k x : k <= 64 -> mask_of k x -> 0 <= x < 2 ^ 64.
Proof.
  intros Hk [Hx Hb]. split; [done|]. destruct (decide (x = 0)) as [->|Hne]; [done|].
  assert (Hl : has_bit x (Z.log2 x) = true) by (apply Z.bit_log2; lia).
  apply Hb in Hl. apply Z.log2_lt_pow2; lia.
Qed.

(** The three cases the directory code distinguishes. *)
Lemma mask_cases k x :
  k <= 64 -> mask_of k x ->
  x = 0 \/ (exists n, 0 <= n < k /\ x = node_bit n) \/
  (isZeroOrPowerOf2 x = false /\
   exists n m, n ≠ m /\ has_bit x n = true /\ has_bit x m = true).
Proof.
  intros Hk Hm. pose proof (mask_bound k x Hk Hm) as Hb. destruct Hm as [Hx Hm].
  destruct (decide (x = 0)) as [->|Hne]; [by left|]. right.
  destruct (mask_nonzero x Hx Hne) as (n & Hn & Hbn).
  destruct (mask_single_or_more x n Hn Hx Hbn) as [->|(m & Hmn & Hbm)].
  - left. exists n. split; [|done]. by apply Hm.
  - right. split; [|by exists n, m]. apply (two_bits_not_power x n m); try done.
    destruct (Z.ltb_spec m 0); [|done]. by rewrite has_bit_neg in Hbm.
Qed.

Lemma inv_bit_spec n i : 0 <= n < 64 -> 0 <= i < 64 -> has_bit (inv_bit n) i = negb (bool_decide (i = n)).
Proof.
  intros Hn Hi. unfold has_bit, inv_bit. rewrite Z.lxor_spec.
  fold (has_bit (node_bit n) i). rewrite node_bit_spec by lia.
  change (2 ^ 64 - 1) with (Z.ones 64). rewrite Z.ones_spec_low by lia. done.
Qed.

(** [x & ~id] removes exactly the node's own bit. *)
Lemma land_inv_bit k x n i :
  k <= 64 -> mask_of k x -> 0 <= n < 64 ->
  has_bit (Z.land x (inv_bit n)) i = has_bit x i && negb (bool_decide (i = n)).
Proof.
  intros Hk [Hx Hm] Hn. rewrite has_bit_land. destruct (has_bit x i) eqn:E; [|done].
  apply Hm in E. by rewrite inv_bit_spec by lia.
Qed.
