(* ===== verification/Swdsm.v ===== *)
(** * The MPI software DSM backend

    The page cache, the Pyxis directory, the fault handler, the write buffer and
    the synchronisation operations of [src/src/backend/mpi/swdsm.cpp] and
    [src/src/backend/mpi/write_buffer.hpp].

    The state holds the arrays of all nodes: every array is keyed by (node,
    index) and an absent key holds the value [argo_reset_coherence] stores.  The
    nodes' backing files are the three memories [cacheData], [pagecopy] and
    [globalData]; [vmem] is the page table of each node's view of the global
    address space, so a cached page and its slot of [cacheData], and a local page
    and its place in [globalData], are the same bytes.

    An operation runs as one step.  The cache, window and sync locks that make
    that so within a node are not state of the model, [try_lock] succeeds, and
    the window index an operation selects only chooses a lock.  The page size is
    4096 and a cache line is one page, the only values the build accepts.  The
    placement policy is a static one. *)

From S2P Require Import Prelude BlockMap DataDistribution FirstTouch GlobalPtr Mem.

Definition PAGE_SIZE : Z := 4096.
Definition CACHELINE : Z := 1.

(** ** Configuration: the globals [argo_initialize] sets *)
Record dsm_config := DsmConfig {
  numtasks : Z;
  cachesize : Z;
  load_size : Z;
  mpi_windows : Z;
  size_of_all : Z;
  startAddr : Z;
  wb_max_size : Z;
  wb_write_back_size : Z;
}.

Definition classificationSize (c : dsm_config) : Z := 2 * (size_of_all c / PAGE_SIZE).
Definition GLOBAL_NULL (c : dsm_config) : Z := size_of_all c + 1.

(** ** State *)
Inductive page_state := INVALID | VALID.
Inductive page_dirty := CLEAN | DIRTY.

#[export] Instance page_state_eq_dec : EqDecision page_state.
Proof. solve_decision. Defined.
#[export] Instance page_dirty_eq_dec : EqDecision page_dirty.
Proof. solve_decision. Defined.

Record control_data := ControlData {
  cd_state : page_state;
  cd_dirty : page_dirty;
  cd_tag : Z;
}.

Inductive protection := PROT_NONE | PROT_READ | PROT_RW.
#[export] Instance protection_eq_dec : EqDecision protection.
Proof. solve_decision. Defined.

(** What a page of the global address space is mapped to: the reservation of the
    address space, a slot of the page cache, or an offset of the node's share. *)
Inductive backing := BReserved | BCache (idx : Z) | BHome (off : Z).

Record dsm := Dsm {
  cacheControl : gmap (Z * Z) control_data;
  touchedcache : gmap (Z * Z) Z;
  globalSharers : gmap (Z * Z) Z;
  cacheData : mem;
  pagecopy : mem;
  globalData : mem;
  vmem : gmap (Z * Z) (backing * protection);
  wbuf : gmap Z (list Z);
  counters : gmap (Z * Z) Z;
}.

Definition dsm_reset : dsm := {|
  cacheControl := ∅; touchedcache := ∅; globalSharers := ∅; cacheData := ∅;
  pagecopy := ∅; globalData := ∅; vmem := ∅; wbuf := ∅; counters := ∅ |}.

(** The statistics counters of a node. *)
Definition c_read_misses : Z := 0.
Definition c_write_misses : Z := 1.
Definition c_page_count : Z := 2.
Definition c_partial_flush_count : Z := 3.
Definition c_barriers : Z := 4.

(** ** Reading and updating the state *)
Definition touched (s : dsm) (r i : Z) : Z := default 0 (touchedcache s !! (r, i)).
Definition sh (s : dsm) (r i : Z) : Z := default 0 (globalSharers s !! (r, i)).
Definition vmap (s : dsm) (r p : Z) : backing * protection :=
  default (BReserved, PROT_NONE) (vmem s !! (r, p)).
Definition wb (s : dsm) (r : Z) : list Z := default [] (wbuf s !! r).
Definition counter (s : dsm) (r k : Z) : Z := default 0 (counters s !! (r, k)).

Definition set_cc (s : dsm) (r i : Z) (e : control_data) : dsm := {|
  cacheControl := <[(r, i) := e]> (cacheControl s); touchedcache := touchedcache s;
  globalSharers := globalSharers s; cacheData := cacheData s; pagecopy := pagecopy s;
  globalData := globalData s; vmem := vmem s; wbuf := wbuf s; counters := counters s |}.
Definition set_touched (s : dsm) (r i v : Z) : dsm := {|
  cacheControl := cacheControl s; touchedcache := <[(r, i) := v]> (touchedcache s);
  globalSharers := globalSharers s; cacheData := cacheData s; pagecopy := pagecopy s;
  globalData := globalData s; vmem := vmem s; wbuf := wbuf s; counters := counters s |}.
Definition set_sh (s : dsm) (r i v : Z) : dsm := {|
  cacheControl := cacheControl s; touchedcache := touchedcache s;
  globalSharers := <[(r, i) := v]> (globalSharers s); cacheData := cacheData s;
  pagecopy := pagecopy s; globalData := globalData s; vmem := vmem s; wbuf := wbuf s;
  counters := counters s |}.
Definition set_cacheData (s : dsm) (m : mem) : dsm := {|
  cacheControl := cacheControl s; touchedcache := touchedcache s;
  globalSharers := globalSharers s; cacheData := m; pagecopy := pagecopy s;
  globalData := globalData s; vmem := vmem s; wbuf := wbuf s; counters := counters s |}.
Definition set_pagecopy (s : dsm) (m : mem) : dsm := {|
  cacheControl := cacheControl s; touchedcache := touchedcache s;
  globalSharers := globalSharers s; cacheData := cacheData s; pagecopy := m;
  globalData := globalData s; vmem := vmem s; wbuf := wbuf s; counters := counters s |}.
Definition set_globalData (s : dsm) (m : mem) : dsm := {|
  cacheControl := cacheControl s; touchedcache := touchedcache s;
  globalSharers := globalSharers s; cacheData := cacheData s; pagecopy := pagecopy s;
  globalData := m; vmem := vmem s; wbuf := wbuf s; counters := counters s |}.
Definition set_vmap (s : dsm) (r p : Z) (v : backing * protection) : dsm := {|
  cacheControl := cacheControl s; touchedcache := touchedcache s;
  globalSharers := globalSharers s; cacheData := cacheData s; pagecopy := pagecopy s;
  globalData := globalData s; vmem := <[(r, p) := v]> (vmem s); wbuf := wbuf s;
  counters := counters s |}.
Definition set_wb (s : dsm) (r : Z) (l : list Z) : dsm := {|
  cacheControl := cacheControl s; touchedcache := touchedcache s;
  globalSharers := globalSharers s; cacheData := cacheData s; pagecopy := pagecopy s;
  globalData := globalData s; vmem := vmem s; wbuf := <[r := l]> (wbuf s);
  counters := counters s |}.
(** Incrementing a statistics counter. *)
Definition count (s : dsm) (r k : Z) : dsm := {|
  cacheControl := cacheControl s; touchedcache := touchedcache s;
  globalSharers := globalSharers s; cacheData := cacheData s; pagecopy := pagecopy s;
  globalData := globalData s; vmem := vmem s; wbuf := wbuf s;
  counters := <[(r, k) := add64 (counter s r k) 1]> (counters s) |}.

(** [mprotect] and [vm::map_memory] of one page. *)
Definition mprotect (s : dsm) (r p : Z) (pr : protection) : dsm :=
  set_vmap s r p (fst (vmap s r p), pr).
Definition map_memory (s : dsm) (r p : Z) (b : backing) (pr : protection) : dsm :=
  set_vmap s r p (b, pr).

(** The byte behind a mapping. *)
Definition backing_byte (s : dsm) (r : Z) (b : backing) (j : Z) : Z :=
  match b with
  | BReserved => 0
  | BCache idx => mget (cacheData s) r (idx * PAGE_SIZE + j)
  | BHome off => mget (globalData s) r (off + j)
  end.

(** The runtime reading a page through its mapping: a fault here is a fault
    inside the fault handler. *)
Definition mapped (s : dsm) (r p : Z) : outcome backing :=
  match vmap s r p with
  | (b, PROT_NONE) => Throw (undefined_behaviour "fault inside the runtime")
  | (b, _) => Ok b
  end.

(** ** The Pyxis directory: one-sided operations on a node's window *)
Definition or_sh (s : dsm) (rank disp v : Z) : dsm :=
  set_sh s rank disp (Z.lor (sh s rank disp) v).

(** [MPI_Accumulate] with [MPI_BOR], and the values [MPI_Get_accumulate] returns. *)
Fixpoint or_range (s : dsm) (rank disp : Z) (vs : list Z) : dsm :=
  match vs with
  | [] => s
  | v :: vs => or_range (or_sh s rank disp v) rank (disp + 1) vs
  end.
Definition sh_range (s : dsm) (rank disp len : Z) : list Z :=
  (fun k => sh s rank (disp + k)) <$> seqZ 0 len.

(** [int], to which [sharer_op] and [get_sharer_win_index] convert the index. *)
Definition to_int (x : Z) : Z :=
  let y := x mod 2 ^ 32 in if y <? 2 ^ 31 then y else y - 2 ^ 32.

Inductive access_type := access_read | access_write | access_undefined.
#[export] Instance access_type_eq_dec : EqDecision access_type.
Proof. solve_decision. Defined.

Section Swdsm.

Context (c : dsm_config) (pl : placement).

Definition cc (s : dsm) (r i : Z) : control_data :=
  default {| cd_state := INVALID; cd_dirty := CLEAN; cd_tag := GLOBAL_NULL c |}
    (cacheControl s !! (r, i)).

Definition set_dirty (s : dsm) (r i : Z) (v : page_dirty) : dsm :=
  let e := cc s r i in
  set_cc s r i {| cd_state := cd_state e; cd_dirty := v; cd_tag := cd_tag e |}.
Definition set_state (s : dsm) (r i : Z) (v : page_state) : dsm :=
  let e := cc s r i in
  set_cc s r i {| cd_state := v; cd_dirty := cd_dirty e; cd_tag := cd_tag e |}.
Definition set_tag (s : dsm) (r i v : Z) : dsm :=
  let e := cc s r i in
  set_cc s r i {| cd_state := cd_state e; cd_dirty := cd_dirty e; cd_tag := v |}.

(** ** Index computations *)
Definition getCacheIndex (addr : Z) : Z := (addr / PAGE_SIZE) mod cachesize c.

Definition align_backwards (offset size : Z) : Z := offset / size * size.

Definition get_classification_index (addr : Z) : Z :=
  mul64 2 (addr / (PAGE_SIZE * CACHELINE)) mod classificationSize c.

Definition get_sharer_win_index (classification_index : Z) : Z :=
  let granularity := mul64 (load_size c) 2 in
  let chunk_index := u64 (Z.quot (to_int classification_index) 2) / granularity in
  add64 (add64 chunk_index (chunk_index / mpi_windows c)) 1 mod mpi_windows c.

Definition get_sharer_win_offset (classification_index : Z) : Z :=
  u64 (to_int classification_index).

Definition get_data_win_index (offset : Z) : Z :=
  let granularity := mul64 (load_size c) 2 in
  let chunk_index := (offset / (PAGE_SIZE * CACHELINE)) / granularity in
  add64 (add64 chunk_index (chunk_index / mpi_windows c)) 1 mod mpi_windows c.

Definition get_data_win_offset (offset : Z) : Z := offset.

(** ** Where a page lives: through a [global_ptr] *)
Definition the_policy : policy unit := lift_policy pl.

Definition get_homenode (addr : Z) : outcome Z :=
  '(s, g) ← gp_make the_policy tt (add64 addr (startAddr c)) true false;
  '(_, _, h) ← gp_node the_policy s g; Ok h.

Definition peek_homenode (addr : Z) : outcome Z :=
  '(s, g) ← gp_make the_policy tt (add64 addr (startAddr c)) false false;
  '(_, _, h) ← gp_peek_node the_policy s g; Ok h.

Definition get_offset (addr : Z) : outcome Z :=
  '(s, g) ← gp_make the_policy tt (add64 addr (startAddr c)) false true;
  '(_, _, o) ← gp_offset the_policy s g; Ok o.

Definition peek_offset (addr : Z) : outcome Z :=
  '(s, g) ← gp_make the_policy tt (add64 addr (startAddr c)) false false;
  '(_, _, o) ← gp_peek_offset the_policy s g; Ok o.

(** [_is_cached], on an absolute address. *)
Definition is_cached (s : dsm) (r addr : Z) : outcome bool :=
  let aligned_address := align_backwards (sub64 addr (startAddr c)) (PAGE_SIZE * CACHELINE) in
  homenode ← peek_homenode aligned_address;
  let e := cc s r (getCacheIndex aligned_address) in
  Ok ((homenode =? r) || ((cd_tag e =? aligned_address) && bool_decide (cd_state e = VALID))).

(** ** Writing a page back: storepageDIFF

    Runs of modified bytes are written with one [MPI_Put] each. *)
Section Diff.

Context (real copy : Z -> Z) (put : mem -> Z -> Z -> mem).

Fixpoint diff_loop (todo : nat) (i cnt : Z) (m : mem) : Z * mem :=
  match todo with
  | O => (cnt, m)
  | S todo =>
    if negb (real i =? copy i) then diff_loop todo (i + 1) (cnt + 1) m
    else if 0 <? cnt then diff_loop todo (i + 1) 0 (put m (i - cnt) cnt)
    else diff_loop todo (i + 1) cnt m
  end.

Definition diff_page (m : mem) : mem :=
  let '(cnt, m) := diff_loop (Z.to_nat PAGE_SIZE) 0 0 m in
  if 0 <? cnt then put m (PAGE_SIZE - cnt) cnt else m.

End Diff.

Definition storepageDIFF (s : dsm) (r index addr : Z) : outcome dsm :=
  homenode ← get_homenode addr;
  offset ← get_offset addr;
  let win_offset := get_data_win_offset offset in
  b ← mapped s r addr;
  let real := backing_byte s r b in
  let copy j := mget (pagecopy s) r (index * PAGE_SIZE + j) in
  let put m start cnt :=
    mem_write m homenode (win_offset + start) (real <$> seqZ start cnt) in
  Ok (count (set_globalData s (diff_page real copy put (globalData s))) r c_write_misses).

(** ** The write buffer *)
Definition write_back_index (s : dsm) (r cache_index : Z) : outcome dsm :=
  match cd_dirty (cc s r cache_index) with
  | CLEAN => Throw (assertion_failed "cacheControl[cache_index].dirty == DIRTY")
  | DIRTY =>
    let page_address := cd_tag (cc s r cache_index) in
    let s := mprotect s r page_address PROT_READ in
    let s := set_dirty s r cache_index CLEAN in
    storepageDIFF s r cache_index page_address
  end.

(** [write_back_index(pop())]. *)
Definition wb_pop_write_back (s : dsm) (r : Z) : outcome dsm :=
  match wb s r with
  | [] => Throw (undefined_behaviour "front of an empty deque")
  | i :: l => write_back_index (set_wb s r l) r i
  end.

Definition wb_flush_partial (s : dsm) (r : Z) : outcome dsm :=
  s ← for_each (seqZ 0 (wb_write_back_size c)) (fun _ s => wb_pop_write_back s r) s;
  Ok (count s r c_partial_flush_count).

Definition wb_has (s : dsm) (r val : Z) : bool := bool_decide (val ∈ wb s r).

Definition wb_add (s : dsm) (r val : Z) : outcome dsm :=
  if wb_has s r val then Throw (assertion_failed "!has(val)")
  else
    s ← (if wb_max_size c <=? Z.of_nat (length (wb s r)) then wb_flush_partial s r else Ok s);
    Ok (count (set_wb s r (wb s r ++ [val])) r c_page_count).

Fixpoint remove_first (val : Z) (l : list Z) : list Z :=
  match l with
  | [] => []
  | x :: l => if x =? val then l else x :: remove_first val l
  end.
Definition wb_erase (s : dsm) (r val : Z) : dsm := set_wb s r (remove_first val (wb s r)).

(** The loop pops once per round, so the length of the buffer bounds the rounds. *)
Fixpoint wb_flush_loop (fuel : nat) (s : dsm) (r : Z) : outcome dsm :=
  match wb s r, fuel with
  | [], _ => Ok s
  | _, O => Hang
  | _, S fuel => s ← wb_pop_write_back s r; wb_flush_loop fuel s r
  end.
Definition wb_flush (s : dsm) (r : Z) : outcome dsm :=
  wb_flush_loop (length (wb s r)) s r.

(** ** Loading pages into the cache *)

(** The loop over the nodes that finds the rank of a single bit. *)
Definition find_rank (bit : Z) : option Z :=
  List.find (fun n => node_bit n =? bit) (seqZ 0 (numtasks c)).

Definition vec {A} (d : A) (l : list A) (i : Z) : A := nth (Z.to_nat i) l d.

(** How many pages to fetch: the following pages that are in bounds, on the same
    node, contiguous there and in the same windows. *)
Fixpoint load_extent (todo : nat) (addr start_index load_node load_offset : Z) (p : Z) :
    outcome Z :=
  match todo with
  | O => Ok p
  | S todo =>
    let temp_addr := addr + p * PAGE_SIZE in
    if (temp_addr <? size_of_all c) && (start_index + p <? cachesize c) then
      temp_node ← peek_homenode temp_addr;
      temp_offset ← peek_offset temp_addr;
      if (temp_node =? load_node) && (temp_offset =? load_offset + p * PAGE_SIZE)
         && (get_sharer_win_index (get_classification_index temp_addr)
             =? get_sharer_win_index (get_classification_index addr))
         && (get_data_win_index temp_offset =? get_data_win_index load_offset)
      then load_extent todo addr start_index load_node load_offset (p + 1)
      else Ok p
    else Ok p
  end.

(** Evict the page another address left in slot [idx], writing it back if dirty. *)
Definition evict_entry (s : dsm) (r idx temp_addr : Z) : outcome dsm :=
  let old := cd_tag (cc s r idx) in
  if negb (old =? temp_addr) && negb (old =? GLOBAL_NULL c) then
    s ← (match cd_dirty (cc s r idx) with
         | DIRTY =>
           s ← storepageDIFF (mprotect s r old PROT_READ) r idx old;
           Ok (wb_erase s r idx)
         | CLEAN => Ok s
         end);
    let s := set_state s r idx INVALID in
    let s := set_tag s r idx temp_addr in
    let s := set_dirty s r idx CLEAN in
    let s := map_memory s r temp_addr (BCache idx) PROT_NONE in
    Ok (mprotect s r old PROT_NONE)
  else Ok s.

(** The first loop over the slots: which pages to load. *)
Definition evict_entries (s : dsm) (r addr start_index fetch_size : Z) :
    outcome (dsm * list bool) :=
  for_each (seqZ 0 fetch_size) (fun p '(s, pages_to_load) =>
    let temp_addr := addr + p * PAGE_SIZE in
    let idx := start_index + p in
    let e := cc s r idx in
    if (cd_tag e =? temp_addr) && bool_decide (cd_state e ≠ INVALID)
    then Ok (s, pages_to_load ++ [false])
    else s ← evict_entry s r idx temp_addr; Ok (s, pages_to_load ++ [true])) (s, []).

Section Load.

Context (r addr start_index load_node load_offset fetch_size : Z).
Context (pages_to_load : list bool).

Definition load_class (i : Z) : Z := get_classification_index (addr + i * PAGE_SIZE).

(** Whether this node is already a sharer, and the bits to register. *)
Definition load_local_sharers (s : dsm) : list Z :=
  (fun i => if vec false pages_to_load i then Z.land (sh s r (load_class i)) (node_bit r) else 0)
    <$> seqZ 0 fetch_size.
Definition load_bit_mask (local_sharers : list Z) : list Z :=
  flat_map (fun i =>
    [if vec false pages_to_load i && (vec 0 local_sharers i =? 0) then node_bit r else 0; 0])
    (seqZ 0 fetch_size).
Definition load_new_sharer (local_sharers : list Z) : bool :=
  existsb (fun i => vec false pages_to_load i && (vec 0 local_sharers i =? 0)) (seqZ 0 fetch_size).

(** Registering at the home node with one [MPI_Get_accumulate]. *)
Definition load_register (s : dsm) (local_sharers : list Z) : list Z * dsm :=
  let mask := load_bit_mask local_sharers in
  let sharer_win_offset := get_sharer_win_offset (load_class 0) in
  if load_new_sharer local_sharers then
    (sh_range s load_node sharer_win_offset (fetch_size * 2),
     or_range s load_node sharer_win_offset mask)
  else (replicate (Z.to_nat (fetch_size * 2)) 0, s).

(** Merging what the home node knew into the local directory. *)
Definition load_merge (s : dsm) (remote_sharers : list Z) : outcome dsm :=
  for_each (seqZ 0 fetch_size) (fun i s =>
    if vec false pages_to_load i then
      let s := or_sh s r (load_class i) (vec 0 remote_sharers (i * 2)) in
      let s := or_sh s r (load_class i) (node_bit r) in
      Ok (or_sh s r (load_class i + 1) (vec 0 remote_sharers (i * 2 + 1)))
    else Ok s) s.

(** Notifying the single previous sharer of each page that it is now shared;
    pages with the same owner are notified together. *)
Definition load_downgrade (s : dsm) (local_sharers remote_sharers : list Z) : outcome dsm :=
  '(s, _) ← for_each (seqZ 0 fetch_size) (fun i '(s, handled_pages) =>
    if vec false pages_to_load i && negb (vec false handled_pages i) then
      let owner_id_bit := Z.land (vec 0 remote_sharers (i * 2)) (inv_bit r) in
      if isZeroOrPowerOf2 owner_id_bit && negb (owner_id_bit =? 0)
         && (vec 0 local_sharers i =? 0) then
        match find_rank owner_id_bit with
        | None => Throw (undefined_behaviour "owner is not a node")
        | Some owner =>
          let same j := (i <? j) && vec false pages_to_load j && negb (vec false handled_pages j)
            && (Z.land (vec 0 remote_sharers (j * 2)) (inv_bit r) =? owner_id_bit)
            && (vec 0 local_sharers j =? 0) in
          let mask := flat_map (fun j => [if (j =? i) || same j then node_bit r else 0; 0])
            (seqZ 0 fetch_size) in
          let handled_pages :=
            (fun j => vec false handled_pages j || same j) <$> seqZ 0 fetch_size in
          Ok (or_range s owner (get_sharer_win_offset (load_class 0)) mask, handled_pages)
        end
      else Ok (s, handled_pages)
    else Ok (s, handled_pages)) (s, replicate (Z.to_nat fetch_size) false);
  Ok s.

(** Copying the fetched data into the cache and opening the pages for reading. *)
Definition load_fill (s : dsm) (temp_data : list Z) : outcome dsm :=
  for_each (seqZ 0 fetch_size) (fun p s =>
    if vec false pages_to_load p then
      let idx := start_index + p in
      let page := take (Z.to_nat PAGE_SIZE) (drop (Z.to_nat (p * PAGE_SIZE)) temp_data) in
      let s := set_cacheData s (mem_write (cacheData s) r (idx * PAGE_SIZE) page) in
      let temp_addr := addr + p * PAGE_SIZE in
      let s := if cd_tag (cc s r idx) =? GLOBAL_NULL c
               then set_tag (map_memory s r temp_addr (BCache idx) PROT_READ) r idx temp_addr
               else mprotect s r temp_addr PROT_READ in
      let s := set_touched s r idx 1 in
      let s := set_state s r idx VALID in
      Ok (set_dirty s r idx CLEAN)
    else Ok s) s.

End Load.

Definition load_cache_entry (s : dsm) (r aligned_access_offset : Z) : outcome dsm :=
  let addr := aligned_access_offset in
  if size_of_all c <=? addr then Ok s
  else if negb (addr mod (PAGE_SIZE * CACHELINE) =? 0)
  then Throw (assertion_failed "(aligned_access_offset % block_size) == 0")
  else
    let start_index := align_backwards (getCacheIndex addr) CACHELINE in
    load_node ← get_homenode addr;
    load_offset ← get_offset addr;
    let e := cc s r start_index in
    if (cd_tag e =? addr) && bool_decide (cd_state e ≠ INVALID) then Ok s
    else
      fetch_size ← load_extent (Z.to_nat (load_size c - 1)) addr start_index load_node load_offset 1;
      '(s, pages_to_load) ← evict_entries s r addr start_index fetch_size;
      let s := count s r c_read_misses in
      let local_sharers := load_local_sharers r addr fetch_size pages_to_load s in
      let '(remote_sharers, s) :=
        load_register r addr load_node fetch_size pages_to_load s local_sharers in
      s ← load_merge r addr fetch_size pages_to_load s remote_sharers;
      s ← load_downgrade r addr fetch_size pages_to_load s local_sharers remote_sharers;
      let temp_data := mem_read (globalData s) load_node (get_data_win_offset load_offset)
        (fetch_size * PAGE_SIZE) in
      load_fill r addr start_index fetch_size pages_to_load s temp_data.

(** ** The fault handler *)

(** Telling the other nodes about a new writer: the only other writer, or every
    sharer when there was no writer. *)
Definition notify_writer (s : dsm) (r classidx writers sharers : Z) : dsm :=
  let id := node_bit r in
  let others := Z.land writers (inv_bit r) in
  if negb (writers =? id) && negb (writers =? 0) && isZeroOrPowerOf2 others then
    let owner := default 0 (find_rank others) in
    or_sh s owner (get_sharer_win_offset classidx + 1) id
  else if (writers =? id) || (writers =? 0) then
    foldl (fun s n =>
      if negb (n =? r) && negb (Z.land (node_bit n) sharers =? 0)
      then or_sh s n (get_sharer_win_offset classidx + 1) id else s) s (seqZ 0 (numtasks c))
  else s.

(** The page is in this node's own share. *)
Definition handler_local (s : dsm) (r addr offset : Z) (miss_type : access_type) : outcome dsm :=
  let classidx := get_classification_index addr in
  let id := node_bit r in
  if negb (Z.land (sh s r classidx) id =? id) then
    let sharers := sh s r classidx in
    let s := or_sh s r classidx id in
    s ← (if negb (sharers =? 0) && negb (sharers =? id) && isZeroOrPowerOf2 sharers then
           let owner := default r (find_rank (Z.land sharers (inv_bit r))) in
           if owner =? r then Throw (char_throw "bad owner in local access")
           else Ok (or_sh s owner (get_sharer_win_offset classidx) id)
         else Ok s);
    Ok (map_memory s r addr (BHome offset) PROT_READ)
  else if bool_decide (miss_type = access_read) then Ok s
  else
    let sharers := sh s r classidx in
    let writers := sh s r (classidx + 1) in
    let s := or_sh s r (classidx + 1) id in
    let s := notify_writer s r classidx writers sharers in
    Ok (map_memory s r addr (BHome offset) PROT_RW).

(** Registering as a writer of a remote page. *)
Definition register_writer (s : dsm) (r homenode classidx : Z) : dsm :=
  let id := node_bit r in
  let writers := sh s r (classidx + 1) in
  if negb (writers =? id) && isZeroOrPowerOf2 writers then
    let s := or_sh s r (classidx + 1) id in
    let writers := sh s homenode (get_sharer_win_offset classidx + 1) in
    let s := or_sh s homenode (get_sharer_win_offset classidx + 1) id in
    let sharers := sh s homenode (get_sharer_win_offset classidx) in
    let writers := Z.lor writers id in
    let s := or_sh s r classidx sharers in
    notify_writer s r classidx writers sharers
  else s.

(** The page is cached, or to be cached, from another node's share. *)
Definition handler_remote (s : dsm) (r addr homenode : Z) (miss_type : access_type) :
    outcome dsm :=
  let startIndex := getCacheIndex addr in
  let classidx := get_classification_index addr in
  let e := cc s r startIndex in
  let performed_load := bool_decide (cd_state e = INVALID)
    || (negb (cd_tag e =? addr) && negb (cd_tag e =? GLOBAL_NULL c)) in
  s ← (if performed_load then load_cache_entry s r addr else Ok s);
  if bool_decide (miss_type = access_read)
     || (bool_decide (miss_type = access_undefined) && performed_load) then
    if bool_decide (cd_state (cc s r startIndex) = VALID) then
      if cd_tag (cc s r startIndex) =? addr then Ok s
      else Throw (assertion_failed "cacheControl[startIndex].tag == aligned_access_offset")
    else Throw (assertion_failed "cacheControl[startIndex].state == VALID")
  else
    let line := startIndex / CACHELINE * CACHELINE in
    if bool_decide (cd_dirty (cc s r line) = DIRTY) then Ok s
    else
      let s := set_touched s r line 1 in
      let s := set_dirty s r line DIRTY in
      let s := register_writer s r homenode classidx in
      b ← mapped s r addr;
      let s := set_pagecopy s (mem_write (pagecopy s) r (line * PAGE_SIZE)
                 (backing_byte s r b <$> seqZ 0 PAGE_SIZE)) in
      let s := mprotect s r addr PROT_RW in
      wb_add s r startIndex.

Definition handler (s : dsm) (r access_offset : Z) (miss_type : access_type) : outcome dsm :=
  let addr := align_backwards access_offset (CACHELINE * PAGE_SIZE) in
  homenode ← get_homenode addr;
  offset ← get_offset addr;
  if homenode =? r then handler_local s r addr offset miss_type
  else handler_remote s r addr homenode miss_type.

(** ** Application accesses: retried after the handler returns *)
Definition can_read (s : dsm) (r p : Z) : bool :=
  bool_decide (snd (vmap s r p) ≠ PROT_NONE).
Definition can_write (s : dsm) (r p : Z) : bool :=
  bool_decide (snd (vmap s r p) = PROT_RW).

Fixpoint app_load (fuel : nat) (s : dsm) (r a : Z) (miss : access_type) : outcome (dsm * Z) :=
  let p := align_backwards a PAGE_SIZE in
  if can_read s r p then Ok (s, backing_byte s r (fst (vmap s r p)) (a mod PAGE_SIZE))
  else match fuel with
       | O => Hang
       | S fuel => s ← handler s r a miss; app_load fuel s r a miss
       end.

Definition put_byte (s : dsm) (r : Z) (b : backing) (j v : Z) : dsm :=
  match b with
  | BReserved => s
  | BCache idx => set_cacheData s (mput (cacheData s) r (idx * PAGE_SIZE + j) v)
  | BHome off => set_globalData s (mput (globalData s) r (off + j) v)
  end.

Fixpoint app_store (fuel : nat) (s : dsm) (r a v : Z) (miss : access_type) : outcome dsm :=
  let p := align_backwards a PAGE_SIZE in
  if can_write s r p then Ok (put_byte s r (fst (vmap s r p)) (a mod PAGE_SIZE) v)
  else match fuel with
       | O => Hang
       | S fuel => s ← handler s r a miss; app_store fuel s r a v miss
       end.

(** ** Synchronisation *)
Definition keep_page (s : dsm) (r classidx : Z) : bool :=
  let id := node_bit r in
  (sh s r (classidx + 1) =? id)
  || ((sh s r (classidx + 1) =? 0) && (Z.land (sh s r classidx) id =? id)).

Definition self_invalidation (s : dsm) (r : Z) : outcome dsm :=
  '(s, _) ← for_each (seqZ 0 (cachesize c)) (fun i '(s, flushed) =>
    if touched s r i =? 0 then Ok (s, flushed)
    else
      let distrAddr := cd_tag (cc s r i) in
      let lineAddr := distrAddr / (PAGE_SIZE * CACHELINE) * (PAGE_SIZE * CACHELINE) in
      let classidx := get_classification_index lineAddr in
      let dirty := cd_dirty (cc s r i) in
      '(s, flushed) ← (if negb flushed && bool_decide (dirty = DIRTY)
                       then s ← wb_flush s r; Ok (s, true) else Ok (s, flushed));
      if keep_page s r classidx then Ok (set_touched s r i 1, flushed)
      else
        let s := set_dirty s r i CLEAN in
        let s := set_state s r i INVALID in
        let s := set_touched s r i 0 in
        Ok (mprotect s r lineAddr PROT_NONE, flushed)) (s, false);
  Ok s.

Inductive upgrade_type := upgrade_none | upgrade_writers | upgrade_all.

Definition self_upgrade (s : dsm) (r : Z) (all : bool) : outcome dsm :=
  for_each (seqZ 0 (classificationSize c / 2)) (fun page_index s =>
    let i := 2 * page_index in
    let page_addr := page_index * PAGE_SIZE * CACHELINE in
    cached ← is_cached s r (add64 (startAddr c) page_addr);
    let is_sharer := negb (Z.land (sh s r i) (node_bit r) =? 0) in
    let is_writer := negb (Z.land (sh s r (i + 1)) (node_bit r) =? 0) in
    let s := if all then set_sh s r i 0 else s in
    let s := set_sh s r (i + 1) 0 in
    if (cached : bool) then
      if all && is_sharer then
        let cache_index := getCacheIndex page_addr in
        let s := mprotect s r page_addr PROT_NONE in
        let s := set_dirty s r cache_index CLEAN in
        let s := set_state s r cache_index INVALID in
        Ok (set_touched s r cache_index 0)
      else if is_writer then Ok (mprotect s r page_addr PROT_READ) else Ok s
    else Ok s) s.

Definition argo_acquire (s : dsm) (r : Z) : outcome dsm := self_invalidation s r.
Definition argo_release (s : dsm) (r : Z) : outcome dsm := wb_flush s r.
Definition argo_acq_rel (s : dsm) (r : Z) : outcome dsm :=
  s ← argo_acquire s r; argo_release s r.

(** The barrier of all nodes: its [MPI_Barrier] calls separate the phases. *)
Definition swdsm_argo_barrier (s : dsm) (upgrade : upgrade_type) : outcome dsm :=
  let ranks := seqZ 0 (numtasks c) in
  if numtasks c =? 1 then Ok (count s 0 c_barriers)
  else
    s ← for_each ranks (fun r s => wb_flush s r) s;
    s ← for_each ranks (fun r s => self_invalidation s r) s;
    s ← match upgrade with
        | upgrade_none => Ok s
        | upgrade_writers => for_each ranks (fun r s => self_upgrade s r false) s
        | upgrade_all => for_each ranks (fun r s => self_upgrade s r true) s
        end;
    for_each ranks (fun r s => Ok (count s r c_barriers)) s.

End Swdsm.
