(* ===== verification/SwdsmBase.v ===== *)
(** * Facts about the backend's building blocks

    The configuration the theorems assume, where pages live under a lawful
    policy, index computations, the getters of the state under its setters, and
    [storepageDIFF] as a pointwise merge. *)

From S2P Require Import Prelude BlockMap DataDistribution FirstTouch GlobalPtr Mem Swdsm.

(** The memory space as [base_distribution] sees it. *)
Definition dist_of (c : dsm_config) : base_distribution :=
  set_memory_space (numtasks c) (startAddr c) (size_of_all c).

(** A configuration [argo_initialize] produces for at most 64 nodes, one directory bit
    each, and a memory of at most 4 TiB, whose directory indices fit an [int]: equal
    shares of whole pages.  The code checks neither bound. *)
Record cfg_ok (c : dsm_config) (pl : placement) : Prop := {
  ck_space : space_ok (dist_of c);
  ck_nodes : numtasks c <= 64;
  ck_cache : 1 <= cachesize c;
  ck_load : 1 <= load_size c < 2 ^ 62;
  ck_windows : 1 <= mpi_windows c;
  ck_size : size_of_all c <= 2 ^ 42;
  ck_pages : (PAGE_SIZE | size_of_all c);
  ck_shares : (PAGE_SIZE | size_per_node (dist_of c));
  ck_wb : 0 <= wb_write_back_size c <= wb_max_size c;
  ck_policy : PlacementLaws (dist_of c) pl;
}.

(** ** Byte-wise merge: what a write-back does *)
Section DiffSpec.

Context (h off : Z) (real copy : Z -> Z).

Let put (m : mem) (start cnt : Z) : mem :=
  mem_write m h (off + start) (real <$> seqZ start cnt).

(** The bytes [i <= j < k] of the page that differ from the copy are replaced. *)
Definition merged (m : mem) (lo hi r a : Z) : Z :=
  if decide (r = h /\ lo <= a - off < hi /\ real (a - off) ≠ copy (a - off))
  then real (a - off) else mget m r a.

Lemma mget_put m start cnt r a :
  0 <= cnt ->
  mget (put m start cnt) r a
  = if decide (r = h /\ start <= a - off < start + cnt) then real (a - off) else mget m r a.
Proof.
  intros Hc. unfold put. rewrite mget_write, length_fmap, length_seqZ.
  destruct (decide (r = h /\ start <= a - off < start + cnt)) as [E|E].
  - rewrite decide_True by lia. unfold byte_at.
    set (k := Z.to_nat (a - (off + start))).
    assert (Hk : seqZ start cnt !! k = Some (a - off)) by (apply lookup_seqZ; lia).
    apply (nth_lookup_Some (real <$> seqZ start cnt) k 0).
    by rewrite list_lookup_fmap, Hk.
  - by rewrite decide_False by lia.
Qed.

(** The pending run ends at [i] and all its bytes differ. *)
Lemma diff_loop_spec todo : forall i cnt m cnt' m',
  0 <= cnt -> (forall j, i - cnt <= j < i -> real j ≠ copy j) ->
  diff_loop real copy put todo i cnt m = (cnt', m') ->
  0 <= cnt' /\
  forall r a, mget (if 0 <? cnt' then put m' (i + Z.of_nat todo - cnt') cnt' else m') r a
              = merged m (i - cnt) (i + Z.of_nat todo) r a.
Proof.
  induction todo as [|todo IH]; intros i cnt m cnt' m' Hc Hrun.
  - simpl. intros [= <- <-]. split; [done|]. intros r a. rewrite Z.add_0_r. unfold merged.
    destruct (Z.ltb_spec 0 cnt) as [Hlt|Hge].
    + rewrite mget_put by lia. destruct (decide (r = h /\ i - cnt <= a - off < i - cnt + cnt)) as [E|E].
      * rewrite decide_True; [done|]. split; [lia|]. split; [lia|]. apply Hrun. lia.
      * rewrite decide_False; [done|]. lia.
    + rewrite decide_False; [done|]. lia.
  - cbn [diff_loop]. destruct (Z.eqb_spec (real i) (copy i)) as [E|E]; cbn [negb].
    + assert (Hskip : forall m r a, merged m (i + 1) (i + Z.of_nat (S todo)) r a
                = merged m i (i + Z.of_nat (S todo)) r a).
      { intros m0 r a. unfold merged. repeat case_decide; try done; exfalso; [lia|].
        destruct (Z.eq_dec (a - off) i) as [Ea|]; [|lia].
        destruct_and!. congruence. }
      destruct (Z.ltb_spec 0 cnt) as [Hlt|Hge]; intros Hd.
      * apply IH in Hd as [H1 H2]; [|lia|intros; lia]. split; [done|]. intros r a.
        replace (i + Z.of_nat (S todo)) with (i + 1 + Z.of_nat todo) by lia.
        rewrite H2, Z.sub_0_r. replace (i + 1 + Z.of_nat todo) with (i + Z.of_nat (S todo)) by lia.
        rewrite Hskip. unfold merged. rewrite mget_put by lia.
        destruct (decide (r = h /\ i - cnt <= a - off < i - cnt + cnt)) as [E1|E1].
        -- rewrite decide_False by lia. rewrite decide_True; [done|].
           split; [lia|]. split; [lia|]. apply Hrun. lia.
        -- repeat case_decide; try done; exfalso; lia.
      * assert (cnt = 0) as -> by lia.
        apply IH in Hd as [H1 H2]; [|lia|intros; lia]. split; [done|]. intros r a.
        replace (i + Z.of_nat (S todo)) with (i + 1 + Z.of_nat todo) by lia.
        rewrite H2, !Z.sub_0_r. replace (i + 1 + Z.of_nat todo) with (i + Z.of_nat (S todo)) by lia.
        apply Hskip.
    + intros Hd. apply IH in Hd as [H1 H2]; [|lia|].
      * split; [done|]. intros r a. replace (i + Z.of_nat (S todo)) with (i + 1 + Z.of_nat todo) by lia.
        rewrite H2. f_equal. lia.
      * intros j Hj. destruct (Z.eq_dec j i) as [->|]; [done|]. apply Hrun. lia.
Qed.

Lemma diff_page_spec m r a :
  mget (diff_page real copy put m) r a
  = if decide (r = h /\ off <= a < off + PAGE_SIZE /\ real (a - off) ≠ copy (a - off))
    then real (a - off) else mget m r a.
Proof.
  unfold diff_page. destruct (diff_loop real copy put (Z.to_nat PAGE_SIZE) 0 0 m) as [cnt m'] eqn:E.
  apply diff_loop_spec in E as [Hc H]; [|lia|intros; lia].
  specialize (H r a). rewrite Z2Nat.id, Z.add_0_l in H by done. rewrite H.
  unfold merged. repeat case_decide; try done; exfalso; lia.
Qed.

End DiffSpec.

(** ** Getters under setters *)
Section Getters.

Context (c : dsm_config) (s : dsm).

Lemma cc_set_cc r i e r' i' :
  cc c (set_cc s r i e) r' i' = if decide (r' = r /\ i' = i) then e else cc c s r' i'.
Proof.
  unfold cc, set_cc; simpl. case_decide as E.
  - destruct E as [-> ->]. by rewrite lookup_insert_eq.
  - rewrite lookup_insert_ne; [done|]. intros [= -> ->]. by apply E.
Qed.
Lemma touched_set_touched r i v r' i' :
  touched (set_touched s r i v) r' i' = if decide (r' = r /\ i' = i) then v else touched s r' i'.
Proof.
  unfold touched, set_touched; simpl. case_decide as E.
  - destruct E as [-> ->]. by rewrite lookup_insert_eq.
  - rewrite lookup_insert_ne; [done|]. intros [= -> ->]. by apply E.
Qed.
Lemma sh_set_sh r i v r' i' :
  sh (set_sh s r i v) r' i' = if decide (r = r' /\ i = i') then v else sh s r' i'.
Proof.
  unfold sh, set_sh; simpl. case_decide as E.
  - destruct E as [-> ->]. by rewrite lookup_insert_eq.
  - rewrite lookup_insert_ne; [done|]. intros [= -> ->]. by apply E.
Qed.
Lemma vmap_set_vmap r p v r' p' :
  vmap (set_vmap s r p v) r' p' = if decide (r' = r /\ p' = p) then v else vmap s r' p'.
Proof.
  unfold vmap, set_vmap; simpl. case_decide as E.
  - destruct E as [-> ->]. by rewrite lookup_insert_eq.
  - rewrite lookup_insert_ne; [done|]. intros [= -> ->]. by apply E.
Qed.
Lemma wb_set_wb r l r' : wb (set_wb s r l) r' = if decide (r' = r) then l else wb s r'.
Proof.
  unfold wb, set_wb; simpl. case_decide as E.
  - subst. by rewrite lookup_insert_eq.
  - by rewrite lookup_insert_ne.
Qed.
Lemma sh_or_sh r i v r' i' :
  sh (or_sh s r i v) r' i' = if decide (r = r' /\ i = i') then Z.lor (sh s r i) v else sh s r' i'.
Proof. apply sh_set_sh. Qed.

End Getters.

(** Skip a setter that does not touch what a getter reads. *)
Ltac inner_state st :=
  lazymatch st with
  | set_cc ?s _ _ _ => s
  | set_touched ?s _ _ _ => s
  | set_sh ?s _ _ _ => s
  | set_cacheData ?s _ => s
  | set_pagecopy ?s _ => s
  | set_globalData ?s _ => s
  | set_vmap ?s _ _ _ => s
  | set_wb ?s _ _ => s
  | count ?s _ _ => s
  end.
Ltac skip_setter :=
  match goal with
  | |- context [cc ?c ?st ?r ?i] =>
      let s := inner_state st in change (cc c st r i) with (cc c s r i)
  | |- context [touched ?st ?r ?i] =>
      let s := inner_state st in change (touched st r i) with (touched s r i)
  | |- context [sh ?st ?r ?i] =>
      let s := inner_state st in change (sh st r i) with (sh s r i)
  | |- context [vmap ?st ?r ?p] =>
      let s := inner_state st in change (vmap st r p) with (vmap s r p)
  | |- context [wb ?st ?r] =>
      let s := inner_state st in change (wb st r) with (wb s r)
  | |- context [cacheData ?st] =>
      let s := inner_state st in change (cacheData st) with (cacheData s)
  | |- context [pagecopy ?st] =>
      let s := inner_state st in change (pagecopy st) with (pagecopy s)
  | |- context [globalData ?st] =>
      let s := inner_state st in change (globalData st) with (globalData s)
  end.

(** Evaluate the getters of an updated state. *)
Ltac dsm_unfold :=
  unfold set_dirty, set_state, set_tag, mprotect, map_memory, or_sh, wb_erase in *;
  cbv zeta in *.
Ltac dsm_get :=
  dsm_unfold;
  repeat first
    [ progress cbn [fst snd cd_state cd_dirty cd_tag]
    | skip_setter
    | rewrite cc_set_cc | rewrite touched_set_touched | rewrite sh_set_sh
    | rewrite vmap_set_vmap | rewrite wb_set_wb ].

(** ** Where pages live *)
Section Pages.

Context (c : dsm_config) (pl : placement) (Hc : cfg_ok c pl).

Abbreviation d := (dist_of c).
Abbreviation N := (numtasks c).

Definition node (r : Z) : Prop := 0 <= r < N.
Definition page (p : Z) : Prop := 0 <= p < size_of_all c /\ p mod PAGE_SIZE = 0.

(** The home node and the offset of a page. *)
Definition home (p : Z) : Z :=
  match get_homenode c pl p with Ok h => h | _ => 0 end.
Definition off (p : Z) : Z :=
  match get_offset c pl p with Ok o => o | _ => 0 end.

Lemma page_bounds p : page p -> 0 <= p /\ p + PAGE_SIZE <= size_of_all c /\ p = p / PAGE_SIZE * PAGE_SIZE.
Proof using Hc.
  intros [Hp Hm]. destruct (ck_pages c pl Hc) as [k Hk].
  pose proof (Z.div_mod p PAGE_SIZE ltac:(done)). unfold PAGE_SIZE in *. lia.
Qed.

Lemma size_bounds : 0 < size_of_all c /\ startAddr c + size_of_all c < 2 ^ 64 /\ 0 <= startAddr c /\ 1 <= N.
Proof using Hc. destruct (ck_space c pl Hc). simpl in *. nia. Qed.

Lemma addr_in_space p : 0 <= p < size_of_all c -> in_space d (add64 p (startAddr c)) /\
  add64 p (startAddr c) = startAddr c + p.
Proof using Hc.
  intros Hp. pose proof size_bounds as (? & ? & ? & ?).
  rewrite add64_small by lia. unfold in_space. simpl. lia.
Qed.

(** The backend's four lookups return what the policy says. *)
Lemma lookups_ok p : page p ->
  get_homenode c pl p = Ok (home p) /\ peek_homenode c pl p = Ok (home p) /\
  get_offset c pl p = Ok (off p) /\ peek_offset c pl p = Ok (off p) /\
  homenode pl (startAddr c + p) = Ok (home p) /\ local_offset pl (startAddr c + p) = Ok (off p) /\
  node (home p) /\ 0 <= off p < size_per_node d.
Proof using Hc.
  intros [Hp _]. destruct (addr_in_space p Hp) as [Hin E]. destruct Hc as [Hsp Hn _ _ _ _ _ _ _ Hpol].
  rewrite E in Hin.
  destruct (pl_home_ok _ Hin) as (h & Eh & Hh). destruct (pl_offset_ok _ Hin) as (o & Eo & Ho).
  destruct (pl_peek (PlacementLaws := Hpol) (startAddr c + p)) as [Ep1 Ep2].
  assert (Hv1 : (h =? invalid_node_id) = false).
  { apply Z.eqb_neq. simpl in Hh. unfold invalid_node_id, UINT_MAX. lia. }
  assert (Hv2 : (o =? invalid_offset) = false).
  { apply Z.eqb_neq. pose proof (spn_le_total _ Hsp). destruct Hsp. unfold invalid_offset, SIZE_MAX. lia. }
  assert (E1 : get_homenode c pl p = Ok h).
  { unfold get_homenode, gp_make, gp_node, with_ptr, the_policy, lift_policy. rewrite E; simpl.
    rewrite Eh; simpl. by rewrite Hv1. }
  assert (E2 : get_offset c pl p = Ok o).
  { unfold get_offset, gp_make, gp_offset, with_ptr, the_policy, lift_policy. rewrite E; simpl.
    rewrite Eo; simpl. by rewrite Hv2. }
  assert (E3 : peek_homenode c pl p = Ok h).
  { unfold peek_homenode, gp_make, gp_peek_node, with_ptr, the_policy, lift_policy. rewrite E; simpl.
    rewrite Ep1, Eh; simpl. by rewrite Hv1. }
  assert (E4 : peek_offset c pl p = Ok o).
  { unfold peek_offset, gp_make, gp_peek_offset, with_ptr, the_policy, lift_policy. rewrite E; simpl.
    rewrite Ep2, Eo; simpl. by rewrite Hv2. }
  unfold home, off. rewrite E1, E2. split_and!; try done; simpl in Hh; try lia; unfold node; lia.
Qed.

Lemma home_node p : page p -> node (home p).
Proof using Hc. intros Hp. by apply lookups_ok in Hp as (_ & _ & _ & _ & _ & _ & H & _). Qed.

(** Bytes of different pages have different places. *)
Lemma place_inj_byte p q j k :
  page p -> page q -> 0 <= j < PAGE_SIZE -> 0 <= k < PAGE_SIZE ->
  home p = home q -> off p + j = off q + k -> p = q /\ j = k.
Proof using Hc.
  intros Hp Hq Hj Hk Eh Eo. pose proof (page_bounds p Hp). pose proof (page_bounds q Hq).
  destruct (lookups_ok p Hp) as (_ & _ & _ & _ & Ehp & Eop & _).
  destruct (lookups_ok q Hq) as (_ & _ & _ & _ & Ehq & Eoq & _).
  pose proof (ck_policy c pl Hc) as Hpol.
  assert (Hin : forall x, page x -> in_space d (startAddr c + x)).
  { intros x [Hx _]. unfold in_space. simpl. lia. }
  assert (Hal : forall x, page x -> (startAddr c + x - start_address d) mod granularity = 0).
  { intros x [_ Hx]. simpl. replace (startAddr c + x - startAddr c) with x by ring. done. }
  destruct (pl_page (startAddr c + p) j _ _ (Hin p Hp) (Hal p Hp) Hj Ehp Eop) as [A1 A2].
  destruct (pl_page (startAddr c + q) k _ _ (Hin q Hq) (Hal q Hq) Hk Ehq Eoq) as [B1 B2].
  assert (E : startAddr c + p + j = startAddr c + q + k).
  { apply (pl_injective (PlacementLaws := Hpol) _ _ (home p) (off p + j)).
    - unfold in_space; simpl. unfold PAGE_SIZE in *. lia.
    - unfold in_space; simpl. unfold PAGE_SIZE in *. lia.
    - done.
    - by rewrite Eh.
    - done.
    - by rewrite Eo. }
  destruct (block_pos_inj PAGE_SIZE (p / PAGE_SIZE) (q / PAGE_SIZE) j k); try done; lia.
Qed.

(** ** Indices *)
Definition cidx (p : Z) : Z := getCacheIndex c p.
Definition cls (p : Z) : Z := get_classification_index c p.

Lemma cidx_range p : 0 <= cidx p < cachesize c.
Proof using Hc. apply Z.mod_pos_bound. pose proof (ck_cache c pl Hc). lia. Qed.

Lemma cls_eq p : page p -> cls p = 2 * (p / PAGE_SIZE) /\ 0 <= cls p /\ cls p + 1 < classificationSize c.
Proof using Hc.
  intros Hp. pose proof (page_bounds p Hp) as (H0 & H1 & H2). pose proof (ck_size c pl Hc).
  destruct (ck_pages c pl Hc) as [k Hk].
  unfold cls, get_classification_index, classificationSize, CACHELINE. rewrite Z.mul_1_r.
  assert (Ek : size_of_all c / PAGE_SIZE = k) by (rewrite Hk; by apply Z.div_mul).
  rewrite Ek. unfold PAGE_SIZE in *.
  assert (0 <= p / 4096 < k) by (split; [apply Z.div_pos; lia|apply Z.div_lt_upper_bound; lia]).
  rewrite mul64_small by lia. rewrite Z.mod_small by lia. lia.
Qed.

Lemma cls_inj p q : page p -> page q -> cls p = cls q -> p = q.
Proof using Hc.
  intros Hp Hq. destruct (cls_eq p Hp) as [-> _], (cls_eq q Hq) as [-> _].
  pose proof (page_bounds p Hp). pose proof (page_bounds q Hq). unfold PAGE_SIZE in *. lia.
Qed.

Lemma cls_parity p q : page p -> page q -> cls p ≠ cls q + 1.
Proof using Hc. intros Hp Hq. destruct (cls_eq p Hp) as [-> _], (cls_eq q Hq) as [-> _]. lia. Qed.

Lemma win_offset p : page p -> get_sharer_win_offset (cls p) = cls p.
Proof using Hc.
  intros Hp. destruct (cls_eq p Hp) as (E & H0 & H1). pose proof (ck_size c pl Hc).
  unfold classificationSize in H1. destruct (ck_pages c pl Hc) as [k Hk].
  rewrite Hk, Z.div_mul in H1 by done. unfold get_sharer_win_offset, to_int.
  assert (cls p < 2 ^ 31) by (unfold PAGE_SIZE in *; lia).
  rewrite (Z.mod_small (cls p)) by lia. destruct (Z.ltb_spec (cls p) (2 ^ 31)); [|lia].
  apply u64_small. lia.
Qed.

(** A page and the pages after it. *)
Lemma page_add p k : page p -> 0 <= k -> p + k * PAGE_SIZE < size_of_all c -> page (p + k * PAGE_SIZE).
Proof using Hc.
  intros Hp Hk Hlt. pose proof (page_bounds p Hp). split; [unfold PAGE_SIZE in *; lia|].
  rewrite Z_mod_plus_full. apply Hp.
Qed.

Lemma cls_add p k : page p -> 0 <= k -> p + k * PAGE_SIZE < size_of_all c ->
  cls (p + k * PAGE_SIZE) = cls p + 2 * k.
Proof using Hc.
  intros Hp Hk Hlt. destruct (cls_eq _ (page_add p k Hp Hk Hlt)) as [-> _].
  destruct (cls_eq p Hp) as [-> _]. rewrite Z.div_add by done. lia.
Qed.

Lemma cidx_add p k : 0 <= k -> cidx p + k < cachesize c -> cidx (p + k * PAGE_SIZE) = cidx p + k.
Proof using Hc.
  intros Hk Hlt. pose proof (cidx_range p) as H. unfold cidx, getCacheIndex in *.
  rewrite Z.div_add by done. rewrite <- Zplus_mod_idemp_l. apply Z.mod_small. lia.
Qed.

End Pages.

#[export] Hint Resolve cidx_range home_node : argo.
