(* ===== verification/SwdsmInv.v ===== *)
(** * The coherence invariant

    What holds between the page tables, the cache slots, the write buffers, the
    Pyxis directories and the bytes of all nodes, and the state changes the
    backend's operations are made of, each of which preserves it. *)

From S2P Require Import Prelude BlockMap DataDistribution FirstTouch GlobalPtr Mem Swdsm SwdsmBase.

(** The protection a slot's page has. *)
Definition slot_prot (e : control_data) : protection :=
  match cd_state e, cd_dirty e with
  | INVALID, _ => PROT_NONE
  | VALID, CLEAN => PROT_READ
  | VALID, DIRTY => PROT_RW
  end.

(** The bytes programs access with loads and stores only: [plain p j] is byte [j]
    of page [p].  Atomic operations go past the caches, so that a copy of a page
    says nothing about the other bytes. *)
Class plain_bytes := plain : Z -> Z -> Prop.

Section Inv.

Context (c : dsm_config) (pl : placement) (Hc : cfg_ok c pl) {PB : plain_bytes}.

Abbreviation node := (node c).
Abbreviation page := (page c).
Abbreviation home := (home c pl).
Abbreviation off := (off c pl).
Abbreviation cidx := (cidx c).
Abbreviation cls := (cls c).
Abbreviation cc := (cc c).

(** Sharers and writers of page [p] as node [r]'s directory has them. *)
Definition shr (s : dsm) (r p : Z) : Z := sh s r (cls p).
Definition wr (s : dsm) (r p : Z) : Z := sh s r (cls p + 1).

(** Node [r] has a valid copy of [p]. *)
Definition holds (s : dsm) (r p : Z) : Prop :=
  cd_tag (cc s r (cidx p)) = p /\ cd_state (cc s r (cidx p)) = VALID.
Definition holds_dirty (s : dsm) (r p : Z) : Prop :=
  holds s r p /\ cd_dirty (cc s r (cidx p)) = DIRTY.
(** No node but [r] is registered as a writer of [p]. *)
Definition sole_writer (s : dsm) (r p : Z) : Prop :=
  forall x, x ≠ r -> has_bit (wr s (home p) p) x = false.

Definition cache_byte (s : dsm) (r p j : Z) : Z := mget (cacheData s) r (cidx p * PAGE_SIZE + j).
Definition copy_byte (s : dsm) (r p j : Z) : Z := mget (pagecopy s) r (cidx p * PAGE_SIZE + j).
Definition home_byte (s : dsm) (p j : Z) : Z := mget (globalData s) (home p) (off p + j).

(** A slot is unused, or it belongs to a remote page that maps to it with the
    slot's protection. *)
Record slot_of (s : dsm) (r idx : Z) : Prop := {
  sl_page : page (cd_tag (cc s r idx));
  sl_idx : cidx (cd_tag (cc s r idx)) = idx;
  sl_remote : home (cd_tag (cc s r idx)) ≠ r;
  sl_map : vmap s r (cd_tag (cc s r idx)) = (BCache idx, slot_prot (cc s r idx));
  sl_clean : cd_state (cc s r idx) = INVALID -> cd_dirty (cc s r idx) = CLEAN;
  sl_touched : cd_state (cc s r idx) = VALID -> touched s r idx ≠ 0;
}.
Definition slot_ok (s : dsm) (r idx : Z) : Prop :=
  (cc s r idx = {| cd_state := INVALID; cd_dirty := CLEAN; cd_tag := GLOBAL_NULL c |} /\
   touched s r idx = 0)
  \/ slot_of s r idx.

(** A page with access is local and registered, or the page of its slot. *)
Definition local_vm_ok (s : dsm) (r p : Z) : Prop :=
  if has_bit (shr s r p) r
  then fst (vmap s r p) = BHome (off p) /\ snd (vmap s r p) ≠ PROT_NONE /\
       (snd (vmap s r p) = PROT_RW -> has_bit (wr s r p) r = true)
  else snd (vmap s r p) = PROT_NONE.
Definition remote_vm_ok (s : dsm) (r p : Z) : Prop :=
  snd (vmap s r p) ≠ PROT_NONE -> cd_tag (cc s r (cidx p)) = p.

(** The dirty slots are the buffered ones; [pend] are slots about to be added. *)
Record wb_ok (pend : Z -> Z -> Prop) (s : dsm) (r : Z) : Prop := {
  wk_nodup : NoDup (wb s r);
  wk_dirty i : i ∈ wb s r <->
    (0 <= i < cachesize c /\ cd_dirty (cc s r i) = DIRTY /\ ~ pend r i);
}.

(** The directories of all nodes for one page. *)
Record dir_sh_ok (s : dsm) (p : Z) : Prop := {
  dk_mask r : node r -> mask_of (numtasks c) (shr s r p) /\ mask_of (numtasks c) (wr s r p);
  (** the home node knows every sharer and every writer *)
  dk_sharer r : node r -> has_bit (shr s r p) r = true -> has_bit (shr s (home p) p) r = true;
  dk_writer r x : node r -> has_bit (wr s r p) x = true -> has_bit (wr s (home p) p) x = true;
  (** a sharer knows some other writer, if there is one *)
  dk_aware r x : node r -> has_bit (shr s r p) r = true ->
    has_bit (wr s (home p) p) x = true -> x ≠ r ->
    exists y, y ≠ r /\ has_bit (wr s r p) y = true;
  (** the home node is a sharer of the pages it writes *)
  dk_own : has_bit (wr s (home p) p) (home p) = true -> has_bit (shr s (home p) p) (home p) = true;
}.

(** Every node but [r] sees another writer of [p] in the home directory. *)
Definition write_visible (s : dsm) (r p : Z) : Prop :=
  forall x, x ≠ r -> exists y, y ≠ x /\ has_bit (wr s (home p) p) y = true.

Record dir_ok (s : dsm) (p : Z) : Prop := {
  dk_sh : dir_sh_ok s p;
  dk_holder r : node r -> holds s r p -> has_bit (shr s r p) r = true;
  dk_dirty r : node r -> holds_dirty s r p -> write_visible s r p;
}.

(** With no other writer, a clean copy is the home data and a modified page's
    twin is, up to the bytes atomic operations change. *)
Definition data_ok (s : dsm) (r p : Z) : Prop :=
  forall j, 0 <= j < PAGE_SIZE -> plain p j ->
  match cd_dirty (cc s r (cidx p)) with
  | CLEAN => cache_byte s r p j = home_byte s p j
  | DIRTY => copy_byte s r p j = home_byte s p j
  end.

Record inv_pend (pend : Z -> Z -> Prop) (s : dsm) : Prop := {
  iv_slot r idx : node r -> 0 <= idx < cachesize c -> slot_ok s r idx;
  iv_local r p : node r -> page p -> home p = r -> local_vm_ok s r p;
  iv_remote r p : node r -> page p -> home p ≠ r -> remote_vm_ok s r p;
  iv_wb r : node r -> wb_ok pend s r;
  iv_dir p : page p -> dir_ok s p;
  iv_data r p : node r -> page p -> holds s r p -> sole_writer s r p -> data_ok s r p;
}.
Definition no_pend (_ _ : Z) : Prop := False.
Definition inv : dsm -> Prop := inv_pend no_pend.

(** ** Equivalent states

    The invariant sees a state only through its getters. *)
Record dsm_equiv (s s' : dsm) : Prop := {
  eqv_cc r i : cc s' r i = cc s r i;
  eqv_touched r i : touched s' r i = touched s r i;
  eqv_sh r i : sh s' r i = sh s r i;
  eqv_cache r a : mget (cacheData s') r a = mget (cacheData s) r a;
  eqv_copy r a : mget (pagecopy s') r a = mget (pagecopy s) r a;
  eqv_home r a : mget (globalData s') r a = mget (globalData s) r a;
  eqv_vm r p : vmap s' r p = vmap s r p;
  eqv_wb r : wb s' r = wb s r;
}.

#[export] Instance dsm_equiv_equivalence : Equivalence dsm_equiv.
Proof.
  split.
  - split; done.
  - intros s s' []; split; done.
  - intros s1 s2 s3 [] []; split; intros; etransitivity; eauto.
Qed.

Lemma slot_of_equiv s s' r idx :
  cc s' r idx = cc s r idx ->
  vmap s' r (cd_tag (cc s r idx)) = vmap s r (cd_tag (cc s r idx)) ->
  touched s' r idx = touched s r idx -> slot_of s r idx -> slot_of s' r idx.
Proof. intros E1 E2 E3 []. split; rewrite ?E1, ?E2, ?E3; done. Qed.

Lemma slot_ok_equiv s s' r idx :
  cc s' r idx = cc s r idx ->
  (slot_of s r idx ->
   vmap s' r (cd_tag (cc s r idx)) = vmap s r (cd_tag (cc s r idx))) ->
  touched s' r idx = touched s r idx -> slot_ok s r idx -> slot_ok s' r idx.
Proof.
  intros E1 E2 E3 [[H H']|H]; [left; split; congruence|right].
  apply (slot_of_equiv s); auto.
Qed.

Lemma dir_sh_equiv s s' p :
  (forall r, node r -> shr s' r p = shr s r p) -> (forall r, node r -> wr s' r p = wr s r p) ->
  page p -> dir_sh_ok s p -> dir_sh_ok s' p.
Proof using Hc.
  intros Es Ew Hp [A B C D]. pose proof (home_node c pl Hc p Hp) as Hhn.
  split; intros; rewrite ?Es, ?Ew in * by done; eauto.
Qed.

(** The directory part depends on the directories and on who holds the page. *)
Lemma dir_ok_equiv s s' p :
  (forall r, node r -> shr s' r p = shr s r p) -> (forall r, node r -> wr s' r p = wr s r p) ->
  (forall r, node r -> holds s' r p -> holds s r p) ->
  (forall r, node r -> holds_dirty s' r p -> holds_dirty s r p) ->
  page p -> dir_ok s p -> dir_ok s' p.
Proof using Hc.
  intros Es Ew Hh Hd Hp [A B C]. pose proof (home_node c pl Hc p Hp) as Hhn.
  split; [by apply (dir_sh_equiv s)| |].
  - intros r Hr H. rewrite Es by done. auto.
  - intros r Hr H x Hx. destruct (C r Hr (Hd r Hr H) x Hx) as (y & Hy & Hb).
    exists y. by rewrite Ew.
Qed.

(** Changing only bytes and buffers. *)
Lemma inv_frame pend pend' s s' :
  inv_pend pend s ->
  (forall r i, cc s' r i = cc s r i) -> (forall r i, touched s' r i = touched s r i) ->
  (forall r i, sh s' r i = sh s r i) -> (forall r p, vmap s' r p = vmap s r p) ->
  (forall r, node r -> wb_ok pend' s' r) ->
  (forall r p, node r -> page p -> holds s r p -> sole_writer s r p -> data_ok s' r p) ->
  inv_pend pend' s'.
Proof using Hc.
  intros [A B C D F G] E1 E2 E3 E7 HW HD.
  assert (Hh : forall r p, holds s' r p -> holds s r p) by (unfold holds; intros; rewrite <- E1; done).
  split.
  - intros r idx Hr Hi. apply (slot_ok_equiv s); auto.
  - intros r p Hr Hp Hr'. unfold local_vm_ok, shr, wr. rewrite E3, E7, E3. by apply B.
  - intros r p Hr Hp Hr'. unfold remote_vm_ok. rewrite E7, E1. by apply C.
  - done.
  - intros p Hp. apply (dir_ok_equiv s); [intros; apply E3|intros; apply E3|auto| |done|by apply F].
    unfold holds_dirty. intros r Hr [H1 H2]. rewrite E1 in H2. auto.
  - intros r p Hr Hp H1 H2. apply HD; auto. intros x Hx. unfold wr. rewrite <- E3. by apply H2.
Qed.

#[export] Instance inv_proper pend : Proper (dsm_equiv ==> iff) (inv_pend pend).
Proof using Hc.
  assert (H : forall s s', dsm_equiv s s' -> inv_pend pend s -> inv_pend pend s').
  { intros s s' [E1 E2 E3 E4 E5 E6 E7 E8] Hi. apply (inv_frame pend pend s s'); try done.
    - intros r Hr. destruct (iv_wb _ _ Hi r Hr) as [W1 W2]. split; [by rewrite E8|].
      intros i. rewrite E8, E1. apply W2.
    - intros r p Hr Hp H1 H2 j Hj. unfold cache_byte, copy_byte, home_byte.
      rewrite E1, E4, E5, E6. by apply (iv_data _ _ Hi). }
  intros s s' E. split; apply H; done.
Qed.

(** ** Reading the invariant *)
Lemma not_null p : page p -> p ≠ GLOBAL_NULL c.
Proof. intros [Hp _]. unfold GLOBAL_NULL. lia. Qed.

Lemma slot_of_tag s r idx :
  slot_ok s r idx -> cd_tag (cc s r idx) ≠ GLOBAL_NULL c -> slot_of s r idx.
Proof. intros [[E _]|H] Hne; [|done]. by rewrite E in Hne. Qed.

Lemma slot_of_valid s r idx : slot_ok s r idx -> cd_state (cc s r idx) = VALID -> slot_of s r idx.
Proof. intros [[E _]|H] Hne; [|done]. by rewrite E in Hne. Qed.

Lemma slot_of_dirty s r idx : slot_ok s r idx -> cd_dirty (cc s r idx) = DIRTY ->
  slot_of s r idx /\ cd_state (cc s r idx) = VALID.
Proof.
  intros [[E _]|H] Hne; [by rewrite E in Hne|]. split; [done|].
  destruct (cd_state (cc s r idx)) eqn:E; [|done]. by rewrite (sl_clean _ _ _ H E) in Hne.
Qed.

Section Reading.

Context (pend : Z -> Z -> Prop) (s : dsm) (Hi : inv_pend pend s).

Lemma holds_slot r p : node r -> page p -> holds s r p -> slot_of s r (cidx p).
Proof using Hi Hc.
  intros Hr Hp [Ht Hv]. apply slot_of_valid; [|done].
  apply (iv_slot _ _ Hi); [done|]. by eauto with argo.
Qed.

Lemma holds_remote r p : node r -> page p -> holds s r p -> home p ≠ r.
Proof using Hi Hc.
  intros Hr Hp Hh. pose proof (holds_slot r p Hr Hp Hh) as [_ _ H _ _ _].
  destruct Hh as [Ht _]. by rewrite Ht in H.
Qed.

(** A remote page with access is held. *)
Lemma access_holds r p :
  node r -> page p -> home p ≠ r -> snd (vmap s r p) ≠ PROT_NONE ->
  holds s r p /\ vmap s r p = (BCache (cidx p), slot_prot (cc s r (cidx p))).
Proof using Hi Hc.
  intros Hr Hp Hrem Hacc. pose proof (iv_remote _ _ Hi r p Hr Hp Hrem Hacc) as Ht.
  assert (Hs : slot_of s r (cidx p)).
  { apply slot_of_tag; [|rewrite Ht; by apply not_null].
    apply (iv_slot _ _ Hi); [done|]. by eauto with argo. }
  pose proof (sl_map _ _ _ Hs) as Hm. rewrite Ht in Hm. split; [|done]. split; [done|].
  rewrite Hm in Hacc. unfold slot_prot in Hacc. simpl in Hacc.
  by destruct (cd_state (cc s r (cidx p))).
Qed.

End Reading.

Lemma inv_init : inv dsm_reset.
Proof using Hc.
  split.
  - intros r idx _ _. by left.
  - intros r p _ _ _. unfold local_vm_ok.
    by assert (has_bit (shr dsm_reset r p) r = false) as -> by apply Z.bits_0.
  - intros r p _ _ _ H. by destruct H.
  - intros r _. split; [apply NoDup_nil_2|]. intros i. split; [by intros ?%elem_of_nil|].
    intros (_ & H & _). done.
  - intros p _. split; [split|..].
    + intros r _. split; apply mask_of_0.
    + intros r _ H. unfold has_bit, shr in H. by rewrite Z.bits_0 in H.
    + intros r x _ H. unfold has_bit, wr in H. by rewrite Z.bits_0 in H.
    + intros r x _ H. unfold has_bit, shr in H. by rewrite Z.bits_0 in H.
    + intros H. unfold has_bit, wr in H. by rewrite Z.bits_0 in H.
    + intros r _ [_ H]. done.
    + intros r _ [[_ H] _]. done.
  - intros r p _ _ [_ H]. done.
Qed.

(** ** Writing a page back *)
Lemma storepageDIFF_spec s r p :
  page p -> fst (vmap s r p) = BCache (cidx p) -> snd (vmap s r p) ≠ PROT_NONE ->
  exists m, storepageDIFF c pl s r (cidx p) p = Ok (count (set_globalData s m) r c_write_misses) /\
  forall x a, mget m x a =
    if decide (x = home p /\ off p <= a < off p + PAGE_SIZE /\
               cache_byte s r p (a - off p) ≠ copy_byte s r p (a - off p))
    then cache_byte s r p (a - off p) else mget (globalData s) x a.
Proof using Hc.
  intros Hp Hb Hacc. destruct (lookups_ok c pl Hc p Hp) as (E1 & _ & E2 & _).
  unfold storepageDIFF. rewrite E1, E2. cbn [mbind outcome_bind].
  assert (mapped s r p = Ok (BCache (cidx p))) as ->.
  { unfold mapped. destruct (vmap s r p) as [b []]; simpl in *; by subst. }
  cbn [mbind outcome_bind]. eexists. split; [reflexivity|]. intros x a.
  unfold get_data_win_offset. apply diff_page_spec.
Qed.

(** After the merge, the page's home bytes are the cached ones wherever they
    differ from the twin, and no other page's home bytes have changed. *)
Lemma merged_bytes s s' r p :
  page p ->
  (forall x a, mget (globalData s') x a =
    if decide (x = home p /\ off p <= a < off p + PAGE_SIZE /\
               cache_byte s r p (a - off p) ≠ copy_byte s r p (a - off p))
    then cache_byte s r p (a - off p) else mget (globalData s) x a) ->
  (forall j, 0 <= j < PAGE_SIZE -> home_byte s' p j =
     if decide (cache_byte s r p j = copy_byte s r p j) then home_byte s p j else cache_byte s r p j) /\
  (forall q j, page q -> q ≠ p -> 0 <= j < PAGE_SIZE -> home_byte s' q j = home_byte s q j).
Proof using Hc.
  intros Hp Hm. split.
  - intros j Hj. unfold home_byte. rewrite Hm. replace (off p + j - off p) with j by ring.
    repeat case_decide; try done; exfalso; intuition lia.
  - intros q j Hq Hne Hj. unfold home_byte. rewrite Hm, decide_False; [done|].
    intros (E & Ha & _). apply Hne.
    destruct (place_inj_byte c pl Hc q p j (off q + j - off p)); try done; lia.
Qed.

(** The state change of a write-back: the slot becomes clean and readable, the
    page is merged into its home, the slot leaves the buffer. *)
Record wrote_back (s s' : dsm) (r idx : Z) : Prop := {
  wt_cc x i : cc s' x i = if decide (x = r /\ i = idx)
    then {| cd_state := VALID; cd_dirty := CLEAN; cd_tag := cd_tag (cc s r idx) |} else cc s x i;
  wt_touched x i : touched s' x i = touched s x i;
  wt_sh x i : sh s' x i = sh s x i;
  wt_cache : cacheData s' = cacheData s;
  wt_copy : pagecopy s' = pagecopy s;
  wt_home x a : mget (globalData s') x a =
    let p := cd_tag (cc s r idx) in
    if decide (x = home p /\ off p <= a < off p + PAGE_SIZE /\
               cache_byte s r p (a - off p) ≠ copy_byte s r p (a - off p))
    then cache_byte s r p (a - off p) else mget (globalData s) x a;
  wt_vm x p : vmap s' x p = if decide (x = r /\ p = cd_tag (cc s r idx))
    then (BCache idx, PROT_READ) else vmap s x p;
  wt_wb x : x ≠ r -> wb s' x = wb s x;
  wt_wb_nodup : NoDup (wb s' r);
  wt_wb_elem i : i ∈ wb s' r <-> i ∈ wb s r /\ i ≠ idx;
}.

Lemma inv_wrote_back pend s s' r idx :
  inv_pend pend s -> node r -> 0 <= idx < cachesize c -> cd_dirty (cc s r idx) = DIRTY ->
  wrote_back s s' r idx -> inv_pend pend s'.
Proof using Hc.
  intros Hi Hr Hidx Hdirty [Ecc Et Es Ec Ep Eh Ev Ew Wn We].
  destruct (slot_of_dirty s r idx (iv_slot _ _ Hi r idx Hr Hidx) Hdirty) as [Hslot Hval].
  set (p := cd_tag (cc s r idx)) in *. destruct Hslot as [Hp Hpi Hrem Hmap _ Htch]. fold p in Hp, Hpi, Hrem, Hmap.
  assert (Hholds : forall x q, holds s' x q <-> holds s x q).
  { intros x q. unfold holds. rewrite Ecc. case_decide as E; [|done].
    destruct E as [-> E]. rewrite E. simpl. fold p. by rewrite Hval. }
  destruct (merged_bytes s s' r p Hp Eh) as [Hbp Hbq].
  assert (Hhd : forall x q, holds_dirty s' x q -> holds_dirty s x q).
  { intros x q [H1 H2]. split; [by apply Hholds|]. rewrite Ecc in H2. by case_decide. }
  split.
  - intros x i Hx Hxi. destruct (decide (x = r /\ i = idx)) as [[-> ->]|Hne].
    + right. assert (E : cc s' r idx = ControlData VALID CLEAN p) by (by rewrite Ecc, decide_True).
      split; rewrite E; simpl; try done.
      * by rewrite Ev, decide_True.
      * intros _. rewrite Et. auto.
    + apply (slot_ok_equiv s); [by rewrite Ecc, decide_False| |done|by apply (iv_slot _ _ Hi)].
      intros Hsl. rewrite Ev, decide_False; [done|]. intros [-> E]. apply Hne. split; [done|].
      pose proof (sl_idx _ _ _ Hsl) as E2. congruence.
  - intros x q Hx Hq Hloc. pose proof (iv_local _ _ Hi x q Hx Hq Hloc) as H.
    unfold local_vm_ok, shr, wr in *. rewrite Es, Es, Ev, decide_False; [done|].
    intros [-> ->]. congruence.
  - intros x q Hx Hq Hloc. unfold remote_vm_ok. rewrite Ev, Ecc.
    destruct (decide (x = r /\ q = p)) as [[-> ->]|Hne].
    + intros _. by rewrite Hpi, decide_True.
    + intros Hacc. pose proof (iv_remote _ _ Hi x q Hx Hq Hloc Hacc) as Ht.
      destruct (decide (x = r /\ cidx q = idx)) as [[-> E]|]; [|done]. simpl. by rewrite E in Ht.
  - intros x Hx. destruct (iv_wb _ _ Hi x Hx) as [W1 W2]. destruct (decide (x = r)) as [->|Hne].
    + split; [done|]. intros i. rewrite We, W2, Ecc. destruct (decide (r = r /\ i = idx)) as [[_ ->]|E].
      * simpl. split; [by intros [_ ?]|by intros (_ & ? & _)].
      * intuition congruence.
    + split; [by rewrite Ew|]. intros i. rewrite Ew by done. rewrite W2, Ecc, decide_False by tauto. done.
  - intros q Hq. apply (dir_ok_equiv s); [intros; apply Es|intros; apply Es| | |done|by apply (iv_dir _ _ Hi)].
    + intros x _. by apply Hholds.
    + intros x _. apply Hhd.
  - intros x q Hx Hq Hh%Hholds Hsole. assert (Hsole' : sole_writer s x q).
    { intros y Hy. specialize (Hsole y Hy). unfold wr in *. by rewrite Es in Hsole. }
    pose proof (iv_data _ _ Hi x q Hx Hq Hh Hsole') as Hd. intros j Hj Hpl. specialize (Hd j Hj Hpl).
    unfold cache_byte, copy_byte in *. rewrite Ec, Ep, Ecc.
    destruct (decide (q = p)) as [->|Hne].
    + destruct (decide (x = r)) as [->|Hxr].
      * rewrite Hpi, decide_True by done. simpl. rewrite Hpi, Hdirty in Hd. rewrite (Hbp j Hj).
        unfold cache_byte, copy_byte. rewrite Hpi. case_decide; congruence.
      * exfalso. assert (Hdp : holds_dirty s r p) by (unfold holds_dirty, holds; by rewrite Hpi).
        destruct (dk_dirty s p (iv_dir _ _ Hi p Hp) r Hr Hdp x Hxr) as (y & Hy & Hby).
        by rewrite Hsole' in Hby.
    + rewrite (Hbq q j Hq Hne Hj). case_decide as E; [|done]. exfalso.
      destruct E as [-> E]. destruct Hh as [Ht _]. rewrite E in Ht. done.
Qed.

(** ** Dropping or retagging a clean slot *)
Record retired (s s' : dsm) (r idx t : Z) : Prop := {
  rt_cc x i : cc s' x i = if decide (x = r /\ i = idx)
    then {| cd_state := INVALID; cd_dirty := CLEAN; cd_tag := t |} else cc s x i;
  rt_touched x i : ~ (x = r /\ i = idx) -> touched s' x i = touched s x i;
  rt_sh x i : sh s' x i = sh s x i;
  rt_cache : cacheData s' = cacheData s;
  rt_copy : pagecopy s' = pagecopy s;
  rt_home x a : mget (globalData s') x a = mget (globalData s) x a;
  rt_vm x p : vmap s' x p =
    if decide (x = r /\ p = t) then (BCache idx, PROT_NONE)
    else if decide (x = r /\ p = cd_tag (cc s r idx)) then (fst (vmap s x p), PROT_NONE)
    else vmap s x p;
  rt_wb x : wb s' x = wb s x;
}.

Lemma inv_retired pend s s' r idx t :
  inv_pend pend s -> node r -> 0 <= idx < cachesize c -> cd_dirty (cc s r idx) = CLEAN ->
  slot_of s r idx -> page t -> cidx t = idx -> home t ≠ r ->
  retired s s' r idx t -> inv_pend pend s'.
Proof using Hc.
  intros Hi Hr Hidx Hclean Hslot Ht Hti Htr [Ecc Et Es Ec Ep Eh Ev Ew].
  set (p := cd_tag (cc s r idx)) in *. destruct Hslot as [Hp Hpi Hrem Hmap _ _].
  fold p in Hp, Hpi, Hrem, Hmap.
  assert (Hholds : forall x q, holds s' x q -> holds s x q /\ ~ (x = r /\ cidx q = idx)).
  { intros x q. unfold holds. rewrite Ecc. case_decide as E; [by intros [_ ?]|]. by intros. }
  split.
  - intros x i Hx Hxi. destruct (decide (x = r /\ i = idx)) as [[-> ->]|Hne].
    + right. assert (E : cc s' r idx = ControlData INVALID CLEAN t) by (by rewrite Ecc, decide_True).
      split; rewrite E; simpl; try done. by rewrite Ev, decide_True.
    + apply (slot_ok_equiv s); [by rewrite Ecc, decide_False| |by apply Et|by apply (iv_slot _ _ Hi)].
      intros Hsl. pose proof (sl_idx _ _ _ Hsl) as E2.
      rewrite Ev, !decide_False; [done|..]; intros [-> E]; apply Hne; (split; [done|congruence]).
  - intros x q Hx Hq Hloc. pose proof (iv_local _ _ Hi x q Hx Hq Hloc) as H.
    unfold local_vm_ok, shr, wr in *. rewrite Es, Es, Ev, !decide_False; [done|..];
      intros [-> ->]; congruence.
  - intros x q Hx Hq Hloc. unfold remote_vm_ok. rewrite Ev, Ecc.
    case_decide as E1; [done|]. case_decide as E2; [done|]. intros Hacc.
    pose proof (iv_remote _ _ Hi x q Hx Hq Hloc Hacc) as Htg.
    rewrite decide_False; [done|]. intros [-> E]. apply E2. split; [done|]. unfold p. by rewrite <- E.
  - intros x Hx. destruct (iv_wb _ _ Hi x Hx) as [W1 W2]. split; [by rewrite Ew|].
    intros i. rewrite Ew, W2, Ecc. case_decide as E; [|done]. destruct E as [-> ->].
    rewrite Hclean. simpl. done.
  - intros q Hq. apply (dir_ok_equiv s); [intros; apply Es|intros; apply Es| | |done|by apply (iv_dir _ _ Hi)].
    + intros x _ H. by apply Hholds.
    + intros x _ [H1 H2]. apply Hholds in H1 as [H1 Hne]. split; [done|].
      by rewrite Ecc, decide_False in H2.
  - intros x q Hx Hq [Hh Hne]%Hholds Hsole j Hj Hpl. assert (Hsole' : sole_writer s x q).
    { intros y Hy. specialize (Hsole y Hy). unfold wr in *. by rewrite Es in Hsole. }
    pose proof (iv_data _ _ Hi x q Hx Hq Hh Hsole' j Hj Hpl) as Hd.
    unfold cache_byte, copy_byte, home_byte in *. rewrite Ec, Ep, Eh, Ecc, decide_False by done. done.
Qed.

(** ** Directory updates *)
Record same_but_sh (s s' : dsm) : Prop := {
  sb_cc : cacheControl s' = cacheControl s;
  sb_touched : touchedcache s' = touchedcache s;
  sb_cache : cacheData s' = cacheData s;
  sb_copy : pagecopy s' = pagecopy s;
  sb_home : globalData s' = globalData s;
  sb_vm : vmem s' = vmem s;
  sb_wb : wbuf s' = wbuf s;
}.

#[export] Instance same_but_sh_preorder : PreOrder same_but_sh.
Proof. split; [split; done|]. intros s1 s2 s3 [] []; split; congruence. Qed.

(** The directories stay well formed, sharers and writers are only added. *)
Record dir_step (s s' : dsm) : Prop := {
  dt_ok q : page q -> dir_sh_ok s' q;
  dt_sharer r q : node r -> page q -> has_bit (shr s r q) r = true -> has_bit (shr s' r q) r = true;
  dt_writer q x : page q -> has_bit (wr s (home q) q) x = true -> has_bit (wr s' (home q) q) x = true;
}.

Lemma dir_step_trans s1 s2 s3 : dir_step s1 s2 -> dir_step s2 s3 -> dir_step s1 s3.
Proof. intros [A1 B1 C1] [A2 B2 C2]. split; auto. Qed.

Lemma write_visible_step s s' r p :
  page p -> dir_step s s' -> write_visible s r p -> write_visible s' r p.
Proof.
  intros Hp Hs Hv x Hx. destruct (Hv x Hx) as (y & Hy & Hb). exists y. split; [done|].
  by apply (dt_writer _ _ Hs).
Qed.

(** A local page's own sharer bit must not change under its mapping. *)
Definition local_bits_kept (s s' : dsm) (except : Z -> Prop) : Prop :=
  forall q, page q -> ~ except q -> has_bit (shr s' (home q) q) (home q) = has_bit (shr s (home q) q) (home q).

Lemma inv_dir_step pend s s' :
  inv_pend pend s -> same_but_sh s s' -> dir_step s s' ->
  local_bits_kept s s' (fun _ => False) -> inv_pend pend s'.
Proof using Hc.
  intros Hi [E1 E2 E3 E4 E5 E6 E7] Hd Hk.
  assert (Ecc : forall x i, cc s' x i = cc s x i) by (intros; unfold Swdsm.cc; by rewrite E1).
  assert (Ev : forall x p, vmap s' x p = vmap s x p) by (intros; unfold vmap; by rewrite E6).
  assert (Ew : forall x, wb s' x = wb s x) by (intros; unfold wb; by rewrite E7).
  assert (Et : forall x i, touched s' x i = touched s x i) by (intros; unfold touched; by rewrite E2).
  assert (Hh : forall x q, holds s' x q -> holds s x q) by (unfold holds; intros x q; by rewrite Ecc).
  split.
  - intros x i Hx Hi'. apply (slot_ok_equiv s); auto. by apply (iv_slot _ _ Hi).
  - intros x q Hx Hq Hloc. pose proof (iv_local _ _ Hi x q Hx Hq Hloc) as H. subst x.
    unfold local_vm_ok in *. rewrite (Hk q Hq) by tauto. rewrite Ev.
    destruct (has_bit (shr s (home q) q) (home q)); [|done].
    destruct H as (H1 & H2 & H3). split_and!; try done. intros H4. apply (dt_writer _ _ Hd); auto.
  - intros x q Hx Hq Hloc. unfold remote_vm_ok. rewrite Ev, Ecc. by apply (iv_remote _ _ Hi).
  - intros x Hx. destruct (iv_wb _ _ Hi x Hx) as [W1 W2]. split; [by rewrite Ew|].
    intros i. rewrite Ew, Ecc. apply W2.
  - intros q Hq. destruct (iv_dir _ _ Hi q Hq) as [D1 D2 D3]. split; [by apply Hd| |].
    + intros x Hx H. apply (dt_sharer _ _ Hd); auto.
    + intros x Hx [H1 H2]. apply (write_visible_step s); [done|done|]. apply D3; [done|].
      split; [auto|]. by rewrite Ecc in H2.
  - intros x q Hx Hq H1 Hsole j Hj Hpl. unfold cache_byte, copy_byte, home_byte. rewrite Ecc, E3, E4, E5.
    apply (iv_data _ _ Hi x q Hx Hq (Hh _ _ H1)); [|done|done].
    intros y Hy. destruct (has_bit (wr s (home q) q) y) eqn:E; [|done].
    apply (dt_writer _ _ Hd q y Hq) in E. by rewrite Hsole in E.
Qed.

(** ** Filling a slot *)
Record filled (s s' : dsm) (r idx p : Z) : Prop := {
  fl_cc x i : cc s' x i = if decide (x = r /\ i = idx)
    then {| cd_state := VALID; cd_dirty := CLEAN; cd_tag := p |} else cc s x i;
  fl_touched x i : touched s' x i = if decide (x = r /\ i = idx) then 1 else touched s x i;
  fl_sh x i : sh s' x i = sh s x i;
  fl_cache x a : ~ (x = r /\ idx * PAGE_SIZE <= a < idx * PAGE_SIZE + PAGE_SIZE) ->
    mget (cacheData s') x a = mget (cacheData s) x a;
  fl_data j : 0 <= j < PAGE_SIZE -> cache_byte s' r p j = home_byte s p j;
  fl_copy : pagecopy s' = pagecopy s;
  fl_home : globalData s' = globalData s;
  fl_vm x q : vmap s' x q = if decide (x = r /\ q = p) then (BCache idx, PROT_READ) else vmap s x q;
  fl_wb x : wb s' x = wb s x;
}.

Lemma slot_bytes_disjoint i k j : i ≠ k -> 0 <= j < PAGE_SIZE ->
  ~ (k * PAGE_SIZE <= i * PAGE_SIZE + j < k * PAGE_SIZE + PAGE_SIZE).
Proof. unfold PAGE_SIZE. lia. Qed.

Lemma inv_filled pend s s' r idx p :
  inv_pend pend s -> node r -> page p -> cidx p = idx -> home p ≠ r ->
  cd_dirty (cc s r idx) = CLEAN ->
  cd_tag (cc s r idx) = p \/ cd_tag (cc s r idx) = GLOBAL_NULL c ->
  has_bit (shr s r p) r = true -> filled s s' r idx p -> inv_pend pend s'.
Proof using Hc.
  intros Hi Hr Hp Hpi Hrem Hclean Htag Hbit [Ecc Et Es Ec Ed Ep Eh Ev Ew].
  assert (Hidx : 0 <= idx < cachesize c) by (rewrite <- Hpi; by eauto with argo).
  assert (Hholds : forall x q, page q -> holds s' x q -> (x = r /\ q = p) \/ (holds s x q /\ ~ (x = r /\ cidx q = idx))).
  { intros x q Hq. unfold holds. rewrite Ecc. case_decide as E; [|by right].
    simpl. intros [<- _]. left. split; [apply E|done]. }
  assert (Hhd : forall x q, page q -> holds_dirty s' x q -> holds_dirty s x q).
  { intros x q Hq [H1 H2]. destruct (Hholds x q Hq H1) as [[-> ->]|[H3 H4]].
    - by rewrite Ecc, decide_True in H2.
    - split; [done|]. by rewrite Ecc, decide_False in H2. }
  split.
  - intros x i Hx Hxi. destruct (decide (x = r /\ i = idx)) as [[-> ->]|Hne].
    + right. assert (E : cc s' r idx = ControlData VALID CLEAN p) by (by rewrite Ecc, decide_True).
      split; rewrite E; simpl; try done.
      * by rewrite Ev, decide_True.
      * intros _. by rewrite Et, decide_True.
    + apply (slot_ok_equiv s); [by rewrite Ecc, decide_False| |by rewrite Et, decide_False|by apply (iv_slot _ _ Hi)].
      intros Hsl. pose proof (sl_idx _ _ _ Hsl) as E2.
      rewrite Ev, decide_False; [done|]. intros [-> E]. apply Hne. split; [done|congruence].
  - intros x q Hx Hq Hloc. pose proof (iv_local _ _ Hi x q Hx Hq Hloc) as H.
    unfold local_vm_ok, shr, wr in *. rewrite Es, Es, Ev, decide_False; [done|]. intros [-> ->]; congruence.
  - intros x q Hx Hq Hloc. unfold remote_vm_ok. rewrite Ev, Ecc. case_decide as E1.
    { destruct E1 as [-> ->]. intros _. by rewrite decide_True. }
    intros Hacc. pose proof (iv_remote _ _ Hi x q Hx Hq Hloc Hacc) as Htg.
    rewrite decide_False; [done|]. intros [-> E]. rewrite E in Htg.
    destruct Htag as [Htag|Htag]; rewrite Htag in Htg; [by apply E1|].
    by apply (not_null q Hq).
  - intros x Hx. destruct (iv_wb _ _ Hi x Hx) as [W1 W2]. split; [by rewrite Ew|].
    intros i. rewrite Ew, W2, Ecc. case_decide as E; [|done]. destruct E as [-> ->].
    rewrite Hclean. simpl. done.
  - intros q Hq. destruct (iv_dir _ _ Hi q Hq) as [D1 D2 D3]. split.
    + by apply (dir_sh_equiv s); [intros; apply Es|intros; apply Es| |].
    + intros x Hx H. unfold shr. rewrite Es.
      destruct (Hholds x q Hq H) as [[-> ->]|[H1 _]]; [done|by apply D2].
    + intros x Hx H y Hy. unfold wr. rewrite Es. by apply (D3 x Hx (Hhd x q Hq H)).
  - intros x q Hx Hq Hh Hsole j Hj Hpl. unfold home_byte. rewrite Eh. fold (home_byte s q j).
    destruct (Hholds x q Hq Hh) as [[-> ->]|[H1 Hne]].
    + rewrite Ecc, decide_True by done. simpl. by apply Ed.
    + assert (Hsole' : sole_writer s x q).
      { intros y Hy. specialize (Hsole y Hy). unfold wr in *. by rewrite Es in Hsole. }
      pose proof (iv_data _ _ Hi x q Hx Hq H1 Hsole' j Hj Hpl) as Hd.
      rewrite Ecc, decide_False by done. unfold copy_byte, cache_byte in *. rewrite Ep, Ec; [done|].
      intros [-> E]. apply (slot_bytes_disjoint (cidx q) idx j); [|done|done]. intros E2. by apply Hne.
Qed.

(** ** Making a held page writable *)
Record dirtied (s s' : dsm) (r p : Z) : Prop := {
  dy_cc x i : cc s' x i = if decide (x = r /\ i = cidx p)
    then {| cd_state := VALID; cd_dirty := DIRTY; cd_tag := p |} else cc s x i;
  dy_touched x i : touched s' x i = if decide (x = r /\ i = cidx p) then 1 else touched s x i;
  dy_sh x i : sh s' x i = sh s x i;
  dy_cache : cacheData s' = cacheData s;
  dy_copy x a : ~ (x = r /\ cidx p * PAGE_SIZE <= a < cidx p * PAGE_SIZE + PAGE_SIZE) ->
    mget (pagecopy s') x a = mget (pagecopy s) x a;
  dy_twin j : 0 <= j < PAGE_SIZE -> copy_byte s' r p j = cache_byte s r p j;
  dy_home : globalData s' = globalData s;
  dy_vm x q : vmap s' x q = if decide (x = r /\ q = p) then (BCache (cidx p), PROT_RW) else vmap s x q;
  dy_wb x : wb s' x = wb s x;
}.

(** One more pending slot. *)
Definition pend_add (pend : Z -> Z -> Prop) (r idx : Z) : Z -> Z -> Prop := fun x i => pend x i \/ (x = r /\ i = idx).

Lemma inv_dirtied {pend} s s' r p :
  inv_pend pend s -> node r -> page p -> holds s r p -> cd_dirty (cc s r (cidx p)) = CLEAN ->
  write_visible s r p -> dirtied s s' r p -> inv_pend (pend_add pend r (cidx p)) s'.
Proof using Hc.
  intros Hi Hr Hp Hh Hclean Hvis [Ecc Et Es Ec Ep Ed Eh Ev Ew].
  pose proof (holds_slot _ s Hi r p Hr Hp Hh) as Hslot.
  pose proof (holds_remote _ s Hi r p Hr Hp Hh) as Hrem. pose proof Hh as [Htag Hval].
  assert (Hholds : forall x q, holds s' x q -> holds s x q).
  { intros x q. unfold holds. rewrite Ecc. case_decide as E; [|done].
    destruct E as [-> ->]. simpl. intros [<- _]. done. }
  split.
  - intros x i Hx Hxi. destruct (decide (x = r /\ i = cidx p)) as [[-> ->]|Hne].
    + right. assert (E : cc s' r (cidx p) = ControlData VALID DIRTY p) by (by rewrite Ecc, decide_True).
      split; rewrite E; simpl; try done.
      * by rewrite Ev, decide_True.
      * intros _. by rewrite Et, decide_True.
    + apply (slot_ok_equiv s); [by rewrite Ecc, decide_False| |by rewrite Et, decide_False|by apply (iv_slot _ _ Hi)].
      intros Hsl. pose proof (sl_idx _ _ _ Hsl) as E2.
      rewrite Ev, decide_False; [done|]. intros [-> E]. apply Hne. split; [done|congruence].
  - intros x q Hx Hq Hloc. pose proof (iv_local _ _ Hi x q Hx Hq Hloc) as H.
    unfold local_vm_ok, shr, wr in *. rewrite Es, Es, Ev, decide_False; [done|]. intros [-> ->]; congruence.
  - intros x q Hx Hq Hloc. unfold remote_vm_ok. rewrite Ev, Ecc. case_decide as E1.
    { destruct E1 as [-> ->]. intros _. by rewrite decide_True. }
    intros Hacc. pose proof (iv_remote _ _ Hi x q Hx Hq Hloc Hacc) as Htg.
    rewrite decide_False; [done|]. intros [-> E]. apply E1. split; [done|]. by rewrite E, Htag in Htg.
  - intros x Hx. destruct (iv_wb _ _ Hi x Hx) as [W1 W2]. split; [by rewrite Ew|].
    intros i. rewrite Ew, W2, Ecc. unfold pend_add. case_decide as E.
    + destruct E as [-> ->]. rewrite Hclean. simpl. intuition congruence.
    + tauto.
  - intros q Hq. destruct (iv_dir _ _ Hi q Hq) as [D1 D2 D3]. split.
    + by apply (dir_sh_equiv s); [intros; apply Es|intros; apply Es| |].
    + intros x Hx H. unfold shr. rewrite Es. apply D2; auto.
    + intros x Hx [H1 H2] y Hy. unfold wr. rewrite Es. rewrite Ecc in H2.
      destruct (decide (x = r /\ cidx q = cidx p)) as [[-> E]|E].
      * assert (q = p) as ->; [|by apply Hvis]. apply Hholds in H1 as [Hq1 _]. by rewrite E, Htag in Hq1.
      * apply (D3 x Hx); [|done]. split; [auto|done].
  - intros x q Hx Hq H1 Hsole j Hj Hpl. unfold home_byte. rewrite Eh. fold (home_byte s q j).
    assert (Hsole' : sole_writer s x q).
    { intros y Hy. specialize (Hsole y Hy). unfold wr in *. by rewrite Es in Hsole. }
    pose proof (iv_data _ _ Hi x q Hx Hq (Hholds _ _ H1) Hsole' j Hj Hpl) as Hd. rewrite Ecc.
    destruct (decide (x = r /\ cidx q = cidx p)) as [[-> E]|E]; cbn [cd_dirty].
    + assert (q = p) as ->; [apply Hholds in H1 as [Hq1 _]; by rewrite E, Htag in Hq1|].
      rewrite Hclean in Hd. by rewrite Ed.
    + unfold copy_byte, cache_byte in *. rewrite Ec, Ep; [done|].
      intros [-> E2]. apply (slot_bytes_disjoint (cidx q) (cidx p) j); [|done|done].
      intros E3. by apply E.
Qed.

(** Adding the pending slot to the buffer. *)
Lemma inv_buffered {pend} s r idx k :
  node r -> 0 <= idx < cachesize c -> cd_dirty (cc s r idx) = DIRTY -> ~ pend r idx ->
  inv_pend (pend_add pend r idx) s -> inv_pend pend (count (set_wb s r (wb s r ++ [idx])) r k).
Proof using Hc.
  intros Hr Hidx Hd Hnp Hi. apply (inv_frame (pend_add pend r idx) _ s); try done; [|apply (iv_data _ _ Hi)].
  intros x Hx. destruct (iv_wb _ _ Hi x Hx) as [W1 W2]. unfold pend_add in W2. split.
  - dsm_get. case_decide as Ex; [|done]. subst x. apply NoDup_app. split; [done|]. split.
    + intros i H ->%list_elem_of_singleton. apply W2 in H. tauto.
    + apply NoDup_singleton.
  - intros i. dsm_get. case_decide as Ex.
    + subst x. rewrite elem_of_app, list_elem_of_singleton, W2.
      split; [intros [?| ->]; tauto|]. intros (H1 & H2 & H3).
      destruct (decide (i = idx)); [by right|left; tauto].
    + rewrite W2. split; [tauto|]. intros (H1 & H2 & H3). split; [done|]. split; [done|].
      intros [? | [? _]]; congruence.
Qed.

(** ** Stores *)
Lemma inv_store_cached {pend} s r p j v :
  inv_pend pend s -> node r -> page p -> holds_dirty s r p -> 0 <= j < PAGE_SIZE ->
  inv_pend pend (set_cacheData s (mput (cacheData s) r (cidx p * PAGE_SIZE + j) v)).
Proof using Hc.
  intros Hi Hr Hp [[Ht Hv] Hd] Hj. apply (inv_frame pend _ s); try done.
  { intros x Hx. destruct (iv_wb _ _ Hi x Hx). by split. }
  intros x q Hx Hq Hh Hs k Hk Hpl. pose proof (iv_data _ _ Hi x q Hx Hq Hh Hs k Hk Hpl) as F.
  change (Swdsm.cc c (set_cacheData s _) x (cidx q)) with (cc s x (cidx q)).
  destruct (cd_dirty (cc s x (cidx q))) eqn:Ed; [|done].
  unfold cache_byte, home_byte in *. simpl. rewrite mget_mput, decide_False; [done|].
  intros [<- Ea]. destruct (decide (cidx q = cidx p)) as [Ei|Hne].
  - rewrite Ei in Ed. congruence.
  - apply (slot_bytes_disjoint (cidx q) (cidx p) k); [done|done|]. unfold PAGE_SIZE in *. lia.
Qed.

Lemma inv_store_home {pend} s r p j v :
  inv_pend pend s -> node r -> page p -> home p = r -> snd (vmap s r p) = PROT_RW -> 0 <= j < PAGE_SIZE ->
  inv_pend pend (set_globalData s (mput (globalData s) r (off p + j) v)).
Proof using Hc.
  intros Hi Hr Hp Hloc Hrw Hj. pose proof (iv_local _ _ Hi r p Hr Hp Hloc) as Hvm.
  unfold local_vm_ok in Hvm. rewrite Hrw in Hvm. destruct (has_bit (shr s r p) r); [|done].
  destruct Hvm as (_ & _ & Hw). specialize (Hw eq_refl).
  apply (inv_frame pend _ s); try done.
  { intros x Hx. destruct (iv_wb _ _ Hi x Hx). by split. }
  intros x q Hx Hq Hh Hs k Hk Hpl. pose proof (iv_data _ _ Hi x q Hx Hq Hh Hs k Hk Hpl) as F.
  change (Swdsm.cc c (set_globalData s _) x (cidx q)) with (cc s x (cidx q)).
  assert (home_byte (set_globalData s (mput (globalData s) r (off p + j) v)) q k = home_byte s q k) as ->;
    [|done].
  unfold home_byte. simpl. rewrite mget_mput, decide_False; [done|]. intros [Eh Eo].
  destruct (place_inj_byte c pl Hc q p k j Hq Hp Hk Hj) as [-> _]; [congruence|done|].
  pose proof (holds_remote _ s Hi x p Hx Hp Hh) as Hrem.
  assert (Hb : has_bit (wr s (home p) p) r = false) by (apply Hs; congruence).
  rewrite Hloc in Hb. congruence.
Qed.

(** ** Opening a local page *)
Record opened (s s' : dsm) (r p : Z) (pr : protection) : Prop := {
  op_cc x i : cc s' x i = cc s x i;
  op_touched x i : touched s' x i = touched s x i;
  op_cache : cacheData s' = cacheData s;
  op_copy : pagecopy s' = pagecopy s;
  op_home : globalData s' = globalData s;
  op_vm x q : vmap s' x q = if decide (x = r /\ q = p) then (BHome (off p), pr) else vmap s x q;
  op_wb x : wb s' x = wb s x;
  op_dir : dir_step s s';
  op_kept : local_bits_kept s s' (fun q => q = p);
  op_prot : pr ≠ PROT_NONE;
  op_sharer : has_bit (shr s' r p) r = true;
  op_writer : pr = PROT_RW -> has_bit (wr s' r p) r = true;
}.

Lemma inv_opened {pend} s s' r p pr :
  inv_pend pend s -> node r -> page p -> home p = r -> opened s s' r p pr -> inv_pend pend s'.
Proof using Hc.
  intros Hi Hr Hp Hloc [Ecc Et E3 E4 E5 Ev Ew Hd Hk Hpr Hsh Hwr].
  assert (Hh : forall x q, holds s' x q -> holds s x q) by (unfold holds; intros x q; by rewrite Ecc).
  split.
  - intros x i Hx Hxi. apply (slot_ok_equiv s); auto; [|by apply (iv_slot _ _ Hi)].
    intros Hsl. rewrite Ev, decide_False; [done|]. intros [-> E].
    pose proof (sl_remote _ _ _ Hsl). congruence.
  - intros x q Hx Hq Hl. unfold local_vm_ok. rewrite Ev. destruct (decide (x = r /\ q = p)) as [[-> ->]|Hne].
    + rewrite Hsh. done.
    + pose proof (iv_local _ _ Hi x q Hx Hq Hl) as H. subst x. unfold local_vm_ok in H.
      assert (q ≠ p) by (intros ->; by apply Hne). rewrite (Hk q Hq) by done.
      destruct (has_bit (shr s (home q) q) (home q)); [|done].
      destruct H as (H1 & H2 & H3). split_and!; try done. intros H4. apply (dt_writer _ _ Hd); auto.
  - intros x q Hx Hq Hl. unfold remote_vm_ok. rewrite Ev, Ecc, decide_False; [by apply (iv_remote _ _ Hi)|].
    intros [-> ->]. done.
  - intros x Hx. destruct (iv_wb _ _ Hi x Hx) as [W1 W2]. split; [by rewrite Ew|].
    intros i. rewrite Ew, Ecc. apply W2.
  - intros q Hq. destruct (iv_dir _ _ Hi q Hq) as [D1 D2 D3]. split; [by apply Hd| |].
    + intros x Hx H. apply (dt_sharer _ _ Hd); auto.
    + intros x Hx [H1 H2]. apply (write_visible_step s); [done|done|]. apply D3; [done|].
      split; [auto|]. by rewrite Ecc in H2.
  - intros x q Hx Hq H1 Hsole j Hj Hpl. unfold cache_byte, copy_byte, home_byte. rewrite Ecc, E3, E4, E5.
    apply (iv_data _ _ Hi x q Hx Hq (Hh _ _ H1)); [|done|done].
    intros y Hy. destruct (has_bit (wr s (home q) q) y) eqn:E; [|done].
    apply (dt_writer _ _ Hd q y Hq) in E. by rewrite Hsole in E.
Qed.

End Inv.

(** Fewer plain bytes make a weaker invariant. *)
Lemma inv_plain c pl (PB PB' : plain_bytes) s :
  (forall p j, page c p -> 0 <= j < PAGE_SIZE -> PB' p j -> PB p j) -> inv c pl (PB := PB) s -> inv c pl (PB := PB') s.
Proof.
  intros Hsub [A B C D E F]. split; try done. intros r p Hr Hp Hh Hs j Hj Hpl. apply (F r p Hr Hp Hh Hs j Hj). by apply Hsub.
Qed.
