(* ===== verification/SwdsmDir.v ===== *)
(** * Directory operations

    Registering a sharer, merging the home node's entry, notifying a previous
    owner and registering a writer, as steps that keep the directories of all
    nodes consistent ([dir_step]). *)

From S2P Require Import Prelude BlockMap DataDistribution FirstTouch GlobalPtr Mem Swdsm SwdsmBase SwdsmInv.

Lemma sh_or_range vs : forall s x disp y i,
  sh (or_range s x disp vs) y i
  = if decide (y = x /\ disp <= i < disp + Z.of_nat (length vs))
    then Z.lor (sh s x i) (vec 0 vs (i - disp)) else sh s y i.
Proof.
  induction vs as [|v vs IH]; intros s x disp y i; simpl or_range.
  - rewrite decide_False; [done|]. simpl. lia.
  - rewrite IH, !sh_or_sh. unfold vec. simpl length.
    destruct (decide (y = x /\ disp + 1 <= i < disp + 1 + Z.of_nat (length vs))) as [E|E].
    + rewrite (decide_False (P := x = x /\ disp = i)) by lia. rewrite decide_True by lia.
      replace (Z.to_nat (i - disp)) with (S (Z.to_nat (i - (disp + 1)))) by lia. done.
    + destruct (decide (x = y /\ disp = i)) as [[-> ->]|E2].
      * rewrite decide_True by lia. by rewrite Z.sub_diag.
      * by rewrite decide_False by lia.
Qed.

Lemma or_sh_same s x i v : same_but_sh s (or_sh s x i v).
Proof. split; done. Qed.

Lemma or_range_same vs : forall s x disp, same_but_sh s (or_range s x disp vs).
Proof.
  induction vs as [|v vs IH]; intros s x disp; [reflexivity|]. simpl.
  etransitivity; [apply or_sh_same|apply IH].
Qed.

Lemma node_bit_inj n m : 0 <= n -> 0 <= m -> node_bit n = node_bit m -> n = m.
Proof.
  intros Hn Hm E. assert (H : has_bit (node_bit m) n = true).
  { rewrite <- E. rewrite node_bit_spec by done. by apply bool_decide_eq_true. }
  rewrite node_bit_spec in H by done. by apply bool_decide_eq_true in H.
Qed.

Lemma find_rank_bit c n : 0 <= n < numtasks c -> find_rank c (node_bit n) = Some n.
Proof.
  intros Hn. unfold find_rank. destruct (find _ _) as [m|] eqn:E.
  - apply find_some in E as [H1 H2%Z.eqb_eq]. f_equal. apply node_bit_inj; [|lia|done].
    apply list_elem_of_In, elem_of_seqZ in H1. lia.
  - assert (H : In n (seqZ 0 (numtasks c))) by (apply list_elem_of_In, elem_of_seqZ; lia).
    pose proof (find_none _ _ E n H) as Hb.
    simpl in Hb. by rewrite Z.eqb_refl in Hb.
Qed.

(** Testing a single bit with a mask. *)
Lemma land_bit x n : 0 <= n ->
  Z.land x (node_bit n) = if has_bit x n then node_bit n else 0.
Proof.
  intros Hn. apply mask_ext. intros i Hi. rewrite has_bit_land, node_bit_spec by done.
  destruct (bool_decide_reflect (i = n)) as [->|Hne].
  - rewrite andb_true_r. destruct (has_bit x n); [|symmetry; apply Z.bits_0].
    rewrite node_bit_spec by done. symmetry. by apply bool_decide_eq_true.
  - rewrite andb_false_r. destruct (has_bit x n); [|symmetry; apply Z.bits_0].
    rewrite node_bit_spec by done. symmetry. by apply bool_decide_eq_false.
Qed.

Lemma node_bit_pos n : 0 <= n -> 0 < node_bit n.
Proof. intros Hn. unfold node_bit. rewrite Z.shiftl_mul_pow2 by done. lia. Qed.

Lemma land_bit_zero x n : 0 <= n -> (Z.land x (node_bit n) =? 0) = negb (has_bit x n).
Proof.
  intros Hn. rewrite land_bit by done. pose proof (node_bit_pos n Hn).
  destruct (has_bit x n); simpl; [apply Z.eqb_neq; lia|done].
Qed.

Lemma land_bit_id x n : 0 <= n -> (Z.land x (node_bit n) =? node_bit n) = has_bit x n.
Proof.
  intros Hn. rewrite land_bit by done. pose proof (node_bit_pos n Hn).
  destruct (has_bit x n); cbn [negb]; [apply Z.eqb_refl|apply Z.eqb_neq; lia].
Qed.

Section Dir.

Context (c : dsm_config) (pl : placement) (Hc : cfg_ok c pl) {PB : plain_bytes}.

Abbreviation N := (numtasks c).
Abbreviation node := (node c).
Abbreviation page := (page c).
Abbreviation home := (home c pl).
Abbreviation cls := (cls c).
Abbreviation shr := (shr c).
Abbreviation wr := (wr c).
Abbreviation dir_sh_ok := (dir_sh_ok c pl).
Abbreviation dir_step := (dir_step c pl).
Abbreviation local_bits_kept := (local_bits_kept c pl).

Lemma node_lt_64 r : node r -> 0 <= r < 64.
Proof using Hc. intros Hr. pose proof (ck_nodes c pl Hc). unfold SwdsmBase.node in Hr. lia. Qed.

Lemma has_bit_or_node x r i : 0 <= r ->
  has_bit (Z.lor x (node_bit r)) i = has_bit x i || bool_decide (i = r).
Proof. intros Hr. by rewrite has_bit_lor, node_bit_spec. Qed.

(** ** Telling a node about a sharer *)
Definition noted (s s' : dsm) (x r : Z) : Prop := forall y q, page q ->
  wr s' y q = wr s y q /\
  (shr s' y q = shr s y q \/ (y = x /\ shr s' y q = Z.lor (shr s y q) (node_bit r))).

Lemma noted_refl s x r : noted s s x r.
Proof. intros y q Hq. split; [done|by left]. Qed.

Lemma noted_bit s s' x r y q i :
  0 <= r -> noted s s' x r -> page q -> i ≠ r -> has_bit (shr s' y q) i = has_bit (shr s y q) i.
Proof.
  intros Hr Hn Hq Hi. destruct (Hn y q Hq) as [_ [->|[_ ->]]]; [done|].
  rewrite has_bit_or_node by done. rewrite bool_decide_false by done. apply orb_false_r.
Qed.

Lemma noted_mono s s' x r y q i :
  0 <= r -> noted s s' x r -> page q -> has_bit (shr s y q) i = true -> has_bit (shr s' y q) i = true.
Proof.
  intros Hr Hn Hq Hb. destruct (Hn y q Hq) as [_ [->|[_ ->]]]; [done|].
  rewrite has_bit_or_node by done. by rewrite Hb.
Qed.

(** The own bit of a node does not change when others are told. *)
Lemma noted_own s s' x r y q :
  0 <= r -> x ≠ r -> noted s s' x r -> page q -> has_bit (shr s' y q) y = has_bit (shr s y q) y.
Proof.
  intros Hr Hx Hn Hq. destruct (Hn y q Hq) as [_ [->|[-> ->]]]; [done|].
  rewrite has_bit_or_node by done. rewrite bool_decide_false by done. apply orb_false_r.
Qed.

Lemma noted_dir_step s s' x r :
  node r -> x ≠ r -> noted s s' x r -> (forall q, page q -> dir_sh_ok s q) -> dir_step s s'.
Proof using Hc.
  intros Hr Hx Hn Hd. pose proof (node_lt_64 r Hr) as Hr64.
  assert (Hw : forall y q, page q -> wr s' y q = wr s y q) by (intros y q Hq; by apply Hn).
  split.
  - intros q Hq. destruct (Hd q Hq) as [A B C D F]. split.
    + intros y Hy. rewrite Hw by done. destruct (A y Hy) as [A1 A2]. split; [|done].
      destruct (Hn y q Hq) as [_ [->|[_ ->]]]; [done|]. apply mask_of_lor; [done|].
      by apply mask_of_bit.
    + intros y Hy Hb. rewrite (noted_own s s' x r) in Hb by (done || lia).
      apply (noted_mono s s' x r); [lia|done|done|]. by apply B.
    + intros y z Hy. rewrite !Hw by done. by apply C.
    + intros y z Hy Hb. rewrite !Hw by done. rewrite (noted_own s s' x r) in Hb by (done || lia).
      by apply D.
    + rewrite Hw, (noted_own s s' x r) by (done || lia). exact F.
  - intros y q Hy Hq. rewrite (noted_own s s' x r) by (done || lia). done.
  - intros q z Hq. by rewrite Hw.
Qed.

Lemma noted_kept s s' x r : 0 <= r -> x ≠ r -> noted s s' x r -> local_bits_kept s s' (fun _ => False).
Proof. intros Hr Hx Hn q Hq _. by apply (noted_own s s' x r). Qed.

(** ** Merging the home node's entry into the local directory *)
Definition merge_entry (s : dsm) (r p v w : Z) : dsm :=
  or_sh (or_sh (or_sh s r (cls p) v) r (cls p) (node_bit r)) r (cls p + 1) w.

Lemma merge_entry_shr s r p v w y q :
  page p -> page q ->
  shr (merge_entry s r p v w) y q
  = if decide (y = r /\ q = p) then Z.lor (Z.lor (shr s r p) v) (node_bit r) else shr s y q.
Proof using Hc.
  intros Hp Hq. unfold merge_entry, SwdsmInv.shr. rewrite !sh_or_sh.
  pose proof (cls_parity c pl Hc q p Hq Hp).
  rewrite (decide_False (P := r = y /\ cls p + 1 = cls q)) by lia.
  rewrite (decide_True (P := r = r /\ cls p = cls p)) by done.
  destruct (decide (y = r /\ q = p)) as [[-> ->]|Hne]; [by rewrite decide_True|].
  assert (~ (r = y /\ cls p = cls q)).
  { intros [-> E]. apply Hne. split; [done|]. symmetry. by apply (cls_inj c pl Hc). }
  by rewrite !decide_False.
Qed.

Lemma merge_entry_wr s r p v w y q :
  page p -> page q ->
  wr (merge_entry s r p v w) y q
  = if decide (y = r /\ q = p) then Z.lor (wr s r p) w else wr s y q.
Proof using Hc.
  intros Hp Hq. unfold merge_entry, SwdsmInv.wr. rewrite !sh_or_sh.
  pose proof (cls_parity c pl Hc p q Hp Hq). pose proof (cls_parity c pl Hc p p Hp Hp).
  rewrite (decide_False (P := r = y /\ cls p = cls q + 1)) by lia.
  rewrite (decide_False (P := r = y /\ cls p = cls q + 1)) by lia.
  rewrite (decide_False (P := r = r /\ cls p = cls p + 1)) by lia.
  rewrite (decide_False (P := r = r /\ cls p = cls p + 1)) by lia.
  destruct (decide (y = r /\ q = p)) as [[-> ->]|Hne]; [by rewrite decide_True|].
  rewrite decide_False; [done|].
  intros [-> E]. apply Hne. split; [done|]. symmetry. apply (cls_inj c pl Hc); [done|done|lia].
Qed.

Lemma merge_entry_step s r p v w :
  node r -> page p -> home p ≠ r -> (forall q, page q -> dir_sh_ok s q) ->
  mask_of N v -> mask_of N w -> has_bit (shr s (home p) p) r = true ->
  (forall x, has_bit w x = true -> has_bit (wr s (home p) p) x = true) ->
  (has_bit (shr s r p) r = true \/
   forall x, has_bit (wr s (home p) p) x = true -> has_bit w x = true) ->
  dir_step s (merge_entry s r p v w) /\
  local_bits_kept s (merge_entry s r p v w) (fun _ => False) /\
  has_bit (shr (merge_entry s r p v w) r p) r = true.
Proof using Hc.
  intros Hr Hp Hrem Hd Hv Hwm Hreg Hw Hcov. pose proof (node_lt_64 r Hr) as Hr64.
  set (s' := merge_entry s r p v w).
  assert (Es : forall y q, page q -> shr s' y q = if decide (y = r /\ q = p)
             then Z.lor (Z.lor (shr s r p) v) (node_bit r) else shr s y q)
    by (intros; by apply merge_entry_shr).
  assert (Ew : forall y q, page q -> wr s' y q = if decide (y = r /\ q = p)
             then Z.lor (wr s r p) w else wr s y q) by (intros; by apply merge_entry_wr).
  assert (Hhome : forall q, page q -> shr s' (home q) q = shr s (home q) q /\
            wr s' (home q) q = wr s (home q) q).
  { intros q Hq. rewrite Es, Ew by done.
    rewrite !decide_False; [done|..]; intros [E ->]; congruence. }
  assert (Hself : has_bit (shr s' r p) r = true).
  { rewrite Es, decide_True, has_bit_or_node by (done || lia). rewrite bool_decide_true by done.
    apply orb_true_r. }
  split; [|split]; [|intros q Hq _; by destruct (Hhome q Hq) as [-> _]|done].
  split.
  - intros q Hq. destruct (Hd q Hq) as [A B C D F]. destruct (Hhome q Hq) as [E1 E2]. split.
    + intros y Hy. rewrite Es, Ew by done. destruct (A y Hy). case_decide as E; [|done].
      destruct E as [-> ->]. split; repeat apply mask_of_lor; try done. by apply mask_of_bit.
    + intros y Hy. rewrite E1, Es by done. case_decide as E; [|by apply B].
      destruct E as [-> ->]. done.
    + intros y z Hy. rewrite E2, Ew by done. case_decide as E; [|by apply C].
      destruct E as [-> ->]. rewrite has_bit_lor. intros [H|H]%orb_true_iff; [by apply (C r)|auto].
    + intros y z Hy. rewrite E2, Es, Ew by done. case_decide as E; [|by apply D].
      destruct E as [-> ->]. intros _ Hz Hne. destruct Hcov as [Hold|Hcov].
      * destruct (D r z Hr Hold Hz Hne) as (k & Hk & Hb). exists k. split; [done|].
        by rewrite has_bit_lor, Hb.
      * exists z. split; [done|]. rewrite has_bit_lor, (Hcov z Hz). apply orb_true_r.
    + by rewrite E1, E2.
  - intros y q Hy Hq Hb. rewrite Es by done. case_decide as E; [|done]. destruct E as [-> ->].
    rewrite !has_bit_lor, Hb. done.
  - intros q z Hq Hz. destruct (Hhome q Hq) as [_ ->]. done.
Qed.

(** ** Registering a writer *)
Record writer_added (s s' : dsm) (r p : Z) : Prop := {
  wa_sharers y q : page q -> has_bit (shr s' y q) y = has_bit (shr s y q) y;
  wa_home_sharers q i : page q -> has_bit (shr s (home q) q) i = true ->
    has_bit (shr s' (home q) q) i = true;
  wa_mask y q : node y -> page q -> mask_of N (shr s' y q);
  wa_other y q : page q -> q ≠ p -> wr s' y q = wr s y q;
  wa_writers y : wr s' y p = wr s y p \/ wr s' y p = Z.lor (wr s y p) (node_bit r);
  wa_home : has_bit (wr s' (home p) p) r = true;
  wa_self : has_bit (shr s r p) r = true;
  wa_told y : node y -> y ≠ r -> has_bit (shr s y p) y = true ->
    has_bit (wr s' y p) r = true \/ exists o, o ≠ y /\ has_bit (wr s y p) o = true;
}.

Lemma writer_added_step s s' r p :
  node r -> page p -> (forall q, page q -> dir_sh_ok s q) -> writer_added s s' r p ->
  dir_step s s' /\ local_bits_kept s s' (fun _ => False) /\ write_visible c pl s' r p.
Proof using Hc.
  intros Hr Hp Hd [A B M O W H Sf T]. pose proof (node_lt_64 r Hr) as Hr64.
  assert (Hmono : forall y q i, page q -> has_bit (wr s y q) i = true -> has_bit (wr s' y q) i = true).
  { intros y q i Hq Hb. destruct (decide (q = p)) as [->|Hne]; [|by rewrite O].
    destruct (W y) as [->| ->]; [done|]. by rewrite has_bit_lor, Hb. }
  assert (Hnew : forall y q i, page q -> has_bit (wr s' y q) i = true ->
            has_bit (wr s y q) i = true \/ (q = p /\ i = r)).
  { intros y q i Hq. destruct (decide (q = p)) as [->|Hne]; [|rewrite O by done; auto].
    destruct (W y) as [->| ->]; [auto|]. rewrite has_bit_or_node by lia.
    intros [?|?%bool_decide_eq_true]%orb_true_iff; auto. }
  split; [|split].
  - split.
    + intros q Hq. destruct (Hd q Hq) as [D1 D2 D3 D4 D5]. split.
      * intros y Hy. destruct (D1 y Hy) as [M1 M2]. split; [auto|].
        destruct (decide (q = p)) as [->|Hne]; [|by rewrite O].
        destruct (W y) as [->| ->]; [done|]. apply mask_of_lor; [done|by apply mask_of_bit].
      * intros y Hy. rewrite A by done. intros Hb. by apply B, D2.
      * intros y x Hy Hb. destruct (Hnew y q x Hq Hb) as [Hb'|[-> ->]]; [|done].
        apply Hmono; [done|]. by apply (D3 y).
      * intros y x Hy Hb Hx Hne. rewrite A in Hb by done.
        destruct (Hnew _ q x Hq Hx) as [Hx'|[-> ->]].
        -- destruct (D4 y x Hy Hb Hx' Hne) as (z & Hz & Hbz). exists z. split; [done|by apply Hmono].
        -- destruct (T y Hy) as [Ht|(o & Ho & Hbo)]; [done|done|by exists r|].
           exists o. split; [done|by apply Hmono].
      * intros Hb. rewrite A by done. destruct (Hnew _ q _ Hq Hb) as [Hb'|[-> ->]]; [by apply D5|done].
    + intros y q Hy Hq. by rewrite A.
    + intros q x Hq. by apply Hmono.
  - intros q Hq _. by apply A.
  - intros x Hx. by exists r.
Qed.

(** Adding one bit to one directory entry of some nodes. *)
Definition told (s s' : dsm) (k r : Z) : Prop :=
  same_but_sh s s' /\
  forall y i, sh s' y i = sh s y i \/ (i = k /\ sh s' y i = Z.lor (sh s y i) (node_bit r)).

Lemma told_trans s1 s2 s3 k r : told s1 s2 k r -> told s2 s3 k r -> told s1 s3 k r.
Proof.
  intros [A1 B1] [A2 B2]. split; [by transitivity s2|]. intros y i.
  destruct (B2 y i) as [E2|[Ei E2]], (B1 y i) as [E1|[E0 E1]]; rewrite E2, E1; auto.
  right. split; [done|]. by rewrite <- Z.lor_assoc, Z.lor_diag.
Qed.

Lemma told_one s x k r : told s (or_sh s x k (node_bit r)) k r.
Proof.
  split; [apply or_sh_same|]. intros y i. rewrite sh_or_sh.
  case_decide as E; [|by left]. destruct E as [-> ->]. by right.
Qed.

Lemma told_keeps s s' k r y i b : told s s' k r -> has_bit (sh s y i) b = true -> has_bit (sh s' y i) b = true.
Proof. intros [_ H] Hb. destruct (H y i) as [->|[_ ->]]; [done|]. by rewrite has_bit_lor, Hb. Qed.

Lemma tell_all_spec l : forall s r k sharers,
  node r -> let s' := foldl (fun s n =>
      if negb (n =? r) && negb (Z.land (node_bit n) sharers =? 0)
      then or_sh s n k (node_bit r) else s) s l in
  told s s' k r /\
  forall y, y ∈ l -> 0 <= y -> y ≠ r -> has_bit sharers y = true -> has_bit (sh s' y k) r = true.
Proof using Hc.
  induction l as [|n l IH]; intros s r k sharers Hr.
  - simpl. split; [split; [reflexivity|by left]|]. by intros y ?%elem_of_nil.
  - cbn [foldl]. pose proof (node_lt_64 r Hr) as Hr64.
    set (s1 := if negb (n =? r) && negb (Z.land (node_bit n) sharers =? 0)
               then or_sh s n k (node_bit r) else s).
    assert (H1 : told s s1 k r).
    { unfold s1. destruct (_ && _); [apply told_one|]. split; [reflexivity|by left]. }
    destruct (IH s1 r k sharers Hr) as [H2 H3]. split; [by apply (told_trans _ s1)|].
    intros y Hy Hy0 Hne Hb. apply elem_of_cons in Hy as [->|Hy]; [|by apply H3].
    apply (told_keeps s1 _ k r); [done|]. unfold s1.
    assert ((Z.land (node_bit n) sharers =? 0) = false) as ->.
    { rewrite Z.land_comm, land_bit_zero by done. by rewrite Hb. }
    assert ((n =? r) = false) as -> by (by apply Z.eqb_neq). simpl.
    rewrite sh_or_sh, decide_True by done. rewrite has_bit_or_node by lia.
    rewrite bool_decide_true by done. apply orb_true_r.
Qed.

(** The writers other than [r]. *)
Lemma others_bit writers r i : mask_of N writers -> node r ->
  has_bit (Z.land writers (inv_bit r)) i = has_bit writers i && negb (bool_decide (i = r)).
Proof using Hc.
  intros Hm Hr. pose proof (ck_nodes c pl Hc). apply (land_inv_bit N); [done|done|].
  by apply node_lt_64.
Qed.

Lemma only_self writers r : mask_of N writers -> node r ->
  Z.land writers (inv_bit r) = 0 -> writers = node_bit r \/ writers = 0.
Proof using Hc.
  intros Hm Hr E. rewrite mask_zero in E. pose proof (node_lt_64 r Hr).
  destruct (has_bit writers r) eqn:Hb; [left|right].
  - apply mask_ext. intros i Hi. rewrite node_bit_spec by lia. specialize (E i Hi).
    rewrite others_bit in E by done. destruct (bool_decide_reflect (i = r)) as [Ei|Ei]; [by subst|].
    by rewrite andb_true_r in E.
  - apply mask_zero. intros i Hi. specialize (E i Hi). rewrite others_bit in E by done.
    destruct (decide (i = r)) as [->|Hne]; [done|]. rewrite bool_decide_false in E by done.
    by rewrite andb_true_r in E.
Qed.

(** Who [notify_writer] tells: if another writer was registered, some node other
    than [y] was; otherwise all sharers are told. *)
Lemma notify_writer_spec s r p writers sharers :
  node r -> page p -> mask_of N writers ->
  let s' := notify_writer c s r (cls p) writers sharers in
  told s s' (cls p + 1) r /\
  forall y, node y -> y ≠ r ->
    has_bit (wr s' y p) r = true \/
    (exists o, o ≠ y /\ o ≠ r /\ has_bit writers o = true) \/
    has_bit sharers y = false.
Proof using Hc.
  intros Hr Hp Hm. pose proof (node_lt_64 r Hr) as Hr64. pose proof (ck_nodes c pl Hc) as HN.
  unfold notify_writer. cbv zeta. rewrite (win_offset c pl Hc) by done.
  set (others := Z.land writers (inv_bit r)).
  assert (Hmo : mask_of N others) by (by apply mask_of_land).
  destruct (mask_cases N others HN Hmo) as [E0|[(o & Ho & Eo)|[Enp (n & m & Hnm & Hbn & Hbm)]]].
  - assert (negb (writers =? node_bit r) && negb (writers =? 0) && isZeroOrPowerOf2 others = false) as ->.
    { destruct (only_self writers r Hm Hr E0) as [-> | ->]; rewrite Z.eqb_refl; simpl; [done|].
      by rewrite andb_false_r. }
    assert ((writers =? node_bit r) || (writers =? 0) = true) as ->.
    { destruct (only_self writers r Hm Hr E0) as [-> | ->]; rewrite Z.eqb_refl; [done|apply orb_true_r]. }
    destruct (tell_all_spec (seqZ 0 N) s r (cls p + 1) sharers Hr) as [H1 H2].
    split; [done|]. intros y Hy Hne. destruct (has_bit sharers y) eqn:Hb; [|by right; right].
    left. apply H2; [|apply Hy|done|done]. apply elem_of_seqZ. unfold SwdsmBase.node in Hy. lia.
  - assert (Hbo : has_bit writers o = true /\ o ≠ r).
    { assert (Hb : has_bit others o = true) by (rewrite Eo, node_bit_spec by lia; by apply bool_decide_eq_true).
      unfold others in Hb. rewrite others_bit in Hb by done. apply andb_true_iff in Hb as [H1 H2].
      split; [done|]. intros ->. by rewrite bool_decide_true in H2. }
    assert (writers ≠ node_bit r /\ writers ≠ 0) as [Hw1 Hw2].
    { destruct Hbo as [Hb Hne]. split; intros ->.
      - rewrite node_bit_spec in Hb by lia. by apply bool_decide_eq_true in Hb.
      - unfold has_bit in Hb. by rewrite Z.bits_0 in Hb. }
    apply Z.eqb_neq in Hw1 as ->. apply Z.eqb_neq in Hw2 as ->.
    rewrite Eo, power_of_2_bit by lia. cbn [negb andb]. rewrite find_rank_bit by done. cbn [default from_option id].
    split; [apply told_one|]. intros y Hy Hne. destruct (decide (y = o)) as [->|Hyo].
    + left. unfold SwdsmInv.wr. rewrite sh_or_sh, decide_True by done.
      rewrite has_bit_or_node, bool_decide_true by (done || lia). apply orb_true_r.
    + right. left. exists o. split_and!; [congruence|apply Hbo|apply Hbo].
  - rewrite Enp, andb_false_r.
    assert (Hex : forall y, exists o, o ≠ y /\ o ≠ r /\ has_bit writers o = true).
    { intros y. unfold others in Hbn, Hbm. rewrite others_bit in Hbn, Hbm by done.
      apply andb_true_iff in Hbn as [H1 H2], Hbm as [H3 H4].
      assert (n ≠ r) by (intros ->; by rewrite bool_decide_true in H2).
      assert (m ≠ r) by (intros ->; by rewrite bool_decide_true in H4).
      destruct (decide (n = y)) as [->|]; [exists m|exists n]; done. }
    assert ((writers =? node_bit r) || (writers =? 0) = false) as ->.
    { destruct (Hex r) as (o & _ & Hor & Hb). apply orb_false_iff. split; apply Z.eqb_neq; intros ->.
      - rewrite node_bit_spec in Hb by lia. by apply bool_decide_eq_true in Hb.
      - unfold has_bit in Hb. by rewrite Z.bits_0 in Hb. }
    split; [split; [reflexivity|by left]|]. intros y Hy Hne. right. left. apply Hex.
Qed.

(** Everything of [writer_added] but the notification. *)
Record writer_set (s s' : dsm) (r p : Z) : Prop := {
  ws_sharers y q : page q -> has_bit (shr s' y q) y = has_bit (shr s y q) y;
  ws_home_sharers q i : page q -> has_bit (shr s (home q) q) i = true ->
    has_bit (shr s' (home q) q) i = true;
  ws_mask y q : node y -> page q -> mask_of N (shr s' y q);
  ws_other y q : page q -> q ≠ p -> wr s' y q = wr s y q;
  ws_writers y : wr s' y p = wr s y p \/ wr s' y p = Z.lor (wr s y p) (node_bit r);
  ws_home : has_bit (wr s' (home p) p) r = true;
  ws_self : has_bit (shr s r p) r = true;
}.

Lemma notify_added s s1 r p writers sharers :
  node r -> page p -> dir_sh_ok s p -> mask_of N writers ->
  (forall o, o ≠ r -> has_bit writers o = true -> has_bit (wr s (home p) p) o = true) ->
  (forall y, node y -> has_bit (shr s y p) y = true -> has_bit sharers y = true) ->
  writer_set s s1 r p ->
  same_but_sh s1 (notify_writer c s1 r (cls p) writers sharers) /\
  writer_added s (notify_writer c s1 r (cls p) writers sharers) r p.
Proof using Hc.
  intros Hr Hp [D1 D2 D3 D4 _] Hm Hw Hs [A B M O W H Sf].
  destruct (notify_writer_spec s1 r p writers sharers Hr Hp Hm) as [[Hsame Ht] Hn].
  set (s2 := notify_writer c s1 r (cls p) writers sharers) in *. split; [done|].
  assert (Es : forall y q, page q -> shr s2 y q = shr s1 y q).
  { intros y q Hq. destruct (Ht y (cls q)) as [E|[E _]]; [done|].
    by destruct (cls_parity c pl Hc q p Hq Hp). }
  assert (Ew : forall y, wr s2 y p = wr s1 y p \/ wr s2 y p = Z.lor (wr s1 y p) (node_bit r)).
  { intros y. destruct (Ht y (cls p + 1)) as [E|[_ E]]; [by left|by right]. }
  split.
  - intros y q Hq. rewrite Es by done. by apply A.
  - intros q i Hq. rewrite Es by done. by apply B.
  - intros y q Hy Hq. rewrite Es by done. by apply M.
  - intros y q Hq Hne. rewrite <- (O y q) by done.
    destruct (Ht y (cls q + 1)) as [E|[E _]]; [done|].
    destruct Hne. apply (cls_inj c pl Hc); [done|done|lia].
  - intros y. destruct (Ew y) as [->| ->]; [apply W|]. right.
    destruct (W y) as [->| ->]; [done|]. by rewrite <- Z.lor_assoc, Z.lor_diag.
  - destruct (Ew (home p)) as [->| ->]; [done|]. by rewrite has_bit_lor, H.
  - exact Sf.
  - intros y Hy Hne Hb. destruct (Hn y Hy Hne) as [Hr'|[(o & Ho & Hor & Hbo)|Hf]]; [by left| |].
    + right. apply (D4 y o); auto.
    + by rewrite Hs in Hf.
Qed.

Lemma dir_step_refl s : (forall q, page q -> dir_sh_ok s q) -> dir_step s s.
Proof. intros H. by split. Qed.

Lemma register_writer_spec s r p :
  node r -> page p -> home p ≠ r -> (forall q, page q -> dir_sh_ok s q) ->
  has_bit (shr s r p) r = true ->
  let s' := register_writer c s r (home p) (cls p) in
  same_but_sh s s' /\ dir_step s s' /\ local_bits_kept s s' (fun _ => False) /\
  write_visible c pl s' r p.
Proof using Hc.
  intros Hr Hp Hrem Hd Hself. pose proof (Hd p Hp) as [D1 D2 D3 D4 _].
  pose proof (home_node c pl Hc p Hp) as Hh. pose proof (ck_nodes c pl Hc) as HN.
  pose proof (node_lt_64 r Hr) as Hr64. unfold register_writer. cbv zeta.
  change (sh s r (cls p + 1)) with (wr s r p). destruct (D1 r Hr) as [_ Hmr].
  destruct (negb (wr s r p =? node_bit r) && isZeroOrPowerOf2 (wr s r p)) eqn:Econd.
  - rewrite !(win_offset c pl Hc) by done.
    set (s1 := or_sh s r (cls p + 1) (node_bit r)).
    assert (E1 : sh s1 (home p) (cls p + 1) = wr s (home p) p).
    { unfold s1. rewrite sh_or_sh, decide_False; [done|]. by intros [-> _]. }
    rewrite E1. set (s2 := or_sh s1 (home p) (cls p + 1) (node_bit r)).
    assert (E2 : sh s2 (home p) (cls p) = shr s (home p) p).
    { unfold s2, s1. rewrite !sh_or_sh, !decide_False by lia. done. }
    rewrite E2. set (s3 := or_sh s2 r (cls p) (shr s (home p) p)).
    assert (Hset : writer_set s s3 r p).
    { assert (Es : forall y q, page q -> shr s3 y q = if decide (y = r /\ q = p)
                then Z.lor (shr s r p) (shr s (home p) p) else shr s y q).
      { intros y q Hq. pose proof (cls_parity c pl Hc q p Hq Hp). pose proof (cls_parity c pl Hc p p Hp Hp).
        unfold s3, s2, s1, SwdsmInv.shr. rewrite !sh_or_sh.
        destruct (decide (y = r /\ q = p)) as [[-> ->]|Hne].
        - rewrite decide_True, !decide_False by lia. done.
        - rewrite !(decide_False (P := _ /\ cls p + 1 = cls q)) by lia. rewrite decide_False; [done|].
          intros [-> E]. apply Hne. split; [done|]. symmetry. by apply (cls_inj c pl Hc). }
      assert (Ew : forall y q, page q -> wr s3 y q = if decide ((y = r \/ y = home p) /\ q = p)
                then Z.lor (wr s y p) (node_bit r) else wr s y q).
      { intros y q Hq. pose proof (cls_parity c pl Hc p q Hp Hq).
        unfold s3, s2, s1, SwdsmInv.wr. rewrite !sh_or_sh.
        rewrite (decide_False (P := r = y /\ cls p = cls q + 1)) by lia.
        destruct (decide (q = p)) as [->|Hne].
        - rewrite (decide_False (P := r = home p /\ cls p + 1 = cls p + 1)) by (intros [? _]; congruence).
          destruct (decide (y = r)) as [->|H1]; [|destruct (decide (y = home p)) as [->|H2]].
          + rewrite (decide_False (P := home p = r /\ _)) by tauto. by rewrite !decide_True by auto.
          + by rewrite !decide_True by auto.
          + rewrite !decide_False by (intros [? _]; intuition congruence). done.
        - assert (cls p + 1 ≠ cls q + 1).
          { intros E. apply Hne. symmetry. apply (cls_inj c pl Hc); [done|done|lia]. }
          rewrite !decide_False by tauto. done. }
      destruct (D1 (home p) Hh) as [Hmh _]. split.
      - intros y q Hq. rewrite Es by done. case_decide as E; [|done]. destruct E as [-> ->].
        by rewrite has_bit_lor, Hself.
      - intros q i Hq Hb. rewrite Es by done. case_decide as E; [|done]. destruct E as [E ->]. congruence.
      - intros y q Hy Hq. rewrite Es by done. destruct (dk_mask _ _ _ _ (Hd q Hq) y Hy) as [Hm _].
        case_decide as E; [|done]. destruct E as [-> ->]. by apply mask_of_lor.
      - intros y q Hq Hne. rewrite Ew by done. by rewrite decide_False by tauto.
      - intros y. rewrite Ew by done. case_decide; auto.
      - rewrite Ew, decide_True by auto. rewrite has_bit_or_node, bool_decide_true by (done || lia).
        apply orb_true_r.
      - exact Hself. }
    destruct (D1 (home p) Hh) as [_ Hmw].
    assert (Hm1 : mask_of N (Z.lor (wr s (home p) p) (node_bit r)))
      by (apply mask_of_lor; [done|by apply mask_of_bit]).
    assert (Hw1 : forall o, o ≠ r -> has_bit (Z.lor (wr s (home p) p) (node_bit r)) o = true ->
              has_bit (wr s (home p) p) o = true).
    { intros o Ho. rewrite has_bit_or_node by lia. by rewrite bool_decide_false, orb_false_r. }
    destruct (notify_added s s3 r p _ (shr s (home p) p) Hr Hp (Hd p Hp) Hm1 Hw1 D2 Hset) as [F1 F2].
    split; [|by apply writer_added_step]. transitivity s3; [|done].
    transitivity s2; [|apply or_sh_same]. transitivity s1; apply or_sh_same.
  - split; [reflexivity|]. split; [by apply dir_step_refl|]. split; [done|].
    apply andb_false_iff in Econd as [E|E].
    + apply negb_false_iff, Z.eqb_eq in E. intros x Hx. exists r. split; [done|].
      apply (D3 r); [done|]. rewrite E, node_bit_spec by lia. by apply bool_decide_eq_true.
    + intros x Hx.
      destruct (mask_cases N _ HN Hmr) as [E0|[(o & Ho & Eo)|(_ & n & m & Hnm & Hbn & Hbm)]].
      * by rewrite E0 in E.
      * rewrite Eo, power_of_2_bit in E by lia. done.
      * destruct (decide (n = x)) as [->|]; [exists m|exists n]; split; try done; by apply (D3 r).
Qed.

(** The home node's own first write to a page: its directory is the home one. *)
Lemma local_writer_spec s r p :
  node r -> page p -> home p = r -> (forall q, page q -> dir_sh_ok s q) ->
  has_bit (shr s r p) r = true ->
  let s1 := or_sh s r (cls p + 1) (node_bit r) in
  let s' := notify_writer c s1 r (cls p) (wr s r p) (shr s r p) in
  same_but_sh s s' /\ dir_step s s' /\ local_bits_kept s s' (fun _ => False) /\
  has_bit (wr s' r p) r = true.
Proof using Hc.
  intros Hr Hp Hloc Hd Hself s1 s'. pose proof (Hd p Hp) as [D1 D2 D3 D4 _].
  pose proof (node_lt_64 r Hr) as Hr64. destruct (D1 r Hr) as [_ Hmr].
  assert (Es : forall y q, page q -> shr s1 y q = shr s y q).
  { intros y q Hq. pose proof (cls_parity c pl Hc q p Hq Hp). unfold s1, SwdsmInv.shr.
    rewrite sh_or_sh, decide_False by lia. done. }
  assert (Ew : forall y q, page q -> wr s1 y q = if decide (y = r /\ q = p)
            then Z.lor (wr s r p) (node_bit r) else wr s y q).
  { intros y q Hq. unfold s1, SwdsmInv.wr. rewrite sh_or_sh.
    destruct (decide (y = r /\ q = p)) as [[-> ->]|Hne]; [by rewrite decide_True|].
    rewrite decide_False; [done|]. intros [-> E]. apply Hne. split; [done|]. symmetry.
    apply (cls_inj c pl Hc); [done|done|lia]. }
  assert (Hset : writer_set s s1 r p).
  { split.
    + intros y q Hq. by rewrite Es.
    + intros q i Hq. by rewrite Es.
    + intros y q Hy Hq. rewrite Es by done. by apply (dk_mask _ _ _ _ (Hd q Hq) y Hy).
    + intros y q Hq Hne. rewrite Ew, decide_False by (done || tauto). done.
    + intros y. rewrite Ew by done. case_decide as E; [|by left]. destruct E as [-> _]. by right.
    + rewrite Hloc, Ew, decide_True, has_bit_or_node, bool_decide_true by (done || lia). apply orb_true_r.
    + exact Hself. }
  assert (Hw1 : forall o, o ≠ r -> has_bit (wr s r p) o = true -> has_bit (wr s (home p) p) o = true)
    by (intros o _ Hb; by rewrite Hloc).
  assert (Hs1 : forall y, node y -> has_bit (shr s y p) y = true -> has_bit (shr s r p) y = true)
    by (intros y Hy Hb; rewrite <- Hloc; by apply D2).
  destruct (notify_added s s1 r p (wr s r p) (shr s r p) Hr Hp (Hd p Hp) Hmr Hw1 Hs1 Hset) as [F1 F2].
  destruct (writer_added_step s s' r p Hr Hp Hd F2) as (G1 & G2 & G3).
  split_and!; try done; [transitivity s1; [apply or_sh_same|done]|].
  pose proof (wa_home _ _ _ _ F2) as Hb. by rewrite Hloc in Hb.
Qed.

(** The home node's own first read of a page. *)
Lemma local_sharer_spec s r p :
  node r -> page p -> home p = r -> (forall q, page q -> dir_sh_ok s q) ->
  let s' := or_sh s r (cls p) (node_bit r) in
  dir_step s s' /\ local_bits_kept s s' (fun q => q = p) /\ has_bit (shr s' r p) r = true.
Proof using Hc.
  intros Hr Hp Hloc Hd s'. pose proof (node_lt_64 r Hr) as Hr64.
  assert (Ew : forall y q, page q -> wr s' y q = wr s y q).
  { intros y q Hq. pose proof (cls_parity c pl Hc p q Hp Hq). unfold s', SwdsmInv.wr.
    rewrite sh_or_sh, decide_False by lia. done. }
  assert (Es : forall y q, page q -> shr s' y q = if decide (y = r /\ q = p)
            then Z.lor (shr s r p) (node_bit r) else shr s y q).
  { intros y q Hq. unfold s', SwdsmInv.shr. rewrite sh_or_sh.
    destruct (decide (y = r /\ q = p)) as [[-> ->]|Hne]; [by rewrite decide_True|].
    rewrite decide_False; [done|]. intros [-> E]. apply Hne. split; [done|]. symmetry.
    by apply (cls_inj c pl Hc). }
  assert (Hmono : forall y q i, page q -> has_bit (shr s y q) i = true -> has_bit (shr s' y q) i = true).
  { intros y q i Hq Hb. rewrite Es by done. case_decide as E; [|done]. destruct E as [-> ->].
    by rewrite has_bit_lor, Hb. }
  assert (Hself : has_bit (shr s' r p) r = true).
  { rewrite Es, decide_True, has_bit_or_node, bool_decide_true by (done || lia). apply orb_true_r. }
  split; [split|split; [|done]].
  - intros q Hq. destruct (Hd q Hq) as [A B C D F]. split.
    + intros y Hy. rewrite Ew, Es by done. destruct (A y Hy). case_decide as E; [|done].
      destruct E as [-> ->]. split; [|done]. apply mask_of_lor; [done|by apply mask_of_bit].
    + intros y Hy Hb. rewrite Es in Hb by done. case_decide as E.
      * destruct E as [-> ->]. by rewrite Hloc.
      * by apply Hmono, B.
    + intros y x Hy. rewrite !Ew by done. by apply C.
    + intros y x Hy Hb Hx Hne. rewrite Ew in Hx |- * by done.
      destruct (decide (y = r /\ q = p)) as [[-> ->]|E]; [rewrite Hloc in Hx; by exists x|].
      rewrite Es, decide_False in Hb by done. by apply (D y x).
    + rewrite Ew by done. intros Hb. by apply Hmono, F.
  - intros y q Hy Hq. by apply Hmono.
  - intros q x Hq. by rewrite Ew.
  - intros q Hq Hne. rewrite Es by done. rewrite decide_False by tauto. done.
Qed.

End Dir.
