(* ===== verification/SwdsmOps.v ===== *)
(** * The operations keep the coherence invariant

    The write buffer, eviction and loading, the fault handler, application
    accesses, self-invalidation and the barrier: each returns, and leaves the
    system in a state that satisfies [inv]. *)

From S2P Require Import Prelude BlockMap DataDistribution FirstTouch GlobalPtr Mem Swdsm SwdsmBase SwdsmInv SwdsmDir.

(** Split membership in a concatenation in the hypotheses. *)
Ltac in_app :=
  repeat match goal with H : context [_ ∈ _ ++ _] |- _ => rewrite elem_of_app in H end.

(** Vectors indexed by page number. *)
Lemma vec_fmap {A} (d : A) (f : Z -> A) n k : 0 <= k < n -> vec d (f <$> seqZ 0 n) k = f k.
Proof.
  intros Hk. unfold vec. apply (nth_lookup_Some (f <$> seqZ 0 n)).
  rewrite list_lookup_fmap. assert (seqZ 0 n !! Z.to_nat k = Some k) as -> by (apply lookup_seqZ; lia). done.
Qed.

Lemma vec_replicate {A} (d : A) n k : vec d (replicate n d) k = d.
Proof.
  unfold vec. destruct (decide (Z.to_nat k < n)%nat) as [H|H].
  - by apply (nth_lookup_Some (replicate n d)), lookup_replicate_2.
  - apply nth_overflow. rewrite length_replicate. lia.
Qed.

Lemma vec_snoc {A} (d : A) l x k :
  0 <= k -> vec d (l ++ [x]) k = if decide (k < Z.of_nat (length l)) then vec d l k
    else if decide (k = Z.of_nat (length l)) then x else d.
Proof.
  intros Hk. unfold vec. case_decide as E; [by rewrite app_nth1 by lia|].
  rewrite app_nth2 by lia. case_decide as E2; [by replace (Z.to_nat k - length l)%nat with 0%nat by lia|].
  apply nth_overflow. simpl. lia.
Qed.

Lemma length_pairs (f : Z -> Z) l : length (flat_map (fun i => [f i; 0]) l) = (2 * length l)%nat.
Proof. induction l as [|x l IH]; simpl; lia. Qed.

Lemma vec_pairs (f : Z -> Z) n k : 0 <= k < n ->
  vec 0 (flat_map (fun i => [f i; 0]) (seqZ 0 n)) (2 * k) = f k /\
  vec 0 (flat_map (fun i => [f i; 0]) (seqZ 0 n)) (2 * k + 1) = 0.
Proof.
  intros Hk. rewrite <- (vec_fmap 0 f n k Hk). unfold vec.
  replace (Z.to_nat (2 * k)) with (2 * Z.to_nat k)%nat by lia.
  replace (Z.to_nat (2 * k + 1)) with (S (2 * Z.to_nat k)) by lia.
  assert (H : (Z.to_nat k < length (seqZ 0 n))%nat) by (rewrite length_seqZ; lia).
  revert H. generalize (seqZ 0 n) as l, (Z.to_nat k) as m. induction l as [|x l IH]; intros m Hm; [simpl in Hm; lia|].
  destruct m as [|m]; [done|]. replace (2 * S m)%nat with (S (S (2 * m))) by lia.
  cbn [flat_map app nth fmap list_fmap]. apply IH. simpl in Hm. lia.
Qed.

Section Ops.

Context (c : dsm_config) (pl : placement) (Hc : cfg_ok c pl) {PB : plain_bytes}.

Abbreviation N := (numtasks c).
Abbreviation node := (node c).
Abbreviation page := (page c).
Abbreviation home := (home c pl).
Abbreviation off := (off c pl).
Abbreviation cidx := (cidx c).
Abbreviation cls := (cls c).
Abbreviation cc := (cc c).
Abbreviation shr := (shr c).
Abbreviation wr := (wr c).
Abbreviation holds := (holds c).
Abbreviation holds_dirty := (holds_dirty c).
Abbreviation cache_byte := (cache_byte c).
Abbreviation copy_byte := (copy_byte c).
Abbreviation home_byte := (home_byte c pl).
Abbreviation inv_pend := (inv_pend c pl).
Abbreviation inv := (inv c pl).
Abbreviation wrote_back := (wrote_back c pl).

(** ** Writing back one slot *)
Lemma write_back_ok pend s r l idx :
  inv_pend pend s -> node r -> 0 <= idx < cachesize c -> cd_dirty (cc s r idx) = DIRTY ->
  NoDup l -> (forall i, i ∈ l <-> i ∈ wb s r /\ i ≠ idx) ->
  exists s', write_back_index c pl (set_wb s r l) r idx = Ok s' /\ wb s' r = l /\ wrote_back s s' r idx.
Proof using Hc.
  intros Hi Hr Hidx Hd Hl Hel.
  destruct (slot_of_dirty c pl s r idx (iv_slot _ _ _ _ Hi r idx Hr Hidx) Hd) as [Hs Hv].
  destruct Hs as [Hp Hpi Hrem Hmap _ _]. set (p := cd_tag (cc s r idx)) in *.
  unfold write_back_index. change (Swdsm.cc c (set_wb s r l) r idx) with (cc s r idx). rewrite Hd.
  fold p. set (s1 := set_dirty c (mprotect (set_wb s r l) r p PROT_READ) r idx CLEAN).
  assert (Hm1 : vmap s1 r p = (BCache idx, PROT_READ)).
  { unfold s1. dsm_get. by rewrite decide_True, Hmap by done. }
  destruct (storepageDIFF_spec c pl Hc s1 r p Hp) as (m & E & Hm).
  { by rewrite Hm1, Hpi. }
  { by rewrite Hm1. }
  rewrite Hpi in E. rewrite E. eexists. split; [reflexivity|].
  split; [unfold s1; dsm_get; by rewrite decide_True|]. split.
  - intros x i. unfold s1. dsm_get. fold p. rewrite Hv.
    repeat case_decide; try done; exfalso; intuition congruence.
  - done.
  - done.
  - done.
  - done.
  - intros x a. fold p. cbv zeta. dsm_get. cbn [globalData set_globalData count]. rewrite Hm. done.
  - intros x q. unfold s1. dsm_get. rewrite Hmap. cbn [fst].
    repeat case_decide; try done; exfalso; intuition congruence.
  - intros x Hx. unfold s1. dsm_get. by rewrite decide_False.
  - unfold s1. dsm_get. by rewrite decide_True.
  - intros i. unfold s1. dsm_get. rewrite decide_True by done. apply Hel.
Qed.

Lemma dirty_buffered {pend} s r i :
  inv_pend pend s -> node r -> 0 <= i < cachesize c -> cd_dirty (cc s r i) = DIRTY -> ~ pend r i -> i ∈ wb s r.
Proof. intros Hi Hr Hidx Hd Hnp. by apply (wk_dirty _ _ _ _ (iv_wb _ _ _ _ Hi r Hr)). Qed.

Lemma dirty_in_wb s r i :
  inv s -> node r -> 0 <= i < cachesize c -> cd_dirty (cc s r i) = DIRTY -> i ∈ wb s r.
Proof. intros Hi Hr Hidx Hd. apply (dirty_buffered s r i Hi Hr Hidx Hd). by intros []. Qed.

(** Popping the front of the buffer and writing it back. *)
Lemma pop_write_back_ok pend s r i l :
  inv_pend pend s -> node r -> wb s r = i :: l ->
  exists s', wb_pop_write_back c pl s r = Ok s' /\ wb s' r = l /\ wrote_back s s' r i /\
    inv_pend pend s' /\ 0 <= i < cachesize c /\ cd_dirty (cc s r i) = DIRTY.
Proof using Hc.
  intros Hi Hr Hw. destruct (iv_wb _ _ _ _ Hi r Hr) as [W1 W2]. rewrite Hw in W1, W2.
  apply NoDup_cons in W1 as [Hni Hnd].
  destruct (W2 i) as [H _]. destruct (H ltac:(left)) as (Hidx & Hd & _).
  unfold wb_pop_write_back. rewrite Hw.
  destruct (write_back_ok pend s r l i) as (s' & E & Hl & Ht); try done.
  { intros k. rewrite Hw, elem_of_cons. split; [|tauto]. intros Hk. split; [by right|]. by intros ->. }
  exists s'. split_and!; try done; try apply Hidx. by apply (inv_wrote_back c pl Hc pend s s' r i).
Qed.

(** ** Writing back a list of slots *)
Record flushed (s s' : dsm) (r : Z) (l : list Z) : Prop := {
  fd_cc x i : cc s' x i = if decide (x = r /\ i ∈ l)
    then {| cd_state := cd_state (cc s r i); cd_dirty := CLEAN; cd_tag := cd_tag (cc s r i) |}
    else cc s x i;
  fd_touched x i : touched s' x i = touched s x i;
  fd_sh x i : sh s' x i = sh s x i;
  fd_cache : cacheData s' = cacheData s;
  fd_copy : pagecopy s' = pagecopy s;
  fd_home q j : page q -> 0 <= j < PAGE_SIZE -> home_byte s' q j =
    if decide (cd_tag (cc s r (cidx q)) = q /\ cidx q ∈ l)
    then if decide (cache_byte s r q j = copy_byte s r q j) then home_byte s q j else cache_byte s r q j
    else home_byte s q j;
  fd_vm x q : page q -> ~ (x = r /\ cd_tag (cc s r (cidx q)) = q /\ cidx q ∈ l) ->
    vmap s' x q = vmap s x q;
  fd_wb x : x ≠ r -> wb s' x = wb s x;
}.

Lemma flushed_nil s r : flushed s s r [].
Proof.
  split; try done.
  - intros x i. rewrite decide_False; [done|]. by intros [_ ?%elem_of_nil].
  - intros q j _ _. rewrite decide_False; [done|]. by intros [_ ?%elem_of_nil].
Qed.

Lemma wrote_back_flushed pend s s' r i :
  inv_pend pend s -> node r -> 0 <= i < cachesize c -> cd_dirty (cc s r i) = DIRTY ->
  wrote_back s s' r i -> flushed s s' r [i].
Proof using Hc.
  intros Hi Hr Hidx Hd [Ecc Et Es Ec Ep Eh Ev Ew _ _].
  destruct (slot_of_dirty c pl s r i (iv_slot _ _ _ _ Hi r i Hr Hidx) Hd) as [Hs Hv].
  destruct Hs as [Hp Hpi _ _ _ _]. set (p := cd_tag (cc s r i)) in *.
  destruct (merged_bytes c pl Hc s s' r p Hp Eh) as [Hbp Hbq].
  assert (Hq : forall q, page q -> (cd_tag (cc s r (cidx q)) = q /\ cidx q ∈ [i]) <-> q = p).
  { intros q Hq. rewrite list_elem_of_singleton. split; [by intros [E1 E2]; rewrite E2 in E1|].
    intros ->. by rewrite Hpi. }
  split; try done.
  - intros x k. rewrite Ecc, (decide_ext (x = r /\ k ∈ [i]) (x = r /\ k = i))
      by (by rewrite list_elem_of_singleton).
    case_decide as E; [|done]. destruct E as [-> ->]. by rewrite Hv.
  - intros q j Hpq Hj. rewrite (decide_ext _ (q = p)) by (by apply Hq).
    case_decide as E; [subst q; by apply Hbp|by apply Hbq].
  - intros x q Hpq Hne. rewrite Ev, decide_False; [done|]. intros [-> E]. apply Hne. split; [done|].
    by apply Hq.
Qed.

Lemma flushed_app s1 s2 s3 r l1 l2 :
  flushed s1 s2 r l1 -> flushed s2 s3 r l2 -> flushed s1 s3 r (l1 ++ l2).
Proof.
  intros [A1 A2 A3 A4 A5 A6 A7 A8] [B1 B2 B3 B4 B5 B6 B7 B8].
  assert (Etag : forall x i, cd_tag (cc s2 x i) = cd_tag (cc s1 x i)).
  { intros x i. rewrite A1. case_decide as E; [|done]. by destruct E as [-> _]. }
  assert (Est : forall x i, cd_state (cc s2 x i) = cd_state (cc s1 x i)).
  { intros x i. rewrite A1. case_decide as E; [|done]. by destruct E as [-> _]. }
  split.
  - intros x i. rewrite B1, Etag, Est, A1.
    repeat case_decide; try done; exfalso; in_app; tauto.
  - intros. by rewrite B2.
  - intros. by rewrite B3.
  - by rewrite B4.
  - by rewrite B5.
  - intros q j Hq Hj. rewrite B6, A6, Etag by done. unfold SwdsmInv.cache_byte, SwdsmInv.copy_byte.
    rewrite A4, A5. repeat case_decide; try done; exfalso; in_app; tauto.
  - intros x q Hq Hne. rewrite B7, A7; [done|done|..]; try done.
    + rewrite elem_of_app in Hne. tauto.
    + rewrite elem_of_app in Hne. rewrite Etag. tauto.
  - intros x Hx. by rewrite B8, A8.
Qed.

Lemma pops_ok pend s r k :
  inv_pend pend s -> node r -> 0 <= k <= Z.of_nat (length (wb s r)) ->
  exists s', for_each (seqZ 0 k) (fun _ s => wb_pop_write_back c pl s r) s = Ok s' /\
    inv_pend pend s' /\ wb s' r = drop (Z.to_nat k) (wb s r) /\ flushed s s' r (take (Z.to_nat k) (wb s r)).
Proof using Hc.
  intros Hi Hr Hk.
  apply (for_range_ok k _ (fun i s1 => inv_pend pend s1 /\ wb s1 r = drop (Z.to_nat i) (wb s r) /\
    flushed s s1 r (take (Z.to_nat i) (wb s r)))); [lia| |].
  - split_and!; [done|done|apply flushed_nil].
  - intros i s1 Hik (H1 & H2 & H3). replace (Z.to_nat (i + 1)) with (S (Z.to_nat i)) by lia.
    destruct (lookup_lt_is_Some_2 (wb s r) (Z.to_nat i)) as [v Hv]; [lia|].
    rewrite (drop_S _ _ _ Hv) in H2.
    destruct (pop_write_back_ok pend s1 r v _ H1 Hr H2) as (s2 & E & Hw & Ht & Hi2 & Hv2 & Hd).
    exists s2. split_and!; try done. rewrite (take_S_r _ _ _ Hv).
    apply (flushed_app s s1 s2); [done|]. by apply (wrote_back_flushed pend).
Qed.

Lemma wb_flush_ok pend s r :
  inv_pend pend s -> node r -> exists s', wb_flush c pl s r = Ok s' /\ inv_pend pend s' /\
    wb s' r = [] /\ flushed s s' r (wb s r).
Proof using Hc.
  intros Hi Hr. unfold wb_flush. remember (wb s r) as l eqn:El. symmetry in El.
  revert s Hi El. induction l as [|i l IH]; intros s Hi El.
  - exists s. simpl. rewrite El. split_and!; try done. apply flushed_nil.
  - cbn [length wb_flush_loop]. rewrite El.
    destruct (pop_write_back_ok pend s r i l Hi Hr El) as (s1 & -> & Hw & Ht & Hi1 & Hv & Hd).
    cbn [mbind outcome_bind]. destruct (IH s1 Hi1 Hw) as (s2 & E2 & Hi2 & Hw2 & Hf).
    exists s2. split_and!; try done. change (i :: l) with ([i] ++ l).
    apply (flushed_app s s1 s2); [|done]. by apply (wrote_back_flushed pend).
Qed.

(** ** Adding to the buffer *)
Lemma wb_add_ok {pend} s r idx :
  inv_pend (pend_add pend r idx) s -> node r -> 0 <= idx < cachesize c -> cd_dirty (cc s r idx) = DIRTY -> ~ pend r idx ->
  exists s' l, wb_add c pl s r idx = Ok s' /\ inv_pend pend s' /\ (idx ∉ l) /\
    (forall i, i ∈ l -> i ∈ wb s r) /\
    exists s1, flushed s s1 r l /\ wb s1 r = drop (length l) (wb s r) /\
      s' = count (set_wb s1 r (wb s1 r ++ [idx])) r c_page_count.
Proof using Hc.
  intros Hi Hr Hidx Hd Hnp. destruct (iv_wb _ _ _ _ Hi r Hr) as [W1 W2].
  assert (Hni : idx ∉ wb s r).
  { intros H. apply W2 in H. unfold pend_add in H. tauto. }
  unfold wb_add, wb_has. rewrite bool_decide_false by done.
  assert (exists s1 l, (if wb_max_size c <=? Z.of_nat (length (wb s r))
            then wb_flush_partial c pl s r else Ok s) = Ok s1 /\ inv_pend (pend_add pend r idx) s1 /\
            flushed s s1 r l /\ wb s1 r = drop (length l) (wb s r) /\ (forall i, i ∈ l -> i ∈ wb s r))
    as (s1 & l & -> & Hi1 & Hf & Hw & Hsub).
  { destruct (Z.leb_spec (wb_max_size c) (Z.of_nat (length (wb s r)))) as [Hle|Hlt].
    - unfold wb_flush_partial. pose proof (ck_wb c pl Hc).
      destruct (pops_ok _ s r (wb_write_back_size c) Hi Hr) as (s1 & -> & Hi1 & Hw & Hf); [lia|].
      cbn [mbind outcome_bind]. eexists _, _. split; [reflexivity|].
      split. { eapply (inv_proper c pl Hc); [|exact Hi1]. by split. }
      split. { destruct Hf. split; done. }
      rewrite length_take_le by lia. split; [done|]. intros i (k & Hk & _)%elem_of_take.
      by apply (list_elem_of_lookup_2 _ k).
    - exists s, []. split_and!; try done; [apply flushed_nil|by intros i ?%elem_of_nil]. }
  assert (Hnl : idx ∉ l) by auto.
  cbn [mbind outcome_bind]. eexists _, l. split; [reflexivity|]. split.
  - apply (inv_buffered c pl Hc); try done. rewrite (fd_cc _ _ _ _ Hf), decide_False by tauto. done.
  - split; [done|]. split; [done|]. by exists s1.
Qed.

(** ** What an operation of node [r] leaves alone

    The caches of the other nodes, and the home bytes [r] has not modified. *)
Definition unmodified (s : dsm) (r q j : Z) : Prop :=
  holds_dirty s r q -> cache_byte s r q j = copy_byte s r q j.
(** A copy of the byte, if [r] has one, is the home byte. *)
Definition in_sync (s : dsm) (r q j : Z) : Prop :=
  holds s r q -> cache_byte s r q j = home_byte s q j.
(** What a write-back of the byte leaves at its home. *)
Definition merged_byte (s : dsm) (r q j : Z) : Z :=
  if decide (cache_byte s r q j = copy_byte s r q j) then home_byte s q j else cache_byte s r q j.

(** An operation of [r] that does not store to a byte: the home byte of an
    unmodified byte stays, a modified byte stays pending or reaches its home. *)
Record undisturbed (s s' : dsm) (r q j : Z) : Prop := {
  ud_calm : unmodified s r q j -> unmodified s' r q j /\ home_byte s' q j = home_byte s q j;
  ud_sync : unmodified s r q j -> in_sync s r q j -> in_sync s' r q j;
  ud_dirty : holds_dirty s r q ->
    (holds_dirty s' r q /\ cache_byte s' r q j = cache_byte s r q j /\
     copy_byte s' r q j = copy_byte s r q j /\ home_byte s' q j = home_byte s q j) \/
    (unmodified s' r q j /\ home_byte s' q j = merged_byte s r q j /\
     (copy_byte s r q j = home_byte s q j -> in_sync s' r q j));
}.

Lemma clean_unmodified s r q j : ~ holds_dirty s r q -> unmodified s r q j.
Proof. intros H ?. done. Qed.

Lemma undisturbed_same s s' r q j :
  cc s' r (cidx q) = cc s r (cidx q) -> cache_byte s' r q j = cache_byte s r q j ->
  copy_byte s' r q j = copy_byte s r q j -> home_byte s' q j = home_byte s q j -> undisturbed s s' r q j.
Proof.
  intros E1 E2 E3 E4.
  split; unfold unmodified, in_sync, SwdsmInv.holds_dirty, SwdsmInv.holds; rewrite ?E1, ?E2, ?E3, ?E4; auto.
Qed.

Lemma undisturbed_clean s s' r q j :
  ~ holds_dirty s r q -> home_byte s' q j = home_byte s q j -> unmodified s' r q j ->
  (in_sync s r q j -> in_sync s' r q j) -> undisturbed s s' r q j.
Proof. intros H1 H2 H3 H4. split; [done|done|by intros]. Qed.

Record quiet (s s' : dsm) (r : Z) : Prop := {
  qt_cc x i : x ≠ r -> cc s' x i = cc s x i;
  qt_cache x a : x ≠ r -> mget (cacheData s') x a = mget (cacheData s) x a;
  qt_copy x a : x ≠ r -> mget (pagecopy s') x a = mget (pagecopy s) x a;
  qt_vm x q : x ≠ r -> page q -> vmap s' x q = vmap s x q;
  qt_calm q j : page q -> 0 <= j < PAGE_SIZE -> undisturbed s s' r q j;
  qt_dirty q : page q -> ~ holds_dirty s r q -> ~ holds_dirty s' r q;
}.

(** What belongs to the other nodes alone. *)
Record others (s s' : dsm) (r : Z) : Prop := {
  ot_cc x i : x ≠ r -> cc s' x i = cc s x i;
  ot_cache x a : x ≠ r -> mget (cacheData s') x a = mget (cacheData s) x a;
  ot_copy x a : x ≠ r -> mget (pagecopy s') x a = mget (pagecopy s) x a;
  ot_vm x q : x ≠ r -> page q -> vmap s' x q = vmap s x q;
}.

Lemma quiet_others s s' r : quiet s s' r -> others s s' r.
Proof. intros []. by split. Qed.

Lemma others_trans s1 s2 s3 r : others s1 s2 r -> others s2 s3 r -> others s1 s3 r.
Proof.
  intros [A1 A2 A3 A4] [B1 B2 B3 B4]. split; intros.
  - rewrite B1, A1; done.
  - rewrite B2, A2; done.
  - rewrite B3, A3; done.
  - rewrite B4, A4; done.
Qed.

Lemma flushed_others s s' r l : flushed s s' r l -> others s s' r.
Proof.
  intros [A1 A2 A3 A4 A5 A6 A7 A8]. split.
  - intros x i Hx. rewrite A1, decide_False by tauto. done.
  - intros x a _. by rewrite A4.
  - intros x a _. by rewrite A5.
  - intros x q Hx Hq. apply A7; [done|]. tauto.
Qed.

Lemma undisturbed_refl s r q j : undisturbed s s r q j.
Proof. by apply undisturbed_same. Qed.

Lemma undisturbed_trans s1 s2 s3 r q j :
  undisturbed s1 s2 r q j -> undisturbed s2 s3 r q j -> undisturbed s1 s3 r q j.
Proof.
  intros [A1 A2 A3] [B1 B2 B3]. split.
  - intros H. destruct (A1 H) as [H1 E1]. destruct (B1 H1) as [H2 E2]. split; [done|congruence].
  - intros H Hs. apply B2; [by apply A1|by apply A2].
  - intros H. destruct (A3 H) as [(H1 & E1 & E2 & E3)|(H1 & E1 & Hs)].
    + unfold merged_byte in *. rewrite <- E1, <- E2, <- E3. by apply B3.
    + right. destruct (B1 H1) as [H2 E2]. split_and!; [done|congruence|auto].
Qed.

Lemma quiet_refl s r : quiet s s r.
Proof. split; try done. intros q j _ _. apply undisturbed_refl. Qed.
#[local] Hint Resolve quiet_refl : core.

Lemma qt_home s s' r q j : quiet s s' r -> page q -> 0 <= j < PAGE_SIZE -> ~ holds_dirty s r q ->
  home_byte s' q j = home_byte s q j.
Proof. intros Hq Hp Hj Hnd. apply (ud_calm _ _ _ _ _ (qt_calm _ _ _ Hq q j Hp Hj)). by apply clean_unmodified. Qed.

Lemma quiet_trans s1 s2 s3 r : quiet s1 s2 r -> quiet s2 s3 r -> quiet s1 s3 r.
Proof.
  intros [A1 A2 A3 A4 A5 A6] [B1 B2 B3 B4 B5 B6]. split; intros.
  - rewrite B1, A1; done.
  - rewrite B2, A2; done.
  - rewrite B3, A3; done.
  - rewrite B4, A4; done.
  - apply (undisturbed_trans s1 s2); auto.
  - auto.
Qed.

(** A write-back leaves unmodified bytes alone. *)
Lemma flushed_undisturbed pend s s' r l q j :
  inv_pend pend s -> node r -> (forall i, i ∈ l -> i ∈ wb s r) -> flushed s s' r l ->
  page q -> 0 <= j < PAGE_SIZE -> undisturbed s s' r q j.
Proof using Hc.
  intros Hi Hr Hl [A1 A2 A3 A4 A5 A6 A7 A8] Hq Hj.
  assert (Ec : cache_byte s' r q j = cache_byte s r q j) by (unfold SwdsmInv.cache_byte; by rewrite A4).
  assert (Ep : copy_byte s' r q j = copy_byte s r q j) by (unfold SwdsmInv.copy_byte; by rewrite A5).
  specialize (A1 r (cidx q)). specialize (A6 q j Hq Hj).
  destruct (decide (r = r /\ cidx q ∈ l)) as [[_ Hin]|Hni].
  - assert (Hcl : ~ holds_dirty s' r q) by (intros [_ H]; by rewrite A1 in H).
    destruct (decide (cd_tag (cc s r (cidx q)) = q)) as [Ht|Ht].
    + assert (Hd : holds_dirty s r q).
      { apply Hl in Hin. apply (wk_dirty _ _ _ _ (iv_wb _ _ _ _ Hi r Hr)) in Hin as (Hidx & Hd & _).
        destruct (slot_of_dirty c pl s r _ (iv_slot _ _ _ _ Hi r _ Hr Hidx) Hd) as [_ Hv]. done. }
      rewrite decide_True in A6 by done. fold (merged_byte s r q j) in A6.
      assert (Hm : unmodified s r q j -> merged_byte s r q j = home_byte s q j).
      { intros Hu. unfold merged_byte. rewrite decide_True; [done|]. by apply Hu. }
      pose proof (clean_unmodified s' r q j Hcl). split; [intros Hu; split; [done|]; by rewrite A6, Hm| |].
      * intros Hu Hs _. rewrite Ec, A6, Hm by done. apply Hs, Hd.
      * intros _. right. split_and!; try done. intros Ecp _. rewrite Ec, A6. unfold merged_byte.
        case_decide; congruence.
    + rewrite decide_False in A6 by tauto. apply undisturbed_clean.
      * by intros [[? _] _].
      * done.
      * by apply clean_unmodified.
      * intros _ [H _]. rewrite A1 in H. by destruct Ht.
  - rewrite decide_False in A6 by tauto. by apply undisturbed_same.
Qed.

Lemma flushed_quiet pend s s' r l :
  inv_pend pend s -> node r -> (forall i, i ∈ l -> i ∈ wb s r) -> flushed s s' r l -> quiet s s' r.
Proof using Hc.
  intros Hi Hr Hl [A1 A2 A3 A4 A5 A6 A7 A8]. split.
  - intros x i Hx. rewrite A1, decide_False by tauto. done.
  - intros x a _. by rewrite A4.
  - intros x a _. by rewrite A5.
  - intros x q Hx Hq. apply A7; [done|]. tauto.
  - intros q j Hq Hj. by apply (flushed_undisturbed pend s s' r l).
  - intros q Hq Hnd [[H1 H2] H3]. apply Hnd. rewrite A1 in H1, H2, H3.
    case_decide as E; [done|]. done.
Qed.

(** ** Evicting a slot *)
Lemma remove_first_spec (l : list Z) i : NoDup l ->
  NoDup (remove_first i l) /\ forall k, k ∈ remove_first i l <-> k ∈ l /\ k ≠ i.
Proof.
  induction l as [|x l IH]; intros Hn; simpl.
  - split; [done|]. intros k. rewrite elem_of_nil. tauto.
  - apply NoDup_cons in Hn as [H1 H2]. destruct (Z.eqb_spec x i) as [->|Hne].
    + split; [done|]. intros k. rewrite elem_of_cons. split; [|tauto].
      intros Hk. split; [tauto|]. by intros ->.
    + destruct (IH H2) as [I1 I2]. split.
      * apply NoDup_cons. split; [|done]. rewrite I2. tauto.
      * intros k. rewrite !elem_of_cons, I2. split; [intros [->|?]; tauto|tauto].
Qed.

Lemma retired_quiet s s' r idx t :
  cd_dirty (cc s r idx) = CLEAN -> retired c s s' r idx t -> quiet s s' r.
Proof.
  intros Hcl [Ecc Et Es Ec Ep Eh Ev Ew]. split.
  - intros x i Hx. rewrite Ecc, decide_False by tauto. done.
  - intros x a _. by rewrite Ec.
  - intros x a _. by rewrite Ep.
  - intros x q Hx _. rewrite Ev, !decide_False by tauto. done.
  - intros q j _ _. specialize (Ecc r (cidx q)).
    assert (E : home_byte s' q j = home_byte s q j) by (unfold SwdsmInv.home_byte; by rewrite Eh).
    destruct (decide (r = r /\ cidx q = idx)) as [[_ Hq]|Hne].
    + apply undisturbed_clean; [intros [_ ?]; congruence|done| |].
      * intros [_ H]. by rewrite Ecc in H.
      * intros _ [_ H]. by rewrite Ecc in H.
    + apply undisturbed_same; [done| | |done].
      * unfold SwdsmInv.cache_byte. by rewrite Ec.
      * unfold SwdsmInv.copy_byte. by rewrite Ep.
  - intros q Hq Hnd [[H1 H2] H3]. apply Hnd. rewrite Ecc in H1, H2, H3.
    case_decide as E; [done|]. done.
Qed.

(** Two states that differ at most in the dirty bit of one slot. *)
Record agree (s s' : dsm) (r idx : Z) : Prop := {
  ag_tag : cd_tag (cc s' r idx) = cd_tag (cc s r idx);
  ag_state : cd_state (cc s' r idx) = cd_state (cc s r idx);
  ag_cc x i : ~ (x = r /\ i = idx) -> cc s' x i = cc s x i;
  ag_touched x i : touched s' x i = touched s x i;
  ag_sh x i : sh s' x i = sh s x i;
  ag_cache : cacheData s' = cacheData s;
  ag_copy : pagecopy s' = pagecopy s;
  ag_home x a : mget (globalData s') x a = mget (globalData s) x a;
  ag_vm x p : vmap s' x p = vmap s x p;
  ag_wb x : wb s' x = wb s x;
}.

(** The end of [evict_entry]. *)
Definition retag (s : dsm) (r idx old t : Z) : dsm :=
  let s := set_state c s r idx INVALID in
  let s := set_tag c s r idx t in
  let s := set_dirty c s r idx CLEAN in
  let s := map_memory s r t (BCache idx) PROT_NONE in
  mprotect s r old PROT_NONE.

Lemma retag_retired s s1 r idx old t :
  agree s s1 r idx -> cd_tag (cc s r idx) = old -> old ≠ t -> retired c s (retag s1 r idx old t) r idx t.
Proof.
  intros [E1 _ E2 E3 E4 E5 E6 E7 E8 E9] Hold Hne. unfold retag. split; try done.
  - intros x i. dsm_get. rewrite !(decide_True (P := r = r /\ idx = idx)) by done. cbn [cd_state].
    repeat case_decide; try done. by apply E2.
  - intros x i _. apply E3.
  - intros x p. dsm_get. rewrite Hold, (decide_False (P := r = r /\ old = t)) by tauto.
    rewrite !E8. repeat case_decide; try done; destruct_and?; subst; tauto.
Qed.

(** Slot [idx] can be given to page [t]: a modified page it holds is in the buffer. *)
Definition evictable (pend : Z -> Z -> Prop) (s : dsm) (r idx t : Z) : Prop :=
  cd_dirty (cc s r idx) = DIRTY -> cd_tag (cc s r idx) ≠ t -> ~ pend r idx.

(** A dirty slot's write-back, as the eviction does it. *)
Lemma evict_write_back {pend} s r idx :
  inv_pend pend s -> node r -> 0 <= idx < cachesize c -> cd_dirty (cc s r idx) = DIRTY ->
  exists s0 s1, (s' ← storepageDIFF c pl (mprotect s r (cd_tag (cc s r idx)) PROT_READ) r idx (cd_tag (cc s r idx));
      Ok (wb_erase s' r idx)) = Ok s1 /\ wrote_back s s0 r idx /\ agree s0 s1 r idx.
Proof using Hc.
  intros Hi Hr Hidx Hd. set (old := cd_tag (cc s r idx)).
  destruct (slot_of_dirty c pl s r idx (iv_slot _ _ _ _ Hi r idx Hr Hidx) Hd) as [Hslot Hv].
  destruct (remove_first_spec (wb s r) idx (wk_nodup _ _ _ _ (iv_wb _ _ _ _ Hi r Hr))) as [Hn Hel].
  destruct (write_back_ok pend s r _ idx Hi Hr Hidx Hd Hn Hel) as (s0 & E0 & Hw0 & Hb).
  destruct Hslot as [Hp Hpi Hrem Hmap _ _]. fold old in Hp, Hpi, Hrem, Hmap.
  destruct (storepageDIFF_spec c pl Hc (mprotect s r old PROT_READ) r old Hp) as (m & E & Hm).
  { dsm_get. rewrite decide_True by done. by rewrite Hmap, Hpi. }
  { dsm_get. by rewrite decide_True. }
  rewrite Hpi in E. rewrite E. cbn [mbind outcome_bind]. exists s0. eexists.
  split; [reflexivity|]. split; [done|]. destruct Hb as [B1 B2 B3 B4 B5 B6 B7 B8 B9 B10]. split.
  - rewrite B1, decide_True by done. done.
  - rewrite B1, decide_True by done. exact Hv.
  - intros x i Hne. rewrite B1, decide_False by done. done.
  - intros. by rewrite B2.
  - intros. by rewrite B3.
  - by rewrite B4.
  - by rewrite B5.
  - intros x a. rewrite B6. dsm_get. cbn [globalData set_globalData]. rewrite Hm. done.
  - intros x p. rewrite B7. dsm_get. fold old. by rewrite Hmap.
  - intros x. dsm_get. case_decide as Ex; [by rewrite Ex, Hw0|]. by rewrite B8.
Qed.

Lemma evict_entry_ok {pend} s r idx t :
  inv_pend pend s -> node r -> page t -> cidx t = idx -> home t ≠ r -> evictable pend s r idx t ->
  exists s', evict_entry c pl s r idx t = Ok s' /\ inv_pend pend s' /\ quiet s s' r /\
    (forall x i, sh s' x i = sh s x i) /\
    (forall i, i ≠ idx -> cc s' r i = cc s r i) /\
    (if decide (cd_tag (cc s r idx) = t \/ cd_tag (cc s r idx) = GLOBAL_NULL c) then s' = s
     else cc s' r idx = {| cd_state := INVALID; cd_dirty := CLEAN; cd_tag := t |}).
Proof using Hc.
  intros Hi Hr Ht Hti Htr Hev. unfold evict_entry.
  assert (Hidx : 0 <= idx < cachesize c) by (rewrite <- Hti; by eauto with argo).
  set (old := cd_tag (cc s r idx)).
  destruct (Z.eqb_spec old t) as [E1|E1]; [|destruct (Z.eqb_spec old (GLOBAL_NULL c)) as [E2|E2]];
    cbn [negb andb].
  { exists s. rewrite decide_True by auto. split_and!; try done. }
  { exists s. rewrite decide_True by auto. split_and!; try done. }
  pose proof (slot_of_tag c pl s r idx (iv_slot _ _ _ _ Hi r idx Hr Hidx) E2) as Hslot.
  assert (exists s0 s1, (match cd_dirty (cc s r idx) with
            | DIRTY => s ← storepageDIFF c pl (mprotect s r old PROT_READ) r idx old; Ok (wb_erase s r idx)
            | CLEAN => Ok s end) = Ok s1 /\ agree s0 s1 r idx /\ inv_pend pend s0 /\ quiet s s0 r /\
            cd_dirty (cc s0 r idx) = CLEAN /\ cd_tag (cc s0 r idx) = old /\
            (forall x i, ~ (x = r /\ i = idx) -> cc s0 x i = cc s x i) /\
            (forall x i, sh s0 x i = sh s x i))
    as (s0 & s1 & -> & Hag & Hi0 & Hq0 & Hcl0 & Htag0 & Hcc0 & Hsh0).
  { destruct (cd_dirty (cc s r idx)) eqn:Hd; [by exists s, s|].
    destruct (evict_write_back s r idx Hi Hr Hidx Hd) as (s0 & s1 & E & Hb & Hag).
    fold old in E. exists s0, s1. split; [done|]. split; [done|].
    split; [by apply (inv_wrote_back c pl Hc pend s s0 r idx)|].
    pose proof (wrote_back_flushed pend s s0 r idx Hi Hr Hidx Hd Hb) as Hf.
    split. { apply (flushed_quiet pend s s0 r [idx]); try done. intros i ->%list_elem_of_singleton.
      by apply (dirty_buffered (pend := pend)); [..|apply Hev]. }
    pose proof (wt_cc _ _ _ _ _ _ Hb) as Ecc.
    rewrite Ecc, decide_True by done. split_and!; try done.
    - intros x i Hne. by rewrite Ecc, decide_False.
    - intros. apply Hb. }
  cbn [mbind outcome_bind]. fold (retag s1 r idx old t). eexists. split; [reflexivity|].
  pose proof (retag_retired s0 s1 r idx old t Hag Htag0 E1) as Hret.
  assert (Hsl0 : slot_of c pl s0 r idx).
  { apply slot_of_tag; [|by rewrite Htag0]. by apply (iv_slot _ _ _ _ Hi0). }
  split; [by apply (inv_retired c pl Hc pend s0 _ r idx t)|].
  split; [apply (quiet_trans s s0); [done|by apply (retired_quiet s0 _ r idx t)]|].
  pose proof (rt_cc _ _ _ _ _ _ Hret) as Ecc. rewrite decide_False by tauto. split_and!.
  - intros x i. rewrite (rt_sh _ _ _ _ _ _ Hret). apply Hsh0.
  - intros i Hne. rewrite Ecc, decide_False by tauto. by apply Hcc0; tauto.
  - by rewrite Ecc, decide_True.
Qed.

(** ** Loading *)

(** [n] consecutive pages from [p] that live contiguously on one remote node and
    have consecutive slots. *)
Record extent (r p n : Z) : Prop := {
  ex_pos : 1 <= n;
  ex_page k : 0 <= k < n -> page (p + k * PAGE_SIZE);
  ex_cidx k : 0 <= k < n -> cidx (p + k * PAGE_SIZE) = cidx p + k;
  ex_cls k : 0 <= k < n -> cls (p + k * PAGE_SIZE) = cls p + 2 * k;
  ex_home k : 0 <= k < n -> home (p + k * PAGE_SIZE) = home p;
  ex_off k : 0 <= k < n -> off (p + k * PAGE_SIZE) = off p + k * PAGE_SIZE;
  ex_remote : home p ≠ r;
}.

Lemma extent_one r p : page p -> home p ≠ r -> extent r p 1.
Proof using Hc.
  intros Hp Hr. split; try lia; try done; intros k Hk; assert (k = 0) as -> by lia;
    rewrite ?Z.mul_0_l, ?Z.mul_0_r, ?Z.add_0_r; done.
Qed.

Lemma load_extent_ok r p todo : forall k,
  page p -> home p ≠ r -> extent r p k ->
  exists n, load_extent c pl todo p (cidx p) (home p) (off p) k = Ok n /\ extent r p n /\ n <= k + Z.of_nat todo.
Proof using Hc.
  induction todo as [|todo IH]; intros k Hp Hr Hex; [by exists k; split_and!; [..|lia]|].
  cbn [load_extent]. cbv zeta.
  destruct (Z.ltb_spec (p + k * PAGE_SIZE) (size_of_all c)) as [Hlt|]; [|by exists k; split_and!; [..|lia]].
  destruct (Z.ltb_spec (cidx p + k) (cachesize c)) as [Hlt2|]; [|by exists k; split_and!; [..|lia]]. cbn [andb].
  pose proof (ex_pos _ _ _ Hex) as Hk.
  pose proof (page_add c pl Hc p k Hp ltac:(lia) Hlt) as Hpk.
  destruct (lookups_ok c pl Hc _ Hpk) as (_ & -> & _ & -> & _). cbn [mbind outcome_bind].
  destruct (Z.eqb_spec (home (p + k * PAGE_SIZE)) (home p)) as [Eh|]; [|by exists k; split_and!; [..|lia]].
  destruct (Z.eqb_spec (off (p + k * PAGE_SIZE)) (off p + k * PAGE_SIZE)) as [Eo|]; [|by exists k; split_and!; [..|lia]].
  cbn [andb]. destruct (_ && _) eqn:Ec; [|by exists k; split_and!; [..|lia]].
  destruct (IH (k + 1)) as (n & En & Hn & Hle); [done|done| |exists n; split_and!; [done..|lia]]. destruct Hex as [A B C D E F G].
  split; try done; [lia|..]; intros i Hi; (destruct (decide (i = k)) as [->|]; [|auto with lia]); try done.
  - apply (cidx_add c pl Hc); lia.
  - apply (cls_add c pl Hc); try done; lia.
Qed.

(** A slot that can be filled with page [p]. *)
Definition slot_ready (s : dsm) (r p : Z) : Prop :=
  cd_state (cc s r (cidx p)) = INVALID /\ cd_dirty (cc s r (cidx p)) = CLEAN /\
  (cd_tag (cc s r (cidx p)) = p \/ cd_tag (cc s r (cidx p)) = GLOBAL_NULL c).

Definition load_ready (s : dsm) (r p : Z) (b : bool) : Prop :=
  if b then slot_ready s r p else holds s r p.

(** A modified page that a load of [n] pages from [p] does not evict. *)
Definition spared (s : dsm) (r p n i : Z) : Prop :=
  cd_dirty (cc s r i) = DIRTY /\ forall k, 0 <= k < n -> i = cidx p + k -> cd_tag (cc s r i) = p + k * PAGE_SIZE.

Lemma evict_entries_ok {pend} s r p n :
  inv_pend pend s -> node r -> extent r p n -> (forall k, 0 <= k < n -> evictable pend s r (cidx p + k) (p + k * PAGE_SIZE)) ->
  exists s' pages, evict_entries c pl s r p (cidx p) n = Ok (s', pages) /\
    inv_pend pend s' /\ quiet s s' r /\ (forall x i, sh s' x i = sh s x i) /\
    (forall k, 0 <= k < n -> load_ready s' r (p + k * PAGE_SIZE) (vec false pages k)) /\
    (~ holds s r p -> vec false pages 0 = true) /\
    (forall i, spared s r p n i -> cc s' r i = cc s r i /\ forall k, 0 <= k < n -> i = cidx p + k -> vec false pages k = false).
Proof using Hc.
  intros Hi Hr Hex Hev. unfold evict_entries.
  destruct (for_range_ok n (fun i '(s, pages_to_load) =>
      let temp_addr := p + i * PAGE_SIZE in let idx := cidx p + i in let e := cc s r idx in
      if (cd_tag e =? temp_addr) && bool_decide (cd_state e ≠ INVALID)
      then Ok (s, pages_to_load ++ [false])
      else s ← evict_entry c pl s r idx temp_addr; Ok (s, pages_to_load ++ [true]))
    (fun k '(s1, pages) => inv_pend pend s1 /\ quiet s s1 r /\ (forall x i, sh s1 x i = sh s x i) /\
      Z.of_nat (length pages) = k /\
      (forall i, 0 <= i < k -> load_ready s1 r (p + i * PAGE_SIZE) (vec false pages i)) /\
      (forall i, cidx p + k <= i -> cc s1 r i = cc s r i) /\
      (0 < k -> ~ holds s r p -> vec false pages 0 = true) /\
      (forall i, spared s r p n i -> cc s1 r i = cc s r i /\ forall j, 0 <= j < k -> i = cidx p + j -> vec false pages j = false)) (s, []))
    as ([s' pages] & E & H1 & H2 & H3 & H4 & H5 & _ & H7 & H8).
  - pose proof (ex_pos _ _ _ Hex). lia.
  - split_and!; try done; intros; try lia. split; [done|intros; lia].
  - intros k [s1 pages] Hk (I1 & I2 & I3 & I4 & I5 & I6 & I7 & I8). cbv zeta.
    pose proof (ex_page _ _ _ Hex k Hk) as Hpk. pose proof (ex_cidx _ _ _ Hex k Hk) as Eidx.
    pose proof (ex_home _ _ _ Hex k Hk) as Eh. pose proof (ex_remote _ _ _ Hex) as Hrem.
    set (t := p + k * PAGE_SIZE) in *.
    destruct ((cd_tag (cc s1 r (cidx p + k)) =? t) && bool_decide (cd_state (cc s1 r (cidx p + k)) ≠ INVALID)) eqn:Eb.
    + apply andb_true_iff in Eb as [Et%Z.eqb_eq Ev%bool_decide_eq_true].
      assert (Hv : holds s1 r t).
      { split; rewrite Eidx; [done|]. by destruct (cd_state _). }
      eexists. split; [reflexivity|]. split_and!; try done.
      * rewrite length_app; simpl; lia.
      * intros i Hi'. rewrite vec_snoc by lia. case_decide; [apply I5; lia|].
        assert (i = k) as -> by lia. by rewrite decide_True by lia.
      * intros i Hi'. apply I6. lia.
      * intros _ Hnh. rewrite vec_snoc by lia. case_decide; [apply I7; [lia|done]|].
        exfalso. apply Hnh. assert (k = 0) as -> by lia.
        unfold t in Hv. rewrite Z.mul_0_l, Z.add_0_r in Hv. unfold SwdsmInv.holds in *.
        by rewrite I6 in Hv by lia.
      * intros i Hsp. destruct (I8 i Hsp) as [E1 E2]. split; [done|]. intros j Hj Ej. rewrite vec_snoc by lia.
        case_decide; [apply E2; [lia|done]|]. by rewrite decide_True by lia.
    + destruct (evict_entry_ok s1 r (cidx p + k) t I1 Hr Hpk Eidx) as (s2 & -> & J1 & J2 & J3 & J4 & J5);
        [congruence|unfold evictable; rewrite I6 by lia; by apply Hev|]. cbn [mbind outcome_bind]. eexists. split; [reflexivity|].
      assert (Hrdy : slot_ready s2 r t).
      { unfold slot_ready. rewrite Eidx. case_decide as Ed; [|by rewrite J5; simpl; auto]. subst s2.
        assert (Hsl : slot_ok c pl s1 r (cidx p + k)).
        { apply (iv_slot _ _ _ _ I1); [done|]. rewrite <- Eidx. by eauto with argo. }
        destruct Hsl as [[E0 _]|Hsl]; [by rewrite E0; simpl; auto|].
        destruct Ed as [Et|En]; [|by destruct (not_null c _ (sl_page _ _ _ _ _ Hsl))].
        apply andb_false_iff in Eb as [Eb|Eb]; [by apply Z.eqb_neq in Eb|].
        apply bool_decide_eq_false in Eb.
        assert (Est : cd_state (cc s1 r (cidx p + k)) = INVALID) by (by destruct (cd_state _); [|destruct Eb]).
        split_and!; [done|by apply (sl_clean _ _ _ _ _ Hsl)|by left]. }
      assert (Hns : forall i, spared s r p n i -> i <> cidx p + k).
      { intros i Hsp ->. destruct Hsp as [Hsd Hst]. specialize (Hst k Hk eq_refl).
        assert (Hidx : 0 <= cidx p + k < cachesize c) by (rewrite <- Eidx; by eauto with argo).
        destruct (slot_of_dirty c pl s r _ (iv_slot _ _ _ _ Hi r _ Hr Hidx) Hsd) as [_ Hsv].
        rewrite I6, Hst, Hsv, Z.eqb_refl in Eb by lia. done. }
      clear J5 Eb. split_and!; try done.
      * by apply (quiet_trans s s1).
      * intros. by rewrite J3.
      * rewrite length_app; simpl; lia.
      * intros i Hi'. rewrite vec_snoc by lia. case_decide.
        -- specialize (I5 i ltac:(lia)). unfold load_ready, slot_ready, SwdsmInv.holds in *.
           rewrite (ex_cidx _ _ _ Hex i) in I5 |- * by lia. by rewrite J4 by lia.
        -- assert (i = k) as -> by lia. by rewrite decide_True by lia.
      * intros i Hi'. rewrite J4 by lia. apply I6. lia.
      * intros _ Hnh. rewrite vec_snoc by lia. case_decide; [apply I7; [lia|done]|].
        assert (k = 0) as -> by lia. by rewrite decide_True by lia.
      * intros i Hsp. destruct (I8 i Hsp) as [E1 E2]. pose proof (Hns i Hsp) as Hne. split; [by rewrite J4|].
        intros j Hj Ej. rewrite vec_snoc by lia. case_decide; [apply E2; [lia|done]|]. exfalso. apply Hne. rewrite Ej. f_equal. lia.
  - exists s', pages. split; [exact E|]. split_and!; try done. intros Hnh. apply H7; [|done].
    pose proof (ex_pos _ _ _ Hex). lia.
Qed.

End Ops.
