(* ===== verification/SwdsmLoad.v ===== *)
(** * Loading pages and handling faults

    The phases of [load_cache_entry] and the fault handler on top of them. *)

From S2P Require Import Prelude BlockMap DataDistribution FirstTouch GlobalPtr Mem Swdsm SwdsmBase SwdsmInv SwdsmDir SwdsmOps.

Section Load.

Context (c : dsm_config) (pl : placement) (Hc : cfg_ok c pl) {PB : plain_bytes}.

Abbreviation N := (numtasks c).
Abbreviation node := (node c).
Abbreviation page := (page c).
Abbreviation home := (home c pl).
Abbreviation off := (off c pl).
Abbreviation cidx := (cidx c).
Abbreviation cls := (cls c).
Abbreviation cc := (cc c).
Abbreviation shr := (shr c).
Abbreviation wr := (wr c).
Abbreviation holds := (holds c).
Abbreviation inv_pend := (inv_pend c pl).
Abbreviation inv := (inv c pl).
Abbreviation dir_sh_ok := (dir_sh_ok c pl).
Abbreviation dir_step := (dir_step c pl).
Abbreviation local_bits_kept := (local_bits_kept c pl).
Abbreviation noted := (noted c).

Section Batch.

Context (r p n : Z) (pages : list bool).
Context (Hr : node r) (Hex : extent c pl r p n).

Abbreviation pg k := (p + k * PAGE_SIZE).
Abbreviation flag k := (vec false pages k).

Lemma page_first : page p.
Proof using Hex.
  pose proof (ex_page _ _ _ _ _ Hex 0) as H. pose proof (ex_pos _ _ _ _ _ Hex).
  rewrite Z.mul_0_l, Z.add_0_r in H. apply H. lia.
Qed.

Lemma load_class_eq k : load_class c p k = cls (pg k).
Proof. done. Qed.

Lemma load_class_first : get_sharer_win_offset (load_class c p 0) = cls p.
Proof using Hc Hex.
  rewrite load_class_eq, Z.mul_0_l, Z.add_0_r. apply (win_offset c pl Hc), page_first.
Qed.

(** The page of a directory index in the batch. *)
Lemma batch_page q : page q -> cls p <= cls q < cls p + 2 * n ->
  exists k, 0 <= k < n /\ q = pg k /\ cls q = cls p + 2 * k.
Proof using Hc Hex.
  intros Hq Hb. pose proof page_first as Hp.
  destruct (cls_eq c pl Hc q Hq) as [Eq _], (cls_eq c pl Hc p Hp) as [Ep _].
  exists (q / PAGE_SIZE - p / PAGE_SIZE). split; [lia|].
  pose proof (page_bounds c pl Hc q Hq). pose proof (page_bounds c pl Hc p Hp).
  split; [unfold PAGE_SIZE in *; lia|lia].
Qed.

(** One accumulate over the batch that adds the bit of [r] to some sharers. *)
Lemma or_pairs_noted s x (f : Z -> Z) :
  (forall k, 0 <= k < n -> f k = 0 \/ f k = node_bit r) ->
  let s' := or_range s x (cls p) (flat_map (fun i => [f i; 0]) (seqZ 0 n)) in
  noted s s' x r /\ forall k, 0 <= k < n -> shr s' x (pg k) = Z.lor (shr s x (pg k)) (f k).
Proof using Hc Hex.
  intros Hf s'. pose proof page_first as Hp. pose proof (ex_pos _ _ _ _ _ Hex).
  assert (Hlen : Z.of_nat (length (flat_map (fun i => [f i; 0]) (seqZ 0 n))) = 2 * n).
  { rewrite length_pairs, length_seqZ. lia. }
  assert (Hk : forall k, 0 <= k < n -> shr s' x (pg k) = Z.lor (shr s x (pg k)) (f k)).
  { intros k Hk. unfold SwdsmInv.shr, s'. rewrite sh_or_range, (ex_cls _ _ _ _ _ Hex) by done.
    rewrite decide_True by lia. replace (cls p + 2 * k - cls p) with (2 * k) by ring.
    by rewrite (proj1 (vec_pairs f n k Hk)). }
  split; [|done]. intros y q Hq. split.
  - unfold SwdsmInv.wr, s'. rewrite sh_or_range. case_decide as E; [|done]. destruct E as [-> E].
    destruct (decide (cls p <= cls q < cls p + 2 * n)) as [Hb|Hb].
    + destruct (batch_page q Hq Hb) as (k & Hk' & _ & Ek). rewrite Ek.
      replace (cls p + 2 * k + 1 - cls p) with (2 * k + 1) by ring.
      rewrite (proj2 (vec_pairs f n k Hk')). apply Z.lor_0_r.
    + destruct (cls_eq c pl Hc q Hq) as [Eq _], (cls_eq c pl Hc p Hp) as [Ep _]. lia.
  - destruct (decide (y = x /\ cls p <= cls q < cls p + 2 * n)) as [[-> Hb]|Hb].
    + destruct (batch_page q Hq Hb) as (k & Hk' & -> & _). rewrite Hk by done.
      destruct (Hf k Hk') as [-> | ->]; [left; apply Z.lor_0_r|by right].
    + left. unfold SwdsmInv.shr, s'. rewrite sh_or_range, decide_False by lia. done.
Qed.

(** ** Registering at the home node *)
Definition is_sharer (s : dsm) (k : Z) : bool := has_bit (shr s r (pg k)) r.

Lemma local_sharers_at s k : 0 <= k < n ->
  (vec 0 (load_local_sharers c r p n pages s) k =? 0) = negb (flag k && is_sharer s k).
Proof using Hc Hr.
  intros Hk. unfold load_local_sharers. rewrite vec_fmap by done.
  pose proof (node_lt_64 c pl Hc r Hr). destruct (flag k); [|done].
  rewrite load_class_eq. apply land_bit_zero. lia.
Qed.

Record registered (s s' : dsm) (remote : list Z) : Prop := {
  rg_same : same_but_sh s s';
  rg_noted : noted s s' (home p) r;
  rg_bit k : 0 <= k < n -> flag k = true -> is_sharer s k = false ->
    has_bit (shr s' (home p) (pg k)) r = true;
  rg_mask k : 0 <= k < n -> mask_of N (vec 0 remote (k * 2)) /\ mask_of N (vec 0 remote (k * 2 + 1));
  rg_sound k x : 0 <= k < n -> has_bit (vec 0 remote (k * 2 + 1)) x = true ->
    has_bit (wr s (home p) (pg k)) x = true;
  rg_complete k x : 0 <= k < n -> flag k = true -> is_sharer s k = false ->
    has_bit (wr s (home p) (pg k)) x = true -> has_bit (vec 0 remote (k * 2 + 1)) x = true;
}.

Lemma load_register_ok s :
  (forall q, page q -> dir_sh_ok s q) ->
  exists remote s', load_register c r p (home p) n pages s (load_local_sharers c r p n pages s)
    = (remote, s') /\ registered s s' remote.
Proof using Hc Hr Hex.
  intros Hd. pose proof page_first as Hp. pose proof (home_node c pl Hc p Hp) as Hh.
  pose proof (node_lt_64 c pl Hc r Hr) as Hr64.
  unfold load_register. rewrite load_class_first. cbv zeta.
  set (local := load_local_sharers c r p n pages s).
  assert (Hloc : forall k, 0 <= k < n -> (flag k && (vec 0 local k =? 0)) = flag k && negb (is_sharer s k)).
  { intros k Hk. unfold local. rewrite local_sharers_at by done. by destruct (flag k), (is_sharer s k). }
  destruct (load_new_sharer n pages local) eqn:Enew.
  - eexists _, _. split; [reflexivity|]. unfold load_bit_mask.
    set (f := fun i => if flag i && (vec 0 local i =? 0) then node_bit r else 0).
    destruct (or_pairs_noted s (home p) f) as [Hn Hb].
    { intros k Hk. unfold f. destruct (_ && _); auto. }
    fold f in Hn, Hb.
    assert (Hrem : forall k, 0 <= k < n ->
              vec 0 (sh_range s (home p) (cls p) (n * 2)) (k * 2) = shr s (home p) (pg k) /\
              vec 0 (sh_range s (home p) (cls p) (n * 2)) (k * 2 + 1) = wr s (home p) (pg k)).
    { intros k Hk. unfold sh_range. rewrite !vec_fmap by lia. unfold SwdsmInv.shr, SwdsmInv.wr.
      rewrite (ex_cls _ _ _ _ _ Hex) by done. split; f_equal; lia. }
    split; try done.
    + apply or_range_same.
    + intros k Hk Hfl Hns. rewrite Hb by done. unfold f. rewrite Hloc, Hfl, Hns by done.
      cbn [negb andb]. rewrite has_bit_or_node by lia. rewrite bool_decide_true by done. apply orb_true_r.
    + intros k Hk. destruct (Hrem k Hk) as [-> ->].
      apply (dk_mask _ _ _ _ (Hd _ (ex_page _ _ _ _ _ Hex k Hk)) (home p) Hh).
    + intros k x Hk. destruct (Hrem k Hk) as [_ ->]. done.
    + intros k x Hk _ _. destruct (Hrem k Hk) as [_ ->]. done.
  - eexists _, _. split; [reflexivity|].
    assert (Hnone : forall k, 0 <= k < n -> flag k = true -> is_sharer s k = false -> False).
    { intros k Hk Hfl Hns. assert (Hex' : load_new_sharer n pages local = true); [|congruence].
      apply existsb_exists. exists k. split; [apply list_elem_of_In, elem_of_seqZ; lia|].
      by rewrite Hloc, Hfl, Hns. }
    split.
    + reflexivity.
    + intros y q Hq. split; [done|by left].
    + intros k Hk Hfl Hns. by destruct (Hnone k).
    + intros k Hk. rewrite !vec_replicate. split; apply mask_of_0.
    + intros k x Hk. rewrite vec_replicate. unfold has_bit. by rewrite Z.bits_0.
    + intros k x Hk Hfl Hns. by destruct (Hnone k).
Qed.

(** ** Merging *)
Lemma load_merge_ok s s1 remote :
  (forall q, page q -> dir_sh_ok s q) -> registered s s1 remote ->
  exists s2, load_merge c r p n pages s1 remote = Ok s2 /\ same_but_sh s s2 /\ dir_step s s2 /\
    local_bits_kept s s2 (fun _ => False) /\
    forall k, 0 <= k < n -> flag k = true -> has_bit (shr s2 r (pg k)) r = true.
Proof using Hc Hr Hex.
  intros Hd [Hsame Hn Hbit Hmask Hsound Hcomp].
  pose proof (node_lt_64 c pl Hc r Hr) as Hr64. pose proof (ex_remote _ _ _ _ _ Hex) as Hrem.
  pose proof (noted_dir_step c pl Hc s s1 (home p) r Hr Hrem Hn Hd) as Hstep1.
  pose proof (noted_kept c pl s s1 (home p) r ltac:(lia) Hrem Hn) as Hkept1.
  destruct (for_range_ok n (fun i s => if flag i then Ok (merge_entry c s r (pg i) (vec 0 remote (i * 2)) (vec 0 remote (i * 2 + 1))) else Ok s)
    (fun k s2 => same_but_sh s s2 /\ dir_step s s2 /\ local_bits_kept s s2 (fun _ => False) /\
       (forall i, 0 <= i < n -> shr s2 (home p) (pg i) = shr s1 (home p) (pg i) /\
                                wr s2 (home p) (pg i) = wr s (home p) (pg i)) /\
       (forall i, k <= i < n -> shr s2 r (pg i) = shr s1 r (pg i)) /\
       (forall i, 0 <= i < k -> flag i = true -> has_bit (shr s2 r (pg i)) r = true)) s1)
    as (s2 & E & A & B & C & _ & _ & D).
  - pose proof (ex_pos _ _ _ _ _ Hex). lia.
  - split_and!; try done; [|intros; lia]. intros i Hi. split; [done|].
    by destruct (Hn (home p) (pg i) (ex_page _ _ _ _ _ Hex i Hi)).
  - intros k s2 Hk (A & B & C & D & F & G).
    destruct (flag k) eqn:Hfl; cycle 1.
    { exists s2. split_and!; try done; [intros; apply F; lia|].
      intros i Hi Hfi. destruct (decide (i = k)) as [->|]; [congruence|]. apply G; [lia|done]. }
    eexists. split; [reflexivity|]. pose proof (ex_page _ _ _ _ _ Hex k Hk) as Hpk.
    destruct (D k Hk) as [Dk1 Dk2]. destruct (Hmask k Hk) as [Hm1 Hm2].
    assert (Eown : has_bit (shr s2 r (pg k)) r = is_sharer s k).
    { rewrite F by lia. by apply (noted_own c s s1 (home p) r); try done; lia. }
    destruct (merge_entry_step c pl Hc s2 r (pg k) (vec 0 remote (k * 2)) (vec 0 remote (k * 2 + 1)))
      as (M1 & M2 & M3); try done.
    + by rewrite (ex_home _ _ _ _ _ Hex).
    + intros q Hq. by apply (dt_ok _ _ _ _ B).
    + rewrite (ex_home _ _ _ _ _ Hex), Dk1 by done. destruct (is_sharer s k) eqn:Es.
      * apply (noted_mono c s s1 (home p) r); [lia|done|done|].
        pose proof (dk_sharer _ _ _ _ (Hd _ Hpk) r Hr Es) as Hb. by rewrite (ex_home _ _ _ _ _ Hex) in Hb.
      * by apply Hbit.
    + intros x Hx. rewrite (ex_home _ _ _ _ _ Hex), Dk2 by done. by apply Hsound.
    + rewrite Eown, (ex_home _ _ _ _ _ Hex), Dk2 by done. destruct (is_sharer s k) eqn:Es; [by left|].
      right. intros x. by apply Hcomp.
    + split_and!.
      * transitivity s2; [done|]. unfold merge_entry.
        etransitivity; [|apply or_sh_same]. etransitivity; [|apply or_sh_same]. apply or_sh_same.
      * by apply (dir_step_trans _ _ s s2).
      * intros q Hq Hx. rewrite (M2 q Hq Hx). by apply C.
      * intros i Hi. rewrite (merge_entry_shr c pl Hc), (merge_entry_wr c pl Hc) by (done || by apply (ex_page _ _ _ _ _ Hex)).
        rewrite !decide_False by tauto. by apply D.
      * intros i Hi. rewrite (merge_entry_shr c pl Hc) by (done || apply (ex_page _ _ _ _ _ Hex); lia).
        rewrite decide_False; [apply F; lia|]. intros [_ Ei]. unfold PAGE_SIZE in Ei. lia.
      * intros i Hi Hfi. destruct (decide (i = k)) as [->|]; [done|].
        rewrite (merge_entry_shr c pl Hc) by (done || apply (ex_page _ _ _ _ _ Hex); lia).
        rewrite decide_False; [apply G; [lia|done]|]. intros [_ Ei]. unfold PAGE_SIZE in Ei. lia.
  - exists s2. split; [exact E|]. done.
Qed.

(** ** Notifying previous owners *)
Lemma single_owner v :
  mask_of N v -> isZeroOrPowerOf2 (Z.land v (inv_bit r)) = true -> Z.land v (inv_bit r) ≠ 0 ->
  exists o, find_rank c (Z.land v (inv_bit r)) = Some o /\ o ≠ r.
Proof using Hc Hr.
  intros Hm H2 H0. pose proof (ck_nodes c pl Hc) as HN.
  destruct (mask_cases N _ HN (mask_of_land N v (inv_bit r) Hm)) as [?|[(o & Ho & Eo)|[E _]]]; [done| |congruence].
  exists o. rewrite Eo, find_rank_bit by done. split; [done|].
  assert (Hb : has_bit (Z.land v (inv_bit r)) o = true)
    by (rewrite Eo, node_bit_spec by lia; by apply bool_decide_eq_true).
  rewrite (others_bit c pl Hc) in Hb by done. apply andb_true_iff in Hb as [_ Hb].
  intros ->. by rewrite bool_decide_true in Hb.
Qed.

Lemma load_downgrade_ok s local remote :
  (forall q, page q -> dir_sh_ok s q) ->
  (forall k, 0 <= k < n -> mask_of N (vec 0 remote (k * 2))) ->
  exists s', load_downgrade c r p n pages s local remote = Ok s' /\ same_but_sh s s' /\
    dir_step s s' /\ local_bits_kept s s' (fun _ => False).
Proof using Hc Hr Hex.
  intros Hd Hmask. pose proof (node_lt_64 c pl Hc r Hr) as Hr64. unfold load_downgrade.
  match goal with |- context [for_each (seqZ 0 n) ?f ?x] =>
    destruct (for_range_ok n f (fun _ '(s1, _) => same_but_sh s s1 /\ dir_step s s1 /\
      local_bits_kept s s1 (fun _ => False)) x) as ([s' h'] & E & H)
  end.
  - pose proof (ex_pos _ _ _ _ _ Hex). lia.
  - split; [reflexivity|]. split; [by apply dir_step_refl|done].
  - intros k [s1 handled] Hk (A & B & C). cbv zeta.
    destruct (flag k && negb (vec false handled k)); [|by exists (s1, handled)].
    set (b := Z.land (vec 0 remote (k * 2)) (inv_bit r)).
    destruct (isZeroOrPowerOf2 b) eqn:E1; [|by exists (s1, handled)].
    destruct (Z.eqb_spec b 0) as [E2|E2]; [by exists (s1, handled)|]. cbn [negb andb].
    destruct (vec 0 local k =? 0); [|by exists (s1, handled)].
    destruct (single_owner _ (Hmask k Hk) E1 E2) as (o & Eo & Hor). fold b in Eo. rewrite Eo.
    eexists. split; [reflexivity|]. rewrite load_class_first.
    match goal with |- context [flat_map (fun j => [if @?g j then _ else 0; 0]) _] =>
      destruct (or_pairs_noted s1 o (fun j => if g j then node_bit r else 0)) as [Hn _] end.
    { intros j _. simpl. destruct (_ || _); auto. }
    simpl in Hn. split_and!.
    + etransitivity; [exact A|apply or_range_same].
    + apply (dir_step_trans _ _ s s1); [done|]. apply (noted_dir_step c pl Hc s1 _ o r Hr Hor Hn).
      intros q Hq. by apply (dt_ok _ _ _ _ B).
    + intros q Hq Hx. rewrite (noted_kept c pl s1 _ o r ltac:(lia) Hor Hn q Hq Hx). by apply C.
  - rewrite E. cbn [mbind outcome_bind]. by exists s'.
Qed.

(** ** Filling the slots *)
Lemma page_of_data s k j :
  0 <= k < n -> 0 <= j < PAGE_SIZE ->
  byte_at (take (Z.to_nat PAGE_SIZE) (drop (Z.to_nat (k * PAGE_SIZE))
    (mem_read (globalData s) (home p) (off p) (n * PAGE_SIZE)))) j = home_byte c pl s (pg k) j.
Proof using Hex.
  intros Hk Hj. pose proof (ex_pos _ _ _ _ _ Hex).
  assert (E : byte_at (mem_read (globalData s) (home p) (off p) (n * PAGE_SIZE)) (k * PAGE_SIZE + j)
              = home_byte c pl s (pg k) j).
  { rewrite byte_at_read by (unfold PAGE_SIZE in *; lia). unfold SwdsmInv.home_byte.
    rewrite (ex_home _ _ _ _ _ Hex), (ex_off _ _ _ _ _ Hex) by done. f_equal. ring. }
  rewrite <- E. unfold byte_at. rewrite !nth_lookup. f_equal.
  rewrite lookup_take_lt, lookup_drop by lia. f_equal. unfold PAGE_SIZE in *. lia.
Qed.

Lemma data_length s k : 0 <= k < n ->
  Z.of_nat (length (take (Z.to_nat PAGE_SIZE) (drop (Z.to_nat (k * PAGE_SIZE))
    (mem_read (globalData s) (home p) (off p) (n * PAGE_SIZE))))) = PAGE_SIZE.
Proof using Hex.
  intros Hk. pose proof (ex_pos _ _ _ _ _ Hex).
  pose proof (mem_read_length (globalData s) (home p) (off p) (n * PAGE_SIZE)) as Hl.
  rewrite length_take, length_drop. unfold PAGE_SIZE in *. lia.
Qed.

(** The body of the filling loop. *)
Definition fill_page (temp_data : list Z) (k : Z) (s : dsm) : dsm :=
  let idx := cidx p + k in
  let data := take (Z.to_nat PAGE_SIZE) (drop (Z.to_nat (k * PAGE_SIZE)) temp_data) in
  let s := set_cacheData s (mem_write (cacheData s) r (idx * PAGE_SIZE) data) in
  let s := if cd_tag (cc s r idx) =? GLOBAL_NULL c
           then set_tag c (map_memory s r (pg k) (BCache idx) PROT_READ) r idx (pg k)
           else mprotect s r (pg k) PROT_READ in
  let s := set_touched s r idx 1 in
  let s := set_state c s r idx VALID in
  set_dirty c s r idx CLEAN.

Lemma fill_page_filled {pend} s0 s k :
  0 <= k < n -> inv_pend pend s -> slot_ready c s r (pg k) -> (forall x a, mget (globalData s0) x a = mget (globalData s) x a) ->
  filled c pl s (fill_page (mem_read (globalData s0) (home p) (off p) (n * PAGE_SIZE)) k s) r (cidx p + k) (pg k).
Proof using Hc Hr Hex.
  intros Hk Hi (Hst & Hcl & Htag) Hg. rewrite (ex_cidx _ _ _ _ _ Hex) in Hst, Hcl, Htag by done.
  pose proof (ex_page _ _ _ _ _ Hex k Hk) as Hpk. pose proof (data_length s0 k Hk) as Hlen.
  assert (Hdata : forall j, 0 <= j < PAGE_SIZE -> byte_at (take (Z.to_nat PAGE_SIZE) (drop (Z.to_nat (k * PAGE_SIZE))
            (mem_read (globalData s0) (home p) (off p) (n * PAGE_SIZE)))) j = home_byte c pl s (pg k) j).
  { intros j Hj. rewrite page_of_data by done. unfold SwdsmInv.home_byte. apply Hg. }
  unfold fill_page. revert Hlen Hdata. generalize (take (Z.to_nat PAGE_SIZE) (drop (Z.to_nat (k * PAGE_SIZE))
            (mem_read (globalData s0) (home p) (off p) (n * PAGE_SIZE)))) as data. intros data Hlen Hdata.
  assert (Hcache : forall x a, mget (mem_write (cacheData s) r ((cidx p + k) * PAGE_SIZE) data) x a =
     if decide (x = r /\ (cidx p + k) * PAGE_SIZE <= a < (cidx p + k) * PAGE_SIZE + PAGE_SIZE)
     then byte_at data (a - (cidx p + k) * PAGE_SIZE) else mget (cacheData s) x a).
  { intros x a. rewrite mget_write, Hlen. apply decide_ext. split; intros [-> ?]; done. }
  revert Hcache. generalize (mem_write (cacheData s) r ((cidx p + k) * PAGE_SIZE) data) as m. intros m Hcache.
  set (s1 := set_cacheData s m). change (Swdsm.cc c s1 r (cidx p + k)) with (cc s r (cidx p + k)).
  assert (Hmap : cd_tag (cc s r (cidx p + k)) = GLOBAL_NULL c \/
            (cd_tag (cc s r (cidx p + k)) = pg k /\ fst (vmap s r (pg k)) = BCache (cidx p + k))).
  { destruct Htag as [Htag|Htag]; [right|by left]. split; [done|].
    assert (Hsl : slot_of c pl s r (cidx p + k)).
    { apply slot_of_tag; [|rewrite Htag; by apply (not_null c)].
      apply (iv_slot _ _ _ _ Hi); [done|]. rewrite <- (ex_cidx _ _ _ _ _ Hex k Hk). by eauto with argo. }
    pose proof (sl_map _ _ _ _ _ Hsl) as Hm. rewrite Htag in Hm. by rewrite Hm. }
  assert (Hnew : forall j, 0 <= j < PAGE_SIZE ->
            mget m r (cidx (pg k) * PAGE_SIZE + j) = home_byte c pl s (pg k) j).
  { intros j Hj. rewrite Hcache, (ex_cidx _ _ _ _ _ Hex) by done. rewrite decide_True by lia.
    rewrite <- Hdata by done. f_equal. ring. }
  destruct (Z.eqb_spec (cd_tag (cc s r (cidx p + k))) (GLOBAL_NULL c)) as [En|En].
  - split.
    + intros x i. dsm_get. rewrite !(decide_True (P := r = r /\ _ = _)) by done. cbn [cd_state cd_dirty cd_tag].
      repeat case_decide; done.
    + intros x i. dsm_get. reflexivity.
    + intros x i. dsm_get. reflexivity.
    + intros x a Hne. dsm_get. unfold s1. cbn [cacheData set_cacheData]. by rewrite Hcache, decide_False.
    + exact Hnew.
    + reflexivity.
    + reflexivity.
    + intros x q. dsm_get. reflexivity.
    + reflexivity.
  - destruct Hmap as [?|[Et Hb]]; [done|]. split.
    + intros x i. dsm_get. rewrite !(decide_True (P := r = r /\ _ = _)) by done. cbn [cd_state cd_dirty cd_tag].
      change (Swdsm.cc c s1 r (cidx p + k)) with (cc s r (cidx p + k)). rewrite Et.
      repeat case_decide; done.
    + intros x i. dsm_get. reflexivity.
    + intros x i. dsm_get. reflexivity.
    + intros x a Hne. dsm_get. unfold s1. cbn [cacheData set_cacheData]. by rewrite Hcache, decide_False.
    + exact Hnew.
    + reflexivity.
    + reflexivity.
    + intros x q. dsm_get. unfold s1. dsm_get. by rewrite Hb.
    + reflexivity.
Qed.

Abbreviation fresh := (fun s q => holds s r q /\ cd_dirty (cc s r (cidx q)) = CLEAN /\
  forall j, 0 <= j < PAGE_SIZE -> cache_byte c s r q j = home_byte c pl s q j).

Lemma filled_quiet s s' idx q :
  page q -> cidx q = idx -> cd_dirty (cc s r idx) = CLEAN -> filled c pl s s' r idx q -> quiet c pl s s' r.
Proof.
  intros Hq Hqi Hcl [Ecc Et Es Ec Ed Ep Eh Ev Ew]. split.
  - intros x i Hx. rewrite Ecc, decide_False by tauto. done.
  - intros x a Hx. apply Ec. tauto.
  - intros x a _. by rewrite Ep.
  - intros x y Hx _. rewrite Ev, decide_False by tauto. done.
  - intros y j _ Hj. specialize (Ecc r (cidx y)).
    assert (E : home_byte c pl s' y j = home_byte c pl s y j) by (unfold SwdsmInv.home_byte; by rewrite Eh).
    destruct (decide (r = r /\ cidx y = idx)) as [[_ Hyi]|Hne].
    + apply undisturbed_clean; [intros [_ ?]; congruence|done| |].
      * intros [_ H]. by rewrite Ecc in H.
      * intros _ [H _]. rewrite Ecc in H. simpl in H. subst y. rewrite E. by apply Ed.
    + apply undisturbed_same; [done| | |done].
      * unfold SwdsmInv.cache_byte. apply Ec. intros [_ Ea].
        apply (slot_bytes_disjoint (cidx y) idx j); [tauto|done|done].
      * unfold SwdsmInv.copy_byte. by rewrite Ep.
  - intros y Hy Hnd [[H1 H2] H3]. apply Hnd. rewrite Ecc in H1, H2, H3.
    case_decide as E; [done|]. done.
Qed.

(** Filling a slot keeps what another slot of the same node holds. *)
Lemma filled_fresh s s' idx q k :
  0 <= k < n -> idx ≠ cidx p + k -> filled c pl s s' r idx q -> fresh s (pg k) -> fresh s' (pg k).
Proof using Hex.
  intros Hk Hne [Ecc Et Es Ec Ed Ep Eh Ev Ew] ([H1 H2] & H3 & H4).
  pose proof (ex_cidx _ _ _ _ _ Hex k Hk) as Ei.
  unfold SwdsmInv.holds. rewrite Ecc, decide_False by (rewrite Ei; intros [_ ?]; congruence).
  split_and!; try done. intros j Hj. unfold SwdsmInv.cache_byte, SwdsmInv.home_byte in *. rewrite Eh, Ec; [by apply H4|].
  intros [_ E]. apply (slot_bytes_disjoint (cidx (pg k)) idx j); [congruence|done|done].
Qed.

Lemma load_fill_ok {pend} s0 s :
  inv_pend pend s -> (forall x a, mget (globalData s0) x a = mget (globalData s) x a) ->
  (forall k, 0 <= k < n -> load_ready c s r (pg k) (flag k)) ->
  (forall k, 0 <= k < n -> flag k = true -> has_bit (shr s r (pg k)) r = true) ->
  exists s', load_fill c r p (cidx p) n pages s (mem_read (globalData s0) (home p) (off p) (n * PAGE_SIZE)) = Ok s' /\
    inv_pend pend s' /\ quiet c pl s s' r /\ (forall k, 0 <= k < n -> flag k = true -> fresh s' (pg k)) /\
    forall i, (forall k, 0 <= k < n -> i = cidx p + k -> flag k = false) -> cc s' r i = cc s r i.
Proof using Hc Hr Hex.
  intros Hi Hg Hrdy Hbit. set (temp := mem_read (globalData s0) (home p) (off p) (n * PAGE_SIZE)).
  destruct (for_range_ok n (fun k s => if flag k then Ok (fill_page temp k s) else Ok s)
    (fun k s1 => inv_pend pend s1 /\ quiet c pl s s1 r /\ (forall x a, mget (globalData s0) x a = mget (globalData s1) x a) /\
      (forall x i, sh s1 x i = sh s x i) /\
      (forall i, k <= i < n -> cc s1 r (cidx p + i) = cc s r (cidx p + i)) /\
      (forall i, 0 <= i < k -> flag i = true -> fresh s1 (pg i)) /\
      (forall i, (forall k, 0 <= k < n -> i = cidx p + k -> flag k = false) -> cc s1 r i = cc s r i)) s)
    as (s' & E & A & B & _ & _ & _ & D & F).
  - pose proof (ex_pos _ _ _ _ _ Hex). lia.
  - split_and!; try done; [apply quiet_refl|intros; lia].
  - intros k s1 Hk (A & B & C & D & F & G & I). destruct (flag k) eqn:Hfl; cycle 1.
    { exists s1. split_and!; try done; [intros; apply F; lia|].
      intros i Hi' Hfi. destruct (decide (i = k)) as [->|]; [congruence|]. apply G; [lia|done]. }
    eexists. split; [reflexivity|].
    pose proof (ex_page _ _ _ _ _ Hex k Hk) as Hpk. pose proof (ex_cidx _ _ _ _ _ Hex k Hk) as Ei.
    assert (Hrk : slot_ready c s1 r (pg k)).
    { specialize (Hrdy k Hk). rewrite Hfl in Hrdy. unfold load_ready, slot_ready in *.
      by rewrite Ei, F in * by lia. }
    pose proof (fill_page_filled s0 s1 k Hk A Hrk C) as Hf. fold temp in Hf.
    pose proof Hrk as (R1 & R2 & R3). rewrite Ei in R1, R2, R3.
    split_and!.
    + apply (inv_filled c pl Hc pend s1 _ r (cidx p + k) (pg k)); try done.
      * rewrite (ex_home _ _ _ _ _ Hex) by done. apply Hex.
      * unfold SwdsmInv.shr. rewrite D. by apply Hbit.
    + apply (quiet_trans c pl s s1); [done|]. by apply (filled_quiet s1 _ (cidx p + k) (pg k)).
    + intros x a. rewrite (fl_home _ _ _ _ _ _ _ Hf). apply C.
    + intros x i. by rewrite (fl_sh _ _ _ _ _ _ _ Hf).
    + intros i Hi'. rewrite (fl_cc _ _ _ _ _ _ _ Hf), decide_False by lia. apply F. lia.
    + intros i Hi' Hfi. destruct (decide (i = k)) as [->|].
      * unfold SwdsmInv.holds. rewrite Ei, (fl_cc _ _ _ _ _ _ _ Hf), decide_True by done. split_and!; try done.
        intros j Hj. rewrite (fl_data _ _ _ _ _ _ _ Hf) by done.
        unfold SwdsmInv.home_byte. by rewrite (fl_home _ _ _ _ _ _ _ Hf).
      * apply (filled_fresh s1 _ (cidx p + k) (pg k)); [lia|lia|done|]. apply G; [lia|done].
    + intros i Hno. rewrite (fl_cc _ _ _ _ _ _ _ Hf), decide_False; [by apply I|]. intros [_ ->]. by rewrite (Hno k Hk eq_refl) in Hfl.
  - exists s'. split; [exact E|]. done.
Qed.

End Batch.

(** Directory updates leave the caches and the bytes alone. *)
Lemma same_quiet s s' r : same_but_sh s s' -> quiet c pl s s' r.
Proof.
  intros [E1 E2 E3 E4 E5 E6 E7].
  assert (Ecc : forall x i, cc s' x i = cc s x i) by (intros; unfold Swdsm.cc; by rewrite E1).
  split; intros.
  - apply Ecc.
  - by rewrite E3.
  - by rewrite E4.
  - unfold vmap. by rewrite E6.
  - apply undisturbed_same; [apply Ecc|..]; unfold SwdsmInv.cache_byte, SwdsmInv.copy_byte, SwdsmInv.home_byte;
      by rewrite ?E3, ?E4, ?E5.
  - unfold SwdsmInv.holds_dirty, SwdsmInv.holds in *. by rewrite Ecc.
Qed.

Lemma inv_dirs {pend} s : inv_pend pend s -> forall q, page q -> dir_sh_ok s q.
Proof. intros Hi q Hq. apply (dk_sh _ _ _ _ (iv_dir _ _ _ _ Hi q Hq)). Qed.

Definition fetch (p : Z) : outcome Z := load_extent c pl (Z.to_nat (load_size c - 1)) p (cidx p) (home p) (off p) 1.

Lemma load_cache_entry_spared {pend} s r p :
  inv_pend pend s -> node r -> page p -> home p ≠ r -> ~ holds s r p ->
  (forall n k, fetch p = Ok n -> 0 <= k < n -> evictable c pend s r (cidx p + k) (p + k * PAGE_SIZE)) ->
  exists s', load_cache_entry c pl s r p = Ok s' /\ inv_pend pend s' /\ quiet c pl s s' r /\
    holds s' r p /\ cd_dirty (cc s' r (cidx p)) = CLEAN /\
    (forall j, 0 <= j < PAGE_SIZE -> cache_byte c s' r p j = home_byte c pl s' p j) /\
    (forall n i, fetch p = Ok n -> spared c s r p n i -> cc s' r i = cc s r i).
Proof using Hc.
  intros Hi Hr Hp Hrem Hnh Hev. destruct (lookups_ok c pl Hc p Hp) as (Eh & _ & Eo & _).
  unfold load_cache_entry, CACHELINE. rewrite Z.mul_1_r.
  destruct (Z.leb_spec (size_of_all c) p) as [Hle|_]; [destruct Hp; lia|].
  rewrite (proj2 Hp), Z.eqb_refl. cbn [negb]. unfold align_backwards. rewrite Z.div_1_r, Z.mul_1_r.
  fold (cidx p). rewrite Eh, Eo. cbn [mbind outcome_bind].
  assert ((cd_tag (cc s r (cidx p)) =? p) && bool_decide (cd_state (cc s r (cidx p)) ≠ INVALID) = false) as ->.
  { apply not_true_is_false. intros [E1%Z.eqb_eq E2%bool_decide_eq_true]%andb_true_iff.
    apply Hnh. split; [done|]. by destruct (cd_state _). }
  destruct (load_extent_ok c pl Hc r p (Z.to_nat (load_size c - 1)) 1 Hp Hrem) as (n & En & Hex & Hn);
    [by apply extent_one|]. fold (fetch p) in *. rewrite En. cbn [mbind outcome_bind].
  destruct (evict_entries_ok c pl Hc s r p n Hi Hr Hex) as (s1 & pages & -> & Hi1 & Hq1 & _ & Hrdy & H0 & Hsp).
  { intros k Hk. by apply (Hev n). }
  cbn [mbind outcome_bind]. set (s2 := count s1 r c_read_misses).
  assert (Hi2 : inv_pend pend s2) by (eapply (inv_proper c pl Hc); [|exact Hi1]; by split).
  assert (Hq2 : quiet c pl s s2 r) by (apply (quiet_trans c pl s s1); [done|by apply same_quiet]).
  destruct (load_register_ok r p n pages Hr Hex s2 (inv_dirs s2 Hi2)) as (remote & s3 & -> & Hreg).
  destruct (load_merge_ok r p n pages Hr Hex s2 s3 remote (inv_dirs s2 Hi2) Hreg)
    as (s4 & -> & Hsm & Hst & Hkp & Hb). cbn [mbind outcome_bind].
  assert (Hi4 : inv_pend pend s4) by (by apply (inv_dir_step c pl Hc pend s2)).
  destruct (load_downgrade_ok r p n pages Hr Hex s4 (load_local_sharers c r p n pages s2) remote (inv_dirs s4 Hi4))
    as (s5 & -> & Hsm5 & Hst5 & Hkp5); [intros k Hk; by apply (rg_mask _ _ _ _ _ _ _ Hreg)|].
  cbn [mbind outcome_bind].
  assert (Hi5 : inv_pend pend s5) by (by apply (inv_dir_step c pl Hc pend s4)).
  assert (Hsm25 : same_but_sh s2 s5) by (by transitivity s4).
  assert (Ecc5 : forall i, cc s5 r i = cc s1 r i) by (intros; unfold Swdsm.cc; by rewrite (sb_cc _ _ Hsm25)).
  destruct (load_fill_ok r p n pages Hr Hex s5 s5 Hi5) as (s6 & E6 & Hi6 & Hq6 & Hf & Hkeep).
  - done.
  - intros k Hk. specialize (Hrdy k Hk). unfold load_ready, slot_ready, SwdsmInv.holds in *. by rewrite Ecc5.
  - intros k Hk Hfl. apply (dt_sharer _ _ _ _ Hst5); [done|by apply Hex|]. by apply Hb.
  - exists s6. split; [exact E6|]. split; [done|].
    split; [apply (quiet_trans c pl s s5); [apply (quiet_trans c pl s s2); [done|by apply same_quiet]|done]|].
    pose proof (ex_pos _ _ _ _ _ Hex). specialize (Hf 0 ltac:(lia) (H0 Hnh)).
    rewrite Z.mul_0_l, Z.add_0_r in Hf. destruct Hf as (F1 & F2 & F3). split_and!; try done.
    intros n' i En' Hspi. assert (n' = n) as -> by congruence. destruct (Hsp i Hspi) as [E1 E2]. rewrite Hkeep by done. by rewrite Ecc5.
Qed.

Lemma load_cache_entry_ok s r p :
  inv s -> node r -> page p -> home p ≠ r -> ~ holds s r p ->
  exists s', load_cache_entry c pl s r p = Ok s' /\ inv s' /\ quiet c pl s s' r /\
    holds s' r p /\ cd_dirty (cc s' r (cidx p)) = CLEAN /\
    forall j, 0 <= j < PAGE_SIZE -> cache_byte c s' r p j = home_byte c pl s' p j.
Proof using Hc.
  intros Hi Hr Hp Hrem Hnh. destruct (load_cache_entry_spared s r p Hi Hr Hp Hrem Hnh) as (s' & E & Hi' & Hq & Hh & Hcl & Hb & _);
    [by intros n k _ _ _ _ []|]. by exists s'.
Qed.

End Load.
