(* ===== verification/SwdsmHandler.v ===== *)
(** * The fault handler and application accesses *)

From S2P Require Import Prelude BlockMap DataDistribution FirstTouch GlobalPtr Mem Swdsm SwdsmBase SwdsmInv SwdsmDir SwdsmOps SwdsmLoad.

Section Handler.

Context (c : dsm_config) (pl : placement) (Hc : cfg_ok c pl) {PB : plain_bytes}.

Abbreviation N := (numtasks c).
Abbreviation node := (node c).
Abbreviation page := (page c).
Abbreviation home := (home c pl).
Abbreviation off := (off c pl).
Abbreviation cidx := (cidx c).
Abbreviation cls := (cls c).
Abbreviation cc := (cc c).
Abbreviation shr := (shr c).
Abbreviation wr := (wr c).
Abbreviation holds := (holds c).
Abbreviation holds_dirty := (holds_dirty c).
Abbreviation cache_byte := (cache_byte c).
Abbreviation copy_byte := (copy_byte c).
Abbreviation home_byte := (home_byte c pl).
Abbreviation inv := (inv c pl).
Abbreviation inv_pend := (inv_pend c pl).
Abbreviation dir_sh_ok := (dir_sh_ok c pl).
Abbreviation dir_step := (dir_step c pl).
Abbreviation local_bits_kept := (local_bits_kept c pl).
Abbreviation quiet := (quiet c pl).
Abbreviation undisturbed := (undisturbed c pl).

(** ** Local pages *)
Lemma opened_map s s1 r p pr :
  same_but_sh s s1 -> dir_step s s1 -> local_bits_kept s s1 (fun q => q = p) -> pr ≠ PROT_NONE ->
  has_bit (shr s1 r p) r = true -> (pr = PROT_RW -> has_bit (wr s1 r p) r = true) ->
  opened c pl s (map_memory s1 r p (BHome (off p)) pr) r p pr.
Proof.
  intros [E1 E2 E3 E4 E5 E6 E7] Hst Hkp Hpr Hsh Hwr. split.
  - intros x i. dsm_get. unfold Swdsm.cc. by rewrite E1.
  - intros x i. dsm_get. unfold touched. by rewrite E2.
  - exact E3.
  - exact E4.
  - exact E5.
  - intros x q. dsm_get. unfold vmap. by rewrite E6.
  - intros x. dsm_get. unfold wb. by rewrite E7.
  - destruct Hst as [T1 T2 T3]. split; [|exact T2|exact T3].
    intros q Hq. destruct (T1 q Hq). by split.
  - exact Hkp.
  - exact Hpr.
  - exact Hsh.
  - exact Hwr.
Qed.

Lemma opened_quiet s s' r p pr : opened c pl s s' r p pr -> quiet s s' r.
Proof.
  intros [O1 O2 O3 O4 O5 O6 O7 _ _ _ _ _]. split; intros.
  - apply O1.
  - by rewrite O3.
  - by rewrite O4.
  - rewrite O6, decide_False by tauto. done.
  - apply undisturbed_same; [apply O1|..]; unfold SwdsmInv.cache_byte, SwdsmInv.copy_byte, SwdsmInv.home_byte;
      by rewrite ?O3, ?O4, ?O5.
  - unfold SwdsmInv.holds_dirty, SwdsmInv.holds in *. by rewrite O1.
Qed.

(** The previous single sharer of a page this node is not a sharer of. *)
Lemma previous_owner r v :
  node r -> mask_of N v -> has_bit v r = false -> v ≠ 0 -> isZeroOrPowerOf2 v = true ->
  exists o, find_rank c (Z.land v (inv_bit r)) = Some o /\ o ≠ r.
Proof using Hc.
  intros Hr Hm Hb H0 H2. pose proof (ck_nodes c pl Hc) as HN.
  assert (E : Z.land v (inv_bit r) = v).
  { apply mask_ext. intros i Hi. rewrite (others_bit c pl Hc) by done.
    destruct (bool_decide_reflect (i = r)) as [Ei|Ei]; [|apply andb_true_r].
    rewrite andb_false_r, Ei. by rewrite Hb. }
  apply (single_owner c pl Hc r Hr v Hm); by rewrite E.
Qed.

Lemma handler_local_ok {pend} s r p miss :
  inv_pend pend s -> node r -> page p -> home p = r ->
  exists s', handler_local c s r p (off p) miss = Ok s' /\ inv_pend pend s' /\ quiet s s' r /\
    if has_bit (shr s r p) r
    then if bool_decide (miss = access_read) then s' = s else vmap s' r p = (BHome (off p), PROT_RW)
    else vmap s' r p = (BHome (off p), PROT_READ) /\ has_bit (shr s' r p) r = true.
Proof using Hc.
  intros Hi Hr Hp Hloc. pose proof (inv_dirs c pl s Hi) as Hd. pose proof (node_lt_64 c pl Hc r Hr) as Hr64.
  unfold handler_local. cbv zeta. fold (cls p). change (sh s r (cls p)) with (shr s r p).
  change (sh s r (cls p + 1)) with (wr s r p). rewrite land_bit_id by lia.
  destruct (has_bit (shr s r p) r) eqn:Hb; cbn [negb].
  - destruct (bool_decide (miss = access_read)); [exists s; split_and!; [done|done|apply quiet_refl|done]|].
    destruct (local_writer_spec c pl Hc s r p Hr Hp Hloc Hd Hb) as (Hsm & Hst & Hkp & Hw).
    set (s1 := notify_writer c _ r (cls p) (wr s r p) (shr s r p)) in *.
    assert (Eop : opened c pl s (map_memory s1 r p (BHome (off p)) PROT_RW) r p PROT_RW).
    { apply opened_map; try done; [intros q Hq _; apply Hkp; tauto|]. by apply (dt_sharer _ _ _ _ Hst). }
    eexists. split; [reflexivity|]. split; [by apply (inv_opened c pl Hc s _ r p PROT_RW)|].
    split; [by apply (opened_quiet s _ r p PROT_RW)|dsm_get; by rewrite decide_True].
  - destruct (local_sharer_spec c pl Hc s r p Hr Hp Hloc Hd) as (Hst & Hkp & Hsh).
    set (s1 := or_sh s r (cls p) (node_bit r)) in *.
    assert (exists s2, (if negb (shr s r p =? 0) && negb (shr s r p =? node_bit r) && isZeroOrPowerOf2 (shr s r p)
              then if default r (find_rank c (Z.land (shr s r p) (inv_bit r))) =? r
                   then Throw (char_throw "bad owner in local access")
                   else Ok (or_sh s1 (default r (find_rank c (Z.land (shr s r p) (inv_bit r))))
                              (get_sharer_win_offset (cls p)) (node_bit r))
              else Ok s1) = Ok s2 /\ same_but_sh s s2 /\ dir_step s s2 /\
              local_bits_kept s s2 (fun q => q = p) /\ has_bit (shr s2 r p) r = true)
      as (s2 & -> & Hsm & Hst2 & Hkp2 & Hsh2).
    { destruct (negb _ && _ && _) eqn:E; [|exists s1; split_and!; try done; apply or_sh_same].
      apply andb_true_iff in E as [[E1%negb_true_iff%Z.eqb_neq _]%andb_true_iff E2].
      destruct (dk_mask _ _ _ _ (Hd p Hp) r Hr) as [Hm _].
      destruct (previous_owner r (shr s r p) Hr Hm Hb E1 E2) as (o & -> & Hor). cbn [default from_option id].
      apply Z.eqb_neq in Hor as Hor'. rewrite Hor'. eexists. split; [reflexivity|].
      rewrite (win_offset c pl Hc) by done.
      assert (Hn : noted c s1 (or_sh s1 o (cls p) (node_bit r)) o r).
      { intros y q Hq. unfold SwdsmInv.shr, SwdsmInv.wr. rewrite !sh_or_sh.
        rewrite (decide_False (P := o = y /\ cls p = cls q + 1))
          by (intros [_ E]; by destruct (cls_parity c pl Hc p q Hp Hq)).
        split; [done|]. case_decide as E; [|by left]. destruct E as [-> E]. right. by rewrite E. }
      split; [etransitivity; [apply (or_sh_same s r (cls p) (node_bit r))|apply or_sh_same]|].
      split; [apply (dir_step_trans _ _ s s1); [done|]; apply (noted_dir_step c pl Hc s1 _ o r Hr Hor Hn);
              intros q Hq; by apply (dt_ok _ _ _ _ Hst)|].
      split.
      - intros q Hq Hx. rewrite (noted_kept c pl s1 _ o r ltac:(lia) Hor Hn q Hq) by tauto. by apply Hkp.
      - apply (noted_mono c s1 _ o r); [lia|done|done|done]. }
    cbn [mbind outcome_bind]. eexists. split; [reflexivity|].
    assert (Eop : opened c pl s (map_memory s2 r p (BHome (off p)) PROT_READ) r p PROT_READ)
      by (by apply opened_map).
    split; [by apply (inv_opened c pl Hc s _ r p PROT_READ)|].
    split; [by apply (opened_quiet s _ r p PROT_READ)|].
    split; [dsm_get; by rewrite decide_True|done].
Qed.

(** ** Remote pages: becoming a writer *)
Lemma dir_step_ext s1 s2 t1 t2 :
  (forall x i, sh t1 x i = sh s1 x i) -> (forall x i, sh t2 x i = sh s2 x i) ->
  dir_step s1 s2 -> dir_step t1 t2.
Proof using Hc.
  intros E1 E2 [A B C]. split.
  - intros q Hq. apply (dir_sh_equiv c pl Hc s2); try done; [intros; apply E2|intros; apply E2|by apply A].
  - intros r q. unfold SwdsmInv.shr. rewrite E1, E2. apply B.
  - intros q x. unfold SwdsmInv.wr. rewrite E1, E2. apply C.
Qed.

(** The state with the directories of another one. *)
Definition with_dirs (s s' : dsm) : dsm := {|
  cacheControl := cacheControl s; touchedcache := touchedcache s;
  globalSharers := globalSharers s'; cacheData := cacheData s; pagecopy := pagecopy s;
  globalData := globalData s; vmem := vmem s; wbuf := wbuf s; counters := counters s |}.

(** The write part of [handler_remote], up to the write buffer. *)
Definition mark_dirty (s : dsm) (r p : Z) : outcome dsm :=
  let s := set_touched s r (cidx p) 1 in
  let s := set_dirty c s r (cidx p) DIRTY in
  let s := register_writer c s r (home p) (cls p) in
  b ← mapped s r p;
  let s := set_pagecopy s (mem_write (pagecopy s) r (cidx p * PAGE_SIZE)
             (backing_byte s r b <$> seqZ 0 PAGE_SIZE)) in
  Ok (mprotect s r p PROT_RW).

Lemma mark_dirty_ok {pend} s r p :
  inv_pend pend s -> node r -> page p -> holds s r p -> cd_dirty (cc s r (cidx p)) = CLEAN ->
  exists s0 s', mark_dirty s r p = Ok s' /\ inv_pend pend s0 /\ same_but_sh s s0 /\ write_visible c pl s0 r p /\
    dirtied c s0 s' r p.
Proof using Hc.
  intros Hi Hr Hp Hh Hcl. pose proof (holds_slot c pl Hc _ s Hi r p Hr Hp Hh) as Hsl.
  pose proof (holds_remote c pl Hc _ s Hi r p Hr Hp Hh) as Hrem. pose proof Hh as [Htag Hval].
  unfold mark_dirty. set (s1 := set_dirty c (set_touched s r (cidx p) 1) r (cidx p) DIRTY).
  assert (Hd1 : forall q, page q -> dir_sh_ok s1 q).
  { intros q Hq. apply (dir_sh_equiv c pl Hc s); try done. by apply (inv_dirs c pl s Hi). }
  assert (Hb1 : has_bit (shr s1 r p) r = true) by (by apply (dk_holder _ _ _ _ (iv_dir _ _ _ _ Hi p Hp))).
  destruct (register_writer_spec c pl Hc s1 r p Hr Hp Hrem Hd1 Hb1) as (Hsm & Hst & Hkp & Hvis).
  set (s2 := register_writer c s1 r (home p) (cls p)) in *.
  set (s0 := with_dirs s s2).
  assert (Hst0 : dir_step s s0) by (by apply (dir_step_ext s1 s2)).
  assert (Hi0 : inv_pend pend s0).
  { apply (inv_dir_step c pl Hc pend s); [done|by split|done|exact Hkp]. }
  pose proof Hsm as [E1 E2 E3 E4 E5 E6 E7].
  assert (Hmap : vmap s2 r p = (BCache (cidx p), PROT_READ)).
  { unfold vmap. rewrite E6. change (vmap s r p = (BCache (cidx p), PROT_READ)).
    pose proof (sl_map _ _ _ _ _ Hsl) as Hm. rewrite Htag in Hm. rewrite Hm. unfold slot_prot.
    by rewrite Hval, Hcl. }
  assert (mapped s2 r p = Ok (BCache (cidx p))) as -> by (unfold mapped; by rewrite Hmap).
  cbn [mbind outcome_bind].
  assert (Hlen : Z.of_nat (length (backing_byte s2 r (BCache (cidx p)) <$> seqZ 0 PAGE_SIZE)) = PAGE_SIZE)
    by (rewrite length_fmap, length_seqZ; done).
  assert (Hbyte : forall j, 0 <= j < PAGE_SIZE ->
            byte_at (backing_byte s2 r (BCache (cidx p)) <$> seqZ 0 PAGE_SIZE) j = cache_byte s r p j).
  { intros j Hj. change byte_at with (vec 0). rewrite vec_fmap by done. unfold backing_byte. by rewrite E3. }
  revert Hlen Hbyte. generalize (backing_byte s2 r (BCache (cidx p)) <$> seqZ 0 PAGE_SIZE) as bs. intros bs Hlen Hbyte.
  assert (Hcopy : forall x a, mget (mem_write (pagecopy s2) r (cidx p * PAGE_SIZE) bs) x a =
     if decide (x = r /\ cidx p * PAGE_SIZE <= a < cidx p * PAGE_SIZE + PAGE_SIZE)
     then byte_at bs (a - cidx p * PAGE_SIZE) else mget (pagecopy s) x a).
  { intros x a. rewrite mget_write, Hlen, E4. apply decide_ext. split; intros [-> ?]; done. }
  revert Hcopy. generalize (mem_write (pagecopy s2) r (cidx p * PAGE_SIZE) bs) as m. intros m Hcopy.
  exists s0. eexists. split; [reflexivity|]. split; [done|]. split; [by split|]. split; [exact Hvis|]. split.
  - intros x i. dsm_get. assert (cc s2 x i = cc s1 x i) as -> by (unfold Swdsm.cc; by rewrite E1).
    unfold s1. dsm_get. change (Swdsm.cc c s0) with (cc s). by rewrite Hval, Htag.
  - intros x i. dsm_get. assert (touched s2 x i = touched s1 x i) as -> by (unfold touched; by rewrite E2).
    unfold s1. dsm_get. reflexivity.
  - intros x i. dsm_get. reflexivity.
  - exact E3.
  - intros x a Hne. dsm_get. cbn [pagecopy set_pagecopy]. by rewrite Hcopy, decide_False.
  - intros j Hj. unfold SwdsmInv.copy_byte. dsm_get. cbn [pagecopy set_pagecopy].
    rewrite Hcopy, decide_True by lia. change (cache_byte s0 r p j) with (cache_byte s r p j).
    rewrite <- Hbyte by done. f_equal. ring.
  - exact E5.
  - intros x q. dsm_get. rewrite Hmap. cbn [fst].
    assert (vmap s2 x q = vmap s x q) as -> by (unfold vmap; by rewrite E6). reflexivity.
  - intros x. dsm_get. unfold wb. by rewrite E7.
Qed.

Record became_writer (s s' : dsm) (r p : Z) : Prop := {
  bw_dirty : holds_dirty s' r p;
  bw_others : others c s s' r;
  bw_cache j : 0 <= j < PAGE_SIZE -> cache_byte s' r p j = cache_byte s r p j;
  bw_twin j : 0 <= j < PAGE_SIZE -> copy_byte s' r p j = cache_byte s r p j;
  bw_calm q j : page q -> 0 <= j < PAGE_SIZE -> undisturbed s s' r q j;
}.

(** Taking a twin disturbs no byte. *)
Lemma dirtied_undisturbed s s' r p q j :
  page q -> 0 <= j < PAGE_SIZE -> holds s r p -> cd_dirty (cc s r (cidx p)) = CLEAN ->
  dirtied c s s' r p -> undisturbed s s' r q j.
Proof.
  intros Hq Hj Hh Hcl [D1 D2 D3 D4 D5 D6 D7 D8 D9]. specialize (D1 r (cidx q)).
  assert (E : home_byte s' q j = home_byte s q j) by (unfold SwdsmInv.home_byte; by rewrite D7).
  assert (Ec : cache_byte s' r q j = cache_byte s r q j) by (unfold SwdsmInv.cache_byte; by rewrite D4).
  destruct (decide (r = r /\ cidx q = cidx p)) as [[_ Ei]|Hne].
  - assert (Ht : cd_tag (cc s' r (cidx q)) = q -> q = p) by (rewrite D1; simpl; congruence).
    apply undisturbed_clean; [rewrite <- Ei in Hcl; intros [_ ?]; congruence|done| |].
    + intros [[->%Ht _] _]. rewrite D6 by done. done.
    + intros Hs [->%Ht _]. rewrite Ec, E. by apply Hs.
  - apply undisturbed_same; [done|done| |done].
    unfold SwdsmInv.copy_byte. apply D5. intros [_ Ea].
    apply (slot_bytes_disjoint (cidx q) (cidx p) j); [tauto|done|done].
Qed.

Lemma become_writer_ok s r p :
  inv s -> node r -> page p -> holds s r p -> cd_dirty (cc s r (cidx p)) = CLEAN ->
  exists s', (s1 ← mark_dirty s r p; wb_add c pl s1 r (cidx p)) = Ok s' /\ inv s' /\ became_writer s s' r p.
Proof using Hc.
  intros Hi Hr Hp Hh Hcl.
  destruct (mark_dirty_ok s r p Hi Hr Hp Hh Hcl) as (s0 & s1 & -> & Hi0 & Hsm & Hvis & Hdy).
  cbn [mbind outcome_bind]. pose proof (cidx_range c pl Hc p) as Hidx.
  assert (Ecc0 : forall x i, cc s0 x i = cc s x i) by (intros; unfold Swdsm.cc; by rewrite (sb_cc _ _ Hsm)).
  assert (Hh0 : holds s0 r p) by (unfold SwdsmInv.holds; by rewrite Ecc0).
  assert (Hcl0 : cd_dirty (cc s0 r (cidx p)) = CLEAN) by (by rewrite Ecc0).
  pose proof (inv_dirtied c pl Hc s0 s1 r p Hi0 Hr Hp Hh0 Hcl0 Hvis Hdy) as Hi1.
  pose proof (fun q j Hq Hj => dirtied_undisturbed s0 s1 r p q j Hq Hj Hh0 Hcl0 Hdy) as Hund.
  destruct Hdy as [D1 D2 D3 D4 D5 D6 D7 D8 D9].
  assert (Hd1 : cc s1 r (cidx p) = ControlData VALID DIRTY p) by (by rewrite D1, decide_True).
  destruct (wb_add_ok c pl Hc s1 r (cidx p) Hi1 Hr Hidx) as (s' & l & -> & Hi' & Hnl & Hsub & s2 & Hf & _ & ->);
    [by rewrite Hd1|by intros []|].
  eexists. split; [reflexivity|]. split; [done|].
  assert (Hc2 : cc s2 r (cidx p) = ControlData VALID DIRTY p).
  { rewrite (fd_cc _ _ _ _ _ _ Hf), decide_False by tauto. done. }
  split.
  - split; [split|]; dsm_get; by rewrite Hc2.
  - apply (others_trans c s s0); [by apply (quiet_others c pl), same_quiet|].
    apply (others_trans c s0 s1); [|apply (others_trans c s1 s2); [by apply (flushed_others c pl s1 s2 r l)|by split]].
    split.
    + intros x i Hx. rewrite D1, decide_False by tauto. done.
    + intros x a _. by rewrite D4.
    + intros x a Hx. apply D5. tauto.
    + intros x q Hx _. rewrite D8, decide_False by tauto. done.
  - intros j Hj. unfold SwdsmInv.cache_byte. dsm_get. by rewrite (fd_cache _ _ _ _ _ _ Hf), D4, (sb_cache _ _ Hsm).
  - intros j Hj. unfold SwdsmInv.copy_byte at 1. dsm_get. rewrite (fd_copy _ _ _ _ _ _ Hf).
    pose proof (D6 j Hj) as E. unfold SwdsmInv.copy_byte at 1 in E. rewrite E.
    unfold SwdsmInv.cache_byte. by rewrite (sb_cache _ _ Hsm).
  - intros q j Hq Hj. apply (undisturbed_trans c pl s s0); [by apply (qt_calm c pl _ _ _ (same_quiet c pl s s0 r Hsm))|].
    apply (undisturbed_trans c pl s0 s1); [by apply Hund|]. apply (undisturbed_trans c pl s1 s2); [|by apply undisturbed_same].
    by apply (flushed_undisturbed c pl Hc _ s1 s2 r l q j Hi1).
Qed.

(** ** The remote branch of the handler *)

(** A load is performed exactly when the node does not hold the page. *)
Lemma performed_load_eq {pend} s r p :
  inv_pend pend s -> node r ->
  bool_decide (cd_state (cc s r (cidx p)) = INVALID)
    || (negb (cd_tag (cc s r (cidx p)) =? p) && negb (cd_tag (cc s r (cidx p)) =? GLOBAL_NULL c))
  = negb (bool_decide (cd_state (cc s r (cidx p)) = VALID /\ cd_tag (cc s r (cidx p)) = p)).
Proof using Hc.
  intros Hi Hr. set (e := cc s r (cidx p)).
  pose proof (iv_slot _ _ _ _ Hi r (cidx p) Hr (cidx_range c pl Hc p)) as Hsl. fold e in Hsl.
  destruct (cd_state e) eqn:Est; [by rewrite !bool_decide_decide|].
  pose proof (slot_of_valid c pl s r (cidx p) Hsl Est) as [Hpt _ _ _ _ _]. fold e in Hpt.
  pose proof (not_null c _ Hpt) as Hn%Z.eqb_neq. rewrite Hn. cbn [negb]. rewrite andb_true_r.
  destruct (Z.eqb_spec (cd_tag e) p) as [Et|Et]; rewrite !bool_decide_decide;
    repeat case_decide; try done; exfalso; intuition congruence.
Qed.

Lemma handler_remote_read_ok s r p miss :
  inv s -> node r -> page p -> home p ≠ r ->
  (miss = access_read \/ (miss = access_undefined /\ ~ holds s r p)) ->
  exists s', handler_remote c pl s r p (home p) miss = Ok s' /\ inv s' /\ quiet s s' r /\ holds s' r p /\
    (holds s r p -> s' = s) /\
    (~ holds s r p -> cd_dirty (cc s' r (cidx p)) = CLEAN /\
       forall j, 0 <= j < PAGE_SIZE -> cache_byte s' r p j = home_byte s' p j).
Proof using Hc.
  intros Hi Hr Hp Hrem Hmiss. unfold handler_remote. fold (cidx p). cbv zeta.
  rewrite (performed_load_eq (pend := no_pend)) by done.
  destruct (bool_decide_reflect (cd_state (cc s r (cidx p)) = VALID /\ cd_tag (cc s r (cidx p)) = p))
    as [[Hv Ht]|Hnh]; cbn [negb].
  - cbn [mbind outcome_bind]. assert (Hh : holds s r p) by done.
    destruct Hmiss as [->|[_ Hx]]; [|done]. rewrite (bool_decide_true (access_read = access_read)) by done.
    cbn [orb]. rewrite bool_decide_true by done. rewrite Ht, Z.eqb_refl.
    exists s. split_and!; try done; apply quiet_refl.
  - assert (Hnh' : ~ holds s r p) by (unfold SwdsmInv.holds; tauto).
    destruct (load_cache_entry_ok c pl Hc s r p Hi Hr Hp Hrem Hnh') as (s1 & -> & Hi1 & Hq & Hh & Hcl & Hfr).
    cbn [mbind outcome_bind]. rewrite andb_true_r.
    assert (bool_decide (miss = access_read) || bool_decide (miss = access_undefined) = true) as ->.
    { destruct Hmiss as [->|[-> _]]; rewrite !bool_decide_decide; by repeat case_decide. }
    rewrite bool_decide_true by apply Hh. rewrite (proj1 Hh), Z.eqb_refl.
    exists s1. split_and!; try done.
Qed.

(** What a write fault of node [r] on page [p] establishes. *)
Record write_opened (s s' : dsm) (r p : Z) : Prop := {
  wo_dirty : holds_dirty s' r p;
  wo_others : others c s s' r;
  wo_same : holds_dirty s r p -> s' = s;
  wo_twin j : ~ holds_dirty s r p -> 0 <= j < PAGE_SIZE -> copy_byte s' r p j = cache_byte s' r p j;
  wo_kept j : holds s r p -> 0 <= j < PAGE_SIZE -> cache_byte s' r p j = cache_byte s r p j;
  wo_loaded j : ~ holds s r p -> 0 <= j < PAGE_SIZE -> cache_byte s' r p j = home_byte s p j;
  wo_calm q j : page q -> 0 <= j < PAGE_SIZE -> undisturbed s s' r q j;
}.

(** The end of the write path, from a held page. *)
Lemma write_path_ok s r p :
  inv s -> node r -> page p -> holds s r p ->
  exists s', (let line := cidx p / CACHELINE * CACHELINE in
    if bool_decide (cd_dirty (cc s r line) = DIRTY) then Ok s
    else
      let s := set_touched s r line 1 in
      let s := set_dirty c s r line DIRTY in
      let s := register_writer c s r (home p) (cls p) in
      b ← mapped s r p;
      let s := set_pagecopy s (mem_write (pagecopy s) r (line * PAGE_SIZE)
                 (backing_byte s r b <$> seqZ 0 PAGE_SIZE)) in
      let s := mprotect s r p PROT_RW in
      wb_add c pl s r (cidx p)) = Ok s' /\ inv s' /\ write_opened s s' r p.
Proof using Hc.
  intros Hi Hr Hp Hh. unfold CACHELINE. rewrite Z.div_1_r, Z.mul_1_r. cbv zeta.
  destruct (bool_decide_reflect (cd_dirty (cc s r (cidx p)) = DIRTY)) as [Hd|Hd].
  - exists s. split; [done|]. split; [done|]. assert (Hhd : holds_dirty s r p) by done.
    split; try done. intros q j _ _. apply undisturbed_refl.
  - assert (Hcl : cd_dirty (cc s r (cidx p)) = CLEAN) by (by destruct (cd_dirty _)).
    destruct (become_writer_ok s r p Hi Hr Hp Hh Hcl) as (s' & E & Hi' & [B1 B2 B3 B4 B5]).
    exists s'. split.
    { rewrite <- E. unfold mark_dirty. cbv zeta. by destruct (mapped _ r p). }
    split; [done|]. split; try done.
    + intros [_ ?]. done.
    + intros j _ Hj. by rewrite B4, B3.
    + intros j _ Hj. by apply B3.
Qed.

Lemma handler_remote_write_ok s r p miss :
  inv s -> node r -> page p -> home p ≠ r ->
  (miss = access_write \/ (miss = access_undefined /\ holds s r p)) ->
  exists s', handler_remote c pl s r p (home p) miss = Ok s' /\ inv s' /\ write_opened s s' r p.
Proof using Hc.
  intros Hi Hr Hp Hrem Hmiss. unfold handler_remote. fold (cidx p) (cls p).
  assert (E1 : bool_decide (miss = access_read) = false).
  { apply bool_decide_eq_false. by destruct Hmiss as [->|[-> _]]. }
  cbv zeta. rewrite (performed_load_eq (pend := no_pend)) by done. rewrite E1. cbn [orb].
  destruct (bool_decide_reflect (cd_state (cc s r (cidx p)) = VALID /\ cd_tag (cc s r (cidx p)) = p))
    as [[Hv Ht]|Hnh]; cbn [negb].
  - cbn [mbind outcome_bind]. rewrite andb_false_r. by apply write_path_ok.
  - assert (Hnh' : ~ holds s r p) by (unfold SwdsmInv.holds; tauto).
    destruct Hmiss as [->|[_ Hx]]; [|done]. rewrite (bool_decide_false (access_write = access_undefined)) by done.
    destruct (load_cache_entry_ok c pl Hc s r p Hi Hr Hp Hrem Hnh') as (s1 & -> & Hi1 & Hq & Hh & Hcl & Hfr).
    cbn [mbind outcome_bind andb].
    destruct (write_path_ok s1 r p Hi1 Hr Hp Hh) as (s' & E & Hi' & [W1 W2 W3 W4 W5 W6 W7]).
    exists s'. split; [exact E|]. split; [done|].
    assert (Hnd : ~ holds_dirty s r p) by (by intros [? _]).
    assert (Hnd1 : ~ holds_dirty s1 r p) by (intros [_ ?]; congruence).
    split; try done.
    + apply (others_trans c s s1); [by apply (quiet_others c pl)|done].
    + intros j _ Hj. by apply W4.
    + intros j _ Hj. rewrite W5, Hfr by done. by apply (qt_home c pl s s1 r).
    + intros q j Hq' Hj. apply (undisturbed_trans c pl s s1); [by apply (qt_calm _ _ _ _ _ Hq)|by apply W7].
Qed.

(** ** The handler *)
Lemma align_page a : 0 <= a < size_of_all c -> page (align_backwards a PAGE_SIZE).
Proof using Hc.
  intros Ha. unfold align_backwards. pose proof (Z.div_mod a PAGE_SIZE ltac:(done)).
  pose proof (Z.mod_pos_bound a PAGE_SIZE ltac:(done)). split; [unfold PAGE_SIZE in *; lia|].
  by apply Z.mod_mul.
Qed.

Lemma handler_split s r a miss :
  0 <= a < size_of_all c -> let p := align_backwards a PAGE_SIZE in
  handler c pl s r a miss
  = if home p =? r then handler_local c s r p (off p) miss else handler_remote c pl s r p (home p) miss.
Proof using Hc.
  intros Ha p. unfold handler, CACHELINE. rewrite Z.mul_1_l. fold p.
  destruct (lookups_ok c pl Hc p (align_page a Ha)) as (-> & _ & -> & _). done.
Qed.

(** The handler returns and keeps the invariant, whatever the kind of access. *)
Lemma handler_ok s r a miss :
  inv s -> node r -> 0 <= a < size_of_all c ->
  exists s', handler c pl s r a miss = Ok s' /\ inv s'.
Proof using Hc.
  intros Hi Hr Ha. rewrite handler_split by done. set (p := align_backwards a PAGE_SIZE).
  pose proof (align_page a Ha) as Hp. fold p in Hp.
  destruct (Z.eqb_spec (home p) r) as [Hl|Hl].
  - destruct (handler_local_ok s r p miss Hi Hr Hp Hl) as (s' & E & Hi' & _). eauto.
  - destruct (decide (holds s r p)) as [Hh|Hh], miss;
      first [destruct (handler_remote_read_ok s r p access_read Hi Hr Hp Hl) as (s' & E & Hi' & _); [by auto|by eauto]
            |destruct (handler_remote_write_ok s r p access_write Hi Hr Hp Hl) as (s' & E & Hi' & _); [by auto|by eauto]
            |destruct (handler_remote_write_ok s r p access_undefined Hi Hr Hp Hl) as (s' & E & Hi' & _); [by auto|by eauto]
            |destruct (handler_remote_read_ok s r p access_undefined Hi Hr Hp Hl) as (s' & E & Hi' & _); [by auto|by eauto]].
Qed.

(** ** Application accesses *)
Lemma align_offset a : 0 <= a mod PAGE_SIZE < PAGE_SIZE.
Proof. by apply Z.mod_pos_bound. Qed.

(** What the handler does on an address it can already read is irrelevant: the
    access does not fault.  A load faults at most once. *)
Lemma app_load_ok s r a miss :
  inv s -> node r -> 0 <= a < size_of_all c -> miss ≠ access_write ->
  let p := align_backwards a PAGE_SIZE in let j := a mod PAGE_SIZE in
  exists s' v, app_load c pl 1 s r a miss = Ok (s', v) /\ inv s' /\ quiet s s' r /\
    (home p = r -> v = home_byte s' p j) /\
    (home p ≠ r -> holds s' r p /\ v = cache_byte s' r p j /\
       (holds s r p -> s' = s) /\ (~ holds s r p -> v = home_byte s' p j)).
Proof using Hc.
  intros Hi Hr Ha Hm p j. pose proof (align_page a Ha) as Hp. fold p in Hp.
  pose proof (align_offset a) as Hj. fold j in Hj.
  cbn [app_load]. fold p j. destruct (can_read s r p) eqn:Ecr.
  - apply bool_decide_eq_true in Ecr. exists s, (backing_byte s r (vmap s r p).1 j).
    split; [done|]. split; [done|]. split; [apply quiet_refl|]. split.
    + intros Hl. pose proof (iv_local _ _ _ _ Hi r p Hr Hp Hl) as Hv. unfold local_vm_ok in Hv.
      destruct (has_bit (shr s r p) r); [|done]. destruct Hv as (-> & _). unfold SwdsmInv.home_byte. by rewrite Hl.
    + intros Hl. destruct (access_holds c pl Hc _ s Hi r p Hr Hp Hl Ecr) as [Hh ->]. split_and!; done.
  - apply bool_decide_eq_false, dec_stable in Ecr.
    rewrite handler_split by done. fold p. destruct (Z.eqb_spec (home p) r) as [Hl|Hl].
    + destruct (handler_local_ok s r p miss Hi Hr Hp Hl) as (s1 & -> & Hi1 & Hq & Hpost).
      cbn [mbind outcome_bind].
      pose proof (iv_local _ _ _ _ Hi r p Hr Hp Hl) as Hv. unfold local_vm_ok in Hv.
      destruct (has_bit (shr s r p) r); [by destruct Hv as (_ & ? & _)|]. destruct Hpost as [Hm1 _].
      assert (can_read s1 r p = true) as -> by (apply bool_decide_eq_true; by rewrite Hm1).
      rewrite Hm1. cbn [fst]. eexists s1, _. split; [reflexivity|]. split_and!; try done.
      intros _. unfold SwdsmInv.home_byte. by rewrite Hl.
    + assert (Hnh : ~ holds s r p).
      { intros Hh. pose proof (holds_slot c pl Hc _ s Hi r p Hr Hp Hh) as Hsl.
        pose proof (sl_map _ _ _ _ _ Hsl) as Hmp. destruct Hh as [Ht Hv]. rewrite Ht in Hmp.
        rewrite Hmp in Ecr. cbn [snd] in Ecr. unfold slot_prot in Ecr. rewrite Hv in Ecr.
        by destruct (cd_dirty _). }
      destruct (handler_remote_read_ok s r p miss Hi Hr Hp Hl) as (s1 & -> & Hi1 & Hq & Hh1 & _ & Hfr).
      { destruct miss; auto. done. }
      cbn [mbind outcome_bind]. destruct (Hfr Hnh) as [Hcl Hb].
      pose proof (holds_slot c pl Hc _ s1 Hi1 r p Hr Hp Hh1) as Hsl.
      pose proof (sl_map _ _ _ _ _ Hsl) as Hmp. rewrite (proj1 Hh1) in Hmp.
      assert (can_read s1 r p = true) as ->.
      { apply bool_decide_eq_true. rewrite Hmp. cbn [snd]. unfold slot_prot. by rewrite (proj2 Hh1), Hcl. }
      rewrite Hmp. cbn [fst]. eexists s1, _. split; [reflexivity|]. split_and!; try done.
      intros _. split_and!; try done. intros _. by apply Hb.
Qed.

(** ** Stores *)
Record stored (s s' : dsm) (r p j v : Z) : Prop := {
  st_others : others c s s' r;
  st_local : home p = r -> home_byte s' p j = v;
  st_remote : home p ≠ r -> holds_dirty s' r p /\ cache_byte s' r p j = v;
  st_twin : home p ≠ r -> ~ holds_dirty s r p ->
    copy_byte s' r p j = (if decide (holds s r p) then cache_byte s r p j else home_byte s p j) /\
    home_byte s' p j = home_byte s p j;
  st_again : home p ≠ r -> holds_dirty s r p ->
    copy_byte s' r p j = copy_byte s r p j /\ home_byte s' p j = home_byte s p j;
  st_calm q i : page q -> 0 <= i < PAGE_SIZE -> ~ (q = p /\ i = j) -> undisturbed s s' r q i;
}.

(** The store itself, on a writable page. *)
Lemma put_local_ok s r p j v :
  inv s -> node r -> page p -> home p = r -> 0 <= j < PAGE_SIZE -> vmap s r p = (BHome (off p), PROT_RW) ->
  inv (put_byte s r (vmap s r p).1 j v) /\ stored s (put_byte s r (vmap s r p).1 j v) r p j v.
Proof using Hc.
  intros Hi Hr Hp Hl Hj Hm. rewrite Hm. cbn [fst put_byte].
  split; [by apply (inv_store_home c pl Hc); try done; rewrite Hm|]. split; try done.
  - intros _. unfold SwdsmInv.home_byte. cbn [globalData set_globalData].
    by rewrite mget_mput, decide_True by done.
  - intros q i Hq Hi' Hne. apply undisturbed_same; try done.
    unfold SwdsmInv.home_byte. cbn [globalData set_globalData].
    rewrite mget_mput, decide_False; [done|]. intros [E1 E2]. apply Hne.
    apply (place_inj_byte c pl Hc q p i j); [done..|congruence|done].
Qed.

Lemma put_remote_ok s s1 r p j v :
  inv s1 -> node r -> page p -> home p ≠ r -> 0 <= j < PAGE_SIZE -> write_opened s s1 r p ->
  vmap s1 r p = (BCache (cidx p), PROT_RW) /\
  inv (put_byte s1 r (vmap s1 r p).1 j v) /\ stored s (put_byte s1 r (vmap s1 r p).1 j v) r p j v.
Proof using Hc.
  intros Hi Hr Hp Hl Hj [W1 W2 W3 W4 W5 W6 W7].
  pose proof (holds_slot c pl Hc _ s1 Hi r p Hr Hp (proj1 W1)) as Hsl.
  pose proof (sl_map _ _ _ _ _ Hsl) as Hm. destruct W1 as [[Ht Hv] Hd]. rewrite Ht in Hm.
  unfold slot_prot in Hm. rewrite Hv, Hd in Hm. split; [done|]. rewrite Hm. cbn [fst put_byte].
  split; [by apply (inv_store_cached c pl Hc)|]. split; try done.
  - destruct W2 as [O1 O2 O3 O4]. split; try done.
    intros x b Hx. cbn [cacheData set_cacheData]. rewrite mget_mput, decide_False by (intros [? _]; congruence).
    by apply O2.
  - intros _. split; [done|]. unfold SwdsmInv.cache_byte. cbn [cacheData set_cacheData].
    by rewrite mget_mput, decide_True by done.
  - intros _ Hnd. change (home_byte (set_cacheData s1 _) p j) with (home_byte s1 p j).
    split; [|by apply (ud_calm _ _ _ _ _ _ _ (W7 p j Hp Hj)), clean_unmodified].
    change (copy_byte (set_cacheData s1 _) r p j) with (copy_byte s1 r p j). rewrite W4 by done.
    case_decide; [by apply W5|by apply W6].
  - intros _ Hd0. by rewrite (W3 Hd0).
  - intros q i Hq Hi' Hne. apply (undisturbed_trans c pl s s1); [by apply W7|].
    destruct (decide (q = p)) as [->|Hqp].
    { apply undisturbed_same; try done. unfold SwdsmInv.cache_byte. cbn [cacheData set_cacheData].
      rewrite mget_mput, decide_False; [done|]. intros [_ E]. apply Hne. split; [done|lia]. }
    destruct (decide (cidx q = cidx p)) as [Ei|Ei].
    { assert (Hn : ~ holds s1 r q) by (intros [H _]; congruence).
      apply undisturbed_clean; [by intros [? _]|done|by intros [? _]|by intros _ ?]. }
    apply undisturbed_same; try done. unfold SwdsmInv.cache_byte. cbn [cacheData set_cacheData].
    rewrite mget_mput, decide_False; [done|]. intros [_ E]. unfold PAGE_SIZE in *. lia.
Qed.

(** An access that does not fault, and one that does. *)
Section Access.

Context (r a v : Z) (miss : access_type) (Ha : 0 <= a < size_of_all c).

Let p := align_backwards a PAGE_SIZE.
Let j := a mod PAGE_SIZE.

Lemma store_returns s n : can_write s r p = true ->
  app_store c pl n s r a v miss = Ok (put_byte s r (vmap s r p).1 j v).
Proof. intros Hw. destruct n; cbn [app_store]; fold p j; by rewrite Hw. Qed.

Lemma store_faults s s' n : can_write s r p = false -> handler c pl s r a miss = Ok s' ->
  app_store c pl (S n) s r a v miss = app_store c pl n s' r a v miss.
Proof. intros Hw E. cbn [app_store]. fold p j. rewrite Hw, E. done. Qed.

Lemma handler_here s : home p = r -> handler c pl s r a miss = handler_local c s r p (off p) miss.
Proof using Hc Ha. intros Hl. rewrite handler_split by done. fold p. by rewrite (proj2 (Z.eqb_eq _ _) Hl). Qed.

Lemma handler_there s : home p ≠ r -> handler c pl s r a miss = handler_remote c pl s r p (home p) miss.
Proof using Hc Ha. intros Hl. rewrite handler_split by done. fold p. by rewrite (proj2 (Z.eqb_neq _ _) Hl). Qed.

Context (Hr : node r) (Hm : miss ≠ access_read).

(** A local page: the first fault registers a sharer, the second a writer. *)
Lemma store_shared s0 s n :
  inv s -> quiet s0 s r -> home p = r -> has_bit (shr s r p) r = true ->
  exists s', app_store c pl (S n) s r a v miss = Ok s' /\ inv s' /\ stored s0 s' r p j v.
Proof using Hc Ha Hr Hm.
  intros Hi Hq Hl Hb. pose proof (align_page a Ha) as Hp. fold p in Hp.
  pose proof (align_offset a) as Hj. fold j in Hj.
  assert (Hw : forall s2, inv s2 -> quiet s0 s2 r -> vmap s2 r p = (BHome (off p), PROT_RW) ->
            inv (put_byte s2 r (vmap s2 r p).1 j v) /\ stored s0 (put_byte s2 r (vmap s2 r p).1 j v) r p j v).
  { intros s2 Hi2 Hq2 Hv. destruct (put_local_ok s2 r p j v Hi2 Hr Hp Hl Hj Hv) as [H1 [H2 H3 H4 H5 H5' H6]].
    split; [done|]. split; try done; [by apply (others_trans c s0 s2); [apply (quiet_others c pl)|]|].
    intros q i Hq' Hi' Hne. apply (undisturbed_trans c pl s0 s2); [by apply (qt_calm _ _ _ _ _ Hq2)|by apply H6]. }
  destruct (can_write s r p) eqn:Ew.
  - rewrite store_returns by done. eexists. split; [reflexivity|]. apply Hw; try done.
    apply bool_decide_eq_true in Ew. pose proof (iv_local _ _ _ _ Hi r p Hr Hp Hl) as Hv.
    unfold local_vm_ok in Hv. rewrite Hb in Hv. destruct Hv as [E1 _].
    destruct (vmap s r p). simpl in *. congruence.
  - destruct (handler_local_ok s r p miss Hi Hr Hp Hl) as (s2 & E & Hi2 & Hq2 & Hpost).
    rewrite Hb, bool_decide_false in Hpost by done. rewrite <- handler_here in E by done.
    rewrite (store_faults s s2) by done. rewrite store_returns by (apply bool_decide_eq_true; by rewrite Hpost).
    eexists. split; [reflexivity|]. apply Hw; try done. by apply (quiet_trans c pl s0 s).
Qed.

Lemma store_local_ok s :
  inv s -> home p = r ->
  exists s', app_store c pl 2 s r a v miss = Ok s' /\ inv s' /\ stored s s' r p j v.
Proof using Hc Ha Hr Hm.
  intros Hi Hl. pose proof (align_page a Ha) as Hp. fold p in Hp.
  destruct (has_bit (shr s r p) r) eqn:Hb; [apply store_shared; try done; apply quiet_refl|].
  pose proof (iv_local _ _ _ _ Hi r p Hr Hp Hl) as Hv. unfold local_vm_ok in Hv. rewrite Hb in Hv.
  destruct (handler_local_ok s r p miss Hi Hr Hp Hl) as (s1 & E & Hi1 & Hq & Hpost). rewrite Hb in Hpost.
  rewrite <- handler_here in E by done.
  rewrite (store_faults s s1) by (done || (apply bool_decide_eq_false; by rewrite Hv)).
  apply store_shared; [done..|]. apply Hpost.
Qed.

(** A remote page: an access of unknown kind is first taken for a read. *)
Lemma store_opened s s1 n :
  home p ≠ r -> inv s1 -> write_opened s s1 r p ->
  exists s', app_store c pl n s1 r a v miss = Ok s' /\ inv s' /\ stored s s' r p j v.
Proof using Hc Ha Hr Hm.
  intros Hl Hi1 Hw. pose proof (align_page a Ha) as Hp. fold p in Hp.
  pose proof (align_offset a) as Hj. fold j in Hj.
  destruct (put_remote_ok s s1 r p j v Hi1 Hr Hp Hl Hj Hw) as (Hv & H1 & H2).
  rewrite store_returns by (apply bool_decide_eq_true; by rewrite Hv). eauto.
Qed.

Lemma write_opened_after s s1 s2 :
  page p -> ~ holds s r p -> quiet s s1 r -> holds s1 r p -> cd_dirty (cc s1 r (cidx p)) = CLEAN ->
  (forall i, 0 <= i < PAGE_SIZE -> cache_byte s1 r p i = home_byte s1 p i) ->
  write_opened s1 s2 r p -> write_opened s s2 r p.
Proof.
  intros Hp Hnh Hq Hh1 Hcl Hb [W1 W2 W3 W4 W5 W6 W7].
  assert (Hnd : ~ holds_dirty s r p) by (by intros [? _]).
  assert (Hnd1 : ~ holds_dirty s1 r p) by (intros [_ ?]; congruence).
  split; try done.
  - apply (others_trans c s s1); [by apply (quiet_others c pl)|done].
  - intros i _ Hi'. by apply W4.
  - intros i _ Hi'. rewrite W5, Hb by done. by apply (qt_home c pl s s1 r).
  - intros q i Hq' Hi'. apply (undisturbed_trans c pl s s1); [by apply (qt_calm _ _ _ _ _ Hq)|by apply W7].
Qed.

Lemma store_remote_ok s :
  inv s -> home p ≠ r ->
  exists s', app_store c pl 2 s r a v miss = Ok s' /\ inv s' /\ stored s s' r p j v.
Proof using Hc Ha Hr Hm.
  intros Hi Hl. pose proof (align_page a Ha) as Hp. fold p in Hp.
  destruct (can_write s r p) eqn:Ew.
  { apply (store_opened s s); [done|done|]. apply bool_decide_eq_true in Ew.
    destruct (access_holds c pl Hc _ s Hi r p Hr Hp Hl) as [Hhh Hv]; [by rewrite Ew|].
    rewrite Hv in Ew. cbn [snd] in Ew. unfold slot_prot in Ew. rewrite (proj2 Hhh) in Ew.
    assert (Hd : holds_dirty s r p) by (split; [done|]; by destruct (cd_dirty _)).
    split; try done. intros q i _ _. apply undisturbed_refl. }
  destruct (decide (miss = access_write \/ (miss = access_undefined /\ holds s r p))) as [Hmw|Hmw].
  - destruct (handler_remote_write_ok s r p miss Hi Hr Hp Hl Hmw) as (s1 & E & Hi1 & Hw).
    rewrite <- handler_there in E by done. rewrite (store_faults s s1) by done. by apply store_opened.
  - assert (miss = access_undefined /\ ~ holds s r p) as [Em Hnh] by (destruct miss; tauto).
    destruct (handler_remote_read_ok s r p miss Hi Hr Hp Hl) as (s1 & E & Hi1 & Hq & Hh1 & _ & Hfr); [by auto|].
    destruct (Hfr Hnh) as [Hcl Hb].
    destruct (handler_remote_write_ok s1 r p miss Hi1 Hr Hp Hl) as (s2 & E2 & Hi2 & Hw); [by auto|].
    pose proof (sl_map _ _ _ _ _ (holds_slot c pl Hc _ s1 Hi1 r p Hr Hp Hh1)) as Hmp. rewrite (proj1 Hh1) in Hmp.
    rewrite <- handler_there in E, E2 by done. rewrite (store_faults s s1) by done. rewrite (store_faults s1 s2); [| |done].
    + apply store_opened; [done|done|]. by apply (write_opened_after s s1 s2).
    + apply bool_decide_eq_false. rewrite Hmp. cbn [snd]. unfold slot_prot. by rewrite (proj2 Hh1), Hcl.
Qed.

End Access.

(** A store faults at most twice. *)
Lemma app_store_ok s r a v miss :
  inv s -> node r -> 0 <= a < size_of_all c -> miss ≠ access_read ->
  exists s', app_store c pl 2 s r a v miss = Ok s' /\ inv s' /\
    stored s s' r (align_backwards a PAGE_SIZE) (a mod PAGE_SIZE) v.
Proof using Hc.
  intros Hi Hr Ha Hm. destruct (decide (home (align_backwards a PAGE_SIZE) = r)).
  - by apply store_local_ok.
  - by apply store_remote_ok.
Qed.

End Handler.
