(* ===== verification/SwdsmSync.v ===== *)
(** * Synchronisation

    [argo_acquire], [argo_release] and the barrier: what self-invalidation keeps,
    why every kept page is up to date, and the clean-up a barrier with
    [upgrade_writers] does to the directories. *)

From S2P Require Import Prelude BlockMap DataDistribution FirstTouch GlobalPtr Mem Swdsm SwdsmBase SwdsmInv SwdsmDir SwdsmOps SwdsmLoad SwdsmHandler.

Section Sync.

Context (c : dsm_config) (pl : placement) (Hc : cfg_ok c pl) {PB : plain_bytes}.

Abbreviation N := (numtasks c).
Abbreviation node := (node c).
Abbreviation page := (page c).
Abbreviation home := (home c pl).
Abbreviation off := (off c pl).
Abbreviation cidx := (cidx c).
Abbreviation cls := (cls c).
Abbreviation cc := (cc c).
Abbreviation shr := (shr c).
Abbreviation wr := (wr c).
Abbreviation holds := (holds c).
Abbreviation holds_dirty := (holds_dirty c).
Abbreviation cache_byte := (cache_byte c).
Abbreviation home_byte := (home_byte c pl).
Abbreviation inv_pend := (inv_pend c pl).
Abbreviation inv := (inv c pl).
Abbreviation quiet := (quiet c pl).

(** ** Self-invalidation *)

(** Marking a used slot as touched. *)
Lemma inv_touched pend s r i :
  inv_pend pend s -> slot_of c pl s r i -> inv_pend pend (set_touched s r i 1).
Proof.
  intros [A B C D F G] Hs. split; [|exact B|exact C| | |exact G].
  - intros x k Hx Hk. destruct (decide (x = r /\ k = i)) as [[-> ->]|Hne].
    + right. destruct Hs. split; try done. intros _. rewrite touched_set_touched, decide_True by done. lia.
    + apply (slot_ok_equiv c pl s); try done; [|by apply A].
      rewrite touched_set_touched, decide_False by done. done.
  - intros x Hx. destruct (D x Hx). by split.
  - intros p Hp. destruct (F p Hp) as [[] H2 H3]. split; [by split|exact H2|exact H3].
Qed.

Lemma touched_quiet s r i v : quiet s (set_touched s r i v) r.
Proof. split; try done. intros q j _ _. by apply undisturbed_same. Qed.

(** Dropping a page: the end of the loop body. *)
Definition drop_slot (s : dsm) (r i p : Z) : dsm :=
  mprotect (set_touched (set_state c (set_dirty c s r i CLEAN) r i INVALID) r i 0) r p PROT_NONE.

Lemma drop_retired s r i :
  slot_of c pl s r i -> retired c s (drop_slot s r i (cd_tag (cc s r i))) r i (cd_tag (cc s r i)).
Proof.
  intros Hs. unfold drop_slot. split; try done.
  - intros x k. dsm_get. rewrite (decide_True (P := r = r /\ i = i)) by done. cbn [cd_tag cd_dirty].
    repeat case_decide; done.
  - intros x k Hne. dsm_get. by rewrite decide_False.
  - intros x q. dsm_get. rewrite (sl_map _ _ _ _ _ Hs). cbn [fst]. repeat case_decide; done.
Qed.

(** What the first [k] rounds have done. *)
Record acquired (s s' : dsm) (r k : Z) : Prop := {
  aq_inv : inv s';
  aq_quiet : quiet s s' r;
  aq_sh x i : sh s' x i = sh s x i;
  aq_wb x : x ≠ r -> wb s' x = wb s x;
  aq_held q : holds s' r q -> holds s r q;
  aq_clean i : 0 <= i < k -> cd_dirty (cc s' r i) = CLEAN;
  aq_keep i : 0 <= i < k -> cd_state (cc s' r i) = VALID -> keep_page s r (cls (cd_tag (cc s' r i))) = true;
}.

Lemma acquired_refl s r : inv s -> acquired s s r 0.
Proof. intros Hi. split; try done; [apply quiet_refl|lia..]. Qed.

Lemma acquired_step s s1 s2 r k :
  acquired s s1 r k -> inv s2 -> quiet s1 s2 r -> (forall x i, sh s2 x i = sh s1 x i) ->
  (forall x, x ≠ r -> wb s2 x = wb s1 x) ->
  (forall i, cd_tag (cc s2 r i) = cd_tag (cc s1 r i)) ->
  (forall i, cd_state (cc s2 r i) = VALID -> cd_state (cc s1 r i) = VALID) ->
  (forall i, cd_dirty (cc s1 r i) = CLEAN -> cd_dirty (cc s2 r i) = CLEAN) ->
  acquired s s2 r k.
Proof.
  intros [A1 A2 A3 A4 A5 A6 A7] Hi Hq Hsh Hwb Ht Hv Hd. split; try done.
  - by apply (quiet_trans c pl s s1).
  - intros. by rewrite Hsh.
  - intros x Hx. by rewrite Hwb, A4.
  - intros q [H1 H2]. apply A5. split; [by rewrite Ht in H1|by apply Hv].
  - intros i Hk. by apply Hd, A6.
  - intros i Hk H. rewrite Ht. apply A7; [done|]. by apply Hv.
Qed.

Lemma acquired_flush s s1 r k :
  acquired s s1 r k -> node r -> exists s2, wb_flush c pl s1 r = Ok s2 /\ acquired s s2 r k /\
    (forall i, 0 <= i < cachesize c -> cd_dirty (cc s2 r i) = CLEAN) /\
    (forall i, cd_tag (cc s2 r i) = cd_tag (cc s1 r i)) /\ (forall i, touched s2 r i = touched s1 r i).
Proof using Hc.
  intros Ha Hr. pose proof (aq_inv _ _ _ _ Ha) as Hi.
  destruct (wb_flush_ok c pl Hc no_pend s1 r Hi Hr) as (s2 & E & Hi2 & Hw & Hf).
  assert (Hcc : forall i, cd_tag (cc s2 r i) = cd_tag (cc s1 r i) /\ cd_state (cc s2 r i) = cd_state (cc s1 r i)).
  { intros i. rewrite (fd_cc _ _ _ _ _ _ Hf). by case_decide. }
  assert (Hcl : forall i, 0 <= i < cachesize c -> cd_dirty (cc s2 r i) = CLEAN).
  { intros i Hidx. destruct (cd_dirty (cc s2 r i)) eqn:Hd; [done|]. exfalso.
    apply (dirty_in_wb c pl s2 r i Hi2 Hr Hidx) in Hd. rewrite Hw in Hd. by apply elem_of_nil in Hd. }
  exists s2. split; [done|]. split_and!; [|done|intros; apply Hcc|intros; apply Hf].
  apply (acquired_step s s1); try done.
  - apply (flushed_quiet c pl Hc no_pend s1 s2 r (wb s1 r)); try done.
  - apply Hf.
  - apply Hf.
  - intros; apply Hcc.
  - intros i H. by rewrite (proj2 (Hcc i)) in H.
  - intros i H. rewrite (fd_cc _ _ _ _ _ _ Hf). case_decide; [done|]. done.
Qed.

(** Keeping a page or dropping it. *)
Lemma acquired_keep s s1 r k :
  acquired s s1 r k -> node r -> 0 <= k < cachesize c -> slot_of c pl s1 r k ->
  cd_dirty (cc s1 r k) = CLEAN -> keep_page s1 r (cls (cd_tag (cc s1 r k))) = true ->
  acquired s (set_touched s1 r k 1) r (k + 1).
Proof.
  intros Ha Hr Hk Hs Hcl Hkeep. pose proof (aq_sh _ _ _ _ Ha) as Hsh.
  assert (Ha2 : acquired s (set_touched s1 r k 1) r k).
  { apply (acquired_step s s1); try done; [|apply touched_quiet].
    apply inv_touched; [apply Ha|done]. }
  destruct Ha2 as [A1 A2 A3 A4 A5 A6 A7]. split; try done.
  - intros i Hik. destruct (decide (i = k)) as [->|]; [done|]. apply A6. lia.
  - intros i Hik Hv. destruct (decide (i = k)) as [->|]; [|apply A7; [lia|done]].
    unfold keep_page in *. by rewrite !Hsh in Hkeep.
Qed.

Lemma acquired_drop s s1 r k :
  acquired s s1 r k -> node r -> 0 <= k < cachesize c -> slot_of c pl s1 r k ->
  cd_dirty (cc s1 r k) = CLEAN -> acquired s (drop_slot s1 r k (cd_tag (cc s1 r k))) r (k + 1).
Proof using Hc.
  intros Ha Hr Hk Hs Hcl. pose proof (drop_retired s1 r k Hs) as Hret.
  set (t := cd_tag (cc s1 r k)) in *. set (s2 := drop_slot s1 r k t) in *.
  pose proof (rt_cc _ _ _ _ _ _ Hret) as Ecc.
  assert (Ek : cc s2 r k = ControlData INVALID CLEAN t) by (by rewrite Ecc, decide_True).
  assert (Ha2 : acquired s s2 r k).
  { apply (acquired_step s s1); try done.
    - apply (inv_retired c pl Hc no_pend s1 s2 r k t); try done; [apply Ha|apply Hs..].
    - by apply (retired_quiet c pl s1 s2 r k t).
    - intros i. rewrite Ecc. case_decide as E; [|done]. by destruct E as [_ ->].
    - intros i. rewrite Ecc. by case_decide.
    - intros i. rewrite Ecc. by case_decide. }
  destruct Ha2 as [A1 A2 A3 A4 A5 A6 A7]. split; try done.
  - intros i Hik. destruct (decide (i = k)) as [->|]; [by rewrite Ek|]. apply A6. lia.
  - intros i Hik Hv. destruct (decide (i = k)) as [->|]; [by rewrite Ek in Hv|]. apply A7; [lia|done].
Qed.

(** A slot that was never used, or whose page was dropped. *)
Lemma acquired_skip s s1 r k :
  acquired s s1 r k -> node r -> 0 <= k < cachesize c -> touched s1 r k = 0 -> acquired s s1 r (k + 1).
Proof.
  intros Ha Hr Hk Ht. pose proof (iv_slot _ _ _ _ (aq_inv _ _ _ _ Ha) r k Hr Hk) as Hs.
  assert (Hv : cd_state (cc s1 r k) = INVALID /\ cd_dirty (cc s1 r k) = CLEAN).
  { destruct Hs as [[-> _]|Hs]; [done|]. destruct (cd_state (cc s1 r k)) eqn:E.
    - split; [done|]. by apply (sl_clean _ _ _ _ _ Hs).
    - by destruct (sl_touched _ _ _ _ _ Hs E). }
  destruct Ha as [A1 A2 A3 A4 A5 A6 A7]. split; try done.
  - intros i Hik. destruct (decide (i = k)) as [->|]; [apply Hv|]. apply A6. lia.
  - intros i Hik H. destruct (decide (i = k)) as [->|]; [by rewrite (proj1 Hv) in H|]. apply A7; [lia|done].
Qed.

Lemma line_addr p : page p -> p / (PAGE_SIZE * CACHELINE) * (PAGE_SIZE * CACHELINE) = p.
Proof using Hc.
  intros Hp. destruct (page_bounds c pl Hc p Hp) as (_ & _ & E). unfold CACHELINE. by rewrite Z.mul_1_r.
Qed.

Lemma self_invalidation_ok s r :
  inv s -> node r -> exists s', self_invalidation c pl s r = Ok s' /\ acquired s s' r (cachesize c).
Proof using Hc.
  intros Hi Hr. unfold self_invalidation.
  match goal with |- context [for_each _ ?f ?x] =>
    destruct (for_range_ok (cachesize c) f (fun k '(s1, fl) => acquired s s1 r k /\
      (fl = true -> forall i, 0 <= i < cachesize c -> cd_dirty (cc s1 r i) = CLEAN)) x)
      as ([s' fl] & -> & Ha & _) end.
  - pose proof (ck_cache c pl Hc). lia.
  - split; [by apply acquired_refl|done].
  - intros k [s1 fl] Hk [Ha Hfl].
    destruct (Z.eqb_spec (touched s1 r k) 0) as [Ht|Ht].
    { eexists. split; [reflexivity|]. split; [by apply acquired_skip|done]. }
    assert (exists s2 f2, (if negb fl && bool_decide (cd_dirty (cc s1 r k) = DIRTY)
              then s ← wb_flush c pl s1 r; Ok (s, true) else Ok (s1, fl)) = Ok (s2, f2) /\
              acquired s s2 r k /\ cd_dirty (cc s2 r k) = CLEAN /\
              (f2 = true -> forall i, 0 <= i < cachesize c -> cd_dirty (cc s2 r i) = CLEAN) /\
              cd_tag (cc s2 r k) = cd_tag (cc s1 r k) /\ touched s2 r k = touched s1 r k)
      as (s2 & f2 & -> & Ha2 & Hcl & Hf2 & Etag & Etch).
    { destruct (acquired_flush s s1 r k Ha Hr) as (s2 & E & Ha2 & Hcl & Etag & Etch).
      destruct fl; cbn [negb andb]; [exists s1, true; split_and!; auto|].
      destruct (bool_decide_reflect (cd_dirty (cc s1 r k) = DIRTY)) as [Hd|Hd].
      - rewrite E. exists s2, true. split_and!; auto.
      - exists s1, false. split_and!; try done. by destruct (cd_dirty (cc s1 r k)). }
    cbn [mbind outcome_bind].
    assert (Hs : slot_of c pl s2 r k).
    { destruct (iv_slot _ _ _ _ (aq_inv _ _ _ _ Ha2) r k Hr Hk) as [[_ H]|H]; [congruence|done]. }
    rewrite <- Etag, line_addr by apply Hs. fold (cls (cd_tag (cc s2 r k))).
    destruct (keep_page s2 r (cls (cd_tag (cc s2 r k)))) eqn:Ek.
    + eexists. split; [reflexivity|]. split; [by apply acquired_keep|]. exact Hf2.
    + eexists. split; [reflexivity|]. split; [by apply acquired_drop|].
      intros Hf i Hidx. pose proof (rt_cc _ _ _ _ _ _ (drop_retired s2 r k Hs) r i) as E.
      unfold drop_slot in E. rewrite E. case_decide; [done|]. by apply Hf2.
  - cbn [mbind outcome_bind]. eauto.
Qed.

(** ** What is kept is up to date *)
Lemma keep_sole_writer s r p :
  inv s -> node r -> page p -> holds s r p -> keep_page s r (cls p) = true -> sole_writer c pl s r p.
Proof using Hc.
  intros Hi Hr Hp Hh Hk x Hx. destruct (iv_dir _ _ _ _ Hi p Hp) as [[_ _ _ Haw _] Hho _].
  destruct (has_bit (wr s (home p) p) x) eqn:E; [|done]. exfalso.
  destruct (Haw r x Hr (Hho r Hr Hh) E Hx) as (y & Hy & Hb).
  unfold keep_page in Hk. change (sh s r (cls p + 1)) with (wr s r p) in Hk.
  pose proof (node_lt_64 c pl Hc r Hr) as Hr64.
  apply orb_true_iff in Hk as [Hk%Z.eqb_eq|[Hk%Z.eqb_eq _]%andb_true_iff]; rewrite Hk in Hb.
  - rewrite node_bit_spec in Hb by lia. apply bool_decide_eq_true in Hb. congruence.
  - unfold has_bit in Hb. by rewrite Z.bits_0 in Hb.
Qed.

(** The node has no modified page and every copy it has is the home data. *)
Definition settled (s : dsm) (r : Z) : Prop :=
  (forall i, 0 <= i < cachesize c -> cd_dirty (cc s r i) = CLEAN) /\
  (forall p j, page p -> 0 <= j < PAGE_SIZE -> plain p j -> in_sync c pl s r p j).

Lemma settled_clean s r p : settled s r -> ~ holds_dirty s r p.
Proof using Hc. intros [H _] [_ Hd]. rewrite H in Hd; [done|]. by eauto with argo. Qed.

Lemma acquired_settled s s' r : node r -> acquired s s' r (cachesize c) -> settled s' r.
Proof using Hc.
  intros Hr [A1 A2 A3 A4 A5 A6 A7]. split; [exact A6|]. intros p j Hp Hj Hpl [Ht Hv].
  pose proof (cidx_range c pl Hc p) as Hidx. specialize (A7 (cidx p) Hidx Hv). rewrite Ht in A7.
  assert (Hk : keep_page s' r (cls p) = true) by (unfold keep_page in *; by rewrite !A3).
  assert (Hh : holds s' r p) by done.
  pose proof (iv_data _ _ _ _ A1 r p Hr Hp Hh (keep_sole_writer s' r p A1 Hr Hp Hh Hk) j Hj Hpl) as Hd.
  by rewrite A6 in Hd.
Qed.

(** ** Release *)
Lemma release_ok s r :
  inv s -> node r -> exists s', wb_flush c pl s r = Ok s' /\ inv s' /\ quiet s s' r /\ wb s' r = [] /\
    (forall i, 0 <= i < cachesize c -> cd_dirty (cc s' r i) = CLEAN) /\
    (forall q j, page q -> 0 <= j < PAGE_SIZE -> home_byte s' q j =
       if decide (holds_dirty s r q) then merged_byte c pl s r q j else home_byte s q j).
Proof using Hc.
  intros Hi Hr. destruct (wb_flush_ok c pl Hc no_pend s r Hi Hr) as (s' & E & Hi' & Hw & Hf).
  exists s'. split_and!; try done.
  - by apply (flushed_quiet c pl Hc no_pend s s' r (wb s r)).
  - intros i Hidx. destruct (cd_dirty (cc s' r i)) eqn:Hd; [done|]. exfalso.
    apply (dirty_in_wb c pl s' r i Hi' Hr Hidx) in Hd. rewrite Hw in Hd. by apply elem_of_nil in Hd.
  - intros q j Hq Hj. rewrite (fd_home _ _ _ _ _ _ Hf) by done. apply decide_ext.
    split; intros [H1 H2].
    + apply (wk_dirty _ _ _ _ (iv_wb _ _ _ _ Hi r Hr)) in H2 as (Hidx & Hd & _).
      destruct (slot_of_dirty c pl s r _ (iv_slot _ _ _ _ Hi r _ Hr Hidx) Hd) as [_ Hv]. done.
    + split; [apply H1|]. apply (dirty_in_wb c pl s r); try done. by eauto with argo.
Qed.

(** A load by a settled node returns the home byte. *)
Lemma settled_load s r a miss :
  inv s -> node r -> 0 <= a < size_of_all c -> miss ≠ access_write ->
  in_sync c pl s r (align_backwards a PAGE_SIZE) (a mod PAGE_SIZE) ->
  unmodified c s r (align_backwards a PAGE_SIZE) (a mod PAGE_SIZE) ->
  exists s', app_load c pl 1 s r a miss = Ok (s', home_byte s (align_backwards a PAGE_SIZE) (a mod PAGE_SIZE)) /\
    inv s' /\ quiet s s' r.
Proof using Hc.
  intros Hi Hr Ha Hm Hs Hu. pose proof (align_page c pl Hc a Ha) as Hp. pose proof (align_offset a) as Hj.
  set (p := align_backwards a PAGE_SIZE) in *. set (j := a mod PAGE_SIZE) in *.
  destruct (app_load_ok c pl Hc s r a miss Hi Hr Ha Hm) as (s' & v & E & Hi' & Hq & Hl & Hrm).
  exists s'. split; [|done]. rewrite E. do 2 f_equal. fold p j in Hl, Hrm.
  pose proof (ud_calm _ _ _ _ _ _ _ (qt_calm _ _ _ _ _ Hq p j Hp Hj) Hu) as [_ Eh].
  destruct (decide (home p = r)) as [El|El]; [by rewrite Hl, Eh|].
  destruct (Hrm El) as (_ & Ev & Hsame & Hnh). destruct (decide (holds s r p)) as [Hh|Hh].
  - rewrite Ev, (Hsame Hh). by apply Hs.
  - by rewrite Hnh, Eh.
Qed.

End Sync.
