(* ===== verification/SwdsmBarrier.v ===== *)
(** * The barrier

    All nodes flush, then all nodes self-invalidate, then the directories may be
    reset: a barrier, also one that upgrades the writers, returns and leaves every
    node with nothing but copies of the home data. *)

From S2P Require Import Prelude BlockMap DataDistribution FirstTouch GlobalPtr Mem Swdsm SwdsmBase SwdsmInv SwdsmDir SwdsmOps SwdsmLoad SwdsmHandler SwdsmSync.

Section Barrier.

Context (c : dsm_config) (pl : placement) (Hc : cfg_ok c pl) {PB : plain_bytes}.

Abbreviation N := (numtasks c).
Abbreviation node := (node c).
Abbreviation page := (page c).
Abbreviation home := (home c pl).
Abbreviation off := (off c pl).
Abbreviation cidx := (cidx c).
Abbreviation cls := (cls c).
Abbreviation cc := (cc c).
Abbreviation shr := (shr c).
Abbreviation wr := (wr c).
Abbreviation holds := (holds c).
Abbreviation holds_dirty := (holds_dirty c).
Abbreviation home_byte := (home_byte c pl).
Abbreviation inv := (inv c pl).
Abbreviation quiet := (quiet c pl).
Abbreviation settled := (settled c pl).

Lemma pages_count : 0 <= classificationSize c / 2 /\ classificationSize c / 2 * PAGE_SIZE = size_of_all c.
Proof using Hc.
  unfold classificationSize. rewrite Z.mul_comm, Z.div_mul by done.
  destruct (ck_pages c pl Hc) as [k Hk]. destruct (size_bounds c pl Hc) as [H _].
  rewrite Hk, Z.div_mul by done. unfold PAGE_SIZE in *. lia.
Qed.

Lemma page_of_index k : 0 <= k < classificationSize c / 2 ->
  page (k * PAGE_SIZE) /\ cls (k * PAGE_SIZE) = 2 * k /\ k * PAGE_SIZE / PAGE_SIZE = k.
Proof using Hc.
  intros Hk. destruct pages_count as [_ E].
  assert (Hp : page (k * PAGE_SIZE)).
  { split; [unfold PAGE_SIZE in *; lia|]. by apply Z.mod_mul. }
  destruct (cls_eq c pl Hc _ Hp) as (Ec & _). rewrite Z.div_mul in Ec by done.
  rewrite Z.div_mul by done. done.
Qed.

Lemma page_index q : page q -> 0 <= q / PAGE_SIZE < classificationSize c / 2.
Proof using Hc.
  intros Hq. destruct (page_bounds c pl Hc q Hq) as (H1 & H2 & H3). destruct pages_count as [_ E].
  unfold PAGE_SIZE in *. lia.
Qed.

(** ** Resetting the writers *)
Definition cached_at (s : dsm) (r p : Z) : bool :=
  (home p =? r) || ((cd_tag (cc s r (cidx p)) =? p) && bool_decide (cd_state (cc s r (cidx p)) = VALID)).

Lemma is_cached_ok s r p : page p ->
  is_cached c pl s r (add64 (startAddr c) p) = Ok (cached_at s r p).
Proof using Hc.
  intros Hp. unfold is_cached, CACHELINE. rewrite Z.mul_1_r.
  destruct (page_bounds c pl Hc p Hp) as (H1 & H2 & H3). destruct (size_bounds c pl Hc) as (_ & H5 & H6 & _).
  rewrite add64_small, sub64_small by (unfold PAGE_SIZE in *; lia).
  replace (startAddr c + p - startAddr c) with p by ring. unfold align_backwards. rewrite <- H3.
  destruct (lookups_ok c pl Hc p Hp) as (_ & -> & _). done.
Qed.

(** The pages of node [r] that lose their write permission. *)
Definition demoted (s : dsm) (r q : Z) : bool := cached_at s r q && has_bit (wr s r q) r.

(** What the first [k] rounds of [self_upgrade] have done to node [r]. *)
Record upgraded (s s' : dsm) (r k : Z) : Prop := {
  ug_cc : cacheControl s' = cacheControl s;
  ug_touched : touchedcache s' = touchedcache s;
  ug_cache : cacheData s' = cacheData s;
  ug_copy : pagecopy s' = pagecopy s;
  ug_home : globalData s' = globalData s;
  ug_wb : wbuf s' = wbuf s;
  ug_shr x q : page q -> shr s' x q = shr s x q;
  ug_wr x q : page q -> wr s' x q = if decide (x = r /\ q / PAGE_SIZE < k) then 0 else wr s x q;
  ug_vm x q : page q -> vmap s' x q =
    if decide (x = r /\ q / PAGE_SIZE < k /\ demoted s r q = true)
    then (fst (vmap s x q), PROT_READ) else vmap s x q;
}.

Lemma upgraded_cc s s' r k x i : upgraded s s' r k -> cc s' x i = cc s x i.
Proof. intros H. unfold Swdsm.cc. by rewrite (ug_cc _ _ _ _ H). Qed.

Lemma self_upgrade_writers_ok s r :
  node r -> exists s', self_upgrade c pl s r false = Ok s' /\ upgraded s s' r (classificationSize c / 2).
Proof using Hc.
  intros Hr. unfold self_upgrade. pose proof (node_lt_64 c pl Hc r Hr) as Hr64.
  apply (for_range_ok _ _ (fun k s1 => upgraded s s1 r k)); [apply pages_count| |].
  - split; try done; intros x q Hq; pose proof (page_index q Hq); by rewrite decide_False by lia.
  - intros k s1 Hk Hu. unfold CACHELINE. rewrite Z.mul_1_r.
    destruct (page_of_index k Hk) as (Hp & Ec & Ek). set (p := k * PAGE_SIZE) in *.
    rewrite is_cached_ok by done. cbn [mbind outcome_bind andb]. rewrite <- Ec.
    change (sh s1 r (cls p + 1)) with (wr s1 r p). rewrite land_bit_zero, negb_involutive by lia.
    assert (Ecc : cached_at s1 r p = cached_at s r p) by (unfold cached_at; by rewrite (upgraded_cc s s1 r k)).
    assert (Ewr : wr s1 r p = wr s r p) by (rewrite (ug_wr _ _ _ _ Hu), decide_False by (done || lia); done).
    rewrite Ecc, Ewr.
    set (s2 := set_sh s1 r (cls p + 1) 0).
    assert (E : (if cached_at s r p then if has_bit (wr s r p) r then Ok (mprotect s2 r p PROT_READ) else Ok s2
             else Ok s2) = Ok (if demoted s r p then mprotect s2 r p PROT_READ else s2)).
    { unfold demoted. by destruct (cached_at s r p), (has_bit (wr s r p) r). }
    rewrite E. eexists. split; [reflexivity|]. clear E.
    assert (Hlt : forall q, page q -> (q / PAGE_SIZE < k + 1 <-> q / PAGE_SIZE < k \/ q = p)).
    { intros q Hq. destruct (page_bounds c pl Hc q Hq) as (_ & _ & E). split.
      - intros H. destruct (decide (q / PAGE_SIZE < k)); [by left|right]. unfold p. rewrite E. f_equal. lia.
      - intros [H| ->]; lia. }
    destruct Hu as [U1 U2 U3 U4 U5 U6 U7 U8 U9].
    split; try (by destruct (demoted s r p)).
    + intros x q Hq. rewrite <- U7 by done.
      transitivity (shr s2 x q); [by destruct (demoted s r p)|]. unfold SwdsmInv.shr, s2.
      rewrite sh_set_sh, decide_False; [done|]. intros [_ E]. by destruct (cls_parity c pl Hc q p Hq Hp).
    + intros x q Hq. transitivity (wr s2 x q); [by destruct (demoted s r p)|]. unfold SwdsmInv.wr, s2.
      rewrite sh_set_sh. change (sh s1 x (cls q + 1)) with (wr s1 x q). rewrite U8 by done.
      assert (Hi : cls p + 1 = cls q + 1 <-> q = p).
      { split; [intros E; apply (cls_inj c pl Hc); [done|done|lia]|by intros ->]. }
      specialize (Hlt q Hq). rewrite (decide_ext (r = x /\ _) (x = r /\ q = p)) by (rewrite Hi; split; intros [? ?]; split; congruence).
      repeat case_decide; try done; exfalso; tauto.
    + intros x q Hq. specialize (Hlt q Hq).
      assert (E : vmap (if demoted s r p then mprotect s2 r p PROT_READ else s2) x q =
                if decide (x = r /\ q = p /\ demoted s r p = true) then (fst (vmap s1 x q), PROT_READ) else vmap s1 x q).
      { destruct (demoted s r p); [|by rewrite decide_False by (by intros (_ & _ & ?))]. unfold s2. dsm_get.
        repeat case_decide; destruct_and?; simplify_eq; try done; exfalso; tauto. }
      rewrite E, U9 by done. destruct (decide (q = p)) as [->|Hne].
      * rewrite (decide_False (P := x = r /\ p / PAGE_SIZE < k /\ _)) by lia. apply decide_ext. tauto.
      * rewrite (decide_False (P := x = r /\ q = p /\ _)) by tauto. apply decide_ext. tauto.
Qed.

(** The same over the first [k] nodes. *)
Record writers_reset (s s' : dsm) (k : Z) : Prop := {
  rw_cc : cacheControl s' = cacheControl s;
  rw_touched : touchedcache s' = touchedcache s;
  rw_cache : cacheData s' = cacheData s;
  rw_copy : pagecopy s' = pagecopy s;
  rw_home : globalData s' = globalData s;
  rw_wb : wbuf s' = wbuf s;
  rw_shr x q : page q -> shr s' x q = shr s x q;
  rw_wr x q : page q -> 0 <= x -> wr s' x q = if decide (x < k) then 0 else wr s x q;
  rw_vm x q : page q -> 0 <= x -> vmap s' x q =
    if decide (x < k /\ demoted s x q = true) then (fst (vmap s x q), PROT_READ) else vmap s x q;
}.

Lemma upgrade_writers_ok s :
  exists s', for_each (seqZ 0 N) (fun r s => self_upgrade c pl s r false) s = Ok s' /\ writers_reset s s' N.
Proof using Hc.
  destruct (size_bounds c pl Hc) as (_ & _ & _ & HN).
  apply (for_range_ok _ _ (fun k s1 => writers_reset s s1 k)); [lia| |].
  - split; try done; intros x q Hq Hx; by rewrite decide_False by lia.
  - intros k s1 Hk [R1 R2 R3 R4 R5 R6 R7 R8 R9].
    destruct (self_upgrade_writers_ok s1 k Hk) as (s2 & E & [U1 U2 U3 U4 U5 U6 U7 U8 U9]).
    exists s2. split; [done|].
    assert (Hd : forall q, page q -> demoted s1 k q = demoted s k q).
    { intros q Hq. unfold demoted, cached_at, Swdsm.cc. rewrite R1, R8, decide_False by (done || lia). done. }
    split; try congruence.
    + intros x q Hq. by rewrite U7, R7.
    + intros x q Hq Hx. rewrite U8, R8 by done. pose proof (page_index q Hq).
      repeat case_decide; try done; exfalso; lia.
    + intros x q Hq Hx. rewrite U9, R9 by done. pose proof (page_index q Hq).
      destruct (decide (x = k)) as [->|Hne].
      * rewrite Hd by done. rewrite (decide_False (P := k < k /\ _)) by lia. apply decide_ext. intuition lia.
      * rewrite (decide_False (P := x = k /\ _)) by tauto. apply decide_ext. intuition lia.
Qed.

(** Resetting the writers keeps the invariant when every node is settled. *)
Lemma inv_writers_reset s s' :
  inv s -> (forall r, node r -> settled s r) -> writers_reset s s' N -> inv s'.
Proof using Hc.
  intros Hi Hset [R1 R2 R3 R4 R5 R6 R7 R8 R9].
  assert (Ecc : forall x i, cc s' x i = cc s x i) by (intros; unfold Swdsm.cc; by rewrite R1).
  assert (Hw0 : forall x q, node x -> page q -> wr s' x q = 0).
  { intros x q Hx Hq. rewrite R8 by (done || apply Hx). by rewrite decide_True by apply Hx. }
  assert (Hcl : forall x q, node x -> ~ holds_dirty s x q) by (intros; by apply (settled_clean c pl Hc), Hset).
  assert (Hh : forall x q, holds s' x q -> holds s x q) by (intros x q; unfold SwdsmInv.holds; by rewrite Ecc).
  assert (Hvm : forall x q, node x -> page q -> vmap s' x q =
            if demoted s x q then (fst (vmap s x q), PROT_READ) else vmap s x q).
  { intros x q Hx Hq. rewrite R9 by (done || apply Hx). destruct (demoted s x q).
    - by rewrite decide_True by (split; [apply Hx|done]).
    - by rewrite decide_False by (by intros [_ ?]). }
  split.
  - intros r idx Hr Hidx. apply (slot_ok_equiv c pl s); [done| |unfold touched; by rewrite R2|by apply (iv_slot _ _ _ _ Hi)].
    intros [Hp Hpi Hrem Hmap _ _]. rewrite Hvm by done. destruct (demoted s r _) eqn:Ed; [|done].
    apply andb_true_iff in Ed as [[E%Z.eqb_eq|[_ E%bool_decide_eq_true]%andb_true_iff]%orb_true_iff _]; [done|].
    rewrite Hmap. cbn [fst]. unfold slot_prot. rewrite Hpi in E. by rewrite E, (proj1 (Hset r Hr)).
  - intros r q Hr Hq Hl. pose proof (iv_local _ _ _ _ Hi r q Hr Hq Hl) as H. unfold local_vm_ok in *.
    rewrite R7, Hvm by done. unfold demoted, cached_at. rewrite (proj2 (Z.eqb_eq _ _) Hl). cbn [orb andb].
    destruct (has_bit (shr s r q) r) eqn:Es; cycle 1.
    + destruct (has_bit (wr s r q) r) eqn:Eb; [|done]. exfalso. subst r.
      by rewrite (dk_own _ _ _ _ (dk_sh _ _ _ _ (iv_dir _ _ _ _ Hi q Hq))) in Es.
    + destruct H as (H1 & H2 & H3). destruct (has_bit (wr s r q) r) eqn:Eb; [done|].
      split_and!; try done. intros H. by specialize (H3 H).
  - intros r q Hr Hq Hl. unfold remote_vm_ok. rewrite Ecc, Hvm by done.
    destruct (demoted s r q) eqn:Ed; [|by apply (iv_remote _ _ _ _ Hi)].
    apply andb_true_iff in Ed as [[E%Z.eqb_eq|[E%Z.eqb_eq _]%andb_true_iff]%orb_true_iff _]; [done|]. done.
  - intros r Hr. destruct (iv_wb _ _ _ _ Hi r Hr) as [W1 W2].
    assert (Ew : wb s' r = wb s r) by (unfold wb; by rewrite R6).
    split; [by rewrite Ew|]. intros i. rewrite Ew, Ecc. apply W2.
  - intros q Hq. destruct (iv_dir _ _ _ _ Hi q Hq) as [[D1 D2 D3 D4 _] D5 D6]. split; [split|..].
    + intros r Hr. rewrite R7, Hw0 by done. split; [by apply D1|apply mask_of_0].
    + intros r Hr. rewrite !R7 by done. by apply D2.
    + intros r x Hr H. rewrite Hw0 in H by done. unfold has_bit in H. by rewrite Z.bits_0 in H.
    + intros r x Hr _ H. rewrite Hw0 in H by (done || by apply (home_node c pl Hc)). unfold has_bit in H. by rewrite Z.bits_0 in H.
    + intros H. rewrite Hw0 in H by (done || by apply (home_node c pl Hc)). unfold has_bit in H. by rewrite Z.bits_0 in H.
    + intros r Hr H. rewrite R7 by done. auto.
    + intros r Hr [H1 H2]. rewrite Ecc in H2. exfalso. apply (Hcl r q Hr). split; auto.
  - intros r q Hr Hq H _ j Hj Hpl. rewrite Ecc, (proj1 (Hset r Hr)) by (by eauto with argo).
    unfold SwdsmInv.cache_byte, SwdsmInv.home_byte. rewrite R3, R5. apply (proj2 (Hset r Hr)); auto.
Qed.

(** ** The phases *)
Definition all_clean (s : dsm) (r : Z) : Prop :=
  forall i, 0 <= i < cachesize c -> cd_dirty (cc s r i) = CLEAN.

Lemma all_clean_page s r q : all_clean s r -> ~ holds_dirty s r q.
Proof using Hc. intros H [_ Hd]. rewrite H in Hd; [done|]. by eauto with argo. Qed.

Lemma quiet_settled s s' r x :
  quiet s s' r -> x ≠ r -> all_clean s r -> settled s x -> settled s' x.
Proof using Hc.
  intros Hq Hx Hr [S1 S2]. pose proof (fun i => qt_cc _ _ _ _ _ Hq x i Hx) as Ecc. split.
  - intros i Hi. rewrite Ecc. by apply S1.
  - intros p j Hp Hj Hpl. pose proof (S2 p j Hp Hj Hpl) as H. unfold in_sync, SwdsmInv.holds, SwdsmInv.cache_byte in *.
    rewrite Ecc, (qt_cache _ _ _ _ _ Hq) by done.
    rewrite (qt_home c pl s s' r) by (done || by apply all_clean_page). done.
Qed.

(** With a single node every page is local. *)
Lemma single_settled s r : inv s -> N = 1 -> node r -> settled s r.
Proof using Hc.
  intros Hi HN Hr.
  assert (Hs : forall i, 0 <= i < cachesize c -> cd_state (cc s r i) = INVALID /\ cd_dirty (cc s r i) = CLEAN).
  { intros i Hidx. destruct (iv_slot _ _ _ _ Hi r i Hr Hidx) as [[-> _]|Hs]; [done|]. exfalso.
    pose proof (home_node c pl Hc _ (sl_page _ _ _ _ _ Hs)) as Hn. apply (sl_remote _ _ _ _ _ Hs).
    unfold SwdsmBase.node in *. lia. }
  split; [intros i Hidx; by apply Hs|]. intros p j Hp Hj _ [_ Hv].
  by rewrite (proj1 (Hs _ (cidx_range c pl Hc p))) in Hv.
Qed.

(** Properties the operations of a barrier cannot falsify: those that survive
    an operation that stores nothing, and any change of the directories. *)
Record stable (P : dsm -> Prop) : Prop := {
  sb_quiet s s' r : node r -> inv s -> inv s' -> quiet s s' r -> P s -> P s';
  sb_dirs s s' : cacheControl s' = cacheControl s -> cacheData s' = cacheData s ->
    pagecopy s' = pagecopy s -> globalData s' = globalData s -> P s -> P s';
}.

Section Phases.

Context (P : dsm -> Prop) (HP : stable P).

Lemma flush_phase s : inv s -> P s ->
  exists s', for_each (seqZ 0 N) (fun r s => wb_flush c pl s r) s = Ok s' /\ inv s' /\ P s' /\
    forall r, node r -> all_clean s' r.
Proof using Hc HP.
  intros Hi H. destruct (size_bounds c pl Hc) as (_ & _ & _ & HN).
  destruct (for_range_ok N (fun r s => wb_flush c pl s r)
    (fun k s1 => inv s1 /\ P s1 /\ forall r, 0 <= r < k -> all_clean s1 r) s) as (s' & E & A & B & C).
  - lia.
  - split_and!; try done. lia.
  - intros k s1 Hk (A & B & C). destruct (release_ok c pl Hc s1 k A Hk) as (s2 & E & Hi2 & Hq & _ & Hcl & _).
    exists s2. split_and!; try done; [by apply (sb_quiet P HP s1 s2 k)|].
    intros r Hr. destruct (decide (r = k)) as [->|Hne]; [done|]. intros i Hidx.
    rewrite (qt_cc _ _ _ _ _ Hq) by done. apply C; [lia|done].
  - eauto.
Qed.

Lemma invalidation_phase s : inv s -> P s -> (forall r, node r -> all_clean s r) ->
  exists s', for_each (seqZ 0 N) (fun r s => self_invalidation c pl s r) s = Ok s' /\ inv s' /\ P s' /\
    forall r, node r -> settled s' r.
Proof using Hc HP.
  intros Hi H Hcl. destruct (size_bounds c pl Hc) as (_ & _ & _ & HN).
  destruct (for_range_ok N (fun r s => self_invalidation c pl s r)
    (fun k s1 => inv s1 /\ P s1 /\ (forall r, node r -> all_clean s1 r) /\ forall r, 0 <= r < k -> settled s1 r) s)
    as (s' & E & A & B & _ & C).
  - lia.
  - split_and!; try done. lia.
  - intros k s1 Hk (A & B & C & D).
    destruct (self_invalidation_ok c pl Hc s1 k A Hk) as (s2 & E & Haq).
    pose proof (aq_quiet _ _ _ _ _ _ Haq) as Hq. pose proof (acquired_settled c pl Hc s1 s2 k Hk Haq) as Hset.
    pose proof (aq_inv _ _ _ _ _ _ Haq) as Hi2. exists s2. split_and!; try done.
    + by apply (sb_quiet P HP s1 s2 k).
    + intros r Hr. destruct (decide (r = k)) as [->|Hne]; [exact (proj1 Hset)|]. intros i Hidx.
      rewrite (qt_cc _ _ _ _ _ Hq) by done. by apply C.
    + intros r Hr. destruct (decide (r = k)) as [->|Hne]; [done|].
      apply (quiet_settled s1 s2 k); [done|done|by apply C|]. apply D. lia.
  - eauto.
Qed.

(** A barrier returns, keeps the invariant and leaves every node settled. *)
Lemma barrier_ok s u : u ≠ upgrade_all -> inv s -> P s ->
  exists s', swdsm_argo_barrier c pl s u = Ok s' /\ inv s' /\ P s' /\ forall r, node r -> settled s' r.
Proof using Hc HP.
  intros Hu Hi H. unfold swdsm_argo_barrier. destruct (Z.eqb_spec N 1) as [HN|HN].
  - eexists. split; [reflexivity|].
    assert (Hi' : inv (count s 0 c_barriers)) by (eapply (inv_proper c pl Hc); [|exact Hi]; by split).
    split_and!; [done|by apply (sb_dirs P HP s)|]. intros r Hr. by apply single_settled.
  - destruct (flush_phase s Hi H) as (s1 & -> & Hi1 & H1 & Hcl). cbn [mbind outcome_bind].
    destruct (invalidation_phase s1 Hi1 H1 Hcl) as (s2 & -> & Hi2 & H2 & Hset). cbn [mbind outcome_bind].
    assert (exists s3, match u with
              | upgrade_none => Ok s2
              | upgrade_writers => for_each (seqZ 0 N) (fun r s => self_upgrade c pl s r false) s2
              | upgrade_all => for_each (seqZ 0 N) (fun r s => self_upgrade c pl s r true) s2
              end = Ok s3 /\ inv s3 /\ P s3 /\ forall r, node r -> settled s3 r) as (s3 & -> & Hi3 & H3 & Hset3).
    { destruct u; [by eauto 10| |done].
      destruct (upgrade_writers_ok s2) as (s3 & E & Hrw). exists s3. split; [done|].
      split; [by apply (inv_writers_reset s2 s3)|].
      destruct Hrw as [R1 R2 R3 R4 R5 R6 R7 R8 R9]. split; [by apply (sb_dirs P HP s2)|].
      intros r Hr. destruct (Hset r Hr) as [A B]. unfold SwdsmSync.settled, in_sync, SwdsmInv.holds,
        SwdsmInv.cache_byte, SwdsmInv.home_byte, Swdsm.cc in *. by rewrite R1, R3, R5. }
    cbn [mbind outcome_bind].
    apply (for_each_ok _ _ (fun s' => inv s' /\ P s' /\ forall r, node r -> settled s' r)); [done|].
    intros r s4 _ (A & B & C). eexists. split; [reflexivity|].
    split; [eapply (inv_proper c pl Hc); [|exact A]; by split|]. split; [by apply (sb_dirs P HP s4)|].
    intros x Hx. destruct (C x Hx) as [D F]. by split.
Qed.

End Phases.

End Barrier.
