(* ===== verification/Atomics.v ===== *)
(** * Atomic operations on the global memory

    The generic interface of [src/src/backend/backend.hpp] ([argo::backend::atomic])
    and its implementation by the MPI backend ([src/src/backend/mpi/mpi.cpp]).  The
    atomics work on the home node's memory and go past the page caches; the memory
    order of a call adds a node-wide release before it and an acquire after it.

    A value of a C++ type is its object representation, a list of bytes with the
    least significant one first.  An operation on a window runs as one step under
    the window's lock. *)

From S2P Require Import Prelude BlockMap DataDistribution FirstTouch GlobalPtr Mem Swdsm SwdsmBase SwdsmInv SwdsmDir SwdsmOps SwdsmLoad SwdsmHandler.

(** ** Words *)
Fixpoint to_bytes (n : nat) (v : Z) : list Z :=
  match n with
  | O => []
  | S n => v mod 256 :: to_bytes n (v / 256)
  end.

Fixpoint of_bytes (l : list Z) : Z :=
  match l with
  | [] => 0
  | b :: l => b + 256 * of_bytes l
  end.

Lemma length_to_bytes n v : length (to_bytes n v) = n.
Proof. revert v. induction n as [|n IH]; intros v; simpl; [done|]. by rewrite IH. Qed.

Lemma of_to_bytes n : forall v, of_bytes (to_bytes n v) = v mod 256 ^ Z.of_nat n.
Proof.
  induction n as [|n IH]; intros v; simpl to_bytes; cbn [of_bytes]; [by rewrite Z.mod_1_r|].
  rewrite IH, Nat2Z.inj_succ, Z.pow_succ_r by lia. by rewrite Z.rem_mul_r by lia.
Qed.

Lemma of_bytes_range l : Forall (fun b => 0 <= b < 256) l -> 0 <= of_bytes l < 256 ^ Z.of_nat (length l).
Proof.
  induction 1 as [|b l Hb _ IH]; cbn [of_bytes length]; [done|]. rewrite Nat2Z.inj_succ, Z.pow_succ_r by lia. nia.
Qed.

Lemma pow_bytes n : 0 <= n -> 2 ^ (8 * n) = 256 ^ n.
Proof. intros H. by rewrite Z.pow_mul_r. Qed.

(** [*ptr += *val] and [MPI_SUM] on words of [n] bytes, in two's complement. *)
Definition add_bytes (n : Z) (a b : list Z) : list Z :=
  to_bytes (Z.to_nat n) ((of_bytes a + of_bytes b) mod 2 ^ (8 * n)).

Lemma of_add_bytes n a b : 0 <= n -> of_bytes (add_bytes n a b) = (of_bytes a + of_bytes b) mod 2 ^ (8 * n).
Proof.
  intros Hn. unfold add_bytes. rewrite of_to_bytes, Z2Nat.id, pow_bytes by done. apply Zmod_mod.
Qed.

(** ** The interface of a backend *)
Inductive memory_order := relaxed | acquire | release | acq_rel.
#[export] Instance memory_order_eq_dec : EqDecision memory_order.
Proof. solve_decision. Defined.

(** What the templates ask of the type [T]: its size, its type traits and its
    [operator==]. *)
Inductive type_traits := is_floating_point | is_unsigned | is_signed | no_number.
Record ctype := CType { sizeof : Z; traits : type_traits; type_eqb : list Z -> list Z -> bool }.

(** The backend functions; the [Z] next to a state is the calling node's id. *)
Record atomic_backend (S : Type) := AtomicBackend {
  ab_acquire : S -> Z -> outcome S;
  ab_release : S -> Z -> outcome S;
  ab_exchange : S -> global_ptr -> list Z -> Z -> outcome (S * list Z);
  ab_store : S -> global_ptr -> list Z -> Z -> outcome S;
  ab_load : S -> global_ptr -> Z -> outcome (S * list Z);
  ab_compare_exchange : S -> global_ptr -> list Z -> Z -> list Z -> outcome (S * list Z);
  ab_fetch_add_int : S -> global_ptr -> list Z -> Z -> outcome (S * list Z);
  ab_fetch_add_uint : S -> global_ptr -> list Z -> Z -> outcome (S * list Z);
  ab_fetch_add_float : S -> global_ptr -> list Z -> Z -> outcome (S * list Z);
}.
Arguments ab_acquire {S}.
Arguments ab_release {S}.
Arguments ab_exchange {S}.
Arguments ab_store {S}.
Arguments ab_load {S}.
Arguments ab_compare_exchange {S}.
Arguments ab_fetch_add_int {S}.
Arguments ab_fetch_add_uint {S}.
Arguments ab_fetch_add_float {S}.

(** ** The generic functions *)
Section Generic.

Context {S : Type} (B : atomic_backend S) (P : policy unit) (T : ctype).

(** [global_ptr<void>(obj)]. *)
Definition to_void (obj : global_ptr) : outcome global_ptr :=
  '(_, g) ← gp_copy P tt obj; Ok g.

Definition before (order : memory_order) (s : S) (r : Z) : outcome S :=
  if bool_decide (order = acq_rel) || bool_decide (order = release) then ab_release B s r else Ok s.
Definition after (order : memory_order) (s : S) (r : Z) : outcome S :=
  if bool_decide (order = acq_rel) || bool_decide (order = acquire) then ab_acquire B s r else Ok s.

Definition exchange (s : S) (r : Z) (obj : global_ptr) (desired : list Z) (order : memory_order) : outcome (S * list Z) :=
  s ← before order s r;
  g ← to_void obj;
  '(s, out_buffer) ← ab_exchange B s g desired (sizeof T);
  s ← after order s r;
  Ok (s, out_buffer).

Definition store (s : S) (r : Z) (obj : global_ptr) (desired : list Z) (order : memory_order) : outcome S :=
  s ← before order s r;
  g ← to_void obj;
  s ← ab_store B s g desired (sizeof T);
  after order s r.

Definition load (s : S) (r : Z) (obj : global_ptr) (order : memory_order) : outcome (S * list Z) :=
  s ← before order s r;
  g ← to_void obj;
  '(s, out_buffer) ← ab_load B s g (sizeof T);
  s ← after order s r;
  Ok (s, out_buffer).

Definition compare_exchange (s : S) (r : Z) (obj : global_ptr) (expected desired : list Z) (order : memory_order) :
    outcome (S * bool) :=
  s ← before order s r;
  g ← to_void obj;
  '(s, out_buffer) ← ab_compare_exchange B s g desired (sizeof T) expected;
  s ← after order s r;
  Ok (s, type_eqb T out_buffer expected).

Definition fetch_add (s : S) (r : Z) (obj : global_ptr) (value : list Z) (order : memory_order) : outcome (S * list Z) :=
  s ← before order s r;
  '(s, out_buffer) ←
    match traits T with
    | is_floating_point => g ← to_void obj; ab_fetch_add_float B s g value (sizeof T)
    | is_unsigned => g ← to_void obj; ab_fetch_add_uint B s g value (sizeof T)
    | is_signed => g ← to_void obj; ab_fetch_add_int B s g value (sizeof T)
    | no_number => Throw (invalid_argument "Invalid type V for value")
    end;
  s ← after order s r;
  Ok (s, out_buffer).

(** The overload for pointers to a type of [size] bytes. *)
Definition fetch_add_pointer (size : Z) (s : S) (r : Z) (obj : global_ptr) (value : Z) (order : memory_order) :
    outcome (S * list Z) :=
  let value_buffer := to_bytes 8 (mul64 value size) in
  s ← before order s r;
  g ← to_void obj;
  '(s, out_buffer) ← ab_fetch_add_uint B s g value_buffer 8;
  s ← after order s r;
  Ok (s, out_buffer).

End Generic.

(** ** The MPI backend *)
Inductive mpi_datatype := MPI_INT32_T | MPI_INT64_T | MPI_UINT32_T | MPI_UINT64_T | MPI_FLOAT | MPI_DOUBLE.

Definition fitting_mpi_int (size : Z) : outcome mpi_datatype :=
  if size =? 4 then Ok MPI_INT32_T
  else if size =? 8 then Ok MPI_INT64_T
  else Throw (invalid_argument "Invalid size (must be either 4 or 8)").

Definition fitting_mpi_uint (size : Z) : outcome mpi_datatype :=
  if size =? 4 then Ok MPI_UINT32_T
  else if size =? 8 then Ok MPI_UINT64_T
  else Throw (invalid_argument "Invalid size (must be either 4 or 8)").

Definition fitting_mpi_float (size : Z) : outcome mpi_datatype :=
  if size =? 4 then Ok MPI_FLOAT
  else if size =? 8 then Ok MPI_DOUBLE
  else Throw (invalid_argument "Invalid size (must be power either 4, 8)").

Definition type_size (t : mpi_datatype) : Z :=
  match t with MPI_INT32_T | MPI_UINT32_T | MPI_FLOAT => 4 | MPI_INT64_T | MPI_UINT64_T | MPI_DOUBLE => 8 end.

Section Mpi.

(** [float_sum n] is the addition of floating-point numbers of [n] bytes. *)
Context (c : dsm_config) (pl : placement) (float_sum : Z -> list Z -> list Z -> list Z).

(** [obj.offset()] and [obj.node()]: the displacement and rank of the operation. *)
Definition target (obj : global_ptr) : outcome (Z * Z) :=
  '(s, obj, o) ← gp_offset (the_policy pl) tt obj;
  '(_, _, h) ← gp_node (the_policy pl) s obj;
  Ok (h, get_data_win_offset o).

(** [MPI_Get], [MPI_Put] and [MPI_Fetch_and_op] of one element of the window. *)
Definition win_get (s : dsm) (t : mpi_datatype) (rank disp : Z) : list Z := mem_read (globalData s) rank disp (type_size t).
Definition win_put (s : dsm) (rank disp : Z) (bs : list Z) : dsm := set_globalData s (mem_write (globalData s) rank disp bs).

Definition mpi_exchange (s : dsm) (obj : global_ptr) (desired : list Z) (size : Z) : outcome (dsm * list Z) :=
  t_type ← fitting_mpi_int size;
  '(rank, win_offset) ← target obj;
  Ok (win_put s rank win_offset desired, win_get s t_type rank win_offset).

Definition mpi_store (s : dsm) (obj : global_ptr) (desired : list Z) (size : Z) : outcome dsm :=
  t_type ← fitting_mpi_int size;
  '(rank, win_offset) ← target obj;
  Ok (win_put s rank win_offset desired).

Definition mpi_load (s : dsm) (obj : global_ptr) (size : Z) : outcome (dsm * list Z) :=
  t_type ← fitting_mpi_int size;
  '(rank, win_offset) ← target obj;
  Ok (s, win_get s t_type rank win_offset).

Definition mpi_compare_exchange (s : dsm) (obj : global_ptr) (desired : list Z) (size : Z) (expected : list Z) :
    outcome (dsm * list Z) :=
  t_type ← fitting_mpi_int size;
  '(rank, win_offset) ← target obj;
  let old := win_get s t_type rank win_offset in
  Ok (if bool_decide (old = expected) then win_put s rank win_offset desired else s, old).

(** [_fetch_add], with [MPI_SUM] for the datatype. *)
Definition mpi_sum (t : mpi_datatype) (a b : list Z) : list Z :=
  match t with
  | MPI_FLOAT | MPI_DOUBLE => float_sum (type_size t) a b
  | _ => add_bytes (type_size t) a b
  end.
Definition mpi_fetch_add (s : dsm) (obj : global_ptr) (value : list Z) (t_type : mpi_datatype) : outcome (dsm * list Z) :=
  '(rank, win_offset) ← target obj;
  let old := win_get s t_type rank win_offset in
  Ok (win_put s rank win_offset (mpi_sum t_type old value), old).

Definition mpi_fetch_add_int (s : dsm) (obj : global_ptr) (value : list Z) (size : Z) : outcome (dsm * list Z) :=
  t_type ← fitting_mpi_int size; mpi_fetch_add s obj value t_type.
Definition mpi_fetch_add_uint (s : dsm) (obj : global_ptr) (value : list Z) (size : Z) : outcome (dsm * list Z) :=
  t_type ← fitting_mpi_uint size; mpi_fetch_add s obj value t_type.
Definition mpi_fetch_add_float (s : dsm) (obj : global_ptr) (value : list Z) (size : Z) : outcome (dsm * list Z) :=
  t_type ← fitting_mpi_float size; mpi_fetch_add s obj value t_type.

Definition mpi_backend : atomic_backend dsm := {|
  ab_acquire := argo_acquire c pl;
  ab_release := argo_release c pl;
  ab_exchange := mpi_exchange;
  ab_store := mpi_store;
  ab_load := mpi_load;
  ab_compare_exchange := mpi_compare_exchange;
  ab_fetch_add_int := mpi_fetch_add_int;
  ab_fetch_add_uint := mpi_fetch_add_uint;
  ab_fetch_add_float := mpi_fetch_add_float;
|}.

End Mpi.

(** ** Calls on an object of the global memory *)
Inductive atomic_call :=
  | at_exchange (desired : list Z)
  | at_store (desired : list Z)
  | at_load
  | at_compare_exchange (expected desired : list Z)
  | at_fetch_add (value : list Z).

(** An integer type of [n] bytes. *)
Definition int_type (n : Z) (sgn : bool) : ctype :=
  {| sizeof := n; traits := if sgn then is_signed else is_unsigned; type_eqb := fun a b => bool_decide (a = b) |}.

Section Calls.

Context {S : Type} (B : atomic_backend S) (P : policy unit).

(** [global_ptr<T>(p)]. *)
Definition obj_at (p : Z) : outcome global_ptr := '(_, g) ← gp_make P tt p true true; Ok g.

Definition run_atomic (T : ctype) (s : S) (r p : Z) (call : atomic_call) (order : memory_order) : outcome (S * list Z) :=
  obj ← obj_at p;
  match call with
  | at_exchange d => exchange B P T s r obj d order
  | at_store d => s ← store B P T s r obj d order; Ok (s, [])
  | at_load => load B P T s r obj order
  | at_compare_exchange e d => '(s, b) ← compare_exchange B P T s r obj e d order; Ok (s, [Z.b2z b])
  | at_fetch_add v => fetch_add B P T s r obj v order
  end.

(** ** What a call means: an operation on a register of [n] bytes *)
Definition call_wf (n : Z) (call : atomic_call) : Prop :=
  match call with
  | at_exchange d | at_store d => Z.of_nat (length d) = n
  | at_load => True
  | at_compare_exchange e d => Z.of_nat (length e) = n /\ Z.of_nat (length d) = n
  | at_fetch_add v => Z.of_nat (length v) = n
  end.

(** The bytes the call writes, if it does. *)
Definition call_write (n : Z) (call : atomic_call) (old : list Z) : option (list Z) :=
  match call with
  | at_exchange d | at_store d => Some d
  | at_load => None
  | at_compare_exchange e d => if bool_decide (old = e) then Some d else None
  | at_fetch_add v => Some (add_bytes n old v)
  end.

Definition call_result (call : atomic_call) (old : list Z) : list Z :=
  match call with
  | at_exchange _ | at_load | at_fetch_add _ => old
  | at_store _ => []
  | at_compare_exchange e _ => [Z.b2z (bool_decide (old = e))]
  end.

(** What a backend promises its clients.  [gbyte s a] is the byte at address [a],
    [upd s p bs] the state with [bs] at [p]; [ok p n] says that an integer of [n]
    bytes can be at [p]. *)
Class AtomicMemory (dom : Z -> Prop) (ok : Z -> Z -> Prop) (gbyte : S -> Z -> Z) (upd : S -> Z -> list Z -> S) : Prop := {
  am_get s p bs a : ok p (Z.of_nat (length bs)) -> dom a -> gbyte (upd s p bs) a =
    if decide (p <= a < p + Z.of_nat (length bs)) then byte_at bs (a - p) else gbyte s a;
  am_dom p n a : ok p n -> p <= a < p + n -> dom a;
  am_ptr p n : ok p n -> exists g, obj_at p = Ok g /\ to_void P g = Ok g /\
    forall s, let old := gbyte s <$> seqZ p n in
    (forall d, Z.of_nat (length d) = n -> ab_exchange B s g d n = Ok (upd s p d, old)) /\
    (forall d, Z.of_nat (length d) = n -> ab_store B s g d n = Ok (upd s p d)) /\
    ab_load B s g n = Ok (s, old) /\
    (forall d e, Z.of_nat (length d) = n -> Z.of_nat (length e) = n ->
      ab_compare_exchange B s g d n e = Ok (if bool_decide (old = e) then upd s p d else s, old)) /\
    (forall v, Z.of_nat (length v) = n -> ab_fetch_add_int B s g v n = Ok (upd s p (add_bytes n old v), old)) /\
    (forall v, Z.of_nat (length v) = n -> ab_fetch_add_uint B s g v n = Ok (upd s p (add_bytes n old v), old));
}.

Section Client.

Context (dom : Z -> Prop) (ok : Z -> Z -> Prop) (gbyte : S -> Z -> Z) (upd : S -> Z -> list Z -> S)
  `{!AtomicMemory dom ok gbyte upd}.

Definition word (s : S) (p n : Z) : list Z := gbyte s <$> seqZ p n.
Definition apply_call (n : Z) (s : S) (p : Z) (call : atomic_call) : S :=
  match call_write n call (word s p n) with Some bs => upd s p bs | None => s end.

(** A call on an integer: release, one operation on the register, acquire. *)
Lemma run_atomic_spec n sgn s r p call order : ok p n -> call_wf n call ->
  run_atomic (int_type n sgn) s r p call order =
    (s1 ← before B order s r;
     s2 ← after B order (apply_call n s1 p call) r;
     Ok (s2, call_result call (word s1 p n))).
Proof using All.
  intros Hok Hwf. destruct (am_ptr p n Hok) as (g & E1 & E2 & H). unfold run_atomic. rewrite E1. cbn [mbind outcome_bind].
  destruct call as [d|d| |e d|v]; unfold exchange, store, load, compare_exchange, fetch_add;
    destruct (before B order s r) as [s1| |]; cbn [mbind outcome_bind]; try done;
    destruct (H s1) as (H1 & H2 & H3 & H4 & H5 & H6); cbn [call_wf] in Hwf; cbn [int_type sizeof traits type_eqb];
    rewrite ?E2; cbn [mbind outcome_bind].
  - by rewrite H1.
  - rewrite H2 by done. cbn [mbind outcome_bind]. unfold apply_call. cbn [call_write]. by destruct (after _ _ _ _).
  - by rewrite H3.
  - rewrite H4 by apply Hwf. unfold apply_call, word. cbn [call_write call_result mbind outcome_bind].
    destruct (bool_decide _) eqn:E; by destruct (after _ _ _ _).
  - destruct sgn; cbn; rewrite ?E2; cbn; [rewrite H5|rewrite H6]; done.
Qed.

Lemma run_relaxed n sgn s r p call : ok p n -> call_wf n call ->
  run_atomic (int_type n sgn) s r p call relaxed = Ok (apply_call n s p call, call_result call (word s p n)).
Proof using All. intros Hok Hwf. rewrite run_atomic_spec by done. reflexivity. Qed.

End Client.

End Calls.

(** ** The MPI backend implements the interface *)
Section MpiLaws.

Context (c : dsm_config) (pl : placement) (Hc : cfg_ok c pl) (float_sum : Z -> list Z -> list Z -> list Z).

(** An object of 4 or 8 bytes of the global memory, within a page. *)
Definition mpi_object (p n : Z) : Prop :=
  (n = 4 \/ n = 8) /\ startAddr c <= p /\ p + n <= startAddr c + size_of_all c /\
  (p - startAddr c) mod PAGE_SIZE + n <= PAGE_SIZE.

Definition page_at (p : Z) : Z := align_backwards (p - startAddr c) PAGE_SIZE.
Definition mpi_byte (s : dsm) (p : Z) : Z := home_byte c pl s (page_at p) ((p - startAddr c) mod PAGE_SIZE).
Definition mpi_update (s : dsm) (p : Z) (bs : list Z) : dsm :=
  win_put s (home c pl (page_at p)) (off c pl (page_at p) + (p - startAddr c) mod PAGE_SIZE) bs.

Lemma page_at_ok p : startAddr c <= p < startAddr c + size_of_all c ->
  page c (page_at p) /\ 0 <= (p - startAddr c) mod PAGE_SIZE < PAGE_SIZE /\ p = startAddr c + (page_at p + (p - startAddr c) mod PAGE_SIZE).
Proof using Hc.
  intros Hp. split; [apply (align_page c pl); [done|lia]|]. split; [apply Z.mod_pos_bound; done|].
  unfold page_at, align_backwards. pose proof (Z.div_mod (p - startAddr c) PAGE_SIZE ltac:(done)). lia.
Qed.

(** The bytes of an object are the following bytes of its page. *)
Lemma object_bytes p n k : mpi_object p n -> 0 <= k < n ->
  page_at (p + k) = page_at p /\ (p + k - startAddr c) mod PAGE_SIZE = (p - startAddr c) mod PAGE_SIZE + k.
Proof using.
  intros (_ & H1 & H2 & H3) Hk. unfold page_at, align_backwards. replace (p + k - startAddr c) with (p - startAddr c + k) by ring.
  set (a := p - startAddr c) in *. pose proof (Z.div_mod a PAGE_SIZE ltac:(done)) as Da.
  pose proof (Z.mod_pos_bound a PAGE_SIZE ltac:(done)) as Ba.
  assert (E : a + k = PAGE_SIZE * (a / PAGE_SIZE) + (a mod PAGE_SIZE + k)) by lia.
  assert (Eq : (a + k) / PAGE_SIZE = a / PAGE_SIZE) by (symmetry; apply (Z.div_unique _ _ _ (a mod PAGE_SIZE + k)); lia).
  assert (Er : (a + k) mod PAGE_SIZE = a mod PAGE_SIZE + k) by (symmetry; apply (Z.mod_unique _ _ (a / PAGE_SIZE)); lia).
  by rewrite Eq, Er.
Qed.

(** The pointer the interface gets, and where it leads. *)
Lemma object_pointer p n : mpi_object p n -> exists g, obj_at (the_policy pl) p = Ok g /\ to_void (the_policy pl) g = Ok g /\
  target pl g = Ok (home c pl (page_at p), off c pl (page_at p) + (p - startAddr c) mod PAGE_SIZE).
Proof using Hc.
  intros Hok. pose proof Hok as (Hn & H1 & H2 & H3). destruct (page_at_ok p ltac:(lia)) as (Hp & Hj & Ep).
  set (q := page_at p) in *. set (j := (p - startAddr c) mod PAGE_SIZE) in *.
  destruct (lookups_ok c pl Hc q Hp) as (_ & _ & _ & _ & Eh & Eo & Hh & Ho).
  pose proof (ck_policy c pl Hc) as Hpol. pose proof (ck_space c pl Hc) as Hsp.
  assert (Hin : forall k, 0 <= k < PAGE_SIZE -> in_space (dist_of c) (startAddr c + q + k)).
  { intros k Hk. destruct (page_bounds c pl Hc q Hp) as (P1 & P2 & _). unfold in_space. simpl. lia. }
  destruct (pl_page (PlacementLaws := Hpol) (startAddr c + q) j (home c pl q) (off c pl q)) as [Eh' Eo']; try done.
  { rewrite <- (Z.add_0_r (startAddr c + q)). by apply Hin. }
  { simpl. replace (startAddr c + q - startAddr c) with q by ring. apply Hp. }
  replace (startAddr c + q + j) with p in Eh', Eo' by lia.
  assert (Hv1 : (home c pl q =? invalid_node_id) = false).
  { apply Z.eqb_neq. destruct Hh. pose proof (ck_nodes c pl Hc). unfold invalid_node_id, UINT_MAX. lia. }
  assert (Hv2 : (off c pl q + j =? invalid_offset) = false).
  { destruct (pl_offset_ok (PlacementLaws := Hpol) _ (Hin j Hj)) as (o & E & Hb). replace (startAddr c + q + j) with p in E by lia.
    rewrite E in Eo'. injection Eo' as ->. apply Z.eqb_neq. pose proof (spn_le_total _ Hsp). destruct Hsp.
    unfold invalid_offset, SIZE_MAX. lia. }
  exists {| gp_homenode := home c pl q; gp_local_offset := off c pl q + j; gp_access_ptr := Some p |}. split_and!.
  - unfold obj_at, gp_make, the_policy, lift_policy. simpl. rewrite Eh'. simpl. by rewrite Eo'.
  - unfold to_void, gp_copy, gp_node, gp_offset. simpl. rewrite Hv1. simpl. by rewrite Hv2.
  - unfold target, gp_node, gp_offset. simpl. rewrite Hv2. simpl. by rewrite Hv1.
Qed.

Lemma fitting_ok n : n = 4 \/ n = 8 -> exists t u, fitting_mpi_int n = Ok t /\ type_size t = n /\
  fitting_mpi_uint n = Ok u /\ type_size u = n /\ (forall a b, mpi_sum float_sum t a b = add_bytes n a b) /\
  forall a b, mpi_sum float_sum u a b = add_bytes n a b.
Proof using. intros [->| ->]; by eexists _, _. Qed.

Lemma update_get s p bs a : mpi_object p (Z.of_nat (length bs)) -> startAddr c <= a < startAddr c + size_of_all c ->
  mpi_byte (mpi_update s p bs) a =
    if decide (p <= a < p + Z.of_nat (length bs)) then byte_at bs (a - p) else mpi_byte s a.
Proof using Hc.
  intros Hok Ha. pose proof Hok as (Hn & H1 & H2 & H3). set (n := Z.of_nat (length bs)) in *.
  destruct (page_at_ok a Ha) as (Hpa & Hja & Ea). destruct (page_at_ok p ltac:(lia)) as (Hpp & Hjp & Ep).
  unfold mpi_byte, mpi_update, home_byte, win_put. cbn [globalData set_globalData]. rewrite mget_write. fold n.
  destruct (decide (p <= a < p + n)) as [Hr|Hr].
  + destruct (object_bytes p n (a - p) Hok ltac:(lia)) as [E1 E2]. rewrite Zplus_minus in E1, E2.
    rewrite E1, E2, decide_True by lia. f_equal. lia.
  + rewrite decide_False; [done|]. intros [Eh Hk]. apply Hr.
    set (k := off c pl (page_at a) + (a - startAddr c) mod PAGE_SIZE - (off c pl (page_at p) + (p - startAddr c) mod PAGE_SIZE)) in *.
    destruct (place_inj_byte c pl Hc (page_at a) (page_at p) ((a - startAddr c) mod PAGE_SIZE) ((p - startAddr c) mod PAGE_SIZE + k)) as [E1 E2];
      try done; lia.
Qed.

#[export] Instance mpi_atomics :
  AtomicMemory (mpi_backend c pl float_sum) (the_policy pl)
    (fun a => startAddr c <= a < startAddr c + size_of_all c) mpi_object mpi_byte mpi_update.
Proof using Hc.
  split.
  - exact update_get.
  - intros p n a (_ & H1 & H2 & _) Ha. lia.
  - intros p n Hok. destruct (object_pointer p n Hok) as (g & E1 & E2 & Et). exists g. split; [done|]. split; [done|].
    pose proof Hok as (Hn & _). destruct (fitting_ok n Hn) as (t & u & F1 & F2 & F3 & F4 & F5 & F6). intros s old.
    assert (Eold : forall t, type_size t = n ->
              win_get s t (home c pl (page_at p)) (off c pl (page_at p) + (p - startAddr c) mod PAGE_SIZE) = old).
    { intros t' Ht. unfold win_get, old. rewrite Ht. apply read_seq. intros k Hk.
      destruct (object_bytes p n k Hok Hk) as [O1 O2]. unfold mpi_byte, home_byte. rewrite O1, O2. f_equal. lia. }
    cbn [ab_exchange ab_store ab_load ab_compare_exchange ab_fetch_add_int ab_fetch_add_uint mpi_backend].
    unfold mpi_exchange, mpi_store, mpi_load, mpi_compare_exchange, mpi_fetch_add_int, mpi_fetch_add_uint, mpi_fetch_add.
    rewrite F1, F3, Et. cbn [mbind outcome_bind]. rewrite !Eold by done. split_and!; try done; intros v Hv.
    + by rewrite F5.
    + by rewrite F6.
Qed.

(** A byte by its address and by its page. *)
Lemma page_byte q j : page c q -> 0 <= j < PAGE_SIZE ->
  page_at (startAddr c + (q + j)) = q /\ (startAddr c + (q + j) - startAddr c) mod PAGE_SIZE = j /\
  startAddr c <= startAddr c + (q + j) < startAddr c + size_of_all c.
Proof using Hc.
  intros Hq Hj. destruct (page_bounds c pl Hc q Hq) as (P1 & P2 & _). destruct Hq as [_ Hm].
  unfold page_at, align_backwards. replace (startAddr c + (q + j) - startAddr c) with (q + j) by ring.
  pose proof (Z.div_mod q PAGE_SIZE ltac:(done)) as Dq. rewrite Hm in Dq.
  assert (E1 : (q + j) / PAGE_SIZE = q / PAGE_SIZE) by (symmetry; apply (Z.div_unique _ _ _ j); lia).
  assert (E2 : (q + j) mod PAGE_SIZE = j) by (symmetry; apply (Z.mod_unique _ _ (q / PAGE_SIZE)); lia).
  rewrite E1, E2. lia.
Qed.

Lemma home_update s p bs q j : mpi_object p (Z.of_nat (length bs)) -> page c q -> 0 <= j < PAGE_SIZE ->
  home_byte c pl (mpi_update s p bs) q j =
    if decide (p <= startAddr c + (q + j) < p + Z.of_nat (length bs)) then byte_at bs (startAddr c + (q + j) - p)
    else home_byte c pl s q j.
Proof using Hc.
  intros Hok Hq Hj. destruct (page_byte q j Hq Hj) as (E1 & E2 & Ha).
  pose proof (update_get s p bs _ Hok Ha) as E. unfold mpi_byte in E. by rewrite E1, E2 in E.
Qed.

(** An atomic write keeps the invariant, up to the bytes it writes. *)
Lemma inv_update (PB PB' : plain_bytes) s p bs : mpi_object p (Z.of_nat (length bs)) ->
  (forall q j, page c q -> 0 <= j < PAGE_SIZE -> PB' q j -> PB q j /\ ~ p <= startAddr c + (q + j) < p + Z.of_nat (length bs)) ->
  inv c pl (PB := PB) s -> inv c pl (PB := PB') (mpi_update s p bs).
Proof using Hc.
  intros Hok Hpl Hi. assert (Hi' : inv c pl (PB := PB') s) by (apply (inv_plain c pl PB PB'); [|done]; intros q j Hq Hj H; apply (Hpl q j Hq Hj H)).
  apply (inv_frame c pl Hc no_pend no_pend s); try done.
  { intros r Hr. destruct (iv_wb _ _ _ _ Hi' r Hr). by split. }
  intros r q Hr Hq Hh Hs j Hj Hp. pose proof (iv_data _ _ _ _ Hi' r q Hr Hq Hh Hs j Hj Hp) as Hd.
  change (cc c (mpi_update s p bs) r (cidx c q)) with (cc c s r (cidx c q)).
  rewrite home_update by done. rewrite decide_False by (by apply Hpl). done.
Qed.

End MpiLaws.
