(* ===== verification/SwdsmSpec.v ===== *)
(** * What the DSM promises: a flat memory for data-race-free programs

    The abstract memory is one array of bytes shared by all nodes.  It tracks, for
    each byte, whether some node has stored to it since the last synchronisation
    ([Owned]), and otherwise which nodes have synchronised since the byte was last
    published ([Shared]) or that the byte is used by atomic operations
    ([Atomic]).  Stores that race are allowed as long as they agree: storing the
    value the byte already has makes it [Common] until the next barrier, and nobody
    may read it before.  Any other access the tracking does not allow is a data race
    and the abstract memory rejects it.  The refinement theorem says that on every
    sequence of operations it accepts, the backend returns and its loads deliver
    exactly the abstract bytes. *)

From S2P Require Import Prelude BlockMap DataDistribution FirstTouch GlobalPtr Mem Swdsm SwdsmBase SwdsmInv SwdsmDir SwdsmOps SwdsmLoad SwdsmHandler SwdsmSync SwdsmBarrier Atomics.

(** ** Operations of a run *)
Inductive dsm_op :=
  | op_load (a : Z) (miss : access_type)
  | op_store (a v : Z) (miss : access_type)
  | op_acquire
  | op_release
  | op_acq_rel
  | op_barrier (u : upgrade_type)
  | op_atomic (a n : Z) (sgn : bool) (call : atomic_call) (order : memory_order).

#[export] Instance upgrade_type_eq_dec : EqDecision upgrade_type.
Proof. solve_decision. Defined.

Section Spec.

Context (c : dsm_config) (pl : placement).

(** No operation of a run adds floating-point numbers. *)
Definition the_backend : atomic_backend dsm := mpi_backend c pl (fun _ a _ => a).

Definition run_op (s : dsm) (o : Z * dsm_op) : outcome (dsm * list Z) :=
  let '(r, op) := o in
  match op with
  | op_load a miss => '(s, v) ← app_load c pl 1 s r a miss; Ok (s, [v])
  | op_store a v miss => s ← app_store c pl 2 s r a v miss; Ok (s, [])
  | op_acquire => s ← argo_acquire c pl s r; Ok (s, [])
  | op_release => s ← argo_release c pl s r; Ok (s, [])
  | op_acq_rel => s ← argo_acq_rel c pl s r; Ok (s, [])
  | op_barrier u => s ← swdsm_argo_barrier c pl s u; Ok (s, [])
  | op_atomic a n sgn call order => run_atomic the_backend (the_policy pl) (int_type n sgn) s r (startAddr c + a) call order
  end.

(** The loaded bytes and the results of the atomic operations, in order. *)
Fixpoint run_ops (s : dsm) (ops : list (Z * dsm_op)) : outcome (dsm * list Z) :=
  match ops with
  | [] => Ok (s, [])
  | o :: ops =>
    '(s, vs) ← run_op s o;
    '(s, ws) ← run_ops s ops; Ok (s, vs ++ ws)
  end.

Definition lengths (call : atomic_call) : list nat :=
  match call with
  | at_exchange d | at_store d => [length d]
  | at_load => []
  | at_compare_exchange e d => [length e; length d]
  | at_fetch_add v => [length v]
  end.

(** The operations the theorems on whole runs are about: of a node of the system, on
    an address of the space, with a fault the hardware reports as what it is or not at
    all; an atomic operation on 4 or 8 bytes inside of a page (the backend refuses
    other sizes); a barrier, but not one with [upgrade_all], which can lose a store
    ([upgrade_all_loses_store] in [System]).  The selective operations ([Coherence]) and
    the reset ([Reset]) are no operations of a run. *)
Definition op_valid (o : Z * dsm_op) : bool :=
  let '(r, op) := o in
  (0 <=? r) && (r <? numtasks c) &&
  match op with
  | op_load a miss => (0 <=? a) && (a <? size_of_all c) && bool_decide (miss ≠ access_write)
  | op_store a v miss => (0 <=? a) && (a <? size_of_all c) && bool_decide (miss ≠ access_read)
  | op_barrier u => bool_decide (u ≠ upgrade_all)
  | op_atomic a n sgn call order =>
    ((n =? 4) || (n =? 8)) && (0 <=? a) && (a + n <=? size_of_all c) && (a mod PAGE_SIZE + n <=? PAGE_SIZE) &&
    forallb (fun l => Z.of_nat l =? n) (lengths call)
  | _ => true
  end.

(** ** The abstract memory *)
Inductive mode := Owned (w : Z) | Shared (synced : Z -> bool) | Atomic | Common.

Record flat := Flat { fm_byte : Z -> Z; fm_mode : Z -> mode }.

Definition flat_init : flat :=
  {| fm_byte := fun _ => 0; fm_mode := fun _ => Shared (fun _ => true) |}.

Definition may_access (m : mode) (r : Z) : bool :=
  match m with Owned w => w =? r | Shared synced => synced r | Atomic | Common => false end.
Definition may_atomic (m : mode) : bool := match m with Owned _ | Common => false | _ => true end.
(** A store that may race: it stores what is there. *)
Definition agrees (f : flat) (a v : Z) : bool :=
  (fm_byte f a =? v) && match fm_mode f a with Atomic => false | _ => true end.

Definition published (m : mode) (r : Z) : mode :=
  match m with
  | Owned w => if w =? r then Shared (fun x => x =? r) else Owned w
  | m => m
  end.

Definition acquired_by (m : mode) (r : Z) : mode :=
  match published m r with
  | Shared synced => Shared (fun x => (x =? r) || synced x)
  | m => m
  end.

Definition at_barrier (m : mode) : mode := match m with Atomic => Atomic | _ => Shared (fun _ => true) end.

Definition flat_modes (f : flat) (g : mode -> mode) : flat := {| fm_byte := fm_byte f; fm_mode := fun b => g (fm_mode f b) |}.

(** The call on the bytes from [a]; a write makes them atomic. *)
Definition flat_call (f : flat) (a n : Z) (call : atomic_call) : flat :=
  match call_write n call (fm_byte f <$> seqZ a n) with
  | Some bs => {| fm_byte := fun b => if bool_decide (a <= b < a + n) then byte_at bs (b - a) else fm_byte f b;
                  fm_mode := fun b => if bool_decide (a <= b < a + n) then Atomic else fm_mode f b |}
  | None => f
  end.

Definition releases (order : memory_order) : bool := bool_decide (order = acq_rel) || bool_decide (order = release).
Definition acquires (order : memory_order) : bool := bool_decide (order = acq_rel) || bool_decide (order = acquire).

Definition flat_op (f : flat) (o : Z * dsm_op) : option (flat * list Z) :=
  let '(r, op) := o in
  match op with
  | op_load a _ => if may_access (fm_mode f a) r then Some (f, [fm_byte f a]) else None
  | op_store a v _ =>
    if may_access (fm_mode f a) r then
      Some ({| fm_byte := fun b => if b =? a then v else fm_byte f b;
               fm_mode := fun b => if b =? a then Owned r else fm_mode f b |}, [])
    else if agrees f a v then
      Some ({| fm_byte := fm_byte f; fm_mode := fun b => if b =? a then Common else fm_mode f b |}, [])
    else None
  | op_acquire | op_acq_rel => Some (flat_modes f (fun m => acquired_by m r), [])
  | op_release => Some (flat_modes f (fun m => published m r), [])
  | op_barrier _ => Some (flat_modes f at_barrier, [])
  | op_atomic a n _ call order =>
    let f := if releases order then flat_modes f (fun m => published m r) else f in
    if forallb (fun b => may_atomic (fm_mode f b)) (seqZ a n) then
      let f' := flat_call f a n call in
      Some (if acquires order then flat_modes f' (fun m => acquired_by m r) else f', call_result call (fm_byte f <$> seqZ a n))
    else None
  end.

Fixpoint flat_ops (f : flat) (ops : list (Z * dsm_op)) : option (flat * list Z) :=
  match ops with
  | [] => Some (f, [])
  | o :: ops =>
    '(f, vs) ← flat_op f o;
    '(f, ws) ← flat_ops f ops; Some (f, vs ++ ws)
  end.

End Spec.

(** ** The simulation *)
Section Sim.

Context (c : dsm_config) (pl : placement) (Hc : cfg_ok c pl).

Abbreviation node := (node c).
Abbreviation page := (page c).
Abbreviation home := (home c pl).
Abbreviation cidx := (cidx c).
Abbreviation cc := (cc c).
Abbreviation holds := (holds c).
Abbreviation holds_dirty := (holds_dirty c).
Abbreviation cache_byte := (cache_byte c).
Abbreviation copy_byte := (copy_byte c).
Abbreviation home_byte := (home_byte c pl).
Abbreviation inv PB := (inv c pl (PB := PB)).
Abbreviation quiet := (quiet c pl).
Abbreviation unmodified := (unmodified c).
Abbreviation in_sync := (in_sync c pl).
Abbreviation settled PB := (settled c pl (PB := PB)).

(** The writer's last store is at the home, or pending in a modified page whose
    twin is the home data. *)
Definition latest (s : dsm) (w q j v : Z) : Prop :=
  (home_byte s q j = v /\ unmodified s w q j /\ in_sync s w q j) \/
  (holds_dirty s w q /\ cache_byte s w q j = v /\ copy_byte s w q j = home_byte s q j).

(** Every modified copy of the byte holds [v], and so does the home, unless a node
    is still about to write it there. *)
Definition common (s : dsm) (q j v : Z) : Prop :=
  (home_byte s q j = v \/ exists x, node x /\ holds_dirty s x q /\ cache_byte s x q j = v /\ copy_byte s x q j ≠ v) /\
  forall x, node x -> holds_dirty s x q -> cache_byte s x q j ≠ copy_byte s x q j -> cache_byte s x q j = v.

Definition sim_byte (s : dsm) (m : mode) (v q j : Z) : Prop :=
  match m with
  | Owned w => node w /\ latest s w q j v /\ forall x, node x -> x ≠ w -> unmodified s x q j
  | Shared synced => home_byte s q j = v /\ forall x, node x ->
      unmodified s x q j /\ (synced x = true -> in_sync s x q j)
  | Atomic => home_byte s q j = v /\ forall x, node x -> unmodified s x q j
  | Common => common s q j v
  end.

(** The bytes no atomic operation has written. *)
Definition plain_of (f : flat) : plain_bytes := fun p j => fm_mode f (p + j) ≠ Atomic.

Definition sim (f : flat) (s : dsm) : Prop :=
  inv (plain_of f) s /\ forall a, 0 <= a < size_of_all c ->
    sim_byte s (fm_mode f a) (fm_byte f a) (align_backwards a PAGE_SIZE) (a mod PAGE_SIZE).

(** An operation of [r] that does not store to the byte. *)
Lemma others_unmodified s s' r x q j :
  others c s s' r -> x ≠ r -> unmodified s x q j -> unmodified s' x q j.
Proof.
  intros [O1 O2 O3 O4] Hx Hu.
  unfold SwdsmOps.unmodified, SwdsmInv.holds_dirty, SwdsmInv.holds, SwdsmInv.cache_byte, SwdsmInv.copy_byte in *.
  by rewrite O1, O2, O3 by done.
Qed.

Lemma others_sync s s' r x q j :
  others c s s' r -> x ≠ r -> home_byte s' q j = home_byte s q j -> in_sync s x q j -> in_sync s' x q j.
Proof.
  intros [O1 O2 O3 O4] Hx Eh Hs.
  unfold SwdsmOps.in_sync, SwdsmInv.holds, SwdsmInv.cache_byte in *. by rewrite O1, O2, Eh by done.
Qed.

Lemma latest_step s s' r w q j v :
  others c s s' r -> undisturbed c pl s s' r q j -> (r ≠ w -> unmodified s r q j) ->
  latest s w q j v -> latest s' w q j v.
Proof.
  intros Ho [U1 U2 U3] Hr Hl. destruct (decide (r = w)) as [->|Hne].
  - destruct Hl as [(H1 & H2 & H3)|(H1 & H2 & H3)].
    + left. destruct (U1 H2). split_and!; [congruence|done|auto].
    + destruct (U3 H1) as [(A1 & A2 & A3 & A4)|(A1 & A2 & A3)].
      * right. split_and!; congruence || done.
      * left. split_and!; auto. rewrite A2. unfold merged_byte. case_decide; congruence.
  - destruct (U1 (Hr Hne)) as [_ Eh]. destruct Hl as [(H1 & H2 & H3)|(H1 & H2 & H3)].
    + left. split_and!; [congruence|by apply (others_unmodified s s' r)|by apply (others_sync s s' r)].
    + right. destruct Ho as [O1 O2 O3 O4].
      unfold SwdsmInv.holds_dirty, SwdsmInv.holds, SwdsmInv.cache_byte, SwdsmInv.copy_byte in *.
      rewrite O1, O2, O3, Eh by done. done.
Qed.

Lemma common_step s s' r q j v :
  node r -> others c s s' r -> undisturbed c pl s s' r q j -> common s q j v -> common s' q j v.
Proof.
  intros Hr Ho [U1 _ U3] [Hg Hm].
  assert (Hsame : forall x, x ≠ r -> (holds_dirty s' x q <-> holds_dirty s x q) /\ cache_byte s' x q j = cache_byte s x q j /\
    copy_byte s' x q j = copy_byte s x q j).
  { intros x Hx. destruct Ho as [O1 O2 O3 _].
    unfold SwdsmInv.holds_dirty, SwdsmInv.holds, SwdsmInv.cache_byte, SwdsmInv.copy_byte. by rewrite O1, O2, O3. }
  assert (Hr' : (unmodified s' r q j /\ (home_byte s' q j = home_byte s q j \/ home_byte s' q j = v)) \/
    (holds_dirty s r q /\ holds_dirty s' r q /\ cache_byte s' r q j = cache_byte s r q j /\ copy_byte s' r q j = copy_byte s r q j /\
     home_byte s' q j = home_byte s q j)).
  { destruct (decide (holds_dirty s r q)) as [Hd|Hd]; [|left; destruct (U1 (clean_unmodified c s r q j Hd)); auto].
    destruct (U3 Hd) as [(A1 & A2 & A3 & A4)|(A1 & A2 & _)]; [by right|]. left. split; [done|]. rewrite A2. unfold merged_byte.
    case_decide as E; [by left|right]. by apply Hm. }
  split.
  - destruct Hg as [Hh|(x & Hx & D1 & D2 & D3)].
    + left. destruct Hr' as [[_ [->|?]]|(_ & _ & _ & _ & ->)]; done.
    + destruct (decide (x = r)) as [->|Hne].
      * destruct (U3 D1) as [(A1 & A2 & A3 & A4)|(_ & A2 & _)]; [right; exists r; split_and!; congruence|].
        left. rewrite A2. unfold merged_byte. rewrite decide_False; congruence.
      * right. exists x. destruct (Hsame x Hne) as (E1 & E2 & E3). rewrite E1, E2, E3. done.
  - intros x Hx Hd Hne. destruct (decide (x = r)) as [->|Hxr].
    + destruct Hr' as [[Hu _]|(D1 & _ & E2 & E3 & _)]; [by apply Hu in Hd|]. rewrite E2, E3 in *. by apply Hm.
    + destruct (Hsame x Hxr) as (E1 & E2 & E3). rewrite E2, E3 in *. apply Hm; [done|by apply E1|done].
Qed.

(** A byte as any mode but [Atomic] has it is one that stores of its value may race on. *)
Lemma sim_common s m v q j : m ≠ Atomic -> sim_byte s m v q j -> common s q j v.
Proof.
  destruct m as [w|synced| |]; intros Hm; [..|done].
  - intros (Hw & Hl & Hx). split.
    + destruct Hl as [(H1 & _)|(H1 & H2 & H3)]; [by left|]. destruct (decide (home_byte s q j = v)) as [|Hne]; [by left|].
      right. exists w. split_and!; try done. by rewrite H3.
    + intros x Hnx Hd Hne. destruct (decide (x = w)) as [->|Hxw]; [|by apply (Hx x Hnx Hxw) in Hd].
      destruct Hl as [(_ & H2 & _)|(_ & H2 & _)]; [by apply H2 in Hd|done].
  - intros [Hh Hx]. split; [by left|]. intros x Hnx Hd Hne. by apply (Hx x Hnx) in Hd.
  - done.
Qed.

Lemma sim_byte_step s s' r m v q j :
  node r -> others c s s' r -> undisturbed c pl s s' r q j -> sim_byte s m v q j -> sim_byte s' m v q j.
Proof.
  intros Hr Ho Hu. destruct m as [w|synced| |]; [..|by apply (common_step s s' r)].
  - intros (Hw & Hl & Hx). split_and!; [done|apply (latest_step s s' r); auto|].
    intros x Hnx Hne. destruct (decide (x = r)) as [->|Hxr].
    + by apply (ud_calm _ _ _ _ _ _ _ Hu), Hx.
    + by apply (others_unmodified s s' r); auto.
  - intros [Hh Hx]. destruct (ud_calm _ _ _ _ _ _ _ Hu (proj1 (Hx r Hr))) as [Hru Eh].
    split; [congruence|]. intros x Hnx. destruct (Hx x Hnx) as [H1 H2].
    destruct (decide (x = r)) as [->|Hxr].
    + split; [done|]. intros Hs. apply (ud_sync _ _ _ _ _ _ _ Hu); auto.
    + split; [by apply (others_unmodified s s' r)|]. intros Hs. apply (others_sync s s' r); auto.
  - intros [Hh Hx]. destruct (ud_calm _ _ _ _ _ _ _ Hu (Hx r Hr)) as [Hru Eh].
    split; [congruence|]. intros x Hnx. destruct (decide (x = r)) as [->|Hxr]; [done|]. apply (others_unmodified s s' r); auto.
Qed.

Lemma align_split a : align_backwards a PAGE_SIZE + a mod PAGE_SIZE = a.
Proof. unfold align_backwards. pose proof (Z.div_mod a PAGE_SIZE ltac:(done)). lia. Qed.

Lemma addr_page a : 0 <= a < size_of_all c ->
  page (align_backwards a PAGE_SIZE) /\ 0 <= a mod PAGE_SIZE < PAGE_SIZE.
Proof using Hc. intros Ha. split; [by apply (align_page c pl)|apply align_offset]. Qed.

Lemma plain_addr f a : fm_mode f a ≠ Atomic -> plain_of f (align_backwards a PAGE_SIZE) (a mod PAGE_SIZE).
Proof. intros H. unfold plain_of. by rewrite align_split. Qed.

Lemma addr_inj a b : align_backwards a PAGE_SIZE = align_backwards b PAGE_SIZE ->
  a mod PAGE_SIZE = b mod PAGE_SIZE -> a = b.
Proof.
  unfold align_backwards. intros E1 E2. rewrite (Z.div_mod a PAGE_SIZE), (Z.div_mod b PAGE_SIZE) by done. lia.
Qed.

(** Operations that store nothing. *)
Lemma sim_quiet f s s' r : sim f s -> node r -> inv (plain_of f) s' -> quiet s s' r -> sim f s'.
Proof using Hc.
  intros [Hi Hs] Hr Hi' Hq. split; [done|]. intros a Ha. destruct (addr_page a Ha) as [Hp Hj].
  apply (sim_byte_step s s' r); [done|by apply (quiet_others c pl)|by apply (qt_calm _ _ _ _ _ Hq)|by apply Hs].
Qed.

(** Changing the modes of the bytes, none away from [Atomic]. *)
Lemma sim_modes f s g :
  (forall m, m = Atomic -> g m = Atomic) -> inv (plain_of f) s ->
  (forall a, 0 <= a < size_of_all c ->
     sim_byte s (g (fm_mode f a)) (fm_byte f a) (align_backwards a PAGE_SIZE) (a mod PAGE_SIZE)) ->
  sim (flat_modes f g) s.
Proof.
  intros Hg Hi Hs. split; [|done]. apply (inv_plain c pl (plain_of f)); [|done].
  intros p j _ _ Hp E. apply Hp. unfold flat_modes. cbn [fm_mode]. auto.
Qed.

(** The byte as a node that may access it sees it. *)
Lemma sim_may_access s m v q j r :
  may_access m r = true -> node r -> sim_byte s m v q j -> latest s r q j v.
Proof.
  intros Hm Hr. destruct m as [w|synced| |]; simpl in *; [..|done|done].
  - apply Z.eqb_eq in Hm. subst w. by intros (_ & ? & _).
  - intros [Hh Hx]. destruct (Hx r Hr) as [H1 H2]. left. auto.
Qed.

(** ** Each operation simulates *)
Lemma sim_load f s r a miss :
  sim f s -> node r -> 0 <= a < size_of_all c -> miss ≠ access_write -> may_access (fm_mode f a) r = true ->
  exists s', app_load c pl 1 s r a miss = Ok (s', fm_byte f a) /\ sim f s'.
Proof using Hc.
  intros Hsim Hr Ha Hm Hmay. pose proof Hsim as [Hi Hs].
  pose proof (sim_may_access _ _ _ _ _ _ Hmay Hr (Hs a Ha)) as [(H1 & H2 & H3)|(H1 & H2 & H3)].
  - destruct (settled_load c pl Hc s r a miss Hi Hr Ha Hm H3 H2) as (s' & E & Hi' & Hq).
    rewrite H1 in E. exists s'. split; [done|]. by apply (sim_quiet f s s' r).
  - destruct (app_load_ok c pl Hc s r a miss Hi Hr Ha Hm) as (s' & v & E & Hi' & Hq & _ & Hrm).
    destruct (addr_page a Ha) as [Hp _].
    destruct Hrm as (_ & Ev & Hsame & _); [by apply (holds_remote c pl Hc (PB := plain_of f) no_pend s); [| | |apply H1]|].
    rewrite (Hsame (proj1 H1)) in *. exists s. split; [|done]. rewrite E. congruence.
Qed.

(** A store makes its byte the latest of the storing node. *)
Lemma stored_latest (PB : plain_bytes) s s' r p j v v0 :
  inv PB s' -> node r -> page p -> latest s r p j v0 -> stored c pl s s' r p j v -> latest s' r p j v.
Proof using Hc.
  intros Hi' Hr Hp Hl [S1 S2 S3 S4 S5 S6]. destruct (decide (home p = r)) as [Hh|Hh].
  - left. assert (Hn : ~ holds s' r p) by (intros H; by apply (holds_remote c pl Hc (PB := PB) no_pend s' Hi' r p)).
    split_and!; [auto|by intros [? _]|by intros ?].
  - right. destruct (S3 Hh) as [A1 A2]. split_and!; [done|done|].
    destruct (decide (holds_dirty s r p)) as [Hd|Hd].
    + destruct (S5 Hh Hd) as [-> ->]. destruct Hl as [(H1 & H2 & H3)|(_ & _ & H3)]; [|done].
      rewrite <- (H2 Hd). apply H3, Hd.
    + destruct (S4 Hh Hd) as [-> ->]. destruct Hl as [(H1 & H2 & H3)|(H1 & _)]; [|done].
      case_decide; [by apply H3|done].
Qed.

Lemma sim_store f s r a v miss :
  sim f s -> node r -> 0 <= a < size_of_all c -> miss ≠ access_read -> may_access (fm_mode f a) r = true ->
  exists s', app_store c pl 2 s r a v miss = Ok s' /\
    sim {| fm_byte := fun b => if b =? a then v else fm_byte f b;
           fm_mode := fun b => if b =? a then Owned r else fm_mode f b |} s'.
Proof using Hc.
  intros [Hi Hs] Hr Ha Hm Hmay. destruct (addr_page a Ha) as [Hp Hj].
  destruct (app_store_ok c pl Hc s r a v miss Hi Hr Ha Hm) as (s' & E & Hi' & Hst).
  exists s'. split; [done|]. assert (Hna : fm_mode f a ≠ Atomic) by (intros E'; by rewrite E' in Hmay). split.
  { apply (inv_plain c pl (plain_of f)); [|done]. intros p j _ _ Hpl E'. apply Hpl. cbn [fm_mode].
    destruct (Z.eqb_spec (p + j) a) as [E1|_]; [by rewrite E1 in E'|done]. }
  intros b Hb. cbn [fm_byte fm_mode].
  pose proof (st_others _ _ _ _ _ _ _ _ Hst) as Ho. destruct (Z.eqb_spec b a) as [->|Hne].
  - pose proof (sim_may_access _ _ _ _ _ _ Hmay Hr (Hs a Ha)) as Hl. split_and!; [done|by eapply stored_latest|].
    intros x Hx Hxr. apply (others_unmodified s s' r); [done|done|].
    specialize (Hs a Ha). destruct (fm_mode f a) as [w|synced| |]; simpl in Hmay, Hs; [..|done|done].
    + apply Z.eqb_eq in Hmay. subst w. by apply Hs.
    + by apply (proj2 Hs).
  - destruct (addr_page b Hb) as [Hq Hk]. apply (sim_byte_step s s' r); [done|done| |by apply Hs].
    apply (st_calm _ _ _ _ _ _ _ _ Hst); [done|done|]. intros [E1 E2]. by apply Hne, addr_inj.
Qed.

(** A store of the value the byte already has, by any node. *)
Lemma stored_common (PB : plain_bytes) s s' r p j v :
  inv PB s' -> node r -> page p -> stored c pl s s' r p j v -> common s p j v -> common s' p j v.
Proof using Hc.
  intros Hi' Hr Hp [[O1 O2 O3 _] S2 S3 S4 S5 _] [Hg Hm].
  assert (Hsame : forall x, x ≠ r -> (holds_dirty s' x p <-> holds_dirty s x p) /\ cache_byte s' x p j = cache_byte s x p j /\
    copy_byte s' x p j = copy_byte s x p j).
  { intros x Hx. unfold SwdsmInv.holds_dirty, SwdsmInv.holds, SwdsmInv.cache_byte, SwdsmInv.copy_byte. by rewrite O1, O2, O3. }
  destruct (decide (home p = r)) as [Hh|Hh].
  - split; [left; auto|]. intros x Hx Hd Hne. destruct (decide (x = r)) as [->|Hxr].
    + destruct Hd as [Hd _]. by destruct (holds_remote c pl Hc (PB := PB) no_pend s' Hi' r p Hr Hp Hd).
    + destruct (Hsame x Hxr) as (E1 & E2 & E3). rewrite E2, E3 in *. apply Hm; [done|by apply E1|done].
  - destruct (S3 Hh) as [A1 A2].
    assert (Eh : home_byte s' p j = home_byte s p j).
    { destruct (decide (holds_dirty s r p)) as [Hd|Hd]; [by apply (S5 Hh Hd)|by apply (S4 Hh Hd)]. }
    split.
    + destruct Hg as [Hg|(x & Hx & D1 & D2 & D3)]; [left; congruence|]. right. exists x.
      destruct (decide (x = r)) as [->|Hxr]; [destruct (S5 Hh D1) as [E3 _]; split_and!; congruence|].
      destruct (Hsame x Hxr) as (E1 & E2 & E3). rewrite E1, E2, E3. done.
    + intros x Hx Hd Hne. destruct (decide (x = r)) as [->|Hxr]; [done|].
      destruct (Hsame x Hxr) as (E1 & E2 & E3). rewrite E2, E3 in *. apply Hm; [done|by apply E1|done].
Qed.

Lemma sim_store_common f s r a v miss :
  sim f s -> node r -> 0 <= a < size_of_all c -> miss ≠ access_read -> agrees f a v = true ->
  exists s', app_store c pl 2 s r a v miss = Ok s' /\
    sim {| fm_byte := fm_byte f; fm_mode := fun b => if b =? a then Common else fm_mode f b |} s'.
Proof using Hc.
  intros [Hi Hs] Hr Ha Hm [Ev%Z.eqb_eq Hna]%andb_true_iff. assert (Hna' : fm_mode f a ≠ Atomic) by (by destruct (fm_mode f a)).
  destruct (addr_page a Ha) as [Hp Hj].
  destruct (app_store_ok c pl Hc s r a v miss Hi Hr Ha Hm) as (s' & E & Hi' & Hst). exists s'. split; [done|]. split.
  { apply (inv_plain c pl (plain_of f)); [|done]. intros p j _ _ Hpl E'. apply Hpl. cbn [fm_mode].
    destruct (Z.eqb_spec (p + j) a) as [E1|_]; [by rewrite E1 in E'|done]. }
  intros b Hb. cbn [fm_byte fm_mode]. destruct (Z.eqb_spec b a) as [->|Hne].
  - subst v. apply (stored_common (plain_of f) s s' r); [done..|]. by apply (sim_common s (fm_mode f a)), Hs.
  - destruct (addr_page b Hb) as [Hq Hk]. apply (sim_byte_step s s' r); [done|by apply Hst| |by apply Hs].
    apply (st_calm _ _ _ _ _ _ _ _ Hst); [done|done|]. intros [E1 E2]. by apply Hne, addr_inj.
Qed.

(** A node without modified pages has published its stores. *)
Lemma sim_published s m v q j r :
  ~ holds_dirty s r q -> sim_byte s m v q j -> sim_byte s (published m r) v q j.
Proof.
  intros Hd. destruct m as [w|synced| |]; [|done..]. cbn [published].
  destruct (Z.eqb_spec w r) as [->|Hne]; [|done].
  intros (Hw & Hl & Hx). destruct Hl as [(H1 & H2 & H3)|(H1 & _)]; [|done]. split; [done|].
  intros x Hnx. destruct (Z.eqb_spec x r) as [->|Hxr]; [done|]. split; [auto|done].
Qed.

Lemma sim_acquired s m v q j r :
  ~ holds_dirty s r q -> (m ≠ Atomic -> in_sync s r q j) -> sim_byte s m v q j -> sim_byte s (acquired_by m r) v q j.
Proof.
  intros Hd Hsy Hs%(sim_published s m v q j r Hd). unfold acquired_by.
  destruct (published m r) as [w|synced| |] eqn:E; [done| |done|done]. destruct Hs as [Hh Hx]. split; [done|].
  intros x Hnx. destruct (Hx x Hnx) as [H1 H2]. split; [done|].
  intros [->%Z.eqb_eq|]%orb_true_iff; [|auto]. apply Hsy. intros ->. done.
Qed.

Lemma sim_release f s r :
  sim f s -> node r -> exists s', argo_release c pl s r = Ok s' /\ sim (flat_modes f (fun m => published m r)) s'.
Proof using Hc.
  intros Hs Hr. destruct (release_ok c pl Hc s r (proj1 Hs) Hr) as (s' & E & Hi' & Hq & _ & Hcl & _).
  exists s'. split; [done|]. destruct (sim_quiet f s s' r Hs Hr Hi' Hq) as [_ Hs'].
  apply sim_modes; [by intros m ->|done|]. intros a Ha. apply sim_published; [|by apply Hs'].
  by apply (all_clean_page c pl Hc).
Qed.

Lemma sim_acquire f s r :
  sim f s -> node r -> exists s', argo_acquire c pl s r = Ok s' /\
    sim (flat_modes f (fun m => acquired_by m r)) s'.
Proof using Hc.
  intros Hs Hr. destruct (self_invalidation_ok c pl Hc s r (proj1 Hs) Hr) as (s' & E & Haq).
  pose proof (acquired_settled c pl Hc s s' r Hr Haq) as Hset. pose proof (aq_inv _ _ _ _ _ _ Haq) as Hi'.
  exists s'. split; [done|].
  destruct (sim_quiet f s s' r Hs Hr Hi' (aq_quiet _ _ _ _ _ _ Haq)) as [_ Hs'].
  apply sim_modes; [by intros m ->|done|]. intros a Ha. destruct (addr_page a Ha) as [Hp Hj].
  apply sim_acquired; [by apply (settled_clean c pl Hc (PB := plain_of f))| |by apply Hs'].
  intros Hm. apply Hset; [done|done|]. by apply (plain_addr f a).
Qed.

Lemma published_acquired m r : published (acquired_by m r) r = acquired_by m r.
Proof.
  unfold acquired_by. destruct m as [w|synced| |]; [|done..]. cbn [published].
  destruct (Z.eqb_spec w r) as [->|Hne]; [done|]. cbn [published]. by rewrite (proj2 (Z.eqb_neq _ _) Hne).
Qed.

Lemma sim_acq_rel f s r :
  sim f s -> node r -> exists s', argo_acq_rel c pl s r = Ok s' /\ sim (flat_modes f (fun m => acquired_by m r)) s'.
Proof using Hc.
  intros Hs Hr. destruct (sim_acquire f s r Hs Hr) as (s1 & E & Hs1). unfold argo_acq_rel. rewrite E.
  cbn [mbind outcome_bind]. destruct (sim_release _ s1 r Hs1 Hr) as (s2 & E2 & Hi2 & Hs2).
  exists s2. split; [done|]. split.
  - apply (inv_plain c pl (plain_of (flat_modes (flat_modes f (fun m => acquired_by m r)) (fun m => published m r)))); [|done].
    intros p j _ _ Hp E'. apply Hp. revert E'. unfold flat_modes. cbn [fm_mode]. by rewrite published_acquired.
  - intros a Ha. specialize (Hs2 a Ha). unfold flat_modes in *. cbn [fm_byte fm_mode] in *. by rewrite published_acquired in Hs2.
Qed.

Lemma settled_flushed (PB : plain_bytes) s r : inv PB s -> node r -> settled PB s r -> wb s r = [].
Proof using Hc.
  intros Hi Hr [Hcl _]. destruct (wb s r) as [|i l] eqn:E; [done|]. exfalso.
  destruct (proj1 (wk_dirty _ _ _ _ (iv_wb _ _ _ _ Hi r Hr) i)) as (Hidx & Hd & _); [rewrite E; left|]. by rewrite Hcl in Hd.
Qed.

(** A barrier synchronises every byte and leaves no page in a write buffer. *)
Lemma sim_barrier_flushed f s u :
  sim f s -> u ≠ upgrade_all -> exists s', swdsm_argo_barrier c pl s u = Ok s' /\ sim (flat_modes f at_barrier) s' /\
    forall r, node r -> wb s' r = [].
Proof using Hc.
  intros [Hi Hs] Hu.
  set (P := fun s => forall a, 0 <= a < size_of_all c ->
    sim_byte s (fm_mode f a) (fm_byte f a) (align_backwards a PAGE_SIZE) (a mod PAGE_SIZE)).
  assert (HP : stable c pl (PB := plain_of f) P).
  { split.
    - intros s1 s2 r Hr Hi1 Hi2 Hq H. by destruct (sim_quiet f s1 s2 r (conj Hi1 H) Hr Hi2 Hq).
    - intros s1 s2 E1 E2 E3 E4 H a Ha. specialize (H a Ha).
      unfold sim_byte, common, latest, SwdsmOps.unmodified, SwdsmOps.in_sync, SwdsmInv.holds_dirty, SwdsmInv.holds,
        SwdsmInv.cache_byte, SwdsmInv.copy_byte, SwdsmInv.home_byte, Swdsm.cc in *. by rewrite E1, E2, E3, E4. }
  destruct (barrier_ok c pl Hc P HP s u Hu Hi Hs) as (s' & E & Hi' & Hs' & Hset).
  exists s'. split; [done|]. split; [|intros r Hr; by apply (settled_flushed (plain_of f)), Hset].
  apply sim_modes; [by intros m ->|done|]. intros a Ha. specialize (Hs' a Ha). destruct (addr_page a Ha) as [Hp Hj].
  assert (Hu' : forall x, node x -> unmodified s' x (align_backwards a PAGE_SIZE) (a mod PAGE_SIZE)).
  { intros x Hx. by apply clean_unmodified, (settled_clean c pl Hc (PB := plain_of f)), Hset. }
  assert (Hsy : fm_mode f a ≠ Atomic -> forall x, node x -> in_sync s' x (align_backwards a PAGE_SIZE) (a mod PAGE_SIZE)).
  { intros Hm x Hx. apply (Hset x Hx); [done|done|]. by apply plain_addr. }
  destruct (fm_mode f a) as [w|synced| |]; cbn [at_barrier].
  - destruct Hs' as (Hw & [(H1 & _)|(H1 & _)] & _).
    + split; [done|]. intros x Hx. split; [auto|]. intros _. by apply Hsy.
    + exfalso. by apply (settled_clean c pl Hc s' w _ (Hset w Hw)) in H1.
  - split; [apply Hs'|]. intros x Hx. split; [auto|]. intros _. by apply Hsy.
  - split; [apply Hs'|done].
  - destruct Hs' as [[H1|(x & Hx & H1 & _)] _]; [|by apply (settled_clean c pl Hc s' x _ (Hset x Hx)) in H1].
    split; [done|]. intros x Hx. split; [auto|]. intros _. by apply Hsy.
Qed.

Lemma sim_barrier f s u :
  sim f s -> u ≠ upgrade_all -> exists s', swdsm_argo_barrier c pl s u = Ok s' /\ sim (flat_modes f at_barrier) s'.
Proof using Hc. intros Hs Hu. destruct (sim_barrier_flushed f s u Hs Hu) as (s' & E & H & _). eauto. Qed.

(** ** Atomic operations *)
Lemma call_write_length n call old bs : 0 <= n -> call_wf n call -> call_write n call old = Some bs -> Z.of_nat (length bs) = n.
Proof.
  intros Hn Hwf. destruct call as [d|d| |e d|v]; cbn [call_write call_wf] in *.
  - by intros [= <-].
  - by intros [= <-].
  - done.
  - case_bool_decide; [|done]. intros [= <-]. apply Hwf.
  - intros [= <-]. unfold add_bytes. rewrite length_to_bytes. lia.
Qed.

Lemma may_atomic_byte s m v q j :
  may_atomic m = true -> sim_byte s m v q j -> home_byte s q j = v /\ forall x, node x -> unmodified s x q j.
Proof. destruct m as [w|synced| |]; [done| | |done]; intros _ [H1 H2]; split; try done. intros x Hx. by apply H2. Qed.

(** The word at an address as the abstract memory has it. *)
Lemma sim_word f s a n : sim f s -> mpi_object c (startAddr c + a) n ->
  forallb (fun b => may_atomic (fm_mode f b)) (seqZ a n) = true ->
  word (mpi_byte c pl) s (startAddr c + a) n = fm_byte f <$> seqZ a n.
Proof.
  intros [_ Hs] (_ & H1 & H2 & _) Hm. unfold word. rewrite <- fmap_add_seqZ, <- list_fmap_compose.
  apply list_fmap_ext. intros i b Hb%list_elem_of_lookup_2. simpl. rewrite forallb_forall in Hm.
  pose proof (Hm b ltac:(by apply list_elem_of_In)) as Hmb. apply elem_of_seqZ in Hb.
  unfold mpi_byte, page_at. rewrite Z.add_simpl_l. by apply (may_atomic_byte s (fm_mode f b)), Hs; [|lia].
Qed.

Lemma sim_byte_home s s' m v q j :
  cacheControl s' = cacheControl s -> cacheData s' = cacheData s -> pagecopy s' = pagecopy s ->
  home_byte s' q j = home_byte s q j -> sim_byte s m v q j -> sim_byte s' m v q j.
Proof.
  intros E1 E2 E3 E4. unfold sim_byte, common, latest, SwdsmOps.unmodified, SwdsmOps.in_sync, SwdsmInv.holds_dirty, SwdsmInv.holds,
    SwdsmInv.cache_byte, SwdsmInv.copy_byte, Swdsm.cc. by rewrite E1, E2, E3, E4.
Qed.

Lemma sim_call f s a n call : sim f s -> mpi_object c (startAddr c + a) n -> call_wf n call ->
  forallb (fun b => may_atomic (fm_mode f b)) (seqZ a n) = true ->
  sim (flat_call f a n call) (apply_call (mpi_byte c pl) (mpi_update c pl) n s (startAddr c + a) call).
Proof using Hc.
  intros Hsim Hok Hwf Hm. unfold apply_call, flat_call. rewrite (sim_word f) by done.
  destruct (call_write n call _) as [bs|] eqn:Ew; [|done]. pose proof Hok as (Hn & H1 & H2 & _).
  pose proof (call_write_length n call _ bs ltac:(lia) Hwf Ew) as Hl. rewrite <- Hl in Hok. destruct Hsim as [Hi Hs]. split.
  - apply (inv_update c pl Hc (plain_of f)); [done| |done]. intros q j Hq Hj. unfold plain_of. cbn [fm_mode].
    case_bool_decide; [done|]. intros Hp. split; [done|]. lia.
  - intros b Hb. cbn [fm_byte fm_mode]. destruct (addr_page b Hb) as [Hp Hj].
    pose proof (home_update c pl Hc s _ bs _ _ Hok Hp Hj) as Eh. rewrite align_split in Eh. case_bool_decide as Hr.
    + rewrite decide_True in Eh by lia. split; [rewrite Eh; f_equal; lia|].
      rewrite forallb_forall in Hm. pose proof (Hm b ltac:(apply list_elem_of_In, elem_of_seqZ; lia)) as Hmb.
      by apply (may_atomic_byte s (fm_mode f b) (fm_byte f b)), Hs.
    + rewrite decide_False in Eh by lia. by apply (sim_byte_home s); [..|apply Hs].
Qed.

Lemma sim_atomic f s r a n sgn call order f' vs :
  sim f s -> node r -> mpi_object c (startAddr c + a) n -> call_wf n call ->
  flat_op f (r, op_atomic a n sgn call order) = Some (f', vs) ->
  exists s', run_op c pl s (r, op_atomic a n sgn call order) = Ok (s', vs) /\ sim f' s'.
Proof using Hc.
  intros Hs Hr Hok Hwf E. unfold run_op, the_backend. cbn [flat_op] in E.
  rewrite (run_atomic_spec _ _ _ _ _ _ (AtomicMemory0 := mpi_atomics c pl Hc _)) by done. unfold before, after.
  cbn [mpi_backend ab_release ab_acquire]. fold (releases order) (acquires order).
  set (f1 := if releases order then _ else f) in E.
  assert (exists s1, (if releases order then argo_release c pl s r else Ok s) = Ok s1 /\ sim f1 s1) as (s1 & -> & Hs1).
  { unfold f1. destruct (releases order); [by apply sim_release|by exists s]. }
  destruct (forallb _ _) eqn:Hm; [|done]. injection E as <- <-. cbn [mbind outcome_bind]. rewrite (sim_word f1) by done.
  pose proof (sim_call f1 s1 a n call Hs1 Hok Hwf Hm) as Hs2. destruct (acquires order).
  - destruct (sim_acquire _ _ r Hs2 Hr) as (s3 & -> & Hs3). by exists s3.
  - by eexists.
Qed.

Lemma sim_init : sim flat_init dsm_reset.
Proof using Hc.
  split; [by apply inv_init|]. intros a Ha. split; [done|]. intros x Hx.
  split; [by intros [[_ ?] _]|by intros _ [_ ?]].
Qed.

(** Validity as propositions. *)
Lemma op_valid_spec r op : op_valid c (r, op) = true ->
  node r /\ match op with
            | op_load a miss => 0 <= a < size_of_all c /\ miss ≠ access_write
            | op_store a v miss => 0 <= a < size_of_all c /\ miss ≠ access_read
            | op_barrier u => u ≠ upgrade_all
            | op_atomic a n _ call _ => mpi_object c (startAddr c + a) n /\ call_wf n call
            | _ => True
            end.
Proof.
  unfold op_valid, SwdsmBase.node. intros [[H1 H2]%andb_true_iff H]%andb_true_iff.
  split; [lia|]. destruct op; try done.
  - apply andb_true_iff in H as [[H3 H4]%andb_true_iff H5%bool_decide_eq_true]. split; [lia|done].
  - apply andb_true_iff in H as [[H3 H4]%andb_true_iff H5%bool_decide_eq_true]. split; [lia|done].
  - by apply bool_decide_eq_true in H.
  - apply andb_true_iff in H as [[[[H3 H4]%andb_true_iff H5]%andb_true_iff H6]%andb_true_iff H7].
    apply orb_true_iff in H3. split.
    + unfold mpi_object. rewrite Z.add_simpl_l. split_and!; lia.
    + destruct call; cbn [lengths forallb call_wf] in *; rewrite ?andb_true_r, ?andb_true_iff, ?Z.eqb_eq in H7; done.
Qed.

Lemma sim_op f s o f' vs :
  sim f s -> op_valid c o = true -> flat_op f o = Some (f', vs) ->
  exists s', run_op c pl s o = Ok (s', vs) /\ sim f' s'.
Proof using Hc.
  intros Hs Hv. destruct o as [r op]. apply op_valid_spec in Hv as [Hr Hv]. unfold flat_op, run_op.
  destruct op as [a miss|a v miss| | | |u|a n sgn call order].
  - destruct (may_access (fm_mode f a) r) eqn:Hm; [|done]. intros [= <- <-].
    destruct (sim_load f s r a miss) as (s' & -> & H); try done; try apply Hv. eauto.
  - destruct (may_access (fm_mode f a) r) eqn:Hm; [|destruct (agrees f a v) eqn:Ha; [|done]]; intros [= <- <-].
    + destruct (sim_store f s r a v miss) as (s' & -> & H); try done; try apply Hv. eauto.
    + destruct (sim_store_common f s r a v miss) as (s' & -> & H); try done; try apply Hv. eauto.
  - intros [= <- <-]. destruct (sim_acquire f s r Hs Hr) as (s' & -> & H). eauto.
  - intros [= <- <-]. destruct (sim_release f s r Hs Hr) as (s' & -> & H). eauto.
  - intros [= <- <-]. destruct (sim_acq_rel f s r Hs Hr) as (s' & -> & H). eauto.
  - intros [= <- <-]. destruct (sim_barrier f s u Hs Hv) as (s' & -> & H). eauto.
  - destruct Hv as [Hok Hwf]. by apply sim_atomic.
Qed.

Lemma sim_ops ops : forall f s f' vs,
  sim f s -> forallb (op_valid c) ops = true -> flat_ops f ops = Some (f', vs) ->
  exists s', run_ops c pl s ops = Ok (s', vs) /\ sim f' s'.
Proof using Hc.
  induction ops as [|o ops IH]; intros f s f' vs Hs Hv E; simpl in E.
  { injection E as <- <-. by exists s. }
  simpl in Hv. apply andb_true_iff in Hv as [Hv1 Hv2].
  destruct (flat_op f o) as [[f1 vs1]|] eqn:E1; [|done]. simpl in E.
  destruct (flat_ops f1 ops) as [[f2 vs2]|] eqn:E2; [|done]. simpl in E. injection E as <- <-.
  destruct (sim_op f s o f1 vs1 Hs Hv1 E1) as (s1 & R1 & H1).
  destruct (IH f1 s1 f2 vs2 H1 Hv2 E2) as (s2 & R2 & H2).
  exists s2. split; [|done]. simpl. rewrite R1. simpl. by rewrite R2.
Qed.

End Sim.
