(* ===== verification/SwdsmTheorems.v ===== *)
(** * Theorems about the backend

    The statements a user of the DSM relies on, for every configuration
    [argo_initialize] produces for at most 64 nodes and 4 TiB and every lawful placement
    policy, and a way in which the backend falls short of them in a larger memory. *)

From S2P Require Import Prelude BlockMap DataDistribution FirstTouch GlobalPtr Mem Swdsm SwdsmBase SwdsmInv SwdsmDir SwdsmOps SwdsmLoad SwdsmHandler SwdsmSync SwdsmBarrier Atomics SwdsmSpec.

(** ** A small system: two nodes with two pages each and one cache slot

    The single slot makes every second page an eviction.  [argo_initialize] makes at
    least two; the theorems hold for one as well. *)
Definition demo_dsm : dsm_config := {|
  numtasks := 2; cachesize := 1; load_size := 1; mpi_windows := 1;
  size_of_all := 4 * PAGE_SIZE; startAddr := 65536; wb_max_size := 1; wb_write_back_size := 1 |}.
Definition demo_pl : placement := naive_distribution (dist_of demo_dsm).

Lemma demo_cfg_ok : cfg_ok demo_dsm demo_pl.
Proof.
  assert (Hsp : space_ok (dist_of demo_dsm)) by (split; vm_compute; intuition congruence).
  split; [exact Hsp|by vm_compute..| | | |].
  - by exists 4.
  - by exists 2.
  - done.
  - apply naive_laws; [exact Hsp|]. by exists 2.
Qed.


(** ** Refinement *)



(** ** Safety of arbitrary programs *)

(** The operation writes no plain byte atomically. *)
Definition respects `{PB : plain_bytes} (o : Z * dsm_op) : Prop :=
  match snd o with
  | op_atomic a n _ _ _ => forall b, a <= b < a + n -> ~ plain (align_backwards b PAGE_SIZE) (b mod PAGE_SIZE)
  | _ => True
  end.

Lemma atomic_ok c pl `{PB : plain_bytes} s r a n sgn call order :
  cfg_ok c pl -> inv c pl s -> node c r -> mpi_object c (startAddr c + a) n -> call_wf n call ->
  respects (r, op_atomic a n sgn call order) ->
  exists s' vs, run_op c pl s (r, op_atomic a n sgn call order) = Ok (s', vs) /\ inv c pl s'.
Proof.
  intros Hc Hi Hr Hok Hwf Hpl. unfold run_op, the_backend.
  rewrite (run_atomic_spec _ _ _ _ _ _ (AtomicMemory0 := mpi_atomics c pl Hc _)) by done. unfold before, after.
  cbn [mpi_backend ab_release ab_acquire]. fold (releases order) (acquires order).
  assert (exists s1, (if releases order then argo_release c pl s r else Ok s) = Ok s1 /\ inv c pl s1) as (s1 & -> & Hi1).
  { destruct (releases order); [|by exists s]. destruct (release_ok c pl Hc s r Hi Hr) as (s1 & E & H & _). by exists s1. }
  cbn [mbind outcome_bind]. set (s2 := apply_call _ _ _ _ _ _). assert (Hi2 : inv c pl s2).
  { unfold s2, apply_call. destruct (call_write _ _ _) as [bs|] eqn:Ew; [|done]. pose proof Hok as (Hn & H1 & H2 & _).
    pose proof (call_write_length n call _ bs ltac:(lia) Hwf Ew) as Hl. rewrite <- Hl in Hok.
    apply (inv_update c pl Hc PB); [done| |done]. intros q j Hq Hj Hp. split; [done|]. intros Hb.
    apply (Hpl (q + j)); [cbn; lia|]. destruct (page_byte c pl Hc q j Hq Hj) as (E1 & E2 & _).
    unfold page_at in E1. rewrite Z.add_simpl_l in E1, E2. by rewrite E1, E2. }
  destruct (acquires order).
  - destruct (self_invalidation_ok c pl Hc s2 r Hi2 Hr) as (s3 & E & [Hi3]). unfold argo_acquire. rewrite E. eauto.
  - eauto.
Qed.

Lemma run_op_ok c pl `{PB : plain_bytes} s o :
  cfg_ok c pl -> inv c pl s -> op_valid c o = true -> respects o ->
  exists s' vs, run_op c pl s o = Ok (s', vs) /\ inv c pl s'.
Proof.
  intros Hc Hi Hv Hpl. destruct o as [r op]. apply op_valid_spec in Hv as [Hr Hv].
  destruct op as [a miss|a v miss| | | |u|a n sgn call order]; [..|destruct Hv; by apply atomic_ok]; unfold run_op.
  - destruct Hv as [Ha Hm]. destruct (app_load_ok c pl Hc s r a miss) as (s' & v & -> & H & _); eauto.
  - destruct Hv as [Ha Hm]. destruct (app_store_ok c pl Hc s r a v miss) as (s' & -> & H & _); eauto.
  - destruct (self_invalidation_ok c pl Hc s r Hi Hr) as (s' & E & [Hi1]). unfold argo_acquire. rewrite E. eauto.
  - destruct (release_ok c pl Hc s r Hi Hr) as (s' & E & H & _). unfold argo_release. rewrite E. eauto.
  - destruct (self_invalidation_ok c pl Hc s r Hi Hr) as (s1 & E & [Hi1]).
    destruct (release_ok c pl Hc s1 r Hi1 Hr) as (s' & E2 & H & _).
    unfold argo_acq_rel, argo_acquire, argo_release. rewrite E. cbn [mbind outcome_bind]. rewrite E2. eauto.
  - destruct (barrier_ok c pl Hc (fun _ => True)) with (s := s) (u := u) as (s' & -> & H & _); eauto.
    by split.
Qed.

Lemma run_ops_ok c pl `{PB : plain_bytes} ops : forall s, cfg_ok c pl -> inv c pl s ->
  forallb (op_valid c) ops = true -> Forall respects ops -> exists s' vs, run_ops c pl s ops = Ok (s', vs) /\ inv c pl s'.
Proof.
  induction ops as [|o ops IH]; intros s Hc Hi Hv Hpl; simpl in *; [by eauto|].
  apply andb_true_iff in Hv as [Hv1 Hv2]. apply Forall_cons in Hpl as [Hp1 Hp2].
  destruct (run_op_ok c pl s o Hc Hi Hv1 Hp1) as (s1 & vs1 & -> & Hi1).
  destruct (IH s1 Hc Hi1 Hv2 Hp2) as (s2 & vs2 & E2 & Hi2). simpl. rewrite E2. eauto.
Qed.

(** C2: no sequence of valid operations breaks the backend, racy or not.  The valid operations
    are those of the refinement of the flat memory: no barrier with [upgrade_all], no
    selective operation and no reset, all of which can fail or break the invariant.
    From the initial state every such sequence returns, so none of the
    backend's assertions fails, the "bad owner" exception is never thrown and no fault is
    retried forever.  At the end the coherence invariant holds, in which the equality of
    cached and home data is stated for the plain bytes [PB] only: any set of bytes that no
    atomic operation of the sequence touches ([respects]). *)
Theorem dsm_runs_total (c : dsm_config) (pl : placement) (PB : plain_bytes) (ops : list (Z * dsm_op)) :
  cfg_ok c pl -> forallb (op_valid c) ops = true -> Forall respects ops ->
  exists s vs, run_ops c pl dsm_reset ops = Ok (s, vs) /\ inv c pl s.
Proof.
  intros Hc Hv Hp. apply run_ops_ok; [done|by apply inv_init|done|done].
Qed.

(** Every byte but the first eight is plain. *)
Definition demo_plain : plain_bytes := fun p j => 8 <= p + j.

(** Two nodes racing on a byte, and on an atomic counter. *)
Lemma dsm_runs_total_witness :
  exists s vs, run_ops demo_dsm demo_pl dsm_reset
    [(0, op_store 8200 1 access_write); (1, op_store 8200 2 access_write);
     (0, op_load 8200 access_undefined); (1, op_atomic 0 4 true (at_fetch_add [1; 0; 0; 0]) acq_rel);
     (0, op_barrier upgrade_writers)] = Ok (s, vs) /\ inv demo_dsm demo_pl (PB := demo_plain) s.
Proof.
  apply (dsm_runs_total demo_dsm demo_pl demo_plain _ demo_cfg_ok); [reflexivity|].
  repeat constructor. intros b Hb. unfold plain, demo_plain. rewrite align_split. lia.
Defined.

(** ** Synchronisation in reachable states *)
Definition reachable (c : dsm_config) (pl : placement) `{PB : plain_bytes} (s : dsm) : Prop :=
  exists ops vs, forallb (op_valid c) ops = true /\ Forall respects ops /\ run_ops c pl dsm_reset ops = Ok (s, vs).

Lemma reachable_inv c pl `{PB : plain_bytes} s : cfg_ok c pl -> reachable c pl s -> inv c pl s.
Proof.
  intros Hc (ops & vs & Hv & Hp & E). destruct (run_ops_ok c pl ops dsm_reset) as (s' & vs' & E' & Hi);
    [done|by apply inv_init|done|done|]. rewrite E in E'. by injection E' as -> _.
Qed.

(** C3: the state of the backend stays well-typed, whatever valid operations the nodes
    issue, racy or not: tags and directory entries are 64-bit words, an entry names
    nodes of the system only, an invalid slot is clean, the write buffer holds each
    slot of the cache at most once, and a page a node can access is mapped to its
    own place, in the node's share if the node is its home and otherwise in the slot
    whose tag it has. *)
Theorem dsm_state_typed (c : dsm_config) (pl : placement) (PB : plain_bytes) (ops : list (Z * dsm_op)) (s : dsm) (vs : list Z) :
  cfg_ok c pl -> forallb (op_valid c) ops = true -> Forall respects ops -> run_ops c pl dsm_reset ops = Ok (s, vs) ->
  forall r, node c r ->
    (forall i, 0 <= i < cachesize c -> is_u64 (cd_tag (cc c s r i)) /\ (cd_state (cc c s r i) = INVALID -> cd_dirty (cc c s r i) = CLEAN)) /\
    (forall p, page c p -> is_u64 (shr c s r p) /\ is_u64 (wr c s r p) /\
       forall x, has_bit (shr c s r p) x || has_bit (wr c s r p) x = true -> node c x) /\
    (NoDup (wb s r) /\ forall i, i ∈ wb s r -> 0 <= i < cachesize c) /\
    (forall p, page c p -> snd (vmap s r p) <> PROT_NONE ->
       match fst (vmap s r p) with
       | BHome o => home c pl p = r /\ o = off c pl p
       | BCache i => home c pl p <> r /\ i = cidx c p /\ cd_tag (cc c s r i) = p
       | BReserved => False
       end).
Proof.
  intros Hc Hv Hp E r Hr. assert (Hi : inv c pl s) by (apply (reachable_inv c pl); [done|by exists ops, vs]).
  destruct Hi as [Is Il Ir Iw Id _]. destruct (size_bounds c pl Hc) as (S1 & S2 & _). pose proof (ck_size c pl Hc) as S3. pose proof (ck_nodes c pl Hc) as S4.
  split_and!.
  - intros i Hi. destruct (Is r i Hr Hi) as [[-> _]|Hs]; cbn [cd_tag cd_state cd_dirty].
    + split; [|done]. unfold is_u64, GLOBAL_NULL. lia.
    + split; [|apply Hs]. destruct (page_bounds c pl Hc _ (sl_page _ _ _ _ _ Hs)) as (P1 & P2 & _). unfold is_u64, PAGE_SIZE in *. lia.
  - intros p Hpg. destruct (dk_mask _ _ _ _ (dk_sh _ _ _ _ (Id p Hpg)) r Hr) as [M1 M2].
    split_and!; [by apply (mask_bound (numtasks c))..|]. intros x [Hx|Hx]%orb_true_iff; [by apply M1|by apply M2].
  - apply (Iw r Hr).
  - intros i Hi. by apply (wk_dirty _ _ _ _ (Iw r Hr)) in Hi as [Hi _].
  - intros p Hpg Hacc. destruct (decide (home c pl p = r)) as [Eh|Eh].
    + pose proof (Il r p Hr Hpg Eh) as Hl. unfold local_vm_ok in Hl. destruct (has_bit _ _); [|done]. by destruct Hl as [-> _].
    + pose proof (Ir r p Hr Hpg Eh Hacc) as Ht. pose proof (cidx_range c pl Hc p) as Hci. destruct (Is r (cidx c p) Hr Hci) as [[Hn _]|Hs].
      * rewrite Hn in Ht. cbn [cd_tag] in Ht. destruct (page_bounds c pl Hc p Hpg) as (P1 & P2 & _). exfalso. revert Ht. unfold GLOBAL_NULL, PAGE_SIZE in *. lia.
      * pose proof (sl_map _ _ _ _ _ Hs) as Em. rewrite Ht in Em. by rewrite Em.
Qed.

(** After two racing stores node 0 can access the page of byte
    8200, which it has in its slot. *)
Lemma dsm_state_typed_witness : exists s vs, run_ops demo_dsm demo_pl dsm_reset
    [(0, op_store 8200 1 access_write); (1, op_store 8200 2 access_write)] = Ok (s, vs) /\
  fst (vmap s 0 8192) = BCache (cidx demo_dsm 8192) /\ cd_tag (cc demo_dsm s 0 (cidx demo_dsm 8192)) = 8192.
Proof.
  set (ops := [(0, op_store 8200 1 access_write); (1, op_store 8200 2 access_write)]).
  assert (Hv : forallb (op_valid demo_dsm) ops = true) by reflexivity.
  assert (Hp : Forall (respects (PB := demo_plain)) ops) by repeat constructor.
  destruct (run_ops_ok demo_dsm demo_pl (PB := demo_plain) ops dsm_reset demo_cfg_ok (inv_init demo_dsm demo_pl demo_cfg_ok) Hv Hp) as (s & vs & E & _).
  exists s, vs. split; [exact E|].
  assert (Hm : vmap s 0 8192 = (BCache (cidx demo_dsm 8192), PROT_RW)).
  { assert (Hs : vmap (match run_ops demo_dsm demo_pl dsm_reset ops with Ok (s, _) => s | _ => dsm_reset end) 0 8192 = (BCache (cidx demo_dsm 8192), PROT_RW))
      by (vm_compute; reflexivity).
    rewrite E in Hs. exact Hs. }
  destruct (dsm_state_typed demo_dsm demo_pl demo_plain ops s vs demo_cfg_ok Hv Hp E 0) as (_ & _ & _ & H); [split; vm_compute; congruence|].
  specialize (H 8192). rewrite Hm in *. cbn [fst snd] in H.
  destruct H as (_ & _ & H); [split; [split; vm_compute; congruence|reflexivity]|done|]. split; [reflexivity|exact H].
Defined.

(** The state a run ends in. *)
Definition end_state (o : outcome (dsm * list Z)) : dsm :=
  match o with Ok (s, _) => s | _ => dsm_reset end.

Lemma reachable_end c pl `{PB : plain_bytes} ops : cfg_ok c pl -> forallb (op_valid c) ops = true -> Forall respects ops ->
  reachable c pl (end_state (run_ops c pl dsm_reset ops)).
Proof.
  intros Hc Hv Hp. destruct (run_ops_ok c pl ops dsm_reset) as (s & vs & E & _); [done|by apply inv_init|done|done|].
  rewrite E. by exists ops, vs.
Qed.

Definition demo_state : dsm :=
  end_state (run_ops demo_dsm demo_pl dsm_reset [(0, op_store 8200 7 access_write); (1, op_store 8201 8 access_write)]).

Lemma demo_reachable PB : reachable demo_dsm demo_pl (PB := PB) demo_state.
Proof. apply reachable_end; [exact demo_cfg_ok|reflexivity|by repeat constructor]. Qed.




(** C12: what a release publishes.  [argo_release] returns with an empty write
    buffer; every byte the node had modified (cached value different from the twin)
    has reached its home, every other byte of memory is unchanged, and the caches
    and page tables of the other nodes are untouched. *)
Theorem release_publishes (c : dsm_config) (pl : placement) (PB : plain_bytes) (s : dsm) (r : Z) :
  cfg_ok c pl -> reachable c pl s -> node c r ->
  exists s', argo_release c pl s r = Ok s' /\ wb s' r = [] /\ others c s s' r /\
    forall p j, page c p -> 0 <= j < PAGE_SIZE -> home_byte c pl s' p j =
      if decide (holds_dirty c s r p /\ cache_byte c s r p j ≠ copy_byte c s r p j)
      then cache_byte c s r p j else home_byte c pl s p j.
Proof.
  intros Hc Hre%reachable_inv Hr; [|done].
  destruct (release_ok c pl Hc s r Hre Hr) as (s' & E & Hi' & Hq & Hw & _ & Hh).
  exists s'. split_and!; try done; [by apply (quiet_others c pl)|].
  intros p j Hp Hj. rewrite Hh by done. unfold merged_byte. repeat case_decide; try done; exfalso; tauto.
Qed.

Lemma release_publishes_witness :
  exists s', argo_release demo_dsm demo_pl demo_state 0 = Ok s' /\ wb s' 0 = [] /\ others demo_dsm demo_state s' 0 /\
    forall p j, page demo_dsm p -> 0 <= j < PAGE_SIZE -> home_byte demo_dsm demo_pl s' p j =
      if decide (holds_dirty demo_dsm demo_state 0 p /\
                 cache_byte demo_dsm demo_state 0 p j ≠ copy_byte demo_dsm demo_state 0 p j)
      then cache_byte demo_dsm demo_state 0 p j else home_byte demo_dsm demo_pl demo_state p j.
Proof.
  apply (release_publishes demo_dsm demo_pl demo_plain demo_state 0 demo_cfg_ok (demo_reachable _)). split; reflexivity.
Defined.

(** ** Write-backs of one page by two nodes *)

(** Three nodes with a page each. *)
Definition demo3_dsm : dsm_config := {|
  numtasks := 3; cachesize := 2; load_size := 2; mpi_windows := 2;
  size_of_all := 3 * PAGE_SIZE; startAddr := 65536; wb_max_size := 2; wb_write_back_size := 1 |}.
Definition demo3_pl : placement := naive_distribution (dist_of demo3_dsm).

Lemma demo3_cfg_ok : cfg_ok demo3_dsm demo3_pl.
Proof.
  assert (Hsp : space_ok (dist_of demo3_dsm)) by (split; vm_compute; intuition congruence).
  split; [exact Hsp|by vm_compute..| | | |].
  - by exists 3.
  - by exists 1.
  - done.
  - apply naive_laws; [exact Hsp|]. by exists 1.
Qed.

(** Nodes 0 and 1 store to different bytes of node 2's page. *)
Definition demo3_state : dsm :=
  end_state (run_ops demo3_dsm demo3_pl dsm_reset [(0, op_store 8200 7 access_write); (1, op_store 8201 8 access_write)]).

(** A page is mapped from its slot and can be read. *)
Definition slot_mapped (c : dsm_config) (s : dsm) (r p : Z) : bool :=
  match vmap s r p with
  | (BCache idx, pr) => (idx =? getCacheIndex c p) && bool_decide (pr ≠ PROT_NONE)
  | _ => false
  end.

(** C13: false sharing is harmless.  When two nodes have modified disjoint bytes
    of a page, [storepageDIFF] merges both sets of bytes into the home page and
    the order of the two write-backs does not matter. *)
Theorem write_backs_merge (c : dsm_config) (pl : placement) (s : dsm) (r1 r2 p : Z) :
  cfg_ok c pl -> page c p -> slot_mapped c s r1 p = true -> slot_mapped c s r2 p = true ->
  (forall j, 0 <= j < PAGE_SIZE ->
     cache_byte c s r1 p j = copy_byte c s r1 p j \/ cache_byte c s r2 p j = copy_byte c s r2 p j) ->
  exists s12 s21,
    (s ← storepageDIFF c pl s r1 (getCacheIndex c p) p; storepageDIFF c pl s r2 (getCacheIndex c p) p) = Ok s12 /\
    (s ← storepageDIFF c pl s r2 (getCacheIndex c p) p; storepageDIFF c pl s r1 (getCacheIndex c p) p) = Ok s21 /\
    forall j, 0 <= j < PAGE_SIZE ->
      home_byte c pl s12 p j = home_byte c pl s21 p j /\
      home_byte c pl s12 p j =
        if decide (cache_byte c s r1 p j ≠ copy_byte c s r1 p j) then cache_byte c s r1 p j
        else if decide (cache_byte c s r2 p j ≠ copy_byte c s r2 p j) then cache_byte c s r2 p j
        else home_byte c pl s p j.
Proof.
  intros Hc Hp H1 H2 Hdis.
  assert (Hone : forall s r, slot_mapped c s r p = true -> exists m,
            storepageDIFF c pl s r (getCacheIndex c p) p = Ok (count (set_globalData s m) r c_write_misses) /\
            forall j, 0 <= j < PAGE_SIZE -> mget m (home c pl p) (off c pl p + j) =
              if decide (cache_byte c s r p j = copy_byte c s r p j) then home_byte c pl s p j else cache_byte c s r p j).
  { intros s0 r Hm. unfold slot_mapped in Hm. destruct (vmap s0 r p) as [[|idx|o] pr] eqn:Ev; try done.
    apply andb_true_iff in Hm as [->%Z.eqb_eq Hpr%bool_decide_eq_true].
    destruct (storepageDIFF_spec c pl Hc s0 r p Hp) as (m & E & Hm); [by rewrite Ev|by rewrite Ev|].
    exists m. split; [exact E|]. intros j Hj. rewrite Hm. replace (off c pl p + j - off c pl p) with j by ring.
    repeat case_decide; try done; exfalso; intuition lia. }
  destruct (Hone s r1 H1) as (m1 & E1 & B1). destruct (Hone s r2 H2) as (m2 & E2 & B2).
  destruct (Hone (count (set_globalData s m1) r1 c_write_misses) r2 H2) as (m12 & E12 & B12).
  destruct (Hone (count (set_globalData s m2) r2 c_write_misses) r1 H1) as (m21 & E21 & B21).
  rewrite E1, E2. cbn [mbind outcome_bind]. rewrite E12, E21. eexists _, _. split; [reflexivity|]. split; [reflexivity|].
  intros j Hj. specialize (B12 j Hj). specialize (B21 j Hj). specialize (B1 j Hj). specialize (B2 j Hj). specialize (Hdis j Hj).
  change (home_byte c pl (count (set_globalData s m1) r1 c_write_misses) p j) with (mget m1 (home c pl p) (off c pl p + j)) in B12.
  change (home_byte c pl (count (set_globalData s m2) r2 c_write_misses) p j) with (mget m2 (home c pl p) (off c pl p + j)) in B21.
  unfold SwdsmInv.home_byte at 1 2 3. cbn [globalData count set_globalData]. rewrite B12, B21, B1, B2.
  unfold SwdsmInv.cache_byte, SwdsmInv.copy_byte in *. cbn [cacheData pagecopy count set_globalData] in *.
  repeat case_decide; try done; exfalso; tauto.
Qed.

(** The check of the disjointness over the bytes of a page. *)
Definition disjoint_diffs (c : dsm_config) (s : dsm) (r1 r2 p : Z) : bool :=
  forallb (fun j => (cache_byte c s r1 p j =? copy_byte c s r1 p j) || (cache_byte c s r2 p j =? copy_byte c s r2 p j))
    (seqZ 0 PAGE_SIZE).

Lemma disjoint_diffs_spec c s r1 r2 p : disjoint_diffs c s r1 r2 p = true -> forall j, 0 <= j < PAGE_SIZE ->
  cache_byte c s r1 p j = copy_byte c s r1 p j \/ cache_byte c s r2 p j = copy_byte c s r2 p j.
Proof.
  intros H j Hj. unfold disjoint_diffs in H. rewrite forallb_forall in H.
  specialize (H j). rewrite orb_true_iff, !Z.eqb_eq in H. apply H. apply list_elem_of_In, elem_of_seqZ. lia.
Qed.

Lemma demo3_disjoint : slot_mapped demo3_dsm demo3_state 0 8192 && slot_mapped demo3_dsm demo3_state 1 8192
  && disjoint_diffs demo3_dsm demo3_state 0 1 8192 = true.
Proof. vm_compute. reflexivity. Qed.

Lemma write_backs_merge_witness :
  exists s12 s21,
    (s ← storepageDIFF demo3_dsm demo3_pl demo3_state 0 0 8192; storepageDIFF demo3_dsm demo3_pl s 1 0 8192) = Ok s12 /\
    (s ← storepageDIFF demo3_dsm demo3_pl demo3_state 1 0 8192; storepageDIFF demo3_dsm demo3_pl s 0 0 8192) = Ok s21 /\
    forall j, 0 <= j < PAGE_SIZE ->
      home_byte demo3_dsm demo3_pl s12 8192 j = home_byte demo3_dsm demo3_pl s21 8192 j /\
      home_byte demo3_dsm demo3_pl s12 8192 j =
        if decide (cache_byte demo3_dsm demo3_state 0 8192 j ≠ copy_byte demo3_dsm demo3_state 0 8192 j)
        then cache_byte demo3_dsm demo3_state 0 8192 j
        else if decide (cache_byte demo3_dsm demo3_state 1 8192 j ≠ copy_byte demo3_dsm demo3_state 1 8192 j)
        then cache_byte demo3_dsm demo3_state 1 8192 j
        else home_byte demo3_dsm demo3_pl demo3_state 8192 j.
Proof.
  destruct (andb_prop _ _ demo3_disjoint) as [H12 H3]. destruct (andb_prop _ _ H12) as [H1 H2].
  apply (write_backs_merge demo3_dsm demo3_pl demo3_state 0 1 8192 demo3_cfg_ok); [|exact H1|exact H2|].
  - split; [split|]; vm_compute; congruence.
  - exact (disjoint_diffs_spec demo3_dsm demo3_state 0 1 8192 H3).
Defined.

(** ** Indices *)

(** A chunk index folded onto the windows. *)
Lemma win_index_range c pl x : cfg_ok c pl -> 0 <= add64 x 1 mod mpi_windows c < mpi_windows c.
Proof. intros Hc. apply Z.mod_pos_bound. pose proof (ck_windows c pl Hc). lia. Qed.

(** C26: in a memory of at most 4 TiB every index the backend computes for a page is in
    bounds: the cache slot, the two directory entries (which no other page shares), the
    sharer and data windows, and the page's bytes within the home node's share; the
    narrowing of the directory index to [int] loses nothing.  The bound, which is part
    of [cfg_ok] and which the code does not check, is that of the narrowing:
    [directory_index_truncated] shows a page of a larger memory whose index is lost. *)
Theorem indices_in_bounds (c : dsm_config) (pl : placement) (p : Z) :
  cfg_ok c pl -> page c p ->
  let cl := get_classification_index c p in
  0 <= getCacheIndex c p < cachesize c /\
  0 <= cl /\ cl + 1 < classificationSize c /\
  (forall q, page c q -> get_classification_index c q = cl -> q = p) /\
  get_sharer_win_offset cl = cl /\
  0 <= get_sharer_win_index c cl < mpi_windows c /\
  exists h o, get_homenode c pl p = Ok h /\ get_offset c pl p = Ok o /\ node c h /\
    0 <= get_data_win_index c o < mpi_windows c /\
    0 <= get_data_win_offset o /\ get_data_win_offset o + PAGE_SIZE <= size_per_node (dist_of c).
Proof.
  intros Hc Hp cl. destruct (cls_eq c pl Hc p Hp) as (_ & H1 & H2).
  split; [by eauto with argo|]. split; [done|]. split; [done|].
  split; [intros q Hq E; by apply (cls_inj c pl Hc)|]. split; [by apply (win_offset c pl)|].
  split; [by apply (win_index_range c pl)|].
  destruct (lookups_ok c pl Hc p Hp) as (Eh & _ & Eo & _ & Eh' & Eo' & Hn & Ho).
  exists (home c pl p), (off c pl p). split_and!; try done; try (by apply (win_index_range c pl)); [unfold get_data_win_offset; lia|].
  destruct (page_bounds c pl Hc p Hp) as (P1 & P2 & _).
  pose proof (ck_policy c pl Hc) as Hpol.
  assert (Hin : forall k, 0 <= k < PAGE_SIZE -> in_space (dist_of c) (startAddr c + p + k)).
  { intros k Hk. unfold in_space. simpl. lia. }
  assert (Hlast : local_offset pl (startAddr c + p + (PAGE_SIZE - 1)) = Ok (off c pl p + (PAGE_SIZE - 1))).
  { apply (pl_page (PlacementLaws := Hpol) _ _ (home c pl p)); [| |done|done|done].
    - rewrite <- (Z.add_0_r (startAddr c + p)). by apply Hin.
    - simpl. replace (startAddr c + p - startAddr c) with p by ring. apply Hp. }
  destruct (pl_offset_ok (PlacementLaws := Hpol) _ (Hin (PAGE_SIZE - 1) ltac:(done))) as (o & E & Hb).
  rewrite Hlast in E. injection E as <-. unfold get_data_win_offset. lia.
Qed.

Lemma indices_in_bounds_witness :
  let cl := get_classification_index demo_dsm 8192 in
  0 <= getCacheIndex demo_dsm 8192 < cachesize demo_dsm /\
  0 <= cl /\ cl + 1 < classificationSize demo_dsm /\
  (forall q, page demo_dsm q -> get_classification_index demo_dsm q = cl -> q = 8192) /\
  get_sharer_win_offset cl = cl /\
  0 <= get_sharer_win_index demo_dsm cl < mpi_windows demo_dsm /\
  exists h o, get_homenode demo_dsm demo_pl 8192 = Ok h /\ get_offset demo_dsm demo_pl 8192 = Ok o /\ node demo_dsm h /\
    0 <= get_data_win_index demo_dsm o < mpi_windows demo_dsm /\
    0 <= get_data_win_offset o /\ get_data_win_offset o + PAGE_SIZE <= size_per_node (dist_of demo_dsm).
Proof.
  apply (indices_in_bounds demo_dsm demo_pl 8192 demo_cfg_ok). split; [split|]; vm_compute; congruence.
Defined.

(** Above 4 TiB the narrowing does lose: for every page from there up to
    8 TiB the window displacement of the directory entry is a negative [int]
    converted to [size_t], far outside of the window. *)
Theorem directory_index_truncated (c : dsm_config) (p : Z) :
  2 ^ 42 <= p < 2 ^ 43 -> p < size_of_all c < 2 ^ 62 -> (PAGE_SIZE | size_of_all c) ->
  get_sharer_win_offset (get_classification_index c p) = get_classification_index c p + 2 ^ 64 - 2 ^ 32 /\
  classificationSize c < get_sharer_win_offset (get_classification_index c p).
Proof.
  intros Hp Hs [k Hk].
  assert (Hb : 2 ^ 30 <= p / PAGE_SIZE < 2 ^ 31).
  { unfold PAGE_SIZE. split; [apply Z.div_le_lower_bound; lia|apply Z.div_lt_upper_bound; lia]. }
  assert (Ek : size_of_all c / PAGE_SIZE = k) by (rewrite Hk; by apply Z.div_mul).
  assert (Hlt : p / PAGE_SIZE < k) by (apply Z.div_lt_upper_bound; [done|unfold PAGE_SIZE in *; lia]).
  assert (Ecl : get_classification_index c p = 2 * (p / PAGE_SIZE)).
  { unfold get_classification_index, classificationSize, CACHELINE. rewrite Z.mul_1_r, Ek.
    rewrite mul64_small by lia. apply Z.mod_small. lia. }
  assert (Hk2 : k < 2 ^ 50) by (unfold PAGE_SIZE in *; lia).
  unfold classificationSize. rewrite Ecl, Ek. unfold get_sharer_win_offset, to_int.
  rewrite (Z.mod_small (2 * (p / PAGE_SIZE))) by lia.
  destruct (Z.ltb_spec (2 * (p / PAGE_SIZE)) (2 ^ 31)) as [|_]; [lia|].
  assert (E : u64 (2 * (p / PAGE_SIZE) - 2 ^ 32) = 2 * (p / PAGE_SIZE) + 2 ^ 64 - 2 ^ 32).
  { unfold u64. symmetry. apply (Z.mod_unique _ _ (-1)); lia. }
  rewrite E. lia.
Qed.

(** An 8 TiB system. *)
Definition large_dsm : dsm_config := {|
  numtasks := 2; cachesize := 1; load_size := 1; mpi_windows := 1; size_of_all := 2 ^ 43;
  startAddr := 65536; wb_max_size := 1; wb_write_back_size := 1 |}.

Lemma directory_index_truncated_witness :
  get_sharer_win_offset (get_classification_index large_dsm (2 ^ 42)) = 2 ^ 64 - 2 ^ 31 /\
  classificationSize large_dsm < get_sharer_win_offset (get_classification_index large_dsm (2 ^ 42)).
Proof.
  apply (directory_index_truncated large_dsm (2 ^ 42)); [split; vm_compute; congruence|split; vm_compute; congruence|].
  by exists (2 ^ 31).
Defined.

(** ** A barrier that resets the sharers *)
