(* ===== verification/HandlerThreads.v ===== *)
(** * The threads of a node in the fault handler

    The other files run the fault handler as one step.  Here threads of the same node
    interleave in it.  [handler] ([src/src/backend/mpi/swdsm.cpp]) has the cache lock of
    the faulting page until just before its last call, [argo_write_buffer->add]; that
    call, like the [erase] of an eviction, delegates a request to the queue of the write
    buffer ([src/src/backend/mpi/write_buffer.hpp]), which one thread at a time works
    off in order, taking the cache lock of each page it writes back.  A step is what runs
    under one cache lock, or one pop from the buffer.

    The operations that take [sync_lock] exclusively (acquire, release, barrier) run
    when no handler is active and the queue is empty. *)

From stdpp Require Import functions relations.
From S2P Require Import Prelude BlockMap DataDistribution FirstTouch GlobalPtr Mem Swdsm SwdsmBase SwdsmInv SwdsmDir SwdsmOps SwdsmLoad SwdsmHandler SwdsmSync SwdsmBarrier Atomics SwdsmSpec SwdsmTheorems.

Inductive request := Add (val : Z) | Erase (val : Z).

(** [_add] in progress: the slot to add, how many slots it still has to write back,
    and the one it has popped. *)
Record adding := Adding { ad_val : Z; ad_flush : bool; ad_left : Z; ad_popped : option Z }.

(** [unbuffered] has a slot for each thread that has released the cache lock and not
    yet delegated its [add]. *)
Record threads := Threads {
  mem : dsm;
  unbuffered : Z -> list Z;
  queue : Z -> list request;
  running : Z -> option adding;
}.

Section Threads.

Context (c : dsm_config) (pl : placement).

(** ** The handler under the cache lock *)

(** The state at the release of the lock and the slot that is added afterwards. *)
Definition remote_locked (s : dsm) (r addr homenode : Z) (miss_type : access_type) : outcome (dsm * option Z) :=
  let startIndex := getCacheIndex c addr in
  let classidx := get_classification_index c addr in
  let e := cc c s r startIndex in
  let performed_load := bool_decide (cd_state e = INVALID)
    || (negb (cd_tag e =? addr) && negb (cd_tag e =? GLOBAL_NULL c)) in
  s ← (if performed_load then load_cache_entry c pl s r addr else Ok s);
  if bool_decide (miss_type = access_read)
     || (bool_decide (miss_type = access_undefined) && performed_load) then
    if bool_decide (cd_state (cc c s r startIndex) = VALID) then
      if cd_tag (cc c s r startIndex) =? addr then Ok (s, None)
      else Throw (assertion_failed "cacheControl[startIndex].tag == aligned_access_offset")
    else Throw (assertion_failed "cacheControl[startIndex].state == VALID")
  else
    let line := startIndex / CACHELINE * CACHELINE in
    if bool_decide (cd_dirty (cc c s r line) = DIRTY) then Ok (s, None)
    else
      let s := set_touched s r line 1 in
      let s := set_dirty c s r line DIRTY in
      let s := register_writer c s r homenode classidx in
      b ← mapped s r addr;
      let s := set_pagecopy s (mem_write (pagecopy s) r (line * PAGE_SIZE)
                 (backing_byte s r b <$> seqZ 0 PAGE_SIZE)) in
      let s := mprotect s r addr PROT_RW in
      Ok (s, Some startIndex).

Definition handler_locked (s : dsm) (r access_offset : Z) (miss_type : access_type) : outcome (dsm * option Z) :=
  let addr := align_backwards access_offset (CACHELINE * PAGE_SIZE) in
  homenode ← get_homenode c pl addr;
  offset ← get_offset c pl addr;
  if homenode =? r then s ← handler_local c s r addr offset miss_type; Ok (s, None)
  else remote_locked s r addr homenode miss_type.

(** The slots whose pages a fault evicts modified, one [erase] each. *)
Definition erase_requests (s : dsm) (r access_offset : Z) : outcome (list Z) :=
  let addr := align_backwards access_offset (CACHELINE * PAGE_SIZE) in
  homenode ← get_homenode c pl addr;
  offset ← get_offset c pl addr;
  let start_index := getCacheIndex c addr in
  let e := cc c s r start_index in
  let performed_load := bool_decide (cd_state e = INVALID)
    || (negb (cd_tag e =? addr) && negb (cd_tag e =? GLOBAL_NULL c)) in
  if (homenode =? r) || negb performed_load then Ok []
  else
    fetch_size ← load_extent c pl (Z.to_nat (load_size c - 1)) addr start_index homenode offset 1;
    Ok (base.filter (fun idx => cd_dirty (cc c s r idx) = DIRTY /\ cd_tag (cc c s r idx) ≠ addr + (idx - start_index) * PAGE_SIZE /\
      cd_tag (cc c s r idx) ≠ GLOBAL_NULL c) (seqZ start_index fetch_size)).

(** ** Steps *)
Inductive event :=
| Fault (r a : Z) (miss : access_type)     (** a thread runs the handler up to the unlock *)
| Delegate (r i : Z)                       (** a thread calls [add] *)
| Work (r : Z)                             (** the write buffer's queue makes a step *)
| Store (r a v : Z)                        (** a thread stores to a writable page *)
| Sync (o : Z * dsm_op).                   (** an operation that has the node to itself *)

(** No request is queued or in progress: the thread that delegates runs its request itself. *)
Definition idle (st : threads) (r : Z) : bool :=
  match queue st r, running st r with [], None => true | _, _ => false end.
Definition silent (st : threads) : Prop :=
  forall r, 0 <= r < numtasks c -> unbuffered st r = [] /\ idle st r = true.

Definition set_mem (st : threads) (s : dsm) : threads := {| mem := s; unbuffered := unbuffered st; queue := queue st; running := running st |}.
Definition set_unbuffered (st : threads) (r : Z) (l : list Z) : threads :=
  {| mem := mem st; unbuffered := <[r := l]> (unbuffered st); queue := queue st; running := running st |}.
Definition set_queue (st : threads) (r : Z) (l : list request) : threads :=
  {| mem := mem st; unbuffered := unbuffered st; queue := <[r := l]> (queue st); running := running st |}.
Definition set_running (st : threads) (r : Z) (x : option adding) : threads :=
  {| mem := mem st; unbuffered := unbuffered st; queue := queue st; running := <[r := x]> (running st) |}.

(** A fault: the erasures are done at once or, when the queue is busy, behind it. *)
Definition fault (st : threads) (r a : Z) (miss : access_type) : outcome threads :=
  erased ← erase_requests (mem st) r a;
  '(s, add) ← handler_locked (mem st) r a miss;
  let st' := if idle st r || bool_decide (erased = []) then set_mem st s
             else set_queue (set_mem st (set_wb s r (wb (mem st) r))) r (queue st r ++ (Erase <$> erased)) in
  Ok (match add with Some i => set_unbuffered st' r (i :: unbuffered st' r) | None => st' end).

(** A step of [_add] or [_erase]. *)
Definition work (st : threads) (r : Z) : outcome threads :=
  let s := mem st in
  match running st r with
  | Some x =>
    match ad_popped x with
    | Some k =>
      s ← write_back_index c pl s r k;
      Ok (set_running (set_mem st s) r (Some {| ad_val := ad_val x; ad_flush := ad_flush x; ad_left := ad_left x; ad_popped := None |}))
    | None =>
      if 0 <? ad_left x then
        match wb s r with
        | [] => Throw (undefined_behaviour "front of an empty deque")
        | k :: l => Ok (set_running (set_mem st (set_wb s r l)) r
            (Some {| ad_val := ad_val x; ad_flush := ad_flush x; ad_left := ad_left x - 1; ad_popped := Some k |}))
        end
      else
        let s := if ad_flush x then count s r c_partial_flush_count else s in
        Ok (set_running (set_mem st (count (set_wb s r (wb s r ++ [ad_val x])) r c_page_count)) r None)
    end
  | None =>
    match queue st r with
    | [] => Ok st
    | Erase i :: q => Ok (set_queue (set_mem st (wb_erase s r i)) r q)
    | Add i :: q =>
      if wb_has s r i then Throw (assertion_failed "!has(val)")
      else
        let full := wb_max_size c <=? Z.of_nat (length (wb s r)) in
        Ok (set_running (set_queue st r q) r
          (Some {| ad_val := i; ad_flush := full; ad_left := if full then wb_write_back_size c else 0; ad_popped := None |}))
    end
  end.

Definition exec (st : threads) (e : event) : outcome threads :=
  match e with
  | Fault r a miss => fault st r a miss
  | Delegate r i => Ok (set_queue (set_unbuffered st r (remove_first i (unbuffered st r))) r (queue st r ++ [Add i]))
  | Work r => work st r
  | Store r a v => Ok (set_mem st (put_byte (mem st) r (fst (vmap (mem st) r (align_backwards a PAGE_SIZE))) (a mod PAGE_SIZE) v))
  | Sync o => '(s, _) ← run_op c pl (mem st) o; Ok (set_mem st s)
  end.

Fixpoint exec_all (st : threads) (l : list event) : outcome threads :=
  match l with [] => Ok st | e :: l => st ← exec st e; exec_all st l end.

Definition start : threads := {| mem := dsm_reset; unbuffered := fun _ => []; queue := fun _ => []; running := fun _ => None |}.

End Threads.

(** ** The locked handler keeps the invariant *)
Section Proofs.

Context (c : dsm_config) (pl : placement) (Hc : cfg_ok c pl) {PB : plain_bytes}.

Abbreviation node := (node c).
Abbreviation page := (page c).
Abbreviation home := (home c pl).
Abbreviation off := (off c pl).
Abbreviation cidx := (cidx c).
Abbreviation cc := (cc c).
Abbreviation holds := (holds c).
Abbreviation inv_pend := (inv_pend c pl).
Abbreviation page_of a := (align_backwards a PAGE_SIZE).

(** The handler is the locked part followed by the [add]. *)
Lemma handler_is_locked s r a miss :
  handler c pl s r a miss =
    '(s', add) ← handler_locked c pl s r a miss; match add with Some i => wb_add c pl s' r i | None => Ok s' end.
Proof.
  unfold handler, handler_locked. destruct (get_homenode c pl _) as [h| |]; [|done..]. cbn [mbind outcome_bind].
  destruct (get_offset c pl _) as [o| |]; [|done..]. cbn [mbind outcome_bind].
  destruct (h =? r); [by destruct (handler_local _ _ _ _ _ _)|]. unfold handler_remote, remote_locked. cbv zeta.
  destruct (if _ || _ then load_cache_entry _ _ _ _ _ else Ok s) as [s1| |]; [|done..]. cbn [mbind outcome_bind].
  repeat (case_match; try done). all: try (destruct (mapped _ _ _); done).
Qed.

(** A modified page of node [r] that a fault on page [p] does not evict. *)
Definition kept (s : dsm) (r p i : Z) : Prop :=
  cd_dirty (cc s r i) = DIRTY /\ (home p ≠ r -> ~ holds s r p -> forall n, fetch c pl p = Ok n -> spared c s r p n i).

Lemma mark_dirty_pend {pend} s r p :
  inv_pend pend s -> node r -> page p -> holds s r p -> cd_dirty (cc s r (cidx p)) = CLEAN ->
  exists s', mark_dirty c pl s r p = Ok s' /\ inv_pend (pend_add pend r (cidx p)) s' /\
    cc s' r (cidx p) = ControlData VALID DIRTY p /\ forall x i, ~ (x = r /\ i = cidx p) -> cc s' x i = cc s x i.
Proof using Hc.
  intros Hi Hr Hp Hh Hcl. destruct (mark_dirty_ok c pl Hc s r p Hi Hr Hp Hh Hcl) as (s0 & s1 & E & Hi0 & Hsm & Hvis & Hdy).
  assert (Ecc0 : forall x i, cc s0 x i = cc s x i) by (intros; unfold Swdsm.cc; by rewrite (sb_cc _ _ Hsm)).
  exists s1. split; [done|]. split.
  - apply (inv_dirtied c pl Hc s0 s1 r p Hi0 Hr Hp); try done; [unfold SwdsmInv.holds; by rewrite Ecc0|by rewrite Ecc0].
  - destruct Hdy as [D1 _ _ _ _ _ _ _ _]. split; [by rewrite D1, decide_True|]. intros x i Hne. by rewrite D1, decide_False, Ecc0.
Qed.

Definition pend_option (pend : Z -> Z -> Prop) (r : Z) (add : option Z) : Z -> Z -> Prop :=
  match add with Some i => pend_add pend r i | None => pend end.

Lemma remote_locked_ok {pend} s r p miss :
  inv_pend pend s -> node r -> page p -> home p ≠ r ->
  (~ holds s r p -> forall n k, fetch c pl p = Ok n -> 0 <= k < n -> evictable c pend s r (cidx p + k) (p + k * PAGE_SIZE)) ->
  exists s' add, remote_locked c pl s r p (home p) miss = Ok (s', add) /\ inv_pend (pend_option pend r add) s' /\
    (forall x i, x ≠ r -> cc s' x i = cc s x i) /\
    (forall i, kept s r p i -> cc s' r i = cc s r i /\ add ≠ Some i) /\
    (forall i, add = Some i -> 0 <= i < cachesize c /\ cd_dirty (cc s' r i) = DIRTY).
Proof using Hc.
  intros Hi Hr Hp Hrem Hev. unfold remote_locked. fold (cidx p). cbv zeta. rewrite (performed_load_eq c pl Hc s r p Hi Hr).
  set (hit := bool_decide (cd_state (cc s r (cidx p)) = VALID /\ cd_tag (cc s r (cidx p)) = p)).
  assert (exists s1, (if negb hit then load_cache_entry c pl s r p else Ok s) = Ok s1 /\ inv_pend pend s1 /\ holds s1 r p /\
    (forall x i, x ≠ r -> cc s1 x i = cc s x i) /\ (forall i, kept s r p i -> cc s1 r i = cc s r i) /\ (hit = true -> s1 = s))
    as (s1 & -> & Hi1 & Hh1 & Hot & Hkp & Hsame).
  { unfold hit. destruct (bool_decide_reflect (cd_state (cc s r (cidx p)) = VALID /\ cd_tag (cc s r (cidx p)) = p)) as [[Hv Ht]|Hnh]; cbn [negb].
    - by exists s.
    - assert (Hnh' : ~ holds s r p) by (unfold SwdsmInv.holds; tauto).
      destruct (load_cache_entry_spared c pl Hc s r p Hi Hr Hp Hrem Hnh' (Hev Hnh')) as (s1 & E & Hi1 & Hq & Hh & _ & _ & Hs).
      exists s1. split_and!; try done; [intros x i Hx; by apply (quiet_others c pl s s1 r Hq)|].
      intros i [Hd Hk]. destruct (load_extent_ok c pl Hc r p (Z.to_nat (load_size c - 1)) 1 Hp Hrem (extent_one c pl Hc r p Hp Hrem)) as (n & En & _).
      apply (Hs n); [exact En|by apply Hk]. }
  cbn [mbind outcome_bind]. assert (Hdone : exists s' add, Ok (s1, None) = Ok (s', add) /\ inv_pend (pend_option pend r add) s' /\
    (forall x i, x ≠ r -> cc s' x i = cc s x i) /\ (forall i, kept s r p i -> cc s' r i = cc s r i /\ add ≠ Some i) /\
    (forall i, add = Some i -> 0 <= i < cachesize c /\ cd_dirty (cc s' r i) = DIRTY)).
  { exists s1, None. split_and!; try done. intros i Hk. split; [by apply Hkp|done]. }
  destruct (_ || _).
  { rewrite bool_decide_true by apply Hh1. by rewrite (proj1 Hh1), Z.eqb_refl. }
  unfold CACHELINE. rewrite Z.div_1_r, Z.mul_1_r.
  destruct (bool_decide_reflect (cd_dirty (cc s1 r (cidx p)) = DIRTY)) as [Hd|Hd]; [done|].
  assert (Hcl : cd_dirty (cc s1 r (cidx p)) = CLEAN) by (by destruct (cd_dirty _)).
  destruct (mark_dirty_pend s1 r p Hi1 Hr Hp Hh1 Hcl) as (s2 & E & Hi2 & Ei & Ho).
  exists s2, (Some (cidx p)). split.
  { apply (f_equal (fun o => s ← o; Ok (s, Some (cidx p)))) in E. unfold mark_dirty in E. cbv zeta in E.
    change (get_classification_index c p) with (cls c p). destruct (mapped _ r p); exact E. }
  split; [exact Hi2|]. split; [intros x i Hx; rewrite Ho by tauto; by apply Hot|]. split.
  - intros i Hk. assert (i ≠ cidx p). { intros ->. apply Hd. rewrite Hkp by done. apply Hk. }
    rewrite Ho by tauto. split; [by apply Hkp|congruence].
  - intros i [= <-]. split; [by eauto with argo|by rewrite Ei].
Qed.

(** The local branch leaves the cache alone. *)
Lemma notify_same s r classidx writers sharers : cacheControl (notify_writer c s r classidx writers sharers) = cacheControl s.
Proof.
  unfold notify_writer. destruct (_ && _); [done|]. destruct (_ || _); [|done].
  generalize (seqZ 0 (numtasks c)) as l. intros l. revert s. induction l as [|n l IH]; intros s; [done|]. cbn [foldl].
  rewrite IH. by destruct (_ && _).
Qed.

Lemma handler_local_same s r p o miss s' : handler_local c s r p o miss = Ok s' -> cacheControl s' = cacheControl s.
Proof.
  unfold handler_local. cbv zeta. destruct (negb _).
  - destruct (_ && _); [destruct (_ =? r); [done|]|]; cbn [mbind outcome_bind]; by intros [= <-].
  - destruct (bool_decide _); intros [= <-]; [done|]. cbn [cacheControl map_memory]. unfold map_memory, set_vmap. cbn [cacheControl].
    by rewrite notify_same.
Qed.

Lemma handler_locked_ok {pend} s r a miss :
  inv_pend pend s -> node r -> 0 <= a < size_of_all c -> let p := page_of a in
  (home p ≠ r -> ~ holds s r p -> forall n k, fetch c pl p = Ok n -> 0 <= k < n -> evictable c pend s r (cidx p + k) (p + k * PAGE_SIZE)) ->
  exists s' add, handler_locked c pl s r a miss = Ok (s', add) /\ inv_pend (pend_option pend r add) s' /\
    (forall x i, x ≠ r -> cc s' x i = cc s x i) /\
    (forall i, kept s r p i -> cc s' r i = cc s r i /\ add ≠ Some i) /\
    (forall i, add = Some i -> 0 <= i < cachesize c /\ cd_dirty (cc s' r i) = DIRTY).
Proof using Hc.
  intros Hi Hr Ha p Hev. pose proof (align_page c pl Hc a Ha) as Hp. fold p in Hp.
  unfold handler_locked, CACHELINE. rewrite Z.mul_1_l. fold p.
  destruct (lookups_ok c pl Hc p Hp) as (-> & _ & -> & _). cbn [mbind outcome_bind].
  destruct (Z.eqb_spec (home p) r) as [Hl|Hl]; [|exact (remote_locked_ok s r p miss Hi Hr Hp Hl (Hev Hl))].
  destruct (handler_local_ok c pl Hc s r p miss Hi Hr Hp Hl) as (s' & E & Hi' & Hq & _).
  pose proof (handler_local_same _ _ _ _ _ _ E) as Es. rewrite E. cbn [mbind outcome_bind].
  exists s', None. split; [done|]. split; [exact Hi'|]. split; [intros x i Hx; by apply (quiet_others c pl s s' r Hq)|]. split; [|done].
  intros i _. split; [|done]. unfold Swdsm.cc. by rewrite Es.
Qed.

Lemma requests_ok {pend} s r a :
  inv_pend pend s -> node r -> 0 <= a < size_of_all c -> exists l, erase_requests c pl s r a = Ok l /\
    forall i, 0 <= i < cachesize c -> cd_dirty (cc s r i) = DIRTY -> i ∉ l -> kept s r (page_of a) i.
Proof using Hc.
  intros Hi Hr Ha. pose proof (align_page c pl Hc a Ha) as Hp. unfold erase_requests, CACHELINE. rewrite Z.mul_1_l.
  set (p := page_of a) in *. destruct (lookups_ok c pl Hc p Hp) as (-> & _ & -> & _). cbn [mbind outcome_bind]. cbv zeta. fold (cidx p).
  rewrite (performed_load_eq c pl Hc s r p Hi Hr). destruct (Z.eqb_spec (home p) r) as [Hl|Hl]; cbn [orb].
  { exists []. split; [done|]. intros i _ Hd _. by split. }
  destruct (bool_decide_reflect (cd_state (cc s r (cidx p)) = VALID /\ cd_tag (cc s r (cidx p)) = p)) as [[Hv Ht]|Hnh]; cbn [negb].
  { exists []. split; [done|]. intros i _ Hd _. split; [done|]. intros _ Hn. by destruct Hn. }
  destruct (load_extent_ok c pl Hc r p (Z.to_nat (load_size c - 1)) 1 Hp Hl (extent_one c pl Hc r p Hp Hl)) as (n & En & _).
  rewrite En. cbn [mbind outcome_bind]. eexists. split; [reflexivity|]. intros i Hidx Hd Hni. split; [done|]. intros _ _ n' En'.
  assert (n' = n) as -> by (unfold fetch in En'; congruence). split; [done|]. intros k Hk ->. destruct (decide (cd_tag (cc s r (cidx p + k)) = p + k * PAGE_SIZE)) as [|Hne]; [done|].
  destruct Hni. apply list_elem_of_filter. split; [|apply elem_of_seqZ; lia]. split_and!; [done|by rewrite Z.add_simpl_l|].
  destruct (slot_of_dirty c pl s r _ (iv_slot _ _ _ _ Hi r _ Hr Hidx) Hd) as [[Hpt _ _ _ _ _] _]. by apply (not_null c).
Qed.

(** ** Slots in transit *)

Lemma inv_pend_ext pend pend' s : (forall x i, node x -> pend x i <-> pend' x i) -> inv_pend pend s -> inv_pend pend' s.
Proof using Hc.
  intros He Hi. apply (inv_frame c pl Hc pend pend' s s Hi); try done; [|apply (iv_data _ _ _ _ Hi)].
  intros x Hx. destruct (iv_wb _ _ _ _ Hi x Hx) as [W1 W2]. split; [done|]. intros i. by rewrite W2, He.
Qed.

(** A slot that is clean is not pending. *)
Lemma inv_unpend pend s r idx : inv_pend (pend_add pend r idx) s -> cd_dirty (cc s r idx) = CLEAN -> inv_pend pend s.
Proof using Hc.
  intros Hi Hcl. apply (inv_frame c pl Hc (pend_add pend r idx) pend s s Hi); try done; [|apply (iv_data _ _ _ _ Hi)].
  intros x Hx. destruct (iv_wb _ _ _ _ Hi x Hx) as [W1 W2]. split; [done|]. intros i. rewrite W2. unfold pend_add.
  split; [tauto|]. intros (H1 & H2 & H3). split; [done|]. split; [done|]. intros [?|[-> ->]]; [done|congruence].
Qed.

(** Popping a slot makes it pending. *)
Lemma inv_popped pend s r k l : inv_pend pend s -> node r -> wb s r = k :: l -> inv_pend (pend_add pend r k) (set_wb s r l).
Proof using Hc.
  intros Hi Hr Ew. apply (inv_frame c pl Hc pend _ s _ Hi); try done; [|apply (iv_data _ _ _ _ Hi)].
  intros x Hx. destruct (iv_wb _ _ _ _ Hi x Hx) as [W1 W2]. unfold pend_add. split.
  - dsm_get. case_decide as E; [|done]. subst x. rewrite Ew in W1. by apply NoDup_cons in W1 as [_ ?].
  - intros i. dsm_get. case_decide as E.
    + subst x. rewrite Ew in W1, W2. apply NoDup_cons in W1 as [Hn _]. specialize (W2 i). rewrite elem_of_cons in W2.
      split.
      * intros Hi'. assert (i ≠ k) by (by intros ->). tauto.
      * intros (H1 & H2 & H3). destruct (proj2 W2) as [->|?]; [tauto|tauto|done].
    + rewrite W2. split; [|tauto]. intros (H1 & H2 & H3). split; [done|]. split; [done|]. intros [?|[-> _]]; tauto.
Qed.

#[local] Opaque diff_page.

(** Writing back leaves the buffer alone. *)
Lemma write_back_set_wb s r l k : write_back_index c pl (set_wb s r l) r k = s' ← write_back_index c pl s r k; Ok (set_wb s' r l).
Proof.
  unfold write_back_index. change (Swdsm.cc c (set_wb s r l) r k) with (cc s r k). destruct (cd_dirty (cc s r k)); [done|]. unfold storepageDIFF.
  destruct (get_homenode c pl _); [|done..]. cbn [mbind outcome_bind]. destruct (get_offset c pl _); [|done..]. cbn [mbind outcome_bind].
  unfold mapped. by destruct (vmap _ _ _) as [b []].
Qed.

Lemma write_back_wb s r k s' : write_back_index c pl s r k = Ok s' -> wbuf s' = wbuf s.
Proof.
  unfold write_back_index. destruct (cd_dirty _); [done|]. unfold storepageDIFF.
  destruct (get_homenode c pl _); [|done..]. cbn [mbind outcome_bind]. destruct (get_offset c pl _); [|done..]. cbn [mbind outcome_bind].
  destruct (mapped _ _ _); [|done..]. cbn [mbind outcome_bind]. intros E. apply (f_equal (fun o => match o with Ok s => wbuf s | _ => ∅ end)) in E. exact (eq_sym E).
Qed.

#[local] Transparent diff_page.

Lemma write_back_pending pend s r k :
  inv_pend (pend_add pend r k) s -> node r -> 0 <= k < cachesize c -> cd_dirty (cc s r k) = DIRTY ->
  exists s', write_back_index c pl s r k = Ok s' /\ inv_pend pend s' /\ (forall x, wb s' x = wb s x) /\
    forall x i, ~ (x = r /\ i = k) -> cc s' x i = cc s x i.
Proof using Hc.
  intros Hi Hr Hk Hd. destruct (iv_wb _ _ _ _ Hi r Hr) as [W1 W2].
  destruct (write_back_ok c pl Hc _ s r (wb s r) k Hi Hr Hk Hd W1) as (s1 & E & _ & Hb).
  { intros i. split; [|tauto]. intros H. split; [done|]. intros ->. apply W2 in H. unfold pend_add in H. tauto. }
  rewrite write_back_set_wb in E. destruct (write_back_index c pl s r k) as [s'| |] eqn:E'; [|done..].
  cbn [mbind outcome_bind] in E. injection E as <-. pose proof (write_back_wb _ _ _ _ E') as Ew.
  assert (Ewb : forall x, wb s' x = wb s x) by (intros; unfold wb; by rewrite Ew).
  assert (Hb' : wrote_back c pl s s' r k).
  { destruct Hb as [B1 B2 B3 B4 B5 B6 B7 B8 B9 B10]. split; try done; [by rewrite Ewb|]. intros i. rewrite Ewb. split; [|tauto].
    intros H. split; [done|]. intros ->. apply W2 in H. unfold pend_add in H. tauto. }
  exists s'. split; [done|]. pose proof (wt_cc _ _ _ _ _ _ Hb') as Ecc. split_and!.
  - apply (inv_unpend pend s' r k); [by apply (inv_wrote_back c pl Hc _ s s' r k)|by rewrite Ecc, decide_True].
  - done.
  - intros x i Hne. by rewrite Ecc, decide_False.
Qed.

(** A buffer whose slots stay modified and do not become pending does not get shorter. *)
Lemma wb_grows pend pend' s s' x : inv_pend pend s -> inv_pend pend' s' -> node x ->
  (forall i, 0 <= i < cachesize c -> i ∈ wb s x -> cc s' x i = cc s x i /\ ~ pend' x i) -> (length (wb s x) <= length (wb s' x))%nat.
Proof.
  intros Hi Hi' Hx Hk. destruct (iv_wb _ _ _ _ Hi x Hx) as [W1 W2]. destruct (iv_wb _ _ _ _ Hi' x Hx) as [_ W2'].
  apply submseteq_length, NoDup_submseteq; [done|]. intros i Hin. destruct (proj1 (W2 i) Hin) as (H1 & H2 & _).
  destruct (Hk i H1 Hin) as [E Hn]. apply W2'. by rewrite E.
Qed.

(** ** The invariant of the threads *)
Lemma elem_of_option_list (o : option Z) i : i ∈ option_list o <-> o = Some i.
Proof. destruct o as [j|]; cbn; [rewrite list_elem_of_singleton|rewrite elem_of_nil]; split; congruence || done. Qed.

Definition adds (l : list request) : list Z := omap (fun q => match q with Add i => Some i | Erase _ => None end) l.
Definition in_work (x : option adding) : list Z :=
  match x with Some x => ad_val x :: option_list (ad_popped x) | None => [] end.
(** The slots that are modified and not in the buffer. *)
Definition transit (st : threads) (r : Z) : list Z := unbuffered st r ++ adds (queue st r) ++ in_work (running st r).

Record threads_ok (st : threads) : Prop := {
  to_inv : inv_pend (fun x i => i ∈ transit st x) (mem st);
  to_nodup r : node r -> NoDup (transit st r);
  to_dirty r i : node r -> i ∈ transit st r -> 0 <= i < cachesize c /\ cd_dirty (cc (mem st) r i) = DIRTY;
  to_left r x : node r -> running st r = Some x -> ad_left x <= Z.of_nat (length (wb (mem st) r));
  to_adds r q : node r -> q ∈ queue st r -> exists i, q = Add i;
}.

Definition enabled (st : threads) (e : event) : Prop :=
  match e with
  | Fault r a miss => node r /\ 0 <= a < size_of_all c
  | Delegate r i => node r /\ i ∈ unbuffered st r
  | Work r => node r
  | Store r a v => node r /\ 0 <= a < size_of_all c /\ can_write (mem st) r (page_of a) = true
  | Sync o => silent c st /\ op_valid c o = true /\ respects o
  end.

(** A fault evicts modified pages only while the queue is idle and none of them is in
    the hands of another thread.  The code does not check this.  It is a
    sufficient condition, wider than the two failures of [eviction_races_with_buffer]: of
    the pages that are only buffered, those that a flush in progress pops before the
    queued [erase] is executed fail the same assertion. *)
Definition gentle (st : threads) (e : event) : Prop :=
  match e with
  | Fault r a _ => forall l, erase_requests c pl (mem st) r a = Ok l -> l = [] \/ (idle st r = true /\ forall i, i ∈ l -> i ∉ unbuffered st r)
  | _ => True
  end.

Lemma start_ok : threads_ok start.
Proof using Hc.
  split; try done.
  - apply (inv_pend_ext no_pend); [|by apply inv_init]. intros x i _. split; [done|]. by intros ?%elem_of_nil.
  - intros r _. apply NoDup_nil_2.
  - by intros r i _ ?%elem_of_nil.
  - by intros r q _ ?%elem_of_nil.
Qed.

Lemma idle_transit st r : idle st r = true -> transit st r = unbuffered st r.
Proof. unfold idle, transit. intros E. repeat case_match; try done. cbn. by rewrite app_nil_r. Qed.

Lemma transit_set_mem st s r : transit (set_mem st s) r = transit st r.
Proof. done. Qed.

Lemma transit_unbuffered st r l x : transit (set_unbuffered st r l) x =
  if decide (x = r) then l ++ adds (queue st r) ++ in_work (running st r) else transit st x.
Proof. unfold transit, set_unbuffered. cbn [unbuffered queue running]. case_decide as E; [subst x; by rewrite fn_lookup_insert|by rewrite fn_lookup_insert_ne by done]. Qed.

Lemma transit_running st r x y : transit (set_running st r x) y =
  if decide (y = r) then unbuffered st r ++ adds (queue st r) ++ in_work x else transit st y.
Proof. unfold transit, set_running. cbn [unbuffered queue running]. case_decide as E; [subst y; by rewrite fn_lookup_insert|by rewrite fn_lookup_insert_ne by done]. Qed.

(** Slots that only change hands. *)
Lemma handed_over st st' :
  threads_ok st -> mem st' = mem st -> (forall x, transit st' x ≡ₚ transit st x) ->
  (forall x y, node x -> running st' x = Some y -> ad_left y <= Z.of_nat (length (wb (mem st) x))) ->
  (forall x q, node x -> q ∈ queue st' x -> exists i, q = Add i) -> threads_ok st'.
Proof using Hc.
  intros [T1 T2 T3 T4 T5] Em Ht Hl Hq. split; rewrite ?Em; try done.
  - apply (inv_pend_ext (fun x i => i ∈ transit st x)); [|done]. intros x i _. by rewrite Ht.
  - intros x Hx. rewrite Ht. by apply T2.
  - intros x i Hx. rewrite Ht. by apply T3.
Qed.

Lemma fault_ok st r a miss : threads_ok st -> enabled st (Fault r a miss) -> gentle st (Fault r a miss) ->
  exists st', fault c pl st r a miss = Ok st' /\ threads_ok st'.
Proof using Hc.
  intros [T1 T2 T3 T4 T5] [Hr Ha] Hg. set (s := mem st) in *. set (p := page_of a).
  destruct (requests_ok s r a T1 Hr Ha) as (l & El & Hkept). specialize (Hg l El).
  assert (Hdisj : forall i, i ∈ transit st r -> i ∉ l).
  { intros i Hin Hil. destruct Hg as [->|[Hid Hn]]; [by apply elem_of_nil in Hil|]. rewrite (idle_transit st r Hid) in Hin. by apply (Hn i). }
  assert (Hkt : forall i, i ∈ transit st r -> kept s r p i).
  { intros i Hin. destruct (T3 r i Hr Hin). apply Hkept; try done. by apply Hdisj. }
  destruct (handler_locked_ok s r a miss T1 Hr Ha) as (s' & add & E & Hi' & Ho & Hk & Hadd).
  { intros Hl Hnh n k En Hkn Hd Ht Hin. destruct (Hkt _ Hin) as [_ Hsp]. destruct (Hsp Hl Hnh n En) as [_ Hsp']. by apply Ht, (Hsp' k). }
  fold p in Hk. unfold fault. fold s. rewrite El. cbn [mbind outcome_bind]. rewrite E. cbn [mbind outcome_bind].
  assert (idle st r || bool_decide (l = []) = true) as ->.
  { destruct Hg as [->|[-> _]]; [by rewrite bool_decide_true, orb_true_r|done]. }
  eexists. split; [reflexivity|].
  set (st' := match add with Some i => _ | None => _ end).
  assert (Em : mem st' = s') by (unfold st'; by destruct add).
  assert (Eq : queue st' = queue st) by (unfold st'; by destruct add).
  assert (Er : running st' = running st) by (unfold st'; by destruct add).
  assert (Et : forall x, transit st' x = if decide (x = r) then option_list add ++ transit st r else transit st x).
  { intros x. unfold st'. destruct add as [i|]; [|by case_decide as Ex; [subst x|]].
    rewrite transit_unbuffered. case_decide as Ex; [|done]. done. }
  assert (Hpe : forall x i, node x -> pend_option (fun x i => i ∈ transit st x) r add x i <-> i ∈ transit st' x).
  { intros x i _. rewrite Et. unfold pend_option, pend_add. case_decide as Ex.
    - subst x. rewrite elem_of_app, elem_of_option_list. destruct add as [j|]; [|by split; [right|intros [?|?]]].
      split; [intros [?|[_ ->]]; auto|intros [[= ->]|?]; auto].
    - destruct add as [j|]; [|done]. split; [|by left]. by intros [?|[? _]]. }
  split; rewrite ?Em, ?Eq, ?Er; try done.
  - by apply (inv_pend_ext _ _ s' Hpe).
  - intros x Hx. rewrite Et. case_decide as Ex; [subst x|by apply T2]. destruct add as [j|]; [|by apply T2].
    apply NoDup_cons_2; [|by apply T2]. intros Hin. by apply (Hk j (Hkt j Hin)).
  - intros x i Hx. rewrite Et. case_decide as Ex; [subst x|intros Hin; rewrite Ho by done; by apply T3].
    rewrite elem_of_app, elem_of_option_list. intros [Hin|Hin].
    + by apply Hadd.
    + rewrite (proj1 (Hk i (Hkt i Hin))). by apply T3.
  - intros x y Hx Ey. specialize (T4 x y Hx Ey). etransitivity; [exact T4|]. apply Nat2Z.inj_le.
    apply (wb_grows _ _ s s' x T1 Hi' Hx). intros i Hidx Hin.
    destruct (proj1 (wk_dirty _ _ _ _ (iv_wb _ _ _ _ T1 x Hx) i) Hin) as (_ & Hd & Hnt).
    destruct (decide (x = r)) as [->|Hne].
    + assert (l = []) as ->. { destruct Hg as [|[Hid _]]; [done|]. unfold idle in Hid. rewrite Ey in Hid. by destruct (queue st r). }
      destruct (Hk i) as [E1 E2]; [apply Hkept; [done|done|by intros ?%elem_of_nil]|]. split; [done|].
      unfold pend_option, pend_add. destruct add as [j|]; [|done]. intros [?|[_ ->]]; done.
    + split; [by apply Ho|]. unfold pend_option, pend_add. destruct add as [j|]; [|done]. intros [?|[? _]]; done.
Qed.

Lemma remove_first_perm i (l : list Z) : i ∈ l -> l ≡ₚ i :: remove_first i l.
Proof.
  induction l as [|x l IH]; intros Hin; [by apply elem_of_nil in Hin|]. simpl. destruct (Z.eqb_spec x i) as [->|Hne]; [done|].
  apply elem_of_cons in Hin as [->|Hin]; [done|]. rewrite (IH Hin) at 1. by rewrite Permutation_swap.
Qed.

Lemma adds_app l1 l2 : adds (l1 ++ l2) = adds l1 ++ adds l2.
Proof. apply omap_app. Qed.

Lemma delegate_ok st r i : threads_ok st -> node r -> i ∈ unbuffered st r -> exists st', exec c pl st (Delegate r i) = Ok st' /\ threads_ok st'.
Proof using Hc.
  intros Ht Hr Hin. eexists. split; [reflexivity|]. apply (handed_over st); try done.
  - intros x. unfold transit, set_queue, set_unbuffered. cbn [unbuffered queue running]. destruct (decide (x = r)) as [->|Hne].
    + rewrite !fn_lookup_insert, adds_app. cbn. rewrite (remove_first_perm i (unbuffered st r) Hin) at 2. solve_Permutation.
    + by rewrite !fn_lookup_insert_ne by done.
  - intros x y Hx. apply (to_left st Ht x y Hx).
  - intros x q Hx. unfold set_queue. cbn [queue]. destruct (decide (x = r)) as [->|Hne].
    + rewrite fn_lookup_insert, elem_of_app, list_elem_of_singleton. intros [Hq| ->]; [by apply (to_adds st Ht r)|by exists i].
    + rewrite fn_lookup_insert_ne by done. by apply (to_adds st Ht x).
Qed.

(** A step of the queue, after which [l] is in transit on node [r]. *)
Lemma worked st s r y l :
  threads_ok st -> node r -> transit (set_running (set_mem st s) r y) r ≡ₚ l ->
  inv_pend (fun x i => if decide (x = r) then i ∈ l else i ∈ transit st x) s -> NoDup l ->
  (forall i, i ∈ l -> 0 <= i < cachesize c /\ cd_dirty (cc s r i) = DIRTY) ->
  (forall x i, x ≠ r -> cc s x i = cc (mem st) x i) -> (forall x, x ≠ r -> wb s x = wb (mem st) x) ->
  (forall z, y = Some z -> ad_left z <= Z.of_nat (length (wb s r))) -> threads_ok (set_running (set_mem st s) r y).
Proof using Hc.
  intros [T1 T2 T3 T4 T5] Hr El Hi Hn Hd Ho Hw Hl.
  assert (Ene : forall x, x ≠ r -> transit (set_running (set_mem st s) r y) x = transit st x) by (intros x Hx; by rewrite transit_running, decide_False).
  split.
  - eapply inv_pend_ext; [|exact Hi]. intros x i _. cbv beta. case_decide as Ex; [subst x; by rewrite El|by rewrite Ene].
  - intros x Hx. destruct (decide (x = r)) as [->|Hne]; [by rewrite El|rewrite Ene by done; by apply T2].
  - intros x i Hx. cbn [mem set_running set_mem]. destruct (decide (x = r)) as [->|Hne]; [rewrite El; by apply Hd|].
    rewrite Ene, Ho by done. by apply T3.
  - intros x z Hx. cbn [running mem set_running set_mem]. destruct (decide (x = r)) as [->|Hne].
    + rewrite fn_lookup_insert. apply Hl.
    + rewrite fn_lookup_insert_ne, Hw by done. by apply T4.
  - exact T5.
Qed.

Lemma work_write_back st r val fl left k : threads_ok st -> node r -> running st r = Some (Adding val fl left (Some k)) ->
  exists st', work c pl st r = Ok st' /\ threads_ok st'.
Proof using Hc.
  intros Ht Hr Er. pose proof Ht as [T1 T2 T3 T4 T5]. unfold work. rewrite Er. cbn [ad_val ad_flush ad_left ad_popped].
  set (l := unbuffered st r ++ adds (queue st r) ++ [val]).
  assert (Etr : transit st r ≡ₚ k :: l) by (unfold transit, l; rewrite Er; cbn; solve_Permutation).
  pose proof (T2 r Hr) as Hnd. rewrite Etr in Hnd. apply NoDup_cons in Hnd as [Hkl Hnd].
  destruct (T3 r k Hr) as [Hidx Hd]; [rewrite Etr; by left|].
  destruct (write_back_pending (fun x i => if decide (x = r) then i ∈ l else i ∈ transit st x) (mem st) r k) as (s' & E & Hi' & Hw & Hcc); [|done..|].
  { eapply inv_pend_ext; [|exact T1]. intros x i _. unfold pend_add. cbv beta. case_decide as Ex; [subst x; rewrite Etr, elem_of_cons; tauto|tauto]. }
  rewrite E. cbn [mbind outcome_bind]. eexists. split; [reflexivity|]. apply (worked st s' r _ l); try done.
  - rewrite transit_running, decide_True by done. done.
  - intros i Hi. rewrite Hcc by (intros [_ ->]; done). apply T3; [done|]. rewrite Etr. by right.
  - intros x i Hx. apply Hcc. tauto.
  - intros z [= <-]. cbn [ad_left]. rewrite Hw. exact (T4 r _ Hr Er).
Qed.

Lemma work_pop st r val fl left : threads_ok st -> node r -> running st r = Some (Adding val fl left None) -> 0 < left ->
  exists st', work c pl st r = Ok st' /\ threads_ok st'.
Proof using Hc.
  intros Ht Hr Er Hl. pose proof Ht as [T1 T2 T3 T4 T5]. unfold work. rewrite Er. cbn [ad_val ad_flush ad_left ad_popped].
  rewrite (proj2 (Z.ltb_lt 0 left) Hl). pose proof (T4 r _ Hr Er) as Hlen. cbn [ad_left] in Hlen.
  destruct (iv_wb _ _ _ _ T1 r Hr) as [W1 W2]. destruct (wb (mem st) r) as [|k l] eqn:Ew; [simpl in Hlen; lia|].
  destruct (proj1 (W2 k) ltac:(left)) as (Hidx & Hd & Hkn). eexists. split; [reflexivity|].
  apply (worked st (set_wb (mem st) r l) r _ (k :: transit st r)); try done.
  - rewrite transit_running, decide_True by done. unfold transit. cbn [unbuffered queue set_mem]. rewrite Er. cbn. solve_Permutation.
  - eapply inv_pend_ext; [|exact (inv_popped _ _ _ _ _ T1 Hr Ew)]. intros x i _. unfold pend_add. cbv beta.
    case_decide as Ex; [subst x; rewrite elem_of_cons; tauto|tauto].
  - apply NoDup_cons_2; [done|by apply T2].
  - intros i [->|Hi]%elem_of_cons; [done|by apply T3].
  - intros x Hx. dsm_get. by rewrite decide_False.
  - intros z [= <-]. cbn [ad_left]. dsm_get. rewrite decide_True by done. simpl in Hlen. lia.
Qed.

Lemma work_finish st r val fl left : threads_ok st -> node r -> running st r = Some (Adding val fl left None) -> left <= 0 ->
  exists st', work c pl st r = Ok st' /\ threads_ok st'.
Proof using Hc.
  intros Ht Hr Er Hl. pose proof Ht as [T1 T2 T3 T4 T5]. unfold work. rewrite Er. cbn [ad_val ad_flush ad_left ad_popped].
  rewrite (proj2 (Z.ltb_ge 0 left) Hl). set (l := unbuffered st r ++ adds (queue st r)).
  assert (Etr : transit st r ≡ₚ val :: l) by (unfold transit, l; rewrite Er; cbn; solve_Permutation).
  pose proof (T2 r Hr) as Hnd. rewrite Etr in Hnd. apply NoDup_cons in Hnd as [Hkl Hnd].
  destruct (T3 r val Hr) as [Hidx Hd]; [rewrite Etr; by left|].
  set (s := if fl then count (mem st) r c_partial_flush_count else mem st).
  assert (Hs : dsm_equiv c (mem st) s) by (unfold s; destruct fl; by split).
  set (pend := fun x i => if decide (x = r) then i ∈ l else i ∈ transit st x).
  assert (Hi : inv_pend (pend_add pend r val) s).
  { apply (inv_proper c pl Hc _ (mem st) s Hs). eapply inv_pend_ext; [|exact T1]. intros x i _. unfold pend_add, pend.
    case_decide as Ex; [subst x; rewrite Etr, elem_of_cons; tauto|tauto]. }
  destruct Hs as [E1 _ _ _ _ _ _ E8]. eexists. split; [reflexivity|].
  apply (worked st (count (set_wb s r (wb s r ++ [val])) r c_page_count) r None l); try done.
  - rewrite transit_running, decide_True by done. unfold l. by rewrite app_nil_r.
  - apply (inv_buffered c pl Hc (pend := pend)); try done; [by rewrite E1|]. unfold pend. by rewrite decide_True.
  - intros i Hi'. dsm_get. rewrite E1. apply T3; [done|]. rewrite Etr. by right.
  - intros x i _. dsm_get. apply E1.
  - intros x Hx. dsm_get. rewrite decide_False by done. apply E8.
Qed.

Lemma work_start st r i q : threads_ok st -> node r -> running st r = None -> queue st r = Add i :: q ->
  exists st', work c pl st r = Ok st' /\ threads_ok st'.
Proof using Hc.
  intros Ht Hr Er Eq. pose proof Ht as [T1 T2 T3 T4 T5]. unfold work. rewrite Er, Eq.
  destruct (iv_wb _ _ _ _ T1 r Hr) as [W1 W2].
  assert (Hin : i ∈ transit st r) by (unfold transit; rewrite Eq, !elem_of_app; right; left; by left).
  assert (wb_has (mem st) r i = false) as ->. { apply bool_decide_eq_false. intros H. by apply W2 in H as (_ & _ & ?). }
  eexists. split; [reflexivity|]. apply (handed_over st); try done.
  - intros x. rewrite transit_running. unfold transit, set_queue. cbn [unbuffered queue running]. case_decide as Ex.
    + subst x. rewrite fn_lookup_insert, Eq, Er. cbn. solve_Permutation.
    + by rewrite fn_lookup_insert_ne by done.
  - intros x y Hx. unfold set_running, set_queue. cbn [running]. destruct (decide (x = r)) as [->|Hne].
    + rewrite fn_lookup_insert. intros [= <-]. cbn [ad_left]. pose proof (ck_wb c pl Hc).
      destruct (Z.leb_spec (wb_max_size c) (Z.of_nat (length (wb (mem st) r)))); lia.
    + rewrite fn_lookup_insert_ne by done. by apply T4.
  - intros x y Hx. unfold set_running, set_queue. cbn [queue]. destruct (decide (x = r)) as [->|Hne].
    + rewrite fn_lookup_insert. intros Hy. apply (T5 r); [done|]. rewrite Eq. by right.
    + rewrite fn_lookup_insert_ne by done. by apply T5.
Qed.

Lemma work_ok st r : threads_ok st -> node r -> exists st', work c pl st r = Ok st' /\ threads_ok st'.
Proof using Hc.
  intros Ht Hr. destruct (running st r) as [[val fl left [k|]]|] eqn:Er.
  - by apply (work_write_back st r val fl left k).
  - destruct (Z.le_gt_cases left 0); [by apply (work_finish st r val fl left)|apply (work_pop st r val fl left); try done; lia].
  - destruct (queue st r) as [|[i|i] q] eqn:Eq.
    + exists st. split; [|done]. unfold work. by rewrite Er, Eq.
    + by apply (work_start st r i q).
    + destruct (to_adds st Ht r (Erase i) Hr) as [j ?]; [rewrite Eq; by left|done].
Qed.

Lemma store_ok st r a v : threads_ok st -> enabled st (Store r a v) -> exists st', exec c pl st (Store r a v) = Ok st' /\ threads_ok st'.
Proof using Hc.
  intros [T1 T2 T3 T4 T5] (Hr & Ha & Hw). eexists. split; [reflexivity|]. pose proof (align_page c pl Hc a Ha) as Hp.
  pose proof (align_offset a) as Hj. set (p := page_of a) in *. apply bool_decide_eq_true in Hw. set (s := mem st) in *.
  assert (Hs : exists s', put_byte s r (vmap s r p).1 (a mod PAGE_SIZE) v = s' /\ inv_pend (fun x i => i ∈ transit st x) s' /\
    (forall x i, cc s' x i = cc s x i) /\ forall x, wb s' x = wb s x).
  { destruct (decide (home p = r)) as [Hl|Hl].
    - pose proof (iv_local _ _ _ _ T1 r p Hr Hp Hl) as Hv. unfold local_vm_ok in Hv. rewrite Hw in Hv.
      destruct (has_bit _ r); [|done]. destruct Hv as (-> & _). eexists. split; [reflexivity|]. split; [|done].
      by apply (inv_store_home c pl Hc).
    - destruct (access_holds c pl Hc _ s T1 r p Hr Hp Hl) as [Hh Hv]; [by rewrite Hw|]. rewrite Hv in Hw |- *. cbn [fst snd] in *.
      unfold slot_prot in Hw. rewrite (proj2 Hh) in Hw. destruct (cd_dirty (cc s r (cidx p))) eqn:Hd; [done|].
      eexists. split; [reflexivity|]. split; [|done]. by apply (inv_store_cached c pl Hc). }
  destruct Hs as (s' & -> & Hi & Ecc & Ew). split; cbn [mem set_mem]; try done.
  - intros x i Hx Hin. rewrite Ecc. by apply T3.
  - intros x y Hx Ey. rewrite Ew. by apply (T4 x y Hx).
Qed.

Lemma silent_transit st r : silent c st -> node r -> transit st r = [].
Proof. intros Hs Hr. destruct (Hs r Hr) as [E1 E2]. by rewrite (idle_transit st r E2). Qed.

Lemma sync_ok st o : threads_ok st -> enabled st (Sync o) -> exists st', exec c pl st (Sync o) = Ok st' /\ threads_ok st'.
Proof using Hc.
  intros [T1 T2 T3 T4 T5] (Hs & Hv & Hre).
  assert (Hn : forall x i, node x -> no_pend x i <-> i ∈ transit st x).
  { intros x i Hx. rewrite (silent_transit st x Hs Hx), elem_of_nil. done. }
  assert (Hi : inv c pl (mem st)). { apply (inv_pend_ext (fun x i => i ∈ transit st x)); [|done]. intros x i Hx. by rewrite (Hn x i Hx). }
  destruct (run_op_ok c pl (mem st) o Hc Hi Hv Hre) as (s' & vs & E & Hi'). cbn [exec]. rewrite E. cbn [mbind outcome_bind].
  eexists. split; [reflexivity|]. split; cbn [mem set_mem]; try done.
  - by apply (inv_pend_ext no_pend).
  - intros x i Hx. rewrite transit_set_mem, (silent_transit st x Hs Hx). by intros ?%elem_of_nil.
  - intros x y Hx Ey. destruct (Hs x Hx) as [_ E2]. unfold idle in E2. cbn [running set_mem] in Ey. rewrite Ey in E2. by destruct (queue st x).
Qed.

Lemma exec_ok st e : threads_ok st -> enabled st e -> gentle st e -> exists st', exec c pl st e = Ok st' /\ threads_ok st'.
Proof using Hc.
  intros Ht He Hg. destruct e as [r a miss|r i|r|r a v|o].
  - by apply fault_ok.
  - destruct He. by apply delegate_ok.
  - by apply work_ok.
  - by apply store_ok.
  - by apply sync_ok.
Qed.

(** ** Runs *)
Definition allowed (st st' : threads) : Prop := exists e, enabled st e /\ gentle st e /\ exec c pl st e = Ok st'.
Definition reachable_threads (st : threads) : Prop := rtc allowed start st.

Lemma reachable_ok st : reachable_threads st -> threads_ok st.
Proof using Hc.
  assert (Hgen : forall a b, rtc allowed a b -> threads_ok a -> threads_ok b).
  { induction 1 as [|a b d (e & He & Hg & E) _ IH]; intros Ha; [done|]. apply IH.
    destruct (exec_ok a e Ha He Hg) as (b' & E' & Hb). congruence. }
  intros Hr. apply (Hgen start); [done|apply start_ok].
Qed.

(** ** Handlers finish *)

(** Threads in the handler call [add], and the queue works. *)
Definition finishing (st st' : threads) : Prop :=
  exists r, node r /\ ((exists i, i ∈ unbuffered st r /\ exec c pl st (Delegate r i) = Ok st') \/ exec c pl st (Work r) = Ok st').

Definition add_cost : nat := 2 * Z.to_nat (wb_write_back_size c) + 1.
Definition run_cost (x : option adding) : nat :=
  match x with Some x => 2 * Z.to_nat (ad_left x) + (if ad_popped x is Some _ then 1 else 0) + 1 | None => 0 end.
Definition cost (st : threads) (r : Z) : nat :=
  (length (unbuffered st r) * (add_cost + 2) + length (queue st r) * (add_cost + 1) + run_cost (running st r))%nat.

Lemma cost_same st st' x : unbuffered st' x = unbuffered st x -> queue st' x = queue st x -> running st' x = running st x -> cost st' x = cost st x.
Proof. unfold cost. by intros -> -> ->. Qed.

Lemma work_cost st r st' : work c pl st r = Ok st' -> idle st r = false ->
  (cost st' r < cost st r)%nat /\ forall x, x ≠ r -> cost st' x = cost st x.
Proof.
  unfold work, idle. intros E Hid. assert (Hne : forall x, x ≠ r -> cost st' x = cost st x).
  { intros x Hx. apply cost_same; revert E; repeat case_match; intros E; inv_ok; cbn [unbuffered queue running set_mem set_queue set_running];
      by rewrite ?fn_lookup_insert_ne by done. }
  split; [|done]. clear Hne. unfold cost. destruct (running st r) as [[val fl left popped]|] eqn:Er; cbn [ad_popped ad_left ad_flush ad_val run_cost] in *.
  - destruct popped as [k|]; [|destruct (Z.ltb_spec 0 left) as [Hl|Hl]; [destruct (wb _ _) eqn:Ew; [done|]|]].
    + inv_ok. cbn [unbuffered queue running set_mem set_running]. rewrite fn_lookup_insert. cbn. lia.
    + injection E as <-. cbn [unbuffered queue running set_mem set_running]. rewrite fn_lookup_insert. cbn [run_cost ad_left ad_popped]. lia.
    + injection E as <-. cbn [unbuffered queue running set_mem set_running]. rewrite fn_lookup_insert. cbn [run_cost]. lia.
  - destruct (queue st r) as [|[i|i] q] eqn:Eq; [done|destruct (wb_has _ _ _); [done|]|].
    + injection E as <-. cbn [unbuffered queue running set_queue set_running]. rewrite !fn_lookup_insert. cbn [run_cost ad_left ad_popped].
      unfold add_cost. simpl. destruct (_ <=? _); lia.
    + injection E as <-. cbn [unbuffered queue running set_mem set_queue]. rewrite !fn_lookup_insert, Er. simpl. lia.
Qed.

Lemma remove_first_length i (l : list Z) : i ∈ l -> length l = S (length (remove_first i l)).
Proof. intros Hin. by rewrite (remove_first_perm i l Hin) at 1. Qed.

Lemma finish_step st r : threads_ok st -> node r -> cost st r ≠ 0%nat ->
  exists st', finishing st st' /\ threads_ok st' /\ (cost st' r < cost st r)%nat /\ forall x, x ≠ r -> cost st' x = cost st x.
Proof using Hc.
  intros Ht Hr Hc0. destruct (idle st r) eqn:Hid.
  - destruct (unbuffered st r) as [|i l] eqn:Eu.
    { exfalso. apply Hc0. unfold cost, idle in *. rewrite Eu. by destruct (queue st r), (running st r). }
    assert (Hin : i ∈ unbuffered st r) by (rewrite Eu; by left).
    destruct (delegate_ok st r i Ht Hr Hin) as (st' & E & Ht'). exists st'. split; [exists r; split; [done|]; left; by exists i|].
    split; [done|]. cbn [exec] in E. injection E as <-. split.
    + unfold cost. cbn [unbuffered queue running set_queue set_unbuffered]. rewrite !fn_lookup_insert, length_app.
      rewrite (remove_first_length i _ Hin). simpl. lia.
    + intros x Hx. apply cost_same; cbn [unbuffered queue running set_queue set_unbuffered]; by rewrite ?fn_lookup_insert_ne by done.
  - destruct (work_ok st r Ht Hr) as (st' & E & Ht'). exists st'. split; [exists r; split; [done|]; by right|].
    split; [done|]. by apply work_cost.
Qed.

Lemma finish_node r : node r -> forall n st, threads_ok st -> (cost st r <= n)%nat ->
  exists st', rtc finishing st st' /\ threads_ok st' /\ cost st' r = 0%nat /\ forall x, x ≠ r -> cost st' x = cost st x.
Proof using Hc.
  intros Hr. induction n as [|n IH]; intros st Ht Hn; (destruct (decide (cost st r = 0%nat)) as [E|E]; [by exists st; split_and!; try done; apply rtc_refl|]); [lia|].
  destruct (finish_step st r Ht Hr E) as (s1 & Hf & Ht1 & Hlt & Hx). destruct (IH s1 Ht1) as (s2 & Hs & Ht2 & E2 & Hx2); [lia|].
  exists s2. split; [by apply (rtc_l _ _ s1)|]. split_and!; try done. intros x Hne. by rewrite Hx2, Hx.
Qed.

Lemma finish_all : forall k st, threads_ok st -> Z.of_nat k <= numtasks c ->
  exists st', rtc finishing st st' /\ threads_ok st' /\ forall r, 0 <= r < Z.of_nat k -> cost st' r = 0%nat.
Proof using Hc.
  induction k as [|k IH]; intros st Ht Hk; [exists st; split_and!; [apply rtc_refl|done|lia]|].
  destruct (IH st Ht) as (s1 & H1 & Ht1 & E1); [lia|].
  destruct (finish_node (Z.of_nat k) ltac:(split; lia) _ s1 Ht1 (Nat.le_refl _)) as (s2 & H2 & Ht2 & E2 & Hx).
  exists s2. split; [by etransitivity|]. split; [done|]. intros r Hr. destruct (decide (r = Z.of_nat k)) as [->|Hne]; [done|].
  rewrite Hx by done. apply E1. lia.
Qed.

Lemma cost_silent st r : cost st r = 0%nat -> unbuffered st r = [] /\ idle st r = true.
Proof.
  unfold cost, idle. intros E. destruct (unbuffered st r); [|simpl in E; lia]. split; [done|].
  destruct (queue st r); [|simpl in E; lia]. destruct (running st r) as [x|]; [simpl in E; lia|done].
Qed.

End Proofs.

(** C7: the threads of a node can be in the fault handler at the same time.  Take any
    interleaving of faults, delegated write-buffer requests, stores and synchronisation
    of all nodes in which no fault evicts a modified page while the queue of its node is
    working or while a thread has still to hand that page to the queue (the code does not
    enforce this; [eviction_races_with_buffer] shows that it is needed).  Then no further
    step under this condition fails, the coherence invariant holds with the slots in
    transit to the buffer set apart, and each modified page is in the write buffer or in
    transit to it, exactly once. *)
Theorem threads_in_handler_safe (c : dsm_config) (pl : placement) (PB : plain_bytes) (st : threads) :
  cfg_ok c pl -> reachable_threads c pl (PB := PB) st ->
  (forall e, enabled c (PB := PB) st e -> gentle c pl st e -> exists st', exec c pl st e = Ok st') /\
  inv_pend c pl (fun r i => i ∈ transit st r) (mem st) /\
  (forall r, node c r -> NoDup (wb (mem st) r ++ transit st r)) /\
  (forall r i, node c r -> 0 <= i < cachesize c -> cd_dirty (cc c (mem st) r i) = DIRTY <-> i ∈ wb (mem st) r ++ transit st r).
Proof.
  intros Hc Hr. pose proof (reachable_ok c pl Hc st Hr) as Ht. pose proof Ht as [T1 T2 T3 T4 T5]. split_and!.
  - intros e He Hg. destruct (exec_ok c pl Hc st e Ht He Hg) as (st' & E & _). by exists st'.
  - exact T1.
  - intros r Hn. destruct (iv_wb _ _ _ _ T1 r Hn) as [W1 W2]. apply NoDup_app. split; [done|]. split; [|by apply T2].
    intros i Hi%W2. tauto.
  - intros r i Hn Hi. destruct (iv_wb _ _ _ _ T1 r Hn) as [W1 W2]. rewrite elem_of_app, W2. split.
    + intros Hd. destruct (decide (i ∈ transit st r)); [by right|left; tauto].
    + intros [?|Hin]; [tauto|]. by apply (T3 r i Hn).
Qed.

(** C8: handlers finish.  From every state reached under that condition (no fault evicts a
    modified page while the queue of its node is working or while a thread has still to
    hand that page to the queue) the calls of [add] that are due and the work on the
    queues, and nothing else, lead to a state without either, on all nodes, in which the
    coherence invariant holds. *)
Theorem threads_in_handler_finish (c : dsm_config) (pl : placement) (PB : plain_bytes) (st : threads) :
  cfg_ok c pl -> reachable_threads c pl (PB := PB) st ->
  exists st', rtc (finishing c pl) st st' /\ silent c st' /\ (forall r, node c r -> transit st' r = []) /\ inv c pl (mem st').
Proof.
  intros Hc Hr. pose proof (reachable_ok c pl Hc st Hr) as Ht.
  destruct (finish_all c pl Hc (Z.to_nat (numtasks c)) st Ht) as (st' & Hs & Ht' & E).
  { destruct (ck_space c pl Hc). simpl in *. lia. }
  assert (Hsi : silent c st') by (intros r Hn; apply cost_silent with (c := c), E; lia).
  assert (Htr : forall r, node c r -> transit st' r = []) by (intros r Hn; by apply (silent_transit c)).
  exists st'. split_and!; [done..|]. apply (inv_pend_ext c pl Hc (fun r i => i ∈ transit st' r)); [|apply Ht'].
  intros r i Hn. rewrite (Htr r Hn). split; [by intros ?%elem_of_nil|done].
Qed.

(** ** A small system: two nodes with four pages each, two slots and a buffer of one *)
Definition threads_dsm : dsm_config := {|
  numtasks := 2; cachesize := 2; load_size := 1; mpi_windows := 1;
  size_of_all := 8 * PAGE_SIZE; startAddr := 65536; wb_max_size := 1; wb_write_back_size := 1 |}.
Definition threads_pl : placement := naive_distribution (dist_of threads_dsm).

Lemma threads_cfg_ok : cfg_ok threads_dsm threads_pl.
Proof.
  assert (Hsp : space_ok (dist_of threads_dsm)) by (split; vm_compute; intuition congruence).
  split; [exact Hsp|by vm_compute..| | | |].
  - by exists 8.
  - by exists 4.
  - done.
  - apply naive_laws; [exact Hsp|]. by exists 4.
Qed.

(** Running events with the conditions on each of them evaluated. *)
Definition checked (c : dsm_config) (pl : placement) (st : threads) (e : event) : bool :=
  match e with
  | Fault r a _ => (0 <=? r) && (r <? numtasks c) && (0 <=? a) && (a <? size_of_all c) &&
    match erase_requests c pl (mem st) r a with
    | Ok l => bool_decide (l = []) || (idle st r && forallb (fun i => bool_decide (i ∉ unbuffered st r)) l)
    | _ => true
    end
  | Delegate r i => (0 <=? r) && (r <? numtasks c) && bool_decide (i ∈ unbuffered st r)
  | Work r => (0 <=? r) && (r <? numtasks c)
  | Store r a _ => (0 <=? r) && (r <? numtasks c) && (0 <=? a) && (a <? size_of_all c) && can_write (mem st) r (align_backwards a PAGE_SIZE)
  | Sync _ => false
  end.

Fixpoint checked_all (c : dsm_config) (pl : placement) (st : threads) (l : list event) : option threads :=
  match l with
  | [] => Some st
  | e :: l => if checked c pl st e then match exec c pl st e with Ok st => checked_all c pl st l | _ => None end else None
  end.

Lemma checked_spec c pl PB st e : checked c pl st e = true -> enabled c (PB := PB) st e /\ gentle c pl st e.
Proof.
  destruct e as [r a miss|r i|r|r a v|o]; cbn [checked enabled gentle]; rewrite ?andb_true_iff; unfold SwdsmBase.node; [| | | |done].
  - intros [[[[H1 H2] H3] H4] H5]. split; [lia|]. intros l El. rewrite El in H5. apply orb_true_iff in H5 as [H5%bool_decide_eq_true|H5]; [by left|].
    apply andb_true_iff in H5 as [H5 H6]. right. split; [done|]. intros i Hi. rewrite forallb_forall in H6.
    specialize (H6 i (proj1 (list_elem_of_In _ _) Hi)). by apply bool_decide_eq_true in H6.
  - intros [[H1 H2] H3%bool_decide_eq_true]. split; [split; [lia|done]|done].
  - intros [H1 H2]. split; [lia|done].
  - intros [[[[H1 H2] H3] H4] H5]. split; [|done]. split_and!; try lia. exact H5.
Qed.

Lemma checked_reachable c pl PB l : forall st st', reachable_threads c pl (PB := PB) st -> checked_all c pl st l = Some st' ->
  reachable_threads c pl (PB := PB) st'.
Proof.
  induction l as [|e l IH]; intros st st' Hr E; simpl in E; [by injection E as <-|].
  destruct (checked c pl st e) eqn:Ec; [|done]. destruct (exec c pl st e) as [st1| |] eqn:E1; [|done..].
  apply (IH st1); [|done]. eapply rtc_r; [exact Hr|]. exists e. destruct (checked_spec c pl PB st e Ec) as [H1 H2]. by split_and!.
Qed.

(** Two threads of node 0 store to different pages of node 1; the second [add] finds the
    buffer full and has popped the first page. *)
Definition two_stores : list event :=
  [Fault 0 (4 * PAGE_SIZE) access_write; Fault 0 (5 * PAGE_SIZE) access_write; Store 0 (4 * PAGE_SIZE + 1) 7;
   Delegate 0 0; Work 0; Work 0; Delegate 0 1; Work 0; Work 0].

Definition two_stores_end : threads := default start (checked_all threads_dsm threads_pl start two_stores).

Lemma two_stores_reachable PB : reachable_threads threads_dsm threads_pl (PB := PB) two_stores_end.
Proof.
  unfold two_stores_end. destruct (checked_all threads_dsm threads_pl start two_stores) as [st|] eqn:E; [|apply rtc_refl].
  apply (checked_reachable _ _ PB two_stores start); [apply rtc_refl|exact E].
Qed.

Lemma two_stores_transit : wb (mem two_stores_end) 0 = [] /\ transit two_stores_end 0 = [1; 0].
Proof. split; vm_compute; reflexivity. Qed.

Lemma threads_in_handler_safe_witness :
  transit two_stores_end 0 = [1; 0] /\
  exists st', exec threads_dsm threads_pl two_stores_end (Work 0) = Ok st'.
Proof.
  split; [apply two_stores_transit|].
  refine (proj1 (threads_in_handler_safe threads_dsm threads_pl (fun _ _ => True) two_stores_end threads_cfg_ok (two_stores_reachable _)) (Work 0) _ I).
  split; [lia|done].
Defined.

Lemma threads_in_handler_finish_witness :
  exists st', rtc (finishing threads_dsm threads_pl) two_stores_end st' /\ silent threads_dsm st' /\
    forall r, node threads_dsm r -> transit st' r = [].
Proof.
  destruct (threads_in_handler_finish threads_dsm threads_pl (fun _ _ => True) two_stores_end threads_cfg_ok (two_stores_reachable _)) as (st' & H1 & H2 & H3 & _).
  exists st'. split; [exact H1|]. split; [exact H2|exact H3].
Defined.

(** The condition is needed: the code does not enforce it.  Evicting a modified page whose
    thread has released the cache lock but not yet called [add] leaves the slot of a
    clean page in the buffer, and the next release fails its assertion; evicting
    a page that the queue has popped and not yet locked makes the write-back fail it. *)
Theorem eviction_races_with_buffer :
  (st ← exec_all threads_dsm threads_pl start
     [Fault 0 (4 * PAGE_SIZE) access_write; Fault 0 (6 * PAGE_SIZE) access_read; Delegate 0 0; Work 0; Work 0];
   exec threads_dsm threads_pl st (Sync (0, op_release))) = Throw (assertion_failed "cacheControl[cache_index].dirty == DIRTY") /\
  exec_all threads_dsm threads_pl start
     [Fault 0 (4 * PAGE_SIZE) access_write; Delegate 0 0; Work 0; Work 0;
      Fault 0 (5 * PAGE_SIZE) access_write; Delegate 0 1; Work 0; Work 0; Fault 0 (6 * PAGE_SIZE) access_read; Work 0]
   = Throw (assertion_failed "cacheControl[cache_index].dirty == DIRTY").
Proof. split; vm_compute; reflexivity. Qed.
