(* ===== verification/Mempool.v ===== *)
(** * Memory pools

    [src/src/mempools]: a pool hands out consecutive pieces of one chunk of
    memory.  The heap pool and the pool over the global memory have one chunk for
    good; the dynamic pool replaces its chunk by one from an allocator when asked
    to grow.  An operation that throws still leaves its effects behind, so every
    operation returns an outcome and a state. *)

From S2P Require Import Prelude.

Definition nullptr : Z := 0.
(** [alignof(std::max_align_t)] and [PAGE_SIZE], the default chunk size. *)
Definition max_align : Z := 16.
Definition chunk_size : Z := 4096.

(** ** The interface allocators use *)
Record pool (S : Type) := Pool {
  p_reserve : S -> Z -> outcome Z * S;
  p_grow : S -> Z -> outcome unit * S;
  p_available : S -> Z;
}.
Arguments Pool {S}.
Arguments p_reserve {S}.
Arguments p_grow {S}.
Arguments p_available {S}.

(** ** The heap pool and the global pool *)
Record chunk := Chunk { memory : Z; max_size : Z; offset : Z }.

Definition memory_pool (mem size : Z) : chunk := {| memory := mem; max_size := size; offset := 0 |}.

Definition reserve (s : chunk) (size : Z) : outcome Z * chunk :=
  if max_size s <? add64 (offset s) size then (Throw bad_alloc, s)
  else (Ok (memory s + offset s),
        {| memory := memory s; max_size := max_size s; offset := add64 (offset s) size |}).

Definition grow (s : chunk) (size : Z) : outcome unit * chunk := (Throw bad_alloc, s).

Definition available (s : chunk) : Z := sub64 (max_size s) (offset s).

Definition dummy_pool : pool chunk :=
  {| p_reserve := reserve; p_grow := grow; p_available := available |}.

(** The pool over the global address space: its offset is a [ptrdiff_t] at the
    start of the last page, which is reserved for internal use. *)
Definition reserved : Z := 4096.

Definition s64 (x : Z) : Z := let y := u64 x in if y <? 2 ^ 63 then y else y - 2 ^ 64.

Definition global_memory_pool (global_base global_size : Z) : chunk :=
  {| memory := global_base; max_size := sub64 global_size reserved; offset := 0 |}.

(** [reset], of the node that keeps the offset. *)
Definition global_reset (s : chunk) (global_base global_size : Z) : chunk :=
  {| memory := global_base; max_size := sub64 global_size reserved; offset := 0 |}.

Definition global_reserve (s : chunk) (size : Z) : outcome Z * chunk :=
  if max_size s <? add64 (u64 (offset s)) size then (Throw bad_alloc, s)
  else (Ok (memory s + offset s),
        {| memory := memory s; max_size := max_size s; offset := s64 (add64 (u64 (offset s)) size) |}).

Definition global_available (s : chunk) : Z := sub64 (max_size s) (u64 (offset s)).

Definition global_pool : pool chunk :=
  {| p_reserve := global_reserve; p_grow := grow; p_available := global_available |}.

(** ** The dynamic pool *)

(** The state of the allocator the pool grows from is kept beside the chunk. *)
Record dynamic (A : Type) := Dynamic { dy_chunk : chunk; dy_allocator : A }.
Arguments Dynamic {A}.
Arguments dy_chunk {A}.
Arguments dy_allocator {A}.

Section Dynamic.

Context {A : Type} (allocate : A -> Z -> outcome Z * A).

Definition dynamic_memory_pool (a : A) : dynamic A :=
  {| dy_chunk := {| memory := nullptr; max_size := 0; offset := 0 |}; dy_allocator := a |}.

Definition dynamic_reserve (s : dynamic A) (size : Z) : outcome Z * dynamic A :=
  let '(r, c) := reserve (dy_chunk s) size in (r, {| dy_chunk := c; dy_allocator := dy_allocator s |}).

Definition dynamic_available (s : dynamic A) : Z := available (dy_chunk s).

(** How much a request for [size] makes the pool ask for. *)
Definition grow_size (size : Z) : Z :=
  let size := if size =? 0 then 1 else size in
  mul64 (sub64 (add64 size chunk_size) 1 / chunk_size) chunk_size.

(** The part of [grow] before the synchronisation: the new limits are set before
    the allocation is tried, and a failed one leaves a null chunk. *)
Definition grow_local (do_grow : bool) (s : dynamic A) (size : Z) : outcome unit * dynamic A :=
  let alloc_size := grow_size size in
  let c m := {| memory := m; max_size := alloc_size; offset := 0 |} in
  if do_grow then
    let '(r, a) := allocate (dy_allocator s) alloc_size in
    match r with
    | Ok m => (Ok tt, {| dy_chunk := c m; dy_allocator := a |})
    | Throw bad_alloc => (Ok tt, {| dy_chunk := c nullptr; dy_allocator := a |})
    | Throw e => (Throw e, {| dy_chunk := c (memory (dy_chunk s)); dy_allocator := a |})
    | Hang => (Hang, {| dy_chunk := c (memory (dy_chunk s)); dy_allocator := a |})
    end
  else (Ok tt, {| dy_chunk := c (memory (dy_chunk s)); dy_allocator := dy_allocator s |}).

(** [growth_mode = ALWAYS]: [synchronize] only checks the pointer. *)
Definition grow_always (s : dynamic A) (size : Z) : outcome unit * dynamic A :=
  let '(r, s) := grow_local true s size in
  match r with
  | Ok _ => if memory (dy_chunk s) =? nullptr then (Throw bad_alloc, s) else (Ok tt, s)
  | r => (r, s)
  end.

Definition dynamic_pool : pool (dynamic A) :=
  {| p_reserve := dynamic_reserve; p_grow := grow_always; p_available := dynamic_available |}.

(** [growth_mode = NODE_ZERO_ONLY]: node 0 allocates and broadcasts its chunk. *)
Definition set_chunk (s : dynamic A) (m : Z) : dynamic A :=
  {| dy_chunk := {| memory := m; max_size := max_size (dy_chunk s); offset := offset (dy_chunk s) |};
     dy_allocator := dy_allocator s |}.

Definition grow_node_zero_only (node_id broadcast : Z) (s : dynamic A) (size : Z) :
    outcome unit * dynamic A :=
  let '(r, s) := grow_local (node_id =? 0) s size in
  match r with
  | Ok _ =>
    let memory_ptr := if node_id =? 0 then memory (dy_chunk s) else broadcast in
    if memory_ptr =? nullptr then (Throw bad_alloc, s) else (Ok tt, set_chunk s memory_ptr)
  | r => (r, s)
  end.

Definition collective_pool (node_id broadcast : Z) : pool (dynamic A) :=
  {| p_reserve := dynamic_reserve; p_grow := grow_node_zero_only node_id broadcast;
     p_available := dynamic_available |}.

End Dynamic.

(** ** What a pool promises an allocator

    [handed s bl]: the blocks [bl] (address, size) have been handed out, all from
    the region from [lo] to [hi], and the pool will not hand out any of their bytes
    again.  Requests must be below [lim]. *)
Definition block : Type := Z * Z.
Definition disjoint_blocks (b b' : block) : Prop :=
  forall a, ~ (fst b <= a < fst b + snd b /\ fst b' <= a < fst b' + snd b').
Definition inside (b b' : block) : Prop :=
  fst b' <= fst b /\ 0 <= snd b /\ fst b + snd b <= fst b' + snd b'.

Definition request_ok (lim n : Z) : Prop := 0 <= n < lim /\ (max_align | n).

Class PoolLaws {S} (P : pool S) (lim : Z) (region : block) (handed : S -> list block -> Prop) : Prop := {
  pool_lim : 2 ^ 62 <= lim < 2 ^ 64 - 2 ^ 20;
  pool_perm s bl bl' : handed s bl -> bl ≡ₚ bl' -> handed s bl';
  pool_region s bl : handed s bl -> Forall (fun b => inside b region) bl;
  pool_reserve s bl n p s' : handed s bl -> request_ok lim n -> 0 < n -> p_reserve P s n = (Ok p, s') ->
    (max_align | p) /\ n < 2 ^ 62 /\ Forall (disjoint_blocks (p, n)) bl /\ handed s' ((p, n) :: bl);
  pool_refuse s bl n s' : handed s bl -> request_ok lim n -> p_reserve P s n = (Throw bad_alloc, s') ->
    handed s' bl;
  pool_available s bl : handed s bl -> request_ok (2 ^ 62) (p_available P s);
  pool_grow s bl n s' : handed s bl -> request_ok lim n -> p_grow P s n = (Ok tt, s') -> handed s' bl;
}.

(** A pool whose refusal to grow changes nothing it handed out. *)
Class SteadyPool {S} (P : pool S) (handed : S -> list block -> Prop) : Prop :=
  pool_no_grow s bl n s' : handed s bl -> p_grow P s n = (Throw bad_alloc, s') -> handed s' bl.

Lemma disjoint_sym b b' : disjoint_blocks b b' -> disjoint_blocks b' b.
Proof. intros H a [H1 H2]. by apply (H a). Qed.

Lemma disjoint_inside b b' c c' : inside b c -> inside b' c' -> disjoint_blocks c c' -> disjoint_blocks b b'.
Proof. intros [A1 A2] [B1 B2] H a Ha. apply (H a). lia. Qed.

Lemma inside_trans b c d : inside b c -> inside c d -> inside b d.
Proof. unfold inside. lia. Qed.

(** Pairwise disjoint blocks. *)
Fixpoint apart (bl : list block) : Prop :=
  match bl with
  | [] => True
  | b :: bl => Forall (disjoint_blocks b) bl /\ apart bl
  end.

Lemma apart_perm bl bl' : bl ≡ₚ bl' -> apart bl -> apart bl'.
Proof.
  induction 1 as [|b bl bl' Hp IH|b b' bl|bl1 bl2 bl3 _ IH1 _ IH2]; simpl; auto.
  - intros [H1 H2]. split; [by rewrite <- Hp|auto].
  - intros [H1 [H2 H3]]. apply Forall_cons in H1 as [H0 H1]. split_and!; auto.
    apply Forall_cons. split; [by apply disjoint_sym|done].
Qed.

(** ** A single chunk keeps the contract *)
Record chunk_ok (region : block) (s : chunk) (bl : list block) : Prop := {
  pk_memory : memory s = fst region /\ max_size s = snd region;
  pk_align : 0 <= fst region /\ (max_align | fst region);
  pk_size : 0 <= snd region < 2 ^ 62 /\ (max_align | snd region);
  pk_offset : 0 <= offset s <= max_size s /\ (max_align | offset s);
  pk_below : Forall (fun b => inside b (memory s, offset s)) bl;
}.

Section Chunk.

Context (region : block).

Lemma chunk_reserve s bl n :
  chunk_ok region s bl -> request_ok (2 ^ 63) n ->
  reserve s n =
    if max_size s <? offset s + n then (Throw bad_alloc, s)
    else (Ok (memory s + offset s), {| memory := memory s; max_size := max_size s; offset := offset s + n |}).
Proof.
  intros [[_ E] _ [H1 _] [H2 _] _] [Hn _]. unfold reserve. by rewrite !add64_small by lia.
Qed.

Lemma chunk_reserved s bl n :
  chunk_ok region s bl -> request_ok (2 ^ 63) n -> offset s + n <= max_size s ->
  (max_align | memory s + offset s) /\ n < 2 ^ 62 /\ Forall (disjoint_blocks (memory s + offset s, n)) bl /\
  chunk_ok region {| memory := memory s; max_size := max_size s; offset := offset s + n |} ((memory s + offset s, n) :: bl).
Proof.
  intros [[M1 M2] [A1 A2] [S1 S2] [O1 O2] B] [Hn Ha] Hle.
  split; [rewrite M1; by apply Z.divide_add_r|]. split; [lia|]. split.
  - eapply Forall_impl; [exact B|]. intros [p k] H a Hin. unfold inside in H. simpl in *. lia.
  - split; simpl; [done|done|done|split; [lia|by apply Z.divide_add_r]|]. apply Forall_cons. split.
    + unfold inside. simpl. lia.
    + eapply Forall_impl; [exact B|]. intros [p k] H. unfold inside in *. simpl in *. lia.
Qed.

Lemma chunk_available s bl :
  chunk_ok region s bl -> request_ok (2 ^ 62) (available s) /\ available s = max_size s - offset s.
Proof.
  intros [[_ E] _ [S1 S2] [O1 O2] _]. unfold available. rewrite sub64_small by lia.
  split; [|done]. split; [lia|]. apply Z.divide_sub_r; [by rewrite E|done].
Qed.

#[export] Instance dummy_pool_laws : PoolLaws dummy_pool (2 ^ 63) region (chunk_ok region).
Proof.
  split; simpl.
  - lia.
  - intros s bl bl' [H1 H2 H3 H4 H5] Hp. split; try done. by rewrite <- Hp.
  - intros s bl [[H1 H2] _ H3 [H4 _] H5]. eapply Forall_impl; [exact H5|]. intros b Hb.
    unfold inside in *. simpl in *. lia.
  - intros s bl n p s' Hs Hn _. rewrite (chunk_reserve s bl) by done.
    destruct (Z.ltb_spec (max_size s) (offset s + n)); [done|]. intros [= <- <-]. by apply chunk_reserved.
  - intros s bl n s' Hs Hn. rewrite (chunk_reserve s bl) by done. destruct (_ <? _); [|done]. by intros [= <-].
  - intros s bl Hs. by apply (chunk_available s bl).
  - intros s bl n s' _ _. unfold grow. done.
Qed.

#[export] Instance dummy_pool_steady : SteadyPool dummy_pool (chunk_ok region).
Proof. intros s bl n s' H. unfold dummy_pool, grow. simpl. by intros [= <-]. Qed.
#[export] Instance global_pool_steady : SteadyPool global_pool (chunk_ok region).
Proof. intros s bl n s' H. unfold global_pool, grow. simpl. by intros [= <-]. Qed.

(** On sizes below 2^62 the signed offset is the unsigned one. *)
Lemma global_reserve_eq s bl n : chunk_ok region s bl -> request_ok (2 ^ 63) n -> global_reserve s n = reserve s n.
Proof.
  intros Hs Hn. rewrite (chunk_reserve s bl) by done. destruct Hs as [[_ E] _ [H1 _] [H2 _] _], Hn as [Hn _].
  unfold global_reserve, s64. rewrite !(u64_small (offset s)), add64_small by lia.
  destruct (Z.ltb_spec (max_size s) (offset s + n)); [done|].
  rewrite u64_small by lia. by destruct (Z.ltb_spec (offset s + n) (2 ^ 63)); [|lia].
Qed.

#[export] Instance global_pool_laws : PoolLaws global_pool (2 ^ 63) region (chunk_ok region).
Proof.
  destruct dummy_pool_laws as [L1 L2 L3 L4 L5 L6 L7]. split; try done; simpl.
  - intros s bl n p s' Hs Hn Hpos. rewrite (global_reserve_eq s bl) by done. by apply L4.
  - intros s bl n s' Hs Hn. rewrite (global_reserve_eq s bl) by done. by apply L5.
  - intros s bl Hs. unfold global_available. rewrite u64_small by (destruct Hs as [[_ E] _ ? [? _] _]; lia).
    by apply (chunk_available s bl).
Qed.

End Chunk.
