(* ===== verification/Alloc.v ===== *)
(** * The generic allocator

    [src/src/allocators/generic_allocator.hpp]: free lists by size in front of a
    memory pool, and the table of the sizes of all allocations.  The global, the
    dynamic and the collective allocators are instances with different pools. *)

From S2P Require Import Prelude Mempool.

(** ** State and operations *)
Record galloc (S : Type) := GAlloc {
  mempool : S;
  allocation_size : gmap Z Z;
  freelist : gmap Z (list Z);
}.
Arguments GAlloc {S}.
Arguments mempool {S}.
Arguments allocation_size {S}.
Arguments freelist {S}.

Definition align_up (num alignment : Z) : Z :=
  mul64 (sub64 (add64 num alignment) 1 / alignment) alignment.

Section Generic.

Context {S : Type} (P : pool S) (sizeof_T : Z).

Definition generic_allocator (mp : S) : galloc S :=
  {| mempool := mp; allocation_size := ∅; freelist := ∅ |}.

Definition set_pool (s : galloc S) (mp : S) : galloc S :=
  {| mempool := mp; allocation_size := allocation_size s; freelist := freelist s |}.
Definition set_mempool : galloc S -> S -> galloc S := set_pool.

(** [std::map::insert] keeps an entry that is already there. *)
Definition record_size (s : galloc S) (p n : Z) : galloc S :=
  {| mempool := mempool s;
     allocation_size := match allocation_size s !! p with
                        | Some _ => allocation_size s
                        | None => <[p := n]> (allocation_size s)
                        end;
     freelist := freelist s |}.

Definition deallocate_nosync (s : galloc S) (p size : Z) : galloc S :=
  {| mempool := mempool s; allocation_size := allocation_size s;
     freelist := <[size := p :: default [] (freelist s !! size)]> (freelist s) |}.

Definition aligned_alloc_size (n : Z) : Z := align_up (mul64 n sizeof_T) max_align.
Definition aligned_n (n : Z) : Z := aligned_alloc_size n / sizeof_T.

(** After a refused request: the rest of the chunk goes to the free list. *)
Definition keep_remainder (s : galloc S) (n : Z) : outcome unit * galloc S :=
  let avail := p_available P (mempool s) in
  if 0 <? avail then
    let '(r, mp) := p_reserve P (mempool s) avail in
    match r with
    | Ok q => (Ok tt, record_size (deallocate_nosync (set_pool s mp) q avail) q n)
    | Throw e => (Throw e, set_pool s mp)
    | Hang => (Hang, set_pool s mp)
    end
  else (Ok tt, s).

Definition grow_and_reserve (s : galloc S) (size n : Z) : outcome Z * galloc S :=
  let '(g, mp) := p_grow P (mempool s) size in
  let s := set_pool s mp in
  match g with
  | Ok _ =>
    let '(r, mp) := p_reserve P (mempool s) size in
    let s := set_pool s mp in
    match r with
    | Ok p => (Ok p, record_size s p n)
    | Throw e => (Throw e, s)
    | Hang => (Hang, s)
    end
  | Throw e => (Throw e, s)
  | Hang => (Hang, s)
  end.

Definition allocate (s : galloc S) (n : Z) : outcome Z * galloc S :=
  let size := aligned_alloc_size n in
  let n := aligned_n n in
  match freelist s !! n with
  | Some (p :: l) =>
    (Ok p, {| mempool := mempool s; allocation_size := allocation_size s;
              freelist := <[n := l]> (freelist s) |})
  | _ =>
    let '(r, mp) := p_reserve P (mempool s) size in
    let s := set_pool s mp in
    match r with
    | Ok p => (Ok p, record_size s p n)
    | Throw bad_alloc =>
      let '(k, s) := keep_remainder s n in
      match k with
      | Ok _ => grow_and_reserve s size n
      | Throw e => (Throw e, s)
      | Hang => (Hang, s)
      end
    | Throw e => (Throw e, s)
    | Hang => (Hang, s)
    end
  end.

(** [operator[]] of the size table inserts 0 for an unknown pointer. *)
Definition free (s : galloc S) (p : Z) : galloc S :=
  let s := record_size s p 0 in
  deallocate_nosync s p (default 0 (allocation_size s !! p)).

Definition deallocate (s : galloc S) (p n : Z) : galloc S := deallocate_nosync s p (aligned_n n).

Definition allocated_space (s : galloc S) (p : Z) : outcome Z :=
  match allocation_size s !! p with Some n => Ok n | None => Throw out_of_range end.

(** The remainder block a call to [allocate] sets aside, if any. *)
Definition remainder_of (s : galloc S) (n : Z) : option Z :=
  match freelist s !! aligned_n n with
  | Some (_ :: _) => None
  | _ =>
    match p_reserve P (mempool s) (aligned_alloc_size n) with
    | (Throw bad_alloc, mp) =>
      if 0 <? p_available P mp
      then match p_reserve P mp (p_available P mp) with (Ok q, _) => Some q | _ => None end
      else None
    | _ => None
    end
  end.

End Generic.

(** ** The allocators of the library: bytes *)
Definition global_alloc : galloc chunk -> Z -> outcome Z * galloc chunk := allocate global_pool 1.
Definition dynamic_state : Type := galloc (dynamic (galloc chunk)).
Definition default_dynamic_pool : pool (dynamic (galloc chunk)) := dynamic_pool global_alloc.
Definition dynamic_allocate : dynamic_state -> Z -> outcome Z * dynamic_state :=
  allocate default_dynamic_pool 1.

(** The allocators after [reset_allocators]. *)
Definition dynamic_init (global_base global_size : Z) : dynamic_state :=
  generic_allocator (dynamic_memory_pool (generic_allocator (global_memory_pool global_base global_size))).

(** ** The contract *)
Lemma align_up_spec n : 0 <= n < 2 ^ 64 - 2 ^ 20 ->
  n <= align_up n max_align < n + max_align /\ (max_align | align_up n max_align).
Proof.
  intros Hn. unfold align_up, max_align. rewrite add64_small, sub64_small by lia.
  pose proof (Z.div_mod (n + 16 - 1) 16 ltac:(done)) as E. pose proof (Z.mod_pos_bound (n + 16 - 1) 16 ltac:(done)).
  rewrite mul64_small by lia. split; [lia|]. by exists ((n + 16 - 1) / 16).
Qed.

(** The blocks of one free list. *)
Definition of_size (k : Z) (bl : list block) : list Z := fst <$> filter (fun b => snd b = k) bl.

Lemma of_size_cons k b bl : of_size k (b :: bl) = if decide (snd b = k) then fst b :: of_size k bl else of_size k bl.
Proof. unfold of_size. rewrite filter_cons. by case_decide. Qed.

(** Taking the top of a free list. *)
Lemma of_size_pop k p l bl : of_size k bl = p :: l ->
  exists bl', bl ≡ₚ (p, k) :: bl' /\ forall k', of_size k' bl' = if decide (k' = k) then l else of_size k' bl.
Proof.
  induction bl as [|[q n] bl IH]; [done|]. rewrite of_size_cons. simpl. case_decide as E.
  - subst n. intros [= -> El]. exists bl. split; [done|]. intros k'. rewrite of_size_cons. simpl.
    repeat case_decide; subst; done.
  - intros H. destruct (IH H) as (bl' & Hp & Hk). exists ((q, n) :: bl'). split.
    + rewrite Hp. apply Permutation_swap.
    + intros k'. rewrite !of_size_cons. simpl. rewrite Hk. repeat case_decide; subst; done.
Qed.

Section Contract.

Context {S : Type} (P : pool S) (lim : Z) (region : block) (handed : S -> list block -> Prop).
Context `{!PoolLaws P lim region handed}.

(** [live] are the blocks the program holds, [idle] those in the free lists,
    [rem] the remainders set aside so far. *)
Record alloc_inv (s : galloc S) (live idle : list block) (rem : list Z) : Prop := {
  ai_handed : handed (mempool s) (live ++ idle);
  ai_apart : apart (live ++ idle);
  ai_blocks : Forall (fun b => (max_align | fst b) /\ 0 < snd b < 2 ^ 62 /\ (max_align | snd b)) (live ++ idle);
  ai_free k : default [] (freelist s !! k) = of_size k idle;
  ai_sized p n : (p, n) ∈ live ++ idle -> p ∉ rem -> allocation_size s !! p = Some n;
  ai_known p : is_Some (allocation_size s !! p) -> p ∈ (live ++ idle).*1;
}.
Definition alloc_ok (s : galloc S) (live : list block) (rem : list Z) : Prop :=
  exists idle, alloc_inv s live idle rem.

Lemma alloc_init mp : handed mp [] -> alloc_ok (generic_allocator mp) [] [].
Proof using.
  intros H. exists []. split; simpl; try done.
  - intros p n Hp. by apply elem_of_nil in Hp.
  - intros p [n Hn]. by rewrite lookup_empty in Hn.
Qed.

(** A block that overlaps no other has an address of its own. *)
Lemma fresh_address p n bl :
  0 < n -> Forall (disjoint_blocks (p, n)) bl ->
  Forall (fun b => (max_align | fst b) /\ 0 < snd b < 2 ^ 62 /\ (max_align | snd b)) bl -> p ∉ bl.*1.
Proof using.
  intros Hn Hd Hb Hin. apply list_elem_of_fmap in Hin as ([q k] & E & Hin). simpl in E. subst q.
  rewrite Forall_forall in Hd, Hb. destruct (Hb _ Hin) as (_ & Hk & _). apply (Hd _ Hin p). simpl in *. lia.
Qed.

(** Adding a block the pool has just handed out, as a live or an idle one. *)
Lemma inv_carve s mp live idle rem p n size new :
  alloc_inv s live idle rem -> p_reserve P (mempool s) n = (Ok p, mp) -> request_ok lim n -> 0 < n ->
  (size = n \/ new = true) ->
  let s' := record_size (set_pool s mp) p size in
  let rem' := match new with true => p :: rem | false => rem end in
  handed mp ((p, n) :: live ++ idle) /\ apart ((p, n) :: live ++ idle) /\
  (max_align | p) /\ n < 2 ^ 62 /\ (p ∉ (live ++ idle).*1) /\
  (forall q k, (q, k) ∈ (p, n) :: live ++ idle -> q ∉ rem' -> allocation_size s' !! q = Some k) /\
  (forall q, is_Some (allocation_size s' !! q) -> q ∈ ((p, n) :: live ++ idle).*1).
Proof using PoolLaws0.
  intros [A1 A2 A3 A4 A5 A6] E Hn Hpos Hsz s' rem'.
  destruct (pool_reserve _ _ _ _ _ A1 Hn Hpos E) as (Hal & Hlt & Hd & Hh).
  pose proof (fresh_address p n _ Hpos Hd A3) as Hnew.
  assert (Enone : allocation_size s !! p = None).
  { destruct (allocation_size s !! p) eqn:Ep; [|done]. exfalso. apply Hnew, A6. by rewrite Ep. }
  assert (Es : allocation_size s' = <[p := size]> (allocation_size s)).
  { unfold s', record_size, set_pool. simpl. by rewrite Enone. }
  split_and!; try done.
  - intros q k Hin Hq. rewrite Es. apply elem_of_cons in Hin as [[= -> ->]|Hin].
    + destruct Hsz as [->|Ht]; [by rewrite lookup_insert_eq|]. unfold rem' in Hq. rewrite Ht in Hq.
      exfalso. apply Hq. by left.
    + rewrite lookup_insert_ne.
      * apply A5; [done|]. unfold rem' in Hq. destruct new; [|done]. intros H. apply Hq. by right.
      * intros <-. apply Hnew. apply list_elem_of_fmap. by exists (p, k).
  - intros q Hq. simpl. rewrite Es in Hq. destruct (decide (q = p)) as [->|Hne]; [by left|].
    rewrite lookup_insert_ne in Hq by done. right. auto.
Qed.

Lemma inv_live s mp live idle rem p n :
  alloc_inv s live idle rem -> p_reserve P (mempool s) n = (Ok p, mp) -> request_ok lim n -> 0 < n ->
  alloc_inv (record_size (set_pool s mp) p n) ((p, n) :: live) idle rem /\ (max_align | p) /\
  Forall (disjoint_blocks (p, n)) live.
Proof using PoolLaws0.
  intros Hi E Hn Hpos.
  destruct (inv_carve s mp live idle rem p n n false Hi E Hn Hpos) as (H1 & H2 & H3 & H4 & H5 & H6 & H7); [by left|].
  destruct Hi as [_ _ A3 A4 _ _]. split; [split; try done|].
  - simpl. apply Forall_cons. split; [|done]. split_and!; try done. apply Hn.
  - split; [done|]. destruct H2 as [H2 _]. by apply Forall_app in H2 as [? _].
Qed.

Lemma inv_remainder s mp live idle rem p n size :
  alloc_inv s live idle rem -> p_reserve P (mempool s) n = (Ok p, mp) -> request_ok lim n -> 0 < n ->
  alloc_inv (record_size (deallocate_nosync (set_pool s mp) p n) p size) live ((p, n) :: idle) (p :: rem).
Proof using PoolLaws0.
  intros Hi E Hn Hpos.
  destruct (inv_carve s mp live idle rem p n size true Hi E Hn Hpos) as (H1 & H2 & H3 & H4 & H5 & H6 & H7); [by right|].
  assert (Hp : live ++ (p, n) :: idle ≡ₚ (p, n) :: live ++ idle) by (symmetry; apply Permutation_middle).
  destruct Hi as [_ _ A3 A4 _ _]. split.
  - by apply (pool_perm _ _ _ H1).
  - by apply (apart_perm _ _ (symmetry Hp)).
  - rewrite Hp. apply Forall_cons. split; [|done]. split_and!; try done. apply Hn.
  - intros k. simpl. rewrite of_size_cons. simpl. destruct (decide (n = k)) as [->|Hne].
    + by rewrite lookup_insert_eq, A4.
    + by rewrite lookup_insert_ne, A4.
  - intros q k. rewrite Hp. apply H6.
  - intros q Hq. rewrite Hp. by apply H7.
Qed.

Lemma inv_pool s mp live idle rem :
  alloc_inv s live idle rem -> handed mp (live ++ idle) -> alloc_inv (set_pool s mp) live idle rem.
Proof using. intros [A1 A2 A3 A4 A5 A6] H. by split. Qed.

(** The remainder, if any, becomes an idle block. *)
Lemma keep_remainder_ok s live idle rem n s' :
  alloc_inv s live idle rem -> keep_remainder P s n = (Ok tt, s') ->
  exists idle', alloc_inv s' live idle'
    (option_list (if 0 <? p_available P (mempool s)
                  then match p_reserve P (mempool s) (p_available P (mempool s)) with (Ok q, _) => Some q | _ => None end
                  else None) ++ rem).
Proof using PoolLaws0.
  intros Hi. unfold keep_remainder.
  pose proof (pool_available _ _ (ai_handed _ _ _ _ Hi)) as Hav. pose proof pool_lim as Hlim.
  destruct (Z.ltb_spec 0 (p_available P (mempool s))) as [Hpos|_].
  - destruct (p_reserve P (mempool s) (p_available P (mempool s))) as [[q| |] mp] eqn:E; [|done..].
    intros [= <-]. exists ((q, p_available P (mempool s)) :: idle). simpl.
    apply inv_remainder; try done. destruct Hav. split; [lia|done].
  - intros [= <-]. by exists idle.
Qed.

Lemma aligned_request n : 0 < n <= lim - max_align ->
  let size := aligned_alloc_size 1 n in
  request_ok lim size /\ n <= size /\ aligned_n 1 n = size.
Proof using PoolLaws0.
  intros Hn size. pose proof pool_lim as Hlim.
  assert (Hm : max_align = 16) by done.
  assert (E : size = align_up n max_align).
  { unfold size, aligned_alloc_size. by rewrite mul64_small, Z.mul_1_r by lia. }
  destruct (align_up_spec n) as [H1 H2]; [lia|]. unfold aligned_n. fold size. rewrite Z.div_1_r, E.
  split_and!; try done; [|lia]. split; [lia|done].
Qed.

(** Growing and carving out the block. *)
Lemma grow_ok s live idle rem n p s' :
  alloc_inv s live idle rem -> request_ok lim n -> 0 < n -> grow_and_reserve P s n n = (Ok p, s') ->
  alloc_inv s' ((p, n) :: live) idle rem /\ (max_align | p) /\ Forall (disjoint_blocks (p, n)) live.
Proof using PoolLaws0.
  intros Hi Hn Hpos. unfold grow_and_reserve.
  destruct (p_grow P (mempool s) n) as [[[]| |] mp] eqn:Eg; [|done..].
  pose proof (inv_pool s mp _ _ _ Hi (pool_grow _ _ _ _ (ai_handed _ _ _ _ Hi) Hn Eg)) as Hi1.
  destruct (p_reserve P (mempool (set_pool s mp)) n) as [[q| |] mp'] eqn:Er; [|done..].
  intros [= <- <-]. by apply inv_live.
Qed.

(** Taking a block from a free list. *)
Lemma reuse_ok s live idle rem n p l :
  alloc_inv s live idle rem -> of_size n idle = p :: l -> default [] (freelist s !! n) = p :: l ->
  alloc_ok {| mempool := mempool s; allocation_size := allocation_size s; freelist := <[n := l]> (freelist s) |}
    ((p, n) :: live) rem /\ (max_align | p) /\ Forall (disjoint_blocks (p, n)) live.
Proof using PoolLaws0.
  intros [A1 A2 A3 A4 A5 A6] E Ef. destruct (of_size_pop n p l idle E) as (idle' & Hp & Hk).
  assert (Hp' : live ++ idle ≡ₚ ((p, n) :: live) ++ idle').
  { rewrite Hp. simpl. symmetry. apply Permutation_middle. }
  pose proof (apart_perm _ _ Hp' A2) as Hap. rewrite Hp' in A3. split; [exists idle'; split; simpl|split].
  - by apply (pool_perm _ _ _ A1).
  - exact Hap.
  - exact A3.
  - intros k. rewrite Hk. destruct (decide (k = n)) as [->|Hne].
    + by rewrite lookup_insert_eq.
    + by rewrite lookup_insert_ne.
  - intros q k Hin. apply A5. by rewrite Hp'.
  - intros q Hq. pose proof (A6 q Hq) as H. by rewrite Hp' in H.
  - simpl in A3. apply Forall_cons in A3. apply A3.
  - destruct Hap as [Hap _]. by apply Forall_app in Hap as [? _].
Qed.

(** A successful allocation: a new block of at least the requested size, aligned
    and away from all blocks the program holds. *)
Lemma allocate_ok s live rem n p s' :
  alloc_ok s live rem -> 0 < n <= lim - max_align -> allocate P 1 s n = (Ok p, s') ->
  (max_align | p) /\ Forall (disjoint_blocks (p, aligned_n 1 n)) live /\
  alloc_ok s' ((p, aligned_n 1 n) :: live) (option_list (remainder_of P 1 s n) ++ rem).
Proof using PoolLaws0.
  intros [idle Hi] Hn. destruct (aligned_request n Hn) as (Hreq & Hle & En).
  unfold allocate, remainder_of. rewrite En. set (size := aligned_alloc_size 1 n) in *.
  pose proof (ai_free _ _ _ _ Hi size) as Hfree.
  destruct (freelist s !! size) as [[|p0 l]|] eqn:Ef; cbn [default from_option id] in Hfree.
  2: { intros [= <- <-]. destruct (reuse_ok s live idle rem size p0 l) as (H1 & H2 & H3); auto. by rewrite Ef. }
  all: destruct (p_reserve P (mempool s) size) as [[q|e|] mp] eqn:Er; [| |done];
    [intros [= <- <-]; destruct (inv_live s mp live idle rem q size Hi Er Hreq) as (H1 & H2 & H3); [lia|];
     split_and!; try done; by exists idle|];
    destruct e; try done;
    pose proof (inv_pool s mp live idle rem Hi (pool_refuse _ _ _ _ (ai_handed _ _ _ _ Hi) Hreq Er)) as Hi1;
    destruct (keep_remainder P (set_pool s mp) size) as [[[]| |] s1] eqn:Ek; [|done..];
    intros Hg; destruct (keep_remainder_ok _ _ _ _ _ _ Hi1 Ek) as (idle' & Hi2);
    destruct (grow_ok _ _ _ _ _ _ _ Hi2 Hreq ltac:(lia) Hg) as (H1 & H2 & H3);
    split_and!; try done; by exists idle'.
Qed.

(** Giving back a block that is not a remainder. *)
Lemma free_ok s live rem p n :
  alloc_ok s ((p, n) :: live) rem -> p ∉ rem -> alloc_ok (free s p) live rem.
Proof using PoolLaws0.
  intros [idle [A1 A2 A3 A4 A5 A6]] Hp.
  assert (Hin : (p, n) ∈ ((p, n) :: live) ++ idle) by (simpl; left).
  pose proof (A5 p n Hin Hp) as Es. unfold free, record_size. rewrite Es. simpl. rewrite Es. simpl.
  assert (Hp' : ((p, n) :: live) ++ idle ≡ₚ live ++ (p, n) :: idle) by (simpl; apply Permutation_middle).
  exists ((p, n) :: idle). unfold deallocate_nosync. split; simpl.
  - by apply (pool_perm _ _ _ A1).
  - by apply (apart_perm _ _ Hp').
  - by rewrite <- Hp'.
  - intros k. rewrite of_size_cons. simpl. destruct (decide (n = k)) as [->|Hne].
    + by rewrite lookup_insert_eq, A4.
    + by rewrite lookup_insert_ne, A4.
  - intros q k. rewrite <- Hp'. apply A5.
  - intros q Hq. rewrite <- Hp'. by apply A6.
Qed.

(** Order of the live blocks does not matter. *)
Lemma alloc_perm s live live' rem : live ≡ₚ live' -> alloc_ok s live rem -> alloc_ok s live' rem.
Proof using PoolLaws0.
  intros Hp [idle [A1 A2 A3 A4 A5 A6]]. assert (Hp' : live ++ idle ≡ₚ live' ++ idle) by by rewrite Hp.
  exists idle. split; try done.
  - by apply (pool_perm _ _ _ A1).
  - by apply (apart_perm _ _ Hp').
  - by rewrite <- Hp'.
  - intros q k. rewrite <- Hp'. apply A5.
  - intros q Hq. rewrite <- Hp'. by apply A6.
Qed.

(** What the invariant says of the blocks the program holds. *)
Lemma alloc_live s live rem : alloc_ok s live rem ->
  apart live /\ Forall (fun b => inside b region) live /\
  Forall (fun b => (max_align | fst b) /\ 0 < snd b < 2 ^ 62 /\ (max_align | snd b)) live.
Proof using PoolLaws0.
  intros [idle [A1 A2 A3 _ _ _]]. apply pool_region in A1. apply Forall_app in A1 as [A1 _], A3 as [A3 _].
  split_and!; try done. clear A1 A3. induction live as [|b live IH]; [done|].
  simpl in A2. destruct A2 as [H1 H2]. apply Forall_app in H1 as [H1 _]. split; [done|auto].
Qed.

(** The two ways a refusal leaves the state. *)
Lemma keep_remainder_refused s live idle rem n s' :
  alloc_inv s live idle rem -> keep_remainder P s n = (Throw bad_alloc, s') -> alloc_inv s' live idle rem.
Proof using PoolLaws0.
  intros Hi. unfold keep_remainder.
  pose proof (pool_available _ _ (ai_handed _ _ _ _ Hi)) as [Hav Hd]. pose proof pool_lim as Hlim.
  destruct (0 <? _); [|done].
  destruct (p_reserve P (mempool s) (p_available P (mempool s))) as [[q|e|] mp] eqn:E; try done.
  intros [= -> <-]. apply inv_pool; [done|]. eapply pool_refuse; [exact (ai_handed _ _ _ _ Hi)| |exact E].
  split; [lia|done].
Qed.

Lemma grow_refused s live idle rem n s' : SteadyPool P handed ->
  alloc_inv s live idle rem -> request_ok lim n -> grow_and_reserve P s n n = (Throw bad_alloc, s') ->
  alloc_inv s' live idle rem.
Proof using PoolLaws0.
  intros Hst Hi Hn. unfold grow_and_reserve.
  destruct (p_grow P (mempool s) n) as [[[]|e|] mp] eqn:Eg; [| |done].
  - pose proof (inv_pool s mp _ _ _ Hi (pool_grow _ _ _ _ (ai_handed _ _ _ _ Hi) Hn Eg)) as Hi1.
    destruct (p_reserve P (mempool (set_pool s mp)) n) as [[q|e|] mp'] eqn:Er; [done| |done].
    intros [= -> <-]. apply inv_pool; [done|]. by eapply pool_refuse; [exact (ai_handed _ _ _ _ Hi1)| |exact Er].
  - intros [= -> <-]. apply inv_pool; [done|]. by eapply pool_no_grow; [exact (ai_handed _ _ _ _ Hi)|].
Qed.

(** A refused allocation takes nothing from the program. *)
Lemma allocate_refused s live rem n s' : SteadyPool P handed ->
  alloc_ok s live rem -> 0 < n <= lim - max_align -> allocate P 1 s n = (Throw bad_alloc, s') ->
  alloc_ok s' live (option_list (remainder_of P 1 s n) ++ rem).
Proof using PoolLaws0.
  intros Hst [idle Hi] Hn. destruct (aligned_request n Hn) as (Hreq & Hle & En).
  unfold allocate, remainder_of. rewrite En. set (size := aligned_alloc_size 1 n) in *.
  destruct (freelist s !! size) as [[|p0 l]|] eqn:Ef; [|done|].
  all: destruct (p_reserve P (mempool s) size) as [[q|e|] mp] eqn:Er; [done| |done];
    destruct e; try done;
    pose proof (inv_pool s mp live idle rem Hi (pool_refuse _ _ _ _ (ai_handed _ _ _ _ Hi) Hreq Er)) as Hi1;
    destruct (keep_remainder P (set_pool s mp) size) as [[[]|e|] s1] eqn:Ek; [| |done];
    [intros Hg; destruct (keep_remainder_ok _ _ _ _ _ _ Hi1 Ek) as (idle' & Hi2); exists idle'; by eapply grow_refused|];
    intros [= -> ->]; exists idle; pose proof (keep_remainder_refused _ _ _ _ _ _ Hi1 Ek) as Hi2;
    unfold keep_remainder in Ek; simpl in Ek; destruct (0 <? p_available P mp); [|done];
    destruct (p_reserve P mp (p_available P mp)) as [[q| |] mp']; by simplify_eq/=.
Qed.

End Contract.

(** ** Runs of a client

    The blocks held and the remainders set aside, after a sequence of successful
    allocations of sizes from 1 to just below [lim], refused ones if the pool's refusal
    is harmless ([steady], which the dynamic pool's is not), and frees of held blocks that
    are not remainders.  Other uses, in which the allocator misbehaves, are no runs of
    a client. *)
Inductive client {S} (P : pool S) (lim : Z) (steady : bool) (mp0 : S) :
    galloc S -> list block -> list Z -> Prop :=
  | client_init : client P lim steady mp0 (generic_allocator mp0) [] []
  | client_alloc s live rem n p s' :
      client P lim steady mp0 s live rem -> 0 < n <= lim - max_align -> allocate P 1 s n = (Ok p, s') ->
      client P lim steady mp0 s' ((p, aligned_n 1 n) :: live) (option_list (remainder_of P 1 s n) ++ rem)
  | client_refuse s live rem n s' :
      steady = true -> client P lim steady mp0 s live rem -> 0 < n <= lim - max_align ->
      allocate P 1 s n = (Throw bad_alloc, s') ->
      client P lim steady mp0 s' live (option_list (remainder_of P 1 s n) ++ rem)
  | client_free s live live' rem p n :
      client P lim steady mp0 s live rem -> live ≡ₚ (p, n) :: live' -> p ∉ rem ->
      client P lim steady mp0 (free s p) live' rem.

Lemma client_ok {S} (P : pool S) lim region handed `{!PoolLaws P lim region handed} steady mp0 s live rem :
  handed mp0 [] -> (steady = true -> SteadyPool P handed) ->
  client P lim steady mp0 s live rem -> alloc_ok handed s live rem.
Proof.
  intros Hmp Hst. induction 1 as [|s live rem n p s' _ IH Hn E|s live rem n s' Ht _ IH Hn E|s live live' rem p n _ IH Hp Hr].
  - by apply alloc_init.
  - by apply (allocate_ok P lim region handed s live rem n p s').
  - apply (allocate_refused P lim region handed s live rem n s'); auto.
  - apply (free_ok P lim region handed s live' rem p n); [|done]. by apply (alloc_perm P lim region handed s live).
Qed.

(** ** Refusals, reuse and the size table *)

(** What is freed is what the next request of the same size gets. *)
Lemma free_allocate {S} (P : pool S) k (s : galloc S) p n :
  allocation_size s !! p = Some (aligned_n k n) ->
  exists s', allocate P k (free s p) n = (Ok p, s') /\ mempool s' = mempool s /\
    allocation_size s' = allocation_size s /\
    forall m, default [] (freelist s' !! m) = default [] (freelist s !! m).
Proof.
  intros E. unfold free, record_size, allocate, deallocate_nosync. simpl. rewrite E. simpl. rewrite E.
  simpl. rewrite lookup_insert_eq. eexists. split_and!; [reflexivity|done|done|]. simpl. intros m.
  destruct (decide (m = aligned_n k n)) as [->|Hne]; [by rewrite lookup_insert_eq|].
  by rewrite !lookup_insert_ne by done.
Qed.
