(* ===== verification/AllocSpec.v ===== *)
(** * The allocators over the global memory

    The dynamic pool, fed by the global allocator, keeps the contract of a pool as
    long as the global allocator does not run dry; so both allocators hand out
    disjoint aligned blocks of the global memory.  Two runs show what the contract
    leaves out: a remainder that is freed comes back too large, and a dynamic pool
    that failed to grow hands out null pointers. *)

From S2P Require Import Prelude Mempool Alloc.

(** ** The dynamic pool keeps the contract *)
Section Dynamic.

Context (region : block).

Abbreviation glob_ok := (alloc_ok (chunk_ok region)).

(** The current chunk, if any, and the earlier ones are blocks held from the
    global allocator; what was handed out lies in them. *)
Record dynamic_ok (s : dynamic (galloc chunk)) (bl : list block) : Prop := {
  dy_held : exists cur old rem, glob_ok (dy_allocator s) (cur ++ old) rem /\
    (cur = [] /\ max_size (dy_chunk s) = 0 \/ cur = [(memory (dy_chunk s), max_size (dy_chunk s))]) /\
    Forall (fun b => cur <> [] /\ inside b (memory (dy_chunk s), offset (dy_chunk s)) \/
                     Exists (inside b) old) bl;
  dy_offset : 0 <= offset (dy_chunk s) <= max_size (dy_chunk s) /\ (max_align | offset (dy_chunk s));
}.

Definition dynamic_lim : Z := 2 ^ 63 - 8192.

Lemma dynamic_chunk s bl cur old rem :
  glob_ok (dy_allocator s) (cur ++ old) rem ->
  (cur = [] /\ max_size (dy_chunk s) = 0 \/ cur = [(memory (dy_chunk s), max_size (dy_chunk s))]) ->
  dynamic_ok s bl ->
  (0 <= offset (dy_chunk s) <= max_size (dy_chunk s) /\ max_size (dy_chunk s) < 2 ^ 62) /\ (max_align | offset (dy_chunk s)) /\
  (max_align | max_size (dy_chunk s)).
Proof.
  intros Hg Hc [_ [Ho Hd]]. destruct (alloc_live global_pool _ region _ _ _ _ Hg) as (_ & _ & H).
  destruct Hc as [[-> E]| ->]; [rewrite E in *; split_and!; try done; try lia; apply Z.divide_0_r|].
  simpl in H. apply Forall_cons in H as [(_ & H1 & H2) _]. simpl in *. split_and!; try done; lia.
Qed.

Lemma dynamic_reserve_eq (s : dynamic (galloc chunk)) n :
  0 <= offset (dy_chunk s) <= max_size (dy_chunk s) -> max_size (dy_chunk s) < 2 ^ 62 -> 0 <= n < 2 ^ 63 ->
  dynamic_reserve s n =
    if max_size (dy_chunk s) <? offset (dy_chunk s) + n then (Throw bad_alloc, s)
    else (Ok (memory (dy_chunk s) + offset (dy_chunk s)),
          {| dy_chunk := {| memory := memory (dy_chunk s); max_size := max_size (dy_chunk s);
                            offset := offset (dy_chunk s) + n |};
             dy_allocator := dy_allocator s |}).
Proof.
  intros H1 H2 H3. unfold dynamic_reserve, reserve. rewrite !add64_small by lia.
  destruct s as [[m k o] a]. simpl. by destruct (_ <? _).
Qed.

Lemma dynamic_region s bl : dynamic_ok s bl -> Forall (fun b => inside b region) bl.
Proof.
  intros [(cur & old & rem & Hg & Hc & Hb) [Ho _]].
  destruct (alloc_live global_pool _ region _ _ _ _ Hg) as (_ & Hr & _). apply Forall_app in Hr as [Hr1 Hr2].
  eapply Forall_impl; [exact Hb|]. intros b [[Hne Hi]|Hex].
  - destruct Hc as [[E _]| ->]; [done|]. apply Forall_cons in Hr1 as [Hr1 _].
    eapply inside_trans; [|exact Hr1]. unfold inside in *. simpl in *. lia.
  - apply Exists_exists in Hex as (o & Hin & Hi). rewrite Forall_forall in Hr2.
    eapply inside_trans; [exact Hi|auto].
Qed.

Lemma dynamic_carve s bl n :
  dynamic_ok s bl -> request_ok dynamic_lim n -> 0 < n ->
  offset (dy_chunk s) + n <= max_size (dy_chunk s) ->
  let b := (memory (dy_chunk s) + offset (dy_chunk s), n) in
  (max_align | fst b) /\ n < 2 ^ 62 /\ Forall (disjoint_blocks b) bl /\
  dynamic_ok {| dy_chunk := {| memory := memory (dy_chunk s); max_size := max_size (dy_chunk s);
                               offset := offset (dy_chunk s) + n |};
                dy_allocator := dy_allocator s |} (b :: bl).
Proof.
  intros Hs [Hn Hd] Hpos Hle b. destruct (Hs) as [(cur & old & rem & Hg & Hc & Hb) [Ho Hod]].
  destruct (dynamic_chunk s bl cur old rem Hg Hc Hs) as (Hm & _ & _).
  destruct (alloc_live global_pool _ region _ _ _ _ Hg) as (Hap & _ & Hgood).
  destruct Hc as [[_ E]|Ec]; [lia|]. rewrite Ec in Hap, Hgood. simpl in Hap, Hgood.
  apply Forall_cons in Hgood as [(Hma & _ & _) _]. destruct Hap as [Hap _]. simpl in Hma.
  split_and!; [by apply Z.divide_add_r|lia| |].
  - eapply Forall_impl; [exact Hb|]. intros c [[_ Hi]|Hex].
    + intros a Ha. unfold inside, b in *. simpl in *. lia.
    + apply Exists_exists in Hex as (o & Hin & Hi). rewrite Forall_forall in Hap.
      eapply disjoint_inside; [|exact Hi|exact (Hap o Hin)]. unfold inside, b. simpl. lia.
  - split; simpl; [|split; [lia|by apply Z.divide_add_r]]. exists cur, old, rem.
    split_and!; [done|by right|]. apply Forall_cons. split.
    + left. split; [by rewrite Ec|]. unfold inside, b. simpl. lia.
    + eapply Forall_impl; [exact Hb|]. intros c [[Hne Hi]|Hex]; [|by right]. left. split; [done|].
      unfold inside in *. simpl in *. lia.
Qed.

(** What the pool asks the global allocator for. *)
Lemma grow_size_spec n : 0 <= n < dynamic_lim ->
  n <= grow_size n <= n + chunk_size /\ 0 < grow_size n /\ aligned_n 1 (grow_size n) = grow_size n.
Proof.
  unfold dynamic_lim, grow_size. intros Hn. set (m := if n =? 0 then 1 else n).
  assert (Hm : 0 < m /\ n <= m /\ m <= n + 1 /\ (n <> 0 -> m = n)) by (unfold m; destruct (Z.eqb_spec n 0); lia).
  assert (Hc : chunk_size = 4096) by done. rewrite add64_small, sub64_small by lia.
  pose proof (Z.div_mod (m + chunk_size - 1) chunk_size ltac:(done)) as E.
  pose proof (Z.mod_pos_bound (m + chunk_size - 1) chunk_size ltac:(done)) as B.
  set (q := (m + chunk_size - 1) / chunk_size) in *. rewrite mul64_small by lia.
  split_and!; [lia|lia|lia|]. unfold aligned_n, aligned_alloc_size, align_up. rewrite Z.div_1_r.
  assert (Ha : max_align = 16) by done. unwrap. rewrite Hc, Ha.
  replace (q * 4096 * 1 + 16 - 1) with (15 + (q * 256) * 16) by lia. rewrite Z.div_add by done.
  replace (15 / 16) with 0 by done. rewrite mul64_small; lia.
Qed.

Lemma dynamic_grown s bl n s' :
  dynamic_ok s bl -> request_ok dynamic_lim n -> grow_always global_alloc s n = (Ok tt, s') -> dynamic_ok s' bl.
Proof.
  intros Hs [Hn _]. destruct (grow_size_spec n Hn) as (Hle & Hpos & Hal).
  destruct Hs as [(cur & old & rem & Hg & Hc & Hb) [Ho Hod]].
  unfold grow_always, grow_local. destruct (global_alloc (dy_allocator s) (grow_size n)) as [[m|e|] a] eqn:Ea.
  2: { destruct e; simpl; done. }
  2: { done. }
  simpl. destruct (m =? nullptr); [done|]. intros [= <-].
  pose proof (allocate_ok global_pool (2 ^ 63) region _ (dy_allocator s) (cur ++ old) rem (grow_size n) m a Hg)
    as (_ & _ & Hg').
  { unfold dynamic_lim, max_align, chunk_size in *. lia. }
  { done. }
  split; simpl; [|split; [lia|by exists 0]]. rewrite Hal in Hg'.
  exists [(m, grow_size n)], (cur ++ old), (option_list (remainder_of global_pool 1 (dy_allocator s) (grow_size n)) ++ rem).
  split_and!; [done|by right|]. eapply Forall_impl; [exact Hb|]. intros b [[Hne Hi]|Hex]; right; apply Exists_app.
  - left. destruct Hc as [[E _]| ->]; [done|]. apply Exists_cons_hd. unfold inside in *. simpl in *. lia.
  - by right.
Qed.

#[export] Instance dynamic_pool_laws : PoolLaws default_dynamic_pool dynamic_lim region dynamic_ok.
Proof.
  split; simpl.
  - unfold dynamic_lim. lia.
  - intros s bl bl' [(cur & old & rem & Hg & Hc & Hb) Ho] Hp. split; [|done].
    exists cur, old, rem. split_and!; try done. by rewrite <- Hp.
  - apply dynamic_region.
  - intros s bl n p s' Hs Hn Hpos. destruct (dy_held _ _ Hs) as (cur & old & rem & Hg & Hc & _).
    destruct (dynamic_chunk s bl cur old rem Hg Hc Hs) as (Ho & _ & _).
    rewrite dynamic_reserve_eq by (destruct Hn as [Hn _]; unfold dynamic_lim in *; lia).
    destruct (Z.ltb_spec (max_size (dy_chunk s)) (offset (dy_chunk s) + n)); [done|].
    intros [= <- <-]. by apply dynamic_carve.
  - intros s bl n s' Hs Hn. destruct (dy_held _ _ Hs) as (cur & old & rem & Hg & Hc & _).
    destruct (dynamic_chunk s bl cur old rem Hg Hc Hs) as (Ho & _ & _).
    rewrite dynamic_reserve_eq by (destruct Hn as [Hn _]; unfold dynamic_lim in *; lia).
    destruct (_ <? _); [|done]. by intros [= <-].
  - intros s bl Hs. destruct (dy_held _ _ Hs) as (cur & old & rem & Hg & Hc & _).
    destruct (dynamic_chunk s bl cur old rem Hg Hc Hs) as (Ho & Hd1 & Hd2).
    unfold dynamic_available, available. rewrite sub64_small by lia. split; [lia|by apply Z.divide_sub_r].
  - apply dynamic_grown.
Qed.

End Dynamic.

(** ** The allocators of a node *)
Lemma global_pool_init base size :
  0 <= base -> (max_align | base) -> reserved <= size < 2 ^ 62 -> (max_align | size) ->
  chunk_ok (base, size - reserved) (global_memory_pool base size) [].
Proof.
  intros Hb Ha Hs Hd. assert (Hr : reserved = 4096) by done. unfold global_memory_pool.
  assert (Hd' : (max_align | size - reserved)) by (apply Z.divide_sub_r; [done|by exists 256]).
  rewrite sub64_small by lia. split; simpl; try done; split; try lia; [done|by exists 0].
Qed.

Lemma dynamic_pool_init base size :
  0 <= base -> (max_align | base) -> reserved <= size < 2 ^ 62 -> (max_align | size) ->
  dynamic_ok (base, size - reserved) (mempool (dynamic_init base size)) [].
Proof.
  intros Hb Ha Hs Hd. split; simpl; [|split; [done|by exists 0]].
  exists [], [], []. split_and!; [|by left|done]. apply alloc_init. by apply global_pool_init.
Qed.

(** Every branch of a request to the global allocator. *)
Definition global_allocate_result (s : galloc chunk) (k : Z) : outcome Z * galloc chunk :=
  let c := mempool s in
  let room := max_size c - offset c in
  let take n := set_pool s {| memory := memory c; max_size := max_size c; offset := offset c + n |} in
  match freelist s !! k with
  | Some (p :: l) =>
    (Ok p, {| mempool := c; allocation_size := allocation_size s; freelist := <[k := l]> (freelist s) |})
  | _ =>
    if k <=? room then (Ok (memory c + offset c), record_size (take k) (memory c + offset c) k)
    else if 0 <? room
    then (Throw bad_alloc,
          record_size (deallocate_nosync (take room) (memory c + offset c) room) (memory c + offset c) k)
    else (Throw bad_alloc, s)
  end.

Lemma set_pool_id {A} (s : galloc A) : set_pool s (mempool s) = s.
Proof. by destruct s. Qed.

Lemma global_allocate_cases region s live rem n :
  alloc_ok (chunk_ok region) s live rem -> 0 < n <= 2 ^ 63 - max_align ->
  global_alloc s n = global_allocate_result s (aligned_n 1 n).
Proof.
  intros [idle Hi] Hn. destruct (aligned_request global_pool (2 ^ 63) region (chunk_ok region) n Hn) as (Hreq & Hle & En).
  pose proof (ai_handed _ _ _ _ _ Hi) as Hc. destruct (chunk_available region _ _ Hc) as [Hav Eav].
  assert (Eg : global_available (mempool s) = max_size (mempool s) - offset (mempool s)).
  { unfold global_available. rewrite u64_small by (destruct Hc as [[_ E] _ ? [? _] _]; lia). exact Eav. }
  unfold global_alloc, allocate, global_allocate_result. rewrite En. set (k := aligned_alloc_size 1 n) in *.
  assert (Er : forall m, request_ok (2 ^ 63) m -> global_reserve (mempool s) m =
    if max_size (mempool s) <? offset (mempool s) + m then (Throw bad_alloc, mempool s)
    else (Ok (memory (mempool s) + offset (mempool s)),
          {| memory := memory (mempool s); max_size := max_size (mempool s); offset := offset (mempool s) + m |})).
  { intros m Hm. rewrite (global_reserve_eq region _ _ _ Hc Hm). by apply (chunk_reserve region _ _ _ Hc). }
  destruct (freelist s !! k) as [[|p l]|]; [|done|].
  all: simpl; rewrite Er by done;
    destruct (Z.ltb_spec (max_size (mempool s)) (offset (mempool s) + k)), (Z.leb_spec k (max_size (mempool s) - offset (mempool s)));
      try lia; [|done]; rewrite set_pool_id; unfold keep_remainder; simpl; rewrite Eg;
    rewrite Eav in Hav;
    destruct (Z.ltb_spec 0 (max_size (mempool s) - offset (mempool s)));
    [rewrite Er by (destruct Hav; split; [lia|done]);
     destruct (Z.ltb_spec (max_size (mempool s)) (offset (mempool s) + (max_size (mempool s) - offset (mempool s)))); [lia|]|];
    unfold grow_and_reserve; simpl; by rewrite set_pool_id.
Qed.

(** ** Theorems *)
Section Claims.

Context (base size : Z) (Hbase : 0 <= base) (Halign : (max_align | base)).
Context (Hsize : reserved <= size < 2 ^ 62) (Hpages : (max_align | size)).

(** C37: the dynamic allocator of a node.  After any sequence of requests of sizes from 1
    to about 2^63 that all succeed, and of frees of held blocks that are not remainders,
    the blocks the program holds are pairwise disjoint, aligned for every type, and lie
    in the global memory below its reserved last page.  The conditions are needed:
    [failed_grow_hands_out_null], [freed_remainder_overruns] and [huge_request_wraps]
    show what happens after a refused request, when a remainder is freed, and when the
    size is larger. *)
Theorem dynamic_allocations_disjoint s live rem :
  client default_dynamic_pool dynamic_lim false (mempool (dynamic_init base size)) s live rem ->
  apart live /\ Forall (fun b => inside b (base, size - reserved)) live /\
  Forall (fun b => (max_align | fst b) /\ 0 < snd b < 2 ^ 62 /\ (max_align | snd b)) live.
Proof using Hbase Halign Hsize Hpages.
  intros H. apply (alloc_live default_dynamic_pool dynamic_lim (base, size - reserved) (dynamic_ok (base, size - reserved)) s live rem).
  eapply client_ok; [apply dynamic_pool_laws|by apply dynamic_pool_init| |exact H]. done.
Qed.

(** The global allocator.  The same holds of the blocks it hands out, also
    across refused requests. *)
Theorem global_allocations_disjoint s live rem :
  client global_pool (2 ^ 63) true (global_memory_pool base size) s live rem ->
  apart live /\ Forall (fun b => inside b (base, size - reserved)) live /\
  Forall (fun b => (max_align | fst b) /\ 0 < snd b < 2 ^ 62 /\ (max_align | snd b)) live.
Proof using Hbase Halign Hsize Hpages.
  intros H. apply (alloc_live global_pool (2 ^ 63) (base, size - reserved) (chunk_ok (base, size - reserved)) s live rem).
  eapply client_ok; [apply global_pool_laws|by apply global_pool_init|intros _; apply global_pool_steady|exact H].
Qed.

(** A request to the global allocator, on every branch: the top of the free
    list of that size; else the next bytes of the pool if they suffice; else an
    exception, after the rest of the pool has gone to the free lists. *)
Theorem global_allocate_branches s live rem n :
  client global_pool (2 ^ 63) true (global_memory_pool base size) s live rem ->
  0 < n <= 2 ^ 63 - max_align ->
  global_alloc s n = global_allocate_result s (aligned_n 1 n).
Proof using Hbase Halign Hsize Hpages.
  intros H Hn. eapply (global_allocate_cases (base, size - reserved)); [|done].
  eapply client_ok; [apply global_pool_laws|by apply global_pool_init|intros _; apply global_pool_steady|exact H].
Qed.

End Claims.

(** C38: a block given back is the one the next request of its size gets, and the
    allocator is then as before the block was given back. *)
Theorem free_then_allocate {S} (P : pool S) sizeof_T (s : galloc S) p n :
  allocation_size s !! p = Some (aligned_n sizeof_T n) ->
  exists s', allocate P sizeof_T (free s p) n = (Ok p, s') /\ mempool s' = mempool s /\
    allocation_size s' = allocation_size s /\
    forall m, default [] (freelist s' !! m) = default [] (freelist s !! m).
Proof. apply free_allocate. Qed.

(** ** A small memory: four pages at address 4096, the last one reserved *)
Definition alloc_addr {A} (r : outcome Z * A) : Z := match r with (Ok p, _) => p | _ => 0 end.
Definition small_global : galloc chunk := generic_allocator (global_memory_pool 4096 16384).
Definition small_dynamic : dynamic_state := dynamic_init 4096 16384.

(** Three requests, the first block freed before the third. *)
Definition small_run_state : dynamic_state :=
  snd (dynamic_allocate (free (snd (dynamic_allocate (snd (dynamic_allocate small_dynamic 40)) 100)) 4096) 33).

(** One request of a run, with what it evaluates to. *)
Lemma client_step {S} (P : pool S) lim steady mp0 s live rem n p k s' :
  client P lim steady mp0 s live rem -> 0 < n <= lim - max_align ->
  allocate P 1 s n = (Ok p, s') -> aligned_n 1 n = k -> remainder_of P 1 s n = None ->
  client P lim steady mp0 s' ((p, k) :: live) rem.
Proof. intros H Hn E <- Er. pose proof (client_alloc P lim steady mp0 s live rem n p s' H Hn E) as H'. by rewrite Er in H'. Qed.

Ltac client_step s live n p :=
  apply (client_step _ _ _ _ s live [] n p); [|by vm_compute|vm_compute; reflexivity|vm_compute; reflexivity|vm_compute; reflexivity].

Lemma small_run : client default_dynamic_pool dynamic_lim false (mempool (dynamic_init 4096 16384))
  small_run_state [(4096, 48); (4144, 112)] [].
Proof.
  client_step (free (snd (dynamic_allocate (snd (dynamic_allocate small_dynamic 40)) 100)) 4096) [(4144, 112)] 33 4096.
  apply (client_free _ _ _ _ _ [(4144, 112); (4096, 48)] _ _ 4096 48); [|apply Permutation_swap|apply not_elem_of_nil].
  client_step (snd (dynamic_allocate small_dynamic 40)) [(4096, 48)] 100 4144.
  client_step small_dynamic (@nil block) 40 4096. apply client_init.
Qed.

Lemma dynamic_allocations_disjoint_witness :
  apart [(4096, 48); (4144, 112)] /\ Forall (fun b => inside b (4096, 16384 - reserved)) [(4096, 48); (4144, 112)].
Proof.
  destruct (dynamic_allocations_disjoint 4096 16384 ltac:(lia) ltac:(by exists 256) ltac:(by vm_compute) ltac:(by exists 1024)
    _ _ _ small_run) as (H1 & H2 & _). exact (conj H1 H2).
Defined.

(** The global allocator: a request that fits, one that does not, a third one. *)
Definition small_global1 : galloc chunk := snd (global_alloc small_global 12000).
Definition small_global2 : galloc chunk := snd (global_alloc small_global1 5000).
Definition small_global3 : galloc chunk := snd (global_alloc small_global2 280).

Lemma small_global_run : client global_pool (2 ^ 63) true (global_memory_pool 4096 16384)
  small_global2 [(4096, 12000)] [16096].
Proof.
  pose proof (client_refuse global_pool (2 ^ 63) true (global_memory_pool 4096 16384) small_global1 [(4096, 12000)] []
    5000 small_global2) as H.
  replace (option_list _ ++ _) with [16096] in H by (vm_compute; reflexivity).
  apply H; [done| |by vm_compute|vm_compute; reflexivity].
  client_step small_global (@nil block) 12000 4096. apply client_init.
Qed.

Lemma global_allocations_disjoint_witness :
  apart [(4096, 12000)] /\ Forall (fun b => inside b (4096, 16384 - reserved)) [(4096, 12000)].
Proof.
  destruct (global_allocations_disjoint 4096 16384 ltac:(lia) ltac:(by exists 256) ltac:(by vm_compute) ltac:(by exists 1024)
    _ _ _ small_global_run) as (H1 & H2 & _). exact (conj H1 H2).
Defined.

Lemma global_allocate_branches_witness :
  global_alloc small_global2 280 = global_allocate_result small_global2 288 /\
  alloc_addr (global_allocate_result small_global2 288) = 16096.
Proof.
  split; [|vm_compute; reflexivity].
  exact (global_allocate_branches 4096 16384 ltac:(lia) ltac:(by exists 256) ltac:(by vm_compute) ltac:(by exists 1024)
    _ _ _ 280 small_global_run ltac:(by vm_compute)).
Defined.

Lemma free_then_allocate_witness :
  exists s', allocate global_pool 1 (free small_global1 4096) 11990 = (Ok 4096, s') /\ mempool s' = mempool small_global1.
Proof.
  destruct (free_then_allocate global_pool 1 small_global1 4096 11990 ltac:(vm_compute; reflexivity)) as (s' & H1 & H2 & _).
  exists s'. exact (conj H1 H2).
Defined.

(** ** What the allocators do not promise *)

(** A remainder is recorded with the size of the request that did not fit.
    When the program gets it, frees it and asks again, it is handed out for that
    larger size: here a block that reaches into the reserved page, where the pool
    keeps its own offset. *)
Theorem freed_remainder_overruns :
  let s := free small_global3 (alloc_addr (global_alloc small_global2 280)) in
  alloc_addr (global_alloc small_global2 280) = 16096 /\
  alloc_addr (global_alloc s 5000) = 16096 /\ fst (global_alloc s 5000) = Ok 16096 /\
  ~ inside (16096, 5000) (4096, 16384 - reserved).
Proof. split_and!; [vm_compute; reflexivity..|]. unfold inside, reserved. simpl. lia. Qed.

(** A request for more bytes than can be rounded up succeeds with a block of
    no bytes: the rounding wraps around. *)
Theorem huge_request_wraps {S} (P : pool S) s :
  allocate P 1 s SIZE_MAX = allocate P 1 s 0 /\ aligned_alloc_size 1 SIZE_MAX = 0.
Proof. split; [|reflexivity]. unfold allocate. by replace (aligned_alloc_size 1 SIZE_MAX) with (aligned_alloc_size 1 0). Qed.

(** The dynamic pool sets its new size before it asks for the memory.  After a
    request too large for the global memory, smaller ones are served from a null
    chunk. *)
Theorem failed_grow_hands_out_null :
  let s := snd (dynamic_allocate small_dynamic 20000) in
  fst (dynamic_allocate small_dynamic 20000) = Throw bad_alloc /\
  fst (dynamic_allocate s 64) = Ok nullptr /\
  fst (dynamic_allocate (snd (dynamic_allocate s 64)) 64) = Ok (nullptr + 64).
Proof. vm_compute. done. Qed.
