(* ===== verification/NewDelete.v ===== *)
(** * Typed allocation

    [src/src/allocators]: [dynamic_alloc], [collective_alloc] and their frees
    ([allocators.cpp]), the [new_]/[delete_] family on the dynamic allocator
    ([dynamic_allocator.hpp]) and the collective [conew_]/[codelete_] family
    ([collective_allocator.hpp]).  A node's two allocators share its global
    allocator.  Constructor and destructor calls and barriers are recorded as
    events; constructors return normally. *)

From stdpp Require Import functions.
From S2P Require Import Prelude Mempool Alloc AllocSpec BlockMap DataDistribution FirstTouch GlobalPtr.

(** ** Allocation parameters *)
Inductive allocation :=
  | initialize | no_initialize | deinitialize | no_deinitialize | synchronize | no_synchronize.

#[export] Instance allocation_eq_dec : EqDecision allocation.
Proof. solve_decision. Defined.

Fixpoint alloc_param_in (P : allocation) (APs : list allocation) : bool :=
  match APs with
  | [] => false
  | AP :: APs => if decide (P = AP) then true else alloc_param_in P APs
  end.

(** The static assertions. *)
Definition alloc_params (APs : list allocation) : bool :=
  (negb (alloc_param_in initialize APs) || negb (alloc_param_in no_initialize APs)) &&
  (negb (alloc_param_in deinitialize APs) || negb (alloc_param_in no_deinitialize APs)) &&
  (negb (alloc_param_in synchronize APs) || negb (alloc_param_in no_synchronize APs)).

(** What the templates ask of a type. *)
Record type_info := TypeInfo { size_of : Z; is_trivial : bool; is_trivially_destructible : bool }.

Definition initialize_flag (T : type_info) (APs : list allocation) (args : nat) : bool :=
  let flag := if is_trivial T then false else true in
  let flag := if (0 <? args)%nat then true else flag in
  if alloc_param_in initialize APs then true
  else if alloc_param_in no_initialize APs then false else flag.

Definition deinitialize_flag (T : type_info) (APs : list allocation) : bool :=
  let flag := if is_trivially_destructible T then false else true in
  if alloc_param_in deinitialize APs then true
  else if alloc_param_in no_deinitialize APs then false else flag.

Definition synchronize_flag (flag : bool) (APs : list allocation) : bool :=
  if alloc_param_in synchronize APs then true
  else if alloc_param_in no_synchronize APs then false else flag.

(** ** A node *)
Inductive event := Construct (p : Z) | Destroy (p : Z) | Barrier.

#[export] Instance event_eq_dec : EqDecision event.
Proof. solve_decision. Defined.

(** The three default allocators; [mempool] of the last two is the chunk of their
    dynamic pool. *)
Record heap := Heap {
  default_global_allocator : galloc chunk;
  default_dynamic_allocator : galloc chunk;
  default_collective_allocator : galloc chunk;
  trace : list event;
}.

(** The policy's directories are shared by the nodes. *)
Record node (D : Type) := Node { n_heap : heap; n_dirs : D }.
Arguments Node {D}.
Arguments n_heap {D}.
Arguments n_dirs {D}.

(** State and exceptions. *)
Definition prog (D A : Type) : Type := node D -> outcome A * node D.
#[export] Instance prog_ret D : MRet (prog D) := fun A a s => (Ok a, s).
#[export] Instance prog_bind D : MBind (prog D) := fun A B f m s =>
  match m s with
  | (Ok a, s) => f a s
  | (Throw e, s) => (Throw e, s)
  | (Hang, s) => (Hang, s)
  end.

(** An allocator over a dynamic pool, put together from the parts of a heap. *)
Definition attach (g a : galloc chunk) : dynamic_state :=
  {| mempool := {| dy_chunk := mempool a; dy_allocator := g |};
     allocation_size := allocation_size a; freelist := freelist a |}.
Definition detach (s : dynamic_state) : galloc chunk :=
  {| mempool := dy_chunk (mempool s); allocation_size := allocation_size s; freelist := freelist s |}.

Definition set_dynamic (h : heap) (s : dynamic_state) : heap :=
  {| default_global_allocator := dy_allocator (mempool s); default_dynamic_allocator := detach s;
     default_collective_allocator := default_collective_allocator h; trace := trace h |}.
Definition set_collective (h : heap) (s : dynamic_state) : heap :=
  {| default_global_allocator := dy_allocator (mempool s); default_dynamic_allocator := default_dynamic_allocator h;
     default_collective_allocator := detach s; trace := trace h |}.
Definition log (h : heap) (es : list event) : heap :=
  {| default_global_allocator := default_global_allocator h;
     default_dynamic_allocator := default_dynamic_allocator h;
     default_collective_allocator := default_collective_allocator h; trace := trace h ++ es |}.

(** The allocators as [reset_allocators] leaves them: empty tables, null prepools,
    and the global pool at its start. *)
Definition reset_allocators (global_base global_size : Z) (h : heap) : heap :=
  let prepool := {| memory := nullptr; max_size := 0; offset := 0 |} in
  let pool := global_reset (mempool (default_global_allocator h)) global_base global_size in
  {| default_global_allocator := set_mempool (generic_allocator (mempool (default_global_allocator h))) pool;
     default_dynamic_allocator := set_mempool (generic_allocator (mempool (default_dynamic_allocator h))) prepool;
     default_collective_allocator := set_mempool (generic_allocator (mempool (default_collective_allocator h))) prepool;
     trace := trace h |}.

Section Node.

Context {D : Type} (P : policy D) (node_id broadcast : Z).

Definition on_heap {A} (f : heap -> outcome A * heap) : prog D A := fun s =>
  let '(r, h) := f (n_heap s) in (r, {| n_heap := h; n_dirs := n_dirs s |}).
Definition emit (es : list event) : prog D unit := on_heap (fun h => (Ok tt, log h es)).
Definition barrier : prog D unit := emit [Barrier].

(** ** The C interface *)
Definition dynamic_alloc (size : Z) : prog D Z := on_heap (fun h =>
  let '(r, s) := dynamic_allocate (attach (default_global_allocator h) (default_dynamic_allocator h)) size in
  (r, set_dynamic h s)).

Definition dynamic_free (ptr : Z) : prog D unit :=
  if ptr =? nullptr then mret tt
  else on_heap (fun h => (Ok tt,
    set_dynamic h (free (attach (default_global_allocator h) (default_dynamic_allocator h)) ptr))).

Definition collective_allocate (s : dynamic_state) (size : Z) : outcome Z * dynamic_state :=
  allocate (collective_pool global_alloc node_id broadcast) 1 s size.

Definition collective_alloc (size : Z) : prog D Z :=
  _ ← barrier;
  on_heap (fun h =>
    let '(r, s) := collective_allocate (attach (default_global_allocator h) (default_collective_allocator h)) size in
    (r, set_collective h s)).

Definition collective_free (ptr : Z) : prog D unit :=
  if ptr =? nullptr then mret tt
  else on_heap (fun h => (Ok tt,
    set_collective h (free (attach (default_global_allocator h) (default_collective_allocator h)) ptr))).

(** The C++ allocator for elements of [sz] bytes, over the default dynamic
    allocator. *)
Definition dynamic_allocator_allocate (sz n : Z) : prog D Z := dynamic_alloc (mul64 n sz).

Definition dynamic_allocator_free (ptr : Z) : prog D unit := on_heap (fun h => (Ok tt,
  set_dynamic h (free (attach (default_global_allocator h) (default_dynamic_allocator h)) ptr))).

Definition dynamic_allocator_deallocate (sz ptr n : Z) : prog D unit := on_heap (fun h => (Ok tt,
  set_dynamic h (deallocate 1 (attach (default_global_allocator h) (default_dynamic_allocator h)) ptr (mul64 n sz)))).

Definition dynamic_allocator_construct (ptr : Z) : prog D unit := emit [Construct ptr].
Definition dynamic_allocator_destroy (ptr : Z) : prog D unit := emit [Destroy ptr].

(** [ptr[i]] for all indices below [n]. *)
Definition elements (T : type_info) (ptr n : Z) : list Z := (fun i => ptr + i * size_of T) <$> seqZ 0 n.

(** ** On the dynamic allocator *)
Definition new_ (T : type_info) (APs : list allocation) (args : nat) : prog D Z :=
  ptr ← dynamic_alloc (size_of T);
  _ ← (if initialize_flag T APs args then emit [Construct ptr] else mret tt);
  mret ptr.

Definition delete_ (T : type_info) (APs : list allocation) (ptr : Z) : prog D unit :=
  if ptr =? nullptr then mret tt else
  _ ← (if deinitialize_flag T APs then emit [Destroy ptr] else mret tt);
  dynamic_free ptr.

Definition new_array (T : type_info) (APs : list allocation) (size : Z) : prog D Z :=
  ptr ← dynamic_alloc (mul64 (size_of T) size);
  _ ← (if initialize_flag T APs 0 then emit (Construct <$> elements T ptr size) else mret tt);
  mret ptr.

Definition delete_array (T : type_info) (APs : list allocation) (ptr : Z) : prog D unit :=
  if ptr =? nullptr then mret tt else
  _ ← (if deinitialize_flag T APs then
         space ← on_heap (fun h => (allocated_space (default_dynamic_allocator h) ptr, h));
         emit (Destroy <$> elements T ptr (space / size_of T))
       else mret tt);
  dynamic_free ptr.

(** ** On the collective allocator: the home node of the pointer does the work *)
Definition at_home (ptr : Z) (work : prog D unit) : prog D unit := fun s =>
  match '(d, g) ← gp_make P (n_dirs s) ptr false false; gp_node P d g with
  | Ok (d, _, home) =>
    let s := {| n_heap := n_heap s; n_dirs := d |} in
    if node_id =? home then work s else (Ok tt, s)
  | Throw e => (Throw e, s)
  | Hang => (Hang, s)
  end.

Definition conew_ (T : type_info) (APs : list allocation) (args : nat) : prog D Z :=
  let init := initialize_flag T APs args in
  ptr ← collective_alloc (size_of T);
  _ ← (if init then at_home ptr (emit [Construct ptr]) else mret tt);
  _ ← (if synchronize_flag init APs then barrier else mret tt);
  mret ptr.

Definition codelete_ (T : type_info) (APs : list allocation) (ptr : Z) : prog D unit :=
  if ptr =? nullptr then mret tt else
  let deinit := deinitialize_flag T APs in
  _ ← (if deinit then at_home ptr (emit [Destroy ptr]) else mret tt);
  _ ← (if synchronize_flag deinit APs then barrier else mret tt);
  collective_free ptr.

Definition conew_array (T : type_info) (APs : list allocation) (size : Z) : prog D Z :=
  let init := initialize_flag T APs 0 in
  ptr ← collective_alloc (mul64 (size_of T) size);
  _ ← (if init then at_home ptr (emit (Construct <$> elements T ptr size)) else mret tt);
  _ ← (if synchronize_flag init APs then barrier else mret tt);
  mret ptr.

Definition codelete_array (T : type_info) (APs : list allocation) (ptr : Z) : prog D unit :=
  if ptr =? nullptr then mret tt else
  let deinit := deinitialize_flag T APs in
  _ ← (if deinit then
         at_home ptr (space ← on_heap (fun h => (allocated_space (default_collective_allocator h) ptr, h));
                      emit (Destroy <$> elements T ptr (space / size_of T)))
       else mret tt);
  _ ← (if synchronize_flag deinit APs then barrier else mret tt);
  collective_free ptr.

End Node.

(** ** A collective call on all nodes

    [broadcast_of] is what node 0 sends from inside [grow], if it gets there: the
    base of its chunk, which nothing changes between there and the return. *)
Definition broadcast_of (h0 : heap) (size : Z) : Z :=
  memory (dy_chunk (mempool (snd (collective_allocate 0 nullptr
    (attach (default_global_allocator h0) (default_collective_allocator h0)) size)))).

(** The nodes run their calls in the given order, the directories being shared. *)
Fixpoint run_all {D A} (f : Z -> prog D A) (order : list Z) (hs : Z -> heap) (d : D) :
    list (outcome A) * (Z -> heap) * D :=
  match order with
  | [] => ([], hs, d)
  | k :: order =>
    let '(r, s) := f k {| n_heap := hs k; n_dirs := d |} in
    let '(rs, hs, d) := run_all f order (<[k := n_heap s]> hs) (n_dirs s) in
    (r :: rs, hs, d)
  end.

Definition conew_all {D} (P : Z -> policy D) (T : type_info) (APs : list allocation) (args : nat)
    (order : list Z) (hs : Z -> heap) (d : D) : list (outcome Z) * (Z -> heap) * D :=
  run_all (fun k => conew_ (P k) k (broadcast_of (hs 0) (size_of T)) T APs args) order hs d.

(** Any node's allocation follows that of node 0. *)
Lemma collective_follow c sz fl a a0 k b b0 n p s0 :
  k <> 0 ->
  collective_allocate 0 b0 {| mempool := {| dy_chunk := c; dy_allocator := a0 |};
                              allocation_size := sz; freelist := fl |} n = (Ok p, s0) ->
  b = memory (dy_chunk (mempool s0)) ->
  collective_allocate k b {| mempool := {| dy_chunk := c; dy_allocator := a |};
                             allocation_size := sz; freelist := fl |} n
  = (Ok p, attach a (detach s0)).
Proof.
  intros Hk. unfold collective_allocate, allocate. simpl.
  assert (Hfollow : forall s s1 m m', detach s1 = detach s -> dy_allocator (mempool s1) = a ->
    grow_and_reserve (collective_pool global_alloc 0 b0) s m m' = (Ok p, s0) ->
    b = memory (dy_chunk (mempool s0)) ->
    grow_and_reserve (collective_pool global_alloc k b) s1 m m' = (Ok p, attach a (detach s0))).
  { clear sz fl c n. intros [[c g] sz fl] [[c1 a1] sz1 fl1] m m' E E'. unfold detach in E. simpl in E, E'.
    injection E as -> -> ->. subst a1. unfold grow_and_reserve. simpl.
    unfold grow_node_zero_only, grow_local. rewrite (proj2 (Z.eqb_neq k 0) Hk). simpl.
    destruct (global_alloc g (grow_size m)) as [[q|[]|] g'] eqn:Ea; simpl; try done.
    destruct (q =? nullptr) eqn:Eq; [done|]. unfold dynamic_reserve, reserve, record_size. simpl.
    destruct (_ <? _) eqn:El; [done|]. intros [= <- <-]. simpl. intros ->.
    rewrite Eq. simpl. rewrite El. done. }
  destruct (fl !! aligned_n 1 n) as [[|p0 l]|] eqn:Ef.
  2: { intros [= <- <-] _. done. }
  all: unfold dynamic_reserve; simpl; destruct (reserve c (aligned_alloc_size 1 n)) as [[q0|[]|] c0] eqn:El; simpl; try done;
    [intros [= <- <-] _; unfold record_size; simpl; done|].
  all: unfold keep_remainder, set_pool; simpl; unfold dynamic_available; simpl;
    destruct (0 <? available c0); [|apply Hfollow; done].
  all: unfold dynamic_reserve; simpl; destruct (reserve c0 (available c0)) as [[q| |] c'] eqn:Er; simpl; try done;
    apply Hfollow; unfold record_size; simpl; done.
Qed.

Lemma collective_allocate_zero b b' s n : collective_allocate 0 b s n = collective_allocate 0 b' s n.
Proof. reflexivity. Qed.

Lemma attach_eta g a : attach g a = {| mempool := {| dy_chunk := mempool a; dy_allocator := g |};
                                       allocation_size := allocation_size a; freelist := freelist a |}.
Proof. reflexivity. Qed.

(** The allocation of every node, when they agree and that of node 0 succeeds. *)
Lemma collective_allocates (hs : Z -> heap) k n p s0 :
  default_collective_allocator (hs k) = default_collective_allocator (hs 0) ->
  collective_allocate 0 nullptr (attach (default_global_allocator (hs 0)) (default_collective_allocator (hs 0))) n
    = (Ok p, s0) ->
  exists g, collective_allocate k (broadcast_of (hs 0) n)
    (attach (default_global_allocator (hs k)) (default_collective_allocator (hs k))) n = (Ok p, attach g (detach s0)).
Proof.
  intros Ek E0. unfold broadcast_of. rewrite E0. simpl. destruct (decide (k = 0)) as [->|Hk].
  - exists (dy_allocator (mempool s0)). rewrite (collective_allocate_zero _ nullptr), E0. f_equal. by destruct s0 as [[] ? ?].
  - exists (default_global_allocator (hs k)). rewrite Ek, attach_eta. rewrite attach_eta in E0.
    eapply collective_follow; [done|exact E0|done].
Qed.

Section Collective.

Context {D : Type} (P : Z -> policy D) (N : Z) (dom : Z -> Prop) (Inv : D -> Prop) (loc : D -> Z -> option (Z * Z)).
Context (HP : forall k, 0 <= k < N -> StablePolicy (P k) N dom Inv loc).

(** The home node found by a fresh pointer. *)
Lemma home_found k d p : 0 <= k < N -> Inv d -> dom p -> exists d' g home o,
  ('(d, g) ← gp_make (P k) d p false false; gp_node (P k) d g) = Ok (d', g, home) /\
  Inv d' /\ keeps dom loc d d' /\ loc d' p = Some (home, o) /\ 0 <= home < N.
Proof using HP.
  intros Hk Hd Hp. pose proof (HP k Hk) as HS.
  destruct (gp_make_ok (P k) N dom Inv loc d p false false Hd Hp) as (d1 & g & -> & Hd1 & Hk1 & Hg). simpl.
  destruct (gp_node_spec (P k) N dom Inv loc d1 p g Hd1 Hp Hg) as (d2 & g2 & h & o & -> & Hd2 & Hk2 & _ & Hl & _).
  exists d2, g2, h, o. split_and!; try done.
  - intros q l Hq H. auto.
  - by apply (sp_range (P := P k) d2 p h o).
  - by apply (sp_range (P := P k) d2 p h o).
Qed.

Context (T : type_info) (APs : list allocation) (args : nat) (p : Z) (Hp : dom p).
Context (Hinit : initialize_flag T APs args = true).

(** What a node does in a call it has home [home] for. *)
Definition conew_events (k home : Z) : list event :=
  [Barrier] ++ (if k =? home then [Construct p] else []) ++
  (if synchronize_flag true APs then [Barrier] else []).

Lemma conew_node k b h d s : 0 <= k < N -> Inv d ->
  collective_allocate k b (attach (default_global_allocator h) (default_collective_allocator h)) (size_of T) = (Ok p, s) ->
  exists h' d' home o, conew_ (P k) k b T APs args {| n_heap := h; n_dirs := d |} = (Ok p, {| n_heap := h'; n_dirs := d' |}) /\
    default_collective_allocator h' = detach s /\ trace h' = trace h ++ conew_events k home /\
    Inv d' /\ keeps dom loc d d' /\ loc d' p = Some (home, o) /\ 0 <= home < N.
Proof using HP Hp Hinit.
  intros Hk Hd E. destruct (home_found k d p Hk Hd Hp) as (d' & g & home & o & Eg & Hd' & Hkeep & Hl & Hh).
  unfold conew_, collective_alloc, barrier, emit. rewrite Hinit.
  cbv [mbind prog_bind on_heap mret prog_ret]. simpl. rewrite E. cbv beta iota. unfold at_home. simpl n_dirs. rewrite Eg.
  unfold conew_events. destruct (k =? home) eqn:Eh, (synchronize_flag true APs); simpl;
    eexists _, d', home, o; (split; [reflexivity|]); rewrite Eh; simpl;
    rewrite <- ?(assoc_L (++)); simpl; done.
Qed.

Lemma conew_run hs0 s0 order : forall hs d, NoDup order ->
  Forall (fun k => 0 <= k < N /\ hs k = hs0 k /\
    default_collective_allocator (hs0 k) = default_collective_allocator (hs0 0)) order ->
  Inv d ->
  collective_allocate 0 nullptr (attach (default_global_allocator (hs0 0)) (default_collective_allocator (hs0 0))) (size_of T)
    = (Ok p, s0) ->
  exists hs' d', run_all (fun k => conew_ (P k) k (broadcast_of (hs0 0) (size_of T)) T APs args) order hs d
    = (replicate (length order) (Ok p), hs', d') /\
    Inv d' /\ keeps dom loc d d' /\ (forall k, k ∉ order -> hs' k = hs k) /\
    forall k, k ∈ order -> exists home o, loc d' p = Some (home, o) /\ 0 <= home < N /\
      default_collective_allocator (hs' k) = detach s0 /\ trace (hs' k) = trace (hs0 k) ++ conew_events k home.
Proof using HP Hp Hinit.
  induction order as [|k order IH]; intros hs d Hnd Hall Hd E0.
  { exists hs, d. split_and!; [done|done|by intros q l|done|]. intros k Hk. by apply elem_of_nil in Hk. }
  apply NoDup_cons in Hnd as [Hnk Hnd]. apply Forall_cons in Hall as [(Hk & Ek & Ec) Hall].
  destruct (collective_allocates hs0 k _ p s0 Ec E0) as (g & Ea).
  destruct (conew_node k (broadcast_of (hs0 0) (size_of T)) (hs k) d (attach g (detach s0)) Hk Hd) as (h' & d1 & home & o & Er & Ecoll & Et & Hd1 & Hk1 & Hl & Hh).
  { by rewrite Ek. }
  destruct (IH (<[k := h']> hs) d1) as (hs' & d' & Er' & Hd' & Hk' & Hout & Hin); try done.
  { rewrite Forall_forall in Hall |- *. intros j Hj. rewrite fn_lookup_insert_ne by (intros ->; done). by apply Hall. }
  exists hs', d'. simpl. rewrite Er. simpl. rewrite Er'. split_and!; try done.
  - intros q l Hq H. auto.
  - intros j Hj. apply not_elem_of_cons in Hj as [Hj1 Hj2]. rewrite Hout by done. by rewrite fn_lookup_insert_ne.
  - intros j Hj. apply elem_of_cons in Hj as [->|Hj]; [|auto]. exists home, o.
    rewrite (Hout k Hnk), fn_lookup_insert, <- Ek. split_and!; auto.
    + lia.
    + lia.
Qed.

(** C29: a collective [conew_] with initialisation, called by all nodes in any order.
    If the objects are initialised, the nodes' collective allocators agree before the
    call and that of node 0 can serve the request, every node gets the same pointer,
    exactly its home node runs the constructor, and the allocators agree again.  (After
    a request that is refused they need not: [failed_collective_disagrees].) *)
Theorem conew_collective (hs : Z -> heap) (d : D) (order : list Z) :
  order ≡ₚ seqZ 0 N -> Inv d ->
  (forall k, 0 <= k < N -> default_collective_allocator (hs k) = default_collective_allocator (hs 0)) ->
  fst (collective_allocate 0 nullptr
    (attach (default_global_allocator (hs 0)) (default_collective_allocator (hs 0))) (size_of T)) = Ok p ->
  0 < N -> exists hs' d' home o,
    conew_all P T APs args order hs d = (replicate (length order) (Ok p), hs', d') /\
    Inv d' /\ loc d' p = Some (home, o) /\ 0 <= home < N /\
    forall k, 0 <= k < N ->
      trace (hs' k) = trace (hs k) ++ conew_events k home /\
      default_collective_allocator (hs' k) = default_collective_allocator (hs' 0).
Proof using HP Hp Hinit.
  intros Hord Hd Hagree E HN.
  destruct (collective_allocate 0 nullptr _ (size_of T)) as [r s0] eqn:E0. simpl in E. subst r.
  assert (Hin : forall k, k ∈ order <-> 0 <= k < N) by (intros k; rewrite Hord, elem_of_seqZ; lia).
  destruct (conew_run hs s0 order hs d) as (hs' & d' & Er & Hd' & _ & _ & Hk); try done.
  { rewrite Hord. apply NoDup_seqZ. }
  { apply Forall_forall. intros k Hk%Hin. auto. }
  destruct (Hk 0) as (home & o & Hl & Hh & E0' & _); [apply Hin; lia|].
  exists hs', d', home, o. split_and!; try done; try lia. intros k Hk'.
  destruct (Hk k) as (home' & o' & Hl' & _ & Ek & Et); [by apply Hin|].
  rewrite Hl in Hl'. injection Hl' as <- <-. by rewrite Ek, E0', Et.
Qed.

End Collective.

(** After a reset nothing remains of the allocations. *)
Lemma reset_forgets base size h : exists pre,
  reset_allocators base size h =
    {| default_global_allocator := generic_allocator (global_memory_pool base size);
       default_dynamic_allocator := generic_allocator pre; default_collective_allocator := generic_allocator pre;
       trace := trace h |} /\
  attach (generic_allocator (global_memory_pool base size)) (generic_allocator pre) = dynamic_init base size.
Proof. eexists. split; reflexivity. Qed.

(** ** Lifetimes of arrays *)
Section Lifetimes.

Context {D : Type} (base size : Z) (Hbase : 0 < base) (Halign : (max_align | base)).
Context (Hsize : reserved <= size < 2 ^ 62) (Hpages : (max_align | size)).

Abbreviation runs := (client default_dynamic_pool dynamic_lim false (mempool (dynamic_init base size))).

(** The size table knows what was allocated. *)
Lemma allocated_recorded s live rem n p s' :
  runs s live rem -> 0 < n <= dynamic_lim - max_align -> dynamic_allocate s n = (Ok p, s') ->
  p ∉ option_list (remainder_of default_dynamic_pool 1 s n) ++ rem ->
  allocation_size s' !! p = Some (aligned_n 1 n) /\ 0 < p.
Proof using Hbase Halign Hsize Hpages.
  intros Hr Hn E Hp. set (region := (base, size - reserved)).
  assert (Hok : alloc_ok (dynamic_ok region) s live rem).
  { eapply client_ok; [apply dynamic_pool_laws|by apply dynamic_pool_init; [lia|..]| |exact Hr]. done. }
  destruct (allocate_ok default_dynamic_pool dynamic_lim region (dynamic_ok region) s live rem n p s' Hok Hn E) as (_ & _ & Hok').
  destruct (alloc_live default_dynamic_pool dynamic_lim region _ _ _ _ Hok') as (_ & Hin & _).
  apply Forall_cons in Hin as [[Hin _] _]. simpl in Hin. destruct Hok' as [idle [_ _ _ _ A5 _]].
  split; [|lia]. apply A5; [simpl; left|done].
Qed.

(** How many elements the space of an array seems to hold. *)
Lemma array_elements sz n : 0 < sz -> 0 <= n -> 0 < sz * n < 2 ^ 63 ->
  let m := aligned_n 1 (mul64 sz n) / sz in
  n <= m /\ m * sz < n * sz + max_align /\ (max_align <= sz -> m = n).
Proof using.
  intros Hsz Hn Hb. rewrite mul64_small by lia. unfold aligned_n, aligned_alloc_size.
  rewrite Z.div_1_r, mul64_small, Z.mul_1_r by lia.
  destruct (align_up_spec (sz * n)) as [H _]; [lia|]. set (a := align_up (sz * n) max_align) in *.
  pose proof (Z.div_mod a sz ltac:(lia)). pose proof (Z.mod_pos_bound a sz Hsz). simpl.
  assert (Hle0 : n <= a / sz) by (apply Z.div_le_lower_bound; lia).
  split_and!; [done|nia|]. intros Hle. assert (a / sz < n + 1) by (apply Z.div_lt_upper_bound; nia). lia.
Qed.

(** [new_array] constructs the elements in order, and [delete_array] destroys
    them in the same order and gives the memory back: exactly these elements for
    types of at least 16 bytes; for smaller ones it may go on with elements in the
    padding, at most 15 bytes past the array. *)
Theorem array_lifetime (T : type_info) (APs APs' : list allocation) (n p : Z) (h : heap) (d : D) live rem st :
  runs (attach (default_global_allocator h) (default_dynamic_allocator h)) live rem ->
  0 < size_of T -> 0 <= n -> 0 < size_of T * n <= dynamic_lim - max_align ->
  initialize_flag T APs 0 = true -> deinitialize_flag T APs' = true ->
  new_array T APs n {| n_heap := h; n_dirs := d |} = (Ok p, st) ->
  p ∉ option_list (remainder_of default_dynamic_pool 1
        (attach (default_global_allocator h) (default_dynamic_allocator h)) (mul64 (size_of T) n)) ++ rem ->
  exists m h', delete_array T APs' p st = (Ok tt, {| n_heap := h'; n_dirs := d |}) /\
    trace h' = trace h ++ (Construct <$> elements T p n) ++ (Destroy <$> elements T p m) /\
    n <= m /\ m * size_of T < n * size_of T + max_align /\ (max_align <= size_of T -> m = n).
Proof using Hbase Halign Hsize Hpages.
  intros Hr Hsz Hn Hb Hi Hdi E Hp. unfold dynamic_lim, max_align in Hb.
  assert (Eb : mul64 (size_of T) n = size_of T * n) by (apply mul64_small; lia).
  destruct (array_elements (size_of T) n Hsz Hn ltac:(lia)) as (H1 & H2 & H3).
  unfold new_array, dynamic_alloc, emit in E. rewrite Hi in E. cbv [mbind prog_bind on_heap mret prog_ret] in E.
  simpl n_heap in E. simpl n_dirs in E.
  destruct (dynamic_allocate _ (mul64 (size_of T) n)) as [[q| |] s'] eqn:Ea; [|done..].
  injection E as -> <-.
  destruct (allocated_recorded _ live rem (mul64 (size_of T) n) p s' Hr) as [Erec Hpos];
    [unfold dynamic_lim, max_align; rewrite Eb; lia|exact Ea|exact Hp|].
  eexists _, _. unfold delete_array, dynamic_free, emit. rewrite Hdi.
  rewrite (proj2 (Z.eqb_neq p nullptr)) by (unfold nullptr; lia).
  cbv [mbind prog_bind on_heap mret prog_ret]. simpl. unfold allocated_space. simpl. rewrite Erec. simpl.
  split; [reflexivity|]. simpl. by rewrite <- (assoc_L (++)).
Qed.

End Lifetimes.

(** ** Witnesses and counterexamples *)

(** Three nodes and four pages each, placed page by page. *)
Definition heap_space : base_distribution := set_memory_space 3 4096 (3 * 4096 * 4).
Definition heap_policy (k : Z) : policy unit := lift_policy (cyclic_distribution heap_space 1).
Definition heap_init : heap :=
  let g := generic_allocator (global_memory_pool 4096 (3 * 4096 * 4)) in
  let a := generic_allocator {| memory := nullptr; max_size := 0; offset := 0 |} in
  {| default_global_allocator := g; default_dynamic_allocator := a; default_collective_allocator := a; trace := [] |}.

Definition struct24 : type_info := {| size_of := 24; is_trivial := false; is_trivially_destructible := false |}.
Definition struct8 : type_info := {| size_of := 8; is_trivial := false; is_trivially_destructible := false |}.

Lemma heap_space_ok : space_ok heap_space.
Proof. split; vm_compute; intuition congruence. Qed.

#[local] Instance heap_policy_laws k : StablePolicy (heap_policy k) 3 (in_space heap_space) (fun _ => True)
  (static_loc (cyclic_distribution heap_space 1)).
Proof.
  assert (HL : PlacementLaws heap_space (cyclic_distribution heap_space 1)).
  { apply cyclic_laws; [exact heap_space_ok|lia|by exists 4]. }
  exact (lift_stable heap_space (cyclic_distribution heap_space 1) heap_space_ok).
Qed.

Lemma conew_collective_witness :
  exists hs' d' home o,
    conew_all heap_policy struct24 [] 1 [2; 0; 1] (fun _ => heap_init) tt = ([Ok 4096; Ok 4096; Ok 4096], hs', d') /\
    True /\ static_loc (cyclic_distribution heap_space 1) d' 4096 = Some (home, o) /\ 0 <= home < 3 /\
    forall k, 0 <= k < 3 ->
      trace (hs' k) = [] ++ conew_events [] 4096 k home /\
      default_collective_allocator (hs' k) = default_collective_allocator (hs' 0).
Proof.
  apply (conew_collective heap_policy 3 (in_space heap_space) (fun _ => True)
    (static_loc (cyclic_distribution heap_space 1)) (fun k _ => heap_policy_laws k) struct24 [] 1 4096 ltac:(vm_compute; done)
    eq_refl (fun _ => heap_init) tt [2; 0; 1]).
  - change (seqZ 0 3) with [0; 1; 2]. apply (Permutation_app_comm [2] [0; 1]).
  - exact I.
  - reflexivity.
  - vm_compute. reflexivity.
  - lia.
Defined.

Lemma array_lifetime_witness :
  exists m h', delete_array struct24 [] 4096 (snd (new_array struct24 [] 3 {| n_heap := heap_init; n_dirs := tt |}))
      = (Ok tt, {| n_heap := h'; n_dirs := tt |}) /\
    trace h' = [] ++ (Construct <$> elements struct24 4096 3) ++ (Destroy <$> elements struct24 4096 m) /\
    3 <= m /\ m * 24 < 3 * 24 + max_align /\ (max_align <= 24 -> m = 3).
Proof.
  apply (array_lifetime 4096 49152 ltac:(lia) ltac:(by exists 256) ltac:(by vm_compute) ltac:(by exists 3072)
    struct24 [] [] 3 4096 heap_init tt [] []).
  - apply client_init.
  - simpl. lia.
  - lia.
  - by vm_compute.
  - reflexivity.
  - reflexivity.
  - vm_compute. reflexivity.
  - replace (option_list _ ++ _) with (@nil Z) by (vm_compute; reflexivity). apply not_elem_of_nil.
Defined.

(** An array of one 8-byte object: [delete_array] runs a second destructor, on
    the padding after the object. *)
Theorem delete_array_overruns :
  let st := snd (new_array struct8 [] 1 {| n_heap := heap_init; n_dirs := tt |}) in
  trace (n_heap st) = [Construct 4096] /\
  trace (n_heap (snd (delete_array struct8 [] 4096 st))) = [Construct 4096; Destroy 4096; Destroy 4104].
Proof. vm_compute. done. Qed.

(** After a collective request that the global memory cannot serve, all nodes
    have got an exception but their allocators disagree: node 0 has a null chunk and
    the others their old chunk, so the next request returns different pointers, on
    nodes other than 0 that of a block already in use. *)
Theorem failed_collective_disagrees :
  let all f hs := run_all f [0; 1; 2] hs tt in
  let '(r1, hs, _) := conew_all heap_policy struct24 [] 0 [0; 1; 2] (fun _ => heap_init) tt in
  let '(r2, hs, _) := all (fun k => conew_array (heap_policy k) k (broadcast_of (hs 0) 60000) struct24 [] 2500) hs in
  let '(r3, hs, _) := all (fun k => conew_array (heap_policy k) k (broadcast_of (hs 0) 48) struct24 [no_initialize] 2) hs in
  r1 = [Ok 4096; Ok 4096; Ok 4096] /\
  r2 = [Throw bad_alloc; Throw bad_alloc; Throw bad_alloc] /\
  r3 = [Ok nullptr; Ok 4096; Ok 4096].
Proof. vm_compute. done. Qed.
