(* ===== verification/Env.v ===== *)
(** * Environment variables

    [src/src/env/env.cpp]: the nine variables are read once by [init]; the
    accessors throw before that.  A value is read with [std::stringstream >>
    size_t], whose behaviour on text that is not a number is written out. *)

From Stdlib Require Import Ascii String.
From S2P Require Import Prelude.

(** ** Extraction of an unsigned number from a stream

    [operator>>] skips white space; at the end of the text it fails before it
    stores anything.  Otherwise a sign and the digits are read: no digits give 0,
    a value above the maximum gives the maximum, and a minus sign negates modulo
    2^64. *)
Definition code (c : ascii) : Z := Z.of_N (N_of_ascii c).
Definition is_space (c : ascii) : bool := (code c =? 32) || ((9 <=? code c) && (code c <=? 13)).
Definition is_digit (c : ascii) : bool := (48 <=? code c) && (code c <=? 57).

Fixpoint skip_space (l : list ascii) : list ascii :=
  match l with
  | c :: l' => if is_space c then skip_space l' else l
  | [] => []
  end.

(** The digits at the start of the text, [None] if there is none. *)
Fixpoint digits (l : list ascii) (acc : option Z) : option Z :=
  match l with
  | c :: l => if is_digit c then digits l (Some (default 0 acc * 10 + (code c - 48))) else acc
  | [] => acc
  end.

Definition unsigned_value (negative : bool) (d : option Z) : Z :=
  match d with
  | None => 0
  | Some v => if SIZE_MAX <? v then SIZE_MAX else if negative then u64 (- v) else v
  end.

Definition extract (s : string) : outcome Z :=
  match skip_space (list_ascii_of_string s) with
  | [] => Throw (undefined_behaviour "env_value is read uninitialised")
  | c :: l =>
    Ok (if code c =? 45 then unsigned_value true (digits l None)
        else if code c =? 43 then unsigned_value false (digits l None)
        else unsigned_value false (digits (c :: l) None))
  end.

(** ** The module *)
Definition default_memory_size : Z := 8 * 2 ^ 30.
Definition default_cache_size : Z := 2 ^ 30.
Definition default_write_buffer_size : Z := 512.
Definition default_write_buffer_write_back_size : Z := 32.
Definition default_allocation_policy : Z := 0.
Definition default_allocation_block_size : Z := 2 ^ 4.
Definition default_load_size : Z := 8.
Definition default_mpi_windows_per_node : Z := 4.
Definition default_print_statistics : Z := 2.

(** The names of the variables. *)
Definition env_memory_size : string := "ARGO_MEMORY_SIZE".
Definition env_cache_size : string := "ARGO_CACHE_SIZE".
Definition env_write_buffer_size : string := "ARGO_WRITE_BUFFER_SIZE".
Definition env_write_buffer_write_back_size : string := "ARGO_WRITE_BUFFER_WRITE_BACK_SIZE".
Definition env_allocation_policy : string := "ARGO_ALLOCATION_POLICY".
Definition env_allocation_block_size : string := "ARGO_ALLOCATION_BLOCK_SIZE".
Definition env_load_size : string := "ARGO_LOAD_SIZE".
Definition env_mpi_windows_per_node : string := "ARGO_MPI_WINDOWS_PER_NODE".
Definition env_print_statistics : string := "ARGO_PRINT_STATISTICS".

Definition msg_uninitialized : string := "argo::env::init() must be called before accessing environment values".

(** The process environment. *)
Definition environment : Type := gmap string string.

(** The file variables. *)
Record settings := Settings {
  value_memory_size : Z;
  value_cache_size : Z;
  value_write_buffer_size : Z;
  value_write_buffer_write_back_size : Z;
  value_allocation_policy : Z;
  value_allocation_block_size : Z;
  value_load_size : Z;
  value_mpi_windows_per_node : Z;
  value_print_statistics : Z;
  is_initialized : bool;
}.

Definition unset : settings := Settings 0 0 0 0 0 0 0 0 0 false.

Definition assert_initialized (s : settings) : outcome unit :=
  if is_initialized s then Ok tt else Throw (logic_error msg_uninitialized).

(** Neither of the two handled exceptions can be raised by the extraction. *)
Definition parse_env (env : environment) (name : string) (fallback : Z) : outcome (bool * Z) :=
  match env !! name with
  | Some env_string => v ← extract env_string; Ok (true, v)
  | None => Ok (false, fallback)
  end.

Definition init (env : environment) : outcome settings :=
  '(_, memory) ← parse_env env env_memory_size default_memory_size;
  '(_, cache) ← parse_env env env_cache_size default_cache_size;
  '(_, wb) ← parse_env env env_write_buffer_size default_write_buffer_size;
  '(_, back) ← parse_env env env_write_buffer_write_back_size default_write_buffer_write_back_size;
  let back := if wb <? back then wb else back in
  '(_, policy) ← parse_env env env_allocation_policy default_allocation_policy;
  '(_, block) ← parse_env env env_allocation_block_size default_allocation_block_size;
  '(_, load) ← parse_env env env_load_size default_load_size;
  '(_, windows) ← parse_env env env_mpi_windows_per_node default_mpi_windows_per_node;
  '(_, stats) ← parse_env env env_print_statistics default_print_statistics;
  Ok {| value_memory_size := memory; value_cache_size := cache; value_write_buffer_size := wb;
        value_write_buffer_write_back_size := back; value_allocation_policy := policy;
        value_allocation_block_size := block; value_load_size := load; value_mpi_windows_per_node := windows;
        value_print_statistics := stats; is_initialized := true |}.

Definition access (f : settings -> Z) (s : settings) : outcome Z := _ ← assert_initialized s; Ok (f s).
Definition memory_size : settings -> outcome Z := access value_memory_size.
Definition cache_size : settings -> outcome Z := access value_cache_size.
Definition write_buffer_size : settings -> outcome Z := access value_write_buffer_size.
Definition write_buffer_write_back_size : settings -> outcome Z := access value_write_buffer_write_back_size.
Definition allocation_policy : settings -> outcome Z := access value_allocation_policy.
Definition allocation_block_size : settings -> outcome Z := access value_allocation_block_size.
Definition load_size : settings -> outcome Z := access value_load_size.
Definition mpi_windows_per_node : settings -> outcome Z := access value_mpi_windows_per_node.
Definition print_statistics : settings -> outcome Z := access value_print_statistics.

(** ** Decimal text *)
Definition digit (d : Z) : ascii := ascii_of_N (Z.to_N (48 + d)).

Fixpoint decimal_go (fuel : nat) (n : Z) (acc : list ascii) : list ascii :=
  let acc := digit (n mod 10) :: acc in
  match fuel with
  | O => acc
  | S fuel => if n <? 10 then acc else decimal_go fuel (n / 10) acc
  end.
Definition decimal (n : Z) : string := string_of_list_ascii (decimal_go 20 n []).

Lemma digit_code d : 0 <= d < 10 -> code (digit d) = 48 + d.
Proof. intros H. unfold code, digit. rewrite N_ascii_embedding by lia. lia. Qed.

Lemma digit_is_digit d : 0 <= d < 10 -> is_digit (digit d) = true.
Proof. intros H. unfold is_digit. rewrite digit_code by done. apply andb_true_iff. split; apply Z.leb_le; lia. Qed.

Lemma decimal_digits fuel : forall n acc, 0 <= n < 10 ^ (Z.of_nat fuel + 1) ->
  digits (decimal_go fuel n acc) None = digits acc (Some n).
Proof.
  assert (Hstep : forall n acc a, 0 <= n -> digits (digit (n mod 10) :: acc) a = digits acc (Some (default 0 a * 10 + n mod 10))).
  { intros n acc a Hn. pose proof (Z.mod_pos_bound n 10 ltac:(done)). cbn [digits].
    rewrite digit_is_digit, digit_code by lia. do 2 f_equal. lia. }
  induction fuel as [|fuel IH]; intros n acc Hn.
  - cbn [decimal_go]. rewrite Hstep by lia. rewrite Z.mod_small by (simpl in Hn; lia). done.
  - cbn [decimal_go]. destruct (Z.ltb_spec n 10).
    + rewrite Hstep by lia. by rewrite Z.mod_small by lia.
    + rewrite IH.
      * rewrite Hstep by lia. cbn [default from_option id]. do 2 f_equal. pose proof (Z.div_mod n 10 ltac:(done)). lia.
      * split; [apply Z.div_pos; lia|]. apply Z.div_lt_upper_bound; [lia|].
        rewrite Nat2Z.inj_succ in Hn. replace (Z.succ (Z.of_nat fuel) + 1) with (Z.of_nat fuel + 1 + 1) in Hn by lia.
        rewrite (Z.pow_add_r 10 _ 1) in Hn by lia. lia.
Qed.

Lemma decimal_head fuel : forall n acc, 0 <= n -> exists c l, decimal_go fuel n acc = c :: l /\ is_digit c = true.
Proof.
  induction fuel as [|fuel IH]; intros n acc Hn; cbn [decimal_go];
    pose proof (Z.mod_pos_bound n 10 ltac:(done));
    [|destruct (n <? 10); [|apply IH; apply Z.div_pos; lia]]; eexists _, _; (split; [reflexivity|]); by apply digit_is_digit.
Qed.

Lemma digit_not_special c : is_digit c = true -> is_space c = false /\ code c <> 45 /\ code c <> 43.
Proof.
  unfold is_digit, is_space. intros [H1%Z.leb_le H2%Z.leb_le]%andb_true_iff. split_and!; [|lia..].
  apply orb_false_iff. split; [apply Z.eqb_neq; lia|]. apply andb_false_iff. right. apply Z.leb_gt. lia.
Qed.

Lemma extract_decimal n : 0 <= n <= SIZE_MAX -> extract (decimal n) = Ok n.
Proof.
  intros Hn. assert (Hb : SIZE_MAX < 10 ^ (Z.of_nat 20 + 1)) by done.
  unfold extract, decimal. rewrite list_ascii_of_string_of_list_ascii.
  destruct (decimal_head 20 n []) as (c & l & E & Hc); [lia|].
  pose proof (decimal_digits 20 n [] ltac:(lia)) as Hd. rewrite E in Hd |- *. cbn [skip_space].
  destruct (digit_not_special c Hc) as (-> & Hm%Z.eqb_neq & Hp%Z.eqb_neq). rewrite Hm, Hp, Hd. simpl.
  by destruct (Z.ltb_spec SIZE_MAX n); [lia|].
Qed.

(** ** Theorems *)

(** Text that holds nothing but white space. *)
Definition blank (s : string) : bool := match skip_space (list_ascii_of_string s) with [] => true | _ => false end.

(** The configuration the program runs with.  If the variables that are set hold
    decimal numbers of [size_t], [init] returns, every accessor gives its
    variable's number or the default, and the write-back size is at most the size
    of the write buffer. *)
Theorem env_init (cfg : string -> option Z) (env : environment) :
  (forall name, env !! name = decimal <$> cfg name) ->
  (forall name v, cfg name = Some v -> 0 <= v <= SIZE_MAX) ->
  let get name dflt := default dflt (cfg name) in
  exists s, init env = Ok s /\
    memory_size s = Ok (get env_memory_size default_memory_size) /\
    cache_size s = Ok (get env_cache_size default_cache_size) /\
    write_buffer_size s = Ok (get env_write_buffer_size default_write_buffer_size) /\
    write_buffer_write_back_size s
      = Ok (Z.min (get env_write_buffer_size default_write_buffer_size)
                  (get env_write_buffer_write_back_size default_write_buffer_write_back_size)) /\
    allocation_policy s = Ok (get env_allocation_policy default_allocation_policy) /\
    allocation_block_size s = Ok (get env_allocation_block_size default_allocation_block_size) /\
    load_size s = Ok (get env_load_size default_load_size) /\
    mpi_windows_per_node s = Ok (get env_mpi_windows_per_node default_mpi_windows_per_node) /\
    print_statistics s = Ok (get env_print_statistics default_print_statistics).
Proof.
  intros Henv Hcfg get.
  assert (Hp : forall name fb, parse_env env name fb = Ok (bool_decide (is_Some (cfg name)), get name fb)).
  { intros name fb. unfold parse_env, get. rewrite Henv. destruct (cfg name) as [v|] eqn:E; simpl; [|done].
    rewrite extract_decimal by (by eapply Hcfg). done. }
  unfold init. rewrite !Hp. cbn [mbind outcome_bind]. eexists. split; [reflexivity|].
  split_and!; try done. simpl. unfold write_buffer_write_back_size, access. simpl. f_equal.
  destruct (Z.ltb_spec (get env_write_buffer_size default_write_buffer_size)
    (get env_write_buffer_write_back_size default_write_buffer_write_back_size)); lia.
Qed.

Definition demo_cfg (name : string) : option Z :=
  if decide (name = env_write_buffer_size) then Some 16
  else if decide (name = env_allocation_policy) then Some 3 else None.
Definition demo_env : environment :=
  <[env_write_buffer_size := "16"%string]> (<[env_allocation_policy := "3"%string]> ∅).

Lemma env_init_witness :
  exists s, init demo_env = Ok s /\ write_buffer_write_back_size s = Ok 16 /\ allocation_policy s = Ok 3 /\
    load_size s = Ok 8.
Proof.
  destruct (env_init demo_cfg demo_env) as (s & E & _ & _ & _ & H1 & H2 & _ & H3 & _).
  - intros name. unfold demo_env, demo_cfg. destruct (decide (name = env_write_buffer_size)) as [->|N1].
    + reflexivity.
    + destruct (decide (name = env_allocation_policy)) as [->|N2]; [reflexivity|].
      unfold environment. rewrite !lookup_insert_ne by done. apply lookup_empty.
  - intros name v. unfold demo_cfg. repeat case_decide; intros [= <-]; unfold SIZE_MAX; lia.
  - exists s. exact (conj E (conj H1 (conj H2 H3))).
Defined.

(** No text is ever rejected.  A variable that is set is read as some number,
    without an exception, unless it is blank; then the value is never assigned. *)
Theorem parse_env_never_rejects (env : environment) (name : string) (fallback : Z) :
  match env !! name with
  | None => parse_env env name fallback = Ok (false, fallback)
  | Some text =>
    if blank text then parse_env env name fallback = Throw (undefined_behaviour "env_value is read uninitialised")
    else exists v, parse_env env name fallback = Ok (true, v)
  end /\
  extract "four" = Ok 0 /\ extract "4k" = Ok 4 /\ extract "-1" = Ok SIZE_MAX.
Proof.
  split; [|done]. unfold parse_env, blank, extract. destruct (env !! name) as [text|]; [|done].
  destruct (skip_space (list_ascii_of_string text)); [done|]. eexists. reflexivity.
Qed.
