(* ===== verification/Init.v ===== *)
(** * Initialisation

    [argo::init] ([src/src/argo.cpp]) checks the configuration and adds the space
    for internal use; [argo_initialize] ([src/src/backend/mpi/swdsm.cpp]) derives
    the sizes of the system and the layout of each node's backing file.  MPI gives
    the number of nodes, the virtual memory layer the start address. *)

From S2P Require Import Prelude BlockMap DataDistribution FirstTouch GlobalPtr Mem Swdsm SwdsmBase Mempool Env.

(** ** The front end *)
Definition argo_init (s : settings) (argo_size cache_size : Z) : outcome (Z * Z) :=
  requested_argo_size ← (if argo_size =? 0 then memory_size s else Ok argo_size);
  let requested_argo_size := add64 requested_argo_size reserved in
  requested_cache_size ← (if cache_size =? 0 then Env.cache_size s else Ok cache_size);
  policy ← allocation_policy s;
  if negb (policy <=? 4)
  then Throw (invalid_argument "Invalid policy (must be a number between 0 and 4)") else
  block_size ← allocation_block_size s;
  if block_size =? 0
  then Throw (invalid_argument "Invalid page block size (must be a number bigger than 0)") else
  load ← Env.load_size s;
  if load =? 0
  then Throw (invalid_argument "Invalid load size (must be a number bigger than 0)") else
  windows ← mpi_windows_per_node s;
  if windows =? 0
  then Throw (invalid_argument "Invalid number of MPI windows (must be a number bigger than 0)") else
  level ← print_statistics s;
  if 3 <? level
  then Throw (invalid_argument "Invalid statistics level (must be a number between 0 and 3)") else
  Ok (requested_argo_size, requested_cache_size).

(** ** The backend *)
Definition align_forwards (offset size : Z) : Z :=
  if offset =? 0 then offset else mul64 (add64 1 (sub64 offset 1 / size)) size.

(** Where the regions of the backing file start, and its end. *)
Record file_layout := FileLayout {
  f_cacheData : Z;
  f_cacheControl : Z;
  f_globalData : Z;
  f_globalSharers : Z;
  f_owners_dir : Z;
  f_offsets_tbl : Z;
  f_end : Z;
  cacheoffset : Z;
}.

Definition sizeof_control_data : Z := 16.

Definition standard_size (s : settings) (n argo_size : Z) : Z :=
  align_forwards (Z.max argo_size (mul64 PAGE_SIZE n))
    (mul64 (mul64 (PAGE_SIZE * CACHELINE) n) (policy_padding (value_allocation_policy s) (value_allocation_block_size s) n)).

Definition cache_pages (argo_size cache_size : Z) : Z :=
  Z.max (align_forwards (Z.min argo_size cache_size) (PAGE_SIZE * CACHELINE)) (PAGE_SIZE * CACHELINE * 2) / PAGE_SIZE.

Definition argo_initialize (s : settings) (n start argo_size cache_size : Z) : dsm_config * file_layout :=
  let argo_size := standard_size s n argo_size in
  let cachesize := cache_pages argo_size cache_size in
  let classification := mul64 2 (argo_size / PAGE_SIZE) in
  let size_of_chunk := argo_size / n in
  let cacheControlSize := align_forwards (mul64 sizeof_control_data cachesize) PAGE_SIZE in
  let gwritersize := align_forwards (mul64 classification 8) PAGE_SIZE in
  let owners_dir_size_bytes := align_forwards (mul64 (mul64 3 (argo_size / PAGE_SIZE)) 8) PAGE_SIZE in
  let offsets_tbl_size_bytes := align_forwards (mul64 n 8) PAGE_SIZE in
  let o1 := mul64 PAGE_SIZE cachesize in
  let o2 := add64 o1 cacheControlSize in
  let o3 := add64 o2 size_of_chunk in
  let first_touch := is_first_touch_policy (value_allocation_policy s) in
  let o4 := if first_touch then add64 o3 gwritersize else o3 in
  let o5 := if first_touch then add64 o4 owners_dir_size_bytes else o4 in
  ({| numtasks := n; cachesize := cachesize; Swdsm.load_size := value_load_size s;
      mpi_windows := if 1 <? n then mul64 (value_mpi_windows_per_node s) n else 1;
      size_of_all := argo_size; startAddr := start;
      wb_max_size := value_write_buffer_size s / CACHELINE;
      wb_write_back_size := value_write_buffer_write_back_size s / CACHELINE |},
   {| f_cacheData := 0; f_cacheControl := o1; f_globalData := o2; f_globalSharers := o3; f_owners_dir := o4;
      f_offsets_tbl := o5;
      f_end := if first_touch then add64 o5 offsets_tbl_size_bytes else add64 o3 gwritersize;
      cacheoffset := add64 (mul64 PAGE_SIZE cachesize) cacheControlSize |}).

(** The index range [argo_reset_coherence] clears in the directory. *)
Definition reset_indices (c : dsm_config) : list Z :=
  i ← (fun k => k * (Swdsm.load_size c * 2)) <$> seqZ 0 ((classificationSize c + (Swdsm.load_size c * 2 - 1)) / (Swdsm.load_size c * 2));
  seqZ i (Swdsm.load_size c * 2).

(** ** Rounding *)
Lemma align_forwards_spec o sz : 0 <= o -> 0 < sz -> o + sz < 2 ^ 64 ->
  o <= align_forwards o sz < o + sz /\ (sz | align_forwards o sz).
Proof.
  intros Ho Hs Hb. unfold align_forwards. destruct (Z.eqb_spec o 0) as [->|Hne]; [split; [lia|apply Z.divide_0_r]|].
  rewrite sub64_small by lia. pose proof (Z.div_mod (o - 1) sz ltac:(lia)). pose proof (Z.mod_pos_bound (o - 1) sz Hs).
  pose proof (Z.div_pos (o - 1) sz ltac:(lia) Hs). set (q := (o - 1) / sz) in *.
  assert (q <= o) by nia. rewrite add64_small, mul64_small by nia. split; [nia|by exists (1 + q)].
Qed.

(** ** Configurations within the limits of the implementation *)
Definition padding_of (s : settings) (n : Z) : Z :=
  if value_allocation_policy s =? 0 then 1
  else if value_allocation_policy s =? 3 then value_allocation_block_size s * (3 * n / 2)
  else if value_allocation_policy s =? 4 then 1
  else value_allocation_block_size s.

Record within_limits (s : settings) (n start request : Z) : Prop := {
  wl_nodes : 1 <= n <= 64;
  wl_start : 0 <= start /\ start + 2 ^ 42 < 2 ^ 64;
  wl_memory : 0 <= request /\ request + PAGE_SIZE * n + PAGE_SIZE * n * padding_of s n <= 2 ^ 42;
  wl_block : 1 <= value_allocation_block_size s;
  wl_policy : 0 <= value_allocation_policy s <= 4;
  wl_load : 1 <= value_load_size s < 2 ^ 62;
  wl_windows : 1 <= value_mpi_windows_per_node s < 2 ^ 56;
  wl_buffer : 0 <= value_write_buffer_write_back_size s <= value_write_buffer_size s;
}.

Section Sizes.

Context (s : settings) (n start request cache : Z) (H : within_limits s n start request) (Hcache : 0 <= cache).

Abbreviation conf := (fst (argo_initialize s n start request cache)).
Abbreviation files := (snd (argo_initialize s n start request cache)).

Lemma padding_eq : policy_padding (value_allocation_policy s) (value_allocation_block_size s) n = padding_of s n /\
  1 <= padding_of s n <= 2 ^ 42.
Proof using H.
  destruct H as [Hn _ [Hr Hm] Hb Hp _ _ _]. unfold PAGE_SIZE in Hm. unfold policy_padding, padding_of in *.
  assert (H3 : 1 <= 3 * n / 2) by (apply Z.div_le_lower_bound; lia).
  unfold is_cyclic_policy, is_prime_mapp_policy, policy_number. rewrite u32_small by lia.
  destruct (Z.eqb_spec (value_allocation_policy s) 0) as [->|]; [simpl; unfold mul64, u64; split; [done|lia]|].
  destruct (Z.eqb_spec (value_allocation_policy s) 3) as [->|].
  { simpl. rewrite mul64_small by nia. split; [done|nia]. }
  destruct (Z.eqb_spec (value_allocation_policy s) 4) as [->|]; [simpl; unfold mul64, u64; split; [done|lia]|].
  assert (value_allocation_policy s = 1 \/ value_allocation_policy s = 2) as [E|E] by lia; rewrite E; simpl;
    rewrite mul64_small by nia; nia.
Qed.

Lemma standard_size_spec : let size := standard_size s n request in
  request <= size <= 2 ^ 42 /\ PAGE_SIZE * n <= size /\ (PAGE_SIZE * n * padding_of s n | size).
Proof using H.
  destruct padding_eq as [E Hpad]. destruct H as [Hn _ [Hr Hm] _ _ _ _ _]. unfold standard_size. rewrite E.
  assert (Hps : PAGE_SIZE = 4096) by done. unfold CACHELINE. rewrite Hps in *.
  rewrite (mul64_small 4096 n), (mul64_small (4096 * 1) n), mul64_small by nia.
  replace (4096 * 1 * n * padding_of s n) with (4096 * n * padding_of s n) by ring.
  destruct (align_forwards_spec (Z.max request (4096 * n)) (4096 * n * padding_of s n)) as [H1 H2]; [nia|nia|nia|].
  cbv zeta. split_and!; [lia|lia|lia|done].
Qed.

Lemma cache_pages_spec size : 0 <= size <= 2 ^ 42 ->
  2 <= cache_pages size cache <= 2 ^ 42.
Proof using Hcache.
  intros Hs. unfold cache_pages, PAGE_SIZE, CACHELINE.
  destruct (align_forwards_spec (Z.min size cache) (4096 * 1)) as [H1 _]; [lia|lia|lia|].
  split; [apply Z.div_le_lower_bound; lia|]. apply Z.div_le_upper_bound; lia.
Qed.

Lemma init_space : space_ok (dist_of conf) /\ (PAGE_SIZE | size_per_node (dist_of conf)).
Proof using H.
  destruct standard_size_spec as (H1 & H2 & [k Hk]). destruct padding_eq as [_ Hpad]. destruct H as [Hn [Hs Hs'] _ _ _ _ _ _].
  simpl. unfold dist_of, set_memory_space. simpl. set (size := standard_size s n request) in *.
  assert (E : size / n = PAGE_SIZE * (padding_of s n * k)).
  { rewrite Hk. replace (k * (PAGE_SIZE * n * padding_of s n)) with (PAGE_SIZE * (padding_of s n * k) * n) by ring.
    by apply Z.div_mul; lia. }
  assert (0 < k) by (unfold PAGE_SIZE in *; nia).
  split; [|exists (padding_of s n * k); simpl; rewrite E; ring].
  split; simpl; try lia; rewrite E; unfold PAGE_SIZE in *; nia.
Qed.

Lemma init_policy : value_allocation_policy s <= 3 -> exists pl,
  static_policy (value_allocation_policy s) (value_allocation_block_size s) (dist_of conf) = Some pl /\
  PlacementLaws (dist_of conf) pl.
Proof using H.
  intros Hp. destruct init_space as [Hsp _]. destruct standard_size_spec as (_ & _ & Hk). destruct H.
  apply static_policy_laws; [done|lia|lia|]. unfold policy_fits, padding_of in *. simpl.
  unfold prime_of. simpl. rewrite u32_small by lia. unfold granularity, PAGE_SIZE in *.
  destruct (Z.eqb_spec (value_allocation_policy s) 0); [done|].
  destruct (Z.eqb_spec (value_allocation_policy s) 3); [done|].
  destruct (Z.eqb_spec (value_allocation_policy s) 4); [lia|done].
Qed.

Lemma init_config pl : PlacementLaws (dist_of conf) pl -> cfg_ok conf pl.
Proof using H Hcache.
  intros Hpl. destruct init_space as [Hsp Hsh]. destruct standard_size_spec as (Hs & _ & Hk).
  pose proof (cache_pages_spec (standard_size s n request)) as Hc. destruct H. split; simpl; try done; try lia.
  - destruct (1 <? n); [|lia]. rewrite mul64_small; nia.
  - eapply Z.divide_trans; [|exact Hk]. exists (n * padding_of s n). ring.
  - unfold CACHELINE. rewrite !Z.div_1_r. lia.
Qed.

End Sizes.

(** ** What the environment can hold *)
Lemma digits_nonneg l : forall acc v, (forall a, acc = Some a -> 0 <= a) -> digits l acc = Some v -> 0 <= v.
Proof.
  induction l as [|c l IH]; intros acc v Ha E; [by apply Ha|]. cbn [digits] in E.
  destruct (is_digit c) eqn:Ec; [|by apply Ha]. apply IH in E; [done|]. intros a [= <-].
  unfold is_digit in Ec. apply andb_true_iff in Ec as [Ec%Z.leb_le _].
  destruct acc as [b|]; [specialize (Ha b eq_refl)|]; simpl; lia.
Qed.

Lemma unsigned_range b l : 0 <= unsigned_value b (digits l None) <= SIZE_MAX.
Proof.
  unfold unsigned_value. destruct (digits l None) as [v|] eqn:E; [|done].
  apply digits_nonneg in E; [|done]. destruct (Z.ltb_spec SIZE_MAX v); [done|].
  destruct b; [|lia]. pose proof (u64_range (- v)). unfold SIZE_MAX. lia.
Qed.

Lemma extract_range t v : extract t = Ok v -> 0 <= v <= SIZE_MAX.
Proof.
  unfold extract. destruct (skip_space _) as [|c l]; [done|]. intros E.
  apply (f_equal (ok_or 0)) in E. cbn [ok_or] in E. subst v.
  destruct (_ =? 45); [|destruct (_ =? 43)]; apply unsigned_range.
Qed.

Lemma parse_range env name fb b v : 0 <= fb <= SIZE_MAX -> parse_env env name fb = Ok (b, v) -> 0 <= v <= SIZE_MAX.
Proof.
  intros Hf. unfold parse_env. destruct (env !! name) as [t|].
  - destruct (extract t) as [w| |] eqn:E; [|done..]. simpl. intros [= _ <-]. by apply (extract_range t).
  - by intros [= _ <-].
Qed.

Record settings_range (s : settings) : Prop := {
  sr_init : is_initialized s = true;
  sr_memory : 0 <= value_memory_size s;
  sr_cache : 0 <= value_cache_size s;
  sr_buffer : 0 <= value_write_buffer_write_back_size s <= value_write_buffer_size s;
  sr_policy : 0 <= value_allocation_policy s;
  sr_block : 0 <= value_allocation_block_size s;
  sr_load : 0 <= value_load_size s;
  sr_windows : 0 <= value_mpi_windows_per_node s;
}.

Lemma init_range env s : init env = Ok s -> settings_range s.
Proof.
  unfold init. intros E.
  repeat match type of E with
  | (parse_env ?e ?nm ?fb ≫= _) = _ =>
    let P := fresh "P" in
    destruct (parse_env e nm fb) as [[? ?]| |] eqn:P; [|done..];
    apply parse_range in P; [|done]; cbn [mbind outcome_bind] in E
  end.
  injection E as <-. split; simpl; try done; try lia. destruct (_ <? _) eqn:El; [|apply Z.ltb_ge in El]; lia.
Qed.

Lemma argo_init_ok s argo_size cache_size request cache :
  settings_range s -> 0 <= argo_size -> 0 <= cache_size -> argo_init s argo_size cache_size = Ok (request, cache) ->
  1 <= value_allocation_block_size s /\ value_allocation_policy s <= 4 /\ 1 <= value_load_size s /\
  1 <= value_mpi_windows_per_node s /\ 0 <= request /\ 0 <= cache.
Proof.
  intros [Hi Hm Hc Hb Hp Hbl Hl Hw] Ha Hcs. unfold argo_init.
  unfold memory_size, Env.cache_size, allocation_policy, allocation_block_size, Env.load_size, mpi_windows_per_node,
    print_statistics, access, assert_initialized. rewrite Hi. cbn [mbind outcome_bind].
  set (q := if argo_size =? 0 then _ else _). assert (exists v, q = Ok v) as [v ->] by (unfold q; destruct (_ =? _); eauto).
  set (w := if cache_size =? 0 then _ else _).
  assert (exists v, w = Ok v /\ 0 <= v) as (v' & -> & Hv') by (unfold w; destruct (Z.eqb_spec cache_size 0); eauto).
  cbn [mbind outcome_bind]. destruct (Z.leb_spec (value_allocation_policy s) 4); [|done]. simpl negb. cbv iota.
  destruct (Z.eqb_spec (value_allocation_block_size s) 0); [done|].
  destruct (Z.eqb_spec (value_load_size s) 0); [done|].
  destruct (Z.eqb_spec (value_mpi_windows_per_node s) 0); [done|].
  destruct (3 <? _); [done|]. intros [= <- <-]. pose proof (u64_range (v + reserved)). unfold add64. split_and!; lia.
Qed.

(** ** Theorems *)

(** Initialisation establishes what the rest of the development assumes.  For
    any environment [argo::init] accepts, up to 64 nodes and a memory of at most
    2^42 bytes, [argo_initialize] sets up a space of equal shares of whole pages,
    at least as large as requested, aligned for the selected static policy, which
    therefore keeps its placement contract, and a cache of at least two pages. *)
Theorem init_establishes_contract env s n start argo_size cache_size request cache :
  init env = Ok s -> 0 <= argo_size -> 0 <= cache_size ->
  argo_init s argo_size cache_size = Ok (request, cache) ->
  1 <= n <= 64 -> 0 <= start /\ start + 2 ^ 42 < 2 ^ 64 ->
  request + PAGE_SIZE * n + PAGE_SIZE * n * padding_of s n <= 2 ^ 42 ->
  value_load_size s < 2 ^ 62 -> value_mpi_windows_per_node s < 2 ^ 56 -> value_allocation_policy s <= 3 ->
  let c := fst (argo_initialize s n start request cache) in
  exists pl, static_policy (value_allocation_policy s) (value_allocation_block_size s) (dist_of c) = Some pl /\
    cfg_ok c pl /\ request <= size_of_all c /\ 2 <= cachesize c.
Proof.
  intros Es%init_range Ha Hcs Ei Hn Hst Hm Hl Hw Hp c.
  destruct (argo_init_ok _ _ _ _ _ Es Ha Hcs Ei) as (H1 & H2 & H3 & H4 & H5 & H6).
  assert (Hlim : within_limits s n start request) by (destruct Es; split; done || lia).
  destruct (init_policy s n start request cache Hlim Hp) as (pl & E & Hpl). exists pl.
  destruct (standard_size_spec s n start request Hlim) as (Hs & _). split_and!; [done| |simpl; lia|].
  - by apply init_config.
  - simpl. apply cache_pages_spec; lia.
Qed.

Lemma init_establishes_contract_witness :
  exists s pl, init demo_env = Ok s /\
    let c := fst (argo_initialize s 3 (2 ^ 45) (2 ^ 20 + 4096) (2 ^ 30)) in
    static_policy 3 16 (dist_of c) = Some pl /\ cfg_ok c pl.
Proof.
  destruct (init demo_env) as [s| |] eqn:E; [|vm_compute in E; discriminate E..].
  assert (Ei : argo_init s (2 ^ 20) 0 = Ok (2 ^ 20 + 4096, 2 ^ 30)).
  { vm_compute in E. injection E as <-. reflexivity. }
  assert (Ev : value_allocation_policy s = 3 /\ value_allocation_block_size s = 16 /\
               value_load_size s = 8 /\ value_mpi_windows_per_node s = 4).
  { vm_compute in E. injection E as <-. done. }
  destruct Ev as (E1 & E2 & E3 & E4).
  destruct (init_establishes_contract demo_env s 3 (2 ^ 45) (2 ^ 20) 0 (2 ^ 20 + 4096) (2 ^ 30)) as (pl & Hp & Hc & _);
    [exact E|lia|lia|exact Ei|lia|lia| |lia|lia|lia|].
  - unfold padding_of. rewrite E1, E2. vm_compute. discriminate.
  - exists s, pl. rewrite E1, E2 in Hp. exact (conj eq_refl (conj Hp Hc)).
Defined.

(** One region of the file after another. *)
Lemma region_step o k : 0 <= o <= 2 ^ 60 -> 0 <= k <= 2 ^ 50 -> (PAGE_SIZE | o) ->
  let o' := add64 o (align_forwards k PAGE_SIZE) in
  o + k <= o' <= o + k + PAGE_SIZE /\ (PAGE_SIZE | o').
Proof.
  intros Ho Hk Hd. assert (Hps : PAGE_SIZE = 4096) by done.
  destruct (align_forwards_spec k PAGE_SIZE) as [H1 H2]; [lia|lia|lia|].
  cbv zeta. rewrite add64_small by lia. split; [lia|by apply Z.divide_add_r].
Qed.

(** The regions of a node's backing file follow each other without overlap,
    each starts on a page and is large enough for its contents, and [cacheoffset],
    with which the fault handler maps local pages, is where [globalData] lies. *)
Theorem backing_file_layout s n start request cache :
  within_limits s n start request -> 0 <= cache ->
  let '(c, f) := argo_initialize s n start request cache in
  let ft := is_first_touch_policy (value_allocation_policy s) in
  f_cacheData f = 0 /\
  f_cacheData f + PAGE_SIZE * cachesize c <= f_cacheControl f /\
  f_cacheControl f + sizeof_control_data * cachesize c <= f_globalData f /\
  f_globalData f + size_of_all c / numtasks c <= f_globalSharers f /\
  f_globalSharers f + 8 * classificationSize c <= (if ft then f_owners_dir f else f_end f) /\
  (ft = true -> f_owners_dir f + 8 * (3 * (size_of_all c / PAGE_SIZE)) <= f_offsets_tbl f /\
                f_offsets_tbl f + 8 * numtasks c <= f_end f) /\
  cacheoffset f = f_globalData f /\
  Forall (fun o => (PAGE_SIZE | o)) [f_cacheControl f; f_globalData f; f_globalSharers f; f_owners_dir f; f_offsets_tbl f].
Proof.
  intros H Hc. destruct (standard_size_spec s n start request H) as (Hs & Hge & Hdiv).
  destruct (wl_memory _ _ _ _ H) as [Hr0 _].
  pose proof (cache_pages_spec cache Hc (standard_size s n request) ltac:(lia)) as Hcp.
  destruct (init_space s n start request cache H) as [Hsp Hshare]. simpl in Hshare.
  unfold argo_initialize, classificationSize. simpl. set (size := standard_size s n request) in *.
  set (cp := cache_pages size cache) in *. assert (Hps : PAGE_SIZE = 4096) by done.
  assert (Hcb : PAGE_SIZE * cp <= 2 ^ 54) by (rewrite Hps; lia). assert (Hcn : 0 <= PAGE_SIZE * cp) by (rewrite Hps; lia).
  assert (Hn : 1 <= n <= 64) by apply H.
  assert (Hpg : 0 <= size / PAGE_SIZE <= 2 ^ 30) by (split; [apply Z.div_pos; lia|apply Z.div_le_upper_bound; lia]).
  assert (Hch : 0 <= size / n <= 2 ^ 42) by (split; [apply Z.div_pos; lia|apply Z.div_le_upper_bound; nia]).
  unfold sizeof_control_data. rewrite (mul64_small PAGE_SIZE cp), (mul64_small 16 cp), (mul64_small 2), (mul64_small 3) by lia.
  rewrite (mul64_small (2 * (size / PAGE_SIZE)) 8), (mul64_small (3 * (size / PAGE_SIZE)) 8), (mul64_small n 8) by lia.
  destruct (region_step (PAGE_SIZE * cp) (16 * cp)) as [R2 D2]; [lia|lia|by exists cp; ring|].
  set (o2 := add64 (PAGE_SIZE * cp) (align_forwards (16 * cp) PAGE_SIZE)) in *.
  assert (E3 : add64 o2 (size / n) = o2 + size / n) by (apply add64_small; lia).
  assert (D3 : (PAGE_SIZE | o2 + size / n)) by (by apply Z.divide_add_r). rewrite E3. set (o3 := o2 + size / n) in *.
  destruct (region_step o3 (2 * (size / PAGE_SIZE) * 8)) as [R4 D4]; [lia|lia|done|].
  set (o4 := add64 o3 (align_forwards (2 * (size / PAGE_SIZE) * 8) PAGE_SIZE)) in *.
  destruct (region_step o4 (3 * (size / PAGE_SIZE) * 8)) as [R5 D5]; [lia|lia|done|].
  set (o5 := add64 o4 (align_forwards (3 * (size / PAGE_SIZE) * 8) PAGE_SIZE)) in *.
  destruct (region_step o5 (n * 8)) as [R6 _]; [lia|lia|done|].
  assert (D1 : (PAGE_SIZE | PAGE_SIZE * cp)) by (by exists cp; ring).
  destruct (is_first_touch_policy _); cbv iota; fold o5; split_and!; try done; try (intros; lia); repeat (apply Forall_cons; split; [done|]); by apply Forall_nil.
Qed.

Definition demo_settings : settings :=
  Settings (2 ^ 33) (2 ^ 30) 512 32 4 16 8 4 2 true.

Lemma demo_settings_limits : within_limits demo_settings 4 (2 ^ 45) (2 ^ 30).
Proof. split; vm_compute; intuition congruence. Qed.

Lemma backing_file_layout_witness :
  let '(c, f) := argo_initialize demo_settings 4 (2 ^ 45) (2 ^ 30) (2 ^ 20) in
  f_globalData f + size_of_all c / numtasks c <= f_globalSharers f /\ cacheoffset f = f_globalData f.
Proof.
  pose proof (backing_file_layout demo_settings 4 (2 ^ 45) (2 ^ 30) (2 ^ 20) demo_settings_limits ltac:(lia)) as H.
  destruct (argo_initialize demo_settings 4 (2 ^ 45) (2 ^ 30) (2 ^ 20)) as [c f].
  destruct H as (_ & _ & _ & H1 & _ & _ & H2 & _). exact (conj H1 H2).
Defined.

(** [argo_reset_coherence] clears the directory in strides of the load size.  It
    clears every entry, and nothing else if the stride divides the directory. *)
Lemma reset_covers_directory (c : dsm_config) :
  0 < Swdsm.load_size c -> 0 <= size_of_all c ->
  (forall i, 0 <= i < classificationSize c -> i ∈ reset_indices c) /\
  ((Swdsm.load_size c * 2 | classificationSize c) -> forall i, i ∈ reset_indices c -> 0 <= i < classificationSize c).
Proof.
  intros Hl Hs. unfold reset_indices. set (w := Swdsm.load_size c * 2). set (cs := classificationSize c).
  assert (Hw : 0 < w) by (unfold w; lia).
  assert (Hcs : 0 <= cs) by (unfold cs, classificationSize; pose proof (Z.div_pos (size_of_all c) PAGE_SIZE Hs ltac:(done)); lia).
  split.
  - intros i Hi. apply list_elem_of_bind. exists (i / w * w).
    pose proof (Z.div_mod i w ltac:(lia)). pose proof (Z.mod_pos_bound i w Hw). split; [apply elem_of_seqZ; lia|].
    apply list_elem_of_fmap. exists (i / w). split; [done|]. apply elem_of_seqZ. rewrite Z.add_0_l.
    split; [apply Z.div_pos; lia|]. apply Z.div_lt_upper_bound; [done|].
    pose proof (Z.div_mod (cs + (w - 1)) w ltac:(lia)). pose proof (Z.mod_pos_bound (cs + (w - 1)) w Hw). lia.
  - intros [k Hk] i Hi. apply list_elem_of_bind in Hi as (b & Hi & Hb). apply elem_of_seqZ in Hi.
    apply list_elem_of_fmap in Hb as (q & -> & Hq). apply elem_of_seqZ in Hq.
    rewrite Hk in Hq. replace (k * w + (w - 1)) with (w - 1 + k * w) in Hq by ring.
    rewrite Z.div_add, Z.div_small in Hq by lia. nia.
Qed.

(** A node with 255 pages and a load size of 7. *)
Definition odd_config : dsm_config := {|
  numtasks := 1; cachesize := 2; Swdsm.load_size := 7; mpi_windows := 1; size_of_all := 255 * PAGE_SIZE;
  startAddr := 2 ^ 45; wb_max_size := 512; wb_write_back_size := 32 |}.
