(* ===== verification/Locks.v ===== *)
(** * Test-and-set and ticket locks

    [src/src/synchronization/global_tas_lock.hpp], the lock between nodes, and
    [src/src/synchronization/intranode/ticket_lock.hpp], a lock within a node.  A
    lock is a transition system: each atomic access to the lock's words by some
    thread is one step, and the steps of the threads interleave freely. *)

From stdpp Require Import functions relations.
From S2P Require Import Prelude.

(** Look up an updated function. *)
Lemma fn_insert_eq {A} (f : nat -> A) (t u : nat) a : <[t := a]> f u = if decide (t = u) then a else f u.
Proof. reflexivity. Qed.

Ltac fn_cases :=
  intros; rewrite ?fn_insert_eq in *; repeat case_decide; subst; try done.

(** ** The global test-and-set lock *)
Module Tas.

(** [static_cast<std::size_t>(-2)] and [(-1)]. *)
Definition init : Z := 2 ^ 64 - 2.
Definition locked : Z := 2 ^ 64 - 1.

(** Where a thread is: outside, holding the lock before the node has acquired,
    inside, or inside [unlock] with the node's writes released. *)
Inductive pc := Outside | Entering | Inside | Leaving.

#[export] Instance pc_eq_dec : EqDecision pc.
Proof. solve_decision. Defined.

(** Entering with or without a node-wide acquire, and releasing; latest first. *)
Inductive event := Enter (node : Z) (acquired : bool) | Released (node : Z).

Record state := State {
  lastuser : Z;
  pcs : nat -> pc;
  history : list event;
}.

Definition set_pc (s : state) (t : nat) (p : pc) (word : Z) (es : list event) : state :=
  {| lastuser := word; pcs := <[t := p]> (pcs s); history := es ++ history s |}.

(** The exchange of [try_lock] and what follows it in the thread. *)
Definition try_lock (self : Z) (s : state) (t : nat) : bool * state :=
  let old := lastuser s in
  if old =? locked then (false, set_pc s t Outside locked [])
  else if (old =? self) || (old =? init) then (true, set_pc s t Inside locked [Enter self false])
  else (true, set_pc s t Entering locked []).

(** [backend::acquire] of a lock taken over from another node. *)
Definition acquire (self : Z) (s : state) (t : nat) : state :=
  set_pc s t Inside (lastuser s) [Enter self true].

(** [unlock]: first [backend::release], then the store. *)
Definition unlock_release (self : Z) (s : state) (t : nat) : state :=
  set_pc s t Leaving (lastuser s) [Released self].
Definition unlock_store (self : Z) (s : state) (t : nat) : state :=
  set_pc s t Outside self [].

Section Steps.

Context (node : nat -> Z).

Inductive step : state -> state -> Prop :=
  | step_try s t : pcs s t = Outside -> step s (snd (try_lock (node t) s t))
  | step_acquire s t : pcs s t = Entering -> step s (acquire (node t) s t)
  | step_release s t : pcs s t = Inside -> step s (unlock_release (node t) s t)
  | step_store s t : pcs s t = Leaving -> step s (unlock_store (node t) s t).

Definition initial : state := {| lastuser := init; pcs := fun _ => Outside; history := [] |}.

Definition reachable (s : state) : Prop := rtc step initial s.

(** The node that released last. *)
Fixpoint last_release (h : list event) : option Z :=
  match h with
  | [] => None
  | Released n :: _ => Some n
  | Enter _ _ :: h => last_release h
  end.

(** Every entry without an acquire follows a release of the same node, or none. *)
Fixpoint skips_sound (h : list event) : Prop :=
  match h with
  | [] => True
  | Enter n false :: h => (last_release h = None \/ last_release h = Some n) /\ skips_sound h
  | _ :: h => skips_sound h
  end.

Record invariant (s : state) : Prop := {
  inv_free : lastuser s <> locked -> forall t, pcs s t = Outside;
  inv_taken : lastuser s = locked -> exists t, pcs s t <> Outside;
  inv_one t u : pcs s t <> Outside -> pcs s u <> Outside -> t = u;
  inv_last : lastuser s <> locked -> last_release (history s) = if lastuser s =? init then None else Some (lastuser s);
  inv_left t : pcs s t = Leaving -> last_release (history s) = Some (node t);
  inv_skips : skips_sound (history s);
}.

Context (Hnode : forall t, 0 <= node t < 2 ^ 32).

Lemma node_word t : node t <> locked /\ node t <> init.
Proof using Hnode. specialize (Hnode t). unfold locked, init. lia. Qed.

Lemma step_invariant s s' : invariant s -> step s s' -> invariant s'.
Proof using Hnode.
  intros [F X O L V K] Hstep. destruct Hstep as [s t Ht|s t Ht|s t Ht|s t Ht].
  - unfold try_lock. destruct (Z.eqb_spec (lastuser s) locked) as [El|El]; simpl.
    { destruct (X El) as [w Hw]. split; simpl; [by intros []|exists w; by fn_cases|intros u v Hu Hv; fn_cases; by apply O|by intros []|fn_cases; auto|done]. }
    specialize (F El). specialize (L El).
    assert (Hone : forall p u v, <[t := p]> (pcs s) u <> Outside -> <[t := p]> (pcs s) v <> Outside -> u = v).
    { intros p u v Hu Hv. fn_cases; by rewrite F in *. }
    destruct (Z.eqb_spec (lastuser s) (node t)) as [E|E]; simpl.
    { split; simpl; [done|exists t; by fn_cases|apply Hone|done|fn_cases; by rewrite F in *|]. split; [|done].
      rewrite L, E. destruct (node t =? init); [by left|by right]. }
    destruct (Z.eqb_spec (lastuser s) init) as [E'|E']; simpl; split; simpl; try done; try apply Hone;
      try (fn_cases; by rewrite F in *); try (exists t; by fn_cases). split; [by left|done].
  - assert (Hl : lastuser s = locked).
    { destruct (Z.eq_dec (lastuser s) locked) as [|Hne]; [done|]. by rewrite (F Hne t) in Ht. }
    split; simpl; try done.
    + exists t. by fn_cases.
    + intros u v Hu Hv. fn_cases; apply O; congruence.
    + fn_cases. auto.
  - assert (Hl : lastuser s = locked).
    { destruct (Z.eq_dec (lastuser s) locked) as [|Hne]; [done|]. by rewrite (F Hne t) in Ht. }
    split; simpl; try done.
    + exists t. by fn_cases.
    + intros u v Hu Hv. fn_cases; apply O; congruence.
    + fn_cases. f_equal. f_equal. apply O; congruence.
  - pose proof (V t Ht) as Hv. destruct (node_word t) as [Hnl Hni%Z.eqb_neq]. split; simpl; try done.
    + intros _ u. fn_cases. destruct (pcs s u) eqn:Eu; [done|..]; exfalso; apply H; apply O; congruence.
    + intros u v Hu Hw. fn_cases. by apply O.
    + intros _. by rewrite Hni.
    + fn_cases. auto.
Qed.

Lemma tas_reachable_invariant s : reachable s -> invariant s.
Proof using Hnode.
  intros H. assert (Hi : invariant initial) by (split; done).
  unfold reachable in H. revert Hi. induction H as [|s s1 s2 Hs _ IH]; [done|]. intros Hi. apply IH.
  by apply (step_invariant s).
Qed.

(** The lock between nodes.  At most one thread of the system holds it; a free
    lock can be taken and a held one cannot; and a thread that enters without
    acquiring, because its own node used the lock last, does so only if no other
    node has released in between. *)
Theorem tas_lock_correct (s : state) :
  reachable s ->
  (forall t u, pcs s t <> Outside -> pcs s u <> Outside -> t = u) /\
  (forall t, fst (try_lock (node t) s t) = true <-> forall u, pcs s u = Outside) /\
  skips_sound (history s).
Proof using Hnode.
  intros [F X O L V K]%tas_reachable_invariant. split_and!; [done| |done]. intros t. unfold try_lock.
  destruct (Z.eqb_spec (lastuser s) locked) as [El|El]; simpl.
  - split; [done|]. destruct (X El) as [u Hu]. intros H. by rewrite H in Hu.
  - split; [auto|]. intros _. by destruct (_ || _).
Qed.

End Steps.

(** Two nodes: node 0 twice without an acquire, then node 1 with one. *)
Definition demo_node (t : nat) : Z := Z.of_nat (t mod 2).
Definition demo_enter (s : state) (t : nat) : state :=
  let s := snd (try_lock (demo_node t) s t) in
  if decide (pcs s t = Entering) then acquire (demo_node t) s t else s.
Definition demo_leave (s : state) (t : nat) : state :=
  unlock_store (demo_node t) (unlock_release (demo_node t) s t) t.
Definition demo_history : state := demo_enter (demo_leave (demo_enter (demo_leave (demo_enter initial 0) 0) 2) 2) 1.

Lemma tas_lock_correct_witness :
  (forall t u, pcs demo_history t <> Outside -> pcs demo_history u <> Outside -> t = u) /\
  history demo_history = [Enter 1 true; Released 0; Enter 0 false; Released 0; Enter 0 false].
Proof.
  split; [|reflexivity]. apply (tas_lock_correct demo_node).
  - intros t. unfold demo_node. pose proof (Nat.mod_upper_bound t 2 ltac:(lia)). lia.
  - unfold reachable, demo_history. eapply rtc_l; [apply (step_try demo_node initial 0); reflexivity|].
    eapply rtc_l; [apply (step_release demo_node _ 0); reflexivity|].
    eapply rtc_l; [apply (step_store demo_node _ 0); reflexivity|].
    eapply rtc_l; [apply (step_try demo_node _ 2); reflexivity|].
    eapply rtc_l; [apply (step_release demo_node _ 2); reflexivity|].
    eapply rtc_l; [apply (step_store demo_node _ 2); reflexivity|].
    eapply rtc_l; [apply (step_try demo_node _ 1); reflexivity|].
    eapply rtc_l; [apply (step_acquire demo_node _ 1); reflexivity|].
    apply rtc_refl.
Defined.

End Tas.

(** ** The ticket lock *)
Module Ticket.

(** [std::atomic<int>::fetch_add] wraps around. *)
Definition s32 (x : Z) : Z := (x + 2 ^ 31) mod 2 ^ 32 - 2 ^ 31.

Inductive pc := Outside | Waiting (ticket : Z) | Inside.

Record state := State { in_counter : Z; out_counter : Z; pcs : nat -> pc }.

Definition ticket_lock : state := {| in_counter := 0; out_counter := 0; pcs := fun _ => Outside |}.

(** [lock]: taking a ticket; one look at the counter, which ends the loop or not. *)
Definition lock_take (s : state) (t : nat) : state :=
  {| in_counter := s32 (in_counter s + 1); out_counter := out_counter s;
     pcs := <[t := Waiting (in_counter s)]> (pcs s) |}.
Definition lock_look (s : state) (t : nat) (ticket : Z) : state :=
  if out_counter s =? ticket
  then {| in_counter := in_counter s; out_counter := out_counter s; pcs := <[t := Inside]> (pcs s) |}
  else s.

Definition unlock (s : state) (t : nat) : state :=
  {| in_counter := in_counter s; out_counter := s32 (out_counter s + 1); pcs := <[t := Outside]> (pcs s) |}.

(** The subtraction of two [int]s overflows outside their range. *)
Definition is_contended (s : state) : outcome bool :=
  let d := in_counter s - out_counter s in
  if (- 2 ^ 31 <=? d) && (d <? 2 ^ 31) then Ok (1 <? d)
  else Throw (undefined_behaviour "signed overflow in is_contended").

Lemma s32_inj a b : s32 a = s32 b -> a <= b < a + 2 ^ 32 -> a = b.
Proof.
  unfold s32. intros E H. assert (E' : (a + 2 ^ 31) mod 2 ^ 32 = (b + 2 ^ 31) mod 2 ^ 32) by lia.
  pose proof (Z.div_mod (a + 2 ^ 31) (2 ^ 32) ltac:(lia)). pose proof (Z.div_mod (b + 2 ^ 31) (2 ^ 32) ltac:(lia)).
  pose proof (Z.mod_pos_bound (a + 2 ^ 31) (2 ^ 32) ltac:(lia)). lia.
Qed.

Lemma s32_succ a : s32 (s32 a + 1) = s32 (a + 1).
Proof.
  unfold s32. f_equal. replace ((a + 2 ^ 31) mod 2 ^ 32 - 2 ^ 31 + 1 + 2 ^ 31) with ((a + 2 ^ 31) mod 2 ^ 32 + 1) by ring.
  rewrite Zplus_mod_idemp_l. f_equal. ring.
Qed.

Section Steps.

Context (N : nat).

Inductive step : state -> state -> Prop :=
  | step_take s t : (t < N)%nat -> pcs s t = Outside -> step s (lock_take s t)
  | step_look s t k : (t < N)%nat -> pcs s t = Waiting k -> step s (lock_look s t k)
  | step_unlock s t : (t < N)%nat -> pcs s t = Inside -> step s (unlock s t).

Definition reachable (s : state) : Prop := rtc step ticket_lock s.

(** [q]: the threads with a ticket, in order; [served]: the number of unlocks. *)
Record queue (s : state) (served : Z) (q : list nat) : Prop := {
  qu_nodup : NoDup q;
  qu_threads : Forall (fun t => (t < N)%nat) q;
  qu_in : in_counter s = s32 (served + Z.of_nat (length q));
  qu_out : out_counter s = s32 served;
  qu_mem t : t ∈ q <-> pcs s t <> Outside;
  qu_pos i t : q !! i = Some t ->
    pcs s t = Waiting (s32 (served + Z.of_nat i)) \/ (i = 0%nat /\ pcs s t = Inside);
}.

Context (HN : Z.of_nat N < 2 ^ 31).

Lemma queue_short s n q : queue s n q -> (length q <= N)%nat.
Proof using.
  intros H. pose proof (qu_nodup _ _ _ H). rewrite <- (length_seq N 0). apply NoDup_incl_length; [by apply NoDup_ListNoDup|].
  intros t Ht%list_elem_of_In. apply in_seq. pose proof (qu_threads _ _ _ H) as F. rewrite Forall_forall in F.
  specialize (F t Ht). lia.
Qed.

(** A thread inside is at the head, and only the head's ticket is up. *)
Lemma queue_head s n q t : queue s n q -> pcs s t = Inside -> head q = Some t.
Proof using.
  intros H Ht. assert (Hin : t ∈ q) by (apply (qu_mem _ _ _ H); congruence).
  apply list_elem_of_lookup in Hin as [i Hi]. destruct (qu_pos _ _ _ H i t Hi) as [E|[-> _]]; [congruence|].
  by destruct q.
Qed.

Lemma queue_turn s n q i t : queue s n q -> q !! i = Some t -> s32 n = s32 (n + Z.of_nat i) -> i = 0%nat.
Proof using HN.
  intros H Hi E. apply lookup_lt_Some in Hi. pose proof (queue_short _ _ _ H). apply s32_inj in E; lia.
Qed.

Lemma queue_take s n q t : queue s n q -> (t < N)%nat -> pcs s t = Outside -> queue (lock_take s t) n (q ++ [t]).
Proof using.
  intros [H1 H2 H3 H4 H5 H6] Ht Ho. assert (Hnin : t ∉ q) by (intros Hin%H5; done).
  split; simpl.
  - apply NoDup_app. split_and!; [done| |apply NoDup_singleton]. intros u Hu ->%list_elem_of_singleton. done.
  - apply Forall_app. split; [done|by constructor].
  - rewrite H3, s32_succ, length_app. simpl. f_equal. lia.
  - done.
  - intros u. rewrite elem_of_app, list_elem_of_singleton, fn_insert_eq, H5. case_decide; subst; naive_solver.
  - intros i u Hi. apply lookup_app_Some in Hi as [Hi|[Hi Hu]].
    + rewrite fn_insert_eq. case_decide; [subst; exfalso; apply Hnin; by eapply list_elem_of_lookup_2|auto].
    + apply list_lookup_singleton_Some in Hu as [Hi0 <-]. left. rewrite fn_insert_eq, decide_True by done.
      rewrite H3. do 3 f_equal. lia.
Qed.

Lemma queue_look s n q t k : queue s n q -> pcs s t = Waiting k -> queue (lock_look s t k) n q.
Proof using HN.
  intros H Ht. unfold lock_look. destruct (Z.eqb_spec (out_counter s) k) as [E|]; [|done].
  assert (Hin : t ∈ q) by (apply (qu_mem _ _ _ H); congruence). apply list_elem_of_lookup in Hin as [j Hj].
  assert (j = 0%nat) as ->.
  { apply (queue_turn s n q j t H Hj). destruct (qu_pos _ _ _ H j t Hj) as [E'|[_ E']]; [|congruence].
    rewrite Ht in E'. injection E' as E'. rewrite <- (qu_out _ _ _ H). congruence. }
  destruct H as [H1 H2 H3 H4 H5 H6]. split; simpl; try done.
  - intros u. rewrite fn_insert_eq, H5. case_decide; subst; [|done]. by rewrite Ht.
  - intros i u Hi. rewrite fn_insert_eq. case_decide; [|auto]. subst. right.
    split; [by apply (NoDup_lookup q i 0 u)|done].
Qed.

Lemma queue_unlock s n q t : queue s n q -> pcs s t = Inside -> queue (unlock s t) (n + 1) (tail q).
Proof using.
  intros H Ht. pose proof (queue_head s n q t H Ht) as Hh. destruct q as [|u q]; [done|]. injection Hh as ->.
  destruct H as [H1 H2 H3 H4 H5 H6]. apply NoDup_cons in H1 as [Hn H1]. apply Forall_cons in H2 as [_ H2].
  split; simpl; try done.
  - rewrite H3. simpl. f_equal. lia.
  - by rewrite H4, s32_succ.
  - intros u. rewrite fn_insert_eq. case_decide as Eu; [subst; naive_solver|]. rewrite <- H5, elem_of_cons. naive_solver.
  - intros i u Hi. assert (Hne : t ≠ u) by (intros ->; apply Hn; by eapply list_elem_of_lookup_2).
    rewrite fn_insert_eq, decide_False by done. destruct (H6 (S i) u Hi) as [E|[? _]]; [|done].
    left. rewrite E. do 2 f_equal. lia.
Qed.

Lemma reachable_queue s : reachable s -> exists n q, queue s n q.
Proof using HN.
  intros H. assert (H0 : exists n q, queue ticket_lock n q).
  { exists 0, []. split; simpl; try done; [constructor|]. intros t. rewrite elem_of_nil. naive_solver. }
  unfold reachable in H. revert H0. induction H as [|s s1 s2 Hs _ IH]; [done|]. intros (n & q & Hq). apply IH.
  destruct Hs as [s t Hlt Ht|s t k Hlt Ht|s t Hlt Ht].
  - exists n, (q ++ [t]). by apply queue_take.
  - exists n, q. by apply queue_look.
  - exists (n + 1), (tail q). by apply queue_unlock.
Qed.

Lemma contended_length s n q : queue s n q ->
  is_contended s = if out_counter s <=? in_counter s then Ok (1 <? Z.of_nat (length q))
                   else Throw (undefined_behaviour "signed overflow in is_contended").
Proof using HN.
  intros H. pose proof (queue_short _ _ _ H) as Hlen. destruct H as [_ _ Hi Ho _ _]. unfold is_contended. rewrite Hi, Ho.
  unfold s32. set (a := n + 2 ^ 31). replace (n + Z.of_nat (length q) + 2 ^ 31) with (a + Z.of_nat (length q)) by (unfold a; lia).
  set (k := Z.of_nat (length q)) in *.
  pose proof (Z.mod_pos_bound a (2 ^ 32) ltac:(lia)) as Ba. pose proof (Z.mod_pos_bound (a + k) (2 ^ 32) ltac:(lia)) as Bk.
  assert (E : (a + k) mod 2 ^ 32 = a mod 2 ^ 32 + k \/ (a + k) mod 2 ^ 32 = a mod 2 ^ 32 + k - 2 ^ 32).
  { pose proof (Z.div_mod a (2 ^ 32) ltac:(lia)). pose proof (Z.div_mod (a + k) (2 ^ 32) ltac:(lia)). nia. }
  destruct (Z.leb_spec (a mod 2 ^ 32 - 2 ^ 31) ((a + k) mod 2 ^ 32 - 2 ^ 31)) as [Hle|Hlt].
  - replace ((a + k) mod 2 ^ 32 - 2 ^ 31 - (a mod 2 ^ 32 - 2 ^ 31)) with k by lia.
    by rewrite (proj2 (Z.leb_le (- 2 ^ 31) k)), (proj2 (Z.ltb_lt k (2 ^ 31))) by lia.
  - by rewrite (proj2 (Z.leb_gt (- 2 ^ 31) _)) by lia.
Qed.

(** C33: the ticket lock, for fewer than 2^31 threads and across wrap-arounds of its
    counters, is a queue.  Taking a ticket appends the thread, unlocking removes the
    first; only the first can be inside, and a waiting thread's ticket is up exactly
    if it is the first.  [is_contended] tells whether somebody waits, until the
    counters wrap: then its subtraction overflows. *)
Theorem ticket_lock_fifo (s : state) :
  reachable s -> exists n q, queue s n q /\
    (forall t, pcs s t = Inside -> head q = Some t) /\
    (forall t k, pcs s t = Waiting k -> (out_counter s = k <-> head q = Some t)) /\
    (forall t, (t < N)%nat -> pcs s t = Outside -> queue (lock_take s t) n (q ++ [t])) /\
    (forall t, pcs s t = Inside -> queue (unlock s t) (n + 1) (tail q)) /\
    is_contended s = if out_counter s <=? in_counter s then Ok (1 <? Z.of_nat (length q))
                     else Throw (undefined_behaviour "signed overflow in is_contended").
Proof using HN.
  intros (n & q & H)%reachable_queue. exists n, q. split_and!; [done|by intros t; apply (queue_head s n)| |..].
  - intros t k Ht. assert (Hin : t ∈ q) by (apply (qu_mem _ _ _ H); congruence).
    apply list_elem_of_lookup in Hin as [i Hi]. rewrite (qu_out _ _ _ H).
    destruct (qu_pos _ _ _ H i t Hi) as [E|[_ E]]; [|congruence]. rewrite Ht in E. injection E as ->. split.
    + intros E. assert (i = 0%nat) as -> by (by apply (queue_turn s n q i t)). by destruct q.
    + intros Hh. assert (H0 : q !! 0%nat = Some t) by (by destruct q).
      rewrite (NoDup_lookup q i 0 t (qu_nodup _ _ _ H) Hi H0). f_equal. lia.
  - intros t. by apply queue_take.
  - intros t. by apply queue_unlock.
  - by apply (contended_length s n q).
Qed.

End Steps.

(** Three threads: two take tickets, the first enters. *)
Definition demo : state := lock_look (lock_take (lock_take ticket_lock 2) 0) 2 0.

Lemma ticket_lock_fifo_witness : exists q, head q = Some 2%nat /\ is_contended demo = Ok (1 <? Z.of_nat (length q)) /\
  is_contended demo = Ok true.
Proof.
  destruct (ticket_lock_fifo 3 ltac:(lia) demo) as (n & q & _ & H1 & _ & _ & _ & H2).
  - unfold reachable, demo. eapply rtc_l; [apply (step_take 3 _ 2); [lia|reflexivity]|].
    eapply rtc_l; [apply (step_take 3 _ 0); [lia|reflexivity]|].
    eapply rtc_l; [apply (step_look 3 _ 2 0); [lia|reflexivity]|]. apply rtc_refl.
  - exists q. split; [apply H1; reflexivity|]. split; [exact H2|reflexivity].
Defined.

End Ticket.
