(* ===== verification/McsLock.v ===== *)
(** * The MCS lock

    [src/src/synchronization/intranode/mcs_lock.hpp] and [mcs_lock.cpp]: threads
    queue up in a linked list, each spinning on a flag of its own.  Every access to
    a shared word is one step; a thread's node is named by the thread. *)

From stdpp Require Import functions relations.
From S2P Require Import Prelude Locks.

(** ** State *)

(** Where a thread is.  [Exchanging]: about to exchange the tail; [Flagging p] and
    [Linking p]: behind [p], before setting its own flag and before linking itself
    to [p]; [Spinning] on the flag; [Inside]; [Swinging]: found nobody behind it,
    about to reset the tail; [Seeking]: waiting for the link of its successor;
    [Handing]: about to read the link; [Waking n]: about to clear the flag of [n].
    [Trying] and [TryingSwap] are inside [try_lock]. *)
Inductive pc :=
  | Outside | Exchanging | Flagging (p : nat) | Linking (p : nat) | Spinning
  | Inside | Swinging | Seeking | Handing | Waking (n : nat) | Trying | TryingSwap.

Record state := State {
  tail : option nat;
  next : nat -> option nat;
  locked : nat -> bool;
  pcs : nat -> pc;
}.

Definition mcs_lock : state :=
  {| tail := None; next := fun _ => None; locked := fun _ => false; pcs := fun _ => Outside |}.

Definition set_pc (s : state) (t : nat) (p : pc) : state :=
  {| tail := tail s; next := next s; locked := locked s; pcs := <[t := p]> (pcs s) |}.
Definition set_tail (s : state) (v : option nat) : state :=
  {| tail := v; next := next s; locked := locked s; pcs := pcs s |}.
Definition set_next (s : state) (t : nat) (v : option nat) : state :=
  {| tail := tail s; next := <[t := v]> (next s); locked := locked s; pcs := pcs s |}.
Definition set_locked (s : state) (t : nat) (v : bool) : state :=
  {| tail := tail s; next := next s; locked := <[t := v]> (locked s); pcs := pcs s |}.

(** ** Operations, one function per atomic access *)

(** [lock] *)
Definition lock_reset (s : state) (t : nat) : state := set_pc (set_next s t None) t Exchanging.
Definition lock_exchange (s : state) (t : nat) : state :=
  let s' := set_tail s (Some t) in
  match tail s with
  | Some predecessor => set_pc s' t (Flagging predecessor)
  | None => set_pc s' t Inside
  end.
Definition lock_flag (s : state) (t p : nat) : state := set_pc (set_locked s t true) t (Linking p).
Definition lock_link (s : state) (t p : nat) : state := set_pc (set_next s p (Some t)) t Spinning.
Definition lock_spin (s : state) (t : nat) : state := if locked s t then s else set_pc s t Inside.

(** [unlock] *)
Definition unlock_check (s : state) (t : nat) : state :=
  match next s t with None => set_pc s t Swinging | Some _ => set_pc s t Handing end.
Definition unlock_swing (s : state) (t : nat) : state :=
  if decide (tail s = Some t) then set_pc (set_tail s None) t Outside else set_pc s t Seeking.
Definition unlock_seek (s : state) (t : nat) : state :=
  match next s t with None => s | Some _ => set_pc s t Handing end.
Definition unlock_load (s : state) (t : nat) : state :=
  match next s t with None => s | Some n => set_pc s t (Waking n) end.
Definition unlock_wake (s : state) (t n : nat) : state := set_pc (set_locked s n false) t Outside.

(** [try_lock]; the exchange expects [self] and would store null. *)
Definition try_load (s : state) (t : nat) : state :=
  match tail s with Some _ => s | None => set_pc s t Trying end.
Definition try_reset (s : state) (t : nat) : state := set_pc (set_next s t None) t TryingSwap.
Definition try_swap (s : state) (t : nat) : bool * state :=
  if decide (tail s = Some t) then (true, set_pc (set_tail s None) t Inside) else (false, set_pc s t Outside).

Definition is_contended (s : state) (t : nat) : bool := match next s t with None => false | Some _ => true end.

Inductive step : state -> state -> Prop :=
  | step_reset s t : pcs s t = Outside -> step s (lock_reset s t)
  | step_exchange s t : pcs s t = Exchanging -> step s (lock_exchange s t)
  | step_flag s t p : pcs s t = Flagging p -> step s (lock_flag s t p)
  | step_link s t p : pcs s t = Linking p -> step s (lock_link s t p)
  | step_spin s t : pcs s t = Spinning -> step s (lock_spin s t)
  | step_check s t : pcs s t = Inside -> step s (unlock_check s t)
  | step_swing s t : pcs s t = Swinging -> step s (unlock_swing s t)
  | step_seek s t : pcs s t = Seeking -> step s (unlock_seek s t)
  | step_load s t : pcs s t = Handing -> step s (unlock_load s t)
  | step_wake s t n : pcs s t = Waking n -> step s (unlock_wake s t n)
  | step_try_load s t : pcs s t = Outside -> step s (try_load s t)
  | step_try_reset s t : pcs s t = Trying -> step s (try_reset s t)
  | step_try_swap s t : pcs s t = TryingSwap -> step s (snd (try_swap s t)).

Definition reachable (s : state) : Prop := rtc step mcs_lock s.

(** ** The queue behind the links *)
Definition queued (p : pc) : bool :=
  match p with Outside | Exchanging | Trying | TryingSwap => false | _ => true end.

(** [b] is right behind [a]. *)
Definition behind (s : state) (a b : nat) : Prop :=
  match pcs s b with
  | Flagging p => p = a /\ next s a = None
  | Linking p => p = a /\ next s a = None /\ locked s b = true
  | Spinning => next s a = Some b /\ locked s b = true
  | _ => False
  end.

Definition at_head (s : state) (q : list nat) (h : nat) : Prop :=
  match pcs s h with
  | Spinning => locked s h = false
  | Inside | Swinging => True
  | Seeking => (2 <= length q)%nat
  | Handing => next s h <> None
  | Waking n => next s h = Some n
  | _ => False
  end.

Record invariant (s : state) (q : list nat) : Prop := {
  mi_nodup : NoDup q;
  mi_tail : tail s = last q;
  mi_mem t : t ∈ q <-> queued (pcs s t) = true;
  mi_behind i a b : q !! i = Some a -> q !! S i = Some b -> behind s a b;
  mi_last a : last q = Some a -> next s a = None;
  mi_head h : head q = Some h -> at_head s q h;
  mi_fresh t : pcs s t = Exchanging -> next s t = None;
}.

Lemma head_lookup {A} (q : list A) h : head q = Some h <-> q !! 0%nat = Some h.
Proof. by destruct q. Qed.

(** A step of a thread outside the queue. *)
Lemma frame s s' q t : invariant s q -> t ∉ q -> queued (pcs s' t) = false ->
  (forall u, u <> t -> pcs s' u = pcs s u /\ next s' u = next s u /\ locked s' u = locked s u) ->
  tail s' = tail s -> (pcs s' t = Exchanging -> next s' t = None) -> invariant s' q.
Proof.
  intros [H1 H2 H3 H4 H5 H6 H7] Ht Hq Hu Etail Hx.
  assert (Hin : forall u, u ∈ q -> pcs s' u = pcs s u /\ next s' u = next s u /\ locked s' u = locked s u).
  { intros u Hin. apply Hu. by intros ->. }
  split; try done.
  - congruence.
  - intros u. destruct (decide (u = t)) as [->|Hne]; [rewrite Hq; split; done|]. by rewrite H3, (proj1 (Hu u Hne)).
  - intros i a b Ha Hb. specialize (H4 i a b Ha Hb). apply list_elem_of_lookup_2 in Ha, Hb. unfold behind in *.
    destruct (Hin a Ha) as (_ & -> & _), (Hin b Hb) as (-> & _ & ->). done.
  - intros a Ha. destruct (Hin a) as (_ & -> & _); [|auto]. rewrite last_lookup in Ha. by eapply list_elem_of_lookup_2.
  - intros h Hh. specialize (H6 h Hh). rewrite head_lookup in Hh. apply list_elem_of_lookup_2 in Hh.
    unfold at_head in *. by destruct (Hin h Hh) as (-> & -> & ->).
  - intros u Eu. destruct (decide (u = t)) as [->|Hne]; [auto|]. destruct (Hu u Hne) as (E & -> & _). apply H7. congruence.
Qed.

(** Only the head of the queue can be in one of these places. *)
Lemma is_head s q t : invariant s q -> queued (pcs s t) = true ->
  (pcs s t = Spinning -> locked s t = false) -> (forall p, pcs s t <> Flagging p /\ pcs s t <> Linking p) -> head q = Some t.
Proof.
  intros H Hq Hl Hp. apply (mi_mem _ _ H) in Hq. apply list_elem_of_lookup in Hq as [[|i] Hi]; [by rewrite head_lookup|].
  destruct (lookup_lt_is_Some_2 q i) as [a Ha]; [apply lookup_lt_Some in Hi; lia|].
  pose proof (mi_behind _ _ H i a t Ha Hi) as Hb. unfold behind in Hb. destruct (Hp a) as [Hp1 Hp2].
  destruct (pcs s t) eqn:E; try done; [by destruct Hb as [-> _]|by destruct Hb as [-> _]|].
  destruct Hb as [_ Hb]. by rewrite Hl in Hb.
Qed.

(** A step of the head that changes nothing but its place. *)
Lemma head_step s q t p : invariant s q -> head q = Some t -> queued p = true -> p <> Exchanging ->
  at_head (set_pc s t p) q t -> invariant (set_pc s t p) q.
Proof.
  intros [H1 H2 H3 H4 H5 H6 H7] Hh Hq Hx Ha. rewrite head_lookup in Hh.
  split; try done.
  - intros u. simpl. rewrite fn_insert_eq. case_decide; [|done]. subst. rewrite Hq. split; [done|].
    intros _. by eapply list_elem_of_lookup_2.
  - intros i a b Ha' Hb. specialize (H4 i a b Ha' Hb). unfold behind in *. simpl. rewrite fn_insert_eq.
    case_decide; [|done]. subst. by pose proof (NoDup_lookup q _ _ b H1 Hb Hh).
  - intros h Hh'. rewrite head_lookup, Hh in Hh'. by injection Hh' as <-.
  - intros u. simpl. rewrite fn_insert_eq. case_decide; [by subst|auto].
Qed.

(** Exchanging the tail enqueues the thread. *)
Lemma exchange_step s q t : invariant s q -> pcs s t = Exchanging -> invariant (lock_exchange s t) (q ++ [t]).
Proof.
  intros [H1 H2 H3 H4 H5 H6 H7] Ht. assert (Hnin : t ∉ q) by (rewrite H3, Ht; done).
  assert (Hp : exists p, queued p = true /\ p <> Exchanging /\ lock_exchange s t = set_pc (set_tail s (Some t)) t p /\
    match last q with Some a => p = Flagging a | None => p = Inside end).
  { unfold lock_exchange. rewrite H2. destruct (last q) as [a|]; [exists (Flagging a)|exists Inside]; done. }
  destruct Hp as (p & Hq & Hx & -> & Hlast). split; simpl.
  - apply NoDup_app. split_and!; [done| |apply NoDup_singleton]. intros u Hu ->%list_elem_of_singleton. done.
  - by rewrite last_snoc.
  - intros u. rewrite elem_of_app, list_elem_of_singleton, fn_insert_eq. case_decide; [subst; naive_solver|].
    rewrite <- H3. naive_solver.
  - intros i a b Ha Hb. unfold behind. simpl. rewrite fn_insert_eq. case_decide as E.
    + subst b. apply lookup_app_Some in Hb as [Hb|[Hlen Hb]]; [exfalso; apply Hnin; by eapply list_elem_of_lookup_2|].
      apply list_lookup_singleton_Some in Hb as [Hi _].
      assert (Hl : last q = Some a).
      { rewrite last_lookup. rewrite lookup_app_l in Ha by lia. by replace (pred (length q)) with i by lia. }
      rewrite Hl in Hlast. subst p. auto.
    + apply lookup_app_Some in Hb as [Hb|[_ Hb]]; [|apply list_lookup_singleton_Some in Hb as [_ ->]; done].
      rewrite lookup_app_l in Ha by (apply lookup_lt_Some in Hb; lia). by apply (H4 i).
  - intros a. rewrite last_snoc. intros [= <-]. auto.
  - intros h. destruct q as [|h' q]; simpl.
    + intros [= <-]. unfold at_head. simpl. rewrite fn_insert_eq, decide_True by done. simpl in Hlast. by subst p.
    + intros [= <-]. specialize (H6 h' eq_refl). unfold at_head in *. simpl. rewrite fn_insert_eq.
      rewrite decide_False by (intros ->; apply Hnin; left). destruct (pcs s h'); try done. rewrite length_app. simpl in *. lia.
  - intros u. rewrite fn_insert_eq. case_decide; [by subst|auto].
Qed.

(** The place of a thread that is not the head. *)
Lemma behind_someone s q t p : invariant s q -> pcs s t = Flagging p \/ pcs s t = Linking p ->
  exists i, q !! i = Some p /\ q !! S i = Some t.
Proof.
  intros H Ht. assert (Hq : queued (pcs s t) = true) by (destruct Ht as [-> | ->]; done).
  apply (mi_mem _ _ H) in Hq. apply list_elem_of_lookup in Hq as [[|i] Hi].
  - pose proof (mi_head _ _ H t ltac:(by rewrite head_lookup)) as Hh. unfold at_head in Hh. by destruct Ht as [E|E]; rewrite E in Hh.
  - destruct (lookup_lt_is_Some_2 q i) as [a Ha]; [apply lookup_lt_Some in Hi; lia|].
    pose proof (mi_behind _ _ H i a t Ha Hi) as Hb. unfold behind in Hb. exists i.
    by destruct Ht as [E|E]; rewrite E in Hb; destruct Hb as [-> _].
Qed.

Lemma flag_step s q t p : invariant s q -> pcs s t = Flagging p -> invariant (lock_flag s t p) q.
Proof.
  intros H Ht. destruct (behind_someone s q t p H (or_introl Ht)) as (i & Hp & Hi).
  destruct H as [H1 H2 H3 H4 H5 H6 H7]. split; try done; simpl.
  - intros u. rewrite fn_insert_eq. case_decide; [subst; rewrite H3, Ht; done|done].
  - intros j a b Ha Hb. specialize (H4 j a b Ha Hb). unfold behind in *. simpl. rewrite !fn_insert_eq.
    case_decide; [|done]. subst. rewrite Ht in H4. naive_solver.
  - intros h Hh. specialize (H6 h Hh). unfold at_head in *. simpl. rewrite !fn_insert_eq. case_decide; [|done].
    subst. rewrite head_lookup in Hh. by pose proof (NoDup_lookup q _ _ h H1 Hi Hh).
  - intros u. rewrite fn_insert_eq. case_decide; [done|auto].
Qed.

Lemma link_step s q t p : invariant s q -> pcs s t = Linking p -> invariant (lock_link s t p) q.
Proof.
  intros H Ht. destruct (behind_someone s q t p H (or_intror Ht)) as (i & Hp & Hi).
  destruct H as [H1 H2 H3 H4 H5 H6 H7].
  pose proof (H4 i p t Hp Hi) as Hpt. unfold behind in Hpt. rewrite Ht in Hpt. destruct Hpt as (_ & Hnone & Hlk).
  assert (Hne : t ≠ p) by (intros ->; pose proof (NoDup_lookup q _ _ p H1 Hp Hi); lia).
  split; try done; simpl.
  - intros u. rewrite fn_insert_eq. case_decide; [subst; rewrite H3, Ht; done|done].
  - intros j a b Ha Hb. specialize (H4 j a b Ha Hb). unfold behind in *. simpl. rewrite !fn_insert_eq.
    destruct (decide (t = b)) as [<-|Hb'].
    + rewrite Ht in H4. destruct H4 as (-> & _ & _). by rewrite decide_True.
    + rewrite decide_False; [done|]. intros ->. apply Hb'.
      rewrite (NoDup_lookup q _ _ a H1 Hp Ha) in Hi. congruence.
  - intros a Ha. rewrite fn_insert_eq. case_decide; [|auto]. subst. rewrite last_lookup in Ha.
    pose proof (NoDup_lookup q _ _ a H1 Hp Ha). apply lookup_lt_Some in Hi. lia.
  - intros h Hh. specialize (H6 h Hh). unfold at_head in *. simpl. rewrite !fn_insert_eq.
    rewrite (decide_False (P := t = h)) by (intros ->; rewrite head_lookup in Hh; by pose proof (NoDup_lookup q _ _ h H1 Hi Hh)).
    destruct (decide (p = h)) as [<-|]; [|done]. destruct (pcs s p); try done. congruence.
  - intros u. rewrite !fn_insert_eq. case_decide; [done|]. intros Eu. case_decide; [|auto]. subst.
    assert (Hin : u ∈ q) by (by eapply list_elem_of_lookup_2). rewrite H3, Eu in Hin. done.
Qed.

(** The head leaves, alone or waking the next one. *)
Lemma swing_alone s q t : invariant s q -> pcs s t = Swinging -> tail s = Some t -> invariant (set_pc (set_tail s None) t Outside) [].
Proof.
  intros H Ht Etail. assert (Hh : head q = Some t) by (apply (is_head s q t H); rewrite Ht; done).
  destruct H as [H1 H2 H3 H4 H5 H6 H7].
  assert (q = [t]) as ->.
  { destruct q as [|h [|b q]]; simpl in *; [done|congruence|]. injection Hh as ->. rewrite H2 in Etail.
    change (last (t :: b :: q)) with (last (b :: q)) in Etail. apply NoDup_cons in H1 as [Hn _]. exfalso. apply Hn.
    rewrite last_lookup in Etail. by eapply list_elem_of_lookup_2. }
  split; simpl; try done; [constructor| |].
  - intros u. rewrite fn_insert_eq. case_decide as E; [rewrite elem_of_nil; done|]. rewrite <- H3, list_elem_of_singleton, elem_of_nil. naive_solver.
  - intros u. rewrite fn_insert_eq. case_decide; [done|auto].
Qed.

Lemma wake_step s q t n : invariant s q -> pcs s t = Waking n ->
  exists q', q = t :: n :: q' /\ invariant (unlock_wake s t n) (n :: q').
Proof.
  intros H Ht. assert (Hh : head q = Some t) by (apply (is_head s q t H); rewrite Ht; done).
  destruct H as [H1 H2 H3 H4 H5 H6 H7]. pose proof (H6 t Hh) as Hn. unfold at_head in Hn. rewrite Ht in Hn.
  destruct q as [|h [|b q]]; simpl in Hh; [done| |]; injection Hh as ->; [by rewrite (H5 t eq_refl) in Hn|].
  pose proof (H4 0%nat t b eq_refl eq_refl) as Hb. unfold behind in Hb.
  assert (Eb : pcs s b = Spinning /\ b = n) by (destruct (pcs s b); try done; destruct_and?; split; congruence).
  destruct Eb as [Eb <-].
  rewrite Eb in Hb. exists q. split; [done|]. apply NoDup_cons in H1 as [Hnt H1].
  assert (Htb : t ≠ b) by (intros ->; apply Hnt; left).
  split; try done; simpl.
  - intros u. rewrite fn_insert_eq. case_decide as E; [subst; split; [by intros ?|done]|].
    rewrite <- H3, (elem_of_cons (b :: q)). naive_solver.
  - intros i a c Ha Hc. specialize (H4 (S i) a c Ha Hc). unfold behind in *. simpl. rewrite !fn_insert_eq.
    rewrite decide_False by (intros ->; apply Hnt; by eapply (list_elem_of_lookup_2 (b :: q) (S i))).
    rewrite (decide_False (P := b = c)); [done|]. intros ->.
    by pose proof (NoDup_lookup (c :: q) (S i) 0 c H1 Hc eq_refl).
  - intros h [= <-]. unfold at_head. simpl. rewrite !fn_insert_eq, decide_False by done. by rewrite Eb, decide_True.
  - intros u. rewrite fn_insert_eq. case_decide; [done|auto].
Qed.

(** ** Refinement of a queue: a step enqueues a thread, removes the first, or neither *)
Definition queue_step (q q' : list nat) : Prop :=
  q' = q \/ (exists t, (t ∉ q) /\ q' = q ++ [t]) \/ exists t, q = t :: q'.

Lemma not_queued s q t : invariant s q -> queued (pcs s t) = false -> t ∉ q.
Proof. intros H Hq Hin%(mi_mem _ _ H). congruence. Qed.

Ltac outside H t Ht :=
  apply (frame _ _ _ t H); simpl;
    [apply (not_queued _ _ _ H); by rewrite Ht|by fn_cases|intros; fn_cases|done|by fn_cases].

Lemma refine_step s s' q : invariant s q -> step s s' -> exists q', invariant s' q' /\ queue_step q q'.
Proof.
  intros H Hs.
  assert (Hhead : forall t, pcs s t = Inside \/ pcs s t = Swinging \/ pcs s t = Seeking \/ pcs s t = Handing ->
    head q = Some t) by (intros t Ht; apply (is_head s q t H); destruct_or! Ht; rewrite Ht; done).
  destruct Hs as [s t Ht|s t Ht|s t p Ht|s t p Ht|s t Ht|s t Ht|s t Ht|s t Ht|s t Ht|s t n Ht|s t Ht|s t Ht|s t Ht].
  - exists q. split; [|by left]. outside H t Ht.
  - exists (q ++ [t]). split; [by apply exchange_step|]. right. left. exists t. split; [|done].
    apply (not_queued s q t H). by rewrite Ht.
  - exists q. split; [by apply flag_step|by left].
  - exists q. split; [by apply link_step|by left].
  - exists q. split; [|by left]. unfold lock_spin. destruct (locked s t) eqn:El; [done|].
    apply head_step; try done; [apply (is_head s q t H); rewrite Ht; done|]. unfold at_head. simpl. by fn_cases.
  - exists q. split; [|by left]. unfold unlock_check.
    destruct (next s t) eqn:En; (apply head_step; try done; [auto|]; unfold at_head; simpl; fn_cases; congruence).
  - unfold unlock_swing. case_decide as Et.
    + exists []. assert (Hh : head q = Some t) by auto. pose proof (swing_alone s q t H Ht Et) as H'. split; [done|].
      right. right. exists t. destruct q as [|h [|b q]]; simpl in Hh; [done|by injection Hh as ->|].
      exfalso. pose proof (mi_mem _ _ H b) as Hb. pose proof (mi_mem _ _ H' b) as Hb'. simpl in Hb'. rewrite fn_insert_eq in Hb'.
      destruct (decide (t = b)) as [<-|]; [|by apply (elem_of_nil b), Hb', Hb; right; left].
      injection Hh as ->. pose proof (mi_nodup _ _ H) as Hnd. apply NoDup_cons in Hnd as [Hn _]. apply Hn. left.
    + exists q. split; [|by left]. apply head_step; try done; [auto|]. unfold at_head. simpl. fn_cases.
      assert (Hh : head q = Some t) by auto. destruct q as [|h [|b q]]; simpl in Hh |- *; [done| |lia].
      injection Hh as ->. by rewrite (mi_tail _ _ H) in Et.
  - exists q. split; [|by left]. unfold unlock_seek. destruct (next s t) eqn:En; [|done].
    apply head_step; try done; [auto|]. unfold at_head. simpl. fn_cases. congruence.
  - exists q. split; [|by left]. unfold unlock_load. destruct (next s t) eqn:En; [|done].
    apply head_step; try done; [auto|]. unfold at_head. simpl. fn_cases.
  - destruct (wake_step s q t n H Ht) as (q' & -> & H'). exists (n :: q'). split; [done|]. right. right. by exists t.
  - exists q. split; [|by left]. unfold try_load. destruct (tail s) eqn:Et; [done|]. outside H t Ht.
  - exists q. split; [|by left]. outside H t Ht.
  - exists q. split; [|by left]. unfold try_swap. case_decide as Et; simpl; [|outside H t Ht].
    exfalso. apply (not_queued s q t H); [by rewrite Ht|]. rewrite (mi_tail _ _ H), last_lookup in Et. by eapply list_elem_of_lookup_2.
Qed.

Lemma mcs_reachable_invariant s : reachable s -> exists q, invariant s q.
Proof.
  intros H. assert (H0 : exists q, invariant mcs_lock q).
  { exists []. split; simpl; try done; [constructor|]. intros t. rewrite elem_of_nil. done. }
  unfold reachable in H. revert H0. induction H as [|s s1 s2 Hs _ IH]; [done|]. intros (q & Hq). apply IH.
  destruct (refine_step s s1 q Hq Hs) as (q' & H' & _). by exists q'.
Qed.

(** The next access of the thread does more than look once more. *)
Definition effective (s : state) (t : nat) : Prop :=
  match pcs s t with
  | Spinning => locked s t = false
  | Seeking => next s t <> None
  | _ => True
  end.

Lemma someone_effective s q : invariant s q -> q <> [] -> exists t, t ∈ q /\ effective s t.
Proof.
  intros H Hne. destruct q as [|h q]; [done|]. pose proof (mi_head _ _ H h eq_refl) as Hh. unfold at_head in Hh.
  destruct (pcs s h) eqn:Eh; try done;
    try (exists h; split; [left|]; unfold effective; rewrite Eh; done).
  destruct q as [|b q]; [simpl in Hh; lia|]. pose proof (mi_behind _ _ H 0%nat h b eq_refl eq_refl) as Hb. unfold behind in Hb.
  destruct (pcs s b) eqn:Eb; try done.
  - exists b. split; [right; left|]. unfold effective. by rewrite Eb.
  - exists b. split; [right; left|]. unfold effective. by rewrite Eb.
  - exists h. split; [left|]. unfold effective. rewrite Eh. destruct Hb as [-> _]. done.
Qed.

(** ** Theorems *)

(** C30: the MCS lock behaves as a first-in-first-out queue under every interleaving.
    In every reachable state the queued threads form a list of which only the first
    can be inside; every further access enqueues one thread at the end, removes the
    first, or leaves the queue as it is; and while somebody is queued, some queued
    thread can make progress. *)
Theorem mcs_refines_queue (s : state) :
  reachable s -> exists q, invariant s q /\
    (forall t, pcs s t = Inside -> head q = Some t) /\
    (forall s', step s s' -> exists q', invariant s' q' /\ queue_step q q') /\
    (q <> [] -> exists t, t ∈ q /\ effective s t).
Proof.
  intros (q & H)%mcs_reachable_invariant. exists q. split_and!; [done| | |by apply someone_effective].
  - intros t Ht. apply (is_head s q t H); rewrite Ht; done.
  - intros s' Hs. by apply (refine_step s s' q).
Qed.

(** Two threads: the second waits behind the first. *)
Definition demo : state := lock_link (lock_flag (lock_exchange (lock_reset (lock_exchange (lock_reset mcs_lock 0) 0) 1) 1) 1 0) 1 0.

Lemma mcs_demo_reachable : reachable demo.
Proof.
  unfold reachable, demo. eapply rtc_l; [apply (step_reset _ 0); reflexivity|].
  eapply rtc_l; [apply (step_exchange _ 0); reflexivity|].
  eapply rtc_l; [apply (step_reset _ 1); reflexivity|].
  eapply rtc_l; [apply (step_exchange _ 1); reflexivity|].
  eapply rtc_l; [apply (step_flag _ 1 0); reflexivity|].
  eapply rtc_l; [apply (step_link _ 1 0); reflexivity|]. apply rtc_refl.
Qed.

Lemma mcs_refines_queue_witness : exists q, head q = Some 0%nat /\ pcs demo 1%nat = Spinning /\
  (q <> [] -> exists t, t ∈ q /\ effective demo t).
Proof.
  destruct (mcs_refines_queue demo mcs_demo_reachable) as (q & _ & H1 & _ & H2). exists q.
  split; [apply H1; reflexivity|]. split; [reflexivity|exact H2].
Defined.

(** [try_lock] never succeeds: its exchange has the expected and the new value
    swapped, so it never finds the tail it expects. *)
Theorem mcs_try_lock_never_succeeds (s : state) (t : nat) :
  reachable s -> pcs s t = TryingSwap -> fst (try_swap s t) = false.
Proof.
  intros (q & H)%mcs_reachable_invariant Ht. unfold try_swap. case_decide as E; [|done]. exfalso.
  apply (not_queued s q t H); [by rewrite Ht|]. rewrite (mi_tail _ _ H), last_lookup in E. by eapply list_elem_of_lookup_2.
Qed.

Lemma mcs_try_lock_never_succeeds_witness :
  fst (try_swap (try_reset (try_load mcs_lock 0) 0) 0) = false.
Proof.
  apply mcs_try_lock_never_succeeds; [|reflexivity]. unfold reachable.
  eapply rtc_l; [apply (step_try_load _ 0); reflexivity|].
  eapply rtc_l; [apply (step_try_reset _ 0); reflexivity|]. apply rtc_refl.
Defined.
