(* ===== verification/Coherence.v ===== *)
(** * Selective coherence

    [src/src/backend/mpi/coherence.cpp]: acquire and release of a region of the
    global memory.  Both work on the cache slot of each page without looking at
    which page the slot holds; the theorems say when that is right, and two runs
    show what happens otherwise. *)

From S2P Require Import Prelude BlockMap DataDistribution FirstTouch GlobalPtr Mem Swdsm SwdsmBase SwdsmInv SwdsmDir SwdsmOps SwdsmLoad SwdsmHandler SwdsmSync SwdsmBarrier Atomics SwdsmSpec SwdsmTheorems.

Section Selective.

Context (c : dsm_config) (pl : placement).

(** The values [page_address] takes in the loops. *)
Definition region_pages (addr size : Z) : list Z :=
  let block_size := PAGE_SIZE * CACHELINE in
  let page_misalignment := addr mod block_size in
  let argo_address := sub64 addr (startAddr c) / block_size * block_size in
  let rounds := (page_misalignment + size + (block_size - 1)) / block_size in
  (fun k => argo_address + k * block_size) <$> seqZ 0 rounds.

(** One round of each loop, for a page that is neither local nor untouched. *)
Definition acquire_page (s : dsm) (r page_address : Z) : dsm :=
  let cache_index := getCacheIndex c page_address in
  let classification_index := get_classification_index c page_address in
  if keep_page s r classification_index then set_touched s r cache_index 1
  else
    let s := set_dirty c s r cache_index CLEAN in
    let s := set_state c s r cache_index INVALID in
    let s := set_touched s r cache_index 0 in
    mprotect s r page_address PROT_NONE.

Definition release_page (s : dsm) (r page_address : Z) : outcome dsm :=
  let cache_index := getCacheIndex c page_address in
  if bool_decide (cd_dirty (cc c s r cache_index) = DIRTY) then
    let s := mprotect s r page_address PROT_READ in
    s ← storepageDIFF c pl s r cache_index page_address;
    let s := wb_erase s r cache_index in
    Ok (set_dirty c s r cache_index CLEAN)
  else Ok s.

Definition skip_page (homenode_id r : Z) : bool := (homenode_id =? r) || (homenode_id =? invalid_node_id).

Definition selective_acquire (s : dsm) (r addr size : Z) : outcome dsm :=
  if size =? 0 then Ok s
  else for_each (region_pages addr size) (fun page_address s =>
    homenode_id ← peek_homenode c pl page_address;
    if skip_page homenode_id r then Ok s else Ok (acquire_page s r page_address)) s.

Definition selective_release (s : dsm) (r addr size : Z) : outcome dsm :=
  if size =? 0 then Ok s
  else for_each (region_pages addr size) (fun page_address s =>
    homenode_id ← peek_homenode c pl page_address;
    if skip_page homenode_id r then Ok s else release_page s r page_address) s.

End Selective.

Section Facts.

Context (c : dsm_config) (pl : placement) (Hc : cfg_ok c pl) {PB : plain_bytes} (r : Z) (Hr : node c r).

Abbreviation page := (page c).
Abbreviation home := (home c pl).
Abbreviation cidx := (cidx c).
Abbreviation cls := (cls c).
Abbreviation cc := (cc c).
Abbreviation inv := (inv c pl).
Abbreviation quiet := (quiet c pl).

Lemma skip_home p : page p -> skip_page (home p) r = bool_decide (home p = r).
Proof using Hc.
  intros Hp. unfold skip_page. pose proof (home_node c pl Hc p Hp) as [H1 H2]. pose proof (ck_nodes c pl Hc).
  rewrite (proj2 (Z.eqb_neq (home p) invalid_node_id)) by (unfold invalid_node_id, UINT_MAX; lia).
  rewrite orb_false_r. symmetry. destruct (Z.eqb_spec (home p) r); [by apply bool_decide_eq_true|by apply bool_decide_eq_false].
Qed.

(** What a loop over pages of the node does to its slots. *)
Record slots_follow (s s' : dsm) : Prop := {
  sf_inv : inv s';
  sf_quiet : quiet s s' r;
  sf_sh x i : sh s' x i = sh s x i;
  sf_tag i : cd_tag (cc s' r i) = cd_tag (cc s r i);
  sf_valid i : cd_state (cc s' r i) = VALID -> cd_state (cc s r i) = VALID;
  sf_clean i : cd_dirty (cc s r i) = CLEAN -> cd_dirty (cc s' r i) = CLEAN;
}.

Lemma slots_refl s : inv s -> slots_follow s s.
Proof using. intros H. split; try done. apply quiet_refl. Qed.

Lemma slots_trans s1 s2 s3 : slots_follow s1 s2 -> slots_follow s2 s3 -> slots_follow s1 s3.
Proof using.
  intros [A1 A2 A3 A4 A5 A6] [B1 B2 B3 B4 B5 B6]. split; auto.
  - by apply (quiet_trans c pl s1 s2).
  - intros. by rewrite B3.
  - intros. by rewrite B4.
Qed.




(** ** Release *)
Lemma equiv_quiet s s' : dsm_equiv c s s' -> quiet s s' r.
Proof using.
  intros [E1 E2 E3 E4 E5 E6 E7 E8]. split; auto.
  - intros q j _ _. apply undisturbed_same; [done|..]; unfold cache_byte, copy_byte, home_byte; auto.
  - intros q _ H. unfold holds_dirty, holds in *. by rewrite E1.
Qed.

Lemma release_page_ok s p :
  inv s -> page p -> home p ≠ r -> (cd_dirty (cc s r (cidx p)) = DIRTY -> cd_tag (cc s r (cidx p)) = p) ->
  exists s', release_page c pl s r p = Ok s' /\ slots_follow s s' /\ cd_dirty (cc s' r (cidx p)) = CLEAN /\
    (forall q, holds_dirty c s r q -> q ≠ p -> holds_dirty c s' r q) /\
    (forall q j, holds_dirty c s' r q -> cache_byte c s' r q j = cache_byte c s r q j /\ copy_byte c s' r q j = copy_byte c s r q j) /\
    forall q j, page q -> 0 <= j < PAGE_SIZE -> home_byte c pl s' q j =
      if decide (q = p /\ holds_dirty c s r p) then merged_byte c pl s r q j else home_byte c pl s q j.
Proof using Hc Hr.
  intros Hi Hp Hl Ht. pose proof (cidx_range c pl Hc p) as Hidx. unfold release_page. fold (cidx p).
  destruct (bool_decide_reflect (cd_dirty (cc s r (cidx p)) = DIRTY)) as [Hd|Hd].
  2: { exists s. split; [done|]. split; [by apply slots_refl|]. split; [by destruct (cd_dirty _)|].
       split_and!; try done. intros q j _ _. rewrite decide_False; [done|]. by intros [_ [_ ?]]. }
  specialize (Ht Hd). destruct (evict_write_back c pl Hc s r (cidx p) Hi Hr Hidx Hd) as (s0 & s1 & E & Hb & Hag).
  rewrite Ht in E. apply outcome_bind_Ok in E as (s2 & -> & [= E]). cbn [mbind outcome_bind]. rewrite E.
  eexists. split; [reflexivity|]. set (s' := set_dirty c s1 r (cidx p) CLEAN).
  pose proof (inv_wrote_back c pl Hc no_pend s s0 r (cidx p) Hi Hr Hidx Hd Hb) as Hi0.
  pose proof (wrote_back_flushed c pl Hc no_pend s s0 r (cidx p) Hi Hr Hidx Hd Hb) as Hf.
  pose proof (wt_cc _ _ _ _ _ _ Hb) as Ecc0.
  assert (Heq : dsm_equiv c s0 s').
  { destruct Hag as [A1 A2 A3 A4 A5 A6 A7 A8 A9 A10]. split.
    - intros x i. unfold s'. dsm_get. case_decide as Ei; [|by apply A3]. destruct Ei as [-> ->].
      rewrite A1, A2, Ecc0, decide_True by done. done.
    - exact A4.
    - exact A5.
    - intros x a. simpl. by rewrite A6.
    - intros x a. simpl. by rewrite A7.
    - exact A8.
    - exact A9.
    - exact A10. }
  assert (Hinv : inv s') by (by apply (inv_proper c pl Hc no_pend s0 s' Heq)).
  assert (Hq0 : quiet s s0 r).
  { apply (flushed_quiet c pl Hc no_pend s s0 r [cidx p]); try done. intros i ->%list_elem_of_singleton.
    by apply (dirty_in_wb c pl). }
  assert (Ecc : forall i, cc s' r i = if decide (i = cidx p) then {| cd_state := cd_state (cc s r i); cd_dirty := CLEAN;
    cd_tag := cd_tag (cc s r i) |} else cc s r i).
  { intros i. rewrite (eqv_cc _ _ _ Heq), (fd_cc _ _ _ _ _ _ Hf).
    destruct (decide (i = cidx p)) as [->|Hne]; [by rewrite decide_True by (split; [done|left])|].
    rewrite decide_False; [done|]. by intros [_ ?%list_elem_of_singleton]. }
  assert (Hcp : forall q j, cache_byte c s' r q j = cache_byte c s r q j /\ copy_byte c s' r q j = copy_byte c s r q j).
  { intros q j. unfold cache_byte, copy_byte. rewrite (eqv_cache _ _ _ Heq), (eqv_copy _ _ _ Heq).
    by rewrite (fd_cache _ _ _ _ _ _ Hf), (fd_copy _ _ _ _ _ _ Hf). }
  split; [split|split_and!].
  - done.
  - apply (quiet_trans c pl s s0); [done|by apply equiv_quiet].
  - intros x i. rewrite (eqv_sh _ _ _ Heq). apply Hf.
  - intros i. rewrite Ecc. by case_decide.
  - intros i. rewrite Ecc. by case_decide.
  - intros i. rewrite Ecc. by case_decide.
  - by rewrite Ecc, decide_True.
  - intros q [[H1 H2] H3] Hne. unfold holds_dirty, holds. rewrite Ecc. case_decide as E1; [|done].
    exfalso. apply Hne. rewrite <- H1, E1. done.
  - auto.
  - intros q j Hq Hj. unfold home_byte. rewrite (eqv_home _ _ _ Heq). fold (home_byte c pl s0 q j) (home_byte c pl s q j).
    rewrite (fd_home _ _ _ _ _ _ Hf) by done. apply decide_ext. rewrite list_elem_of_singleton.
    assert (Hv : holds c s r p).
    { destruct (slot_of_dirty c pl s r _ (iv_slot _ _ _ _ Hi r _ Hr Hidx) Hd) as [_ Hv]. done. }
    split.
    + intros [H1 H2]. rewrite H2 in H1. split; [congruence|done].
    + intros [-> _]. done.
Qed.

Lemma slots_dirty s s' q : slots_follow s s' -> holds_dirty c s' r q -> holds_dirty c s r q.
Proof using.
  intros Hf [[H1 H2] H3]. split; [split; [by rewrite <- (sf_tag _ _ Hf)|by apply (sf_valid _ _ Hf)]|].
  destruct (cd_dirty (cc s r (cidx q))) eqn:E; [|done]. by rewrite (sf_clean _ _ Hf _ E) in H3.
Qed.

Lemma release_pages_ok ps : forall s,
  inv s -> Forall page ps ->
  (forall p, p ∈ ps -> home p ≠ r -> cd_dirty (cc s r (cidx p)) = DIRTY -> cd_tag (cc s r (cidx p)) = p) ->
  exists s', for_each ps (fun page_address s => homenode_id ← peek_homenode c pl page_address;
      if skip_page homenode_id r then Ok s else release_page c pl s r page_address) s = Ok s' /\
    slots_follow s s' /\
    (forall p, p ∈ ps -> home p ≠ r -> cd_dirty (cc s' r (cidx p)) = CLEAN) /\
    forall q j, page q -> 0 <= j < PAGE_SIZE -> home_byte c pl s' q j =
      if decide (q ∈ ps /\ home q ≠ r /\ holds_dirty c s r q) then merged_byte c pl s r q j else home_byte c pl s q j.
Proof using Hc Hr.
  induction ps as [|p ps IH]; intros s Hi Hps Hslots.
  { exists s. split; [done|]. split; [by apply slots_refl|]. split; [intros p Hp; by apply elem_of_nil in Hp|].
    intros q j _ _. rewrite decide_False; [done|]. by intros [?%elem_of_nil _]. }
  apply Forall_cons in Hps as [Hp Hps]. cbn [for_each].
  destruct (lookups_ok c pl Hc p Hp) as (_ & -> & _). cbn [mbind outcome_bind]. rewrite (skip_home p Hp).
  destruct (bool_decide_reflect (home p = r)) as [El|El]; cbn [mbind outcome_bind].
  { destruct (IH s Hi Hps) as (s' & -> & Hf & Hk & Hh); [intros q Hq; apply Hslots; by right|].
    exists s'. split; [done|]. split; [done|]. split; [intros q [->|Hq]%elem_of_cons; [done|auto]|].
    intros q j Hq Hj. rewrite Hh by done. apply decide_ext. rewrite elem_of_cons. intuition congruence. }
  destruct (release_page_ok s p Hi Hp El) as (s1 & -> & Hf1 & Hcl & Hkeep & Hbytes & Hh1); [apply Hslots; [left|done]|].
  cbn [mbind outcome_bind]. destruct (IH s1 (sf_inv _ _ Hf1) Hps) as (s' & -> & Hf2 & Hk2 & Hh2).
  { intros q Hq Hql Hd. rewrite (sf_tag _ _ Hf1). apply Hslots; [by right|done|].
    destruct (cd_dirty (cc s r (cidx q))) eqn:E; [|done]. by rewrite (sf_clean _ _ Hf1 _ E) in Hd. }
  exists s'. split; [done|]. split; [by apply (slots_trans s s1)|]. split.
  { intros q [->|Hq]%elem_of_cons Hql; [by apply (sf_clean _ _ Hf2)|auto]. }
  intros q j Hq Hj. rewrite Hh2 by done. destruct (decide (q = p)) as [->|Hne].
  - rewrite decide_False by (intros (_ & _ & [_ H]); congruence). rewrite Hh1 by done. apply decide_ext.
    rewrite elem_of_cons. tauto.
  - assert (Eh : home_byte c pl s1 q j = home_byte c pl s q j) by (rewrite Hh1, decide_False by (done || tauto); done).
    destruct (decide (q ∈ ps /\ home q ≠ r /\ holds_dirty c s1 r q)) as [(H1 & H2 & H3)|Hno].
    + rewrite decide_True by (split_and!; [by right|done|by apply (slots_dirty s s1)]).
      unfold merged_byte. destruct (Hbytes q j H3) as [-> ->]. by rewrite Eh.
    + rewrite decide_False; [done|]. rewrite elem_of_cons. intros ([|H1] & H2 & H3); [done|]. apply Hno. auto.
Qed.

(** ** The region *)

(** The pages of a region of the global memory, by their offsets. *)
Definition region_ok (addr size : Z) : Prop :=
  (PAGE_SIZE | startAddr c) /\ startAddr c <= addr /\ 0 < size /\ addr + size <= startAddr c + size_of_all c.

Lemma region_spec addr size : region_ok addr size ->
  (forall p, p ∈ region_pages c addr size <->
     page p /\ p < addr - startAddr c + size /\ addr - startAddr c < p + PAGE_SIZE).
Proof using Hc.
  intros (Hal & Hlo & Hpos & Hhi) p. pose proof (size_bounds c pl Hc) as Hsz. unfold region_pages, CACHELINE. rewrite Z.mul_1_r.
  set (a := addr - startAddr c). assert (Ea : sub64 addr (startAddr c) = a) by (apply sub64_small; unfold a; lia).
  rewrite Ea. assert (Em : addr mod PAGE_SIZE = a mod PAGE_SIZE).
  { destruct Hal as [k Hk]. unfold a. rewrite Hk. by rewrite <- (Z_mod_plus_full (addr - k * PAGE_SIZE) k PAGE_SIZE), Z.sub_add. }
  rewrite Em. assert (Hps : PAGE_SIZE = 4096) by done.
  pose proof (Z.div_mod a PAGE_SIZE ltac:(done)) as Da. pose proof (Z.mod_pos_bound a PAGE_SIZE ltac:(done)) as Ba.
  set (q := a / PAGE_SIZE) in *. set (m := a mod PAGE_SIZE) in *.
  pose proof (Z.div_mod (m + size + (PAGE_SIZE - 1)) PAGE_SIZE ltac:(done)) as Dn.
  pose proof (Z.mod_pos_bound (m + size + (PAGE_SIZE - 1)) PAGE_SIZE ltac:(done)) as Bn.
  set (n := (m + size + (PAGE_SIZE - 1)) / PAGE_SIZE) in *. rewrite list_elem_of_fmap.
  assert (Hq0 : 0 <= q) by (apply Z.div_pos; unfold a; lia). split.
  - intros (k & -> & Hk%elem_of_seqZ). destruct (ck_pages c pl Hc) as [t Et]. split; [split|].
    + split; [lia|]. assert ((q + k) * PAGE_SIZE < t * PAGE_SIZE); [|lia]. apply Z.mul_lt_mono_pos_r; [done|].
      assert ((q + k) * PAGE_SIZE < a + size) by lia. assert ((q + k) * PAGE_SIZE < t * PAGE_SIZE) by lia. lia.
    + rewrite <- Z.mul_add_distr_r. apply Z.mod_mul. done.
    + lia.
  - intros [[Hp Hpm] [H1 H2]]. pose proof (Z.div_mod p PAGE_SIZE ltac:(done)) as Dp. exists (p / PAGE_SIZE - q).
    split; [lia|]. apply elem_of_seqZ. lia.
Qed.

Lemma region_pages_ok addr size : region_ok addr size -> Forall page (region_pages c addr size).
Proof using Hc. intros H. apply Forall_forall. intros p Hp. by apply (region_spec addr size H). Qed.

End Facts.

(** ** What the two operations promise *)

(** The slots of the region's remote pages hold those pages, unmodified. *)
Definition region_cached (c : dsm_config) (pl : placement) (s : dsm) (r addr size : Z) : Prop :=
  Forall (fun p => home c pl p ≠ r -> cd_tag (cc c s r (cidx c p)) = p /\ cd_dirty (cc c s r (cidx c p)) = CLEAN)
    (region_pages c addr size).

(** No slot that a page of the region shares holds another, modified page. *)
Definition region_owned (c : dsm_config) (pl : placement) (s : dsm) (r addr size : Z) : Prop :=
  Forall (fun p => home c pl p ≠ r -> cd_dirty (cc c s r (cidx c p)) = DIRTY -> cd_tag (cc c s r (cidx c p)) = p)
    (region_pages c addr size).

#[export] Instance region_cached_dec c pl s r addr size : Decision (region_cached c pl s r addr size).
Proof. unfold region_cached. apply _. Defined.
#[export] Instance region_owned_dec c pl s r addr size : Decision (region_owned c pl s r addr size).
Proof. unfold region_owned. apply _. Defined.


(** C40: a selective release writes back the modified bytes of the region's pages
    and nothing else: it returns, leaves those pages unmodified, every byte the
    node changed on them has reached its home and every other byte of memory is
    unchanged, provided that no slot of the region holds another modified page. *)
Theorem selective_release_publishes (c : dsm_config) (pl : placement) (PB : plain_bytes) (s : dsm) (r addr size : Z) :
  cfg_ok c pl -> reachable c pl s -> node c r -> region_ok c addr size -> region_owned c pl s r addr size ->
  exists s', selective_release c pl s r addr size = Ok s' /\ inv c pl s' /\ others c s s' r /\
    forall p j, page c p -> 0 <= j < PAGE_SIZE ->
      let covered := p < addr - startAddr c + size /\ addr - startAddr c < p + PAGE_SIZE in
      (covered -> ~ holds_dirty c s' r p) /\
      home_byte c pl s' p j =
        if decide (covered /\ holds_dirty c s r p /\ cache_byte c s r p j ≠ copy_byte c s r p j)
        then cache_byte c s r p j else home_byte c pl s p j.
Proof.
  intros Hc Hre%reachable_inv Hr Hreg Howned; [|done].
  pose proof (region_pages_ok c pl Hc addr size Hreg) as Hps. pose proof (region_spec c pl Hc addr size Hreg) as Hin.
  unfold region_owned in Howned. rewrite Forall_forall in Howned. destruct (release_pages_ok c pl Hc r Hr _ s Hre Hps Howned) as (s' & E & Hf & Hcl & Hh).
  destruct Hreg as (_ & _ & Hpos & _). exists s'. unfold selective_release.
  rewrite (proj2 (Z.eqb_neq size 0)) by lia. split; [exact E|].
  split; [apply Hf|]. split; [by apply (quiet_others c pl), Hf|]. intros p j Hp Hj.
  set (covered := p < _ /\ _).
  assert (Hrem : forall t, inv c pl t -> holds_dirty c t r p -> home c pl p ≠ r).
  { intros t Ht [Hv _]. by apply (holds_remote c pl Hc no_pend t Ht). }
  split.
  - intros Hcv Hd. pose proof (Hrem s' (sf_inv _ _ _ _ _ Hf) Hd) as Hl. destruct Hd as [_ Hd].
    rewrite Hcl in Hd; [done|by apply Hin|done].
  - rewrite Hh by done. unfold merged_byte. destruct (decide (holds_dirty c s r p)) as [Hd|Hd].
    + pose proof (Hrem s Hre Hd) as Hl. assert (Hiff : p ∈ region_pages c addr size <-> covered) by (rewrite Hin; unfold covered; tauto).
      repeat case_decide; try done; exfalso; tauto.
    + repeat case_decide; try done; exfalso; tauto.
Qed.


Lemma demo_region_ok addr size : 65536 <= addr -> 0 < size -> addr + size <= 65536 + 16384 -> region_ok demo_dsm addr size.
Proof. intros H1 H2 H3. split_and!; [by exists 16|done..]. Qed.


Lemma selective_release_publishes_witness :
  exists s', selective_release demo_dsm demo_pl demo_state 0 (65536 + 8200) 1 = Ok s' /\ inv demo_dsm demo_pl (PB := demo_plain) s' /\
    others demo_dsm demo_state s' 0 /\
    forall p j, page demo_dsm p -> 0 <= j < PAGE_SIZE ->
      let covered := p < 65536 + 8200 - 65536 + 1 /\ 65536 + 8200 - 65536 < p + PAGE_SIZE in
      (covered -> ~ holds_dirty demo_dsm s' 0 p) /\
      home_byte demo_dsm demo_pl s' p j =
        if decide (covered /\ holds_dirty demo_dsm demo_state 0 p /\
                   cache_byte demo_dsm demo_state 0 p j ≠ copy_byte demo_dsm demo_state 0 p j)
        then cache_byte demo_dsm demo_state 0 p j else home_byte demo_dsm demo_pl demo_state p j.
Proof.
  apply (selective_release_publishes demo_dsm demo_pl demo_plain demo_state 0 (65536 + 8200) 1 demo_cfg_ok (demo_reachable _)).
  - split; reflexivity.
  - by apply demo_region_ok.
  - apply (bool_decide_eq_true_1 _). vm_compute. reflexivity.
Defined.

(** ** Without the provisos *)

(** The provisos are needed.  (1) A selective acquire of a page the node has
    modified, when another node also writes it, drops the modification and leaves
    the clean slot in the write buffer: the node's next release fails the write
    buffer's assertion.  (2) A selective acquire of a page whose slot holds
    another page invalidates that page's slot but leaves the page readable, so
    that the node reads 0 where node 1 stored and released 5 before node 0's full
    acquire.  (3) A selective release of a page whose slot holds another, modified
    page marks the slot clean without writing that page back: the store of 7 is
    lost even after a full release. *)
Theorem selective_coherence_aliasing :
  (s ← selective_acquire demo3_dsm demo3_pl demo3_state 0 (65536 + 8192) 8;
   argo_release demo3_dsm demo3_pl s 0) = Throw (assertion_failed "cacheControl[cache_index].dirty == DIRTY") /\
  (let s := end_state (run_ops demo_dsm demo_pl dsm_reset [(0, op_load 8192 access_read)]) in
   s ← selective_acquire demo_dsm demo_pl s 0 (65536 + 12288) 8;
   snd <$> run_ops demo_dsm demo_pl s
     [(1, op_store 8192 5 access_write); (1, op_release); (0, op_acquire); (0, op_load 8192 access_read);
      (1, op_load 8192 access_read)]) = Ok [0; 5] /\
  (let s := end_state (run_ops demo_dsm demo_pl dsm_reset [(0, op_store 8200 7 access_write)]) in
   s ← selective_release demo_dsm demo_pl s 0 (65536 + 12288) 8;
   snd <$> run_ops demo_dsm demo_pl s
     [(0, op_load 8200 access_read); (0, op_release); (1, op_acquire); (1, op_load 8200 access_read)]) = Ok [7; 0].
Proof. split_and!; vm_compute; reflexivity. Qed.
