(* ===== verification/Backends.v ===== *)
(** * The two backends behind the atomic interface

    [src/src/backend/singlenode/singlenode.cpp] implements the interface of
    [backend.hpp] on one node's memory.  The theorems say what the atomics of the
    MPI backend do to the memory of all nodes, that programs cannot tell the
    backends apart by them, and what counting with [fetch_add] gives on either. *)

From S2P Require Import Prelude BlockMap DataDistribution FirstTouch GlobalPtr Mem Swdsm SwdsmBase SwdsmInv SwdsmDir SwdsmOps SwdsmLoad SwdsmHandler SwdsmSync SwdsmBarrier Atomics SwdsmSpec SwdsmTheorems.

(** ** The single-node backend *)
Module SingleNode.

(** The bytes of the node's memory by address; [atomic_op_mutex] makes each
    operation one step. *)
Abbreviation memory := (gmap Z Z).

Definition peek (m : memory) (a : Z) : Z := default 0 (m !! a).
Definition copy_out (m : memory) (a size : Z) : list Z := peek m <$> seqZ a size.
Fixpoint copy_in (m : memory) (a : Z) (bs : list Z) : memory :=
  match bs with
  | [] => m
  | b :: bs => copy_in (<[a := b]> m) (a + 1) bs
  end.

Section Atomic.

Context (float_sum : Z -> list Z -> list Z -> list Z).

Definition _exchange (m : memory) (obj : global_ptr) (desired : list Z) (size : Z) : outcome (memory * list Z) :=
  p ← gp_get obj;
  Ok (copy_in m p desired, copy_out m p size).

Definition _store (m : memory) (obj : global_ptr) (desired : list Z) (size : Z) : outcome memory :=
  p ← gp_get obj;
  Ok (copy_in m p desired).

Definition _load (m : memory) (obj : global_ptr) (size : Z) : outcome (memory * list Z) :=
  p ← gp_get obj;
  Ok (m, copy_out m p size).

Definition _compare_exchange (m : memory) (obj : global_ptr) (desired : list Z) (size : Z) (expected : list Z) :
    outcome (memory * list Z) :=
  p ← gp_get obj;
  let output_buffer := copy_out m p size in
  Ok (if bool_decide (copy_out m p size = expected) then copy_in m p desired else m, output_buffer).

Definition invalid_size : exn := invalid_argument "Invalid size (must be power either 1, 2, 4 or 8)".

(** The four cases of the switch differ in the width only. *)
Definition _fetch_add_int (m : memory) (obj : global_ptr) (value : list Z) (size : Z) : outcome (memory * list Z) :=
  p ← gp_get obj;
  let output_buffer := copy_out m p size in
  if (size =? 1) || (size =? 2) || (size =? 4) || (size =? 8)
  then Ok (copy_in m p (add_bytes size output_buffer value), output_buffer)
  else Throw invalid_size.

Definition _fetch_add_uint (m : memory) (obj : global_ptr) (value : list Z) (size : Z) : outcome (memory * list Z) :=
  p ← gp_get obj;
  let output_buffer := copy_out m p size in
  if (size =? 1) || (size =? 2) || (size =? 4) || (size =? 8)
  then Ok (copy_in m p (add_bytes size output_buffer value), output_buffer)
  else Throw invalid_size.

(** [float], [double] and [long double]. *)
Definition _fetch_add_float (m : memory) (obj : global_ptr) (value : list Z) (size : Z) : outcome (memory * list Z) :=
  p ← gp_get obj;
  let output_buffer := copy_out m p size in
  if (size =? 4) || (size =? 8) || (size =? 16)
  then Ok (copy_in m p (float_sum size output_buffer value), output_buffer)
  else Throw invalid_size.

(** [acquire] and [release] are fences of the node's threads. *)
Definition acquire (m : memory) (r : Z) : outcome memory := Ok m.
Definition release (m : memory) (r : Z) : outcome memory := Ok m.

Definition backend : atomic_backend memory := {|
  ab_acquire := acquire;
  ab_release := release;
  ab_exchange := _exchange;
  ab_store := _store;
  ab_load := _load;
  ab_compare_exchange := _compare_exchange;
  ab_fetch_add_int := _fetch_add_int;
  ab_fetch_add_uint := _fetch_add_uint;
  ab_fetch_add_float := _fetch_add_float;
|}.

End Atomic.

Lemma copy_in_get bs : forall m p a,
  peek (copy_in m p bs) a = if decide (p <= a < p + Z.of_nat (length bs)) then byte_at bs (a - p) else peek m a.
Proof.
  induction bs as [|b bs IH]; intros m p a; simpl copy_in.
  - rewrite decide_False; [done|]. simpl. lia.
  - rewrite IH. simpl length. unfold byte_at, peek.
    destruct (decide (p + 1 <= a < p + 1 + Z.of_nat (length bs))) as [E|E].
    + rewrite decide_True by lia. by replace (Z.to_nat (a - p)) with (S (Z.to_nat (a - (p + 1)))) by lia.
    + destruct (decide (p = a)) as [->|E2].
      * rewrite lookup_insert_eq, decide_True by lia. by rewrite Z.sub_diag.
      * rewrite lookup_insert_ne by done. by rewrite decide_False by lia.
Qed.

Section Laws.

Context (d : base_distribution) (pl : placement) (Hsp : space_ok d) (Hpl : PlacementLaws d pl)
  (float_sum : Z -> list Z -> list Z -> list Z).

(** An integer of 1, 2, 4 or 8 bytes of the memory. *)
Definition object (p n : Z) : Prop :=
  (n = 1 \/ n = 2 \/ n = 4 \/ n = 8) /\ start_address d <= p /\ p + n <= start_address d + total_size d.

#[export] Instance single_node_atomics :
  AtomicMemory (backend float_sum) (lift_policy pl) (in_space d) object peek copy_in.
Proof using All.
  split.
  - intros m p bs a _ _. apply copy_in_get.
  - intros p n a (_ & H1 & H2) Ha. unfold in_space. lia.
  - intros p n (Hn & H1 & H2). assert (Hin : in_space d p) by (unfold in_space; lia).
    destruct (pl_home_ok _ Hin) as (h & Eh & Hh). destruct (pl_offset_ok _ Hin) as (o & Eo & Ho).
    assert (Hv1 : (h =? invalid_node_id) = false).
    { apply Z.eqb_neq. destruct Hsp. unfold invalid_node_id, UINT_MAX. lia. }
    assert (Hv2 : (o =? invalid_offset) = false).
    { apply Z.eqb_neq. pose proof (spn_le_total _ Hsp). destruct Hsp. unfold invalid_offset, SIZE_MAX. lia. }
    exists {| gp_homenode := h; gp_local_offset := o; gp_access_ptr := Some p |}. split.
    { unfold obj_at, gp_make, lift_policy. simpl. rewrite Eh. simpl. by rewrite Eo. }
    split; [unfold to_void, gp_copy, gp_node, gp_offset; simpl; rewrite Hv1; simpl; by rewrite Hv2|].
    assert (Hs : (n =? 1) || (n =? 2) || (n =? 4) || (n =? 8) = true) by lia.
    intros m old. cbn [backend ab_exchange ab_store ab_load ab_compare_exchange ab_fetch_add_int ab_fetch_add_uint].
    unfold _exchange, _store, _load, _compare_exchange, _fetch_add_int, _fetch_add_uint, gp_get, with_ptr.
    cbn [gp_access_ptr mbind outcome_bind]. rewrite Hs. done.
Qed.

End Laws.

(** ** The first-touch directory

    [init] and [reset_coherence] place every page on the node at its own offset, so
    that the policy finds an owner in its first load; the operations that would
    claim a page do nothing in this backend. *)
Definition my_node_id : Z := 0.
Definition init_owners_dir (memory_size : Z) : outcome ft_state :=
  for_each (seqZ 0 (memory_size / PAGE_SIZE)) (fun k s =>
    Ok (store_page_info s my_node_id (3 * k) (my_node_id, k * PAGE_SIZE, 0))) ft_reset.

Lemma init_owners_dir_entries d : 0 <= total_size d -> exists s, init_owners_dir (total_size d) = Ok s /\
  forall k, 0 <= k < npages d -> load_page_info d s my_node_id (3 * k) = (my_node_id, k * PAGE_SIZE, 0).
Proof.
  intros Hs. unfold init_owners_dir, npages. change granularity with PAGE_SIZE.
  apply (for_range_ok _ _ (fun n s => forall k, 0 <= k < n -> load_page_info d s my_node_id (3 * k) = (my_node_id, k * PAGE_SIZE, 0))).
  - by apply Z.div_pos.
  - intros k Hk. lia.
  - intros i s Hi IH. eexists. split; [done|]. intros k Hk.
    pose proof (entry_store d s my_node_id i (my_node_id, i * PAGE_SIZE, 0) my_node_id k) as E. unfold entry in E. rewrite E.
    case_decide as Ei; [by destruct Ei as [_ ->]|]. apply IH. split; [lia|]. assert (k ≠ i) by (intros ->; tauto). lia.
Qed.

End SingleNode.

(** The memory of [demo_dsm] on one node. *)
Definition one_node : base_distribution := set_memory_space 1 65536 (4 * PAGE_SIZE).

Lemma one_node_ok : space_ok one_node /\ PlacementLaws one_node (naive_distribution one_node).
Proof.
  assert (Hsp : space_ok one_node) by (split; vm_compute; intuition congruence).
  split; [done|]. apply naive_laws; [done|]. by exists 4.
Qed.

(** On the single-node backend the first-touch policy is the naive policy: on
    the directory [init] sets up, each of the four lookups of an address returns
    what the naive policy returns, and leaves the directory as it is. *)
Theorem single_node_first_touch (d : base_distribution) (ptr : Z) :
  space_ok d -> nodes d = 1 -> (granularity | size_per_node d) -> in_space d ptr ->
  exists s, SingleNode.init_owners_dir (total_size d) = Ok s /\
    let self := SingleNode.my_node_id in
    let keep (o : outcome Z) := v ← o; Ok (s, v) in
    ft_homenode d s self ptr = keep (naive_homenode d ptr) /\
    ft_peek_homenode d s self ptr = keep (naive_homenode d ptr) /\
    ft_local_offset d s self ptr = keep (naive_local_offset d ptr) /\
    ft_peek_local_offset d s self ptr = keep (naive_local_offset d ptr).
Proof.
  intros Hd Hn Hg [Hin1 Hin2]. pose proof Hd as [_ Hst Hend Hsz Hspn Htot]. rewrite Hn, Z.mul_1_l in Htot.
  destruct (SingleNode.init_owners_dir_entries d ltac:(lia)) as (s & Es & Hs). exists s. split; [done|].
  set (r := ptr - start_address d). assert (Hr : 0 <= r < total_size d) by (unfold r; lia).
  assert (Ep : ptr = start_address d + r) by (unfold r; lia). clearbody r. subst ptr.
  pose proof (page_of_range d Hd Hg r Hr) as Hpg. specialize (Hs (r / granularity) Hpg). unfold load_page_info in Hs.
  change SingleNode.my_node_id with 0 in *. injection Hs as E0 E1 E2. cbv zeta.
  assert (Hgn : global_null d = total_size d + 1) by (by apply gn_eq).
  assert (Hu : forall b, update_dirs d s 0 (granularity * (r / granularity)) b = Ok s).
  { intros b. unfold update_dirs. rewrite (window_index d Hd r Hr), E2, Hgn. by destruct (Z.eqb_spec 0 (total_size d + 1)); [lia|]. }
  assert (Hmod : r / granularity * PAGE_SIZE + r mod granularity = r).
  { pose proof (Z.div_mod r granularity ltac:(done)). unfold PAGE_SIZE, granularity in *. lia. }
  pose proof (Z.mod_pos_bound r granularity ltac:(done)) as Hm.
  assert (Hnh : naive_homenode d (start_address d + r) = Ok 0).
  { unfold naive_homenode, check_homenode. rewrite rel_of by done. rewrite Z.div_small by lia. by rewrite Hn. }
  assert (Hno : naive_local_offset d (start_address d + r) = Ok r).
  { unfold naive_local_offset, check_offset. rewrite Hnh. cbn [mbind outcome_bind]. rewrite rel_of by done.
    rewrite mul64_small, Z.mul_0_l, sub64_small, Z.sub_0_r by lia. by destruct (Z.leb_spec (size_per_node d) r); [lia|]. }
  rewrite Hnh, Hno. unfold ft_homenode, ft_peek_homenode, ft_local_offset, ft_peek_local_offset.
  rewrite !(page_base_page d Hd r Hr), !(window_index d Hd r Hr), !rel_of, !Hu by done. cbn [mbind outcome_bind].
  unfold load_page_info. rewrite E0, E1, E2, Hgn, (u32_small 0), Hn by lia.
  assert (Hnull : (0 =? u32 (total_size d + 1)) = false).
  { apply Z.eqb_neq. unfold u32. destruct Hg as [k Hk]. rewrite Htot, Hk. unfold granularity. intros E. symmetry in E.
    apply Z.mod_divide in E as [q Hq]; lia. }
  assert (Hge : (0 =? total_size d + 1) = false) by lia.
  assert (Hof : (r / granularity * PAGE_SIZE =? total_size d + 1) = false) by lia.
  assert (Ho : (size_per_node d <=? r) = false) by lia.
  rewrite Hnull, Hge, Hof, add64_small, Hmod, Ho by lia. cbn [negb andb mbind outcome_bind]. by rewrite andb_false_r.
Qed.

Lemma single_node_first_touch_witness : exists s, SingleNode.init_owners_dir 16384 = Ok s /\
  ft_homenode one_node s 0 (65536 + 9000) = Ok (s, 0) /\ ft_local_offset one_node s 0 (65536 + 9000) = Ok (s, 9000).
Proof.
  destruct (single_node_first_touch one_node (65536 + 9000)) as (s & E & H1 & _ & H2 & _).
  - apply one_node_ok.
  - reflexivity.
  - by exists 4.
  - split; vm_compute; intuition congruence.
  - exists s. split; [exact E|]. split; [exact H1|exact H2].
Defined.

(** ** The atomics of the MPI backend *)

(** C17: an atomic operation of the MPI backend on a 4- or 8-byte integer is an
    operation on the register made of the home node's bytes: it returns the old
    value as the operation prescribes, changes exactly the bytes of the register
    that it writes, and leaves every cache, page table, directory and write buffer
    alone.  Every other size is refused with an exception. *)
Theorem mpi_atomics_contract (c : dsm_config) (pl : placement) (float_sum : Z -> list Z -> list Z -> list Z)
    (s : dsm) (r p n : Z) (sgn : bool) (call : atomic_call) :
  cfg_ok c pl -> mpi_object c p n -> call_wf n call ->
  let old := word (mpi_byte c pl) s p n in
  let run T := run_atomic (mpi_backend c pl float_sum) (the_policy pl) T s r p call relaxed in
  (exists m, run (int_type n sgn) = Ok (set_globalData s m, call_result call old) /\
     forall a, startAddr c <= a < startAddr c + size_of_all c ->
       mpi_byte c pl (set_globalData s m) a =
         match call_write n call old with
         | Some bs => if decide (p <= a < p + n) then byte_at bs (a - p) else mpi_byte c pl s a
         | None => mpi_byte c pl s a
         end) /\
  (forall m, m ≠ 4 -> m ≠ 8 -> exists what, run (int_type m sgn) = Throw (invalid_argument what)).
Proof.
  intros Hc Hok Hwf old run. split.
  - unfold run. rewrite (run_relaxed _ _ _ _ _ _ (AtomicMemory0 := mpi_atomics c pl Hc _)) by done. fold old.
    unfold apply_call. fold old. destruct (call_write n call old) as [bs|] eqn:Ew.
    + pose proof Hok as (Hn & _). pose proof (call_write_length n call _ bs ltac:(lia) Hwf Ew) as Hl.
      eexists. split; [reflexivity|]. intros a Ha. rewrite <- Hl in Hok.
      pose proof (update_get c pl Hc s p bs a Hok Ha) as E. by rewrite Hl in E.
    + exists (globalData s). destruct s; done.
  - intros m H4 H8. destruct (object_pointer c pl Hc p n Hok) as (g & E1 & E2 & _). unfold run, run_atomic. rewrite E1.
    apply Z.eqb_neq in H4, H8. cbn [mbind outcome_bind].
    destruct call; unfold exchange, store, load, compare_exchange, fetch_add, before; cbn [mbind outcome_bind int_type traits sizeof];
      try (destruct sgn); rewrite E2; cbn [mbind outcome_bind mpi_backend ab_exchange ab_store ab_load ab_compare_exchange
        ab_fetch_add_int ab_fetch_add_uint];
      unfold mpi_exchange, mpi_store, mpi_load, mpi_compare_exchange, mpi_fetch_add_int, mpi_fetch_add_uint, fitting_mpi_int, fitting_mpi_uint;
      rewrite H4, H8; by eexists.
Qed.

Definition no_floats (n : Z) (a b : list Z) : list Z := a.

Lemma demo_object a n : n = 4 \/ n = 8 -> 0 <= a -> a + n <= 4 * PAGE_SIZE -> a mod PAGE_SIZE + n <= PAGE_SIZE ->
  mpi_object demo_dsm (startAddr demo_dsm + a) n.
Proof.
  intros H1 H2 H3 H4. unfold mpi_object. rewrite Z.add_simpl_l. change (size_of_all demo_dsm) with (4 * PAGE_SIZE). lia.
Qed.

Lemma mpi_atomics_contract_witness :
  let old := word (mpi_byte demo_dsm demo_pl) demo_state (65536 + 8192) 8 in
  let call := at_fetch_add [2; 0; 0; 0; 0; 0; 0; 0] in
  let run T := run_atomic (mpi_backend demo_dsm demo_pl no_floats) (the_policy demo_pl) T demo_state 1 (65536 + 8192) call relaxed in
  (exists m, run (int_type 8 true) = Ok (set_globalData demo_state m, call_result call old) /\
     forall a, 65536 <= a < 65536 + 4 * PAGE_SIZE ->
       mpi_byte demo_dsm demo_pl (set_globalData demo_state m) a =
         match call_write 8 call old with
         | Some bs => if decide (65536 + 8192 <= a < 65536 + 8192 + 8) then byte_at bs (a - (65536 + 8192))
                      else mpi_byte demo_dsm demo_pl demo_state a
         | None => mpi_byte demo_dsm demo_pl demo_state a
         end) /\
  (forall m, m ≠ 4 -> m ≠ 8 -> exists what, run (int_type m true) = Throw (invalid_argument what)).
Proof.
  apply (mpi_atomics_contract demo_dsm demo_pl no_floats demo_state 1 (65536 + 8192) 8 true (at_fetch_add [2; 0; 0; 0; 0; 0; 0; 0])
           demo_cfg_ok); [|reflexivity].
  apply (demo_object 8192 8); [by right|done..].
Defined.

(** ** Clients of the interface *)

(** Atomic operations one after the other: address, size, signedness, call. *)
Definition request : Type := Z * Z * bool * atomic_call.

Section Requests.

Context {S : Type} (B : atomic_backend S) (P : policy unit).

Fixpoint run_requests (s : S) (r : Z) (qs : list request) : outcome (S * list (list Z)) :=
  match qs with
  | [] => Ok (s, [])
  | (p, n, sgn, call) :: qs =>
    '(s, v) ← run_atomic B P (int_type n sgn) s r p call relaxed;
    '(s, vs) ← run_requests s r qs;
    Ok (s, v :: vs)
  end.

End Requests.

(** Two backends over one address space give the same answers. *)
Section Agree.

Context {S1 S2 : Type} (B1 : atomic_backend S1) (B2 : atomic_backend S2) (P1 P2 : policy unit)
  (dom : Z -> Prop) (ok1 ok2 : Z -> Z -> Prop) (byte1 : S1 -> Z -> Z) (byte2 : S2 -> Z -> Z)
  (upd1 : S1 -> Z -> list Z -> S1) (upd2 : S2 -> Z -> list Z -> S2)
  `{!AtomicMemory B1 P1 dom ok1 byte1 upd1} `{!AtomicMemory B2 P2 dom ok2 byte2 upd2}.

Definition same_memory (s1 : S1) (s2 : S2) : Prop := forall a, dom a -> byte1 s1 a = byte2 s2 a.

Lemma same_word s1 s2 p n : same_memory s1 s2 -> ok1 p n -> word byte1 s1 p n = word byte2 s2 p n.
Proof using All.
  intros Hs Hok. apply list_fmap_ext. intros i a Ha%list_elem_of_lookup_2%elem_of_seqZ. apply Hs, (am_dom B1 P1 p n); [done|lia].
Qed.

Lemma same_apply s1 s2 p n call : same_memory s1 s2 -> ok1 p n -> ok2 p n -> 0 <= n -> call_wf n call ->
  same_memory (apply_call byte1 upd1 n s1 p call) (apply_call byte2 upd2 n s2 p call).
Proof using All.
  intros Hs H1 H2 Hn Hwf. unfold apply_call. rewrite (same_word s1 s2) by done.
  destruct (call_write n call _) as [bs|] eqn:Ew; [|done]. pose proof (call_write_length n call _ bs Hn Hwf Ew) as Hl. subst n.
  intros a Ha. rewrite (am_get B1 P1), (am_get B2 P2) by done. case_decide; [done|by apply Hs].
Qed.

Lemma same_requests qs r1 r2 : forall s1 s2, same_memory s1 s2 ->
  Forall (fun '(p, n, _, call) => ok1 p n /\ ok2 p n /\ 0 <= n /\ call_wf n call) qs ->
  exists s1' s2' vs, run_requests B1 P1 s1 r1 qs = Ok (s1', vs) /\ run_requests B2 P2 s2 r2 qs = Ok (s2', vs) /\
    same_memory s1' s2'.
Proof using All.
  induction qs as [|[[[p n] sgn] call] qs IH]; intros s1 s2 Hs Hqs; [by exists s1, s2, []|].
  apply Forall_cons in Hqs as [(H1 & H2 & Hn & Hwf) Hqs]. cbn [run_requests].
  rewrite (run_relaxed B1 P1 dom ok1 byte1 upd1), (run_relaxed B2 P2 dom ok2 byte2 upd2) by done. cbn [mbind outcome_bind].
  destruct (IH _ _ (same_apply s1 s2 p n call Hs H1 H2 Hn Hwf) Hqs) as (s1' & s2' & vs & -> & -> & Hs').
  cbn [mbind outcome_bind]. rewrite (same_word s1 s2) by done. by eexists _, _, _.
Qed.

End Agree.

(** C18: the single-node backend and the MPI backend agree on the atomic operations both
    accept: over the same address space and from the same memory, every sequence of
    loads, stores, exchanges, compare-exchanges and fetch-adds with relaxed memory order
    on 4- and 8-byte integers that do not cross a page returns on both, with the same
    results and the same memory.  (Other sizes are refused by the MPI backend only.) *)
Theorem backends_agree (c : dsm_config) (pl : placement) (d : base_distribution) (pl1 : placement)
    (float_sum : Z -> list Z -> list Z -> list Z) (s : dsm) (m : gmap Z Z) (r : Z) (qs : list request) :
  cfg_ok c pl -> space_ok d -> PlacementLaws d pl1 -> start_address d = startAddr c -> total_size d = size_of_all c ->
  (forall a, in_space d a -> mpi_byte c pl s a = SingleNode.peek m a) ->
  Forall (fun '(p, n, _, call) => mpi_object c p n /\ call_wf n call) qs ->
  exists s' m' vs,
    run_requests (mpi_backend c pl float_sum) (the_policy pl) s r qs = Ok (s', vs) /\
    run_requests (SingleNode.backend float_sum) (lift_policy pl1) m 0 qs = Ok (m', vs) /\
    forall a, in_space d a -> mpi_byte c pl s' a = SingleNode.peek m' a.
Proof.
  intros Hc Hsp Hpl E1 E2 Hs Hqs.
  assert (Hmpi : AtomicMemory (mpi_backend c pl float_sum) (the_policy pl) (in_space d) (mpi_object c) (mpi_byte c pl) (mpi_update c pl)).
  { unfold in_space. rewrite E1, E2. by apply mpi_atomics. }
  pose proof (SingleNode.single_node_atomics d pl1 Hsp Hpl float_sum) as Hsn.
  apply (same_requests _ _ _ _ (in_space d) (mpi_object c) (SingleNode.object d) _ _ _ _ qs r 0 s m Hs).
  eapply Forall_impl; [exact Hqs|]. intros [[[p n] sgn] call] [Hok Hwf]. pose proof Hok as (Hn & H1 & H2 & _).
  split_and!; [done| |lia|done]. unfold SingleNode.object. rewrite E1, E2. lia.
Qed.

Lemma backends_agree_witness :
  exists s' m' vs,
    run_requests (mpi_backend demo_dsm demo_pl no_floats) (the_policy demo_pl) dsm_reset 1
      [(65536 + 8192, 4, true, at_store [255; 255; 255; 255]); (65536 + 8192, 4, false, at_fetch_add [2; 0; 0; 0]);
       (65536 + 8192, 4, true, at_compare_exchange [1; 0; 0; 0] [9; 0; 0; 0])] = Ok (s', vs) /\
    run_requests (SingleNode.backend no_floats) (lift_policy (naive_distribution one_node)) ∅ 0
      [(65536 + 8192, 4, true, at_store [255; 255; 255; 255]); (65536 + 8192, 4, false, at_fetch_add [2; 0; 0; 0]);
       (65536 + 8192, 4, true, at_compare_exchange [1; 0; 0; 0] [9; 0; 0; 0])] = Ok (m', vs) /\
    forall a, in_space one_node a -> mpi_byte demo_dsm demo_pl s' a = SingleNode.peek m' a.
Proof.
  apply (backends_agree demo_dsm demo_pl one_node (naive_distribution one_node)); try reflexivity.
  - exact demo_cfg_ok.
  - exact (proj1 one_node_ok).
  - exact (proj2 one_node_ok).
  - repeat apply Forall_cons_2; [..|apply Forall_nil_2]; (split; [apply (demo_object 8192 4); [by left|done..]|by vm_compute]).
Defined.

(** ** Counting *)
Section Counter.

Context {S : Type} (B : atomic_backend S) (P : policy unit) (dom : Z -> Prop) (ok : Z -> Z -> Prop) (gbyte : S -> Z -> Z)
  (upd : S -> Z -> list Z -> S) `{!AtomicMemory B P dom ok gbyte upd}.

Definition value (s : S) (p n : Z) : Z := of_bytes (word gbyte s p n).

(** The nodes [rs], in this order, each do [fetch_add(p, 1)]. *)
Fixpoint increments (n : Z) (sgn : bool) (s : S) (p : Z) (rs : list Z) : outcome (S * list Z) :=
  match rs with
  | [] => Ok (s, [])
  | r :: rs =>
    '(s, old) ← run_atomic B P (int_type n sgn) s r p (at_fetch_add (to_bytes (Z.to_nat n) 1)) relaxed;
    '(s, olds) ← increments n sgn s p rs;
    Ok (s, of_bytes old :: olds)
  end.

Lemma byte_at_id l : (fun i => byte_at l i) <$> seqZ 0 (Z.of_nat (length l)) = l.
Proof.
  apply list_eq. intros i. rewrite list_lookup_fmap. destruct (decide (i < length l)%nat) as [Hi|Hi].
  - rewrite lookup_seqZ_lt by lia. simpl. unfold byte_at. rewrite Z.add_0_l, Nat2Z.id.
    destruct (lookup_lt_is_Some_2 l i Hi) as [x E]. rewrite E. f_equal. by apply nth_lookup_Some.
  - rewrite lookup_seqZ_ge by lia. symmetry. apply lookup_ge_None_2. lia.
Qed.

(** What was written is read back. *)
Lemma word_upd s p bs : ok p (Z.of_nat (length bs)) -> word gbyte (upd s p bs) p (Z.of_nat (length bs)) = bs.
Proof using All.
  intros Hok. rewrite <- (byte_at_id bs) at 3. unfold word. rewrite <- (Z.add_0_r p) at 2. rewrite <- fmap_add_seqZ, <- list_fmap_compose.
  apply list_fmap_ext. intros i k Hk%list_elem_of_lookup_2%elem_of_seqZ. simpl.
  rewrite (am_get B P); [|done|apply (am_dom B P p _ _ Hok); lia]. rewrite decide_True by lia. f_equal. lia.
Qed.

Lemma value_add s p n v : ok p n -> 0 <= n -> Z.of_nat (length v) = n ->
  value (upd s p (add_bytes n (word gbyte s p n) v)) p n = (value s p n + of_bytes v) mod 2 ^ (8 * n).
Proof using All.
  intros Hok Hn Hv. set (bs := add_bytes n (word gbyte s p n) v).
  assert (Hl : Z.of_nat (length bs) = n) by (unfold bs, add_bytes; rewrite length_to_bytes; lia).
  assert (E : word gbyte (upd s p bs) p n = bs) by (rewrite <- Hl; apply word_upd; by rewrite Hl).
  unfold value. rewrite E. unfold bs. by rewrite of_add_bytes.
Qed.

Lemma increments_spec n sgn rs : forall s p, ok p n -> 0 < n ->
  exists s', increments n sgn s p rs = Ok (s', match rs with [] => [] | _ :: rs' =>
      value s p n :: ((fun i => (value s p n + i) mod 2 ^ (8 * n)) <$> seqZ 1 (Z.of_nat (length rs'))) end) /\
    value s' p n = match rs with [] => value s p n | _ => (value s p n + Z.of_nat (length rs)) mod 2 ^ (8 * n) end.
Proof using All.
  induction rs as [|r rs IH]; intros s p Hok Hn; [by exists s|]. cbn [increments].
  assert (Hone : Z.of_nat (length (to_bytes (Z.to_nat n) 1)) = n) by (rewrite length_to_bytes; lia).
  rewrite (run_relaxed B P dom ok gbyte upd) by done. cbn [mbind outcome_bind]. unfold apply_call. cbn [call_write call_result].
  set (s1 := upd s p _). assert (Ev : value s1 p n = (value s p n + 1) mod 2 ^ (8 * n)).
  { unfold s1. rewrite value_add by (done || lia). rewrite of_to_bytes, Z2Nat.id by lia.
    rewrite Z.mod_1_l; [done|]. apply Z.pow_gt_1; lia. }
  assert (Hmod : forall i, ((value s p n + 1) mod 2 ^ (8 * n) + i) mod 2 ^ (8 * n) = (value s p n + (1 + i)) mod 2 ^ (8 * n)).
  { intros i. rewrite Zplus_mod_idemp_l. f_equal. lia. }
  destruct (IH s1 p Hok Hn) as (s' & -> & E'). exists s'. cbn [mbind outcome_bind]. split.
  - do 3 f_equal. destruct rs as [|r' rs]; [done|]. cbn [length]. rewrite Nat2Z.inj_succ, <- Z.add_1_l.
    rewrite (seqZ_app 1 1 (Z.of_nat (length rs))) by lia. rewrite fmap_app. simpl. rewrite Ev. f_equal.
    change 2 with (1 + 1). rewrite <- (fmap_add_seqZ 1 1), <- list_fmap_compose. apply list_fmap_ext. intros i k _. simpl. apply Hmod.
  - rewrite E'. destruct rs as [|r' rs]; [by rewrite Ev|]. rewrite Ev, Hmod. f_equal. cbn [length]. lia.
Qed.

End Counter.

(** On every backend that implements the interface, concurrent increments are
    neither lost nor given out twice.  When [k] calls of [fetch_add] with 1, by any
    nodes in any order, hit a counter of [n] bytes, they return the [k] successive
    values of the counter (modulo its width) and leave it incremented by [k]; up to
    one turn of the counter no two of them get the same value. *)
Theorem fetch_add_counts {S : Type} (B : atomic_backend S) (P : policy unit) (dom : Z -> Prop) (ok : Z -> Z -> Prop)
    (gbyte : S -> Z -> Z) (upd : S -> Z -> list Z -> S) (n : Z) (sgn : bool) (s : S) (p : Z) (rs : list Z) :
  AtomicMemory B P dom ok gbyte upd -> ok p n -> 0 < n -> 0 <= value gbyte s p n < 2 ^ (8 * n) ->
  let k := Z.of_nat (length rs) in
  exists s' olds, increments B P n sgn s p rs = Ok (s', olds) /\
    olds = (fun i => (value gbyte s p n + i) mod 2 ^ (8 * n)) <$> seqZ 0 k /\
    value gbyte s' p n = (value gbyte s p n + k) mod 2 ^ (8 * n) /\
    (k <= 2 ^ (8 * n) -> NoDup olds).
Proof.
  intros HB Hok Hn Hw k. destruct (increments_spec B P dom ok gbyte upd n sgn rs s p Hok Hn) as (s' & E & Ev).
  set (w := value gbyte s p n) in *. set (M := 2 ^ (8 * n)) in *.
  assert (Hlist : match rs with [] => [] | _ :: rs' => w :: ((fun i => (w + i) mod M) <$> seqZ 1 (Z.of_nat (length rs'))) end
                  = (fun i => (w + i) mod M) <$> seqZ 0 k).
  { unfold k. destruct rs as [|r rs']; [done|]. cbn [length]. rewrite Nat2Z.inj_succ, <- Z.add_1_l, seqZ_app by lia.
    simpl. f_equal. rewrite Z.add_0_r. symmetry. by apply Z.mod_small. }
  rewrite Hlist in E. exists s', ((fun i => (w + i) mod M) <$> seqZ 0 k). split; [done|]. split; [done|]. split.
  - rewrite Ev. unfold k. destruct rs; [|done]. simpl. rewrite Z.add_0_r. symmetry. by apply Z.mod_small.
  - intros Hk. apply NoDup_fmap_2_strong; [|apply NoDup_seqZ].
    intros i j Hi%elem_of_seqZ Hj%elem_of_seqZ Eij. pose proof (Z.div_mod (w + i) M ltac:(lia)). pose proof (Z.div_mod (w + j) M ltac:(lia)).
    rewrite Eij in *. assert (Hd : M * ((w + i) / M - (w + j) / M) = i - j) by lia.
    assert ((w + i) / M - (w + j) / M = 0) by nia. lia.
Qed.

(** Nodes 1, 0 and 1 increment an unsigned 32-bit counter that is about to wrap. *)
Definition counter_state : dsm :=
  mpi_update demo_dsm demo_pl dsm_reset (65536 + 8192) [254; 255; 255; 255].

Lemma fetch_add_counts_witness :
  exists s' olds, increments (mpi_backend demo_dsm demo_pl no_floats) (the_policy demo_pl) 4 false counter_state (65536 + 8192) [1; 0; 1]
      = Ok (s', olds) /\
    olds = (fun i => (value (mpi_byte demo_dsm demo_pl) counter_state (65536 + 8192) 4 + i) mod 2 ^ (8 * 4)) <$> seqZ 0 3 /\
    value (mpi_byte demo_dsm demo_pl) s' (65536 + 8192) 4
      = (value (mpi_byte demo_dsm demo_pl) counter_state (65536 + 8192) 4 + 3) mod 2 ^ (8 * 4) /\
    (3 <= 2 ^ (8 * 4) -> NoDup olds).
Proof.
  apply (fetch_add_counts _ _ _ _ _ _ 4 false counter_state (65536 + 8192) [1; 0; 1] (mpi_atomics demo_dsm demo_pl demo_cfg_ok no_floats)).
  - apply (demo_object 8192 4); [by left|done..].
  - done.
  - vm_compute. split; congruence.
Defined.
