(* ===== verification/TasOnDsm.v ===== *)
(** * The global lock on the DSM

    [src/src/synchronization/global_tas_lock.hpp] run by the nodes of the DSM: its
    field lives in the global memory, is exchanged and stored with the backend's
    atomics, and taking or releasing the lock acquires or releases the node's
    cache.  The theorem composes the lock with the page caches, the directories and
    the atomics: programs that access shared data only while they hold the lock
    see a sequentially consistent memory. *)

From S2P Require Import Prelude BlockMap DataDistribution FirstTouch GlobalPtr Mem Swdsm SwdsmBase SwdsmInv SwdsmDir SwdsmOps SwdsmLoad SwdsmHandler SwdsmSync SwdsmBarrier Atomics SwdsmSpec SwdsmTheorems Locks.

(** ** The lock's operations *)
Section Lock.

(** The field is the [std::size_t] at offset [field] of the global memory. *)
Context (c : dsm_config) (pl : placement) (field : Z).

Definition op_exchange : dsm_op := op_atomic field 8 false (at_exchange (to_bytes 8 Tas.locked)) relaxed.
Definition op_unlock (self : Z) : dsm_op := op_atomic field 8 false (at_store (to_bytes 8 self)) release.

Definition try_lock (s : dsm) (self : Z) : outcome (dsm * bool) :=
  '(s, out) ← run_op c pl s (self, op_exchange);
  let old := of_bytes out in
  if negb (old =? Tas.locked) then
    if (old =? self) || (old =? Tas.init) then Ok (s, true)
    else s ← argo_acquire c pl s self; Ok (s, true)
  else Ok (s, false).

Definition unlock (s : dsm) (self : Z) : outcome dsm :=
  s ← argo_release c pl s self;
  '(s, _) ← run_op c pl s (self, op_unlock self);
  Ok s.

(** ** Runs: attempts of any node, accesses and unlocks of the holder *)
Inductive event :=
  | ev_try (r : Z)
  | ev_load (r a : Z)
  | ev_store (r a v : Z)
  | ev_unlock (r : Z).

Definition run_event (s : dsm) (e : event) : outcome (dsm * list Z) :=
  match e with
  | ev_try r => '(s, b) ← try_lock s r; Ok (s, [Z.b2z b])
  | ev_load r a => run_op c pl s (r, op_load a access_undefined)
  | ev_store r a v => run_op c pl s (r, op_store a v access_undefined)
  | ev_unlock r => s ← unlock s r; Ok (s, [])
  end.

Fixpoint run_events (s : dsm) (es : list event) : outcome (dsm * list Z) :=
  match es with
  | [] => Ok (s, [])
  | e :: es =>
    '(s, vs) ← run_event s e;
    '(s, ws) ← run_events s es; Ok (s, vs ++ ws)
  end.

(** ** The specification: a lock and a memory *)
Definition is_data (a : Z) : bool := (0 <=? a) && (a <? size_of_all c) && negb (bool_decide (field <= a < field + 8)).
Definition is_node (r : Z) : bool := (0 <=? r) && (r <? numtasks c).

Definition spec_event (m : Z -> Z) (holder : option Z) (e : event) : option ((Z -> Z) * option Z * list Z) :=
  match e with
  | ev_try r =>
    if is_node r then
      Some (match holder with None => (m, Some r, [1]) | Some h => (m, Some h, [0]) end)
    else None
  | ev_load r a => if bool_decide (holder = Some r) && is_data a then Some (m, holder, [m a]) else None
  | ev_store r a v =>
    if bool_decide (holder = Some r) && is_data a
    then Some (fun b => if b =? a then v else m b, holder, []) else None
  | ev_unlock r => if bool_decide (holder = Some r) then Some (m, None, []) else None
  end.

Fixpoint spec_events (m : Z -> Z) (holder : option Z) (es : list event) : option (option Z * list Z) :=
  match es with
  | [] => Some (holder, [])
  | e :: es =>
    '(m, holder, vs) ← spec_event m holder e;
    '(holder, ws) ← spec_events m holder es; Some (holder, vs ++ ws)
  end.

(** The lock is free and every node has synchronised, as after a barrier. *)
Definition lock_ready (f : flat) : Prop :=
  (fm_byte f <$> seqZ field 8) = to_bytes 8 Tas.init /\
  (forall b, field <= b < field + 8 -> may_atomic (fm_mode f b) = true) /\
  forall a, is_data a = true -> exists synced, fm_mode f a = Shared synced /\ forall x, node c x -> synced x = true.

End Lock.

(** ** The refinement *)
Section Refine.

Context (c : dsm_config) (pl : placement) (Hc : cfg_ok c pl) (field : Z)
  (Hfield : mpi_object c (startAddr c + field) 8).

Abbreviation is_data := (is_data c field).

(** Who may use the data while the lock is free with [w] in its field. *)
Definition free (f : flat) (w : Z) : Prop :=
  w ≠ Tas.locked /\ 0 <= w < 2 ^ 64 /\
  forall a, is_data a = true -> exists synced, fm_mode f a = Shared synced /\
    forall x, node c x -> w = Tas.init \/ w = x -> synced x = true.

Record lock_rel (f : flat) (holder : option Z) (m : Z -> Z) : Prop := {
  lr_data a : is_data a = true -> fm_byte f a = m a;
  lr_atomic b : field <= b < field + 8 -> may_atomic (fm_mode f b) = true;
  lr_word : exists w, (fm_byte f <$> seqZ field 8) = to_bytes 8 w /\
    match holder with
    | None => free f w
    | Some h => w = Tas.locked /\ node c h /\ forall a, is_data a = true -> may_access (fm_mode f a) h = true
    end;
}.

Lemma data_field a : is_data a = true -> bool_decide (field <= a < field + 8) = false.
Proof. unfold TasOnDsm.is_data. intros [_ H]%andb_true_iff. by destruct (bool_decide _). Qed.

Lemma node_words r : node c r -> r ≠ Tas.locked /\ r ≠ Tas.init /\ 0 <= r < 2 ^ 64.
Proof using Hc. intros [H1 H2]. pose proof (ck_nodes c pl Hc). unfold Tas.locked, Tas.init. lia. Qed.

Lemma of_word w : 0 <= w < 2 ^ 64 -> of_bytes (to_bytes 8 w) = w.
Proof. intros H. rewrite of_to_bytes. by apply Z.mod_small. Qed.

#[local] Opaque to_bytes Tas.init Tas.locked.

(** Writing the field: a store of 8 bytes by the flat memory. *)
Lemma flat_field (f : flat) r sgn call order w0 :
  (forall b, field <= b < field + 8 -> may_atomic (fm_mode (if releases order then flat_modes f (fun m => published m r) else f) b) = true) ->
  acquires order = false -> call_write 8 call (fm_byte f <$> seqZ field 8) = Some (to_bytes 8 w0) ->
  exists f', flat_op f (r, op_atomic field 8 sgn call order) = Some (f', call_result call (fm_byte f <$> seqZ field 8)) /\
    (fm_byte f' <$> seqZ field 8) = to_bytes 8 w0 /\
    (forall b, field <= b < field + 8 -> fm_mode f' b = Atomic) /\
    forall a, is_data a = true -> fm_byte f' a = fm_byte f a /\
      fm_mode f' a = fm_mode (if releases order then flat_modes f (fun m => published m r) else f) a.
Proof.
  intros Hm Ha Hw. cbn [flat_op]. set (f1 := if releases order then _ else f) in *.
  assert (Eb : fm_byte f1 = fm_byte f) by (unfold f1; by destruct (releases order)).
  assert (Hall : forallb (fun b => may_atomic (fm_mode f1 b)) (seqZ field 8) = true).
  { apply forallb_forall. intros b Hb%list_elem_of_In%elem_of_seqZ. by apply Hm. }
  rewrite Hall, Ha, Eb. eexists. split; [reflexivity|]. unfold flat_call. rewrite Eb, Hw. cbn [fm_byte fm_mode]. split_and!.
  - apply list_eq. intros i. rewrite list_lookup_fmap. destruct (decide (i < 8)%nat) as [Hi|Hi].
    + rewrite lookup_seqZ_lt by lia. cbn [fmap option_fmap option_map].
      rewrite bool_decide_eq_true_2 by lia. replace (field + Z.of_nat i - field) with (Z.of_nat i) by ring.
      unfold byte_at. rewrite Nat2Z.id. destruct (lookup_lt_is_Some_2 (to_bytes 8 w0) i) as [x E]; [by rewrite length_to_bytes|].
      rewrite E. f_equal. by apply nth_lookup_Some.
    + rewrite lookup_seqZ_ge by lia. symmetry. apply lookup_ge_None_2. rewrite length_to_bytes. lia.
  - intros b Hb. by rewrite bool_decide_eq_true_2.
  - intros a Had. by rewrite (data_field a Had).
Qed.

Lemma field_valid r sgn call order : node c r -> forallb (fun l => Z.of_nat l =? 8) (lengths call) = true ->
  op_valid c (r, op_atomic field 8 sgn call order) = true.
Proof using Hfield.
  intros [H1 H2] Hl. destruct Hfield as (_ & F1 & F2 & F3). rewrite Z.add_simpl_l in F3. cbn [op_valid].
  rewrite Hl, !andb_true_iff. split_and!; lia.
Qed.

Lemma try_refines f s holder m r : lock_rel f holder m -> sim c pl f s -> node c r ->
  exists f' s', try_lock c pl field s r = Ok (s', bool_decide (holder = None)) /\ sim c pl f' s' /\
    lock_rel f' (match holder with None => Some r | h => h end) m.
Proof using Hc Hfield.
  intros [Hd Ha (w & Ew & Hw)] Hs Hr.
  destruct (flat_field f r false (at_exchange (to_bytes 8 Tas.locked)) relaxed Tas.locked Ha eq_refl eq_refl)
    as (f1 & E1 & Ew1 & Ha1 & Hd1). change (releases relaxed) with false in Hd1. cbn iota in Hd1.
  destruct (sim_op c pl Hc f s _ f1 _ Hs (field_valid r false (at_exchange (to_bytes 8 Tas.locked)) relaxed Hr eq_refl) E1) as (s1 & R1 & Hs1).
  unfold try_lock, op_exchange. rewrite R1. cbn [mbind outcome_bind call_result]. rewrite Ew.
  assert (Hrel : forall f2 h, fm_byte f2 = fm_byte f1 -> (forall b, may_atomic (fm_mode f1 b) = true -> may_atomic (fm_mode f2 b) = true) ->
            node c h -> (forall a, is_data a = true -> may_access (fm_mode f2 a) h = true) -> lock_rel f2 (Some h) m).
  { intros f2 h Eb Hm Hh Hacc. split.
    - intros a Hda. rewrite Eb. rewrite (proj1 (Hd1 a Hda)). by apply Hd.
    - intros b Hb. apply Hm. by rewrite Ha1.
    - exists Tas.locked. rewrite Eb. auto. }
  destruct holder as [h|].
  - destruct Hw as (-> & Hh & Hacc). exists f1, s1. split; [done|]. split; [done|]. apply Hrel; auto.
    intros a Hda. rewrite (proj2 (Hd1 a Hda)). by apply Hacc.
  - destruct Hw as (Hl & Hrange & Hfree). rewrite of_word by done. rewrite (proj2 (Z.eqb_neq _ _) Hl). cbn [negb].
    destruct ((w =? r) || (w =? Tas.init)) eqn:Er.
    + exists f1, s1. split; [done|]. split; [done|]. apply Hrel; auto. intros a Hda. rewrite (proj2 (Hd1 a Hda)).
      destruct (Hfree a Hda) as (synced & -> & Hsy). apply Hsy; [done|]. lia.
    + destruct (sim_acquire c pl Hc f1 s1 r Hs1 Hr) as (s2 & E2 & Hs2). rewrite E2. cbn [mbind outcome_bind].
      eexists _, s2. split; [done|]. split; [exact Hs2|]. apply Hrel; [done| |done|].
      * intros b. unfold flat_modes. cbn [fm_mode]. unfold acquired_by. by destruct (fm_mode f1 b).
      * intros a Hda. unfold flat_modes. cbn [fm_mode]. rewrite (proj2 (Hd1 a Hda)). destruct (Hfree a Hda) as (synced & -> & _).
        cbn. by rewrite Z.eqb_refl.
Qed.

Lemma unlock_refines f s m r : lock_rel f (Some r) m -> sim c pl f s ->
  exists f' s', unlock c pl field s r = Ok s' /\ sim c pl f' s' /\ lock_rel f' None m.
Proof using Hc Hfield.
  intros [Hd Ha (w & Ew & -> & Hr & Hacc)] Hs. unfold unlock.
  destruct (sim_release c pl Hc f s r Hs Hr) as (s1 & -> & Hs1). cbn [mbind outcome_bind].
  set (f1 := flat_modes f (fun m => published m r)) in *.
  destruct (flat_field f1 r false (at_store (to_bytes 8 r)) release r) as (f2 & E2 & Ew2 & Ha2 & Hd2); [|done|done|].
  { intros b Hb. specialize (Ha b Hb). change (releases release) with true. unfold f1, flat_modes. cbn [fm_mode].
    destruct (fm_mode f b); [discriminate Ha|reflexivity|reflexivity|discriminate Ha]. }
  change (releases release) with true in Hd2. unfold f1, flat_modes in Hd2. cbn [fm_mode fm_byte] in Hd2.
  destruct (sim_op c pl Hc f1 s1 _ f2 _ Hs1 (field_valid r false (at_store (to_bytes 8 r)) release Hr eq_refl) E2) as (s2 & R2 & Hs2).
  unfold op_unlock. rewrite R2. cbn [mbind outcome_bind]. exists f2, s2. split; [done|]. split; [done|].
  destruct (node_words r Hr) as (N1 & N2 & N3). split.
  - intros a Hda. rewrite (proj1 (Hd2 a Hda)). by apply Hd.
  - intros b Hb. by rewrite Ha2.
  - exists r. split; [done|]. split; [done|]. split; [done|]. intros a Hda. specialize (Hacc a Hda).
    rewrite (proj2 (Hd2 a Hda)). destruct (fm_mode f a) as [x|synced| |]; cbn in Hacc;
      [|exists synced; split; [reflexivity|intros ? ? [?| ->]; [contradiction|assumption]]|discriminate Hacc..].
    apply Z.eqb_eq in Hacc. subst x. cbn. rewrite Z.eqb_refl. eexists. split; [reflexivity|]. intros x Hx [E| <-]; [contradiction|]. apply Z.eqb_refl.
Qed.

(** An access of the holder. *)
Lemma access_refines f s m h a op f' vs v :
  lock_rel f (Some h) m -> sim c pl f s -> is_data a = true -> op_valid c (h, op) = true ->
  flat_op f (h, op) = Some (f', vs) ->
  (forall b, fm_byte f' b = if b =? a then v else fm_byte f b) ->
  (forall b, b ≠ a -> fm_mode f' b = fm_mode f b) -> may_access (fm_mode f' a) h = true ->
  exists s', run_op c pl s (h, op) = Ok (s', vs) /\ sim c pl f' s' /\ lock_rel f' (Some h) (fun b => if b =? a then v else m b).
Proof using Hc.
  intros [Hd Ha (w & Ew & Hw)] Hs Hda Hv E Eb Em Hacc. destruct (sim_op c pl Hc f s _ f' vs Hs Hv E) as (s' & R & Hs').
  exists s'. split; [done|]. split; [done|].
  assert (Hne : forall b, field <= b < field + 8 -> b ≠ a).
  { intros b Hb ->. pose proof (data_field a Hda) as F. by rewrite bool_decide_eq_true_2 in F. }
  split.
  - intros b Hb. rewrite Eb. case_match; [done|by apply Hd].
  - intros b Hb. rewrite Em by auto. by apply Ha.
  - exists w. split.
    + rewrite <- Ew. apply list_fmap_ext. intros i b Hb%list_elem_of_lookup_2%elem_of_seqZ. rewrite Eb.
      by rewrite (proj2 (Z.eqb_neq _ _) (Hne b Hb)).
    + destruct Hw as (H1 & H2 & H3). split_and!; [done|done|]. intros b Hb. destruct (decide (b = a)) as [->|Hba]; [done|].
      rewrite Em by done. by apply H3.
Qed.

Lemma is_node_spec r : is_node c r = true -> node c r.
Proof. unfold is_node, node. lia. Qed.

Lemma event_refines f s holder m e m' holder' vs :
  lock_rel f holder m -> sim c pl f s -> spec_event c field m holder e = Some (m', holder', vs) ->
  exists f' s', run_event c pl field s e = Ok (s', vs) /\ sim c pl f' s' /\ lock_rel f' holder' m'.
Proof using Hc Hfield.
  intros Hl Hs. destruct e as [r|r a|r a v|r]; cbn [spec_event run_event].
  - destruct (is_node c r) eqn:Hr; [|done]. apply is_node_spec in Hr.
    destruct (try_refines f s holder m r Hl Hs Hr) as (f' & s' & -> & Hs' & Hl'). cbn [mbind outcome_bind].
    destruct holder as [h|]; intros [= <- <- <-]; by exists f', s'.
  - destruct (bool_decide_reflect (holder = Some r)) as [->|]; [|done]. destruct (is_data a) eqn:Hda; [|done]. intros [= <- <- <-].
    destruct (lr_word _ _ _ Hl) as (w & _ & _ & Hr & Hacc). pose proof (Hacc a Hda) as Hmay.
    assert (Hv : op_valid c (r, op_load a access_undefined) = true).
    { unfold TasOnDsm.is_data in Hda. destruct Hr. cbn. rewrite !andb_true_iff in *. split_and!; [lia|lia|lia|lia|done]. }
    destruct (access_refines f s m r a (op_load a access_undefined) f [fm_byte f a] (fm_byte f a) Hl Hs Hda Hv) as (s' & E & Hs' & Hl').
    + cbn. by rewrite Hmay.
    + intros b. case_match eqn:Eb; [|done]. apply Z.eqb_eq in Eb. by subst b.
    + done.
    + done.
    + rewrite (lr_data _ _ _ Hl a Hda) in E, Hl'. exists f, s'. split; [done|]. split; [done|].
      split; [apply (lr_data _ _ _ Hl)|apply Hl'|apply Hl'].
  - destruct (bool_decide_reflect (holder = Some r)) as [->|]; [|done]. destruct (is_data a) eqn:Hda; [|done]. intros [= <- <- <-].
    destruct (lr_word _ _ _ Hl) as (w & _ & _ & Hr & Hacc). pose proof (Hacc a Hda) as Hmay.
    assert (Hv : op_valid c (r, op_store a v access_undefined) = true).
    { unfold TasOnDsm.is_data in Hda. destruct Hr. cbn. rewrite !andb_true_iff in *. split_and!; [lia|lia|lia|lia|done]. }
    set (f' := {| fm_byte := fun b => if b =? a then v else fm_byte f b; fm_mode := fun b => if b =? a then Owned r else fm_mode f b |}).
    destruct (access_refines f s m r a (op_store a v access_undefined) f' [] v Hl Hs Hda Hv) as (s' & E & Hs' & Hl').
    + cbn. by rewrite Hmay.
    + done.
    + intros b Hb. cbn. by rewrite (proj2 (Z.eqb_neq _ _) Hb).
    + cbn. rewrite Z.eqb_refl. cbn. apply Z.eqb_refl.
    + by exists f', s'.
  - destruct (bool_decide_reflect (holder = Some r)) as [->|]; [|done]. intros [= <- <- <-].
    destruct (unlock_refines f s m r Hl Hs) as (f' & s' & -> & Hs' & Hl'). by exists f', s'.
Qed.

Lemma events_refine es : forall f s holder m holder' vs,
  lock_rel f holder m -> sim c pl f s -> spec_events c field m holder es = Some (holder', vs) ->
  exists s', run_events c pl field s es = Ok (s', vs).
Proof using Hc Hfield.
  induction es as [|e es IH]; intros f s holder m holder' vs Hl Hs E; cbn [spec_events run_events] in *.
  { injection E as <- <-. by exists s. }
  destruct (spec_event c field m holder e) as [[[m1 h1] vs1]|] eqn:E1; [|done]. cbn in E.
  destruct (spec_events c field m1 h1 es) as [[h2 vs2]|] eqn:E2; [|done]. cbn in E. injection E as <- <-.
  destruct (event_refines f s holder m e m1 h1 vs1 Hl Hs E1) as (f' & s' & -> & Hs' & Hl').
  destruct (IH f' s' h1 m1 h2 vs2 Hl' Hs' E2) as (s'' & R). exists s''. cbn [mbind outcome_bind]. by rewrite R.
Qed.

End Refine.

(** C4: programs that synchronise with the global lock see one sequentially
    consistent memory and a correct lock.  Start from any accepted run that leaves
    the lock's field initialised and all nodes synchronised (such as one that ends
    in a barrier), and let the nodes try to take the lock, access data while they
    hold it, and release it, in any interleaving: everything returns, an attempt
    succeeds exactly when nobody holds the lock, and every load sees the last store
    before it, although [try_lock] skips the acquire when the same node had the lock
    last and although the data travels through page caches and write buffers. *)
Theorem tas_lock_on_dsm (c : dsm_config) (pl : placement) (field : Z) (setup : list (Z * dsm_op)) (f : flat) (vs : list Z)
    (es : list event) (holder : option Z) (ws : list Z) :
  cfg_ok c pl -> mpi_object c (startAddr c + field) 8 ->
  forallb (op_valid c) setup = true -> flat_ops flat_init setup = Some (f, vs) -> lock_ready c field f ->
  spec_events c field (fm_byte f) None es = Some (holder, ws) ->
  exists s s', run_ops c pl dsm_reset setup = Ok (s, vs) /\ run_events c pl field s es = Ok (s', ws).
Proof.
  intros Hc Hfield Hv Hf (Ew & Ha & Hd) Hes.
  destruct (sim_ops c pl Hc setup flat_init dsm_reset f vs) as (s & E & Hs); [by apply sim_init|done|done|].
  assert (Hl : lock_rel c field f None (fm_byte f)).
  { split; [reflexivity|assumption|]. exists Tas.init. split; [assumption|]. split; [by vm_compute|]. split; [by vm_compute|]. intros a Hda.
    destruct (Hd a Hda) as (synced & Em & Hsy). exists synced. auto. }
  destruct (events_refine c pl Hc field Hfield es f s None (fm_byte f) holder ws Hl Hs Hes) as (s' & E'). exists s, s'. auto.
Qed.

(** ** A small run *)

(** The constructor's [*lastuser = init], byte by byte. *)
Definition construct (r field : Z) : list (Z * dsm_op) :=
  imap (fun i b => (r, op_store (field + Z.of_nat i) b access_write)) (to_bytes 8 Tas.init).

(** Node 0 constructs the lock on node 1's memory and all nodes pass a barrier. *)
Definition demo_setup : list (Z * dsm_op) := construct 0 12288 ++ [(0, op_barrier upgrade_none)].
Definition constructed : flat :=
  match flat_ops flat_init (construct 0 12288) with Some (f, _) => f | None => flat_init end.
Definition demo_flat : flat := flat_modes constructed at_barrier.

(** Without atomic operations no byte becomes atomic. *)
Lemma flat_plain ops : forall f f' vs,
  forallb (fun o => match snd o with op_atomic _ _ _ _ _ => false | _ => true end) ops = true ->
  (forall b, fm_mode f b ≠ Atomic) -> flat_ops f ops = Some (f', vs) -> forall b, fm_mode f' b ≠ Atomic.
Proof.
  induction ops as [|[r op] ops IH]; intros f f' vs Hp Hf E b; cbn [forallb flat_ops snd] in *; [by injection E as <- _|].
  apply andb_true_iff in Hp as [Hp1 Hp2]. destruct (flat_op f (r, op)) as [[f1 vs1]|] eqn:E1; [|done]. cbn in E.
  destruct (flat_ops f1 ops) as [[f2 vs2]|] eqn:E2; [|done]. cbn in E. injection E as <- _.
  apply (IH f1 f2 vs2 Hp2); [|done]. clear - Hf E1 Hp1. intros b. specialize (Hf b). unfold flat_op in E1.
  destruct op as [a miss|a v miss| | | |u|a n sgn call order]; repeat (case_match; try done); injection E1 as <- _; try done;
    unfold flat_modes; cbn [fm_mode]; unfold acquired_by, published, at_barrier; by repeat case_match.
Qed.

Lemma demo_ready : lock_ready demo_dsm 12288 demo_flat.
Proof.
  assert (Hp : forall b, fm_mode constructed b ≠ Atomic) by (by apply (flat_plain (construct 0 12288) flat_init constructed [])).
  split; [by vm_compute|]. unfold demo_flat, flat_modes. cbn [fm_mode]. split.
  - intros b _. specialize (Hp b). by destruct (fm_mode constructed b).
  - intros a _. exists (fun _ => true). split; [|done]. specialize (Hp a). by destruct (fm_mode constructed a).
Qed.

Definition demo_events : list event :=
  [ev_try 0; ev_try 1; ev_store 0 8200 7; ev_store 0 100 8; ev_unlock 0;
   ev_try 1; ev_load 1 8200; ev_load 1 100; ev_store 1 100 9; ev_unlock 1;
   ev_try 1; ev_load 1 100; ev_store 1 8200 6; ev_unlock 1; ev_try 0; ev_load 0 8200; ev_load 0 100].

Lemma tas_lock_on_dsm_witness :
  exists s s', run_ops demo_dsm demo_pl dsm_reset demo_setup = Ok (s, []) /\
    run_events demo_dsm demo_pl 12288 s demo_events = Ok (s', [1; 0; 1; 7; 8; 1; 9; 1; 6; 9]).
Proof.
  apply (tas_lock_on_dsm demo_dsm demo_pl 12288 demo_setup demo_flat [] demo_events (Some 0)).
  - exact demo_cfg_ok.
  - split; [by right|]. vm_compute. intuition congruence.
  - reflexivity.
  - reflexivity.
  - exact demo_ready.
  - reflexivity.
Defined.

(** ** Constructing the lock without a barrier *)

(** The barrier after the construction matters.  Both nodes construct the lock,
    node 1 takes it, node 0 releases its cache for some other reason, which writes
    back its own [init] over the field, and node 0 takes the lock, too: both
    attempts succeed. *)
Theorem constructor_needs_barrier :
  ('(s, _) ← run_ops demo_dsm demo_pl dsm_reset (construct 0 12288 ++ construct 1 12288);
   '(s, b1) ← try_lock demo_dsm demo_pl 12288 s 1;
   s ← argo_release demo_dsm demo_pl s 0;
   '(s, b2) ← try_lock demo_dsm demo_pl 12288 s 0;
   Ok (b1, b2)) = Ok (true, true).
Proof. vm_compute. reflexivity. Qed.
