(* ===== verification/PoolOnDsm.v ===== *)
(** * The global memory pool on the DSM

    [src/src/mempools/global_mempool.hpp] with its offset and its lock where they really
    are, in the last page of the global memory, and [reserve] and [available] called by
    all nodes at the same time.  A call takes the global lock (one attempt is one
    step), reads the offset, writes the new one byte by byte through the page cache
    of its node, and releases the lock.  The theorem says that this is the pool of
    [Mempool]: the calls behave as if executed one after the other. *)

From stdpp Require Import functions relations.
From S2P Require Import Prelude BlockMap DataDistribution FirstTouch GlobalPtr Mem Swdsm SwdsmBase SwdsmInv SwdsmDir SwdsmOps SwdsmLoad SwdsmHandler SwdsmSync SwdsmBarrier Atomics SwdsmSpec SwdsmTheorems Locks TasOnDsm Mempool.

Inductive pool_call := Reserve (size : Z) | Available.

(** Where a node is in a call. *)
Inductive pool_pc :=
| Idle
| Locking (cl : pool_call)
| Reading (cl : pool_call) (bs : list Z)
| Writing (cl : pool_call) (result : outcome Z) (bs : list Z) (k : nat)
| Unlocking (cl : pool_call) (result : outcome Z).

Record pool_state := PoolState {
  po_dsm : dsm;
  po_pc : Z -> pool_pc;
  po_log : list (pool_call * outcome Z);   (** the calls that have returned *)
}.

(** A call of the sequential pool. *)
Definition pool_apply (s : chunk) (cl : pool_call) : outcome Z * chunk :=
  match cl with Reserve size => global_reserve s size | Available => (Ok (global_available s), s) end.

Fixpoint pool_applies (s : chunk) (l : list pool_call) : list (outcome Z) * chunk :=
  match l with
  | [] => ([], s)
  | cl :: l => let '(r, s) := pool_apply s cl in let '(rs, s) := pool_applies s l in (r :: rs, s)
  end.

Section Pool.

Context (c : dsm_config) (pl : placement).

(** [max_size], which is also where the offset is, and the field of the lock. *)
Definition pool_max : Z := sub64 (size_of_all c) reserved.
Definition offset_at : Z := pool_max.
Definition field_at : Z := pool_max + 8.

Definition set_node (st : pool_state) (r : Z) (s : dsm) (p : pool_pc) : pool_state :=
  {| po_dsm := s; po_pc := <[r := p]> (po_pc st); po_log := po_log st |}.

(** What a call does with the offset it has read. *)
Definition decide_call (cl : pool_call) (word : Z) : pool_pc :=
  match cl with
  | Reserve size =>
    if pool_max <? add64 word size then Unlocking cl (Throw bad_alloc)
    else Writing cl (Ok (startAddr c + s64 word)) (to_bytes 8 (add64 word size)) 0
  | Available => Unlocking cl (Ok (sub64 pool_max word))
  end.

Definition pool_step (st : pool_state) (r : Z) : outcome pool_state :=
  let s := po_dsm st in
  match po_pc st r with
  | Idle => Ok st
  | Locking cl =>
    '(s, b) ← try_lock c pl field_at s r;
    Ok (set_node st r s (if (b : bool) then Reading cl [] else Locking cl))
  | Reading cl bs =>
    if (length bs <? 8)%nat then
      '(s, v) ← run_op c pl s (r, op_load (offset_at + Z.of_nat (length bs)) access_undefined);
      Ok (set_node st r s (Reading cl (bs ++ v)))
    else Ok (set_node st r s (decide_call cl (of_bytes bs)))
  | Writing cl result bs k =>
    match bs !! k with
    | Some b =>
      '(s, _) ← run_op c pl s (r, op_store (offset_at + Z.of_nat k) b access_undefined);
      Ok (set_node st r s (Writing cl result bs (S k)))
    | None => Ok (set_node st r s (Unlocking cl result))
    end
  | Unlocking cl result =>
    s ← unlock c pl field_at s r;
    Ok {| po_dsm := s; po_pc := <[r := Idle]> (po_pc st); po_log := po_log st ++ [(cl, result)] |}
  end.

Inductive pool_event := Call (r : Z) (cl : pool_call) | Step (r : Z).

(** A node that is in a call makes no other. *)
Definition pool_exec (st : pool_state) (e : pool_event) : outcome pool_state :=
  match e with
  | Call r cl => Ok (match po_pc st r with Idle => set_node st r (po_dsm st) (Locking cl) | _ => st end)
  | Step r => pool_step st r
  end.

Fixpoint pool_run (st : pool_state) (es : list pool_event) : outcome pool_state :=
  match es with [] => Ok st | e :: es => st ← pool_exec st e; pool_run st es end.

Definition pool_start (s : dsm) : pool_state := {| po_dsm := s; po_pc := fun _ => Idle; po_log := [] |}.

Definition event_node (e : pool_event) : Z := match e with Call r _ => r | Step r => r end.

End Pool.

(** ** The refinement *)
Section Refine.

Context (c : dsm_config) (pl : placement) (Hc : cfg_ok c pl) (Hsize : reserved <= size_of_all c).

Abbreviation offset_at := (offset_at c).
Abbreviation field_at := (field_at c).
Abbreviation lock_rel := (lock_rel c field_at).

Definition in_call (p : pool_pc) : bool := match p with Idle | Locking _ => false | _ => true end.

Lemma pool_max_eq : pool_max c = size_of_all c - PAGE_SIZE /\ 0 <= pool_max c < 2 ^ 64 /\ (PAGE_SIZE | pool_max c).
Proof using Hc Hsize.
  pose proof (ck_size c pl Hc) as Hs. unfold pool_max, reserved in *. unfold PAGE_SIZE in *. rewrite sub64_small by lia. split_and!; [done|lia|lia|].
  destruct (ck_pages c pl Hc) as [k Hk]. exists (k - 1). unfold PAGE_SIZE in *. lia.
Qed.

Lemma field_object : mpi_object c (startAddr c + field_at) 8.
Proof using Hc Hsize.
  destruct pool_max_eq as (E & Hb & [k Hk]). unfold mpi_object, PoolOnDsm.field_at. rewrite Z.add_simpl_l.
  assert ((pool_max c + 8) mod PAGE_SIZE = 8) as ->.
  { rewrite Hk, Z.add_comm, Z.mod_add by done. done. }
  unfold PAGE_SIZE in *. split_and!; [by right|lia..].
Qed.

Lemma offset_data i : 0 <= i < 8 -> is_data c field_at (offset_at + i) = true.
Proof using Hc Hsize.
  intros Hi. destruct pool_max_eq as (E & Hb & _). unfold is_data, PoolOnDsm.offset_at, PoolOnDsm.field_at, PAGE_SIZE in *.
  rewrite bool_decide_eq_false_2 by lia. rewrite !andb_true_iff. split_and!; lia.
Qed.

Definition word_is (m : Z -> Z) (w : Z) : Prop := forall i b, to_bytes 8 w !! i = Some b -> m (offset_at + Z.of_nat i) = b.

(** What the holder of the lock has done so far. *)
Definition at_call (m : Z -> Z) (ck : chunk) (p : pool_pc) : Prop :=
  match p with
  | Idle | Locking _ => False
  | Reading cl bs => word_is m (u64 (offset ck)) /\ bs = take (length bs) (to_bytes 8 (u64 (offset ck)))
  | Writing cl result bs k => exists ck', pool_apply ck cl = (result, ck') /\ bs = to_bytes 8 (u64 (offset ck')) /\
      forall i b, (i < k)%nat -> bs !! i = Some b -> m (offset_at + Z.of_nat i) = b
  | Unlocking cl result => exists ck', pool_apply ck cl = (result, ck') /\ word_is m (u64 (offset ck'))
  end.

Definition fixed (ck : chunk) : Prop := memory ck = startAddr c /\ max_size ck = pool_max c /\ - 2 ^ 63 <= offset ck < 2 ^ 63.

Record pool_ok (ck0 : chunk) (st : pool_state) (f : flat) (m : Z -> Z) (holder : option Z) (ck : chunk) : Prop := {
  pok_sim : sim c pl f (po_dsm st);
  pok_lock : lock_rel f holder m;
  pok_log : pool_applies ck0 (po_log st).*1 = ((po_log st).*2, ck);
  pok_fixed : fixed ck;
  pok_out r : holder <> Some r -> in_call (po_pc st r) = false;
  pok_holder : match holder with Some h => at_call m ck (po_pc st h) | None => word_is m (u64 (offset ck)) end;
}.

Lemma u64_s64 x : u64 (s64 x) = u64 x.
Proof.
  unfold s64, u64. destruct (_ <? _); [by rewrite Z.mod_mod|].
  rewrite <- (Z.mod_add (x mod 2 ^ 64 - 2 ^ 64) 1) by done. replace (x mod 2 ^ 64 - 2 ^ 64 + 1 * 2 ^ 64) with (x mod 2 ^ 64) by ring. by rewrite Z.mod_mod.
Qed.

Lemma s64_range x : - 2 ^ 63 <= s64 x < 2 ^ 63.
Proof. unfold s64. pose proof (u64_range x). destruct (Z.ltb_spec (u64 x) (2 ^ 63)); lia. Qed.

Lemma s64_small x : - 2 ^ 63 <= x < 2 ^ 63 -> s64 x = x.
Proof.
  intros Hx. unfold s64, u64. destruct (Z.le_gt_cases 0 x) as [Hp|Hn].
  - rewrite Z.mod_small by lia. by rewrite (proj2 (Z.ltb_lt _ _)) by lia.
  - rewrite <- (Z.mod_add x 1), Z.mod_small by lia. rewrite (proj2 (Z.ltb_ge _ _)) by lia. lia.
Qed.

Lemma s64_u64 x : s64 (u64 x) = s64 x.
Proof. unfold s64. by rewrite u64_u64. Qed.

Lemma fixed_apply ck cl r ck' : fixed ck -> pool_apply ck cl = (r, ck') -> fixed ck'.
Proof.
  intros Hf. destruct cl as [size|]; cbn [pool_apply]; [|by intros [= _ <-]]. unfold global_reserve.
  destruct (_ <? _); intros [= _ <-]; [done|]. destruct Hf as (E1 & E2 & _). split_and!; [done|done|apply s64_range..].
Qed.

(** The pool's decision is the sequential pool's. *)
Lemma decide_at m ck cl : fixed ck -> word_is m (u64 (offset ck)) ->
  at_call m ck (decide_call c cl (of_bytes (to_bytes 8 (u64 (offset ck))))).
Proof.
  intros (E1 & E2 & Ho) Hw. assert (Ew : of_bytes (to_bytes 8 (u64 (offset ck))) = u64 (offset ck)).
  { rewrite of_to_bytes. change (256 ^ Z.of_nat 8) with (2 ^ 64). apply u64_u64. }
  rewrite Ew. destruct cl as [size|]; cbn [decide_call].
  - rewrite <- E2. destruct (max_size ck <? add64 (u64 (offset ck)) size) eqn:El; cbn [at_call].
    + exists ck. cbn [pool_apply]. unfold global_reserve. by rewrite El.
    + eexists. split; [cbn [pool_apply]; unfold global_reserve; rewrite El, <- E1, (s64_u64 (offset ck)), (s64_small (offset ck)) by done; reflexivity|].
      cbn [offset]. split; [|intros; lia]. rewrite u64_s64. unfold add64. by rewrite u64_u64.
  - exists ck. cbn [pool_apply]. unfold global_available. by rewrite E2.
Qed.

Lemma applies_snoc ck0 l rs ck cl r ck' : pool_applies ck0 l = (rs, ck) -> pool_apply ck cl = (r, ck') ->
  pool_applies ck0 (l ++ [cl]) = (rs ++ [r], ck').
Proof.
  revert ck0 rs. induction l as [|x l IH]; intros ck0 rs; simpl.
  - intros [= <- <-] ->. done.
  - destruct (pool_apply ck0 x) as [r1 ck1]. destruct (pool_applies ck1 l) as [rs1 ck2] eqn:E. intros [= <- <-] Ha. by rewrite (IH _ _ E Ha).
Qed.

(** A step of the holder that stays in the call. *)
Lemma holder_moves ck0 st f m h ck s' f' m' p : pool_ok ck0 st f m (Some h) ck -> sim c pl f' s' -> lock_rel f' (Some h) m' -> at_call m' ck p ->
  pool_ok ck0 (set_node st h s' p) f' m' (Some h) ck.
Proof.
  intros [P1 P2 P3 P4 P5 P6] Hs Hl Ha. split; try done; cbn [po_pc set_node].
  - intros r Hr. rewrite fn_lookup_insert_ne by congruence. by apply P5.
  - by rewrite fn_lookup_insert.
Qed.

Lemma load_byte ck0 st f m h ck i : pool_ok ck0 st f m (Some h) ck -> 0 <= i < 8 ->
  exists f' s', run_op c pl (po_dsm st) (h, op_load (offset_at + i) access_undefined) = Ok (s', [m (offset_at + i)]) /\ sim c pl f' s' /\ lock_rel f' (Some h) m.
Proof using Hc Hsize.
  intros [P1 P2 _ _ _ _] Hi. apply (event_refines c pl Hc field_at field_object f (po_dsm st) (Some h) m (ev_load h (offset_at + i)) m (Some h) _ P2 P1).
  cbn [spec_event]. by rewrite bool_decide_eq_true_2, offset_data by done.
Qed.

Lemma store_byte ck0 st f m h ck i v : pool_ok ck0 st f m (Some h) ck -> 0 <= i < 8 ->
  exists f' s', run_op c pl (po_dsm st) (h, op_store (offset_at + i) v access_undefined) = Ok (s', []) /\ sim c pl f' s' /\
    lock_rel f' (Some h) (fun b => if b =? offset_at + i then v else m b).
Proof using Hc Hsize.
  intros [P1 P2 _ _ _ _] Hi. apply (event_refines c pl Hc field_at field_object f (po_dsm st) (Some h) m (ev_store h (offset_at + i) v) _ (Some h) _ P2 P1).
  cbn [spec_event]. by rewrite bool_decide_eq_true_2, offset_data by done.
Qed.

Abbreviation good ck0 st := (exists f m holder ck, pool_ok ck0 st f m holder ck).

Lemma step_outside ck0 st f m holder ck r : pool_ok ck0 st f m holder ck -> node c r -> in_call (po_pc st r) = false ->
  exists st', pool_step c pl st r = Ok st' /\ good ck0 st'.
Proof using Hc Hsize.
  intros Hp Hr Hout. pose proof Hp as [P1 P2 P3 P4 P5 P6]. unfold pool_step. destruct (po_pc st r) as [|cl| | |] eqn:Ep; try done.
  { exists st. split; [done|]. by exists f, m, holder, ck. }
  destruct (try_refines c pl Hc field_at field_object f (po_dsm st) holder m r P2 P1 Hr) as (f' & s' & -> & Hs' & Hl').
  cbn [mbind outcome_bind]. eexists. split; [reflexivity|]. exists f', m, (match holder with None => Some r | h => h end), ck.
  assert (Hne : forall h, holder = Some h -> h <> r). { intros h -> ->. rewrite Ep in P6. done. }
  split; try done; cbn [po_pc set_node].
  - intros x Hx. destruct (decide (x = r)) as [->|Hxr]; [rewrite fn_lookup_insert; by destruct holder|].
    rewrite fn_lookup_insert_ne by done. apply P5. destruct holder; congruence.
  - destruct holder as [h|]; [rewrite fn_lookup_insert_ne by (apply not_eq_sym, Hne; done); done|]. rewrite fn_lookup_insert. by split.
Qed.

Lemma step_reading ck0 st f m r ck cl bs : pool_ok ck0 st f m (Some r) ck -> po_pc st r = Reading cl bs ->
  exists st', pool_step c pl st r = Ok st' /\ good ck0 st'.
Proof using Hc Hsize.
  intros Hp Ep. pose proof Hp as [P1 P2 P3 P4 P5 P6]. rewrite Ep in P6. destruct P6 as [Hw Hb]. unfold pool_step. rewrite Ep.
  set (ws := to_bytes 8 (u64 (offset ck))) in *. assert (Hlw : length ws = 8%nat) by apply length_to_bytes.
  destruct (Nat.ltb_spec (length bs) 8) as [Hl|Hl].
  - destruct (load_byte ck0 st f m r ck (Z.of_nat (length bs)) Hp ltac:(lia)) as (f' & s' & -> & Hs' & Hl'). cbn [mbind outcome_bind].
    eexists. split; [reflexivity|]. exists f', m, (Some r), ck. apply (holder_moves ck0 st f m); try done. split; [done|].
    destruct (lookup_lt_is_Some_2 ws (length bs)) as [b Eb]; [lia|]. rewrite (Hw _ _ Eb).
    fold ws. rewrite length_app. cbn [length]. rewrite Nat.add_1_r, (take_S_r ws _ b Eb). by rewrite <- Hb.
  - assert (bs = ws) as -> by (rewrite Hb; apply take_ge; lia).
    eexists. split; [reflexivity|]. exists f, m, (Some r), ck. apply (holder_moves ck0 st f m); try done. by apply decide_at.
Qed.

Lemma step_writing ck0 st f m r ck cl result bs k : pool_ok ck0 st f m (Some r) ck -> po_pc st r = Writing cl result bs k ->
  exists st', pool_step c pl st r = Ok st' /\ good ck0 st'.
Proof using Hc Hsize.
  intros Hp Ep. pose proof Hp as [P1 P2 P3 P4 P5 P6]. rewrite Ep in P6. destruct P6 as (ck' & Ea & -> & Hw). unfold pool_step. rewrite Ep.
  destruct (to_bytes 8 (u64 (offset ck')) !! k) as [b|] eqn:Eb.
  - pose proof (lookup_lt_Some _ _ _ Eb) as Hk. rewrite length_to_bytes in Hk.
    destruct (store_byte ck0 st f m r ck (Z.of_nat k) b Hp ltac:(lia)) as (f' & s' & -> & Hs' & Hl'). cbn [mbind outcome_bind].
    eexists. split; [reflexivity|]. eexists f', _, (Some r), ck. apply (holder_moves ck0 st f m); [done|done|exact Hl'|].
    exists ck'. split_and!; [done|done|]. intros i x Hi Ex. destruct (Z.eqb_spec (offset_at + Z.of_nat i) (offset_at + Z.of_nat k)) as [E|E].
    + assert (i = k) as -> by lia. congruence.
    + apply Hw; [|done]. assert (i <> k) by (intros ->; done). lia.
  - eexists. split; [reflexivity|]. exists f, m, (Some r), ck. apply (holder_moves ck0 st f m); try done. exists ck'. split; [done|].
    intros i b Ei. apply Hw; [|done]. apply lookup_ge_None in Eb. apply lookup_lt_Some in Ei. lia.
Qed.

Lemma step_unlocking ck0 st f m r ck cl result : pool_ok ck0 st f m (Some r) ck -> po_pc st r = Unlocking cl result ->
  exists st', pool_step c pl st r = Ok st' /\ good ck0 st'.
Proof using Hc Hsize.
  intros Hp Ep. pose proof Hp as [P1 P2 P3 P4 P5 P6]. rewrite Ep in P6. destruct P6 as (ck' & Ea & Hw). unfold pool_step. rewrite Ep.
  destruct (unlock_refines c pl Hc field_at field_object f (po_dsm st) m r P2 P1) as (f' & s' & -> & Hs' & Hl'). cbn [mbind outcome_bind].
  eexists. split; [reflexivity|]. exists f', m, None, ck'. split; try done; cbn [po_pc po_log].
  - rewrite !fmap_app. by apply (applies_snoc _ _ _ ck).
  - by apply (fixed_apply ck cl result).
  - intros x _. destruct (decide (x = r)) as [->|Hxr]; [by rewrite fn_lookup_insert|]. rewrite fn_lookup_insert_ne by done. apply P5. congruence.
Qed.

Lemma pool_step_ok ck0 st r : good ck0 st -> node c r -> exists st', pool_step c pl st r = Ok st' /\ good ck0 st'.
Proof using Hc Hsize.
  intros (f & m & holder & ck & Hp) Hr. destruct (in_call (po_pc st r)) eqn:Ei; [|by apply (step_outside ck0 st f m holder ck)].
  destruct (decide (holder = Some r)) as [->|Hne]; [|by rewrite (pok_out _ _ _ _ _ _ Hp r Hne) in Ei].
  destruct (po_pc st r) as [|cl|cl bs|cl result bs k|cl result] eqn:Ep; try done.
  - by apply (step_reading ck0 st f m r ck cl bs).
  - by apply (step_writing ck0 st f m r ck cl result bs k).
  - by apply (step_unlocking ck0 st f m r ck cl result).
Qed.

Lemma pool_exec_ok ck0 st e : good ck0 st -> node c (event_node e) -> exists st', pool_exec c pl st e = Ok st' /\ good ck0 st'.
Proof using Hc Hsize.
  intros Hg Hr. destruct e as [r cl|r]; cbn [pool_exec event_node] in *; [|by apply pool_step_ok]. eexists. split; [reflexivity|].
  destruct (po_pc st r) eqn:Ep; try done. destruct Hg as (f & m & holder & ck & [P1 P2 P3 P4 P5 P6]). exists f, m, holder, ck.
  split; try done; cbn [po_pc set_node].
  - intros x Hx. destruct (decide (x = r)) as [->|Hxr]; [by rewrite fn_lookup_insert|]. rewrite fn_lookup_insert_ne by done. by apply P5.
  - destruct holder as [h|]; [|done]. rewrite fn_lookup_insert_ne; [done|]. intros ->. by rewrite Ep in P6.
Qed.

Lemma pool_run_ok ck0 es : forall st, good ck0 st -> Forall (fun e => node c (event_node e)) es ->
  exists st', pool_run c pl st es = Ok st' /\ good ck0 st'.
Proof using Hc Hsize.
  induction es as [|e es IH]; intros st Hg Hf; cbn [pool_run]; [by exists st|]. apply Forall_cons in Hf as [He Hf].
  destruct (pool_exec_ok ck0 st e Hg He) as (st1 & -> & Hg1). cbn [mbind outcome_bind]. by apply IH.
Qed.

End Refine.

(** ** The sequential pool hands out memory front to back *)
Definition sane (cl : pool_call) : Prop := match cl with Reserve n => 0 <= n < 2 ^ 63 | Available => True end.

Record chunk_sane (s : chunk) : Prop := {
  cs_max : 0 <= max_size s < 2 ^ 62;
  cs_offset : 0 <= offset s <= max_size s;
}.

Lemma apply_sane s cl r s' : chunk_sane s -> sane cl -> pool_apply s cl = (r, s') ->
  chunk_sane s' /\ memory s' = memory s /\ max_size s' = max_size s /\ offset s <= offset s' /\
  forall n p, cl = Reserve n -> r = Ok p -> p = memory s + offset s /\ offset s' = offset s + n.
Proof.
  intros [H1 H2] Hc. destruct cl as [n|]; cbn [pool_apply sane] in *; [|intros [= <- <-]; by split_and!]. unfold global_reserve.
  rewrite (u64_small (offset s)), add64_small by lia. destruct (Z.ltb_spec (max_size s) (offset s + n)) as [Hl|Hl]; intros [= <- <-].
  - split_and!; try done; lia.
  - assert (E : s64 (offset s + n) = offset s + n) by (apply s64_small; lia). split_and!; try done; cbn [offset]; rewrite E.
    + split; cbn [max_size offset]; lia.
    + lia.
    + intros n' p [= <-] [= <-]. done.
Qed.

(** Entry [i] of a log is a successful reservation. *)
Definition reserved_at (l : list (pool_call * outcome Z)) (i : nat) (p n : Z) : Prop := l !! i = Some (Reserve n, Ok p).

Lemma applies_disjoint l : forall s rs s', chunk_sane s -> Forall sane l -> pool_applies s l = (rs, s') ->
  forall i p n, reserved_at (zip l rs) i p n -> memory s + offset s <= p /\ p + n <= memory s + max_size s /\
    forall j q k, reserved_at (zip l rs) j q k -> (i < j)%nat -> p + n <= q.
Proof.
  unfold reserved_at. induction l as [|cl l IH]; intros s rs s' Hs Hl E i p n Hi; simpl in *; [by injection E as <- <-|].
  apply Forall_cons in Hl as [Hcl Hl]. destruct (pool_apply s cl) as [r s1] eqn:E1.
  destruct (pool_applies s1 l) as [rs1 s2] eqn:E2. injection E as <- <-. simpl in Hi.
  destruct (apply_sane s cl r s1 Hs Hcl E1) as (Hs1 & Em & Ex & Ho & Hr). pose proof (IH s1 rs1 s2 Hs1 Hl E2) as IHs.
  destruct i as [|i]; simpl in Hi.
  - injection Hi as -> ->. destruct (Hr n p eq_refl eq_refl) as [-> Eo]. destruct Hs1 as [_ Hb]. split_and!; [lia|lia|].
    intros [|j] q k Hj Hlt; [lia|]. simpl in Hj. destruct (IHs j q k Hj) as (Hq & _). lia.
  - destruct (IHs i p n Hi) as (H1 & H2 & H3). split_and!; [lia|lia|]. intros [|j] q k Hj Hlt; [lia|]. apply (H3 j q k); [done|lia].
Qed.

Lemma zip_fsts_snds {A B} (l : list (A * B)) : zip l.*1 l.*2 = l.
Proof. induction l as [|[a b] l IH]; [done|]. cbn. f_equal. exact IH. Qed.

(** The pool from any state of the DSM in which its lock is free and its offset 0. *)
Lemma pool_from (c : dsm_config) (pl : placement) (f : flat) (s : dsm) (es : list pool_event) :
  cfg_ok c pl -> reserved <= size_of_all c -> sim c pl f s -> lock_ready c (field_at c) f ->
  (forall i, 0 <= i < 8 -> fm_byte f (offset_at c + i) = 0) -> Forall (fun e => node c (event_node e)) es ->
  exists st ck, pool_run c pl (pool_start s) es = Ok st /\
    pool_applies (global_memory_pool (startAddr c) (size_of_all c)) (po_log st).*1 = ((po_log st).*2, ck) /\
    (Forall sane (po_log st).*1 -> forall i p n, reserved_at (po_log st) i p n ->
       startAddr c <= p /\ p + n <= startAddr c + size_of_all c - reserved /\
       forall j q k, reserved_at (po_log st) j q k -> (i < j)%nat -> p + n <= q).
Proof.
  intros Hc Hsz Hs (Ew & Ha & Hd) Hz Hes.
  destruct (pool_max_eq c pl Hc Hsz) as (Emax & Hmax & _). pose proof (ck_size c pl Hc).
  set (ck0 := global_memory_pool (startAddr c) (size_of_all c)).
  assert (Hg : exists f m holder ck, pool_ok c pl ck0 (pool_start s) f m holder ck).
  { exists f, (fm_byte f), None, ck0. split; [exact Hs| |reflexivity|by split_and!|reflexivity|].
    - split; [reflexivity|assumption|]. exists Tas.init. split; [assumption|]. split; [by vm_compute|]. split; [by vm_compute|].
      intros a Hda. destruct (Hd a Hda) as (synced & Em & Hsy). exists synced. auto.
    - intros i b Hi. pose proof (lookup_lt_Some _ _ _ Hi) as Hl. rewrite length_to_bytes in Hl. rewrite Hz by lia.
      change (u64 (offset ck0)) with 0 in Hi. do 8 (destruct i as [|i]; [by injection Hi as <-|]). lia. }
  destruct (pool_run_ok c pl Hc Hsz ck0 es (pool_start s) Hg Hes) as (st & Er & f' & m' & h' & ck & [_ _ Hlog _ _ _]).
  exists st, ck. split; [exact Er|]. split; [exact Hlog|]. intros Hsane i p n Hi.
  assert (Hck : chunk_sane ck0) by (split; cbn; fold (pool_max c); unfold PAGE_SIZE in *; lia).
  destruct (applies_disjoint _ ck0 _ ck Hck Hsane Hlog i p n) as (H1 & H2 & H3); [by rewrite zip_fsts_snds|].
  rewrite zip_fsts_snds in H3. change (memory ck0) with (startAddr c) in H1, H2. change (offset ck0) with 0 in H1.
  change (max_size ck0) with (pool_max c) in H2. rewrite Emax in H2. unfold reserved, PAGE_SIZE in *. split_and!; [lia|lia|exact H3].
Qed.

(** The global memory pool, run by all nodes of the DSM, is linearisable.  Start from
    any accepted run that leaves the pool's lock initialised, its offset 0 and all
    nodes synchronised, and let the nodes call [reserve] and [available] and take
    their steps in any interleaving: every step returns, and the results of the calls
    that have returned are those of the sequential pool called in that order.  In
    particular successful reservations of sensible sizes are disjoint and inside the
    global memory below the reserved page. *)
Theorem global_pool_on_dsm (c : dsm_config) (pl : placement) (setup : list (Z * dsm_op)) (f : flat) (vs : list Z) (es : list pool_event) :
  cfg_ok c pl -> reserved <= size_of_all c ->
  forallb (op_valid c) setup = true -> flat_ops flat_init setup = Some (f, vs) -> lock_ready c (field_at c) f ->
  (forall i, 0 <= i < 8 -> fm_byte f (offset_at c + i) = 0) -> Forall (fun e => node c (event_node e)) es ->
  exists s st ck, run_ops c pl dsm_reset setup = Ok (s, vs) /\ pool_run c pl (pool_start s) es = Ok st /\
    pool_applies (global_memory_pool (startAddr c) (size_of_all c)) (po_log st).*1 = ((po_log st).*2, ck) /\
    (Forall sane (po_log st).*1 -> forall i p n, reserved_at (po_log st) i p n ->
       startAddr c <= p /\ p + n <= startAddr c + size_of_all c - reserved /\
       forall j q k, reserved_at (po_log st) j q k -> (i < j)%nat -> p + n <= q).
Proof.
  intros Hc Hsz Hv Hf Hl Hz Hes. destruct (sim_ops c pl Hc setup flat_init dsm_reset f vs) as (s & E & Hs); [by apply sim_init|done|done|].
  destruct (pool_from c pl f s es Hc Hsz Hs Hl Hz Hes) as (st & ck & H). exists s, st, ck. by split.
Qed.

(** Nodes 0 and 1 of a small system reserve at the same time; [setup] is the constructor
    on node 1 and a barrier. *)
Definition pool_setup : list (Z * dsm_op) :=
  construct 1 (field_at demo_dsm) ++ imap (fun i b => (1, op_store (offset_at demo_dsm + Z.of_nat i) b access_write)) (to_bytes 8 0) ++ [(0, op_barrier upgrade_none)].
Definition pool_events : list pool_event :=
  [Call 0 (Reserve 64); Call 1 (Reserve 100); Step 0; Step 1] ++ replicate 12 (Step 0) ++ [Step 1] ++ replicate 7 (Step 0) ++
  replicate 24 (Step 1) ++ [Call 0 Available] ++ replicate 12 (Step 0).
Definition pool_constructed : flat := match flat_ops flat_init (removelast pool_setup) with Some (f, _) => f | None => flat_init end.
Definition pool_flat : flat := flat_modes pool_constructed at_barrier.

Lemma pool_ready : lock_ready demo_dsm (field_at demo_dsm) pool_flat.
Proof.
  assert (Hp : forall b, fm_mode pool_constructed b ≠ Atomic).
  { apply (flat_plain (removelast pool_setup) flat_init pool_constructed []); [by vm_compute|done|reflexivity]. }
  split; [by vm_compute|]. unfold pool_flat, flat_modes. cbn [fm_mode]. split.
  - intros b _. specialize (Hp b). by destruct (fm_mode pool_constructed b).
  - intros a _. exists (fun _ => true). split; [|done]. specialize (Hp a). by destruct (fm_mode pool_constructed a).
Qed.

Lemma global_pool_on_dsm_witness : exists s st ck,
  run_ops demo_dsm demo_pl dsm_reset pool_setup = Ok (s, []) /\ pool_run demo_dsm demo_pl (pool_start s) pool_events = Ok st /\
  pool_applies (global_memory_pool 65536 (4 * PAGE_SIZE)) (po_log st).*1 = ((po_log st).*2, ck) /\
  (Forall sane (po_log st).*1 -> forall i p n, reserved_at (po_log st) i p n ->
     65536 <= p /\ p + n <= 65536 + 4 * PAGE_SIZE - reserved /\
     forall j q k, reserved_at (po_log st) j q k -> (i < j)%nat -> p + n <= q).
Proof.
  apply (global_pool_on_dsm demo_dsm demo_pl pool_setup pool_flat [] pool_events); [exact demo_cfg_ok|by vm_compute|reflexivity|reflexivity|exact pool_ready| |].
  - intros i Hi. assert (i = 0 \/ i = 1 \/ i = 2 \/ i = 3 \/ i = 4 \/ i = 5 \/ i = 6 \/ i = 7) as Hi' by lia.
    repeat (destruct Hi' as [-> | Hi']; [by vm_compute|]). subst i. by vm_compute.
  - apply Forall_forall. intros e He. assert (event_node e = 0 \/ event_node e = 1) as [-> | ->]; [|split; vm_compute; congruence..].
    assert (Hall : forallb (fun e => (event_node e =? 0) || (event_node e =? 1)) pool_events = true) by (by vm_compute).
    rewrite forallb_forall in Hall. specialize (Hall e (proj1 (list_elem_of_In _ _) He)). lia.
Defined.

(** What that run returns. *)
Example pool_run_results :
  ('(s, _) ← run_ops demo_dsm demo_pl dsm_reset pool_setup; st ← pool_run demo_dsm demo_pl (pool_start s) pool_events; Ok (po_log st))
  = Ok [(Reserve 64, Ok 65536); (Reserve 100, Ok 65600); (Available, Ok 12124)].
Proof. vm_compute. reflexivity. Qed.

(** The check of [reserve] adds without looking at overflow: a size close to 2^64 takes
    the offset back, and memory that is in use is handed out again. *)
Example reserve_wraps :
  fst (pool_applies (global_memory_pool 65536 (4 * PAGE_SIZE)) [Reserve 64; Reserve (2 ^ 64 - 64); Reserve 64]) = [Ok 65536; Ok 65600; Ok 65536].
Proof. vm_compute. reflexivity. Qed.
