(* ===== verification/NodeBarrier.v ===== *)
(** * The barrier of the single-node backend

    [barrier] of [src/src/backend/singlenode/singlenode.cpp]: the threads of the
    node meet under a mutex and a condition variable.  What a thread does between
    two waits is one step, since it holds the mutex; a thread whose condition does
    not hold falls asleep and moves again only after a [notify_all] or a spurious
    wake-up. *)

From stdpp Require Import functions relations.
From S2P Require Import Prelude Locks.

(** Outside, or in the first, second or third [wait] of the function. *)
Inductive pc := Out | Wait1 | Wait2 | Wait3.
#[export] Instance pc_eq_dec : EqDecision pc.
Proof. solve_decision. Defined.

(** [entered] and [left] count the thread's calls and returns. *)
Record thread := Thread { at_pc : pc; awake : bool; entered : nat; left : nat }.

Record state := State {
  barrier_counter : Z;
  barrier_flag : bool;
  threads : nat -> thread;
}.

Definition set_thread (s : state) (t : nat) (x : thread) : state :=
  {| barrier_counter := barrier_counter s; barrier_flag := barrier_flag s; threads := <[t := x]> (threads s) |}.
Definition set_counter (s : state) (k : Z) : state :=
  {| barrier_counter := k; barrier_flag := barrier_flag s; threads := threads s |}.
(** An assignment of the flag and [notify_all]. *)
Definition set_flag_notify (s : state) (b : bool) : state :=
  {| barrier_counter := barrier_counter s; barrier_flag := b;
     threads := fun t => let x := threads s t in {| at_pc := at_pc x; awake := true; entered := entered x; left := left x |} |}.

Definition sleep (s : state) (t : nat) (p : pc) : state :=
  let x := threads s t in set_thread s t {| at_pc := p; awake := false; entered := entered x; left := left x |}.

(** ** The code, from each wait to the next *)
Definition wait3 (s : state) (t : nat) : state :=
  if barrier_flag s then sleep s t Wait3
  else let x := threads s t in set_thread s t {| at_pc := Out; awake := true; entered := entered x; left := S (left x) |}.

Definition wait2 (s : state) (t : nat) : state :=
  if barrier_flag s then
    let s := set_counter s (sub64 (barrier_counter s) 1) in
    let s := if barrier_counter s =? 0 then set_flag_notify s false else s in
    wait3 s t
  else sleep s t Wait2.

Definition wait1 (s : state) (t : nat) : state :=
  if barrier_flag s then sleep s t Wait1 else wait2 (set_flag_notify s true) t.

Definition barrier (threadcount : Z) (s : state) (t : nat) : state :=
  let x := threads s t in
  let s := set_thread s t {| at_pc := at_pc x; awake := awake x; entered := S (entered x); left := left x |} in
  let s := set_counter s (add64 (barrier_counter s) 1) in
  if barrier_counter s =? threadcount then wait1 s t else wait2 s t.

(** A thread that woke up checks its condition. *)
Definition wake (s : state) (t : nat) : state :=
  match at_pc (threads s t) with
  | Out => s
  | Wait1 => wait1 s t
  | Wait2 => wait2 s t
  | Wait3 => wait3 s t
  end.

Definition initial : state :=
  {| barrier_counter := 0; barrier_flag := false;
     threads := fun _ => {| at_pc := Out; awake := true; entered := 0; left := 0 |} |}.

Section Barrier.

(** The same [n] threads call [barrier(n)] again and again. *)
Context (n : nat) (Hn : 0 < Z.of_nat n < 2 ^ 64).

Inductive step : state -> state -> Prop :=
  | step_enter s t : (t < n)%nat -> at_pc (threads s t) = Out -> step s (barrier (Z.of_nat n) s t)
  | step_wake s t : (t < n)%nat -> at_pc (threads s t) <> Out -> awake (threads s t) = true -> step s (wake s t)
  | step_spurious s t : (t < n)%nat -> at_pc (threads s t) <> Out -> awake (threads s t) = false ->
      step s (let x := threads s t in set_thread s t {| at_pc := at_pc x; awake := true; entered := entered x; left := left x |}).

Definition reachable (s : state) : Prop := rtc step initial s.

(** ** The invariant *)

(** How many threads are at [p]. *)
Definition at_count (p : pc) (f : nat -> thread) : nat := count_upto (fun t => bool_decide (at_pc (f t) = p)) n.

(** While the flag is set every thread is inside, in round [R]; those in the second
    wait are awake.  While it is not, the threads of round [R] gather in the second
    wait and those in the third, of the round before, are awake. *)
Definition in_round (flag : bool) (R : nat) (x : thread) : Prop :=
  if flag then
    (at_pc x = Wait2 /\ awake x = true \/ at_pc x = Wait3) /\ entered x = S R /\ left x = R
  else
    match at_pc x with
    | Out => entered x = R /\ left x = R
    | Wait1 => False
    | Wait2 => entered x = S R /\ left x = R
    | Wait3 => awake x = true /\ entered x = R /\ S (left x) = R
    end.

Record invariant (R : nat) (s : state) : Prop := {
  inv_counter : barrier_counter s = Z.of_nat (at_count Wait2 (threads s));
  inv_busy : if barrier_flag s then (0 < at_count Wait2 (threads s))%nat else (at_count Wait2 (threads s) < n)%nat;
  inv_round t : (t < n)%nat -> in_round (barrier_flag s) R (threads s t);
}.

(** ** Steps *)
Lemma count_set p s t x : (t < n)%nat ->
  (at_count p (threads (set_thread s t x)) + (if bool_decide (at_pc (threads s t) = p) then 1 else 0)
   = at_count p (threads s) + (if bool_decide (at_pc x = p) then 1 else 0))%nat.
Proof using.
  intros Ht. unfold at_count. pose proof (count_change (fun u => bool_decide (at_pc (threads (set_thread s t x) u) = p))
    (fun u => bool_decide (at_pc (threads s u) = p)) t n Ht) as E. simpl in E. rewrite fn_insert_eq, decide_True in E by done.
  apply E. intros u Hu. simpl. by rewrite fn_insert_eq, decide_False.
Qed.

Lemma count_notify p s b : at_count p (threads (set_flag_notify s b)) = at_count p (threads s).
Proof using. done. Qed.

Lemma count_at_most p s : (at_count p (threads s) <= n)%nat.
Proof using. apply count_le. Qed.

(** A thread that finds its condition false. *)
Lemma sleep_invariant R s t p : invariant R s -> (t < n)%nat -> at_pc (threads s t) = p ->
  (p = Wait2 /\ barrier_flag s = false \/ p = Wait3 /\ barrier_flag s = true) -> invariant R (sleep s t p).
Proof using.
  intros [C B D] Ht Ep Hp. pose proof (count_set Wait2 s t {| at_pc := p; awake := false; entered := entered (threads s t); left := left (threads s t) |} Ht) as Ec.
  rewrite Ep in Ec. cbn [at_pc] in Ec.
  assert (Ec' : at_count Wait2 (threads (sleep s t p)) = at_count Wait2 (threads s)) by (unfold sleep; lia).
  split; [by rewrite Ec'|change (barrier_flag (sleep s t p)) with (barrier_flag s); by rewrite Ec'|].
  intros u Hu. specialize (D u Hu). simpl. rewrite fn_insert_eq. destruct (decide (t = u)) as [->|]; [|done].
  unfold in_round in *. rewrite Ep in D. cbn [at_pc awake entered left]. destruct Hp as [[-> E]|[-> E]]; rewrite E in *; [done|].
  split; [by right|apply D].
Qed.

(** The second wait of a thread whose barrier is complete. *)
Lemma pass_invariant R s t : invariant R s -> barrier_flag s = true -> (t < n)%nat -> at_pc (threads s t) = Wait2 ->
  exists R', invariant R' (wait2 s t).
Proof using Hn.
  intros [C B D] Ef Ht Ep. rewrite Ef in B. unfold wait2. rewrite Ef.
  assert (Ec : barrier_counter (set_counter s (sub64 (barrier_counter s) 1)) = Z.of_nat (at_count Wait2 (threads s) - 1)).
  { simpl. pose proof (count_at_most Wait2 s). rewrite C. rewrite sub64_small by lia. lia. }
  pose proof (D t Ht) as Dt. rewrite Ef in Dt. destruct Dt as (_ & E1 & E2). set (s1 := set_counter s _) in *.
  destruct (Z.eqb_spec (barrier_counter s1) 0) as [E0|E0].
  - (* the last thread to leave *)
    exists (S R). set (s2 := set_flag_notify s1 false). unfold wait3. cbn [barrier_flag s2 set_flag_notify].
    pose proof (count_set Wait2 s2 t {| at_pc := Out; awake := true; entered := entered (threads s2 t); left := S (left (threads s2 t)) |} Ht) as Es.
    cbn [at_pc] in Es. change (at_pc (threads s2 t)) with (at_pc (threads s t)) in Es. rewrite Ep in Es.
    change (at_count Wait2 (threads s2)) with (at_count Wait2 (threads s)) in Es. rewrite bool_decide_eq_true_2, bool_decide_eq_false_2 in Es by done.
    assert (Hothers : forall u, (u < n)%nat -> u <> t -> at_pc (threads s u) = Wait3).
    { intros u Hu Hne. pose proof (D u Hu) as Du. rewrite Ef in Du. destruct Du as ([[Eu _]|Eu] & _); [exfalso|done].
      assert (Hz : at_count Wait2 (threads (set_thread s2 t {| at_pc := Out; awake := true; entered := entered (threads s2 t); left := S (left (threads s2 t)) |})) = 0%nat) by lia.
      pose proof (count_none _ _ Hz u Hu) as F. simpl in F. rewrite fn_insert_eq, decide_False in F by done. simpl in F.
      by rewrite Eu in F. }
    set (s3 := set_thread s2 t _) in *. split; [transitivity (barrier_counter s1); [reflexivity|rewrite Ec; lia]| |].
    { change (barrier_flag s3) with false. cbn iota. lia. }
    intros u Hu. change (barrier_flag s3) with false. unfold s3. cbn [threads set_thread]. rewrite fn_insert_eq.
    destruct (decide (t = u)) as [<-|Hne].
    + unfold in_round. cbn [at_pc entered left s2 set_flag_notify threads s1 set_counter]. by rewrite E1, E2.
    + pose proof (D u Hu) as Du. rewrite Ef in Du. destruct Du as (_ & F1 & F2). unfold in_round. cbn [threads s2 set_flag_notify at_pc awake entered left s1 set_counter].
      rewrite (Hothers u Hu) by done. by rewrite F1, F2.
  - exists R. unfold wait3. change (barrier_flag s1) with (barrier_flag s). rewrite Ef.
    pose proof (count_set Wait2 s1 t {| at_pc := Wait3; awake := false; entered := entered (threads s1 t); left := left (threads s1 t) |} Ht) as Es.
    cbn [at_pc] in Es. change (at_pc (threads s1 t)) with (at_pc (threads s t)) in Es. rewrite Ep in Es.
    change (at_count Wait2 (threads s1)) with (at_count Wait2 (threads s)) in Es. rewrite bool_decide_eq_true_2, bool_decide_eq_false_2 in Es by done.
    fold (sleep s1 t Wait3) in Es. split.
    + change (barrier_counter (sleep s1 t Wait3)) with (barrier_counter s1). rewrite Ec. lia.
    + change (barrier_flag (sleep s1 t Wait3)) with (barrier_flag s). rewrite Ef. lia.
    + intros u Hu. change (barrier_flag (sleep s1 t Wait3)) with (barrier_flag s). rewrite Ef. simpl. rewrite fn_insert_eq.
      destruct (decide (t = u)) as [<-|Hne]; [unfold in_round; simpl; auto|]. specialize (D u Hu). by rewrite Ef in D.
Qed.

(** States that differ in nothing the invariant sees. *)
Record alike (s s' : state) : Prop := {
  ak_counter : barrier_counter s' = barrier_counter s;
  ak_flag : barrier_flag s' = barrier_flag s;
  ak_threads u : threads s' u = threads s u;
}.

Lemma alike_invariant R s s' : alike s s' -> invariant R s -> invariant R s'.
Proof using.
  intros [A1 A2 A3] [C B D].
  assert (E : at_count Wait2 (threads s') = at_count Wait2 (threads s)) by (apply count_ext; intros; by rewrite A3).
  split; [by rewrite A1, E|by rewrite A2, E|]. intros t Ht. rewrite A2, A3. by apply D.
Qed.

(** What a thread does from its second wait on does not depend on its [at_pc]. *)
Lemma wait2_alike s s' t : barrier_counter s' = barrier_counter s -> barrier_flag s' = barrier_flag s ->
  (forall u, u <> t -> threads s' u = threads s u) -> entered (threads s' t) = entered (threads s t) ->
  left (threads s' t) = left (threads s t) -> alike (wait2 s t) (wait2 s' t).
Proof using.
  intros E1 E2 E3 E4 E5.
  assert (Hset : forall a b x y u, x = y -> (forall u, u <> t -> threads b u = threads a u) ->
            threads (set_thread b t x) u = threads (set_thread a t y) u).
  { intros a b x y u -> H. simpl. rewrite !fn_insert_eq. destruct (decide (t = u)); [done|auto]. }
  unfold wait2. rewrite E2. destruct (barrier_flag s) eqn:Ef.
  - cbn [set_counter barrier_counter]. rewrite E1. destruct (_ =? 0); unfold wait3; cbn [barrier_flag set_flag_notify set_counter];
      rewrite ?E2, ?Ef.
    + split; [done|done|]. intros u. apply Hset; [cbn; by rewrite E4, E5|]. intros v Hv. cbn. by rewrite E3.
    + split; [done|simpl; by rewrite E2, Ef|]. intros u. apply Hset; [cbn; by rewrite E4, E5|done].
  - split; [done|simpl; by rewrite E2, Ef|]. intros u. apply Hset; [cbn; by rewrite E4, E5|done].
Qed.

(** A thread that arrives. *)
Lemma enter_invariant R s t : invariant R s -> (t < n)%nat -> at_pc (threads s t) = Out ->
  exists R', invariant R' (barrier (Z.of_nat n) s t).
Proof using Hn.
  intros [C B D] Ht Ep. pose proof (D t Ht) as Dt. unfold in_round in Dt. rewrite Ep in Dt.
  destruct (barrier_flag s) eqn:Ef; [by destruct Dt as ([[??]|?] & _)|]. destruct Dt as [E1 E2].
  unfold barrier. set (x := {| at_pc := at_pc (threads s t); awake := awake (threads s t); entered := S (entered (threads s t)); left := left (threads s t) |}).
  set (s1 := set_counter _ _).
  assert (Ec : barrier_counter s1 = Z.of_nat (S (at_count Wait2 (threads s)))).
  { unfold s1. cbn [set_counter barrier_counter set_thread]. rewrite C, add64_small by lia. lia. }
  (* the threads once this one is in its second wait *)
  set (s2 := set_thread s1 t {| at_pc := Wait2; awake := true; entered := S R; left := R |}).
  assert (Es : at_count Wait2 (threads s2) = S (at_count Wait2 (threads s))).
  { pose proof (count_set Wait2 s t {| at_pc := Wait2; awake := true; entered := S R; left := R |} Ht) as E. rewrite Ep in E.
    cbn [at_pc] in E. rewrite bool_decide_eq_false_2, bool_decide_eq_true_2 in E by done.
    transitivity (at_count Wait2 (threads (set_thread s t {| at_pc := Wait2; awake := true; entered := S R; left := R |}))); [|lia].
    apply count_ext. intros u _. simpl. rewrite !fn_insert_eq. by destruct (decide (t = u)). }
  assert (Hs2 : forall u, (u < n)%nat -> in_round false R (threads s2 u)).
  { intros u Hu. unfold s2, s1. simpl. rewrite !fn_insert_eq. destruct (decide (t = u)); [done|by apply D]. }
  rewrite Ec. destruct (Z.eqb_spec (Z.of_nat (S (at_count Wait2 (threads s)))) (Z.of_nat n)) as [En|En].
  - (* the last to arrive: everybody is now in the second wait *)
    unfold wait1. change (barrier_flag s1) with (barrier_flag s). rewrite Ef.
    set (s3 := set_flag_notify s2 true).
    assert (Hs3 : invariant R s3).
    { split; [change (barrier_counter s1 = Z.of_nat (at_count Wait2 (threads s2))); by rewrite Ec, Es| |].
      - change (0 < at_count Wait2 (threads s2))%nat. lia.
      - intros u Hu. assert (Hf : at_count Wait2 (threads s2) = n) by lia. pose proof (count_full _ _ Hf u Hu) as F.
        cbv beta in F. apply bool_decide_eq_true in F. pose proof (Hs2 u Hu) as G. unfold in_round in G. rewrite F in G.
        unfold in_round. change (barrier_flag s3) with true. cbn [s3 set_flag_notify threads at_pc awake entered left]. auto. }
    destruct (pass_invariant R s3 t Hs3) as [R' HR']; [done|done|unfold s3, s2; simpl; by rewrite fn_insert_eq, decide_True|].
    exists R'. apply (alike_invariant R' (wait2 s3 t)); [|done]. apply wait2_alike; [done|done|..].
    + intros u Hu. unfold s3, s2. simpl. by rewrite !fn_insert_eq, !decide_False.
    + unfold s3, s2, s1. simpl. rewrite !fn_insert_eq, !decide_True by done. simpl. by rewrite E1.
    + unfold s3, s2, s1. simpl. by rewrite !fn_insert_eq, !decide_True.
  - exists R. assert (Hs2i : invariant R s2).
    { split; [by rewrite Es|change (barrier_flag s2) with (barrier_flag s); rewrite Ef; cbn iota|].
      - pose proof (count_at_most Wait2 s2). lia.
      - intros u Hu. change (barrier_flag s2) with (barrier_flag s). rewrite Ef. by apply Hs2. }
    apply (alike_invariant R (wait2 s2 t)).
    + apply wait2_alike; [done|done|..].
      * intros u Hu. unfold s2. simpl. by rewrite !fn_insert_eq, !decide_False.
      * unfold s2, s1. simpl. rewrite !fn_insert_eq, !decide_True by done. simpl. by rewrite E1.
      * unfold s2, s1. simpl. by rewrite !fn_insert_eq, !decide_True.
    + unfold wait2. change (barrier_flag s2) with (barrier_flag s). rewrite Ef.
      apply sleep_invariant; [done|done|unfold s2; simpl; by rewrite fn_insert_eq, decide_True|by left].
Qed.

(** A thread that leaves. *)
Lemma leave_invariant R s t : invariant R s -> barrier_flag s = false -> (t < n)%nat -> at_pc (threads s t) = Wait3 ->
  invariant R (wait3 s t) /\ S (at_count Wait3 (threads (wait3 s t))) = at_count Wait3 (threads s).
Proof using.
  intros [C B D] Ef Ht Ep. pose proof (D t Ht) as Dt. unfold in_round in Dt. rewrite Ef, Ep in Dt. destruct Dt as (_ & E1 & E2).
  unfold wait3. rewrite Ef. set (x := {| at_pc := Out; awake := true; entered := entered (threads s t); left := S (left (threads s t)) |}).
  pose proof (count_set Wait2 s t x Ht) as Es2. pose proof (count_set Wait3 s t x Ht) as Es3. rewrite Ep in Es2, Es3. cbn [at_pc x] in Es2, Es3.
  rewrite bool_decide_eq_false_2, bool_decide_eq_false_2 in Es2 by done. rewrite bool_decide_eq_true_2, bool_decide_eq_false_2 in Es3 by done.
  fold x. split; [|lia].
  assert (E : at_count Wait2 (threads (set_thread s t x)) = at_count Wait2 (threads s)) by lia.
  split; [by rewrite E|change (barrier_flag (set_thread s t x)) with (barrier_flag s); by rewrite E|].
  intros u Hu. simpl. rewrite fn_insert_eq, Ef. destruct (decide (t = u)) as [<-|]; [by split|]. specialize (D u Hu). by rewrite Ef in D.
Qed.

Lemma barrier_step_invariant R s s' : invariant R s -> step s s' -> exists R', invariant R' s'.
Proof using Hn.
  intros Hi Hs. destruct Hs as [s t Ht Ep|s t Ht Ep Ea|s t Ht Ep Ea].
  - by apply (enter_invariant R).
  - unfold wake. pose proof (inv_round _ _ Hi t Ht) as Dt. unfold in_round in Dt. destruct (at_pc (threads s t)) eqn:E; [done|..].
    + exfalso. destruct (barrier_flag s); [by destruct Dt as ([[??]|?] & _)|done].
    + destruct (barrier_flag s) eqn:Ef; [by apply (pass_invariant R)|]. exists R. unfold wait2. rewrite Ef. apply sleep_invariant; auto.
    + exists R. destruct (barrier_flag s) eqn:Ef; [|by apply leave_invariant]. unfold wait3. rewrite Ef. apply sleep_invariant; auto.
  - exists R. set (x := {| at_pc := at_pc (threads s t); awake := true; entered := entered (threads s t); left := left (threads s t) |}).
    cbv zeta. fold x. destruct Hi as [C B D]. pose proof (count_set Wait2 s t x Ht) as Es. cbn [at_pc x] in Es.
    assert (E : at_count Wait2 (threads (set_thread s t x)) = at_count Wait2 (threads s)) by (case_bool_decide; lia).
    split; [by rewrite E|change (barrier_flag (set_thread s t x)) with (barrier_flag s); by rewrite E|].
    intros u Hu. specialize (D u Hu). simpl. rewrite fn_insert_eq. destruct (decide (t = u)) as [<-|]; [|done].
    unfold in_round in *. cbn [x at_pc awake entered left]. destruct (barrier_flag s); [|destruct (at_pc (threads s t)); tauto].
    destruct D as ([[H _]|H] & HD); tauto.
Qed.

Lemma initial_invariant : invariant 0 initial.
Proof using Hn.
  assert (E : at_count Wait2 (threads initial) = 0%nat).
  { unfold at_count. simpl. clear. induction n as [|k IH]; simpl; [done|]. by rewrite IH. }
  split; [by rewrite E|change (barrier_flag initial) with false; cbn iota; rewrite E; lia|done].
Qed.

Lemma barrier_reachable s : reachable s -> exists R, invariant R s.
Proof using Hn.
  intros H. assert (G : exists R, invariant R initial) by (exists 0%nat; apply initial_invariant). unfold reachable in H. revert G.
  induction H as [|s s1 s2 Hs _ IH]; [done|]. intros [R Hi]. apply IH. by apply (barrier_step_invariant R s).
Qed.

(** ** Progress *)
Inductive wakes : state -> state -> Prop :=
  | wakes_up s t : (t < n)%nat -> at_pc (threads s t) <> Out -> awake (threads s t) = true -> wakes s (wake s t).

Definition todo (s : state) : nat := ((if barrier_flag s then 2 * at_count Wait2 (threads s) else 0) + at_count Wait3 (threads s))%nat.

Lemma pass_todo s t : barrier_flag s = true -> (t < n)%nat -> at_pc (threads s t) = Wait2 -> (0 < at_count Wait2 (threads s))%nat ->
  (todo (wait2 s t) < todo s)%nat.
Proof using.
  intros Ef Ht Ep Hpos. unfold wait2. rewrite Ef. set (s1 := set_counter s _). unfold todo at 2. rewrite Ef.
  destruct (barrier_counter s1 =? 0); unfold wait3.
  - set (s2 := set_flag_notify s1 false). cbn [barrier_flag set_flag_notify s2].
    set (x := {| at_pc := Out; awake := true; entered := entered (threads s2 t); left := S (left (threads s2 t)) |}).
    pose proof (count_set Wait3 s2 t x Ht) as Es. change (at_pc (threads s2 t)) with (at_pc (threads s t)) in Es. rewrite Ep in Es.
    rewrite !bool_decide_eq_false_2 in Es by done. change (at_count Wait3 (threads s2)) with (at_count Wait3 (threads s)) in Es.
    change (todo (set_thread s2 t x)) with (0 + at_count Wait3 (threads (set_thread s2 t x)))%nat. lia.
  - change (barrier_flag s1) with (barrier_flag s). rewrite Ef. unfold sleep.
    set (x := {| at_pc := Wait3; awake := false; entered := entered (threads s1 t); left := left (threads s1 t) |}).
    pose proof (count_set Wait2 s1 t x Ht) as Es2. pose proof (count_set Wait3 s1 t x Ht) as Es3.
    change (at_pc (threads s1 t)) with (at_pc (threads s t)) in Es2, Es3. rewrite Ep in Es2, Es3.
    rewrite bool_decide_eq_true_2, bool_decide_eq_false_2 in Es2 by done. rewrite bool_decide_eq_false_2, bool_decide_eq_true_2 in Es3 by done.
    change (at_count Wait2 (threads s1)) with (at_count Wait2 (threads s)) in Es2.
    change (at_count Wait3 (threads s1)) with (at_count Wait3 (threads s)) in Es3.
    unfold todo. change (barrier_flag (set_thread s1 t x)) with (barrier_flag s). rewrite Ef. lia.
Qed.

(** Something is left to do and can be done. *)
Lemma progress R s : invariant R s -> (0 < todo s)%nat ->
  exists s' R', wakes s s' /\ invariant R' s' /\ (todo s' < todo s)%nat.
Proof using Hn.
  intros Hi Hpos. pose proof Hi as [C B D]. destruct (barrier_flag s) eqn:Ef.
  - destruct (count_some _ _ B) as (t & Ht & Ep). apply bool_decide_eq_true in Ep. pose proof (D t Ht) as Dt. unfold in_round in Dt.
    destruct Dt as ([[_ Ea]|E] & _); [|congruence]. destruct (pass_invariant R s t Hi Ef Ht Ep) as [R' Hi'].
    exists (wait2 s t), R'. split_and!; [|done|by apply pass_todo].
    replace (wait2 s t) with (wake s t) by (unfold wake; by rewrite Ep). constructor; [done|by rewrite Ep|done].
  - assert (Hw3 : (0 < at_count Wait3 (threads s))%nat) by (unfold todo in Hpos; rewrite Ef in Hpos; lia).
    destruct (count_some _ _ Hw3) as (t & Ht & Ep). apply bool_decide_eq_true in Ep. pose proof (D t Ht) as Dt. unfold in_round in Dt.
    rewrite Ep in Dt. destruct Dt as (Ea & _). destruct (leave_invariant R s t Hi Ef Ht Ep) as [Hi' Ec].
    exists (wait3 s t), R. split_and!; [|done|].
    + replace (wait3 s t) with (wake s t) by (unfold wake; by rewrite Ep). constructor; [done|by rewrite Ep|done].
    + unfold todo, wait3 in *. rewrite Ef in *. cbn [barrier_flag set_thread]. rewrite Ef. lia.
Qed.

Lemma run_down k : forall R s, invariant R s -> (todo s <= k)%nat -> exists s' R', rtc wakes s s' /\ invariant R' s' /\ todo s' = 0%nat.
Proof using Hn.
  induction k as [|k IH]; intros R s Hi Hk; [exists s, R; split_and!; [apply rtc_refl|done|lia]|].
  destruct (decide (todo s = 0%nat)) as [E|E]; [exists s, R; split_and!; [apply rtc_refl|done|done]|].
  destruct (progress R s Hi ltac:(lia)) as (s1 & R1 & Hw & Hi1 & Hlt). destruct (IH R1 s1 Hi1 ltac:(lia)) as (s2 & R2 & Hr & Hi2 & E2).
  exists s2, R2. split_and!; [by apply (rtc_l _ _ s1)|done|done].
Qed.

End Barrier.

(** C34: the single-node barrier separates its rounds.  When [n] threads use
    [barrier(n)] over and over, in every interleaving and with spurious wake-ups,
    no thread returns from its [k]-th call before every thread has made its
    [k]-th call. *)
Theorem barrier_separates_rounds (n : nat) (s : state) (t u : nat) :
  0 < Z.of_nat n < 2 ^ 64 -> reachable n s -> (t < n)%nat -> (u < n)%nat ->
  (left (threads s t) <= entered (threads s u))%nat.
Proof.
  intros Hn Hr Ht Hu. destruct (barrier_reachable n Hn s Hr) as [R [_ _ D]]. pose proof (D t Ht) as Dt. pose proof (D u Hu) as Du.
  unfold in_round in *. destruct (barrier_flag s); [lia|]. destruct (at_pc (threads s t)), (at_pc (threads s u)); lia || done.
Qed.

(** C36: the single-node barrier loses no wake-up.  From every reachable state the
    threads that are awake can, without any spurious wake-up and without a new
    arrival, bring the barrier into a state in which every thread has left it or
    waits for a thread that has not arrived; so once all have arrived, all can
    leave. *)
Theorem barrier_never_stuck (n : nat) (s : state) :
  0 < Z.of_nat n < 2 ^ 64 -> reachable n s ->
  exists s', rtc (wakes n) s s' /\
    (exists t, (t < n)%nat /\ at_pc (threads s' t) = Out) /\
    forall u, (u < n)%nat -> at_pc (threads s' u) = Out \/ at_pc (threads s' u) = Wait2.
Proof.
  intros Hn Hr. destruct (barrier_reachable n Hn s Hr) as [R Hi].
  destruct (run_down n Hn (todo n s) R s Hi (le_n _)) as (s' & R' & Hw & [C B D] & E). exists s'. split; [done|].
  unfold todo in E. assert (E3 : at_count n Wait3 (threads s') = 0%nat) by lia.
  destruct (barrier_flag s') eqn:Ef; [lia|].
  assert (Hall : forall u, (u < n)%nat -> at_pc (threads s' u) = Out \/ at_pc (threads s' u) = Wait2).
  { intros u Hu. pose proof (count_none _ _ E3 u Hu) as F. apply bool_decide_eq_false in F. specialize (D u Hu). unfold in_round in D.
    destruct (at_pc (threads s' u)); auto; done. }
  split; [|done]. destruct (count_missing _ _ B) as (t & Ht & F). apply bool_decide_eq_false in F.
  exists t. split; [done|]. by destruct (Hall t Ht).
Qed.

(** Two threads: both arrive, the second completes the barrier. *)
Definition two_threads : state := barrier 2 (barrier 2 initial 0) 1.

Lemma two_reachable : reachable 2 two_threads.
Proof.
  apply (rtc_l _ _ (barrier 2 initial 0)); [by apply (step_enter 2 initial 0); [lia|]|].
  apply rtc_once. by apply (step_enter 2 (barrier 2 initial 0) 1); [lia|].
Qed.

Lemma barrier_separates_rounds_witness : (left (threads two_threads 1) <= entered (threads two_threads 0))%nat.
Proof. apply (barrier_separates_rounds 2 two_threads 1 0); [lia|exact two_reachable|lia|lia]. Defined.

Lemma barrier_never_stuck_witness :
  exists s', rtc (wakes 2) two_threads s' /\
    (exists t, (t < 2)%nat /\ at_pc (threads s' t) = Out) /\
    forall u, (u < 2)%nat -> at_pc (threads s' u) = Out \/ at_pc (threads s' u) = Wait2.
Proof. apply (barrier_never_stuck 2 two_threads); [lia|exact two_reachable]. Defined.
