(* ===== verification/CohortLock.v ===== *)
(** * The cohort lock

    [src/src/synchronization/cohort_lock.hpp]: a lock of three levels, the MCS lock
    of the thread's NUMA node, the ticket lock of its ArgoDSM node, and the global
    test-and-set lock, that hands over as locally as it can.  Every access to a
    shared word is one step, and all threads of all nodes interleave.  The local
    lock is used through the interface [LocalLock], which the MCS lock implements.
    [numa_node] returns 0, as in the code, so that a node has one local lock. *)

From stdpp Require Import functions relations.
From S2P Require Import Prelude Locks McsLock.

(** ** What the cohort lock needs of its local lock *)

(** The accesses of a thread to a lock of state [M]: the one that lets it in, the
    first one of [unlock], and all others. *)
Class LocalLock (M : Type) := {
  ll_init : M;
  ll_other : nat -> M -> M -> Prop;
  ll_grant : nat -> M -> M -> Prop;
  ll_unlock : nat -> M -> M -> Prop;
  ll_contended : M -> nat -> bool;
}.

Class LocalLockLaws (M : Type) `{LocalLock M} (ok : M -> Prop) (inside : M -> nat -> Prop) : Prop := {
  lk_init : ok ll_init /\ forall t, ~ inside ll_init t;
  lk_other t m m' : ok m -> ll_other t m m' -> ok m' /\ forall u, inside m' u <-> inside m u;
  lk_grant t m m' : ok m -> ll_grant t m m' -> ok m' /\ (forall u, ~ inside m u) /\ forall u, inside m' u <-> u = t;
  lk_unlock t m m' : ok m -> inside m t -> ll_unlock t m m' -> ok m' /\ forall u, ~ inside m' u;
}.

(** ** State *)
Definition MAX_HANDOVER : Z := 8192.
Definition MAX_HANDOVER_NODELOCK : Z := 128.
Definition NO_OWNER : Z := -1.
Definition numa_node : Z := 0.

(** The fields of the lock object on one ArgoDSM node; [in_counter] and
    [out_counter] are those of [node_lock].  [served] counts the critical sections
    since the node last took the global lock. *)
Record node_state (M : Type) := NodeState {
  local_lock : M;
  handovers : Z;
  nodelockowner : Z;
  has_global_lock : bool;
  numahandover : Z;
  in_counter : Z;
  out_counter : Z;
  served : Z;
}.
Arguments NodeState {M}.
Arguments local_lock {M}.
Arguments handovers {M}.
Arguments nodelockowner {M}.
Arguments has_global_lock {M}.
Arguments numahandover {M}.
Arguments in_counter {M}.
Arguments out_counter {M}.
Arguments served {M}.

(** Where a thread is.  [Idle]: outside or inside [local_lock[node].lock()] or
    [unlock()]; [Got]: holds the local lock; [Taking], [Ticketed], [Holding]: taking
    the node lock; [Owner]: has set [nodelockowner]; [Global], [GlobalGot]: taking
    the global lock; [Critical]; then the steps of [unlock]. *)
Inductive cpc :=
  | Idle | Got | Taking | Ticketed (ticket : Z) | Holding | Owner | Global | GlobalGot | Critical
  | HandLocal | Release | CheckNode | GlobalUnlock | NodeUnlock | Unlocking.

#[export] Instance cpc_eq_dec : EqDecision cpc.
Proof. solve_decision. Defined.

Section Cohort.

Context {M : Type} `{LocalLock M} (nd : nat -> nat).

Record cstate := CState { nodes : nat -> node_state M; lastuser : Z; cpcs : nat -> cpc }.

Definition update (s : cstate) (t : nat) (x : node_state M) (word : Z) (p : cpc) : cstate :=
  {| nodes := <[nd t := x]> (nodes s); lastuser := word; cpcs := <[t := p]> (cpcs s) |}.
Definition set_local (x : node_state M) (m : M) : node_state M :=
  {| local_lock := m; handovers := handovers x; nodelockowner := nodelockowner x; has_global_lock := has_global_lock x;
     numahandover := numahandover x; in_counter := in_counter x; out_counter := out_counter x; served := served x |}.
Definition set_handovers (x : node_state M) (k : Z) : node_state M :=
  {| local_lock := local_lock x; handovers := k; nodelockowner := nodelockowner x; has_global_lock := has_global_lock x;
     numahandover := numahandover x; in_counter := in_counter x; out_counter := out_counter x; served := served x |}.
Definition set_owner (x : node_state M) (k : Z) : node_state M :=
  {| local_lock := local_lock x; handovers := handovers x; nodelockowner := k; has_global_lock := has_global_lock x;
     numahandover := numahandover x; in_counter := in_counter x; out_counter := out_counter x; served := served x |}.
Definition set_global (x : node_state M) (b : bool) (k : Z) : node_state M :=
  {| local_lock := local_lock x; handovers := handovers x; nodelockowner := nodelockowner x; has_global_lock := b;
     numahandover := k; in_counter := in_counter x; out_counter := out_counter x; served := served x |}.
Definition set_counters (x : node_state M) (i o : Z) : node_state M :=
  {| local_lock := local_lock x; handovers := handovers x; nodelockowner := nodelockowner x; has_global_lock := has_global_lock x;
     numahandover := numahandover x; in_counter := i; out_counter := o; served := served x |}.
Definition set_served (x : node_state M) (k : Z) : node_state M :=
  {| local_lock := local_lock x; handovers := handovers x; nodelockowner := nodelockowner x; has_global_lock := has_global_lock x;
     numahandover := numahandover x; in_counter := in_counter x; out_counter := out_counter x; served := k |}.
(** Entering the critical section. *)
Definition enter (x : node_state M) : node_state M := set_served x (served x + 1).

(** [ticket_lock::is_contended].  When the counters wrap around between the two the
    subtraction overflows ([Ticket.is_contended] has this as an error); here it is
    evaluated in 32-bit two's complement, as compiled code does, so that the lock goes
    on. *)
Definition node_contended (x : node_state M) : bool := 1 <? Ticket.s32 (in_counter x - out_counter x).

(** ** One access of thread [t], by where it is *)
Definition advance (s : cstate) (t : nat) : cstate :=
  let x := nodes s (nd t) in
  let word := lastuser s in
  match cpcs s t with
  (* lock *)
  | Got =>
    if nodelockowner x =? numa_node then update s t (enter x) word Critical else update s t x word Taking
  | Taking =>
    update s t (set_counters x (Ticket.s32 (in_counter x + 1)) (out_counter x)) word (Ticketed (in_counter x))
  | Ticketed k => if out_counter x =? k then update s t x word Holding else s
  | Holding => update s t (set_owner x numa_node) word Owner
  | Owner => if has_global_lock x then update s t (enter x) word Critical else update s t x word Global
  | Global =>
    if word =? Tas.locked then update s t x Tas.locked Global else update s t x Tas.locked GlobalGot
  | GlobalGot => update s t (enter (set_global x true (numahandover x))) word Critical
  (* unlock *)
  | Critical =>
    if ll_contended (local_lock x) t && (handovers x <? MAX_HANDOVER)
    then update s t x word HandLocal else update s t x word Release
  | HandLocal => update s t (set_handovers x (handovers x + 1)) word Unlocking
  | Release => update s t (set_owner (set_handovers x 0) NO_OWNER) word CheckNode
  | CheckNode =>
    if node_contended x && (numahandover x <? MAX_HANDOVER_NODELOCK)
    then update s t (set_global x (has_global_lock x) (numahandover x + 1)) word NodeUnlock
    else update s t (set_global x false 0) word GlobalUnlock
  | GlobalUnlock => update s t (set_served x 0) (Z.of_nat (nd t)) NodeUnlock
  | NodeUnlock => update s t (set_counters x (in_counter x) (Ticket.s32 (out_counter x + 1))) word Unlocking
  | Idle | Unlocking => s
  end.

Inductive step : cstate -> cstate -> Prop :=
  | step_other s t m : cpcs s t = Idle -> ll_other t (local_lock (nodes s (nd t))) m ->
      step s (update s t (set_local (nodes s (nd t)) m) (lastuser s) Idle)
  | step_grant s t m : cpcs s t = Idle -> ll_grant t (local_lock (nodes s (nd t))) m ->
      step s (update s t (set_local (nodes s (nd t)) m) (lastuser s) Got)
  | step_advance s t : step s (advance s t)
  | step_unlock s t m : cpcs s t = Unlocking -> ll_unlock t (local_lock (nodes s (nd t))) m ->
      step s (update s t (set_local (nodes s (nd t)) m) (lastuser s) Idle).

Definition cohort_lock : cstate := {|
  nodes := fun _ => {| local_lock := ll_init; handovers := 0; nodelockowner := NO_OWNER; has_global_lock := false;
                       numahandover := 0; in_counter := 0; out_counter := 0; served := 0 |};
  lastuser := Tas.init;
  cpcs := fun _ => Idle |}.

Definition reachable (s : cstate) : Prop := rtc step cohort_lock s.

(** ** The invariant *)
Context (ok : M -> Prop) (inside : M -> nat -> Prop) `{!LocalLockLaws M ok inside}
  (Hnd : forall t, Z.of_nat (nd t) < 2 ^ 32).

Definition free (x : node_state M) : Prop := in_counter x = out_counter x.
Definition held (x : node_state M) : Prop := in_counter x = Ticket.s32 (out_counter x + 1).

(** The fields of a node whose local lock is held by a thread at [p] ([Idle]: by
    nobody); [global] tells whether the node holds the global lock. *)
Definition fits (p : cpc) (global : bool) (x : node_state M) : Prop :=
  numahandover x = 0 /\ - 2 ^ 31 <= out_counter x < 2 ^ 31 /\ 0 <= handovers x <= MAX_HANDOVER /\
  match p with
  | Idle | Got | Unlocking =>
    (nodelockowner x = 0 /\ has_global_lock x = true /\ global = true /\ held x /\ served x = handovers x) \/
    (nodelockowner x = NO_OWNER /\ has_global_lock x = false /\ global = false /\ free x /\ handovers x = 0 /\ served x = 0)
  | Taking =>
    nodelockowner x = NO_OWNER /\ has_global_lock x = false /\ global = false /\ free x /\ handovers x = 0 /\ served x = 0
  | Ticketed k =>
    nodelockowner x = NO_OWNER /\ has_global_lock x = false /\ global = false /\ held x /\ handovers x = 0 /\ served x = 0 /\
    k = out_counter x
  | Holding =>
    nodelockowner x = NO_OWNER /\ has_global_lock x = false /\ global = false /\ held x /\ handovers x = 0 /\ served x = 0
  | Owner | Global =>
    nodelockowner x = 0 /\ has_global_lock x = false /\ global = false /\ held x /\ handovers x = 0 /\ served x = 0
  | GlobalGot =>
    nodelockowner x = 0 /\ has_global_lock x = false /\ global = true /\ held x /\ handovers x = 0 /\ served x = 0
  | Critical | Release =>
    nodelockowner x = 0 /\ has_global_lock x = true /\ global = true /\ held x /\ served x = handovers x + 1
  | HandLocal =>
    nodelockowner x = 0 /\ has_global_lock x = true /\ global = true /\ held x /\ served x = handovers x + 1 /\
    handovers x < MAX_HANDOVER
  | CheckNode =>
    nodelockowner x = NO_OWNER /\ has_global_lock x = true /\ global = true /\ held x /\ handovers x = 0 /\
    0 < served x <= MAX_HANDOVER + 1
  | GlobalUnlock =>
    nodelockowner x = NO_OWNER /\ has_global_lock x = false /\ global = true /\ held x /\ handovers x = 0 /\
    0 < served x <= MAX_HANDOVER + 1
  | NodeUnlock =>
    nodelockowner x = NO_OWNER /\ has_global_lock x = false /\ global = false /\ held x /\ handovers x = 0 /\ served x = 0
  end.

(** The pc of the holder of the local lock of a node. *)
Definition holder_pc (s : cstate) (w : option nat) : cpc := match w with Some t => cpcs s t | None => Idle end.

(** [who k] holds the local lock of node [k], [G] is the node with the global lock. *)
Record invariant (s : cstate) (who : nat -> option nat) (G : option nat) : Prop := {
  ci_ok k : ok (local_lock (nodes s k));
  ci_inside k u : inside (local_lock (nodes s k)) u <-> who k = Some u;
  ci_pc t : cpcs s t <> Idle <-> who (nd t) = Some t;
  ci_who k t : who k = Some t -> nd t = k;
  ci_fits k : fits (holder_pc s (who k)) (bool_decide (G = Some k)) (nodes s k);
  ci_word : lastuser s = Tas.locked <-> G <> None;
}.

(** An access of the holder of a local lock. *)
Lemma holder_step s who G t x word p G' :
  invariant s who G -> who (nd t) = Some t -> p <> Idle -> local_lock x = local_lock (nodes s (nd t)) ->
  fits p (bool_decide (G' = Some (nd t))) x -> (forall k, k <> nd t -> G' = Some k <-> G = Some k) ->
  (word = Tas.locked <-> G' <> None) -> invariant (update s t x word p) who G'.
Proof using.
  intros [I1 I2 I3 I4 I5 I6] Hw Hp El Hf HG Hword. split; simpl.
  - intros k. rewrite fn_insert_eq. destruct (decide (nd t = k)); [rewrite El|]; apply I1.
  - intros k u. rewrite fn_insert_eq. destruct (decide (nd t = k)) as [<-|]; [rewrite El|]; apply I2.
  - intros u. rewrite fn_insert_eq. destruct (decide (t = u)) as [<-|]; [done|apply I3].
  - done.
  - intros k. rewrite fn_insert_eq. destruct (decide (nd t = k)) as [<-|Ek].
    + rewrite Hw. cbn [holder_pc cpcs update]. by rewrite fn_insert_eq, decide_True.
    + specialize (I5 k). rewrite (bool_decide_ext _ _ (HG k (not_eq_sym Ek))).
      destruct (who k) as [u|] eqn:Eu; [|done]. cbn [holder_pc cpcs update] in *. rewrite fn_insert_eq, decide_False; [done|].
      intros ->. by apply Ek, I4.
  - done.
Qed.

Lemma node_word_free t : Z.of_nat (nd t) <> Tas.locked.
Proof using Hnd. specialize (Hnd t). unfold Tas.locked. lia. Qed.

Lemma s32_range x : - 2 ^ 31 <= Ticket.s32 x < 2 ^ 31.
Proof. unfold Ticket.s32. pose proof (Z.mod_pos_bound (x + 2 ^ 31) (2 ^ 32) ltac:(lia)). lia. Qed.

(** The node lock is never contended: only the holder of the local lock takes it. *)
Lemma held_not_contended x : held x -> - 2 ^ 31 <= out_counter x < 2 ^ 31 -> node_contended x = false.
Proof.
  unfold held, node_contended. intros -> Ho. assert (E : Ticket.s32 (Ticket.s32 (out_counter x + 1) - out_counter x) = 1); [|by rewrite E].
  destruct (decide (out_counter x = 2 ^ 31 - 1)) as [->|Hne]; [done|].
  assert (E : Ticket.s32 (out_counter x + 1) = out_counter x + 1) by (unfold Ticket.s32; rewrite Z.mod_small by lia; lia).
  rewrite E. replace (out_counter x + 1 - out_counter x) with 1 by ring. done.
Qed.

(** ** Every step preserves it *)
Ltac fields := unfold fits, held, free in *; split_and!; solve [done|simpl; first [done|lia|congruence|apply s32_range]].

Lemma advance_invariant s who G t : invariant s who G -> exists G', invariant (advance s t) who G'.
Proof using Hnd.
  intros Hi. destruct (decide (cpcs s t = Idle)) as [E0|E0]; [exists G; unfold advance; by rewrite E0|].
  pose proof (proj1 (ci_pc _ _ _ Hi t) E0) as Hw. pose proof (ci_fits _ _ _ Hi (nd t)) as Hf. rewrite Hw in Hf. cbn [holder_pc] in Hf.
  pose proof (ci_word _ _ _ Hi) as Hword. set (x := nodes s (nd t)) in *.
  (* accesses that do not touch the global lock *)
  assert (Hkeep : forall p y, p <> Idle -> local_lock y = local_lock x -> fits p (bool_decide (G = Some (nd t))) y ->
            exists G', invariant (update s t y (lastuser s) p) who G').
  { intros p y Hp El Hy. exists G. by apply (holder_step s who G t y (lastuser s) p G). }
  destruct Hf as (F1 & F2 & F3 & Hf). unfold advance. fold x. destruct (cpcs s t) as [| | |k| | | | | | | | | | |] eqn:Ep; try done.
  - (* Got *) destruct Hf as [(A1 & A2 & A3 & A4 & A5)|(A1 & A2 & A3 & A4 & A5 & A6)]; rewrite A1; cbn [Z.eqb numa_node NO_OWNER].
    + apply Hkeep; [done|done|]. fields.
    + by apply Hkeep.
  - (* Taking *) destruct Hf as (A1 & A2 & A3 & A4 & A5 & A6). apply Hkeep; [done|done|]. fields.
  - (* Ticketed *) destruct Hf as (A1 & A2 & A3 & A4 & A5 & A6 & ->). rewrite Z.eqb_refl. by apply Hkeep.
  - (* Holding *) destruct Hf as (A1 & A2 & A3 & A4 & A5 & A6). by apply Hkeep.
  - (* Owner *) destruct Hf as (A1 & A2 & A3 & A4 & A5 & A6). rewrite A2. by apply Hkeep.
  - (* Global *) destruct Hf as (A1 & A2 & A3 & A4 & A5 & A6). destruct (Z.eqb_spec (lastuser s) Tas.locked) as [El|El].
    + rewrite <- El. by apply Hkeep.
    + assert (G = None) as -> by (destruct G; [exfalso; by apply El, Hword|done]). exists (Some (nd t)).
      apply (holder_step s who None t x Tas.locked GlobalGot (Some (nd t))); [done|done|done|done| | |done].
      * rewrite bool_decide_eq_true_2 by done. fields.
      * intros k Hk. split; [by intros [= <-]|done].
  - (* GlobalGot *) destruct Hf as (A1 & A2 & A3 & A4 & A5 & A6). apply Hkeep; [done|done|]. fields.
  - (* Critical *) destruct Hf as (A1 & A2 & A3 & A4 & A5). destruct (ll_contended _ _ && _) eqn:Ec; [|by apply Hkeep].
    apply andb_true_iff in Ec as [_ Ec%Z.ltb_lt]. by apply Hkeep.
  - (* HandLocal *) destruct Hf as (A1 & A2 & A3 & A4 & A5 & A6). apply Hkeep; [done|done|].
    split; [done|]. split; [done|]. split; [simpl; lia|]. left. fields.
  - (* Release *) destruct Hf as (A1 & A2 & A3 & A4 & A5). apply Hkeep; [done|done|]. fields.
  - (* CheckNode *) destruct Hf as (A1 & A2 & A3 & A4 & A5 & A6). rewrite held_not_contended by done. cbn [andb]. by apply Hkeep.
  - (* GlobalUnlock *) destruct Hf as (A1 & A2 & A3 & A4 & A5 & A6). apply bool_decide_eq_true in A3. subst G.
    exists None. apply (holder_step s who (Some (nd t)) t _ _ NodeUnlock None); [done|done|done|done| | |].
    + fields.
    + intros k Hk. split; [done|]. by intros [= <-].
    + split; [intros E; by apply node_word_free in E|done].
  - (* NodeUnlock *) destruct Hf as (A1 & A2 & A3 & A4 & A5 & A6). apply Hkeep; [done|done|].
    split; [done|]. split; [simpl; apply s32_range|]. split; [done|]. right. fields.
  - (* Unlocking *) by exists G.
Qed.

Lemma cohort_step_invariant s s' who G : invariant s who G -> step s s' -> exists who' G', invariant s' who' G'.
Proof using All.
  intros Hi Hs. destruct Hs as [s t m Ep Hm|s t m Ep Hm|s t|s t m Ep Hm].
  - (* another access to the local lock *)
    exists who, G. destruct Hi as [I1 I2 I3 I4 I5 I6]. destruct (lk_other t _ m (I1 (nd t)) Hm) as [Hok Hin]. split; simpl.
    + intros k. rewrite fn_insert_eq. by destruct (decide (nd t = k)).
    + intros k u. rewrite fn_insert_eq. destruct (decide (nd t = k)) as [<-|]; [|apply I2]. simpl. by rewrite Hin.
    + intros u. rewrite fn_insert_eq. destruct (decide (t = u)) as [<-|]; [by rewrite <- I3, Ep|apply I3].
    + done.
    + intros k. specialize (I5 k). rewrite fn_insert_eq.
      assert (E : holder_pc (update s t (set_local (nodes s (nd t)) m) (lastuser s) Idle) (who k) = holder_pc s (who k)).
      { destruct (who k) as [u|] eqn:Eu; [|done]. simpl. rewrite fn_insert_eq. destruct (decide (t = u)) as [<-|]; [by rewrite Ep|done]. }
      rewrite E. destruct (decide (nd t = k)) as [<-|]; done.
    + done.
  - (* the local lock is granted *)
    destruct Hi as [I1 I2 I3 I4 I5 I6]. destruct (lk_grant t _ m (I1 (nd t)) Hm) as (Hok & Hno & Hin).
    assert (Hnone : who (nd t) = None) by (destruct (who (nd t)) as [u|] eqn:E; [exfalso; apply (Hno u); by apply I2|done]).
    exists (<[nd t := Some t]> who), G. split; simpl.
    + intros k. rewrite fn_insert_eq. by destruct (decide (nd t = k)).
    + intros k u. rewrite !fn_insert_eq. destruct (decide (nd t = k)) as [<-|]; [|apply I2]. simpl. rewrite Hin. split; congruence.
    + intros u. rewrite !fn_insert_eq. destruct (decide (t = u)) as [<-|Hne]; [by rewrite decide_True|].
      destruct (decide (nd t = nd u)) as [E|E]; [|apply I3]. rewrite I3, <- E, Hnone. split; congruence.
    + intros k u. rewrite fn_insert_eq. destruct (decide (nd t = k)) as [<-|]; [by intros [= <-]|apply I4].
    + intros k. specialize (I5 k). rewrite !fn_insert_eq. destruct (decide (nd t = k)) as [<-|Hne].
      * rewrite Hnone in I5. cbn [holder_pc cpcs update]. by rewrite fn_insert_eq, decide_True.
      * destruct (who k) as [u|] eqn:Eu; [|done]. simpl in *. rewrite fn_insert_eq, decide_False; [done|].
        intros <-. by apply Hne, I4.
    + done.
  - destruct (advance_invariant s who G t Hi) as [G' Hi']. by exists who, G'.
  - (* the local lock is released *)
    destruct Hi as [I1 I2 I3 I4 I5 I6]. assert (Hw : who (nd t) = Some t) by (apply I3; by rewrite Ep).
    destruct (lk_unlock t _ m (I1 (nd t)) (proj2 (I2 _ _) Hw) Hm) as (Hok & Hno). exists (<[nd t := None]> who), G. split; simpl.
    + intros k. rewrite fn_insert_eq. by destruct (decide (nd t = k)).
    + intros k u. rewrite !fn_insert_eq. destruct (decide (nd t = k)) as [<-|]; [|apply I2]. simpl. split; [|done]. intros F. by apply Hno in F.
    + intros u. rewrite !fn_insert_eq. destruct (decide (t = u)) as [<-|Hne]; [by rewrite decide_True|].
      destruct (decide (nd t = nd u)) as [E|E]; [|apply I3]. rewrite I3, <- E, Hw. split; congruence.
    + intros k u. rewrite fn_insert_eq. destruct (decide (nd t = k)) as [<-|]; [done|apply I4].
    + intros k. specialize (I5 k). rewrite !fn_insert_eq. destruct (decide (nd t = k)) as [<-|Hne].
      * rewrite Hw in I5. simpl in *. by rewrite Ep in I5.
      * destruct (who k) as [u|] eqn:Eu; [|done]. simpl in *. rewrite fn_insert_eq, decide_False; [done|].
        intros <-. by apply Hne, I4.
    + done.
Qed.

Lemma cohort_invariant s : reachable s -> exists who G, invariant s who G.
Proof using All.
  intros Hr. assert (H0 : exists who G, invariant cohort_lock who G).
  { destruct lk_init as [H1 H2]. exists (fun _ => None), None. split; simpl; try done.
    - intros k u. split; [intros F; by apply H2 in F|done].
    - intros k. split; [done|]. split; [done|]. split; [done|]. right. by split_and!. }
  unfold reachable in Hr. revert H0. induction Hr as [|s s1 s2 Hs _ IH]; [done|]. intros (who & G & Hi). apply IH.
  by apply (cohort_step_invariant s s1 who G).
Qed.

(** A thread in its critical section. *)
Lemma critical_fits s who G t : invariant s who G -> cpcs s t = Critical ->
  who (nd t) = Some t /\ G = Some (nd t) /\ fits Critical true (nodes s (nd t)).
Proof using.
  intros Hi Ht. assert (Hw : who (nd t) = Some t) by (apply (ci_pc _ _ _ Hi); by rewrite Ht).
  pose proof (ci_fits _ _ _ Hi (nd t)) as Hf. rewrite Hw in Hf. cbn [holder_pc] in Hf. rewrite Ht in Hf.
  pose proof Hf as (_ & _ & _ & _ & _ & HG%bool_decide_eq_true & _). split; [done|]. split; [done|].
  by rewrite bool_decide_eq_true_2 in Hf.
Qed.

Lemma fits_bounds p g x : fits p g x -> numahandover x = 0 /\ 0 <= handovers x <= MAX_HANDOVER /\ 0 <= served x <= MAX_HANDOVER + 1.
Proof using. unfold fits. intros (H1 & H2 & H3 & H4). split; [done|]. split; [done|]. destruct p; lia. Qed.

End Cohort.

(** ** The MCS lock is such a local lock *)
Inductive mcs_other (t : nat) (m : McsLock.state) : McsLock.state -> Prop :=
  | other_reset : McsLock.pcs m t = McsLock.Outside -> mcs_other t m (McsLock.lock_reset m t)
  | other_exchange : McsLock.pcs m t = McsLock.Exchanging -> McsLock.tail m <> None -> mcs_other t m (McsLock.lock_exchange m t)
  | other_flag p : McsLock.pcs m t = McsLock.Flagging p -> mcs_other t m (McsLock.lock_flag m t p)
  | other_link p : McsLock.pcs m t = McsLock.Linking p -> mcs_other t m (McsLock.lock_link m t p)
  | other_spin : McsLock.pcs m t = McsLock.Spinning -> McsLock.locked m t = true -> mcs_other t m (McsLock.lock_spin m t)
  | other_swing : McsLock.pcs m t = McsLock.Swinging -> mcs_other t m (McsLock.unlock_swing m t)
  | other_seek : McsLock.pcs m t = McsLock.Seeking -> mcs_other t m (McsLock.unlock_seek m t)
  | other_load : McsLock.pcs m t = McsLock.Handing -> mcs_other t m (McsLock.unlock_load m t)
  | other_wake n : McsLock.pcs m t = McsLock.Waking n -> mcs_other t m (McsLock.unlock_wake m t n).

Inductive mcs_grant (t : nat) (m : McsLock.state) : McsLock.state -> Prop :=
  | grant_exchange : McsLock.pcs m t = McsLock.Exchanging -> McsLock.tail m = None -> mcs_grant t m (McsLock.lock_exchange m t)
  | grant_spin : McsLock.pcs m t = McsLock.Spinning -> McsLock.locked m t = false -> mcs_grant t m (McsLock.lock_spin m t).

#[export] Instance mcs_local : LocalLock McsLock.state := {|
  ll_init := McsLock.mcs_lock;
  ll_other := mcs_other;
  ll_grant := mcs_grant;
  ll_unlock := fun t m m' => McsLock.pcs m t = McsLock.Inside /\ m' = McsLock.unlock_check m t;
  ll_contended := McsLock.is_contended;
|}.

Definition mcs_inside (m : McsLock.state) (t : nat) : Prop := McsLock.pcs m t = McsLock.Inside.
Definition mcs_ok (m : McsLock.state) : Prop := exists q, McsLock.invariant m q.

Lemma mcs_step_ok m m' : mcs_ok m -> McsLock.step m m' -> mcs_ok m'.
Proof. intros [q Hq] Hs. destruct (McsLock.refine_step m m' q Hq Hs) as (q' & Hq' & _). by exists q'. Qed.

#[export] Instance mcs_local_laws : LocalLockLaws McsLock.state mcs_ok mcs_inside.
Proof.
  split.
  - split; [|done]. exists []. split; simpl; try done; [constructor|]. intros t. rewrite elem_of_nil. done.
  - intros t m m' Hok Hs. split.
    + destruct Hs; (eapply mcs_step_ok; [exact Hok|]); econstructor; eassumption.
    + intros u. unfold mcs_inside. destruct Hs as [E|E Et|p E|p E|E El|E|E|E|n E];
        unfold McsLock.lock_reset, McsLock.lock_exchange, McsLock.lock_flag, McsLock.lock_link, McsLock.lock_spin,
          McsLock.unlock_swing, McsLock.unlock_seek, McsLock.unlock_load, McsLock.unlock_wake; repeat case_match; try done;
        simpl; rewrite fn_insert_eq; destruct (decide (t = u)) as [<-|]; split; congruence.
  - intros t m m' [q Hq] Hs.
    assert (Hno : forall u, ~ mcs_inside m u).
    { intros u Hu. assert (Hh : head q = Some u) by (apply (McsLock.is_head m q u Hq); rewrite Hu; done).
      destruct Hs as [E Et|E El].
      - rewrite (McsLock.mi_tail _ _ Hq) in Et. destruct q; [done|]. by apply last_None in Et.
      - assert (Ht : head q = Some t) by (apply (McsLock.is_head m q t Hq); rewrite E; done).
        unfold mcs_inside in Hu. congruence. }
    split_and!; [|done|].
    + destruct Hs; (eapply mcs_step_ok; [by exists q|]); [by apply McsLock.step_exchange|by apply McsLock.step_spin].
    + intros u. specialize (Hno u). unfold mcs_inside in *. destruct Hs as [E Et|E El].
      * unfold McsLock.lock_exchange. rewrite Et. simpl. rewrite fn_insert_eq. destruct (decide (t = u)); split; congruence.
      * unfold McsLock.lock_spin. rewrite El. simpl. rewrite fn_insert_eq. destruct (decide (t = u)); split; congruence.
  - intros t m m' [q Hq] Hin [Hi ->]. split; [eapply mcs_step_ok; [by exists q|by apply McsLock.step_check]|].
    intros u. unfold mcs_inside. assert (Hh : head q = Some t) by (apply (McsLock.is_head m q t Hq); rewrite Hi; done).
    unfold McsLock.unlock_check. destruct (McsLock.next m t); simpl; rewrite fn_insert_eq;
      (destruct (decide (t = u)) as [|Hne]; [done|]); intros Hu;
      (assert (Hh' : head q = Some u) by (apply (McsLock.is_head m q u Hq); rewrite Hu; done)); congruence.
Qed.

(** ** Theorems *)

(** C31: the cohort lock excludes mutually across all threads of all nodes, in every
    interleaving of the accesses to its three locks: at most one thread is in its
    critical section, and while one is, its node holds the global lock and the
    local lock is held by that very thread. *)
Theorem cohort_lock_excludes (nd : nat -> nat) (s : cstate) (t u : nat) :
  (forall t, Z.of_nat (nd t) < 2 ^ 32) -> reachable nd s -> cpcs s t = Critical -> cpcs s u = Critical ->
  t = u /\ lastuser s = Tas.locked /\ has_global_lock (nodes s (nd t)) = true /\
  mcs_inside (local_lock (nodes s (nd t))) t.
Proof.
  intros Hnd Hr Ht Hu. destruct (cohort_invariant nd mcs_ok mcs_inside Hnd s Hr) as (who & G & Hi).
  destruct (critical_fits nd mcs_ok mcs_inside s who G t Hi Ht) as (W1 & G1 & _ & _ & _ & _ & F & _).
  destruct (critical_fits nd mcs_ok mcs_inside s who G u Hi Hu) as (W2 & G2 & _). split_and!.
  - congruence.
  - apply (ci_word _ _ _ _ _ _ Hi). congruence.
  - done.
  - by apply (ci_inside _ _ _ _ _ _ Hi).
Qed.

(** C32: a node keeps the lock for a bounded time only: it runs at most
    [MAX_HANDOVER] + 1 = 8193 critical sections before it gives up the global lock.
    The counter of handovers between NUMA nodes stays 0 and the ticket lock is
    never found contended: as every thread gets NUMA node 0, the middle level of
    the lock is never used. *)
Theorem cohort_handover_bounded (nd : nat -> nat) (s : cstate) (k : nat) :
  (forall t, Z.of_nat (nd t) < 2 ^ 32) -> reachable nd s ->
  0 <= served (nodes s k) <= MAX_HANDOVER + 1 /\ 0 <= handovers (nodes s k) <= MAX_HANDOVER /\
  numahandover (nodes s k) = 0 /\
  forall t, cpcs s t = CheckNode -> node_contended (nodes s (nd t)) = false.
Proof.
  intros Hnd Hr. destruct (cohort_invariant nd mcs_ok mcs_inside Hnd s Hr) as (who & G & Hi).
  destruct (fits_bounds _ _ _ (ci_fits _ _ _ _ _ _ Hi k)) as (B1 & B2 & B3). split_and!; try done || lia.
  intros t Ht. assert (Hw : who (nd t) = Some t) by (apply (ci_pc _ _ _ _ _ _ Hi); by rewrite Ht).
  pose proof (ci_fits _ _ _ _ _ _ Hi (nd t)) as Hf. rewrite Hw in Hf. cbn [holder_pc] in Hf. rewrite Ht in Hf.
  destruct Hf as (_ & Ho & _ & _ & _ & _ & Hh & _). by apply held_not_contended.
Qed.

(** Threads 0 and 1 run on node 0, thread 2 on node 1.  Thread 0 takes the three
    locks; thread 2 takes its node's two and finds the global lock taken. *)
Definition demo_nd (t : nat) : nat := if decide (t = 2%nat) then 1%nat else 0%nat.

Definition mcs_at (s : cstate) (t : nat) : McsLock.state := local_lock (nodes s (demo_nd t)).
Definition local (s : cstate) (t : nat) (m : McsLock.state) (p : cpc) : cstate :=
  update demo_nd s t (set_local (nodes s (demo_nd t)) m) (lastuser s) p.
Definition start (s : cstate) (t : nat) : cstate := local s t (McsLock.lock_reset (mcs_at s t) t) Idle.
Definition take (s : cstate) (t : nat) (p : cpc) : cstate := local s t (McsLock.lock_exchange (mcs_at s t) t) p.

Definition demo_run : cstate :=
  let adv t s := advance demo_nd s t in
  let s := take (start (cohort_lock (M := McsLock.state)) 0) 0 Got in
  let s := Nat.iter 7 (adv 0%nat) s in
  let s := take (start s 2) 2 Got in
  Nat.iter 6 (adv 2%nat) s.

Lemma demo_nd_small t : Z.of_nat (demo_nd t) < 2 ^ 32.
Proof. unfold demo_nd. case_decide; lia. Qed.

Lemma iter_reachable s t k : reachable demo_nd s -> reachable demo_nd (Nat.iter k (fun s => advance demo_nd s t) s).
Proof.
  intros H. induction k as [|k IH]; simpl; [done|]. eapply rtc_r; [exact IH|]. apply step_advance.
Qed.

Lemma start_take s t : reachable demo_nd s -> cpcs s t = Idle -> McsLock.pcs (mcs_at s t) t = McsLock.Outside ->
  McsLock.tail (mcs_at s t) = None -> reachable demo_nd (take (start s t) t Got).
Proof.
  intros H E1 E2 E3. eapply rtc_r; [eapply rtc_r; [exact H|]|].
  - apply (step_other demo_nd s t); [done|]. by apply other_reset.
  - assert (Em : mcs_at (start s t) t = McsLock.lock_reset (mcs_at s t) t).
    { unfold mcs_at at 1, start, local. simpl. by rewrite fn_insert_eq, decide_True. }
    apply (step_grant demo_nd (start s t) t).
    + unfold start, local. simpl. by rewrite fn_insert_eq, decide_True.
    + fold (mcs_at (start s t) t). rewrite Em. apply grant_exchange; [|done]. simpl. by rewrite fn_insert_eq, decide_True.
Qed.

Lemma demo_run_reachable : reachable demo_nd demo_run.
Proof.
  apply iter_reachable, start_take; [|reflexivity..]. apply iter_reachable, start_take; [|reflexivity..]. apply rtc_refl.
Qed.

Lemma cohort_lock_excludes_witness :
  cpcs demo_run 2 = Global /\ 0%nat = 0%nat /\ lastuser demo_run = Tas.locked /\ has_global_lock (nodes demo_run (demo_nd 0)) = true /\
  mcs_inside (local_lock (nodes demo_run (demo_nd 0))) 0.
Proof.
  split; [reflexivity|]. apply (cohort_lock_excludes demo_nd demo_run 0 0 demo_nd_small demo_run_reachable); reflexivity.
Defined.

Lemma cohort_handover_bounded_witness :
  0 <= served (nodes demo_run 0) <= MAX_HANDOVER + 1 /\ 0 <= handovers (nodes demo_run 0) <= MAX_HANDOVER /\
  numahandover (nodes demo_run 0) = 0 /\
  forall t, cpcs demo_run t = CheckNode -> node_contended (nodes demo_run (demo_nd t)) = false.
Proof. apply (cohort_handover_bounded demo_nd demo_run 0 demo_nd_small demo_run_reachable). Defined.
