(* ===== verification/Reset.v ===== *)
(** * Resetting the coherence state

    [argo_reset_coherence] of [src/src/backend/mpi/swdsm.cpp], which
    [argo_initialize] and [argo::reset] call on all nodes: every node empties its
    cache and its directory, all nodes pass a barrier, every node withdraws the
    access to its pages, all nodes pass a barrier again, and the statistics are
    cleared.  The home data stay. *)

From S2P Require Import Prelude BlockMap DataDistribution FirstTouch GlobalPtr Mem Swdsm SwdsmBase SwdsmInv SwdsmDir SwdsmOps SwdsmLoad SwdsmHandler SwdsmSync SwdsmBarrier Atomics SwdsmSpec SwdsmTheorems Init.

(** ** The operation *)
Section Reset.

Context (c : dsm_config) (pl : placement).

(** The bytes mapped for the directory. *)
Definition gwritersize : Z := align_forwards (mul64 (classificationSize c) 8) PAGE_SIZE.

(** The strides of the loop over the directory, of which the last may go beyond the
    entries, end inside of the bytes mapped for it. *)
Definition strides_inside : Prop :=
  let stride := load_size c * 2 in 8 * ((classificationSize c + (stride - 1)) / stride * stride) <= gwritersize.

(** [touchedcache] and [cacheControl] of a node. *)
Definition reset_touched (s : dsm) (r : Z) : outcome dsm :=
  for_each (seqZ 0 (cachesize c)) (fun i s => Ok (set_touched s r i 0)) s.
Definition reset_control (s : dsm) (r : Z) : outcome dsm :=
  for_each (seqZ 0 (cachesize c)) (fun i s =>
    Ok (set_dirty c (set_state c (set_tag c s r i (GLOBAL_NULL c)) r i INVALID) r i CLEAN)) s.

(** [globalSharers] of a node, in strides of the load size. *)
Definition reset_sharers (s : dsm) (r : Z) : outcome dsm :=
  for_each (reset_indices c) (fun j s =>
    if 8 * j <? gwritersize then Ok (set_sh s r j 0)
    else Throw (undefined_behaviour "store behind the directory")) s.

(** [mprotect] of the whole global memory. *)
Definition protect_all (s : dsm) (r : Z) : outcome dsm :=
  for_each (seqZ 0 (size_of_all c / PAGE_SIZE)) (fun k s => Ok (mprotect s r (k * PAGE_SIZE) PROT_NONE)) s.

Definition set_counter (s : dsm) (r k v : Z) : dsm := {|
  cacheControl := cacheControl s; touchedcache := touchedcache s;
  globalSharers := globalSharers s; cacheData := cacheData s; pagecopy := pagecopy s;
  globalData := globalData s; vmem := vmem s; wbuf := wbuf s;
  counters := <[(r, k) := v]> (counters s) |}.
Definition argo_reset_stats (s : dsm) (r : Z) : dsm :=
  let s := set_counter s r c_write_misses 0 in
  let s := set_counter s r c_read_misses 0 in
  let s := set_counter s r c_barriers 0 in
  let s := set_counter s r c_page_count 0 in
  set_counter s r c_partial_flush_count 0.

(** What a node does before the first barrier. *)
Definition reset_node (s : dsm) (r : Z) : outcome dsm :=
  let s := set_counter s r c_write_misses 0 in
  s ← reset_touched s r; s ← reset_control s r; reset_sharers s r.

(** All nodes run it; the barriers separate the phases. *)
Definition argo_reset_coherence (s : dsm) : outcome dsm :=
  let ranks := seqZ 0 (numtasks c) in
  s ← for_each ranks (fun r s => reset_node s r) s;
  s ← swdsm_argo_barrier c pl s upgrade_none;
  s ← for_each ranks (fun r s => protect_all s r) s;
  s ← swdsm_argo_barrier c pl s upgrade_none;
  for_each ranks (fun r s => Ok (argo_reset_stats s r)) s.

End Reset.

(** The directories of the first-touch policy, as the same function resets them on
    node [rank]. *)
Definition reset_dirs (d : base_distribution) (s : ft_state) (rank : Z) : outcome ft_state :=
  s ← for_each (seqZ 0 (page_info_size * npages d)) (fun i s => Ok (put_owner s rank i (global_null d))) s;
  for_each (seqZ 0 (nodes d)) (fun n s => Ok (put_offset s rank n 0)) s.

(** ** What a step of the reset clears *)
Section Clearing.

Context (c : dsm_config) (pl : placement) (Hc : cfg_ok c pl).

Abbreviation node := (node c).
Abbreviation page := (page c).
Abbreviation cc := (cc c).

Definition unused : control_data := {| cd_state := INVALID; cd_dirty := CLEAN; cd_tag := GLOBAL_NULL c |}.

Inductive item :=
  | Touched (r i : Z)
  | Slot (r i : Z)
  | Entry (r j : Z)
  | Access (r p : Z).

Definition is_clear (s : dsm) (it : item) : Prop :=
  match it with
  | Touched r i => touched s r i = 0
  | Slot r i => cc s r i = unused
  | Entry r j => sh s r j = 0
  | Access r p => snd (vmap s r p) = PROT_NONE
  end.

(** The step clears the items [P], spoils no cleared item and moves no data. *)
Record clearing (P : item -> Prop) (s s' : dsm) : Prop := {
  cl_items it : P it \/ is_clear s it -> is_clear s' it;
  cl_data : globalData s' = globalData s;
  cl_wb : wbuf s' = wbuf s;
}.

Lemma clearing_trans P Q s1 s2 s3 : clearing P s1 s2 -> clearing Q s2 s3 -> clearing (fun it => P it \/ Q it) s1 s3.
Proof. intros [A1 A2 A3] [B1 B2 B3]. split; [|congruence..]. intros it [[H|H]|H]; auto. Qed.

Lemma clearing_weaken P Q s s' : (forall it, Q it -> P it) -> clearing P s s' -> clearing Q s s'.
Proof. intros H [A1 A2 A3]. split; [|done..]. intros it [?|?]; auto. Qed.

Lemma clearing_for_each {A} (l : list A) (f : A -> dsm -> outcome dsm) (P : A -> item -> Prop) : forall s,
  (forall a s, a ∈ l -> exists s', f a s = Ok s' /\ clearing (P a) s s') ->
  exists s', for_each l f s = Ok s' /\ clearing (fun it => exists a, a ∈ l /\ P a it) s s'.
Proof.
  induction l as [|a l IH]; intros s Hf; simpl.
  { exists s. split; [done|]. split; [|done..]. intros it [(a & Ha & _)|H]; [by apply elem_of_nil in Ha|done]. }
  destruct (Hf a s) as (s1 & -> & H1); [left|]. destruct (IH s1) as (s2 & E2 & H2).
  { intros b s' Hb. apply Hf. by right. }
  exists s2. split; [done|]. apply (clearing_weaken (fun it => P a it \/ exists b, b ∈ l /\ P b it)).
  - intros it (b & [->|Hb]%elem_of_cons & Hp); [by left|right; eauto].
  - by apply (clearing_trans _ _ s s1).
Qed.

(** The elementary steps. *)
Ltac clear_step := split; [|done..]; intros it Hit; destruct it; unfold is_clear in *; dsm_get; repeat (case_decide; try done);
  destruct Hit as [Hit|Hit]; try done; try (injection Hit as -> ->); tauto.

Lemma clearing_touched s r i : clearing (eq (Touched r i)) s (set_touched s r i 0).
Proof. clear_step. Qed.
Lemma clearing_slot s r i :
  clearing (eq (Slot r i)) s (set_dirty c (set_state c (set_tag c s r i (GLOBAL_NULL c)) r i INVALID) r i CLEAN).
Proof. clear_step. Qed.
Lemma clearing_entry s r j : clearing (eq (Entry r j)) s (set_sh s r j 0).
Proof. clear_step. Qed.
Lemma clearing_access s r p : clearing (eq (Access r p)) s (mprotect s r p PROT_NONE).
Proof. clear_step. Qed.
#[local] Hint Resolve clearing_touched clearing_slot clearing_entry clearing_access : argo.

Lemma clearing_counter s r k v : clearing (fun _ => False) s (set_counter s r k v).
Proof. split; [|done..]. by intros it [?|?]. Qed.

(** ** The phases *)
Lemma reset_touched_ok s r : exists s', reset_touched c s r = Ok s' /\
  clearing (fun it => exists i, i ∈ seqZ 0 (cachesize c) /\ Touched r i = it) s s'.
Proof. apply (clearing_for_each _ _ (fun i => eq (Touched r i))). eauto with argo. Qed.

Lemma reset_control_ok s r : exists s', reset_control c s r = Ok s' /\
  clearing (fun it => exists i, i ∈ seqZ 0 (cachesize c) /\ Slot r i = it) s s'.
Proof. apply (clearing_for_each _ _ (fun i => eq (Slot r i))). eauto with argo. Qed.

Lemma protect_all_ok s r : exists s', protect_all c s r = Ok s' /\
  clearing (fun it => exists k, k ∈ seqZ 0 (size_of_all c / PAGE_SIZE) /\ Access r (k * PAGE_SIZE) = it) s s'.
Proof. apply (clearing_for_each _ _ (fun k => eq (Access r (k * PAGE_SIZE)))). eauto with argo. Qed.

(** The strides stay inside of the mapped directory. *)
Lemma reset_sharers_ok s r : strides_inside c -> exists s', reset_sharers c s r = Ok s' /\
  clearing (fun it => exists j, j ∈ reset_indices c /\ Entry r j = it) s s'.
Proof using Hc.
  intros Hin. apply (clearing_for_each _ _ (fun j => eq (Entry r j))). intros j s1 Hj. destruct (ck_load c pl Hc).
  rewrite (proj2 (Z.ltb_lt _ _)); [eauto with argo|]. unfold strides_inside in Hin. cbn zeta in Hin.
  unfold reset_indices in Hj. apply list_elem_of_bind in Hj as (b & Hj & Hb). apply elem_of_seqZ in Hj.
  apply list_elem_of_fmap in Hb as (q & -> & Hq). apply elem_of_seqZ in Hq.
  set (w := load_size c * 2) in *. assert (0 < w) by lia. nia.
Qed.

(** They do when a stride divides the directory, and when it divides a page, as that of
    the default load size does. *)
Lemma strides_inside_dir : (load_size c * 2 | classificationSize c) -> strides_inside c.
Proof using Hc.
  intros [k Hk]. unfold strides_inside. cbn zeta. destruct (ck_load c pl Hc). set (w := load_size c * 2) in *. rewrite Hk at 1.
  replace (k * w + (w - 1)) with (w - 1 + k * w) by ring. rewrite Z.div_add, Z.div_small, Z.add_0_l, <- Hk by lia.
  destruct (size_bounds c pl Hc) as (Hs & _). pose proof (ck_size c pl Hc).
  assert (Hcs : 0 <= classificationSize c <= 2 ^ 53).
  { unfold classificationSize. pose proof (Z.div_pos (size_of_all c) PAGE_SIZE ltac:(lia) ltac:(done)).
    pose proof (Z.div_le_upper_bound (size_of_all c) PAGE_SIZE (2 ^ 52) ltac:(done) ltac:(unfold PAGE_SIZE; lia)). lia. }
  unfold gwritersize. rewrite mul64_small by lia. destruct (align_forwards_spec (classificationSize c * 8) PAGE_SIZE) as [[Ha _] _]; unfold PAGE_SIZE in *; lia.
Qed.

Lemma strides_inside_page : (8 * (load_size c * 2) | PAGE_SIZE) -> strides_inside c.
Proof using Hc.
  intros [k Hk]. unfold strides_inside. cbn zeta. destruct (ck_load c pl Hc). set (w := load_size c * 2) in *. assert (Hw : 0 < w) by lia.
  destruct (size_bounds c pl Hc) as (Hs & _). pose proof (ck_size c pl Hc).
  assert (Hcs : 0 <= classificationSize c <= 2 ^ 53).
  { unfold classificationSize. pose proof (Z.div_pos (size_of_all c) PAGE_SIZE ltac:(lia) ltac:(done)).
    pose proof (Z.div_le_upper_bound (size_of_all c) PAGE_SIZE (2 ^ 52) ltac:(done) ltac:(unfold PAGE_SIZE; lia)). lia. }
  unfold gwritersize. rewrite mul64_small by lia. destruct (align_forwards_spec (classificationSize c * 8) PAGE_SIZE) as [[Ha _] [j Hj]]; [unfold PAGE_SIZE in *; lia..|].
  rewrite Hj, Hk in *. set (cs := classificationSize c) in *.
  assert ((cs + (w - 1)) / w < j * k + 1); [|nia]. apply Z.div_lt_upper_bound; [done|]. nia.
Qed.

(** A barrier with empty caches and write buffers does nothing but count. *)
Definition idle (s : dsm) : Prop :=
  forall r, node r -> wb s r = [] /\ forall i, 0 <= i < cachesize c -> touched s r i = 0.

Lemma invalidation_idle s r : (forall i, 0 <= i < cachesize c -> touched s r i = 0) -> self_invalidation c pl s r = Ok s.
Proof using Hc.
  intros Ht. unfold self_invalidation.
  match goal with |- context [for_each _ ?f _] =>
    destruct (for_range_ok (cachesize c) f (fun _ x => x = (s, false)) (s, false)) as (x & -> & ->) end;
    [destruct Hc; lia|done| |done].
  intros i x Hi ->. exists (s, false). by rewrite Ht.
Qed.

Lemma count_ranks s k : exists s',
  for_each (seqZ 0 (numtasks c)) (fun r s => Ok (count s r k)) s = Ok s' /\ clearing (fun _ => False) s s'.
Proof.
  destruct (clearing_for_each (seqZ 0 (numtasks c)) (fun r s => Ok (count s r k)) (fun _ _ => False) s) as (s' & E & H).
  - intros r s1 _. eexists. split; [done|]. split; [|done..]. by intros it [?|?].
  - exists s'. split; [done|]. by eapply clearing_weaken; [|exact H].
Qed.

Lemma barrier_idle s : idle s -> exists s', swdsm_argo_barrier c pl s upgrade_none = Ok s' /\ clearing (fun _ => False) s s'.
Proof using Hc.
  intros Hid. unfold swdsm_argo_barrier. destruct (numtasks c =? 1).
  { eexists. split; [done|]. split; [|done..]. by intros it [?|?]. }
  assert (Hr : forall (f : Z -> dsm -> outcome dsm), (forall r, node r -> f r s = Ok s) -> for_each (seqZ 0 (numtasks c)) f s = Ok s).
  { intros f Hf. destruct (for_each_ok (seqZ 0 (numtasks c)) f (fun s1 => s1 = s) s) as (s1 & E & ->); [done| |done].
    intros r s1 Hin%elem_of_seqZ ->. exists s. split; [|done]. apply Hf. unfold SwdsmBase.node. lia. }
  rewrite (Hr (fun r s => wb_flush c pl s r)).
  - cbn [mbind outcome_bind]. rewrite (Hr (fun r s => self_invalidation c pl s r)).
    + cbn [mbind outcome_bind]. apply count_ranks.
    + intros r Hn. by apply invalidation_idle, Hid.
  - intros r Hn. unfold wb_flush. by rewrite (proj1 (Hid r Hn)); cbn; rewrite (proj1 (Hid r Hn)).
Qed.

(** ** The state the reset leaves *)
Record fresh (s : dsm) : Prop := {
  fr_slot r i : node r -> 0 <= i < cachesize c -> cc s r i = unused /\ touched s r i = 0;
  fr_dir r j : node r -> 0 <= j < classificationSize c -> sh s r j = 0;
  fr_access r p : node r -> page p -> snd (vmap s r p) = PROT_NONE;
  fr_wb r : node r -> wb s r = [];
}.

Lemma reset_node_ok s r : strides_inside c -> exists s', reset_node c s r = Ok s' /\
  clearing (fun it => (exists i, i ∈ seqZ 0 (cachesize c) /\ Touched r i = it) \/
    (exists i, i ∈ seqZ 0 (cachesize c) /\ Slot r i = it) \/ (exists j, j ∈ reset_indices c /\ Entry r j = it)) s s'.
Proof using Hc.
  intros Hdiv. unfold reset_node. pose proof (clearing_counter s r c_write_misses 0) as H0. set (s0 := set_counter _ _ _ _) in *.
  destruct (reset_touched_ok s0 r) as (s1 & -> & H1). cbn [mbind outcome_bind].
  destruct (reset_control_ok s1 r) as (s2 & -> & H2). cbn [mbind outcome_bind].
  destruct (reset_sharers_ok s2 r Hdiv) as (s3 & E3 & H3). exists s3. split; [done|].
  eapply clearing_weaken; [|exact (clearing_trans _ _ _ _ _ H0 (clearing_trans _ _ _ _ _ H1 (clearing_trans _ _ _ _ _ H2 H3)))].
  intros it H. by right.
Qed.

Lemma stats_clear s r : clearing (fun _ => False) s (argo_reset_stats s r).
Proof. split; [|done..]. by intros it [?|?]. Qed.

Lemma reset_coherence_ok s : strides_inside c -> (forall r, node r -> wb s r = []) ->
  exists s', argo_reset_coherence c pl s = Ok s' /\ fresh s' /\ globalData s' = globalData s.
Proof using Hc.
  intros Hdiv Hwb. unfold argo_reset_coherence. set (ranks := seqZ 0 (numtasks c)).
  assert (Hnode : forall r, node r -> r ∈ ranks) by (intros r Hr; apply elem_of_seqZ; unfold SwdsmBase.node in Hr; lia).
  destruct (clearing_for_each ranks (fun r s => reset_node c s r) _ s (fun r s1 _ => reset_node_ok s1 r Hdiv)) as (s1 & -> & H1).
  cbn [mbind outcome_bind].
  assert (Hid : forall P s2, clearing P s1 s2 -> idle s2).
  { intros P s2 [Hk _ Ew] r Hr. split; [unfold wb; rewrite Ew, (cl_wb _ _ _ H1); by apply Hwb|]. intros i Hi.
    apply (Hk (Touched r i)). right. apply (cl_items _ _ _ H1). left. exists r. split; [auto|]. left. exists i.
    split; [apply elem_of_seqZ; lia|done]. }
  destruct (barrier_idle s1) as (s2 & -> & H2).
  { apply (Hid (fun _ => False)). split; [|done..]. by intros it [?|?]. }
  cbn [mbind outcome_bind].
  destruct (clearing_for_each ranks (fun r s => protect_all c s r) _ s2 (fun r s1 _ => protect_all_ok s1 r)) as (s3 & -> & H3).
  cbn [mbind outcome_bind]. pose proof (clearing_trans _ _ _ _ _ H2 H3) as H23.
  destruct (barrier_idle s3 (Hid _ _ H23)) as (s4 & -> & H4). cbn [mbind outcome_bind].
  destruct (clearing_for_each ranks (fun r s => Ok (argo_reset_stats s r)) (fun _ _ => False) s4) as (s5 & -> & H5).
  { intros r s' _. eauto using stats_clear. }
  exists s5. split; [done|].
  pose proof (clearing_trans _ _ _ _ _ H1 (clearing_trans _ _ _ _ _ H23 (clearing_trans _ _ _ _ _ H4 H5))) as [Hk Ed Ew].
  split; [|done]. split.
  - intros r i Hr Hi. assert (Hin : i ∈ seqZ 0 (cachesize c)) by (apply elem_of_seqZ; lia).
    split; [apply (Hk (Slot r i))|apply (Hk (Touched r i))]; left; left; exists r; (split; [auto|]); eauto.
  - intros r j Hr Hj. apply (Hk (Entry r j)). left; left. exists r. split; [auto|]. right; right. exists j. split; [|done].
    destruct (ck_load c pl Hc). destruct (size_bounds c pl Hc) as (Hs & _). by apply reset_covers_directory; [lia..|].
  - intros r p Hr Hp. apply (Hk (Access r p)). left; right; left; right. exists r. split; [auto|]. exists (p / PAGE_SIZE).
    pose proof (page_bounds c pl Hc p Hp) as (P1 & P2 & P3). split; [|by rewrite <- P3].
    apply elem_of_seqZ. rewrite Z.add_0_l. split; [apply Z.div_pos; [done|done]|]. apply Z.div_lt_upper_bound; [done|].
    destruct (ck_pages c pl Hc) as [n En]. rewrite En, Z.div_mul by done. unfold PAGE_SIZE in *. lia.
  - intros r Hr. unfold wb. rewrite Ew. by apply Hwb.
Qed.

(** A fresh state satisfies the coherence invariant. *)
Lemma fresh_dir s r p : fresh s -> node r -> page p -> shr c s r p = 0 /\ wr c s r p = 0.
Proof using Hc.
  intros Hf Hr Hp. destruct (cls_eq c pl Hc p Hp) as (_ & H1 & H2). split; apply (fr_dir s Hf); [done|lia|done|lia].
Qed.

Lemma fresh_unheld s r p : fresh s -> node r -> ~ holds c s r p.
Proof using Hc.
  intros Hf Hr [_ Hv]. destruct (fr_slot s Hf r (cidx c p) Hr) as [E _]; [by eauto with argo|]. by rewrite E in Hv.
Qed.

Lemma fresh_inv (PB : plain_bytes) s : fresh s -> inv c pl s.
Proof using Hc.
  intros Hf. assert (H0 : forall x, has_bit 0 x = false) by (intros x; apply Z.bits_0). split.
  - intros r i Hr Hi. left. by apply (fr_slot s Hf).
  - intros r p Hr Hp _. unfold local_vm_ok. rewrite (proj1 (fresh_dir s r p Hf Hr Hp)), H0. by apply (fr_access s Hf).
  - intros r p Hr Hp _ Hacc. by rewrite (fr_access s Hf) in Hacc.
  - intros r Hr. split; rewrite (fr_wb s Hf) by done; [apply NoDup_nil_2|]. intros i. split; [by intros ?%elem_of_nil|].
    intros (Hi & Hd & _). by rewrite (proj1 (fr_slot s Hf r i Hr Hi)) in Hd.
  - intros p Hp. pose proof (home_node c pl Hc p Hp) as Hh. destruct (fresh_dir s _ p Hf Hh Hp) as [E1 E2].
    split; [split|..].
    + intros r Hr. destruct (fresh_dir s r p Hf Hr Hp) as [-> ->]. split; apply mask_of_0.
    + intros r Hr. by rewrite (proj1 (fresh_dir s r p Hf Hr Hp)), H0.
    + intros r x Hr. by rewrite (proj2 (fresh_dir s r p Hf Hr Hp)), H0.
    + intros r x Hr. by rewrite (proj1 (fresh_dir s r p Hf Hr Hp)), H0.
    + by rewrite E2, H0.
    + intros r Hr H. by apply fresh_unheld in H.
    + intros r Hr [H _]. by apply fresh_unheld in H.
  - intros r p Hr _ H. by apply fresh_unheld in H.
Qed.

(** ** The memory after a reset: the same bytes, synchronised everywhere *)
Definition restart (f : flat) : flat := {| fm_byte := fm_byte f; fm_mode := fun _ => Shared (fun _ => true) |}.

(** With nothing buffered every byte is at its home. *)
Lemma sim_home f s a : sim c pl f s -> (forall r, node r -> wb s r = []) -> 0 <= a < size_of_all c ->
  home_byte c pl s (align_backwards a PAGE_SIZE) (a mod PAGE_SIZE) = fm_byte f a.
Proof using Hc.
  intros [Hi Hs] Hwb Ha. specialize (Hs a Ha).
  assert (Hno : forall w, node w -> ~ holds_dirty c s w (align_backwards a PAGE_SIZE)).
  { intros w Hw [[_ _] Hd]. assert (Hin : cidx c (align_backwards a PAGE_SIZE) ∈ wb s w).
    { apply (wk_dirty _ _ _ _ (iv_wb _ _ _ _ Hi w Hw)). split_and!; [by apply (cidx_range c pl Hc)..|done|by intros []]. }
    rewrite (Hwb w Hw) in Hin. by apply elem_of_nil in Hin. }
  destruct (fm_mode f a) as [w|synced| |]; [|apply Hs|apply Hs|].
  - destruct Hs as (Hw & [(H & _)|(H & _)] & _); [done|]. by destruct (Hno w Hw).
  - destruct Hs as [[H|(w & Hw & H & _)] _]; [done|]. by destruct (Hno w Hw).
Qed.

Lemma sim_restart f s s' : sim c pl f s -> (forall r, node r -> wb s r = []) -> fresh s' -> globalData s' = globalData s ->
  sim c pl (restart f) s'.
Proof using Hc.
  intros Hs Hwb Hf Ed. split; [by apply fresh_inv|]. intros a Ha. unfold restart. cbn [fm_byte fm_mode]. split.
  - rewrite <- (sim_home f s a) by done. unfold home_byte. by rewrite Ed.
  - intros x Hx. split; [intros [H _]|intros _ H]; by apply fresh_unheld in H.
Qed.

End Clearing.

(** ** Theorems *)

(** [argo_reset_coherence] restarts the DSM with the memory's contents.  After
    any data-race-free run that leaves no page in a write buffer, if the strides of
    the load size end inside of the mapped directory, the reset returns, empties every cache,
    directory and page table and moves no data, and whatever data-race-free run
    follows, its loads deliver the bytes the first run left. *)
Theorem reset_coherence_restarts (c : dsm_config) (pl : placement) (ops ops' : list (Z * dsm_op))
    (f f' : flat) (vs vs' : list Z) (s : dsm) :
  cfg_ok c pl -> strides_inside c ->
  forallb (op_valid c) ops = true -> flat_ops flat_init ops = Some (f, vs) ->
  run_ops c pl dsm_reset ops = Ok (s, vs) -> (forall r, node c r -> wb s r = []) ->
  forallb (op_valid c) ops' = true -> flat_ops (restart f) ops' = Some (f', vs') ->
  exists s' s'', argo_reset_coherence c pl s = Ok s' /\ fresh c s' /\ globalData s' = globalData s /\
    run_ops c pl s' ops' = Ok (s'', vs').
Proof.
  intros Hc Hdiv Hv Hf Hrun Hwb Hv' Hf'.
  destruct (sim_ops c pl Hc ops flat_init dsm_reset f vs) as (s1 & E1 & Hs); [by apply sim_init|done|done|].
  rewrite Hrun in E1. injection E1 as <-.
  destruct (reset_coherence_ok c pl Hc s Hdiv Hwb) as (s' & E & Hfr & Ed).
  destruct (sim_ops c pl Hc ops' (restart f) s' f' vs') as (s'' & E2 & _); [by apply (sim_restart c pl Hc f s)|done|done|].
  by exists s', s''.
Qed.

(** Node 0 writes to node 1's memory and publishes it; after the reset both nodes
    read it at once. *)
Definition before_reset : list (Z * dsm_op) :=
  [(0, op_store 8200 7 access_write); (1, op_store 8201 8 access_write); (0, op_release); (1, op_acquire)].
Definition after_reset : list (Z * dsm_op) := [(1, op_load 8200 access_read); (0, op_load 8201 access_read)].

Lemma end_state_run c pl ops f vs : cfg_ok c pl -> forallb (op_valid c) ops = true -> flat_ops flat_init ops = Some (f, vs) ->
  run_ops c pl dsm_reset ops = Ok (end_state (run_ops c pl dsm_reset ops), vs).
Proof.
  intros Hc Hv Hf. destruct (sim_ops c pl Hc ops flat_init dsm_reset f vs) as (s & -> & _); [by apply sim_init|done..].
Qed.

Lemma reset_coherence_restarts_witness : exists s' s'',
  argo_reset_coherence demo_dsm demo_pl (end_state (run_ops demo_dsm demo_pl dsm_reset before_reset)) = Ok s' /\
  fresh demo_dsm s' /\
  globalData s' = globalData (end_state (run_ops demo_dsm demo_pl dsm_reset before_reset)) /\
  run_ops demo_dsm demo_pl s' after_reset = Ok (s'', [7; 8]).
Proof.
  eapply (reset_coherence_restarts demo_dsm demo_pl before_reset after_reset _ _ [] [7; 8]).
  - exact demo_cfg_ok.
  - by vm_compute.
  - reflexivity.
  - reflexivity.
  - by eapply end_state_run; [exact demo_cfg_ok|reflexivity|reflexivity].
  - intros r Hr. assert (r = 0 \/ r = 1) as [-> | ->] by (unfold node in Hr; cbn in Hr; lia); vm_compute; reflexivity.
  - reflexivity.
  - reflexivity.
Defined.

(** Both provisos are needed.  The reset marks every slot as clean before its
    barrier flushes the write buffers: with a buffered page the write-back fails its
    assertion.  And with a load size that does not divide the directory it stores
    behind the pages mapped for it. *)
Theorem reset_coherence_fails :
  argo_reset_coherence demo_dsm demo_pl
    (end_state (run_ops demo_dsm demo_pl dsm_reset [(0, op_store 8200 7 access_write)]))
    = Throw (assertion_failed "cacheControl[cache_index].dirty == DIRTY") /\
  argo_reset_coherence odd_config (naive_distribution (dist_of odd_config)) dsm_reset
    = Throw (undefined_behaviour "store behind the directory").
Proof. split; vm_compute; reflexivity. Qed.

(** ** The first-touch directories *)

Lemma load_put_owner d s r n v r' n' :
  load_owner d (put_owner s r n v) r' n' = if decide (r = r' /\ n = n') then v else load_owner d s r' n'.
Proof.
  unfold load_owner, put_owner; simpl. case_decide as E.
  - destruct E as [-> ->]. by rewrite lookup_insert_eq.
  - rewrite lookup_insert_ne; [done|]. intros [= -> ->]. by apply E.
Qed.

(** A node's entries and counters become those of the initial state; the other
    nodes' windows are not touched. *)
Lemma reset_dirs_spec (d : base_distribution) (s : ft_state) (rank : Z) : 0 <= npages d -> 0 <= nodes d ->
  exists s', reset_dirs d s rank = Ok s' /\
    (forall x i, load_owner d s' x i =
       if decide (x = rank /\ 0 <= i < page_info_size * npages d) then load_owner d ft_reset x i else load_owner d s x i) /\
    (forall x n, load_offset s' x n =
       if decide (x = rank /\ 0 <= n < nodes d) then load_offset ft_reset x n else load_offset s x n).
Proof.
  intros Hp Hn. unfold reset_dirs.
  destruct (for_range_ok (page_info_size * npages d) (fun i s => Ok (put_owner s rank i (global_null d)))
    (fun k s1 => offsets_tbl s1 = offsets_tbl s /\ forall x i, load_owner d s1 x i =
       if decide (x = rank /\ 0 <= i < k) then global_null d else load_owner d s x i) s) as (s1 & -> & E1 & E2).
  { unfold page_info_size. lia. }
  { split; [done|]. intros x i. rewrite decide_False; [done|lia]. }
  { intros j s1 Hj [E1 E2]. eexists. split; [done|]. split; [done|]. intros x i. rewrite load_put_owner, E2.
    repeat case_decide; try done; lia. }
  cbn [mbind outcome_bind].
  destruct (for_range_ok (nodes d) (fun n s => Ok (put_offset s rank n 0))
    (fun k s2 => owners_dir s2 = owners_dir s1 /\ forall x n, load_offset s2 x n =
       if decide (x = rank /\ 0 <= n < k) then 0 else load_offset s x n) s1) as (s2 & -> & F1 & F2); [done| | |].
  { split; [done|]. intros x n. rewrite decide_False by lia. unfold load_offset. by rewrite E1. }
  { intros j s2 Hj [F1 F2]. eexists. split; [done|]. split; [done|]. intros x n. rewrite load_put_offset, F2.
    repeat case_decide; try done; lia. }
  exists s2. split; [done|]. split; [|done]. intros x i. rewrite <- E2. unfold load_owner. by rewrite F1.
Qed.
