(* ===== verification/VirtualMemory.v ===== *)
(** * Virtual memory

    The layer between the backend and the operating system: the three
    implementations of [src/src/virtual_memory/virtual_memory.hpp] ([anonymous.cpp],
    [memfd.cpp], [shm.cpp]) and the use [argo_initialize] makes of them.  The
    backend's model takes for granted that a page mapped from slot [idx] of the cache
    is the same memory as [cacheData], and a page mapped from the node's share the
    same memory as [globalData]; the theorem here derives it.

    The system calls are parameters with their documented behaviour as laws. *)

From S2P Require Import Prelude BlockMap DataDistribution FirstTouch GlobalPtr Mem Swdsm SwdsmBase Mempool Env Init.

(** ** The operating system *)

(** What the layer maps pages of: the anonymous mapping it reserves, and the file of
    [memfd.cpp] and [shm.cpp]. *)
Inductive object := Anon | Backing.
#[export] Instance object_eq_dec : EqDecision object.
Proof. solve_decision. Defined.

(** What a page of the address space shows: memory of its own, or page [k] of an
    object. *)
Inductive bpage := Own (v : Z) | Obj (o : object) (k : Z).
#[export] Instance bpage_eq_dec : EqDecision bpage.
Proof. solve_decision. Defined.

(** System calls on the state of the process; [None] is failure.  [sys_reserve] is
    [mmap] of an inaccessible shared anonymous range, [sys_mmap] maps the file,
    [sys_remap] is [remap_file_pages] and [sys_object] the creation and sizing of
    the file. *)
Class Kernel (K : Type) := {
  sys_reserve : K -> Z -> Z -> option K;
  sys_object : K -> Z -> option K;
  sys_mmap : K -> Z -> Z -> protection -> Z -> option K;
  sys_remap : K -> Z -> Z -> Z -> option K;
  sys_mprotect : K -> Z -> Z -> protection -> option K;
  sys_memalign : K -> Z -> Z -> option (Z * K);
  resolve : K -> Z -> bpage;
  in_use : K -> Z -> Prop;
}.

Definition in_range (a n x : Z) : Prop := a <= x < a + n.
(** The pages of a range of whole pages. *)
Definition page_in (a n v : Z) : Prop := in_range a n (v * PAGE_SIZE).

Class KernelLaws (K : Type) `{Kernel K} : Prop := {
  kl_reserve k a n k' : sys_reserve k a n = Some k' ->
    (forall x, in_use k' x <-> in_use k x \/ in_range a n x) /\
    forall v, (page_in a n v -> resolve k' v = Obj Anon (v - a / PAGE_SIZE)) /\ (~ page_in a n v -> resolve k' v = resolve k v);
  kl_object k n k' : sys_object k n = Some k' -> (forall x, in_use k' x <-> in_use k x) /\ forall v, resolve k' v = resolve k v;
  kl_mmap k a n pr o k' : sys_mmap k a n pr o = Some k' -> (PAGE_SIZE | a) -> (PAGE_SIZE | n) -> (PAGE_SIZE | o) ->
    (forall x, in_use k' x <-> in_use k x \/ in_range a n x) /\
    forall v, (page_in a n v -> resolve k' v = Obj Backing (o / PAGE_SIZE + (v - a / PAGE_SIZE))) /\
              (~ page_in a n v -> resolve k' v = resolve k v);
  kl_remap k a n g k' : sys_remap k a n g = Some k' -> (PAGE_SIZE | a) -> (PAGE_SIZE | n) ->
    (forall x, in_use k' x <-> in_use k x) /\
    forall v, (page_in a n v -> resolve k' v = Obj Anon (g + (v - a / PAGE_SIZE))) /\ (~ page_in a n v -> resolve k' v = resolve k v);
  kl_mprotect k a n pr k' : sys_mprotect k a n pr = Some k' ->
    (forall x, in_use k' x <-> in_use k x) /\ forall v, resolve k' v = resolve k v;
  (** memory the process did not use, with contents of its own *)
  kl_memalign k al n p k' : sys_memalign k al n = Some (p, k') ->
    (al | p) /\ (forall x, in_range p n x -> ~ in_use k x) /\ (forall x, in_use k' x <-> in_use k x \/ in_range p n x) /\
    forall v, (page_in p n v -> resolve k' v = Own v) /\ (~ page_in p n v -> resolve k' v = resolve k v);
}.

Definition ARGO_VM_START : Z := 0x355555554000.
Definition ARGO_VM_SIZE : Z := 0x200000000000.

Definition vm_error {A} (what : string) : outcome A := Throw (system_error what).
Definition sys {A} (what : string) (r : option A) : outcome A := match r with Some a => Ok a | None => vm_error what end.
Definition msg_main_mmap_fail : string := "ArgoDSM failed to set up virtual memory. Please report a bug.".
Definition msg_insufficient_memory : string := "ArgoDSM anonymous mappable memory is insufficient.".
Definition msg_mprotect_fail : string := "ArgoDSM could not mprotect anonymous mapping".
Definition msg_invalid_remap : string := "ArgoDSM encountered an invalid mapping attempt in virtual address space".
Definition msg_alloc_fail : string := "ArgoDSM could not allocate mappable memory".
Definition msg_mmap_fail : string := "ArgoDSM failed to map in virtual address space.".

(** ** The interface [virtual_memory.hpp] *)
Record virtual_memory (S : Type) := VirtualMemory {
  vm_start_address : S -> Z;
  vm_size : S -> Z;
  vm_allocate_mappable : S -> Z -> Z -> outcome (Z * S);
  vm_map_memory : S -> Z -> Z -> Z -> protection -> outcome S;
}.
Arguments vm_start_address {S}.
Arguments vm_size {S}.
Arguments vm_allocate_mappable {S}.
Arguments vm_map_memory {S}.

(** ** anonymous.cpp *)
Module Anonymous.
Section Impl.

Context {K : Type} `{Kernel K}.

Record state := State { kernel : K; backing_addr : Z; backing_offset : Z; file_offset : Z }.

Definition init (k : K) : outcome state :=
  k ← sys msg_main_mmap_fail (sys_reserve k ARGO_VM_START ARGO_VM_SIZE);
  let virtual_addr := ARGO_VM_START + ARGO_VM_SIZE / 2 in
  Ok {| kernel := k; backing_addr := ARGO_VM_START; backing_offset := 0; file_offset := sub64 virtual_addr ARGO_VM_START |}.

Definition start_address (s : state) : Z := add64 (backing_addr s) (file_offset s).
Definition size (s : state) : Z := ARGO_VM_SIZE / 4.

Definition allocate_mappable (s : state) (alignment sz : Z) : outcome (Z * state) :=
  let offset := mul64 (sub64 (add64 (backing_offset s) alignment) 1 / alignment) alignment in
  if size s <? offset then vm_error msg_insufficient_memory
  else
    let r := add64 (backing_addr s) offset in
    k ← sys msg_mprotect_fail (sys_mprotect (kernel s) r sz PROT_RW);
    Ok (r, {| kernel := k; backing_addr := backing_addr s; backing_offset := add64 offset sz; file_offset := file_offset s |}).

Definition map_memory (s : state) (addr sz offset : Z) (prot : protection) : outcome state :=
  k ← sys msg_invalid_remap (sys_remap (kernel s) addr sz (add64 (file_offset s) offset / PAGE_SIZE));
  k ← sys msg_mprotect_fail (sys_mprotect k addr sz prot);
  Ok {| kernel := k; backing_addr := backing_addr s; backing_offset := backing_offset s; file_offset := file_offset s |}.

Definition impl : virtual_memory state := {|
  vm_start_address := start_address; vm_size := size;
  vm_allocate_mappable := allocate_mappable; vm_map_memory := map_memory |}.

End Impl.
Arguments state : clear implicits.
End Anonymous.

(** ** memfd.cpp and shm.cpp

    They differ in how they make the file and in what [size] returns: half of the
    range for [memfd.cpp], and the variable [avail] for [shm.cpp]; the field [avail]
    is what [size] returns for both. *)
Module File.
Section Impl.

Context {K : Type} `{Kernel K}.

Record state := State { kernel : K; start_addr : Z; avail : Z }.

Definition memfd_init (k : K) : outcome state :=
  k ← sys msg_main_mmap_fail (sys_object k ARGO_VM_SIZE);
  k ← sys msg_main_mmap_fail (sys_reserve k ARGO_VM_START ARGO_VM_SIZE);
  Ok {| kernel := k; start_addr := ARGO_VM_START; avail := ARGO_VM_SIZE / 2 |}.

(** [bavail] blocks of [bsize] bytes are free in /dev/shm. *)
Definition shm_init (bavail bsize : Z) (k : K) : outcome state :=
  let avail := mul64 bavail bsize in
  let avail := if ARGO_VM_SIZE <? avail then ARGO_VM_SIZE else avail in
  k ← sys msg_main_mmap_fail (sys_object k avail);
  k ← sys msg_main_mmap_fail (sys_reserve k ARGO_VM_START avail);
  Ok {| kernel := k; start_addr := ARGO_VM_START; avail := avail |}.

Definition start_address (s : state) : Z := start_addr s.
Definition size (s : state) : Z := avail s.

Definition allocate_mappable (s : state) (alignment sz : Z) : outcome (Z * state) :=
  '(p, k) ← sys msg_alloc_fail (sys_memalign (kernel s) alignment sz);
  Ok (p, {| kernel := k; start_addr := start_addr s; avail := avail s |}).

Definition map_memory (s : state) (addr sz offset : Z) (prot : protection) : outcome state :=
  k ← sys msg_mmap_fail (sys_mmap (kernel s) addr sz prot offset);
  Ok {| kernel := k; start_addr := start_addr s; avail := avail s |}.

Definition impl : virtual_memory state := {|
  vm_start_address := start_address; vm_size := size;
  vm_allocate_mappable := allocate_mappable; vm_map_memory := map_memory |}.

End Impl.
Arguments state : clear implicits.
End File.

(** ** What the backend relies on

    [shows s v] is what page [v] of the address space shows, [Obj obj (base + k)] page [k]
    of what the offsets of [map_memory] count in, [taken s] the addresses handed out by
    [allocate_mappable]. *)
Definition visible {S} (V : virtual_memory S) (s : S) (x : Z) : Prop := in_range (vm_start_address V s) (vm_size V s) x.

Class VmLaws {S : Type} (V : virtual_memory S) (ok : S -> Prop) (shows : S -> Z -> bpage) (taken : S -> Z -> Prop)
    (obj : object) (base : Z) : Prop := {
  vl_start s : ok s -> (PAGE_SIZE | vm_start_address V s);
  vl_alloc s n p s' : ok s -> 0 <= n <= 2 ^ 43 -> (PAGE_SIZE | n) -> vm_allocate_mappable V s PAGE_SIZE n = Ok (p, s') ->
    ok s' /\ vm_start_address V s' = vm_start_address V s /\ vm_size V s' = vm_size V s /\ (PAGE_SIZE | p) /\
    (forall x, in_range p n x -> ~ taken s x /\ ~ visible V s x) /\
    (forall x, taken s' x <-> taken s x \/ in_range p n x) /\
    forall v, (page_in p n v -> forall k, 0 <= k -> shows s' v ≠ Obj obj (base + k)) /\ (~ page_in p n v -> shows s' v = shows s v);
  vl_map s a n o pr s' : ok s -> (PAGE_SIZE | a) -> (PAGE_SIZE | n) -> (PAGE_SIZE | o) -> 0 <= o <= 2 ^ 60 ->
    (forall x, in_range a n x -> taken s x \/ visible V s x) -> vm_map_memory V s a n o pr = Ok s' ->
    ok s' /\ vm_start_address V s' = vm_start_address V s /\ vm_size V s' = vm_size V s /\ (forall x, taken s' x <-> taken s x) /\
    forall v, (page_in a n v -> shows s' v = Obj obj (base + o / PAGE_SIZE + (v - a / PAGE_SIZE))) /\
              (~ page_in a n v -> shows s' v = shows s v);
}.

Lemma sys_ok {A} what (r : option A) a : sys what r = Ok a -> r = Some a.
Proof. by destruct r; [intros [= ->]|]. Qed.

(** [sys] calls of the context that returned. *)
Ltac inv_sys := inv_ok; repeat match goal with H : sys _ _ = Ok _ |- _ => apply sys_ok in H end.

(** The sizes as numbers, for linear arithmetic. *)
Lemma vm_numbers : ARGO_VM_SIZE / 2 = 2 ^ 44 /\ ARGO_VM_SIZE / 4 = 2 ^ 43 /\ ARGO_VM_SIZE = 2 ^ 45 /\
  ARGO_VM_SIZE / 2 / PAGE_SIZE = 2 ^ 32 /\ ARGO_VM_START / PAGE_SIZE = 14316557652 /\ ARGO_VM_START = 58640620142592.
Proof. done. Qed.
Ltac vm_lia := destruct vm_numbers as (?N1 & ?N2 & ?N3 & ?N4 & ?N5 & ?N6);
  rewrite ?N1, ?N2, ?N3, ?N4, ?N5, ?N6 in *; unfold page_in, in_range, PAGE_SIZE in *; lia.

Section Implementations.

Context {K : Type} `{KernelLaws K}.

(** The lower half of the range is for [allocate_mappable]; what it has not handed
    out yet shows the pages of the mapping in order. *)
Record anonymous_ok (s : Anonymous.state K) : Prop := {
  ao_addr : Anonymous.backing_addr s = ARGO_VM_START;
  ao_file : Anonymous.file_offset s = ARGO_VM_SIZE / 2;
  ao_offset : 0 <= Anonymous.backing_offset s <= ARGO_VM_SIZE / 2;
  ao_page : (PAGE_SIZE | Anonymous.backing_offset s);
  ao_rest v : ARGO_VM_START + Anonymous.backing_offset s <= v * PAGE_SIZE < ARGO_VM_START + ARGO_VM_SIZE / 2 ->
    resolve (Anonymous.kernel s) v = Obj Anon (v - ARGO_VM_START / PAGE_SIZE);
}.

Lemma anonymous_init k s : Anonymous.init k = Ok s -> anonymous_ok s.
Proof using All.
  unfold Anonymous.init. intros E. inv_sys. split; try done; [apply Z.divide_0_r|].
  cbn [Anonymous.backing_offset Anonymous.kernel]. intros v Hv.
  match goal with H : sys_reserve _ _ _ = _ |- _ => apply kl_reserve in H as [_ Hr] end. apply Hr. clear Hr. vm_lia.
Qed.

(** Rounding up an offset that is on a page. *)
Lemma round_up_page o : 0 <= o <= 2 ^ 60 -> (PAGE_SIZE | o) -> mul64 (sub64 (add64 o PAGE_SIZE) 1 / PAGE_SIZE) PAGE_SIZE = o.
Proof.
  intros Ho [q Hq]. unfold PAGE_SIZE in *. rewrite add64_small, sub64_small by lia.
  assert ((o + 4096 - 1) / 4096 = q) as ->; [|rewrite mul64_small; lia].
  symmetry. apply (Z.div_unique _ _ _ 4095); lia.
Qed.

Lemma anonymous_alloc s n p s' : anonymous_ok s -> 0 <= n <= 2 ^ 43 -> (PAGE_SIZE | n) ->
  Anonymous.allocate_mappable s PAGE_SIZE n = Ok (p, s') ->
  Anonymous.backing_offset s <= 2 ^ 43 /\ p = ARGO_VM_START + Anonymous.backing_offset s /\
  Anonymous.backing_addr s' = ARGO_VM_START /\ Anonymous.file_offset s' = ARGO_VM_SIZE / 2 /\
  Anonymous.backing_offset s' = Anonymous.backing_offset s + n /\
  forall v, resolve (Anonymous.kernel s') v = resolve (Anonymous.kernel s) v.
Proof using All.
  intros [E1 E2 E3 E4 _] Hn Hd. unfold Anonymous.allocate_mappable. cbv zeta. rewrite round_up_page by (done || vm_lia).
  unfold Anonymous.size. destruct (Z.ltb_spec (ARGO_VM_SIZE / 4) (Anonymous.backing_offset s)) as [|Hoff]; [done|]. intros E.
  apply outcome_bind_Ok in E as (k & Ek%sys_ok%kl_mprotect & E). injection E as <- <-.
  cbn [Anonymous.backing_addr Anonymous.file_offset Anonymous.backing_offset Anonymous.kernel].
  rewrite E1, !add64_small by vm_lia. split_and!; try done; try vm_lia. apply Ek.
Qed.

#[export] Instance anonymous_laws :
  VmLaws Anonymous.impl anonymous_ok (fun s => resolve (Anonymous.kernel s))
    (fun s => in_range ARGO_VM_START (Anonymous.backing_offset s)) Anon (ARGO_VM_SIZE / 2 / PAGE_SIZE).
Proof using All.
  assert (Hst : forall s : Anonymous.state K, Anonymous.backing_addr s = ARGO_VM_START -> Anonymous.file_offset s = ARGO_VM_SIZE / 2 ->
    Anonymous.start_address s = ARGO_VM_START + ARGO_VM_SIZE / 2).
  { intros s E1 E2. unfold Anonymous.start_address. by rewrite E1, E2. }
  split; cbn [Anonymous.impl vm_start_address vm_size vm_allocate_mappable vm_map_memory].
  - intros s [E1 E2 _ _ _]. rewrite (Hst s E1 E2). by exists (14316557652 + 2 ^ 32).
  - intros s n p s' Hs Hn Hd Ea. pose proof Hs as [E1 E2 E3 E4 E5].
    destruct (anonymous_alloc s n p s' Hs Hn Hd Ea) as (Ho & -> & F1 & F2 & F3 & F4).
    split_and!; [split; try done|by rewrite !Hst|done| | | |].
    + rewrite F3. vm_lia.
    + rewrite F3. by apply Z.divide_add_r.
    + intros v Hv. rewrite F4. apply E5. rewrite F3 in Hv. lia.
    + apply Z.divide_add_r; [by exists 14316557652|done].
    + intros x Hx. unfold visible. cbn [Anonymous.impl vm_start_address vm_size]. rewrite Hst by done. unfold Anonymous.size. split; vm_lia.
    + intros x. rewrite F3. unfold in_range. lia.
    + intros v. rewrite F4. split; [|done]. intros Hv k Hk. rewrite E5 by vm_lia. intros [= E]. vm_lia.
  - intros s a n o pr s' Hs Ha Hn Hod Ho Hin E. pose proof Hs as [E1 E2 E3 E4 E5]. unfold Anonymous.map_memory in E.
    apply outcome_bind_Ok in E as (k1 & Ek1%sys_ok & E). apply outcome_bind_Ok in E as (k2 & Ek2%sys_ok%kl_mprotect & E).
    injection E as <-. apply kl_remap in Ek1 as [_ Hr]; [|done|done]. destruct Ek2 as [_ Hp].
    cbn [Anonymous.kernel Anonymous.backing_addr Anonymous.backing_offset Anonymous.file_offset]. rewrite E2 in *.
    assert (Eo : add64 (ARGO_VM_SIZE / 2) o / PAGE_SIZE = ARGO_VM_SIZE / 2 / PAGE_SIZE + o / PAGE_SIZE).
    { destruct Hod as [q ->]. rewrite add64_small by vm_lia. rewrite Z.div_mul by done.
      replace (ARGO_VM_SIZE / 2) with (2 ^ 32 * PAGE_SIZE) by done. by rewrite <- Z.mul_add_distr_r, !Z.div_mul. }
    rewrite Eo in Hr. split_and!; try done.
    + split; try done. cbn [Anonymous.kernel Anonymous.backing_offset]. intros v Hv. rewrite Hp, (proj2 (Hr v)); [by apply E5|].
      intros Hpg. destruct (Hin (v * PAGE_SIZE) Hpg) as [Ht|Ht]; [vm_lia|]. revert Ht. unfold visible.
      cbn [Anonymous.impl vm_start_address vm_size]. rewrite Hst by done. unfold Anonymous.size. vm_lia.
    + by rewrite !Hst.
    + intros v. rewrite Hp. apply Hr.
Qed.

(** The reserved range is in use, so that no allocation is made there. *)
Record file_ok (s : File.state K) : Prop := {
  fo_start : File.start_addr s = ARGO_VM_START;
  fo_reserved x : in_range ARGO_VM_START (File.avail s) x -> in_use (File.kernel s) x;
}.

Lemma memfd_init_ok k s : File.memfd_init k = Ok s -> file_ok s.
Proof using All.
  unfold File.memfd_init. intros E. inv_sys. split; [done|]. cbn [File.avail File.kernel]. intros y Hy.
  match goal with H : sys_reserve _ _ _ = _ |- _ => apply kl_reserve in H as [Hu _] end. apply Hu. right. vm_lia.
Qed.

Lemma shm_init_ok bavail bsize k s : File.shm_init bavail bsize k = Ok s -> file_ok s.
Proof using All.
  unfold File.shm_init. intros E. inv_sys; (split; [done|]; cbn [File.avail File.kernel]; intros y Hy;
  match goal with H : sys_reserve _ _ _ = _ |- _ => apply kl_reserve in H as [Hu _] end; apply Hu; by right).
Qed.

#[export] Instance file_laws : VmLaws File.impl file_ok (fun s => resolve (File.kernel s)) (fun s => in_use (File.kernel s)) Backing 0.
Proof using All.
  split; cbn [File.impl vm_start_address vm_size vm_allocate_mappable vm_map_memory].
  - intros s [E _]. unfold File.start_address. rewrite E. by exists 14316557652.
  - intros s n p s' [E1 E2] Hn Hd E. unfold File.allocate_mappable in E. apply outcome_bind_Ok in E as ([q k] & Ek%sys_ok & E).
    injection E as -> <-. apply kl_memalign in Ek as (K1 & K2 & K3 & K4). cbn [File.kernel].
    split_and!; try done.
    + split; [done|]. cbn [File.kernel File.avail]. intros x Hx. apply K3. left. by apply E2.
    + intros x Hx. split; [by apply K2|]. unfold visible. cbn [File.impl vm_start_address vm_size]. unfold File.start_address, File.size.
      rewrite E1. intros Hv. by apply (K2 x Hx), E2.
    + intros v. destruct (K4 v) as [K5 K6]. split; [|done]. intros Hv k' _. by rewrite K5.
  - intros s a n o pr s' [E1 E2] Ha Hn Hod Ho Hin E. unfold File.map_memory in E.
    apply outcome_bind_Ok in E as (k & Ek%sys_ok & E). injection E as <-. apply kl_mmap in Ek as [K1 K2]; [|done..].
    cbn [File.kernel]. split_and!; try done.
    + split; [done|]. cbn [File.kernel File.avail]. intros x Hx. apply K1. left. by apply E2.
    + intros x. rewrite K1. split; [|tauto]. intros [?|Hx]; [done|]. destruct (Hin x Hx) as [?|Hv]; [done|]. apply E2.
      revert Hv. unfold visible. cbn [File.impl vm_start_address vm_size]. unfold File.start_address, File.size. by rewrite E1.
Qed.

End Implementations.

(** ** The memory of a node: the allocations and mappings of [argo_initialize] *)
Inductive region := CacheData | CacheControl | GlobalData | PageCopy | GlobalSharers | OwnersDir | OffsetsTbl.
#[export] Instance region_eq_dec : EqDecision region.
Proof. solve_decision. Defined.

Section Setup.

Context {S : Type} (V : virtual_memory S) (c : dsm_config) (f : file_layout) (first_touch : bool).

Definition region_size (rg : region) : Z :=
  match rg with
  | CacheData | PageCopy => mul64 (cachesize c) PAGE_SIZE
  | CacheControl => align_forwards (mul64 sizeof_control_data (cachesize c)) PAGE_SIZE
  | GlobalData => size_of_all c / numtasks c
  | GlobalSharers => align_forwards (mul64 (classificationSize c) 8) PAGE_SIZE
  | OwnersDir => align_forwards (mul64 (mul64 3 (size_of_all c / PAGE_SIZE)) 8) PAGE_SIZE
  | OffsetsTbl => align_forwards (mul64 (numtasks c) 8) PAGE_SIZE
  end.

(** Where a region lies in the backing file; the page copies are not mapped. *)
Definition region_offset (rg : region) : Z :=
  match rg with
  | CacheData | PageCopy => f_cacheData f
  | CacheControl => f_cacheControl f
  | GlobalData => f_globalData f
  | GlobalSharers => f_globalSharers f
  | OwnersDir => f_owners_dir f
  | OffsetsTbl => f_offsets_tbl f
  end.

Definition alloc_order : list region :=
  [GlobalData; CacheData; CacheControl; PageCopy; GlobalSharers] ++ (if first_touch then [OwnersDir; OffsetsTbl] else []).
Definition map_order : list region :=
  [CacheData; CacheControl; GlobalData; GlobalSharers] ++ (if first_touch then [OwnersDir; OffsetsTbl] else []).

Definition allocate_regions (s : S) : outcome (S * (region -> Z)) :=
  for_each alloc_order (fun rg '(s, addr) =>
    '(p, s) ← vm_allocate_mappable V s PAGE_SIZE (region_size rg);
    Ok (s, fun rg' => if decide (rg' = rg) then p else addr rg')) (s, fun _ => 0).

Definition map_regions (s : S) (addr : region -> Z) : outcome S :=
  for_each map_order (fun rg s => vm_map_memory V s (addr rg) (region_size rg) (region_offset rg) PROT_RW) s.

Definition setup_memory (s : S) : outcome (S * (region -> Z)) :=
  '(s, addr) ← allocate_regions s;
  s ← map_regions s addr;
  Ok (s, addr).

End Setup.

(** ** The layout of the backing file *)
Record layout_ok (c : dsm_config) (f : file_layout) (ft : bool) : Prop := {
  lo_slots : 0 <= cachesize c <= 2 ^ 31;
  lo_size rg : 0 <= region_size c rg <= 2 ^ 43 /\ (PAGE_SIZE | region_size c rg);
  lo_cache : f_cacheData f = 0 /\ f_cacheControl f = region_size c CacheData /\
    f_globalData f = f_cacheControl f + region_size c CacheControl /\
    f_globalSharers f = f_globalData f + region_size c GlobalData /\ cacheoffset f = f_globalData f;
  lo_first_touch : ft = true -> f_owners_dir f = f_globalSharers f + region_size c GlobalSharers /\
    f_offsets_tbl f = f_owners_dir f + region_size c OwnersDir;
}.

Lemma aligned_size k : 0 <= k <= 2 ^ 42 -> 0 <= align_forwards k PAGE_SIZE <= 2 ^ 43 /\ (PAGE_SIZE | align_forwards k PAGE_SIZE).
Proof. intros Hk. destruct (align_forwards_spec k PAGE_SIZE) as [H1 H2]; unfold PAGE_SIZE in *; [lia..|]. split; [lia|done]. Qed.

Lemma mul64_comm a b : mul64 a b = mul64 b a.
Proof. unfold mul64. by rewrite Z.mul_comm. Qed.

Lemma region_sizes c : 1 <= numtasks c <= 64 -> 0 <= cachesize c <= 2 ^ 30 + 2 -> 0 <= size_of_all c <= 2 ^ 42 ->
  (PAGE_SIZE | size_of_all c / numtasks c) -> forall rg, 0 <= region_size c rg <= 2 ^ 43 /\ (PAGE_SIZE | region_size c rg).
Proof.
  intros Hn Hc Hs Hd rg. assert (Hpg : 0 <= size_of_all c / PAGE_SIZE <= 2 ^ 30).
  { unfold PAGE_SIZE. split; [apply Z.div_pos; lia|apply Z.div_le_upper_bound; lia]. }
  assert (Hch : 0 <= size_of_all c / numtasks c <= 2 ^ 42) by (split; [apply Z.div_pos; lia|apply Z.div_le_upper_bound; nia]).
  unfold region_size, classificationSize, sizeof_control_data. rewrite (mul64_small 3) by lia.
  destruct rg; rewrite ?mul64_small by (unfold PAGE_SIZE in *; lia);
    try (apply aligned_size; unfold PAGE_SIZE in *; lia); [|split; [lia|done]|]; (split; [unfold PAGE_SIZE; lia|by exists (cachesize c)]).
Qed.

Lemma init_layout s n start request cache : within_limits s n start request -> 0 <= cache ->
  let '(c, f) := argo_initialize s n start request cache in
  layout_ok c f (is_first_touch_policy (value_allocation_policy s)).
Proof.
  intros H Hc. destruct (standard_size_spec s n start request H) as (Hs & Hge & _).
  destruct (init_space s n start request cache H) as [_ Hshare]. simpl in Hshare.
  destruct (wl_memory _ _ _ _ H) as [Hr0 _]. assert (Hn : 1 <= n <= 64) by apply H.
  assert (Hcp : 0 <= cache_pages (standard_size s n request) cache <= 2 ^ 30 + 2).
  { unfold cache_pages, PAGE_SIZE, CACHELINE.
    destruct (align_forwards_spec (Z.min (standard_size s n request) cache) (4096 * 1)) as [H1 _]; [lia..|].
    split; [apply Z.div_pos; lia|]. apply Z.div_le_upper_bound; lia. }
  pose proof (region_sizes (fst (argo_initialize s n start request cache)) Hn Hcp ltac:(simpl; lia) Hshare) as Hsz.
  destruct (argo_initialize s n start request cache) as [c f] eqn:E. simpl in Hsz. unfold argo_initialize in E. cbv zeta in E.
  pose proof (Hsz CacheData) as [B1 _]. pose proof (Hsz CacheControl) as [B2 _]. pose proof (Hsz GlobalData) as [B3 _].
  pose proof (Hsz GlobalSharers) as [B4 _]. pose proof (Hsz OwnersDir) as [B5 _].
  injection E as <- <-. split; [cbn [cachesize]; lia|exact Hsz|..]; cbn [f_cacheData f_cacheControl f_globalData f_globalSharers f_owners_dir f_offsets_tbl cacheoffset];
    unfold region_size, classificationSize in *; cbn [cachesize numtasks size_of_all] in *;
    rewrite (mul64_comm PAGE_SIZE), ?(mul64_small 2) by (unfold PAGE_SIZE; pose proof (Z.div_pos (standard_size s n request) 4096 ltac:(lia) ltac:(done));
      pose proof (Z.div_le_upper_bound (standard_size s n request) 4096 (2 ^ 30) ltac:(done) ltac:(lia)); lia).
  - by unwrap.
  - intros ->. by unwrap.
Qed.

(** ** The memory after the set-up *)
Section Client.

Context {S : Type} (V : virtual_memory S) (ok : S -> Prop) (shows : S -> Z -> bpage) (taken : S -> Z -> Prop) (obj : object) (base : Z)
  `{!VmLaws V ok shows taken obj base} (c : dsm_config) (f : file_layout) (ft : bool) (HL : layout_ok c f ft).

Abbreviation rsize := (region_size c).
Abbreviation roff := (region_offset f).

Lemma offset_ok rg : rg ∈ map_order ft -> (PAGE_SIZE | roff rg) /\ 0 <= roff rg <= 2 ^ 60.
Proof using HL.
  intros Hin. destruct HL as [_ Hs (E0 & E1 & E2 & E3 & _) E4].
  pose proof (Hs CacheData) as [B1 D1]. pose proof (Hs CacheControl) as [B2 D2]. pose proof (Hs GlobalData) as [B3 D3].
  pose proof (Hs GlobalSharers) as [B5 D5]. pose proof (Hs OwnersDir) as [B6 D6].
  assert (G1 : (PAGE_SIZE | f_globalData f)) by (rewrite E2, E1; by apply Z.divide_add_r).
  assert (G2 : (PAGE_SIZE | f_globalSharers f)) by (rewrite E3; by apply Z.divide_add_r).
  destruct rg; cbn [region_offset]; try (split; [done|lia]).
  - rewrite E0. split; [apply Z.divide_0_r|lia].
  - rewrite E1. split; [done|lia].
  - rewrite E0. split; [apply Z.divide_0_r|lia].
  - destruct ft; [|apply (bool_decide_pack _) in Hin; by vm_compute in Hin]. destruct E4 as [E4 E5]; [done|].
    rewrite E4. split; [by apply Z.divide_add_r|lia].
  - destruct ft; [|apply (bool_decide_pack _) in Hin; by vm_compute in Hin]. destruct E4 as [E4 E5]; [done|].
    rewrite E5, E4. split; [by repeat apply Z.divide_add_r|lia].
Qed.

(** The mapped regions are apart in the file. *)
Lemma offsets_apart rg rg' : rg ∈ map_order ft -> rg' ∈ map_order ft -> rg ≠ rg' ->
  roff rg + rsize rg <= roff rg' \/ roff rg' + rsize rg' <= roff rg.
Proof using HL.
  intros H1 H2 Hne. destruct HL as [_ Hs (E0 & E1 & E2 & E3 & _) E4].
  pose proof (Hs CacheData) as [B1 _]. pose proof (Hs CacheControl) as [B2 _]. pose proof (Hs GlobalData) as [B3 _].
  pose proof (Hs GlobalSharers) as [B5 _]. pose proof (Hs OwnersDir) as [B6 _]. pose proof (Hs OffsetsTbl) as [B7 _].
  assert (Hnp : PageCopy ∉ map_order ft) by (destruct ft; apply (bool_decide_unpack _); by vm_compute).
  destruct ft.
  - destruct E4 as [E4 E5]; [done|]. destruct rg, rg'; try done; cbn [region_offset]; lia.
  - assert (Hno : (OwnersDir ∉ map_order false) /\ (OffsetsTbl ∉ map_order false)) by (split; apply (bool_decide_unpack _); by vm_compute).
    destruct rg, rg'; try done; try tauto; cbn [region_offset]; lia.
Qed.

(** After the allocations [L]. *)
Record allocated (s0 : S) (L : list region) (s : S) (addr : region -> Z) : Prop := {
  al_ok : ok s;
  al_start : vm_start_address V s = vm_start_address V s0 /\ vm_size V s = vm_size V s0;
  al_page rg : rg ∈ L -> (PAGE_SIZE | addr rg);
  al_taken rg x : rg ∈ L -> in_range (addr rg) (rsize rg) x -> taken s x /\ ~ visible V s0 x;
  al_apart rg rg' x : rg ∈ L -> rg' ∈ L -> rg ≠ rg' -> in_range (addr rg) (rsize rg) x -> ~ in_range (addr rg') (rsize rg') x;
  al_own rg v k : rg ∈ L -> page_in (addr rg) (rsize rg) v -> 0 <= k -> shows s v ≠ Obj obj (base + k);
}.

Lemma allocate_regions_ok s0 s addr : ok s0 -> allocate_regions V c ft s0 = Ok (s, addr) -> allocated s0 (alloc_order ft) s addr.
Proof using HL VmLaws0.
  intros Hok. unfold allocate_regions.
  apply (for_each_prefix _ (fun L '(s, addr) => allocated s0 L s addr) (alloc_order ft) (s0, fun _ => 0) (s, addr)).
  { split; try done; intros rg *; by intros ?%elem_of_nil. }
  intros L rg0 L2 [s1 addr1] [s2 addr2] El [A1 [A2 A2'] A3 A4 A5 A6] E.
  assert (Hnew : rg0 ∉ L).
  { assert (Hnd : NoDup (alloc_order ft)) by (destruct ft; apply (bool_decide_unpack _); by vm_compute).
    rewrite El in Hnd. apply NoDup_app in Hnd as (_ & Hnd & _). intros Hin. by apply (Hnd rg0 Hin); left. }
  apply outcome_bind_Ok in E as ([p s3] & Ea & E). injection E as -> <-.
  destruct (lo_size _ _ _ HL rg0) as [Hsz Hd].
  destruct (vl_alloc s1 (rsize rg0) p s2 A1 Hsz Hd Ea) as (B1 & B2 & B2' & B3 & B4 & B5 & B6).
  assert (Hold : forall rg, rg ∈ L -> rg ≠ rg0) by (intros rg Hin ->; done).
  split; try done.
  - split; congruence.
  - intros rg [Hin|Hin%list_elem_of_singleton]%elem_of_app; [rewrite decide_False by auto|rewrite decide_True by done]; auto.
  - intros rg x [Hin|Hin%list_elem_of_singleton]%elem_of_app.
    + rewrite decide_False by auto. intros Hx. destruct (A4 rg x Hin Hx). split; [apply B5; by left|done].
    + subst rg. rewrite decide_True by done. intros Hx. split; [apply B5; by right|]. unfold visible. rewrite <- A2, <- A2'. by apply B4.
  - intros rg rg' x [Hin|Hin%list_elem_of_singleton]%elem_of_app [Hin'|Hin'%list_elem_of_singleton]%elem_of_app Hne.
    + rewrite !decide_False by auto. by apply A5.
    + subst rg'. rewrite decide_False, decide_True by auto. intros Hx Hx'. apply (proj1 (B4 x Hx')). by apply (A4 rg).
    + subst rg. rewrite decide_True, decide_False by auto. intros Hx Hx'. apply (proj1 (B4 x Hx)). by apply (A4 rg').
    + congruence.
  - intros rg v k [Hin|Hin%list_elem_of_singleton]%elem_of_app.
    + rewrite decide_False by auto. intros Hv Hk. rewrite (proj2 (B6 v)); [by apply (A6 rg)|]. intros Hv'.
      apply (proj1 (B4 _ Hv')). by apply (A4 rg (v * PAGE_SIZE) Hin).
    + subst rg. rewrite decide_True by done. intros Hv. by apply B6.
Qed.

(** After the mappings: the regions show their part of the file, the page copies
    none of it, and all lie outside of the visible range. *)
Record node_memory (addr : region -> Z) (s : S) : Prop := {
  nm_ok : ok s;
  nm_page rg : rg ∈ alloc_order ft -> (PAGE_SIZE | addr rg);
  nm_taken rg x : rg ∈ alloc_order ft -> in_range (addr rg) (rsize rg) x -> taken s x /\ ~ visible V s x;
  nm_file rg v : rg ∈ map_order ft -> page_in (addr rg) (rsize rg) v ->
    shows s v = Obj obj (base + roff rg / PAGE_SIZE + (v - addr rg / PAGE_SIZE));
  nm_copy v k : page_in (addr PageCopy) (rsize PageCopy) v -> 0 <= k -> shows s v ≠ Obj obj (base + k);
}.

Lemma map_alloc_order rg : rg ∈ map_order ft -> rg ∈ alloc_order ft.
Proof using. clear HL. destruct rg; destruct ft; intros H%(bool_decide_pack _); apply (bool_decide_unpack _); by vm_compute in *. Qed.

Lemma map_regions_ok s0 s1 s addr : allocated s0 (alloc_order ft) s1 addr -> map_regions V c f ft s1 addr = Ok s ->
  node_memory addr s /\ vm_start_address V s = vm_start_address V s1 /\ vm_size V s = vm_size V s1.
Proof using HL VmLaws0.
  intros [A1 [A2 A2'] A3 A4 A5 A6] E.
  cut (ok s /\ (vm_start_address V s = vm_start_address V s1 /\ vm_size V s = vm_size V s1) /\ (forall x, taken s x <-> taken s1 x) /\
    (forall rg v, rg ∈ map_order ft -> page_in (addr rg) (rsize rg) v ->
       shows s v = Obj obj (base + roff rg / PAGE_SIZE + (v - addr rg / PAGE_SIZE))) /\
    forall v, (forall rg, rg ∈ map_order ft -> ~ page_in (addr rg) (rsize rg) v) -> shows s v = shows s1 v).
  { intros (B1 & [B2 B2'] & B3 & B4 & B5). split; [|done]. split; try done.
    - intros rg x Hin Hx. destruct (A4 rg x Hin Hx). split; [by apply B3|]. unfold visible. by rewrite B2, B2', A2, A2'.
    - intros v k Hv Hk. assert (Hc : PageCopy ∈ alloc_order ft) by (by destruct ft; apply (bool_decide_unpack _); vm_compute).
      rewrite B5; [by apply (A6 PageCopy)|]. intros rg Hin Hv'. refine (A5 PageCopy rg _ Hc (map_alloc_order rg Hin) _ Hv Hv').
      intros <-. by destruct ft; apply (bool_decide_pack _) in Hin; vm_compute in Hin. }
  revert E. unfold map_regions.
  apply (for_each_prefix _ (fun M s => ok s /\ (vm_start_address V s = vm_start_address V s1 /\ vm_size V s = vm_size V s1) /\
    (forall x, taken s x <-> taken s1 x) /\ (forall rg v, rg ∈ M -> page_in (addr rg) (rsize rg) v ->
       shows s v = Obj obj (base + roff rg / PAGE_SIZE + (v - addr rg / PAGE_SIZE))) /\
    forall v, (forall rg, rg ∈ M -> ~ page_in (addr rg) (rsize rg) v) -> shows s v = shows s1 v) (map_order ft) s1 s).
  { split_and!; try done. intros rg v H%elem_of_nil. done. }
  intros M rg0 M2 s2 s3 El (B1 & [B2 B2'] & B3 & B4 & B5) E. assert (Hrg : rg0 ∈ map_order ft) by (rewrite El; apply elem_of_app; right; left).
  pose proof (map_alloc_order rg0 Hrg) as Hrg'. destruct (offset_ok rg0 Hrg) as [O1 O2].
  destruct (vl_map s2 (addr rg0) (rsize rg0) (roff rg0) PROT_RW s3) as (C1 & C2 & C2' & C3 & C4); try done.
  { by apply A3. } { apply HL. } { intros x Hx. left. apply B3. by apply (A4 rg0). }
  assert (Hother : forall rg v, rg ∈ M -> page_in (addr rg) (rsize rg) v -> ~ page_in (addr rg0) (rsize rg0) v).
  { intros rg v Hin Hv. apply (A5 rg rg0); try done.
    - apply map_alloc_order. rewrite El. apply elem_of_app. by left.
    - intros ->. assert (Hnd : NoDup (map_order ft)) by (destruct ft; apply (bool_decide_unpack _); by vm_compute).
      rewrite El in Hnd. apply NoDup_app in Hnd as (_ & Hnd & _). by apply (Hnd rg0 Hin); left. }
  split_and!; try done; try congruence.
  - intros x. by rewrite C3, B3.
  - intros rg v [Hin|Hin%list_elem_of_singleton]%elem_of_app Hv.
    + rewrite (proj2 (C4 v)); [by apply B4|by apply (Hother rg)].
    + subst rg. by apply C4.
  - intros v Hv. rewrite (proj2 (C4 v)).
    + apply B5. intros rg Hin. apply Hv, elem_of_app. by left.
    + apply Hv, elem_of_app. right. by apply list_elem_of_singleton.
Qed.

(** *** The mappings of the fault handler *)

(** Where in the file a page of the given backing lies, and at which address the
    runtime itself has that page. *)
Definition file_place (b : backing) : Z :=
  match b with BReserved => 0 | BCache idx => PAGE_SIZE * idx | BHome off => add64 (cacheoffset f) off end.
Definition runtime_addr (addr : region -> Z) (b : backing) : Z :=
  match b with BReserved => 0 | BCache idx => addr CacheData + idx * PAGE_SIZE | BHome off => addr GlobalData + off end.

Definition backing_valid (b : backing) : Prop :=
  match b with
  | BReserved => False
  | BCache idx => 0 <= idx < cachesize c
  | BHome off => 0 <= off /\ off + PAGE_SIZE <= size_of_all c / numtasks c /\ (PAGE_SIZE | off)
  end.

Definition map_pages (s : S) (ms : list (Z * backing * protection)) : outcome S :=
  for_each ms (fun '(p, b, pr) s => vm_map_memory V s (vm_start_address V s + p) PAGE_SIZE (file_place b) pr) s.

(** The mapping a page got last. *)
Fixpoint last_mapping (ms : list (Z * backing * protection)) (p : Z) : option backing :=
  match ms with
  | [] => None
  | (q, b, _) :: ms =>
    match last_mapping ms p with Some b' => Some b' | None => if q =? p then Some b else None end
  end.

Lemma last_mapping_snoc ms q b pr p :
  last_mapping (ms ++ [(q, b, pr)]) p = if q =? p then Some b else last_mapping ms p.
Proof.
  induction ms as [|[[q' b'] pr'] ms IH]; simpl; [by destruct (q =? p)|]. rewrite IH. by destruct (q =? p).
Qed.

Lemma file_place_ok b : backing_valid b -> (PAGE_SIZE | file_place b) /\ 0 <= file_place b <= 2 ^ 60.
Proof using HL.
  destruct HL as [Hsl Hs (E0 & E1 & E2 & E3 & E4) _]. pose proof (Hs CacheData) as [B1 D1]. pose proof (Hs CacheControl) as [B2 D2].
  pose proof (Hs GlobalData) as [B3 D3]. destruct b as [|idx|off]; cbn [backing_valid file_place]; [done| |].
  - intros Hi. split; [by exists idx; ring|]. unfold PAGE_SIZE in *. lia.
  - intros (Ho & Hoe & Hod). unfold region_size in B3. assert (0 < PAGE_SIZE) by done. rewrite add64_small, E4, E2, E1 by lia.
    split; [|lia]. apply Z.divide_add_r; [by apply Z.divide_add_r|done].
Qed.

(** The runtime's own address of a page shows the same page of the file. *)
Lemma runtime_shows addr s b : node_memory addr s -> backing_valid b ->
  (PAGE_SIZE | runtime_addr addr b) /\ ~ visible V s (runtime_addr addr b) /\
  shows s (runtime_addr addr b / PAGE_SIZE) = Obj obj (base + file_place b / PAGE_SIZE).
Proof using HL.
  intros [N1 N2 N3 N4 _] Hb. pose proof (file_place_ok b Hb) as [F1 F2].
  assert (M1 : CacheData ∈ map_order ft) by (clear; destruct ft; apply (bool_decide_unpack _); by vm_compute).
  assert (M2 : GlobalData ∈ map_order ft) by (clear; destruct ft; apply (bool_decide_unpack _); by vm_compute).
  destruct HL as [Hsl Hs (E0 & E1 & E2 & E3 & E4) _]. assert (0 < PAGE_SIZE) by done.
  destruct b as [|idx|off]; cbn [backing_valid runtime_addr file_place] in *; [done| |].
  - destruct (N2 CacheData (map_alloc_order _ M1)) as [q Hq]. assert (Hr : region_size c CacheData = cachesize c * PAGE_SIZE).
    { unfold region_size. apply mul64_small. unfold PAGE_SIZE. lia. }
    assert (Hin : in_range (addr CacheData) (rsize CacheData) (addr CacheData + idx * PAGE_SIZE)) by (rewrite Hr; unfold in_range; nia).
    assert (Hv : (addr CacheData + idx * PAGE_SIZE) / PAGE_SIZE * PAGE_SIZE = addr CacheData + idx * PAGE_SIZE).
    { rewrite Hq, <- Z.mul_add_distr_r, Z.div_mul by done. done. }
    split_and!.
    + rewrite Hq, <- Z.mul_add_distr_r. by eexists.
    + by apply (N3 CacheData); [apply map_alloc_order|].
    + rewrite (N4 CacheData); [|done|unfold page_in; by rewrite Hv]. cbn [region_offset]. rewrite E0, Z.div_0_l by done.
      rewrite Hq, <- Z.mul_add_distr_r, !Z.div_mul, (Z.mul_comm PAGE_SIZE), Z.div_mul by done. f_equal. lia.
  - destruct Hb as (Ho & Hoe & [k Hk]). destruct (N2 GlobalData (map_alloc_order _ M2)) as [q Hq].
    assert (Hin : in_range (addr GlobalData) (rsize GlobalData) (addr GlobalData + off)) by (unfold in_range, region_size; lia).
    assert (Hv : (addr GlobalData + off) / PAGE_SIZE * PAGE_SIZE = addr GlobalData + off).
    { rewrite Hq, Hk, <- Z.mul_add_distr_r, Z.div_mul by done. done. }
    destruct (offset_ok GlobalData M2) as [[g Hg] Hgb]. cbn [region_offset] in *.
    pose proof (Hs GlobalData) as [B3 _]. unfold region_size in B3. split_and!.
    + rewrite Hq, Hk, <- Z.mul_add_distr_r. by eexists.
    + by apply (N3 GlobalData); [apply map_alloc_order|].
    + rewrite (N4 GlobalData); [|done|unfold page_in; by rewrite Hv]. cbn [region_offset]. rewrite E4, add64_small by lia.
      rewrite Hq, Hk, Hg, <- !Z.mul_add_distr_r, !Z.div_mul by done. f_equal. lia.
Qed.

Definition page_valid (s : S) (p : Z) : Prop := 0 <= p /\ p + PAGE_SIZE <= vm_size V s /\ (PAGE_SIZE | p).

(** Mapping a visible page touches no other page. *)
Lemma map_visible addr s p b pr s' : node_memory addr s -> page_valid s p -> backing_valid b ->
  vm_map_memory V s (vm_start_address V s + p) PAGE_SIZE (file_place b) pr = Ok s' ->
  node_memory addr s' /\ vm_start_address V s' = vm_start_address V s /\ vm_size V s' = vm_size V s /\
  forall v, shows s' v = if decide (v = (vm_start_address V s + p) / PAGE_SIZE) then Obj obj (base + file_place b / PAGE_SIZE) else shows s v.
Proof using HL VmLaws0.
  intros Hm (Hp0 & Hp1 & Hpd) Hb E. pose proof Hm as [N1 N2 N3 N4 N5]. destruct (file_place_ok b Hb) as [F1 F2].
  destruct (vl_start s N1) as [q Hq]. destruct Hpd as [k Hk]. assert (Hps : 0 < PAGE_SIZE) by done.
  assert (Hd : (vm_start_address V s + p) / PAGE_SIZE = q + k) by (rewrite Hq, Hk, <- Z.mul_add_distr_r, Z.div_mul; done).
  destruct (vl_map s (vm_start_address V s + p) PAGE_SIZE (file_place b) pr s') as (C1 & C2 & C3 & C4 & C5); try done.
  { rewrite Hq, Hk, <- Z.mul_add_distr_r. by eexists. } { intros x Hx. right. unfold visible, in_range in *. lia. }
  assert (Hpg : forall v, page_in (vm_start_address V s + p) PAGE_SIZE v <-> v = q + k).
  { intros v. unfold page_in, in_range. rewrite Hq, Hk. nia. }
  assert (Hreg : forall rg v, rg ∈ alloc_order ft -> page_in (addr rg) (rsize rg) v -> v ≠ q + k).
  { intros rg v Hrg Hv Ev. apply (proj2 (N3 rg _ Hrg Hv)). unfold visible, in_range. rewrite Ev, Hq. nia. }
  assert (Hsh : forall v, shows s' v = if decide (v = q + k) then Obj obj (base + file_place b / PAGE_SIZE) else shows s v).
  { intros v. destruct (C5 v) as [C6 C7]. case_decide as Ev; [|by apply C7; rewrite Hpg].
    rewrite C6 by (by rewrite Hpg). rewrite Hd, Ev. f_equal. lia. }
  rewrite Hd. split; [|by split_and!]. split; try done.
  - intros rg x Hrg Hx. unfold visible. rewrite C2, C3, C4. by apply (N3 rg).
  - intros rg v Hrg Hv. rewrite Hsh, decide_False; [by apply N4|]. by apply (Hreg rg); [apply map_alloc_order|].
  - intros v i Hv. rewrite Hsh, decide_False; [by apply N5|]. apply (Hreg PageCopy); [|done].
    clear. destruct ft; apply (bool_decide_unpack _); by vm_compute.
Qed.

Lemma map_pages_ok addr s1 s ms : node_memory addr s1 ->
  Forall (fun '(p, b, _) => page_valid s1 p /\ backing_valid b) ms -> map_pages s1 ms = Ok s ->
  node_memory addr s /\ vm_start_address V s = vm_start_address V s1 /\
  forall p b, last_mapping ms p = Some b -> backing_valid b /\ (PAGE_SIZE | p) /\
    shows s ((vm_start_address V s + p) / PAGE_SIZE) = Obj obj (base + file_place b / PAGE_SIZE).
Proof using HL VmLaws0.
  intros Hm Hms E.
  cut (node_memory addr s /\ (vm_start_address V s = vm_start_address V s1 /\ vm_size V s = vm_size V s1) /\
    forall p b, last_mapping ms p = Some b -> backing_valid b /\ (PAGE_SIZE | p) /\
      shows s ((vm_start_address V s + p) / PAGE_SIZE) = Obj obj (base + file_place b / PAGE_SIZE)); [tauto|].
  revert E. unfold map_pages. apply (for_each_prefix _ (fun L s => node_memory addr s /\
    (vm_start_address V s = vm_start_address V s1 /\ vm_size V s = vm_size V s1) /\
    forall p b, last_mapping L p = Some b -> backing_valid b /\ (PAGE_SIZE | p) /\
      shows s ((vm_start_address V s + p) / PAGE_SIZE) = Obj obj (base + file_place b / PAGE_SIZE)) ms s1 s); [done|].
  intros L [[p b] pr] L2 s2 s3 El (A1 & [A2 A3] & A4) E. rewrite El in Hms.
  apply Forall_app in Hms as [_ [[Hp Hb] _]%Forall_cons].
  assert (Hp2 : page_valid s2 p) by (unfold page_valid in *; by rewrite A3).
  destruct (map_visible addr s2 p b pr s3 A1 Hp2 Hb E) as (B1 & B2 & B3 & B4). split_and!; [done|congruence..|].
  destruct (vl_start s2 (nm_ok _ _ A1)) as [q Hq]. destruct Hp as (_ & _ & [k Hk]). assert (Hps : 0 < PAGE_SIZE) by done.
  intros p' b' El'. rewrite last_mapping_snoc in El'. rewrite B2, B4. destruct (Z.eqb_spec p p') as [<-|Hne].
  - injection El' as <-. rewrite decide_True by done. split_and!; [done|by exists k|done].
  - destruct (A4 p' b' El') as (C1 & [k' Hk'] & C3). split_and!; [done|by exists k'|].
    rewrite decide_False; [done|]. rewrite Hq, Hk, Hk', <- !Z.mul_add_distr_r, !Z.div_mul by done. nia.
Qed.

End Client.

(** The byte of memory at an address. *)
Definition cell {S : Type} (shows : S -> Z -> bpage) (s : S) (a : Z) : bpage * Z := (shows s (a / PAGE_SIZE), a mod PAGE_SIZE).

Lemma cell_page {S : Type} (shows : S -> Z -> bpage) s a j : (PAGE_SIZE | a) -> 0 <= j < PAGE_SIZE ->
  cell shows s (a + j) = (shows s (a / PAGE_SIZE), j).
Proof.
  intros [q Hq] Hj. unfold cell. rewrite Hq, (Z.add_comm (q * PAGE_SIZE)), Z.div_add, Z.div_small, Z.mod_add, Z.mod_small, Z.div_mul by done.
  done.
Qed.

Lemma cell_in_region a n x : (PAGE_SIZE | a) -> (PAGE_SIZE | n) -> in_range a n x -> page_in a n (x / PAGE_SIZE).
Proof.
  intros [q ->] [k ->] [H1 H2]. pose proof (Z.div_mod x PAGE_SIZE ltac:(done)). pose proof (Z.mod_pos_bound x PAGE_SIZE ltac:(done)).
  unfold page_in, in_range, PAGE_SIZE in *. lia.
Qed.

Section Distinct.

Context {S : Type} (V : virtual_memory S) (ok : S -> Prop) (shows : S -> Z -> bpage) (taken : S -> Z -> Prop) (obj : object) (base : Z)
  (c : dsm_config) (f : file_layout) (ft : bool) (HL : layout_ok c f ft) (addr : region -> Z) (s : S)
  (Hm : node_memory V ok shows taken obj base c f ft addr s).

Lemma region_page rg x : rg ∈ alloc_order ft -> in_range (addr rg) (region_size c rg) x ->
  page_in (addr rg) (region_size c rg) (x / PAGE_SIZE).
Proof using HL Hm.
  intros Hrg. apply cell_in_region; [by apply (nm_page _ _ _ _ _ _ _ _ _ _ _ Hm)|apply (lo_size _ _ _ HL)].
Qed.

Lemma file_cells_distinct : forall rg rg' x y, rg ∈ map_order ft -> rg' ∈ map_order ft ->
  in_range (addr rg) (region_size c rg) x -> in_range (addr rg') (region_size c rg') y ->
  cell shows s x = cell shows s y -> x = y.
Proof using HL Hm.
  intros rg rg' x y Hrg Hrg' Hx Hy E. injection E as E1 E2.
  pose proof (region_page rg x (map_alloc_order ft rg Hrg) Hx) as Px. pose proof (region_page rg' y (map_alloc_order ft rg' Hrg') Hy) as Py.
  rewrite (nm_file _ _ _ _ _ _ _ _ _ _ _ Hm rg) in E1 by done. rewrite (nm_file _ _ _ _ _ _ _ _ _ _ _ Hm rg') in E1 by done.
  injection E1 as E1.
  destruct (offset_ok c f ft HL rg Hrg) as [[o Ho] _]. destruct (offset_ok c f ft HL rg' Hrg') as [[o' Ho'] _].
  destruct (nm_page _ _ _ _ _ _ _ _ _ _ _ Hm rg (map_alloc_order ft rg Hrg)) as [a Ha].
  destruct (nm_page _ _ _ _ _ _ _ _ _ _ _ Hm rg' (map_alloc_order ft rg' Hrg')) as [a' Ha'].
  unfold page_in, in_range in Px, Py. rewrite Ha, Ho, Ha', Ho', !Z.div_mul in E1 by done. rewrite Ha in Px. rewrite Ha' in Py.
  pose proof (Z.div_mod x PAGE_SIZE ltac:(done)) as Dx. pose proof (Z.div_mod y PAGE_SIZE ltac:(done)) as Dy.
  destruct (decide (rg = rg')) as [<-|Hne].
  + assert (a = a') by (rewrite Ha in Ha'; unfold PAGE_SIZE in Ha'; lia). assert (o = o') by (rewrite Ho in Ho'; unfold PAGE_SIZE in Ho'; lia).
    assert (x / PAGE_SIZE = y / PAGE_SIZE) as Ed by lia. rewrite Ed in Dx. lia.
  + exfalso. pose proof (offsets_apart c f ft HL rg rg' Hrg Hrg' Hne) as Hap. rewrite Ho, Ho' in Hap. unfold PAGE_SIZE in *. lia.
Qed.

Lemma copy_cells_distinct : forall rg x y, rg ∈ map_order ft -> in_range (addr rg) (region_size c rg) x ->
  in_range (addr PageCopy) (region_size c PageCopy) y -> cell shows s x ≠ cell shows s y.
Proof using HL Hm.
  intros rg x y Hrg Hx Hy E. injection E as E1 E2.
  assert (Hc : PageCopy ∈ alloc_order ft) by (clear; destruct ft; apply (bool_decide_unpack _); by vm_compute).
  pose proof (region_page rg x (map_alloc_order ft rg Hrg) Hx) as Px. pose proof (region_page PageCopy y Hc Hy) as Py.
  rewrite (nm_file _ _ _ _ _ _ _ _ _ _ _ Hm rg), <- Z.add_assoc in E1 by done. symmetry in E1. revert E1.
  apply (nm_copy _ _ _ _ _ _ _ _ _ _ _ Hm _ _ Py). destruct (offset_ok c f ft HL rg Hrg) as [_ Hob].
  destruct (nm_page _ _ _ _ _ _ _ _ _ _ _ Hm rg (map_alloc_order ft rg Hrg)) as [a Ha]. rewrite Ha, Z.div_mul by done.
  unfold page_in, in_range in Px. rewrite Ha in Px. pose proof (Z.div_pos (region_offset f rg) PAGE_SIZE ltac:(lia) ltac:(done)).
  unfold PAGE_SIZE in *. lia.
Qed.

End Distinct.

(** C27: the page tables mean what the backend takes them to mean.  On either kind of
    virtual memory, after [argo_initialize] has set up the memory of a node and
    after any sequence of mappings as the fault handler makes them, a page of the
    global memory whose last mapping was slot [idx] of the cache is, byte for byte,
    the memory at [cacheData + idx * PAGE_SIZE], and one mapped to offset [off] of
    the node's share is the memory at [globalData + off].  Different bytes of the
    cache, its control data, the node's share and the directories are different
    memory, and the page copies are none of it. *)
Theorem mappings_alias {S : Type} (V : virtual_memory S) (ok : S -> Prop) (shows : S -> Z -> bpage) (taken : S -> Z -> Prop)
    (obj : object) (base : Z) (st : settings) (n start request cache : Z) (s0 s1 s : S) (addr : region -> Z) (ms : list (Z * backing * protection)) :
  VmLaws V ok shows taken obj base -> ok s0 -> within_limits st n start request -> 0 <= cache ->
  let '(c, f) := argo_initialize st n start request cache in
  let ft := is_first_touch_policy (value_allocation_policy st) in
  setup_memory V c f ft s0 = Ok (s1, addr) ->
  Forall (fun '(p, b, _) => page_valid V s1 p /\ backing_valid c b) ms ->
  map_pages V f s1 ms = Ok s ->
  (forall p b j, last_mapping ms p = Some b -> 0 <= j < PAGE_SIZE ->
     cell shows s (vm_start_address V s + p + j) = cell shows s (runtime_addr addr b + j)) /\
  (forall rg rg' x y, rg ∈ map_order ft -> rg' ∈ map_order ft ->
     in_range (addr rg) (region_size c rg) x -> in_range (addr rg') (region_size c rg') y ->
     cell shows s x = cell shows s y -> x = y) /\
  (forall rg x y, rg ∈ map_order ft -> in_range (addr rg) (region_size c rg) x ->
     in_range (addr PageCopy) (region_size c PageCopy) y -> cell shows s x ≠ cell shows s y).
Proof.
  intros HV Hok Hlim Hcache. pose proof (init_layout st n start request cache Hlim Hcache) as HL.
  destruct (argo_initialize st n start request cache) as [c f]. intros ft Es Hms Em. unfold setup_memory in Es.
  apply outcome_bind_Ok in Es as ([s2 addr2] & Ea & Es). apply outcome_bind_Ok in Es as (s3 & Emap & Es). injection Es as -> ->.
  pose proof (allocate_regions_ok V ok shows taken obj base c f ft HL s0 s2 addr Hok Ea) as Hal.
  destruct (map_regions_ok V ok shows taken obj base c f ft HL s0 s2 s1 addr Hal Emap) as (Hm1 & _).
  destruct (map_pages_ok V ok shows taken obj base c f ft HL addr s1 s ms Hm1 Hms Em) as (Hm & _ & Hlast).
  split_and!.
  - intros p b j El Hj. destruct (Hlast p b El) as (Hb & Hpd & E).
    destruct (runtime_shows V ok shows taken obj base c f ft HL addr s b Hm Hb) as (R1 & _ & R3).
    rewrite !cell_page; try done; [by rewrite E, R3|]. apply Z.divide_add_r; [|done]. by apply (vl_start s), Hm.
  - exact (file_cells_distinct V ok shows taken obj base c f ft HL addr s Hm).
  - exact (copy_cells_distinct V ok shows taken obj base c f ft HL addr s Hm).
Qed.

(** ** A concrete system *)

(** Pages by a function, the ranges in use, and where the heap goes on. *)
Record process := Process { p_pages : Z -> bpage; p_used : list (Z * Z); p_heap : Z }.

Definition set_pages (k : process) (a n : Z) (g : Z -> bpage) : process :=
  {| p_pages := fun v => if bool_decide (page_in a n v) then g v else p_pages k v; p_used := p_used k; p_heap := p_heap k |}.
Definition use (k : process) (a n : Z) : process := {| p_pages := p_pages k; p_used := (a, n) :: p_used k; p_heap := p_heap k |}.

#[export] Instance page_in_dec a n v : Decision (page_in a n v).
Proof. unfold page_in, in_range. apply _. Defined.

#[export] Instance process_kernel : Kernel process := {|
  sys_reserve k a n := Some (use (set_pages k a n (fun v => Obj Anon (v - a / PAGE_SIZE))) a n);
  sys_object k n := Some k;
  sys_mmap k a n pr o := Some (use (set_pages k a n (fun v => Obj Backing (o / PAGE_SIZE + (v - a / PAGE_SIZE)))) a n);
  sys_remap k a n g := Some (set_pages k a n (fun v => Obj Anon (g + (v - a / PAGE_SIZE))));
  sys_mprotect k a n pr := Some k;
  sys_memalign k al n :=
    let p := p_heap k in
    if (p mod al =? 0) && negb (al =? 0) && forallb (fun '(a, m) => (p + n <=? a) || (a + m <=? p)) (p_used k)
    then let k := use (set_pages k p n Own) p n in
         Some (p, {| p_pages := p_pages k; p_used := p_used k; p_heap := p + n |})
    else None;
  resolve := p_pages;
  in_use k x := Exists (fun '(a, n) => in_range a n x) (p_used k) |}.

Lemma pages_set k a n g v : (page_in a n v -> p_pages (set_pages k a n g) v = g v) /\
  (~ page_in a n v -> p_pages (set_pages k a n g) v = p_pages k v).
Proof. unfold set_pages. cbn [p_pages]. case_bool_decide; split; try done; tauto. Qed.

#[export] Instance process_laws : KernelLaws process.
Proof.
  assert (Hu : forall l a n x, Exists (fun '(a, n) => in_range a n x) ((a, n) :: l) <->
    Exists (fun '(a, n) => in_range a n x) l \/ in_range a n x) by (intros; rewrite Exists_cons; tauto).
  split; cbn [sys_reserve sys_object sys_mmap sys_remap sys_mprotect sys_memalign resolve in_use process_kernel].
  - intros k a n k' [= <-]. split; [intros x; apply Hu|]. intros v. exact (pages_set k a n _ v).
  - intros k n k' [= <-]. done.
  - intros k a n pr o k' [= <-] _ _ _. split; [intros x; apply Hu|]. intros v. exact (pages_set k a n _ v).
  - intros k a n g k' [= <-] _ _. split; [done|]. intros v. exact (pages_set k a n _ v).
  - intros k a n pr k' [= <-]. done.
  - intros k al n p k' E. destruct (_ && _) eqn:Hg in E; [|done]. injection E as <- <-.
    apply andb_true_iff in Hg as [[H1%Z.eqb_eq H2%negb_true_iff%Z.eqb_neq]%andb_true_iff H3]. split_and!.
    + by apply Z.mod_divide.
    + intros x Hx Hex. apply Exists_exists in Hex as ([a m] & Hin & Ha). rewrite forallb_forall in H3.
      specialize (H3 (a, m) ltac:(by apply list_elem_of_In)). cbn in H3. unfold in_range in *. lia.
    + intros x. apply Hu.
    + intros v. exact (pages_set k (p_heap k) n _ v).
Qed.

Definition is_ok {A} (r : outcome A) : bool := match r with Ok _ => true | _ => false end.
Lemma is_ok_Ok {A} (r : outcome A) : is_ok r = true -> exists a, r = Ok a.
Proof. destruct r; try done. by eexists. Qed.

(** A process with nothing mapped whose heap starts below the range. *)
Definition fresh_process : process := {| p_pages := Own; p_used := []; p_heap := 0x10000000 |}.
Definition demo_mappings : list (Z * backing * protection) :=
  [(0, BHome 0, PROT_RW); (PAGE_SIZE, BCache 3, PROT_READ); (0, BCache 0, PROT_READ)].

(** Set-up and mappings from an initial state. *)
Definition demo_memory {S} (V : virtual_memory S) (init : outcome S) : outcome (S * S * (region -> Z) * S) :=
  let '(c, f) := argo_initialize demo_settings 4 (2 ^ 45) (2 ^ 30) (2 ^ 20) in
  s0 ← init;
  '(s1, addr) ← setup_memory V c f true s0;
  s ← map_pages V f s1 demo_mappings;
  Ok (s0, s1, addr, s).

Lemma demo_memory_inv {S} (V : virtual_memory S) init s0 s1 addr s : demo_memory V init = Ok (s0, s1, addr, s) ->
  init = Ok s0 /\
  let '(c, f) := argo_initialize demo_settings 4 (2 ^ 45) (2 ^ 30) (2 ^ 20) in
  setup_memory V c f true s0 = Ok (s1, addr) /\ map_pages V f s1 demo_mappings = Ok s.
Proof.
  unfold demo_memory. destruct (argo_initialize _ _ _ _ _) as [c f]. intros E.
  apply outcome_bind_Ok in E as (t0 & E0 & E). apply outcome_bind_Ok in E as ([t1 ad] & E1 & E).
  apply outcome_bind_Ok in E as (t & E2 & E). injection E as <- <- <- <-. done.
Qed.

(** On the anonymous mapping: page 0 of the global memory, mapped to the node's share
    and then to slot 0 of the cache, is the first page of [cacheData]. *)
Lemma mappings_alias_witness : exists s0 s1 addr s,
  demo_memory Anonymous.impl (Anonymous.init fresh_process) = Ok (s0, s1, addr, s) /\
  cell (fun s => resolve (Anonymous.kernel s)) s (Anonymous.start_address s + 0 + 5) =
  cell (fun s => resolve (Anonymous.kernel s)) s (addr CacheData + 0 * PAGE_SIZE + 5).
Proof.
  destruct (is_ok_Ok (demo_memory Anonymous.impl (Anonymous.init fresh_process))) as [[[[s0 s1] addr] s] E].
  { vm_compute. reflexivity. }
  exists s0, s1, addr, s. split; [exact E|]. destruct (demo_memory_inv _ _ _ _ _ _ E) as [E0 E1]. clear E.
  pose proof (mappings_alias Anonymous.impl anonymous_ok (fun s => resolve (Anonymous.kernel s))
    (fun s => in_range ARGO_VM_START (Anonymous.backing_offset s)) Anon (ARGO_VM_SIZE / 2 / PAGE_SIZE)
    demo_settings 4 (2 ^ 45) (2 ^ 30) (2 ^ 20) s0 s1 s addr demo_mappings anonymous_laws (anonymous_init _ _ E0)
    demo_settings_limits ltac:(lia)) as H.
  destruct (argo_initialize demo_settings 4 (2 ^ 45) (2 ^ 30) (2 ^ 20)) as [c f] eqn:Ei. destruct E1 as [E1 E2].
  destruct H as [H _]; [exact E1| |exact E2|].
  - vm_compute in Ei. injection Ei as <- <-. repeat apply Forall_cons_2; try apply Forall_nil_2; split.
    1,3,5: unfold page_valid; split_and!; [by vm_compute|by vm_compute|by apply Z.mod_divide].
    all: vm_compute; repeat split; try congruence. by exists 0.
  - exact (H 0 (BCache 0) 5 eq_refl ltac:(done)).
Defined.

(** The size check of [allocate_mappable] looks at where an allocation starts only:
    one that is longer than what is left is granted, and reaches into the visible
    range. *)
Example allocation_overruns : exists s p s',
  Anonymous.init fresh_process = Ok s /\ Anonymous.allocate_mappable s PAGE_SIZE (2 ^ 44 + PAGE_SIZE) = Ok (p, s') /\
  in_range p (2 ^ 44 + PAGE_SIZE) (Anonymous.start_address s).
Proof. eexists _, _, _. split_and!; [reflexivity|reflexivity|unfold in_range; by vm_compute]. Qed.
