(* ===== verification/ThreadBarrier.v ===== *)
(** * The barrier of the MPI backend with its threads

    [swdsm_argo_barrier] of [src/src/backend/mpi/swdsm.cpp] as all threads of all nodes
    run it: the [size r] threads of node [r] meet in [pthread_barrier_wait], one of
    them, the leader, gets [barriermutex] and performs the node's part of the
    synchronisation between two collective MPI barriers, the others wait for it.
    [SwdsmBarrier] takes the collective operation as one step; here its parts
    interleave.  What a thread does between two calls that can block is one step.
    The state of the DSM is not repeated: a node counts its flushes, invalidations
    and upgrades. *)

From stdpp Require Import functions relations.
From S2P Require Import Prelude Locks.

(** [First], [WaitLeader] and [WaitOther] are in [pthread_barrier_wait], [Mpi1] and
    [Mpi2] in [MPI_Barrier]; at the other places the thread can go on. *)
Inductive pc :=
  | Out | First | Try | Flush | Mpi1 | Invalidate | Upgrade | Mpi2 | Join | WaitLeader | WaitOther | Unlock.
#[export] Instance pc_eq_dec : EqDecision pc.
Proof. solve_decision. Defined.

(** [calls] and [returns] count the thread's calls of the function. *)
Record thread := Thread { at_pc : pc; calls : nat; returns : nat }.

(** [arrived] counts the threads in [threadbarrier[n]]. *)
Record node := Node { arrived : nat; barriermutex : bool; flushes : nat; invalidations : nat; upgrades : nat }.

Record state := State { nodes : nat -> node; threads : nat -> nat -> thread; mpi_arrived : nat }.

Definition goto (x : thread) (p : pc) : thread := {| at_pc := p; calls := calls x; returns := returns x |}.
Definition return_ (x : thread) : thread := {| at_pc := Out; calls := calls x; returns := S (returns x) |}.
Definition set_arrived (x : node) (k : nat) : node :=
  {| arrived := k; barriermutex := barriermutex x; flushes := flushes x; invalidations := invalidations x; upgrades := upgrades x |}.
Definition set_mutex (x : node) (b : bool) : node :=
  {| arrived := arrived x; barriermutex := b; flushes := flushes x; invalidations := invalidations x; upgrades := upgrades x |}.
Definition count_flush (x : node) : node :=
  {| arrived := arrived x; barriermutex := barriermutex x; flushes := S (flushes x); invalidations := invalidations x; upgrades := upgrades x |}.
Definition count_invalidation (x : node) : node :=
  {| arrived := arrived x; barriermutex := barriermutex x; flushes := flushes x; invalidations := S (invalidations x); upgrades := upgrades x |}.
Definition count_upgrade (x : node) : node :=
  {| arrived := arrived x; barriermutex := barriermutex x; flushes := flushes x; invalidations := invalidations x; upgrades := S (upgrades x) |}.

Section Barrier.

(** [N] nodes; [upgrade k]: the call number [k] asks for an upgrade. *)
Context (N : nat) (size : nat -> nat) (upgrade : nat -> bool).

Definition set_node (s : state) (r : nat) (x : node) (f : nat -> thread) : state :=
  {| nodes := <[r := x]> (nodes s); threads := <[r := f]> (threads s); mpi_arrived := mpi_arrived s |}.

(** Where a thread goes on when its [pthread_barrier_wait] returns; on a single node
    the function ends after the first one. *)
Definition released (x : thread) : thread :=
  match at_pc x with
  | First => if (N =? 1)%nat then return_ x else goto x Try
  | WaitLeader => goto x Unlock
  | WaitOther => return_ x
  | _ => x
  end.

(** [pthread_barrier_wait] of thread [t], already at its place in [f]: the last of
    the [size r] threads to arrive releases all. *)
Definition barrier_wait (r : nat) (x : node) (f : nat -> thread) : node * (nat -> thread) :=
  if (S (arrived x) =? size r)%nat then (set_arrived x 0, fun u => released (f u))
  else (set_arrived x (S (arrived x)), f).

Definition mpi_released (x : thread) : thread :=
  match at_pc x with
  | Mpi1 => goto x Invalidate
  | Mpi2 => goto x Join
  | _ => x
  end.

(** [MPI_Barrier]: the last of the [N] nodes to arrive releases all. *)
Definition mpi_barrier (s : state) : state :=
  if (S (mpi_arrived s) =? N)%nat then
    {| nodes := nodes s; threads := fun r t => mpi_released (threads s r t); mpi_arrived := 0 |}
  else {| nodes := nodes s; threads := threads s; mpi_arrived := S (mpi_arrived s) |}.

(** What thread [t] of node [r] does next. *)
Definition swdsm_argo_barrier (s : state) (r t : nat) : state :=
  let n := nodes s r in
  let f := threads s r in
  let x := f t in
  let move p := <[t := goto x p]> f in
  let wait n f := let '(n, f) := barrier_wait r n f in set_node s r n f in
  match at_pc x with
  | Out => wait n (<[t := {| at_pc := First; calls := S (calls x); returns := returns x |}]> f)
  | Try => if barriermutex n then wait n (move WaitOther) else set_node s r (set_mutex n true) (move Flush)
  | Flush => mpi_barrier (set_node s r (count_flush n) (move Mpi1))
  | Invalidate => set_node s r (count_invalidation n) (move (if upgrade (pred (calls x)) then Upgrade else Join))
  | Upgrade => mpi_barrier (set_node s r (count_upgrade n) (move Mpi2))
  | Join => wait n (move WaitLeader)
  | Unlock => set_node s r (set_mutex n false) (<[t := return_ x]> f)
  | First | Mpi1 | Mpi2 | WaitLeader | WaitOther => s
  end.

Definition initial : state :=
  {| nodes := fun _ => {| arrived := 0; barriermutex := false; flushes := 0; invalidations := 0; upgrades := 0 |};
     threads := fun _ _ => {| at_pc := Out; calls := 0; returns := 0 |}; mpi_arrived := 0 |}.

Inductive step : state -> state -> Prop :=
  | step_thread s r t : (r < N)%nat -> (t < size r)%nat -> step s (swdsm_argo_barrier s r t).

Definition reachable (s : state) : Prop := rtc step initial s.

(** ** The invariant of a node *)
Inductive phase := Gather (unlocking : option nat) | Trial | Led (l : nat) (p : pc).

Definition pt_waiting (x : thread) : bool := match at_pc x with First | WaitLeader | WaitOther => true | _ => false end.

Definition thread_in (ph : phase) (R t : nat) (x : thread) : Prop :=
  match ph with
  | Gather o =>
    if decide (o = Some t) then at_pc x = Unlock /\ calls x = R /\ S (returns x) = R
    else returns x = R /\ (at_pc x = Out /\ calls x = R \/ at_pc x = First /\ calls x = S R)
  | Trial => at_pc x = Try /\ calls x = S R /\ returns x = R
  | Led l p => calls x = S R /\ returns x = R /\ if decide (t = l) then at_pc x = p else at_pc x = Try \/ at_pc x = WaitOther
  end.

(** How many of the first [R] calls ask for an upgrade. *)
Definition upgrades_before (R : nat) : nat := count_upto upgrade R.
Definition now (b : bool) : nat := if b then 1 else 0.

Definition phase_ok (r : nat) (ph : phase) (R : nat) : Prop :=
  match ph with
  | Gather (Some l) => (l < size r)%nat
  | Gather None | Trial => True
  | Led l p => (l < size r)%nat /\
    match p with
    | Flush | Mpi1 | Invalidate | Join | WaitLeader => True
    | Upgrade | Mpi2 => upgrade R = true
    | _ => False
    end
  end.
Definition mutex_of (ph : phase) : bool := match ph with Gather None | Trial => false | _ => true end.
Definition flushes_of (ph : phase) : nat := match ph with Led _ Flush => 0 | Led _ _ => 1 | _ => 0 end.
Definition invalidations_of (ph : phase) : nat :=
  match ph with Led _ (Upgrade | Mpi2 | Join | WaitLeader) => 1 | _ => 0 end.
Definition upgrades_of (ph : phase) (R : nat) : nat :=
  match ph with Led _ (Mpi2 | Join | WaitLeader) => now (upgrade R) | _ => 0 end.
(** The MPI barriers the node has passed. *)
Definition passes (ph : phase) (R : nat) : nat :=
  (R + upgrades_before R +
   match ph with Led _ (Invalidate | Upgrade | Mpi2) => 1 | Led _ (Join | WaitLeader) => 1 + now (upgrade R) | _ => 0 end)%nat.
Definition mpi_waiting (ph : phase) : bool := match ph with Led _ (Mpi1 | Mpi2) => true | _ => false end.

Record node_ok (r : nat) (ph : phase) (R : nat) (x : node) (f : nat -> thread) : Prop := {
  no_phase : phase_ok r ph R;
  no_threads t : (t < size r)%nat -> thread_in ph R t (f t);
  no_arrived : arrived x = count_upto (fun t => pt_waiting (f t)) (size r);
  no_missing : (arrived x < size r)%nat;
  no_mutex : barriermutex x = mutex_of ph;
  no_flushes : flushes x = (R + flushes_of ph)%nat;
  no_invalidations : invalidations x = (R + invalidations_of ph)%nat;
  no_upgrades : upgrades x = (upgrades_before R + upgrades_of ph R)%nat;
}.

Record invariant (ph : nat -> phase) (R : nat -> nat) (s : state) : Prop := {
  inv_node r : (r < N)%nat -> node_ok r (ph r) (R r) (nodes s r) (threads s r);
  inv_mpi : mpi_arrived s = count_upto (fun r => mpi_waiting (ph r)) N;
  inv_missing : (mpi_arrived s < N)%nat;
  inv_passes r r' : (r < N)%nat -> (r' < N)%nat -> passes (ph r) (R r) = passes (ph r') (R r');
}.

Context (HN : (2 <= N)%nat) (Hsize : forall r, (r < N)%nat -> (0 < size r)%nat).

Lemma released_first x : at_pc x = First -> released x = goto x Try.
Proof using HN. unfold released. intros ->. destruct (Nat.eqb_spec N 1); [lia|done]. Qed.

(** *** Arriving at the barrier of the node's threads *)
Lemma node_enter r o R x f t y : node_ok r (Gather o) R x f -> (t < size r)%nat -> at_pc (f t) = Out ->
  y = {| at_pc := First; calls := S (calls (f t)); returns := returns (f t) |} ->
  let '(x', f') := barrier_wait r x (<[t := y]> f) in
  node_ok r (Gather o) R x' f' \/ node_ok r Trial R x' f'.
Proof using HN.
  intros [P T A M X F I U] Ht Ep Ey. set (f1 := <[t := y]> f).
  assert (Hlt : o <> Some t /\ calls (f t) = R /\ returns (f t) = R).
  { specialize (T t Ht). unfold thread_in in T. case_decide; [destruct T; congruence|]. destruct T as (? & [[??]|[??]]); [done|congruence]. }
  destruct Hlt as (Ho & Ec & Er).
  assert (T1 : forall u, (u < size r)%nat -> thread_in (Gather o) R u (f1 u)).
  { intros u Hu. unfold f1. rewrite fn_insert_eq. destruct (decide (t = u)) as [<-|]; [|by apply T].
    unfold thread_in. rewrite decide_False by done. subst y. simpl. rewrite Ec, Er. auto. }
  assert (C1 : count_upto (fun u => pt_waiting (f1 u)) (size r) = S (arrived x)).
  { rewrite A. apply (count_succ _ _ t); [done| | |]; unfold f1.
    - intros u Hu. by rewrite fn_insert_eq, decide_False.
    - unfold pt_waiting. by rewrite Ep.
    - rewrite fn_insert_eq, decide_True by done. by subst y. }
  unfold barrier_wait. destruct (Nat.eqb_spec (S (arrived x)) (size r)) as [Es|Es].
  - right. rewrite Es in C1.
    assert (Hf : forall u, (u < size r)%nat -> o <> Some u /\ at_pc (f1 u) = First /\ calls (f1 u) = S R /\ returns (f1 u) = R).
    { intros u Hu. pose proof (count_full _ _ C1 u Hu) as W. unfold pt_waiting in W. specialize (T1 u Hu). unfold thread_in in T1.
      case_decide; [destruct T1 as [E _]; by rewrite E in W|]. destruct T1 as (? & [[E ?]|[??]]); [by rewrite E in W|done]. }
    assert (o = None) as ->.
    { destruct o as [l|]; [|done]. destruct (Hf l P) as [E _]. done. }
    assert (T2 : forall u, (u < size r)%nat -> thread_in Trial R u (released (f1 u))).
    { intros u Hu. destruct (Hf u Hu) as (_ & E1 & E2 & E3). by rewrite released_first. }
    split; simpl; try done; [|lia]. symmetry. rewrite (count_ext _ (fun _ => false)); [clear; by induction (size r)|].
    intros u Hu. destruct (T2 u Hu) as [E _]. unfold pt_waiting. by rewrite E.
  - left. split; simpl; try done; lia.
Qed.

Lemma count_zero k : count_upto (fun _ => false) k = 0%nat.
Proof using. by induction k. Qed.

(** A thread of a led node has gone to the second barrier. *)
Lemma node_wait r l p R x f : phase_ok r (Led l p) R ->
  (forall u, (u < size r)%nat -> thread_in (Led l p) R u (f u)) ->
  count_upto (fun u => pt_waiting (f u)) (size r) = S (arrived x) -> (arrived x < size r)%nat -> barriermutex x = true ->
  flushes x = (R + flushes_of (Led l p))%nat -> invalidations x = (R + invalidations_of (Led l p))%nat ->
  upgrades x = (upgrades_before R + upgrades_of (Led l p) R)%nat ->
  let '(x', f') := barrier_wait r x f in
  node_ok r (Led l p) R x' f' \/ p = WaitLeader /\ node_ok r (Gather (Some l)) (S R) x' f'.
Proof using HN.
  intros P T C M X F I U. unfold barrier_wait. destruct (Nat.eqb_spec (S (arrived x)) (size r)) as [Es|Es].
  - right. rewrite Es in C. pose proof P as [Hl Hp].
    assert (Hf : forall u, (u < size r)%nat -> calls (f u) = S R /\ returns (f u) = R /\ at_pc (f u) = if decide (u = l) then WaitLeader else WaitOther).
    { intros u Hu. pose proof (count_full _ _ C u Hu) as W. unfold pt_waiting in W. destruct (T u Hu) as (E1 & E2 & E3).
      split_and!; [done..|]. case_decide; [|destruct E3 as [E|E]; by rewrite E in *]. rewrite E3 in *. by destruct p. }
    assert (p = WaitLeader) as ->.
    { destruct (Hf l Hl) as (_ & _ & E). destruct (T l Hl) as (_ & _ & E'). rewrite decide_True in E by done. rewrite decide_True in E' by done. congruence. }
    split; [done|]. assert (T2 : forall u, (u < size r)%nat -> thread_in (Gather (Some l)) (S R) u (released (f u))).
    { intros u Hu. destruct (Hf u Hu) as (E1 & E2 & E3). unfold thread_in, released. rewrite E3.
      destruct (decide (u = l)) as [->|Hne]; [rewrite decide_True by done; simpl; auto|].
      rewrite decide_False by congruence. simpl. rewrite E1, E2. auto. }
    assert (Ez : count_upto (fun u => pt_waiting (released (f u))) (size r) = 0%nat).
    { rewrite (count_ext _ (fun _ => false)); [apply count_zero|]. intros u Hu. destruct (Hf u Hu) as (_ & _ & E).
      unfold released, pt_waiting. rewrite E. by case_decide. }
    split; cbn [set_arrived arrived barriermutex flushes invalidations upgrades]; try done.
    + lia.
    + rewrite F. simpl. lia.
    + rewrite I. simpl. lia.
    + rewrite U. simpl. unfold upgrades_before, now. simpl. lia.
  - left. split; simpl; try done; lia.
Qed.

(** The leader moves on within the node. *)
Lemma node_lead r l p q R x x' f : node_ok r (Led l p) R x f -> phase_ok r (Led l q) R -> p <> WaitLeader -> q <> WaitLeader ->
  arrived x' = arrived x -> barriermutex x' = true ->
  flushes x' = (R + flushes_of (Led l q))%nat -> invalidations x' = (R + invalidations_of (Led l q))%nat ->
  upgrades x' = (upgrades_before R + upgrades_of (Led l q) R)%nat -> node_ok r (Led l q) R x' (<[l := goto (f l) q]> f).
Proof using.
  intros [[Hl P] T A M X F I U] Q Hp Hq EA EX EF EI EU. pose proof (T l Hl) as Tl. destruct Tl as (C1 & C2 & C3). rewrite decide_True in C3 by done.
  split; try done.
  - intros u Hu. rewrite fn_insert_eq. destruct (decide (l = u)) as [<-|Hne].
    + unfold thread_in. rewrite decide_True by done. by simpl.
    + specialize (T u Hu). unfold thread_in in *. rewrite decide_False in * by done. done.
  - rewrite EA, A. apply count_ext. intros u Hu. rewrite fn_insert_eq. destruct (decide (l = u)) as [<-|]; [|done].
    unfold pt_waiting. rewrite C3. simpl. destruct Q as [_ Q]. by destruct p, q.
  - by rewrite EA.
Qed.

(** *** Steps of the system *)
Lemma local_change ph R s r q R' x' f' : invariant ph R s -> (r < N)%nat -> node_ok r q R' x' f' ->
  mpi_waiting q = mpi_waiting (ph r) -> passes q R' = passes (ph r) (R r) ->
  invariant (<[r := q]> ph) (<[r := R']> R) (set_node s r x' f').
Proof using.
  intros [Hn Hm Hl Hp] Hr Hok Ew Ep. split; [|cbn [set_node mpi_arrived]|done|].
  - intros r' Hr'. cbn [set_node nodes threads]. rewrite !fn_insert_eq. destruct (decide (r = r')) as [<-|]; [done|by apply Hn].
  - rewrite Hm. apply count_ext. intros r' Hr'. rewrite fn_insert_eq. by destruct (decide (r = r')) as [<-|].
  - assert (H : forall a, (a < N)%nat -> passes ((<[r := q]> ph : nat -> phase) a) ((<[r := R']> R : nat -> nat) a) = passes (ph a) (R a)).
    { intros a Ha. rewrite !fn_insert_eq. by destruct (decide (r = a)) as [<-|]. }
    intros a b Ha Hb. rewrite !H by done. by apply Hp.
Qed.

Definition mpi_next (ph : phase) : phase :=
  match ph with Led l Mpi1 => Led l Invalidate | Led l Mpi2 => Led l Join | _ => ph end.

Lemma node_mpi r ph R x f : node_ok r ph R x f -> mpi_waiting ph = true ->
  node_ok r (mpi_next ph) R x (fun t => mpi_released (f t)) /\ passes (mpi_next ph) R = S (passes ph R).
Proof using HN.
  intros [P T A M X F I U] W. destruct ph as [| |l q]; try done. destruct P as [Hl P].
  assert (Hw : forall u, (u < size r)%nat -> pt_waiting (mpi_released (f u)) = pt_waiting (f u) /\
    thread_in (mpi_next (Led l q)) R u (mpi_released (f u))).
  { intros u Hu. destruct (T u Hu) as (E1 & E2 & E3). unfold thread_in, mpi_released, pt_waiting.
    destruct q; try done; simpl; (destruct (decide (u = l)); [rewrite E3; simpl; auto|destruct E3 as [E|E]; rewrite E; simpl; rewrite E; auto]). }
  assert (Hc : arrived x = count_upto (fun t => pt_waiting (mpi_released (f t))) (size r)).
  { rewrite A. apply count_ext. intros u Hu. symmetry. by apply Hw. }
  destruct q; try done; (split; [split; try done; intros u Hu; by apply Hw|]); unfold passes; simpl; [lia|]. rewrite P. simpl. lia.
Qed.

(** A leader arrives at an MPI barrier. *)
Lemma mpi_arrive ph R s r q x' f' : invariant ph R s -> (r < N)%nat -> node_ok r q (R r) x' f' ->
  mpi_waiting (ph r) = false -> mpi_waiting q = true -> passes q (R r) = passes (ph r) (R r) ->
  exists ph', invariant ph' R (mpi_barrier (set_node s r x' f')).
Proof using HN.
  intros [Hn Hm Hl Hp] Hr Hok Ew Eq Ep. set (ph1 := <[r := q]> ph : nat -> phase).
  assert (Hn1 : forall a, (a < N)%nat -> node_ok a (ph1 a) (R a) (nodes (set_node s r x' f') a) (threads (set_node s r x' f') a)).
  { intros a Ha. cbn [set_node nodes threads]. unfold ph1. rewrite !fn_insert_eq. destruct (decide (r = a)) as [<-|]; [done|by apply Hn]. }
  assert (Hp1 : forall a, (a < N)%nat -> passes (ph1 a) (R a) = passes (ph a) (R a)).
  { intros a Ha. unfold ph1. rewrite fn_insert_eq. by destruct (decide (r = a)) as [<-|]. }
  assert (Hc : count_upto (fun a => mpi_waiting (ph1 a)) N = S (mpi_arrived s)).
  { rewrite Hm. apply (count_succ _ _ r); [done| |done|]; unfold ph1.
    - intros a Ha. by rewrite fn_insert_eq, decide_False.
    - by rewrite fn_insert_eq, decide_True. }
  unfold mpi_barrier. cbn [set_node mpi_arrived]. destruct (Nat.eqb_spec (S (mpi_arrived s)) N) as [En|En].
  - rewrite En in Hc. exists (fun a => mpi_next (ph1 a)).
    assert (Hall : forall a, (a < N)%nat -> mpi_waiting (ph1 a) = true) by (intros; by apply (count_full _ _ Hc)).
    split; cbn [nodes threads mpi_arrived].
    + intros a Ha. by apply node_mpi; [apply Hn1|apply Hall].
    + symmetry. rewrite (count_ext _ (fun _ => false)); [apply count_zero|]. intros a Ha. specialize (Hall a Ha).
      by destruct (ph1 a) as [| |? []].
    + lia.
    + intros a b Ha Hb. destruct (node_mpi _ _ _ _ _ (Hn1 a Ha) (Hall a Ha)) as [_ ->]. destruct (node_mpi _ _ _ _ _ (Hn1 b Hb) (Hall b Hb)) as [_ ->].
      rewrite !Hp1 by done. by rewrite (Hp a b).
  - exists ph1. split; cbn [nodes threads mpi_arrived]; [done|done|lia|]. intros a b Ha Hb. rewrite !Hp1 by done. by apply Hp.
Qed.

(** Which phase a thread's place belongs to. *)
Lemma phase_of ph R t r x f : node_ok r ph R x f -> (t < size r)%nat ->
  match at_pc (f t) with
  | Out | First => exists o, ph = Gather o
  | Try => ph = Trial \/ exists l p, ph = Led l p /\ t <> l
  | Unlock => ph = Gather (Some t)
  | WaitOther => exists l p, ph = Led l p /\ t <> l
  | p => ph = Led t p
  end.
Proof using.
  intros [P T _ _ _ _ _ _] Ht. specialize (T t Ht). destruct ph as [o| |l p]; unfold thread_in in T.
  - case_decide as E; [destruct T as [-> _]; by subst|]. destruct T as (_ & [[-> _]|[-> _]]); by exists o.
  - destruct T as [-> _]. by left.
  - destruct T as (_ & _ & T). destruct P as [_ P]. case_decide as E.
    + subst l. rewrite T. by destruct p.
    + destruct T as [->| ->]; [right|]; by exists l, p.
Qed.

(** The places at which a thread can do something. *)
Definition can_go (p : pc) : bool :=
  match p with First | Mpi1 | Mpi2 | WaitLeader | WaitOther => false | _ => true end.

(** A thread of a led node arrives at the second barrier. *)
Lemma led_wait ph R s r l p q f : invariant ph R s -> (r < N)%nat -> ph r = Led l p -> phase_ok r (Led l q) (R r) ->
  (forall u, (u < size r)%nat -> thread_in (Led l q) (R r) u (f u)) ->
  count_upto (fun u => pt_waiting (f u)) (size r) = S (arrived (nodes s r)) ->
  (q = p \/ p = Join /\ q = WaitLeader) ->
  exists ph' R', invariant ph' R' (let '(x', f') := barrier_wait r (nodes s r) f in set_node s r x' f').
Proof using HN.
  intros Hi Hr Eph Hph T C Hq. pose proof (inv_node _ _ _ Hi r Hr) as Hok. rewrite Eph in Hok. destruct Hok as [_ _ _ M X F I U].
  assert (Hsame : mpi_waiting (Led l q) = mpi_waiting (Led l p) /\ passes (Led l q) (R r) = passes (Led l p) (R r) /\
    flushes_of (Led l q) = flushes_of (Led l p) /\ invalidations_of (Led l q) = invalidations_of (Led l p) /\
    upgrades_of (Led l q) (R r) = upgrades_of (Led l p) (R r)) by (destruct Hq as [->|[-> ->]]; done).
  destruct Hsame as (S1 & S2 & S3 & S4 & S5).
  pose proof (node_wait r l q (R r) (nodes s r) f Hph T C M X ltac:(by rewrite S3) ltac:(by rewrite S4) ltac:(by rewrite S5)) as Hw.
  destruct (barrier_wait r (nodes s r) f) as [x' f']. destruct Hw as [Hw|[-> Hw]]; eexists _, _.
  - apply (local_change ph R s r _ _ _ _ Hi Hr Hw); by rewrite Eph.
  - apply (local_change ph R s r _ _ _ _ Hi Hr Hw); rewrite Eph, <- ?S1, <- ?S2; [done|]. unfold passes, upgrades_before. simpl. fold (now (upgrade (R r))). lia.
Qed.

(** The leader at a place that it leaves without waiting for threads. *)
Lemma lead_step ph R s r l p q x' : invariant ph R s -> (r < N)%nat -> ph r = Led l p -> phase_ok r (Led l q) (R r) ->
  p <> WaitLeader -> q <> WaitLeader -> arrived x' = arrived (nodes s r) -> barriermutex x' = true ->
  flushes x' = (R r + flushes_of (Led l q))%nat -> invalidations x' = (R r + invalidations_of (Led l q))%nat ->
  upgrades x' = (upgrades_before (R r) + upgrades_of (Led l q) (R r))%nat -> passes (Led l q) (R r) = passes (Led l p) (R r) ->
  mpi_waiting (Led l p) = false ->
  exists ph' R', invariant ph' R' (let s' := set_node s r x' (<[l := goto (threads s r l) q]> (threads s r)) in
    if mpi_waiting (Led l q) then mpi_barrier s' else s').
Proof using HN.
  intros Hi Hr Eph Hq Hp Hq' EA EX EF EI EU Ep Ew. pose proof (inv_node _ _ _ Hi r Hr) as Hok. rewrite Eph in Hok.
  pose proof (node_lead r l p q (R r) _ x' _ Hok Hq Hp Hq' EA EX EF EI EU) as Hn. cbv zeta.
  destruct (mpi_waiting (Led l q)) eqn:Eq.
  - destruct (mpi_arrive ph R s r _ _ _ Hi Hr Hn) as [ph' Hph']; [by rewrite Eph|done|by rewrite Eph|]. by exists ph', R.
  - eexists _, _. apply (local_change ph R s r _ _ _ _ Hi Hr Hn); by rewrite Eph, ?Eq.
Qed.

Lemma barrier_thread_invariant ph R s r t : invariant ph R s -> (r < N)%nat -> (t < size r)%nat ->
  exists ph' R', invariant ph' R' (swdsm_argo_barrier s r t).
Proof using HN.
  intros Hi Hr Ht. pose proof (inv_node _ _ _ Hi r Hr) as Hok. pose proof (phase_of _ _ t _ _ _ Hok Ht) as Hph.
  pose proof Hok as [P T A M X F I U].
  unfold swdsm_argo_barrier. cbv zeta. destruct (at_pc (threads s r t)) eqn:Ep; try (by exists ph, R).
  - (* a call *)
    destruct Hph as [o Eo]. rewrite Eo in Hok. pose proof (node_enter r o (R r) _ _ t _ Hok Ht Ep eq_refl) as Hw.
    destruct (barrier_wait _ _ _) as [x' f']. destruct Hw as [Hw|Hw]; eexists _, _; by apply (local_change ph R s r _ _ _ _ Hi Hr Hw); rewrite Eo.
  - (* the trylock *)
    destruct Hph as [Eo|(l & p & Eo & Hne)]; rewrite Eo in *; rewrite X; cbn [mutex_of].
    + eexists _, _. apply (local_change ph R s r (Led t Flush) (R r)); rewrite ?Eo; try done. split; try done.
      * intros u Hu. rewrite fn_insert_eq. destruct (T u Hu) as (E1 & E2 & E3). destruct (decide (t = u)) as [<-|].
        -- unfold thread_in. by rewrite decide_True.
        -- unfold thread_in. rewrite decide_False by done. auto.
      * cbn [set_mutex arrived]. rewrite A. apply count_ext. intros u Hu. rewrite fn_insert_eq.
        destruct (decide (t = u)) as [<-|]; [|done]. unfold pt_waiting. by rewrite Ep.
    + apply (led_wait ph R s r l p p); try done.
      * intros u Hu. rewrite fn_insert_eq. destruct (decide (t = u)) as [<-|]; [|by apply T].
        destruct (T t Ht) as (E1 & E2 & _). unfold thread_in. rewrite decide_False by done. simpl. auto.
      * rewrite A. apply (count_succ _ _ t); [done| |by unfold pt_waiting; rewrite Ep|by rewrite fn_insert_eq, decide_True].
        intros u Hu. by rewrite fn_insert_eq, decide_False.
      * by left.
  - (* the leader's steps *)
    rewrite Hph in *. destruct P as [Hl _].
    apply (lead_step ph R s r t Flush Mpi1); try done. simpl in *. lia.
  - rewrite Hph in *. destruct P as [Hl _]. destruct (T t Ht) as (E1 & _ & _). rewrite E1. cbn [pred].
    destruct (upgrade (R r)) eqn:Eu;
      [apply (lead_step ph R s r t Invalidate Upgrade)|apply (lead_step ph R s r t Invalidate Join)]; try done;
      (unfold passes in *; simpl in *; rewrite ?Eu; simpl; lia).
  - rewrite Hph in *. destruct P as [Hl Pu]. apply (lead_step ph R s r t Upgrade Mpi2); try done. simpl in *. rewrite Pu. simpl. lia.
  - rewrite Hph in *. destruct P as [Hl _]. apply (led_wait ph R s r t Join WaitLeader); try done; [| |by right].
    + intros u Hu. destruct (T u Hu) as (E1 & E2 & E3). rewrite fn_insert_eq. unfold thread_in.
      destruct (decide (t = u)) as [<-|]; [by rewrite decide_True|]. rewrite decide_False in * by done. done.
    + rewrite A. apply (count_succ _ _ t); [done| |by unfold pt_waiting; rewrite Ep|by rewrite fn_insert_eq, decide_True].
      intros u Hu. by rewrite fn_insert_eq, decide_False.
  - (* the leader returns *)
    rewrite Hph in *. eexists _, _. apply (local_change ph R s r (Gather None) (R r)); rewrite ?Hph; try done. split; try done.
    + intros u Hu. rewrite fn_insert_eq. specialize (T u Hu). unfold thread_in in *. rewrite (decide_False (P := None = Some u)) by done.
      destruct (decide (t = u)) as [<-|Hne].
      * rewrite decide_True in T by done. destruct T as (_ & E1 & E2). simpl. auto.
      * rewrite decide_False in T by congruence. done.
    + cbn [set_mutex arrived]. rewrite A. apply count_ext. intros u Hu. rewrite fn_insert_eq.
      destruct (decide (t = u)) as [<-|]; [|done]. unfold pt_waiting. by rewrite Ep.
Qed.

Lemma threads_initial_invariant : invariant (fun _ => Gather None) (fun _ => 0%nat) initial.
Proof using HN Hsize.
  split; [|by rewrite count_zero|simpl; lia|done]. intros r Hr. specialize (Hsize r Hr).
  split; simpl; try done; [auto|by rewrite count_zero].
Qed.

Lemma threads_reachable_invariant s : reachable s -> exists ph R, invariant ph R s.
Proof using HN Hsize.
  intros H. assert (G : exists ph R, invariant ph R initial) by (eexists _, _; apply threads_initial_invariant).
  unfold reachable in H. revert G. induction H as [|s s1 s2 Hs _ IH]; [done|]. intros (ph & R & Hi). apply IH.
  destruct Hs as [s r t Hr Ht]. by apply (barrier_thread_invariant ph R).
Qed.

(** *** What the equal numbers of MPI barriers say *)
Lemma upgrades_mono a b : (a <= b)%nat -> (upgrades_before a <= upgrades_before b)%nat.
Proof using HN. induction 1 as [|b _ IH]; [done|]. unfold upgrades_before in *. simpl. lia. Qed.

Lemma passes_order ph R ph' R' r r' : phase_ok r ph R -> phase_ok r' ph' R' -> passes ph R = passes ph' R' ->
  (R + invalidations_of ph <= R' + flushes_of ph')%nat /\
  (upgrades_before R <= upgrades_before R' + upgrades_of ph' R')%nat /\ (R <= S R')%nat.
Proof using HN.
  intros P P' E. unfold passes in E.
  set (m := match ph with Led _ _ => _ | _ => _ end) in E. set (m' := match ph' with Led _ _ => _ | _ => _ end) in E.
  assert (A : (invalidations_of ph <= m)%nat) by (destruct ph as [| |? []]; simpl in *; lia).
  assert (B : (m' <= 1 + now (upgrade R'))%nat /\ (1 <= m' -> flushes_of ph' = 1)%nat /\ (invalidations_of ph <= 1)%nat /\
    (m' = 1 + now (upgrade R') -> upgrades_of ph' R' = now (upgrade R') \/ upgrade R' = false)%nat).
  { destruct ph' as [| |? []]; simpl in *; unfold m', now in *; try tauto; try rewrite (proj2 P');
      (split_and!; [try lia..|destruct ph as [| |? []]; simpl; lia|try (destruct (upgrade R'); auto; lia)]); try lia. }
  destruct B as (B1 & B2 & B3 & B4). pose proof (upgrades_mono (S R') R) as U1. pose proof (upgrades_mono R R') as U2.
  unfold upgrades_before at 1 in U1. simpl in U1. fold (upgrades_before R') in U1. fold (now (upgrade R')) in U1.
  unfold now in *. destruct (decide (S R' <= R)%nat) as [Hle|Hgt].
  - specialize (U1 Hle). assert (R = S R') as -> by lia. rewrite B2 by lia. split_and!; [lia| |lia].
    unfold upgrades_before at 1. simpl. fold (upgrades_before R'). destruct B4 as [->|Eu]; [lia|lia|]. rewrite Eu. lia.
  - specialize (U2 ltac:(lia)). split_and!; [|lia|lia]. destruct (decide (R = R')) as [->|]; lia.
Qed.

(** ** Progress *)

(** Steps of threads inside the function. *)
Inductive internal : state -> state -> Prop :=
  | internal_thread s r t : (r < N)%nat -> (t < size r)%nat -> at_pc (threads s r t) <> Out -> can_go (at_pc (threads s r t)) = true ->
      internal s (swdsm_argo_barrier s r t).

Definition rank (x : thread) : nat :=
  match at_pc x with
  | Out => 0 | Unlock => 1 | WaitOther | WaitLeader => 3 | Join => 4 | Mpi2 => 5 | Upgrade => 6 | Invalidate => 7
  | Mpi1 => 8 | Flush => 9 | Try => 10 | First => 11
  end.
Definition todo (s : state) : nat := sum_upto (fun r => sum_upto (fun t => rank (threads s r t)) (size r)) N.

(** No thread gets further from its return, and none calls again. *)
Definition nearer (x y : thread) : Prop := (rank y <= rank x)%nat /\ calls y = calls x.

Lemma nearer_released x : nearer x (released x).
Proof using HN. unfold nearer, released, rank, goto, return_. destruct (at_pc x) eqn:E; simpl; rewrite ?E; try (split; [lia|done]). by destruct (N =? 1)%nat; simpl; (split; [lia|]). Qed.

Lemma nearer_mpi x : nearer x (mpi_released x).
Proof using HN. unfold nearer, mpi_released, rank, goto. destruct (at_pc x) eqn:E; simpl; rewrite ?E; (split; [lia|done]). Qed.

Lemma nearer_trans x y z : nearer x y -> nearer y z -> nearer x z.
Proof using HN. unfold nearer. intros [? ?] [? ?]. split; [lia|congruence]. Qed.

(** Thread [t] of node [r] has come nearer to its return. *)
Definition moved (r t : nat) (s s' : state) : Prop :=
  (forall a u, nearer (threads s a u) (threads s' a u)) /\ (rank (threads s' r t) < rank (threads s r t))%nat.

Lemma moved_nearer r t s s1 s2 : moved r t s s1 -> (forall a u, nearer (threads s1 a u) (threads s2 a u)) -> moved r t s s2.
Proof using HN.
  intros [H1 H2] H. split; [intros a u; by apply (nearer_trans _ (threads s1 a u))|]. destruct (H r t) as [? _]. lia.
Qed.

Lemma moved_set r t s x p : (rank (goto (threads s r t) p) < rank (threads s r t))%nat ->
  moved r t s (set_node s r x (<[t := goto (threads s r t) p]> (threads s r))).
Proof using HN.
  intros Hlt. split; cbn [set_node threads].
  - intros a u. rewrite fn_insert_eq. destruct (decide (r = a)) as [<-|]; [|by split]. rewrite fn_insert_eq.
    destruct (decide (t = u)) as [<-|]; [split; [lia|done]|by split].
  - rewrite fn_insert_eq, decide_True by done. by rewrite fn_insert_eq, decide_True.
Qed.

Lemma moved_mpi r t s s1 : moved r t s s1 -> moved r t s (mpi_barrier s1).
Proof using HN.
  intros H. apply (moved_nearer r t s s1 _ H). intros a u. unfold mpi_barrier. destruct (_ =? _)%nat; [apply nearer_mpi|by split].
Qed.

Lemma moved_wait r t s x f : moved r t s (set_node s r x f) ->
  moved r t s (let '(x', f') := barrier_wait r x f in set_node s r x' f').
Proof using HN.
  intros H. apply (moved_nearer r t s _ _ H). intros a u. unfold barrier_wait. destruct (_ =? _)%nat; cbn [set_node threads];
    rewrite !fn_insert_eq; destruct (decide (r = a)); try (by split). apply nearer_released.
Qed.

Lemma internal_moved s r t : at_pc (threads s r t) <> Out -> can_go (at_pc (threads s r t)) = true ->
  moved r t s (swdsm_argo_barrier s r t).
Proof using HN.
  intros Ho Hg. unfold swdsm_argo_barrier. cbv zeta. destruct (at_pc (threads s r t)) eqn:Ep; try done.
  - destruct (barriermutex _); [apply moved_wait|]; apply moved_set; unfold rank; rewrite Ep; simpl; lia.
  - apply moved_mpi, moved_set. unfold rank. rewrite Ep. simpl. lia.
  - apply moved_set. unfold rank. rewrite Ep. destruct (upgrade _); simpl; lia.
  - apply moved_mpi, moved_set. unfold rank. rewrite Ep. simpl. lia.
  - apply moved_wait, moved_set. unfold rank. rewrite Ep. simpl. lia.
  - split; cbn [set_node threads].
    + intros a u. rewrite fn_insert_eq. destruct (decide (r = a)) as [<-|]; [|by split]. rewrite fn_insert_eq.
      destruct (decide (t = u)) as [<-|]; [|by split]. split; [unfold rank; simpl; lia|done].
    + rewrite fn_insert_eq, decide_True by done. rewrite fn_insert_eq, decide_True by done. unfold rank. rewrite Ep. simpl. lia.
Qed.

Lemma moved_todo r t s s' : (r < N)%nat -> (t < size r)%nat -> moved r t s s' -> (todo s' < todo s)%nat.
Proof using HN.
  intros Hr Ht [H1 H2]. apply (sum_lt _ _ r); [done|apply (sum_lt _ _ t); [done|done|intros u _; apply H1]|].
  intros a _. apply sum_le. intros u _. apply H1.
Qed.

Definition going (s : state) (r t : nat) : Prop := at_pc (threads s r t) <> Out /\ can_go (at_pc (threads s r t)) = true.

(** A node whose threads have all made call number [k] and can do nothing. *)
Lemma node_stuck ph R x f k r : node_ok r ph R x f -> (0 < size r)%nat ->
  (forall t, (t < size r)%nat -> calls (f t) = k /\ ~ (at_pc (f t) <> Out /\ can_go (at_pc (f t)) = true)) ->
  (mpi_waiting ph = false /\ ph = Gather None /\ R = k /\ forall t, (t < size r)%nat -> at_pc (f t) = Out /\ returns (f t) = k) \/
  (mpi_waiting ph = true /\ S R = k).
Proof using HN.
  intros [P T A M X F I U] Hz Hk.
  assert (Hno : forall p t, (t < size r)%nat -> at_pc (f t) = p -> can_go p = true -> p = Out).
  { intros p t Ht Ep Eg. destruct (Hk t Ht) as [_ H]. destruct (decide (p = Out)); [done|]. exfalso. apply H. by rewrite Ep. }
  assert (Hall : ~ forall t, (t < size r)%nat -> pt_waiting (f t) = true).
  { intros H. apply count_all in H. lia. }
  destruct ph as [[l|]| |l p].
  - specialize (T l P). unfold thread_in in T. rewrite decide_True in T by done. destruct T as [E _]. by specialize (Hno _ _ P E eq_refl).
  - left. split; [done|]. split; [done|]. unfold thread_in in T.
    assert (ER : R = k).
    { pose proof (T 0%nat Hz) as T0. destruct (Hk 0%nat Hz) as [C0 _]. rewrite decide_False in T0 by done.
      destruct T0 as (_ & [[_ ?]|[_ E0]]); [congruence|]. exfalso. apply Hall. intros t Ht. specialize (T t Ht). destruct (Hk t Ht) as [C _].
      rewrite decide_False in T by done. destruct T as (_ & [[_ ?]|[E _]]); [lia|]. unfold pt_waiting. by rewrite E. }
    split; [done|]. intros t Ht. specialize (T t Ht). destruct (Hk t Ht) as [C _]. rewrite decide_False in T by done.
    destruct T as (? & [[? _]|[_ ?]]); [by subst|lia].
  - destruct (T 0%nat Hz) as [E _]. by specialize (Hno _ _ Hz E eq_refl).
  - right. destruct P as [Hl P]. destruct (T l Hl) as (C & _ & E). rewrite decide_True in E by done. destruct (Hk l Hl) as [C' _].
    split; [|lia]. specialize (Hno p l Hl E). destruct p; try done; try (by specialize (Hno eq_refl)). exfalso. apply Hall. intros t Ht.
    destruct (T t Ht) as (_ & _ & Et). unfold pt_waiting. case_decide; [by rewrite Et|]. destruct Et as [Et|Et]; [|by rewrite Et].
    destruct (Hk t Ht) as [_ Hg]. exfalso. apply Hg. by rewrite Et.
Qed.

#[local] Instance going_dec s r t : Decision (going s r t).
Proof using. unfold going. apply _. Defined.

(** When all threads of all nodes have made call number [k] and one has not
    returned, some thread can go on. *)
Lemma threads_progress ph R s k : invariant ph R s -> (forall r t, (r < N)%nat -> (t < size r)%nat -> calls (threads s r t) = k) ->
  (forall r t, (r < N)%nat -> (t < size r)%nat -> at_pc (threads s r t) = Out /\ returns (threads s r t) = k) \/
  exists r t, (r < N)%nat /\ (t < size r)%nat /\ going s r t.
Proof using HN Hsize.
  intros [Hn Hm Hmiss Hp] Hk.
  destruct (decide (Exists (fun r => Exists (fun t => going s r t) (seq 0 (size r))) (seq 0 N))) as [He|He].
  { right. apply Exists_exists in He as (r & Hr%elem_of_seq & He). apply Exists_exists in He as (t & Ht%elem_of_seq & He).
    exists r, t. split_and!; [lia|lia|apply He..]. }
  assert (Hs : forall r t, (r < N)%nat -> (t < size r)%nat -> ~ going s r t).
  { intros r t Hr Ht Hg. apply He. apply Exists_exists. exists r. split; [apply elem_of_seq; lia|].
    apply Exists_exists. exists t. split; [apply elem_of_seq; lia|done]. }
  left. assert (Hnode : forall r, (r < N)%nat -> _) by (intros r Hr; exact (node_stuck _ _ _ _ k r (Hn r Hr) (Hsize r Hr) (fun t Ht => conj (Hk r t Hr Ht) (Hs r t Hr Ht)))).
  rewrite Hm in Hmiss. destruct (count_missing _ _ Hmiss) as (r' & Hr' & Ew). destruct (Hnode r' Hr') as [(_ & E1 & E2 & _)|[? _]]; [|congruence].
  intros r t Hr Ht. destruct (Hnode r Hr) as [(_ & _ & _ & H)|[Ew' E]]; [by apply H|]. exfalso.
  pose proof (Hp r r' Hr Hr') as Epass. rewrite E1, E2 in Epass. pose proof (no_phase _ _ _ _ _ (Hn r Hr)) as P.
  unfold passes in Epass. rewrite <- E in Epass. unfold upgrades_before in Epass at 2. simpl in Epass. fold (upgrades_before (R r)) in Epass.
  destruct (ph r) as [| |l []]; try done; [|destruct P as [_ P]; rewrite P in Epass]; lia.
Qed.

Lemma internal_run k : forall m ph R s, invariant ph R s -> (forall r t, (r < N)%nat -> (t < size r)%nat -> calls (threads s r t) = k) ->
  (todo s <= m)%nat -> exists s', rtc internal s s' /\
    forall r t, (r < N)%nat -> (t < size r)%nat -> at_pc (threads s' r t) = Out /\ returns (threads s' r t) = k.
Proof using HN Hsize.
  induction m as [m IH] using lt_wf_ind. intros ph R s Hi Hk Hm.
  destruct (threads_progress ph R s k Hi Hk) as [Hd|(r & t & Hr & Ht & Ho & Hg)]; [by exists s; split; [apply rtc_refl|]|].
  pose proof (internal_moved s r t Ho Hg) as Hmv. pose proof (moved_todo r t _ _ Hr Ht Hmv) as Hlt.
  destruct (barrier_thread_invariant ph R s r t Hi Hr Ht) as (ph' & R' & Hi').
  destruct (IH (todo (swdsm_argo_barrier s r t)) ltac:(lia) ph' R' _ Hi') as (s' & Hs' & Hd); [|done|].
  - intros a u Ha Hu. destruct Hmv as [Hmv _]. destruct (Hmv a u) as [_ ->]. by apply Hk.
  - exists s'. split; [|done]. apply (rtc_l _ _ (swdsm_argo_barrier s r t)); [by constructor|done].
Qed.

End Barrier.

(** The places of the thread that does the node's work. *)
Definition leading (p : pc) : bool := match p with Out | First | Try | WaitOther => false | _ => true end.

(** C14: the barrier of the MPI backend orders what its threads do.  In every
    interleaving of the threads of all nodes, no thread returns from its [k]-th call
    before its node has invalidated its cache for the [k]-th time, no node does that
    before every node has flushed its write buffer for the [k]-th time, and no node
    flushes before each of its threads has made its [k]-th call; a node flushes once
    per call, all upgrades of the calls a thread has returned from have been made on
    every node, and at most one thread of a node does this work at a time. *)
Theorem thread_barrier_order (N : nat) (size : nat -> nat) (upgrade : nat -> bool) (s : state) :
  (2 <= N)%nat -> (forall r, (r < N)%nat -> (0 < size r)%nat) -> reachable N size upgrade s ->
  forall r t r' u, (r < N)%nat -> (t < size r)%nat -> (r' < N)%nat -> (u < size r')%nat ->
  (returns (threads s r t) <= invalidations (nodes s r))%nat /\
  (invalidations (nodes s r) <= flushes (nodes s r'))%nat /\
  (flushes (nodes s r') <= calls (threads s r' u))%nat /\
  (flushes (nodes s r) <= S (returns (threads s r t)))%nat /\
  (count_upto upgrade (returns (threads s r t)) <= upgrades (nodes s r'))%nat /\
  (forall v, (v < size r)%nat -> leading (at_pc (threads s r t)) = true -> leading (at_pc (threads s r v)) = true -> t = v).
Proof.
  intros HN Hz Hreach r t r' u Hr Ht Hr' Hu. destruct (threads_reachable_invariant N size upgrade HN Hz s Hreach) as (ph & R & [Hn _ _ Hp]).
  pose proof (Hn r Hr) as Hok. pose proof (Hn r' Hr') as Hok'.
  destruct (passes_order N size upgrade HN _ _ _ _ r r' (no_phase _ _ _ _ _ _ _ Hok) (no_phase _ _ _ _ _ _ _ Hok') (Hp r r' Hr Hr')) as (O1 & O2 & _).
  pose proof (no_threads _ _ _ _ _ _ _ Hok t Ht) as Tt. pose proof (no_threads _ _ _ _ _ _ _ Hok' u Hu) as Tu.
  pose proof Hok as [_ _ _ _ _ F I _]. pose proof Hok' as [P' _ _ _ _ F' _ U'].
  assert (Hret : (returns (threads s r t) <= R r)%nat /\ (R r + flushes_of (ph r) <= S (returns (threads s r t)))%nat).
  { unfold thread_in in Tt. destruct (ph r) as [o| |l q]; [case_decide|..]; simpl; [lia..|destruct q; lia]. }
  split_and!; [lia|lia| |lia| |].
  - rewrite F'. unfold thread_in in Tu. destruct (ph r') as [o| |l q]; [case_decide|..]; simpl; [lia..|destruct q; lia].
  - rewrite U'. pose proof (upgrades_mono N upgrade HN _ _ (proj1 Hret)) as Hm. unfold upgrades_before in *. lia.
  - intros v Hv Et Ev. pose proof (phase_of size upgrade _ _ t r _ _ Hok Ht) as Pt. pose proof (phase_of size upgrade _ _ v r _ _ Hok Hv) as Pv.
    destruct (at_pc (threads s r t)); try done; destruct (at_pc (threads s r v)); try done; congruence.
Qed.

(** C15: the barrier of the MPI backend completes.  When every thread of every node
    has made its [k]-th call, steps of the threads inside the function, none of which
    need wait for another call, lead to a state in which all have returned from it. *)
Theorem thread_barrier_completes (N : nat) (size : nat -> nat) (upgrade : nat -> bool) (s : state) (k : nat) :
  (2 <= N)%nat -> (forall r, (r < N)%nat -> (0 < size r)%nat) -> reachable N size upgrade s ->
  (forall r t, (r < N)%nat -> (t < size r)%nat -> calls (threads s r t) = k) ->
  exists s', rtc (internal N size upgrade) s s' /\
    forall r t, (r < N)%nat -> (t < size r)%nat -> at_pc (threads s' r t) = Out /\ returns (threads s' r t) = k.
Proof.
  intros HN Hz Hreach Hk. destruct (threads_reachable_invariant N size upgrade HN Hz s Hreach) as (ph & R & Hi).
  by apply (internal_run N size upgrade HN Hz k (todo N size s) ph R s).
Qed.

(** Two nodes, with two threads and one; all arrive. *)
Definition demo_size (r : nat) : nat := if (r =? 0)%nat then 2 else 1.
Definition demo_run (l : list (nat * nat)) : state :=
  fold_left (fun s '(r, t) => swdsm_argo_barrier 2 demo_size (fun _ => true) s r t) l initial.

Lemma demo_threads_reachable l : Forall (fun '(r, t) => (r < 2)%nat /\ (t < demo_size r)%nat) l -> reachable 2 demo_size (fun _ => true) (demo_run l).
Proof.
  unfold demo_run, reachable. intros Hl. assert (G : rtc (step 2 demo_size (fun _ => true)) initial initial) by apply rtc_refl. revert G.
  generalize initial at 2 4. induction Hl as [|[r t] l [Hr Ht] _ IH]; intros s Hs; [done|]. simpl. apply IH. eapply rtc_r; [done|]. by constructor.
Qed.

(** Node 0 has flushed, node 1 not yet. *)
Lemma thread_barrier_order_witness :
  let s := demo_run [(0, 0); (1, 0); (0, 1); (0, 1); (0, 1); (0, 0)]%nat in
  flushes (nodes s 0) = 1%nat /\ (invalidations (nodes s 0) <= flushes (nodes s 1))%nat.
Proof.
  cbv zeta. split; [by vm_compute|].
  refine (proj1 (proj2 (thread_barrier_order 2 demo_size (fun _ => true) (demo_run [(0, 0); (1, 0); (0, 1); (0, 1); (0, 1); (0, 0)]%nat) _ _ _ 0%nat 0%nat 1%nat 0%nat _ _ _ _)));
    try (apply demo_threads_reachable; repeat (constructor; [vm_compute; lia|]); constructor); try (vm_compute; lia).
  intros r Hr. unfold demo_size. destruct (r =? 0)%nat; lia.
Defined.

Lemma thread_barrier_completes_witness :
  exists s', rtc (internal 2 demo_size (fun _ => true)) (demo_run [(0, 0); (1, 0); (0, 1)]%nat) s' /\ returns (threads s' 1 0) = 1%nat.
Proof.
  destruct (thread_barrier_completes 2 demo_size (fun _ => true) (demo_run [(0, 0); (1, 0); (0, 1)]%nat) 1) as (s' & Hs & Hd).
  - lia.
  - intros r Hr. unfold demo_size. destruct (r =? 0)%nat; lia.
  - apply demo_threads_reachable. repeat (constructor; [vm_compute; lia|]). constructor.
  - intros r t Hr Ht. destruct r as [|[|r]]; [|destruct t as [|t]; [done|unfold demo_size in Ht; simpl in Ht; lia]|lia].
    destruct t as [|[|t]]; [done|done|unfold demo_size in Ht; simpl in Ht; lia].
  - exists s'. split; [exact Hs|]. apply (Hd 1%nat 0%nat); vm_compute; lia.
Defined.
