(* ===== verification/MpiLock.v ===== *)
(** * Locks of the MPI windows

    [src/src/backend/mpi/mpi_lock.cpp] and [mpi_lock.hpp]: a node has one [mpi_lock] for
    each window and target, and every one-sided operation ([sharer_op], the loads and
    the write-backs of [swdsm.cpp]) runs between [lock] and [unlock].  The spin lock
    inside serialises the threads of a node, [MPI_Win_lock] the nodes.  Threads of all
    nodes interleave between the calls that can block.

    [MPI_Win_lock] is not part of the program: it is the class [WindowLocks] with
    the documented behaviour as laws.  A time is a number of ticks of [MPI_Wtime];
    the rounding of [double] is not modelled. *)

From stdpp Require Import functions relations.
From S2P Require Import Prelude Locks.

Inductive lock_type := MPI_LOCK_SHARED | MPI_LOCK_EXCLUSIVE.
#[export] Instance lock_type_eq_dec : EqDecision lock_type.
Proof. solve_decision. Defined.

(** A window and a target node. *)
Definition key : Type := nat * nat.

(** ** MPI window locks *)

(** [wl_grant] is the moment [MPI_Win_lock] returns, [None] as long as it does not. *)
Class WindowLocks (M : Type) := {
  wl_init : M;
  wl_grant : M -> key -> nat -> lock_type -> option M;
  wl_release : M -> key -> nat -> M;
  wl_holds : M -> key -> nat -> option lock_type;
}.

(** A process must not lock a window twice: what follows if it does is not said. *)
Class WindowLockLaws (M : Type) `{WindowLocks M} : Prop := {
  ww_init k r : wl_holds wl_init k r = None;
  ww_grant m k r ty m' : wl_holds m k r = None -> wl_grant m k r ty = Some m' ->
    (forall r' ty', wl_holds m k r' = Some ty' -> ty = MPI_LOCK_SHARED /\ ty' = MPI_LOCK_SHARED) /\
    forall k' r', wl_holds m' k' r' = if decide (k' = k /\ r' = r) then Some ty else wl_holds m k' r';
  ww_release m k r k' r' : wl_holds (wl_release m k r) k' r' = if decide (k' = k /\ r' = r) then None else wl_holds m k' r';
  ww_free m k r ty : (forall r', wl_holds m k r' = None) -> is_Some (wl_grant m k r ty);
}.

(** ** The class mpi_lock *)
Record mpi_lock := MpiLock {
  _local_lock : bool;
  _num_locks : Z;
  _local_lock_time : Z; _max_local_lock_time : Z;
  _local_hold_time : Z; _max_local_hold_time : Z;
  _local_acquire_time : Z; _local_release_time : Z;
  _mpi_lock_time : Z; _max_mpi_lock_time : Z;
  _mpi_unlock_time : Z; _max_mpi_unlock_time : Z;
  _mpi_hold_time : Z; _max_mpi_hold_time : Z;
  _mpi_acquire_time : Z; _mpi_release_time : Z;
}.

Definition mpi_lock_new : mpi_lock := MpiLock false 0 0 0 0 0 0 0 0 0 0 0 0 0 0 0.

(** An [int] counter; it wraps around. *)
Definition incr_int (x : Z) : Z := (x + 1 + 2 ^ 31) mod 2 ^ 32 - 2 ^ 31.

(** [lock] and [trylock] once the spin lock is theirs. *)
Definition lock_local (l : mpi_lock) (local_end : Z) : mpi_lock := {|
  _local_lock := true; _num_locks := _num_locks l;
  _local_lock_time := _local_lock_time l; _max_local_lock_time := _max_local_lock_time l;
  _local_hold_time := _local_hold_time l; _max_local_hold_time := _max_local_hold_time l;
  _local_acquire_time := local_end; _local_release_time := _local_release_time l;
  _mpi_lock_time := _mpi_lock_time l; _max_mpi_lock_time := _max_mpi_lock_time l;
  _mpi_unlock_time := _mpi_unlock_time l; _max_mpi_unlock_time := _max_mpi_unlock_time l;
  _mpi_hold_time := _mpi_hold_time l; _max_mpi_hold_time := _max_mpi_hold_time l;
  _mpi_acquire_time := _mpi_acquire_time l; _mpi_release_time := _mpi_release_time l |}.

(** [lock] after [MPI_Win_lock]. *)
Definition lock_mpi (l : mpi_lock) (local_start local_end mpi_start mpi_end : Z) : mpi_lock := {|
  _local_lock := _local_lock l; _num_locks := incr_int (_num_locks l);
  _local_lock_time := _local_lock_time l + (local_end - local_start);
  _max_local_lock_time :=
    if _max_local_lock_time l <? local_end - local_start then local_end - local_start else _max_local_lock_time l;
  _local_hold_time := _local_hold_time l; _max_local_hold_time := _max_local_hold_time l;
  _local_acquire_time := _local_acquire_time l; _local_release_time := _local_release_time l;
  _mpi_lock_time := _mpi_lock_time l + (mpi_end - mpi_start);
  _max_mpi_lock_time := if _max_mpi_lock_time l <? mpi_end - mpi_start then mpi_end - mpi_start else _max_mpi_lock_time l;
  _mpi_unlock_time := _mpi_unlock_time l; _max_mpi_unlock_time := _max_mpi_unlock_time l;
  _mpi_hold_time := _mpi_hold_time l; _max_mpi_hold_time := _max_mpi_hold_time l;
  _mpi_acquire_time := mpi_end; _mpi_release_time := _mpi_release_time l |}.

(** [trylock] after [MPI_Win_lock]. *)
Definition trylock_mpi (l : mpi_lock) (now : Z) : mpi_lock := {|
  _local_lock := _local_lock l; _num_locks := _num_locks l;
  _local_lock_time := _local_lock_time l; _max_local_lock_time := _max_local_lock_time l;
  _local_hold_time := _local_hold_time l; _max_local_hold_time := _max_local_hold_time l;
  _local_acquire_time := _local_acquire_time l; _local_release_time := _local_release_time l;
  _mpi_lock_time := _mpi_lock_time l; _max_mpi_lock_time := _max_mpi_lock_time l;
  _mpi_unlock_time := _mpi_unlock_time l; _max_mpi_unlock_time := _max_mpi_unlock_time l;
  _mpi_hold_time := _mpi_hold_time l; _max_mpi_hold_time := _max_mpi_hold_time l;
  _mpi_acquire_time := now; _mpi_release_time := _mpi_release_time l |}.

(** [unlock] after [MPI_Win_unlock]. *)
Definition unlock (l : mpi_lock) (mpi_start mpi_end now : Z) : mpi_lock := {|
  _local_lock := false; _num_locks := _num_locks l;
  _local_lock_time := _local_lock_time l; _max_local_lock_time := _max_local_lock_time l;
  _local_hold_time := _local_hold_time l + (now - _local_acquire_time l);
  _max_local_hold_time :=
    if _max_local_hold_time l <? now - _local_acquire_time l then now - _local_acquire_time l else _max_local_hold_time l;
  _local_acquire_time := _local_acquire_time l; _local_release_time := now;
  _mpi_lock_time := _mpi_lock_time l; _max_mpi_lock_time := _max_mpi_lock_time l;
  _mpi_unlock_time := _mpi_unlock_time l + (mpi_end - mpi_start); _max_mpi_unlock_time := _max_mpi_unlock_time l;
  _mpi_hold_time := _mpi_hold_time l + (mpi_end - _mpi_acquire_time l);
  _max_mpi_hold_time :=
    if _max_mpi_hold_time l <? mpi_end - _mpi_acquire_time l then mpi_end - _mpi_acquire_time l else _max_mpi_hold_time l;
  _mpi_acquire_time := _mpi_acquire_time l; _mpi_release_time := mpi_end |}.

Definition reset_stats (l : mpi_lock) : mpi_lock := {|
  _local_lock := _local_lock l; _num_locks := 0;
  _local_lock_time := 0; _max_local_lock_time := 0; _local_hold_time := 0; _max_local_hold_time := 0;
  _local_acquire_time := _local_acquire_time l; _local_release_time := _local_release_time l;
  _mpi_lock_time := 0; _max_mpi_lock_time := 0; _mpi_unlock_time := 0; _max_mpi_unlock_time := 0;
  _mpi_hold_time := 0; _max_mpi_hold_time := 0;
  _mpi_acquire_time := _mpi_acquire_time l; _mpi_release_time := _mpi_release_time l |}.

(** The getters. *)
Definition get_local_lock_time (l : mpi_lock) : Z := _local_lock_time l.
Definition get_max_local_lock_time (l : mpi_lock) : Z := _max_local_lock_time l.
Definition get_local_hold_time (l : mpi_lock) : Z := _local_hold_time l.
Definition get_max_local_hold_time (l : mpi_lock) : Z := _max_local_hold_time l.
Definition get_mpi_lock_time (l : mpi_lock) : Z := _mpi_lock_time l.
Definition get_max_mpi_lock_time (l : mpi_lock) : Z := _max_mpi_lock_time l.
Definition get_mpi_unlock_time (l : mpi_lock) : Z := _mpi_unlock_time l.
Definition get_max_mpi_unlock_time (l : mpi_lock) : Z := _max_mpi_unlock_time l.
Definition get_mpi_hold_time (l : mpi_lock) : Z := _mpi_hold_time l.
Definition get_max_mpi_hold_time (l : mpi_lock) : Z := _max_mpi_hold_time l.
Definition get_num_locks (l : mpi_lock) : Z := _num_locks l.

(** ** Threads *)
Record op := Op { op_type : lock_type; op_key : key }.

(** [Spinning]: in [pthread_spin_lock]; [Locking]: in [MPI_Win_lock], called by [lock]
    ([Some] of the times it has read) or by [trylock]; [Inside]: in the operation the
    lock protects; [Unlocking]: in [MPI_Win_unlock]. *)
Inductive pc :=
  | Idle
  | Spinning (o : op) (local_start : Z)
  | Locking (o : op) (times : option (Z * Z * Z))
  | Inside (o : op)
  | Unlocking (o : op) (mpi_start : Z).

#[export] Instance op_eq_dec : EqDecision op.
Proof. solve_decision. Defined.
#[export] Instance pc_eq_dec : EqDecision pc.
Proof. solve_decision. Defined.

Definition uses (p : pc) : option op := match p with Locking o _ | Inside o | Unlocking o _ => Some o | _ => None end.
Definition in_epoch (p : pc) : option op := match p with Inside o | Unlocking o _ => Some o | _ => None end.

Section System.

(** [nd t] is the node of thread [t]. *)
Context {M : Type} `{WindowLocks M} (nd : nat -> nat).

Record state := State { windows : M; locks : nat -> key -> mpi_lock; pcs : nat -> pc; clock : Z }.

Definition set_lock (s : state) (r : nat) (k : key) (l : mpi_lock) : state :=
  {| windows := windows s; locks := <[r := fun k' => if decide (k' = k) then l else locks s r k']> (locks s); pcs := pcs s; clock := clock s |}.
Definition set_pc (s : state) (t : nat) (p : pc) (now : Z) : state :=
  {| windows := windows s; locks := locks s; pcs := <[t := p]> (pcs s); clock := now |}.
Definition set_windows (s : state) (m : M) : state :=
  {| windows := m; locks := locks s; pcs := pcs s; clock := clock s |}.

(** What thread [t] does next; [now], [later] and [last] are what it reads from the
    clock.  [None]: the call it is in does not return yet. *)
Definition advance (s : state) (t : nat) (now later last : Z) : option state :=
  let r := nd t in
  match pcs s t with
  | Idle => None
  | Spinning o local_start =>
    let l := locks s r (op_key o) in
    if _local_lock l then None
    else Some (set_pc (set_lock s r (op_key o) (lock_local l now)) t (Locking o (Some (local_start, now, later))) last)
  | Locking o times =>
    let l := locks s r (op_key o) in
    m ← wl_grant (windows s) (op_key o) r (op_type o);
    let l := match times with
             | Some (local_start, local_end, mpi_start) => lock_mpi l local_start local_end mpi_start now
             | None => trylock_mpi l now
             end in
    Some (set_pc (set_lock (set_windows s m) r (op_key o) l) t (Inside o) last)
  | Inside o => Some (set_pc s t (Unlocking o now) last)
  | Unlocking o mpi_start =>
    let l := locks s r (op_key o) in
    let s := set_windows s (wl_release (windows s) (op_key o) r) in
    Some (set_pc (set_lock s r (op_key o) (unlock l mpi_start now later)) t Idle last)
  end.

Definition start_lock (s : state) (t : nat) (o : op) (now : Z) : state := set_pc s t (Spinning o now) now.
(** The result of [trylock] is known once it has the spin lock or not. *)
Definition start_trylock (s : state) (t : nat) (o : op) (now : Z) : state :=
  let l := locks s (nd t) (op_key o) in
  if _local_lock l then set_pc s t Idle now
  else set_pc (set_lock s (nd t) (op_key o) (lock_local l now)) t (Locking o None) now.

Definition initial : state :=
  {| windows := wl_init; locks := fun _ _ => mpi_lock_new; pcs := fun _ => Idle; clock := 0 |}.

(** The clock does not go backwards. *)
Inductive step : state -> state -> Prop :=
  | step_lock s t o now : pcs s t = Idle -> clock s <= now -> step s (start_lock s t o now)
  | step_trylock s t o now : pcs s t = Idle -> clock s <= now -> step s (start_trylock s t o now)
  | step_advance s t now later last s' : clock s <= now <= later -> later <= last -> advance s t now later last = Some s' -> step s s'
  | step_reset s r k : step s (set_lock s r k (reset_stats (locks s r k))).

Definition reachable (s : state) : Prop := rtc step initial s.

(** ** Exclusion *)
Record invariant (s : state) : Prop := {
  iv_free r k : _local_lock (locks s r k) = false -> forall t o, nd t = r -> uses (pcs s t) = Some o -> op_key o <> k;
  iv_taken r k : _local_lock (locks s r k) = true -> exists t o, nd t = r /\ uses (pcs s t) = Some o /\ op_key o = k;
  iv_one t u o o' : nd t = nd u -> uses (pcs s t) = Some o -> uses (pcs s u) = Some o' -> op_key o = op_key o' -> t = u;
  iv_holds t o : in_epoch (pcs s t) = Some o -> wl_holds (windows s) (op_key o) (nd t) = Some (op_type o);
  iv_holder k r ty : wl_holds (windows s) k r = Some ty -> exists t o, nd t = r /\ in_epoch (pcs s t) = Some o /\ op_key o = k;
  iv_exclusive k r r' ty : wl_holds (windows s) k r = Some MPI_LOCK_EXCLUSIVE -> wl_holds (windows s) k r' = Some ty -> r = r';
}.

Context `{!WindowLockLaws M}.

Lemma locks_set s r k l r' k' : locks (set_lock s r k l) r' k' = if decide (r' = r /\ k' = k) then l else locks s r' k'.
Proof using.
  cbn [set_lock locks]. rewrite fn_insert_eq. destruct (decide (r = r')) as [<-|Hne]; [|by rewrite decide_False by (by intros [-> _])].
  destruct (decide (k' = k)); [by rewrite decide_True|by rewrite decide_False by (by intros [_ ?])].
Qed.

Lemma epoch_uses p o : in_epoch p = Some o -> uses p = Some o.
Proof using. by destruct p. Qed.

(** A thread that moves without taking or leaving anything. *)
Lemma same_uses_invariant s t p now : invariant s -> uses p = uses (pcs s t) -> in_epoch p = in_epoch (pcs s t) ->
  invariant (set_pc s t p now).
Proof using.
  intros [F T O Hh Hr X] Eu Ee.
  assert (Hu : forall u, uses (pcs (set_pc s t p now) u) = uses (pcs s u)) by (intros u; simpl; fn_cases).
  assert (He : forall u, in_epoch (pcs (set_pc s t p now) u) = in_epoch (pcs s u)) by (intros u; simpl; fn_cases).
  split; cbn [set_pc windows locks]; [intros r k El v o; rewrite Hu; by apply F| |intros v u o o'; rewrite !Hu; apply O|intros v o; rewrite He; apply Hh| |done].
  - intros r k El. destruct (T r k El) as (v & o & ?). exists v, o. by rewrite Hu.
  - intros k r ty El. destruct (Hr k r ty El) as (v & o & ?). exists v, o. by rewrite He.
Qed.

(** A change of a lock object that leaves the spin lock alone. *)
Lemma same_lock_invariant s r k l : invariant s -> _local_lock l = _local_lock (locks s r k) -> invariant (set_lock s r k l).
Proof using.
  intros [F T O Hh Hr X] El.
  assert (Hl : forall r' k', _local_lock (locks (set_lock s r k l) r' k') = _local_lock (locks s r' k')).
  { intros r' k'. rewrite locks_set. case_decide as E; [by destruct E as [-> ->]|done]. }
  split; cbn [set_lock windows pcs]; try done; intros r' k'; rewrite Hl; [apply F|apply T].
Qed.

(** A thread that gets a free spin lock. *)
Lemma take_invariant s t o times l now : invariant s -> uses (pcs s t) = None -> _local_lock (locks s (nd t) (op_key o)) = false ->
  _local_lock l = true -> invariant (set_pc (set_lock s (nd t) (op_key o) l) t (Locking o times) now).
Proof using.
  intros [F T O Hh Hr X] Eu El El'. pose proof (F _ _ El) as Fk.
  assert (Hu : forall u o', uses (pcs (set_pc (set_lock s (nd t) (op_key o) l) t (Locking o times) now) u) = Some o' ->
    u = t /\ o' = o \/ u <> t /\ uses (pcs s u) = Some o').
  { intros u o'. cbn [set_pc set_lock pcs]. rewrite fn_insert_eq. destruct (decide (t = u)) as [<-|]; [intros [= <-]; by left|by right]. }
  assert (He : forall u o', in_epoch (pcs (set_pc (set_lock s (nd t) (op_key o) l) t (Locking o times) now) u) = Some o' ->
    in_epoch (pcs s u) = Some o').
  { intros u o'. cbn [set_pc set_lock pcs]. rewrite fn_insert_eq. by destruct (decide (t = u)). }
  split.
  - intros r k. cbn [set_pc locks]. rewrite locks_set. case_decide as E; [congruence|]. intros Ef u o' Er Euo.
    destruct (Hu u o' Euo) as [[-> ->]|[_ Euo']]; [intros <-; by apply E|]. by apply (F r k Ef u o').
  - intros r k. cbn [set_pc locks]. rewrite locks_set. case_decide as E.
    + intros _. exists t, o. cbn [set_pc set_lock pcs]. rewrite fn_insert_eq, decide_True by done. by destruct E as [-> ->].
    + intros Et. destruct (T r k Et) as (u & o' & Er & Euo & Ek). exists u, o'. cbn [set_pc set_lock pcs].
      rewrite fn_insert_eq, decide_False; [done|]. intros <-. congruence.
  - intros u v o1 o2 En E1 E2 Ek. destruct (Hu u o1 E1) as [[-> ->]|[N1 U1]], (Hu v o2 E2) as [[-> ->]|[N2 U2]]; [done|..|by apply (O u v o1 o2)];
      exfalso; [apply (Fk v o2)|apply (Fk u o1)]; congruence.
  - intros u o' E. by apply Hh, He.
  - intros k r ty E. destruct (Hr k r ty E) as (u & o' & ? & Eo & ?). exists u, o'. split_and!; [done| |done].
    cbn [set_pc set_lock pcs]. rewrite fn_insert_eq, decide_False; [done|]. intros <-. apply epoch_uses in Eo. congruence.
  - done.
Qed.

(** [MPI_Win_lock] is called for windows the node has no epoch on, and once it
    returns the thread has one. *)
Lemma no_epoch s t o : invariant s -> uses (pcs s t) = Some o -> in_epoch (pcs s t) = None -> wl_holds (windows s) (op_key o) (nd t) = None.
Proof using.
  intros [F T O Hh Hr X] Eu Ee. destruct (wl_holds _ _ _) as [ty|] eqn:E; [|done].
  destruct (Hr _ _ _ E) as (u & o' & Eu' & Eo & Ek). pose proof (epoch_uses _ _ Eo) as Eo'.
  assert (u = t) as -> by (by apply (O u t o' o)). congruence.
Qed.

Lemma grant_invariant s t o times m now : invariant s -> pcs s t = Locking o times ->
  wl_grant (windows s) (op_key o) (nd t) (op_type o) = Some m -> invariant (set_pc (set_windows s m) t (Inside o) now).
Proof using All.
  intros Hi Ep Eg. pose proof (no_epoch s t o Hi ltac:(by rewrite Ep) ltac:(by rewrite Ep)) as Hnone.
  destruct Hi as [F T O Hh Hr X]. destruct (ww_grant _ _ _ _ _ Hnone Eg) as [G1 G2].
  assert (Hat : forall u, pcs (set_pc (set_windows s m) t (Inside o) now) u = if decide (t = u) then Inside o else pcs s u) by done.
  assert (Hu : forall u, uses (pcs (set_pc (set_windows s m) t (Inside o) now) u) = uses (pcs s u)).
  { intros u. cbn [set_pc pcs]. rewrite fn_insert_eq. destruct (decide (t = u)) as [<-|]; [by rewrite Ep|done]. }
  split.
  - intros r k El u o'. rewrite Hu. by apply F.
  - intros r k El. destruct (T r k El) as (u & o' & ?). exists u, o'. by rewrite Hu.
  - intros u v o1 o2. rewrite !Hu. apply O.
  - intros u o'. rewrite Hat. change (windows (set_pc _ _ _ _)) with m. rewrite G2. destruct (decide (t = u)) as [<-|Hne].
    + intros [= <-]. by rewrite decide_True.
    + intros E. case_decide as Ek; [|by apply Hh]. destruct Ek as [Ek Er]. exfalso. apply Hne.
      apply (O t u o o'); [done|by rewrite Ep|by apply epoch_uses|done].
  - intros k r ty. change (windows (set_pc _ _ _ _)) with m. rewrite G2. case_decide as Ek.
    + intros _. exists t, o. rewrite Hat, decide_True by done. by destruct Ek as [-> ->].
    + intros E. destruct (Hr k r ty E) as (u & o' & E1 & E2 & E3). exists u, o'. rewrite Hat, decide_False; [done|].
      intros <-. by rewrite Ep in E2.
  - intros k r r' ty. change (windows (set_pc _ _ _ _)) with m. rewrite !G2. destruct (decide (k = op_key o)) as [->|Hk]; [|rewrite !decide_False by tauto; apply X].
    destruct (decide (r = nd t)) as [->|Hr1], (decide (r' = nd t)) as [->|Hr2]; [done| | |rewrite !decide_False by tauto; apply X].
    + rewrite decide_True, decide_False by tauto. intros [= E] E'. destruct (G1 r' ty E') as [? _]. congruence.
    + rewrite decide_False, decide_True by tauto. intros E [= _]. destruct (G1 r _ E) as [_ ?]. done.
Qed.

(** A thread that leaves. *)
Lemma epoch_left_invariant s t o mpi_start l now : invariant s -> pcs s t = Unlocking o mpi_start -> _local_lock l = false ->
  invariant (set_pc (set_lock (set_windows s (wl_release (windows s) (op_key o) (nd t))) (nd t) (op_key o) l) t Idle now).
Proof using All.
  intros [F T O Hh Hr X] Ep El. set (s1 := set_windows _ _). set (s2 := set_lock s1 _ _ l).
  assert (Hu : forall u o', uses (pcs (set_pc s2 t Idle now) u) = Some o' -> u <> t /\ uses (pcs s u) = Some o').
  { intros u o'. cbn [set_pc set_lock set_windows pcs s1 s2]. rewrite fn_insert_eq. by destruct (decide (t = u)) as [<-|]. }
  assert (He : forall u o', in_epoch (pcs (set_pc s2 t Idle now) u) = Some o' -> u <> t /\ in_epoch (pcs s u) = Some o').
  { intros u o'. cbn [set_pc set_lock set_windows pcs s1 s2]. rewrite fn_insert_eq. by destruct (decide (t = u)) as [<-|]. }
  assert (Hother : forall u o', u <> t -> uses (pcs s u) = Some o' -> ~ (op_key o' = op_key o /\ nd u = nd t)).
  { intros u o' Hne Euo [Ek En]. apply Hne. apply (O u t o' o); [done|done|by rewrite Ep|done]. }
  assert (Hat : forall u, u <> t -> pcs (set_pc s2 t Idle now) u = pcs s u).
  { intros u Hne. cbn [set_pc set_lock set_windows pcs s1 s2]. by rewrite fn_insert_eq, decide_False. }
  split.
  - intros r k. cbn [set_pc locks]. unfold s2. rewrite locks_set. case_decide as E.
    + destruct E as [-> ->]. intros _ u o' En Euo Ek. destruct (Hu u o' Euo) as [Hne Euo']. by apply (Hother u o' Hne Euo').
    + intros Ef u o' En Euo. destruct (Hu u o' Euo) as [_ Euo']. by apply (F r k Ef u o').
  - intros r k. cbn [set_pc locks]. unfold s2. rewrite locks_set. case_decide as E; [congruence|]. intros Et.
    destruct (T r k Et) as (u & o' & E1 & E2 & E3). exists u, o'. rewrite Hat; [done|]. intros ->. rewrite Ep in E2. injection E2 as <-. by apply E.
  - intros u v o1 o2 En E1 E2. apply (O u v o1 o2 En); [by apply Hu|by apply Hu].
  - intros u o' E. destruct (He u o' E) as [Hne Eo]. cbn [set_pc set_lock set_windows windows s1 s2]. rewrite ww_release, decide_False; [by apply Hh|].
    by apply (Hother u o' Hne), epoch_uses.
  - intros k r ty. cbn [set_pc set_lock set_windows windows s1 s2]. rewrite ww_release. case_decide as Ek; [done|]. intros E.
    destruct (Hr k r ty E) as (u & o' & E1 & E2 & E3). exists u, o'. rewrite Hat; [done|]. intros ->. rewrite Ep in E2. injection E2 as <-. by apply Ek.
  - intros k r r' ty. cbn [set_pc set_lock set_windows windows s1 s2]. rewrite !ww_release. case_decide; [done|]. case_decide; [done|]. apply X.
Qed.

Lemma mpi_step_invariant s s' : invariant s -> step s s' -> invariant s'.
Proof using All.
  intros Hi Hs. destruct Hs as [s t o now Ep _|s t o now Ep _|s t now later last s' _ _ Ea|s r k].
  - apply same_uses_invariant; [done|by rewrite Ep..].
  - unfold start_trylock. destruct (_local_lock _) eqn:El; [by apply same_uses_invariant; [|rewrite Ep..]|].
    by apply take_invariant; [|rewrite Ep| |].
  - unfold advance in Ea. destruct (pcs s t) as [|o st|o times|o|o st] eqn:Ep; [done|..].
    + destruct (_local_lock _) eqn:El; [done|]. injection Ea as <-. by apply take_invariant; [|rewrite Ep| |].
    + destruct (wl_grant _ _ _ _) as [m|] eqn:Eg; [|done]. injection Ea as <-. set (l := match times with Some _ => _ | None => _ end).
      apply (same_lock_invariant (set_pc (set_windows s m) t (Inside o) last) (nd t) (op_key o) l);
        [by apply (grant_invariant s t o times)|]. by destruct times as [[[??]?]|].
    + injection Ea as <-. by apply same_uses_invariant; [|rewrite Ep..].
    + injection Ea as <-. by apply epoch_left_invariant with (mpi_start := st).
  - by apply same_lock_invariant.
Qed.

Lemma mpi_initial_invariant : invariant initial.
Proof using All. split; try done; intros k r ty; cbn [windows initial]; by rewrite ww_init. Qed.

Lemma mpi_reachable_invariant s : reachable s -> invariant s.
Proof using All.
  intros Hr. assert (Hi : invariant initial) by apply mpi_initial_invariant. unfold reachable in Hr. revert Hi.
  induction Hr as [|s s1 s2 Hs _ IH]; [done|]. intros Hi. by apply IH, (mpi_step_invariant s).
Qed.

(** ** Progress *)

(** Threads that go on, none of which starts a new operation. *)
Inductive finishing : state -> state -> Prop :=
  | finishing_advance s t s' : advance s t (clock s) (clock s) (clock s) = Some s' -> finishing s s'.

Definition rank (p : pc) : nat := match p with Idle => 0 | Unlocking _ _ => 1 | Inside _ => 2 | Locking _ _ => 3 | Spinning _ _ => 4 end.

Lemma advance_rank s t a b c s' : advance s t a b c = Some s' ->
  (rank (pcs s' t) < rank (pcs s t))%nat /\ forall u, u <> t -> pcs s' u = pcs s u.
Proof using.
  assert (Hset : forall s1 p, pcs s1 = pcs s -> (rank p < rank (pcs s t))%nat ->
    (rank (pcs (set_pc s1 t p c) t) < rank (pcs s t))%nat /\ forall u, u <> t -> pcs (set_pc s1 t p c) u = pcs s u).
  { intros s1 p Es Hp. cbn [set_pc pcs]. rewrite Es. split; [by rewrite fn_insert_eq, decide_True|]. intros u Hu. by rewrite fn_insert_eq, decide_False. }
  unfold advance. destruct (pcs s t) as [|o st|o times|o|o st] eqn:Ep; [done|..].
  - destruct (_local_lock _); [done|]. intros [= <-]. by apply Hset; [|simpl; lia].
  - destruct (wl_grant _ _ _ _); [|done]. intros [= <-]. by apply Hset; [|simpl; lia].
  - intros [= <-]. by apply Hset; [|simpl; lia].
  - intros [= <-]. by apply Hset; [|simpl; lia].
Qed.

(** Among threads that are not idle one can go on. *)
Lemma mpi_progress s T a : invariant s -> (forall t, (T <= t)%nat -> pcs s t = Idle) -> (exists t, pcs s t <> Idle) ->
  exists t s', advance s t a a a = Some s'.
Proof using All.
  intros Hi Hidle [t0 Ht0].
  assert (Hdec : forall P : pc -> bool, P Idle = false -> (exists t, P (pcs s t) = true) \/ forall t, P (pcs s t) = false).
  { intros P HP. destruct (decide (Exists (fun t => P (pcs s t) = true) (seq 0 T))) as [E|E].
    - left. apply Exists_exists in E as (t & _ & E). by exists t.
    - right. intros t. destruct (P (pcs s t)) eqn:Et; [|done]. exfalso. apply E. apply Exists_exists. exists t. split; [|done].
      apply elem_of_seq. destruct (decide (t < T)%nat); [lia|]. rewrite Hidle in Et by lia. congruence. }
  destruct (Hdec (fun p => if in_epoch p is Some _ then true else false) eq_refl) as [[t Et]|Hno].
  { exists t. unfold advance. destruct (pcs s t); try done; by eexists. }
  assert (Hfree : forall k r, wl_holds (windows s) k r = None).
  { intros k r. destruct (wl_holds _ _ _) as [ty|] eqn:E; [|done]. destruct (iv_holder s Hi k r ty E) as (u & o & _ & Eo & _).
    specialize (Hno u). by rewrite Eo in Hno. }
  destruct (Hdec (fun p => if uses p is Some _ then true else false) eq_refl) as [[t Et]|Hnu].
  { specialize (Hno t). exists t. unfold advance. destruct (pcs s t) as [|o' st|o' times|o'|o' st]; try done.
    destruct (ww_free (windows s) (op_key o') (nd t) (op_type o')) as [m ->]; [done|]. by eexists. }
  specialize (Hno t0). pose proof (Hnu t0) as Hnu0. exists t0. unfold advance. destruct (pcs s t0) as [|o st|o times|o|o st]; try done.
  destruct (_local_lock _) eqn:El; [|by eexists]. destruct (iv_taken s Hi _ _ El) as (u & o' & _ & Eu & _). specialize (Hnu u). by rewrite Eu in Hnu.
Qed.

Lemma mpi_finish T : forall m s, invariant s -> (forall t, (T <= t)%nat -> pcs s t = Idle) -> (sum_upto (fun t => rank (pcs s t)) T <= m)%nat ->
  exists s', rtc finishing s s' /\ forall t, pcs s' t = Idle.
Proof using All.
  induction m as [m IH] using lt_wf_ind. intros s Hi Hidle Hm.
  destruct (decide (Exists (fun t => pcs s t <> Idle) (seq 0 T))) as [E|E].
  - assert (Hex : exists t, pcs s t <> Idle) by (apply Exists_exists in E as (t & _ & E); by exists t).
    destruct (mpi_progress s T (clock s) Hi Hidle Hex) as (t & s1 & Ea). pose proof (advance_rank _ _ _ _ _ _ Ea) as [Hlt Hoth].
    assert (Ht : (t < T)%nat) by (destruct (decide (t < T)%nat); [done|]; rewrite (Hidle t) in Hlt by lia; simpl in Hlt; lia).
    assert (Hi1 : invariant s1) by (apply (mpi_step_invariant s); [done|]; by apply (step_advance s t (clock s) (clock s) (clock s)); [lia|lia|]).
    assert (Hsum : (sum_upto (fun t => rank (pcs s1 t)) T < sum_upto (fun t => rank (pcs s t)) T)%nat).
    { apply (sum_lt _ _ t); [done|done|]. intros u _. destruct (decide (u = t)) as [->|Hne]; [lia|]. by rewrite Hoth. }
    destruct (IH (sum_upto (fun t => rank (pcs s1 t)) T) ltac:(lia) s1 Hi1) as (s' & Hr & Hd); [|done|].
    + intros u Hu. rewrite Hoth by lia. by apply Hidle.
    + exists s'. split; [|done]. apply (rtc_l _ _ s1); [by apply (finishing_advance s t)|done].
  - exists s. split; [apply rtc_refl|]. intros t. destruct (decide (pcs s t = Idle)) as [|Hne]; [done|]. exfalso. apply E, Exists_exists.
    exists t. split; [|done]. apply elem_of_seq. destruct (decide (t < T)%nat); [lia|]. by rewrite Hidle in Hne by lia.
Qed.

(** ** Statistics *)

(** What holds of the counters at any time. *)
Record counters_ok (l : mpi_lock) : Prop := {
  co_local_lock : 0 <= _max_local_lock_time l <= _local_lock_time l;
  co_local_hold : 0 <= _max_local_hold_time l <= _local_hold_time l;
  co_mpi_lock : 0 <= _max_mpi_lock_time l <= _mpi_lock_time l;
  co_mpi_hold : 0 <= _max_mpi_hold_time l <= _mpi_hold_time l;
  co_mpi_unlock : 0 <= _mpi_unlock_time l <= _mpi_hold_time l;
  co_max_unlock : _max_mpi_unlock_time l = 0;
}.

(** How the times of lock [l] relate while a thread at [p] uses it. *)
Definition thread_times (now : Z) (l : mpi_lock) (p : pc) : Prop :=
  match p with
  | Idle => True
  | Spinning _ local_start => local_start <= now
  | Locking _ times =>
    _mpi_lock_time l + _mpi_hold_time l <= _local_hold_time l <= _local_acquire_time l /\ _local_acquire_time l <= now /\
    match times with
    | Some (local_start, local_end, mpi_start) =>
      local_start <= local_end /\ local_end <= mpi_start <= now /\ local_end = _local_acquire_time l
    | None => True
    end
  | Inside _ | Unlocking _ _ =>
    _mpi_lock_time l + _mpi_hold_time l <= _local_hold_time l + (_mpi_acquire_time l - _local_acquire_time l) /\
    _local_hold_time l <= _local_acquire_time l <= _mpi_acquire_time l /\ _mpi_acquire_time l <= now /\
    match p with Unlocking _ mpi_start => _mpi_acquire_time l <= mpi_start <= now | _ => True end
  end.

Definition pc_lock (s : state) (t : nat) : mpi_lock :=
  match pcs s t with
  | Idle => mpi_lock_new
  | Spinning o _ | Locking o _ | Inside o | Unlocking o _ => locks s (nd t) (op_key o)
  end.

Record times_ok (s : state) : Prop := {
  to_clock : 0 <= clock s;
  to_counters r k : counters_ok (locks s r k);
  to_idle r k : _local_lock (locks s r k) = false ->
    _mpi_lock_time (locks s r k) + _mpi_hold_time (locks s r k) <= _local_hold_time (locks s r k) <= clock s;
  to_thread t : thread_times (clock s) (pc_lock s t) (pcs s t);
}.

Lemma thread_times_later now now' l p : now <= now' -> thread_times now l p -> thread_times now' l p.
Proof using. destruct p as [|o st|o [[[??]?]|]|o|o st]; simpl; lia. Qed.

(** The lock of thread [t] changes; no other thread uses it. *)
Lemma times_set s t o p l m now : invariant s -> times_ok s -> clock s <= now ->
  (uses (pcs s t) = Some o \/ uses (pcs s t) = None /\ _local_lock (locks s (nd t) (op_key o)) = false) ->
  counters_ok l -> (_local_lock l = false -> _mpi_lock_time l + _mpi_hold_time l <= _local_hold_time l <= now) ->
  thread_times now l p -> (match p with Idle => True | Spinning o' _ | Locking o' _ | Inside o' | Unlocking o' _ => o' = o end) ->
  times_ok (set_pc (set_lock (set_windows s m) (nd t) (op_key o) l) t p now).
Proof using.
  intros Hi [C1 C2 C3 C4] Hnow Hu L1 L2 L3 Hp.
  assert (Hl : forall r k, locks (set_pc (set_lock (set_windows s m) (nd t) (op_key o) l) t p now) r k =
    if decide (r = nd t /\ k = op_key o) then l else locks s r k) by (intros; by rewrite <- locks_set).
  split.
  - cbn [set_pc clock]. lia.
  - intros r k. rewrite Hl. by case_decide.
  - intros r k. rewrite Hl. case_decide; [done|]. intros E. specialize (C3 r k E). cbn [set_pc clock]. lia.
  - intros u. cbn [set_pc clock]. unfold pc_lock.
    change (pcs (set_pc _ t p now) u) with (if decide (t = u) then p else pcs s u). destruct (decide (t = u)) as [<-|Hne].
    + destruct p as [|o' st|o' times|o'|o' st]; [done|..]; subst o'; by rewrite Hl, decide_True.
    + specialize (C4 u). apply (thread_times_later _ now) in C4; [|done]. unfold pc_lock in C4. revert C4.
      destruct (pcs s u) as [|o' st|o' times|o'|o' st] eqn:Eu; try done; rewrite Hl; (rewrite decide_False; [done|]); intros [E1 E2]; apply Hne;
        (destruct Hu as [Hu|[Hu Hfree]]; [by apply (iv_one s Hi t u o o'); [|rewrite Hu|rewrite Eu|]|]);
        exfalso; apply (iv_free s Hi _ _ Hfree u o'); by rewrite ?Eu.
Qed.

Lemma times_pc s t p now : times_ok s -> clock s <= now -> thread_times now (pc_lock (set_pc s t p now) t) p -> times_ok (set_pc s t p now).
Proof using.
  intros [C1 C2 C3 C4] Hnow Hp. split; cbn [set_pc clock locks]; [lia|done|intros r k E; specialize (C3 r k E); lia|].
  intros u. destruct (decide (t = u)) as [<-|Hne].
  - change (pcs (set_pc s t p now) t) with (if decide (t = t) then p else pcs s t). by rewrite decide_True.
  - specialize (C4 u). unfold pc_lock in *. change (pcs (set_pc s t p now) u) with (if decide (t = u) then p else pcs s u).
    rewrite decide_False by done. by apply (thread_times_later (clock s)).
Qed.

Lemma counters_lock l a b c d : counters_ok l -> a <= b -> c <= d -> counters_ok (lock_mpi l a b c d).
Proof using. intros [? ? ? ? ? ?] H1 H2. split; cbn; try lia; case_match; lia. Qed.

Lemma counters_unlock l a b c : counters_ok l -> _local_acquire_time l <= c -> _mpi_acquire_time l <= a <= b -> counters_ok (unlock l a b c).
Proof using. intros [? ? ? ? ? ?] H1 H2. split; cbn; try lia; case_match; lia. Qed.

Lemma times_reset s r k : times_ok s -> times_ok (set_lock s r k (reset_stats (locks s r k))).
Proof using.
  intros [C1 C2 C3 C4].
  split; [done| | |].
  - intros r' k'. rewrite locks_set. case_decide; [|done]. split; cbn; lia.
  - intros r' k'. rewrite locks_set. case_decide as E; [|by apply C3]. cbn. lia.
  - intros t. specialize (C4 t). unfold pc_lock in *. change (pcs (set_lock s r k (reset_stats (locks s r k)))) with (pcs s).
    change (clock (set_lock s r k (reset_stats (locks s r k)))) with (clock s).
    destruct (pcs s t) as [|o st|o [[[??]?]|]|o|o st]; try done; rewrite locks_set; (case_decide as E; [|done]);
      destruct E as [<- <-]; destruct (C2 (nd t) (op_key o)); cbn in *; lia.
Qed.

Lemma mpi_step_times s s' : invariant s -> times_ok s -> step s s' -> times_ok s'.
Proof using.
  intros Hi Ht Hs. destruct Hs as [s t o now Ep Hn|s t o now Ep Hn|s t now later last s' Hn Hl Ea|s r k].
  - apply times_pc; [done|done|]. simpl. lia.
  - unfold start_trylock. destruct (_local_lock _) eqn:El; [by apply times_pc|]. pose proof (to_idle s Ht _ _ El) as Hid.
    apply (times_set s t o _ _ (windows s)); try done; [right; by rewrite Ep|by destruct (to_counters s Ht (nd t) (op_key o))|cbn; lia].
  - unfold advance in Ea. pose proof (to_thread s Ht t) as Htt. unfold pc_lock in Htt. destruct (pcs s t) as [|o st|o times|o|o st] eqn:Ep; [done|..].
    + destruct (_local_lock _) eqn:El; [done|]. injection Ea as <-. pose proof (to_idle s Ht _ _ El) as Hid.
      apply (times_set s t o _ _ (windows s)); try done; [lia|right; by rewrite Ep|by destruct (to_counters s Ht (nd t) (op_key o))|cbn in *; lia].
    + destruct (wl_grant _ _ _ _) as [m|] eqn:Eg; [|done]. injection Ea as <-. destruct (to_counters s Ht (nd t) (op_key o)) eqn:Ec. clear Ec.
      apply (times_set s t o _ _ m); try done; [lia|left; by rewrite Ep| | |].
      * destruct times as [[[a b] c]|]; [|by split]. cbn in Htt. apply counters_lock; [by split|lia|lia].
      * intros E. exfalso. apply (iv_free s Hi (nd t) (op_key o)) with (t := t) (o := o); [|done|by rewrite Ep|done].
        by destruct times as [[[a b] c]|].
      * destruct times as [[[a b] c]|]; cbn in *; lia.
    + injection Ea as <-. apply times_pc; [done|lia|]. unfold pc_lock. change (pcs (set_pc s t (Unlocking o now) last) t) with (if decide (t = t) then Unlocking o now else pcs s t).
      rewrite decide_True by done. cbn in *. lia.
    + injection Ea as <-. cbn in Htt. apply (times_set s t o _ _ (wl_release (windows s) (op_key o) (nd t))); try done; [lia|left; by rewrite Ep| |cbn; lia].
      apply counters_unlock; [by apply to_counters|lia|lia].
  - by apply times_reset.
Qed.

Lemma mpi_reachable_times s : reachable s -> invariant s /\ times_ok s.
Proof using All.
  intros Hr. assert (Hi : invariant initial /\ times_ok initial) by (split; [apply mpi_initial_invariant|split; try done; intros; by split]).
  unfold reachable in Hr. revert Hi. induction Hr as [|s s1 s2 Hs _ IH]; [done|]. intros [Hi Ht]. apply IH.
  split; [by apply (mpi_step_invariant s)|by apply (mpi_step_times s)].
Qed.

End System.

(** C16: the window locks protect the windows.  In every interleaving of the threads of
    all nodes, two threads that are at the same time in operations on the same window
    and target are on different nodes and both only share the window; and a thread
    that calls [MPI_Win_lock] is on a node that has no epoch on that window open, as
    MPI demands. *)
Theorem window_locks_exclude {M : Type} `{WindowLockLaws M} (nd : nat -> nat) (s : state) :
  reachable nd s ->
  (forall t u o o', t <> u -> in_epoch (pcs s t) = Some o -> in_epoch (pcs s u) = Some o' -> op_key o = op_key o' ->
     nd t <> nd u /\ op_type o = MPI_LOCK_SHARED /\ op_type o' = MPI_LOCK_SHARED) /\
  (forall t o times, pcs s t = Locking o times -> wl_holds (windows s) (op_key o) (nd t) = None).
Proof.
  intros Hr. pose proof (mpi_reachable_invariant nd s Hr) as Hi. split.
  - intros t u o o' Hne Et Eu Ek.
    assert (Hnd : nd t <> nd u).
    { intros En. apply Hne. apply (iv_one nd s Hi t u o o'); [done|by apply epoch_uses..|done]. }
    pose proof (iv_holds nd s Hi t o Et) as Ht. pose proof (iv_holds nd s Hi u o' Eu) as Hu. rewrite <- Ek in Hu.
    split_and!; [done|..].
    + destruct (op_type o) eqn:E; [done|]. by destruct Hnd; apply (iv_exclusive nd s Hi _ _ _ _ Ht Hu).
    + destruct (op_type o') eqn:E; [done|]. by destruct Hnd; symmetry; apply (iv_exclusive nd s Hi _ _ _ _ Hu Ht).
  - intros t o times Ep. by apply (no_epoch nd s t o Hi); rewrite Ep.
Qed.

(** The window locks do not deadlock.  In every reachable state of finitely many
    threads the operations under way can all be finished, by steps none of which
    starts another operation. *)
Theorem window_locks_progress {M : Type} `{WindowLockLaws M} (nd : nat -> nat) (T : nat) (s : state) :
  reachable nd s -> (forall t, (T <= t)%nat -> pcs s t = Idle) ->
  exists s', rtc (finishing nd) s s' /\ forall t, pcs s' t = Idle.
Proof.
  intros Hr HT. pose proof (mpi_reachable_invariant nd s Hr) as Hi. by apply (mpi_finish nd T (sum_upto (fun t => rank (pcs s t)) T)).
Qed.

(** The statistics of a window lock are consistent.  Whatever is locked, tried,
    unlocked and reset in between, each maximum is at most its total, the time in
    [MPI_Win_unlock] is part of the time the window was held, and on a lock no thread
    uses, waiting for and holding the window happened while the spin lock was held,
    which in total took no longer than the program has run. *)
Theorem window_lock_statistics {M : Type} `{WindowLockLaws M} (nd : nat -> nat) (s : state) (r : nat) (k : key) :
  reachable nd s -> let l := locks s r k in
  0 <= get_max_local_lock_time l <= get_local_lock_time l /\ 0 <= get_max_local_hold_time l <= get_local_hold_time l /\
  0 <= get_max_mpi_lock_time l <= get_mpi_lock_time l /\ 0 <= get_max_mpi_hold_time l <= get_mpi_hold_time l /\
  0 <= get_mpi_unlock_time l <= get_mpi_hold_time l /\
  (_local_lock l = false -> get_mpi_lock_time l + get_mpi_hold_time l <= get_local_hold_time l <= clock s).
Proof.
  intros Hr. cbv zeta. unfold get_local_lock_time, get_max_local_lock_time, get_local_hold_time, get_max_local_hold_time, get_mpi_lock_time,
    get_max_mpi_lock_time, get_mpi_unlock_time, get_mpi_hold_time, get_max_mpi_hold_time.
  destruct (mpi_reachable_times nd s Hr) as [_ [_ C I _]]. destruct (C r k). specialize (I r k). split_and!; try lia. exact I.
Qed.

(** The longest [MPI_Win_unlock] is never recorded: [get_max_mpi_unlock_time] returns 0
    for ever. *)
Lemma max_unlock_never_set {M : Type} `{WindowLockLaws M} (nd : nat -> nat) (s : state) (r : nat) (k : key) :
  reachable nd s -> get_max_mpi_unlock_time (locks s r k) = 0.
Proof. intros Hr. destruct (mpi_reachable_times nd s Hr) as [_ [_ C _ _]]. by destruct (C r k). Qed.

(** ** A concrete MPI *)

(** The epochs that are open. *)
Definition epochs : Type := list (key * nat * lock_type).

Fixpoint epoch_of (m : epochs) (k : key) (r : nat) : option lock_type :=
  match m with
  | [] => None
  | (k', r', ty) :: m => if decide (k' = k /\ r' = r) then Some ty else epoch_of m k r
  end.
Fixpoint close_epoch (m : epochs) (k : key) (r : nat) : epochs :=
  match m with
  | [] => []
  | (k', r', ty) :: m => if decide (k' = k /\ r' = r) then close_epoch m k r else (k', r', ty) :: close_epoch m k r
  end.
Definition compatible (k : key) (ty : lock_type) '((k', _, ty') : key * nat * lock_type) : bool :=
  negb (bool_decide (k' = k)) || (bool_decide (ty = MPI_LOCK_SHARED) && bool_decide (ty' = MPI_LOCK_SHARED)).

#[export] Instance epoch_list : WindowLocks epochs := {|
  wl_init := [];
  wl_grant m k r ty := if forallb (compatible k ty) m then Some ((k, r, ty) :: m) else None;
  wl_release := close_epoch;
  wl_holds := epoch_of |}.

#[export] Instance epoch_list_laws : WindowLockLaws epochs.
Proof.
  split; cbn [epoch_list wl_init wl_grant wl_release wl_holds].
  - done.
  - intros m k r ty m' Hn E. destruct (forallb _ _) eqn:Ef; [|done]. injection E as <-. split.
    + clear Hn. intros r' ty' Eh. induction m as [|[[k1 r1] ty1] m IH]; [done|]. simpl in Ef, Eh. apply andb_true_iff in Ef as [E1 E2].
      case_decide as Ek; [|by apply IH]. injection Eh as ->. destruct Ek as [-> _]. rewrite bool_decide_eq_true_2 in E1 by done.
      apply andb_true_iff in E1 as [?%bool_decide_eq_true ?%bool_decide_eq_true]. done.
    + intros k' r'. simpl. destruct (decide (k = k' /\ r = r')) as [[-> ->]|E]; [by rewrite decide_True|]. rewrite decide_False; [done|].
      intros [-> ->]. by apply E.
  - intros m k r k' r'. induction m as [|[[k1 r1] ty1] m IH]; simpl; [by case_decide|].
    destruct (decide (k1 = k /\ r1 = r)) as [[-> ->]|E]; simpl; rewrite IH.
    + destruct (decide (k = k' /\ r = r')) as [[-> ->]|E']; [by rewrite !(decide_True (P := k' = k' /\ r' = r'))|done].
    + destruct (decide (k1 = k' /\ r1 = r')) as [[-> ->]|E']; [by rewrite decide_False|done].
  - intros m k r ty Hn. destruct (forallb _ _) eqn:Ef; [by eexists|]. exfalso. induction m as [|[[k1 r1] ty1] m IH]; [done|].
    simpl in Ef. apply andb_false_iff in Ef as [Ef|Ef].
    + assert (k1 = k) as ->. { destruct (decide (k1 = k)) as [|Hne]; [done|]. by rewrite bool_decide_eq_false_2 in Ef. }
      specialize (Hn r1). simpl in Hn. by rewrite decide_True in Hn.
    + apply IH; [|done]. intros r'. specialize (Hn r'). simpl in Hn. by case_decide.
Qed.

(** Threads 0 and 1 on node 0 and 2 on node 1; thread 0 is inside, thread 1 spins and
    thread 2 shares the window with thread 0. *)
Definition demo_node (t : nat) : nat := if (t =? 2)%nat then 1 else 0.
Definition demo_op : op := {| op_type := MPI_LOCK_SHARED; op_key := (0, 0)%nat |}.
Definition demo_advance (s : option (state (M := epochs))) (t : nat) (now : Z) : option (state (M := epochs)) :=
  s ← s; advance demo_node s t now now now.
Definition demo_locks : option (state (M := epochs)) :=
  let s := start_lock initial 0 demo_op 1 in
  let s := start_lock s 1 demo_op 2 in
  let s := start_lock s 2 demo_op 3 in
  demo_advance (demo_advance (demo_advance (demo_advance (Some s) 0 4) 0 5) 2 6) 2 7.

Lemma demo_advance_reachable s t now s' : reachable demo_node s -> clock s <= now -> demo_advance (Some s) t now = Some s' ->
  reachable demo_node s' /\ clock s' = now.
Proof.
  intros Hr Hc Ea. split; [eapply rtc_r; [exact Hr|]; by apply (step_advance demo_node s t now now now); [lia|lia|]|].
  unfold demo_advance, mbind, option_bind, advance in Ea. destruct (pcs s t) as [|o st|o times|o|o st]; [done|..].
  - destruct (_local_lock _); [done|]. by injection Ea as <-.
  - destruct (wl_grant _ _ _ _); [|done]. by injection Ea as <-.
  - by injection Ea as <-.
  - by injection Ea as <-.
Qed.

Lemma demo_locks_run : exists s, demo_locks = Some s /\ reachable demo_node s /\ (forall t, (3 <= t)%nat -> pcs s t = Idle) /\
  pcs s 0 = Inside demo_op /\ pcs s 2 = Inside demo_op /\ _local_lock_time (locks s 0 (0, 0)%nat) = 3.
Proof.
  unfold demo_locks. cbv zeta.
  assert (H0 : reachable demo_node (start_lock (start_lock (start_lock initial 0 demo_op 1) 1 demo_op 2) 2 demo_op 3)).
  { unfold reachable. eapply rtc_l; [by apply (step_lock demo_node initial 0 demo_op 1)|].
    eapply rtc_l; [by apply (step_lock demo_node (start_lock initial 0 demo_op 1) 1 demo_op 2)|].
    apply rtc_once. by apply (step_lock demo_node (start_lock (start_lock initial 0 demo_op 1) 1 demo_op 2) 2 demo_op 3). }
  destruct (demo_advance (Some _) 0 4) as [s1|] eqn:E1; [|by vm_compute in E1].
  destruct (demo_advance_reachable _ 0%nat 4 s1 H0 ltac:(by vm_compute) E1) as [H1 C1].
  destruct (demo_advance (Some s1) 0 5) as [s2|] eqn:E2; [|by injection E1 as <-; vm_compute in E2].
  destruct (demo_advance_reachable _ 0%nat 5 s2 H1 ltac:(lia) E2) as [H2 C2].
  destruct (demo_advance (Some s2) 2 6) as [s3|] eqn:E3; [|by injection E1 as <-; injection E2 as <-; vm_compute in E3].
  destruct (demo_advance_reachable _ 2%nat 6 s3 H2 ltac:(lia) E3) as [H3 C3].
  destruct (demo_advance (Some s3) 2 7) as [s4|] eqn:E4; [|by injection E1 as <-; injection E2 as <-; injection E3 as <-; vm_compute in E4].
  destruct (demo_advance_reachable _ 2%nat 7 s4 H3 ltac:(lia) E4) as [H4 C4].
  exists s4. split; [done|]. split; [done|]. injection E1 as <-. injection E2 as <-. injection E3 as <-. injection E4 as <-.
  split; [|done]. intros t Ht. destruct t as [|[|[|t]]]; [lia..|done].
Qed.

Lemma window_locks_exclude_witness : exists s : state (M := epochs), in_epoch (pcs s 0) = Some demo_op /\ in_epoch (pcs s 2) = Some demo_op /\
  demo_node 0 <> demo_node 2.
Proof.
  destruct demo_locks_run as (s & _ & Hr & _ & E0 & E2 & _). exists s. rewrite E0, E2. split_and!; [reflexivity|reflexivity|].
  apply (proj1 (window_locks_exclude demo_node s Hr) 0%nat 2%nat demo_op demo_op); [done|by rewrite E0|by rewrite E2|reflexivity].
Defined.

Lemma window_locks_progress_witness : exists s s' : state (M := epochs), pcs s 0 = Inside demo_op /\ rtc (finishing demo_node) s s' /\ pcs s' 0 = Idle.
Proof.
  destruct demo_locks_run as (s & _ & Hr & HT & E0 & _). destruct (window_locks_progress demo_node 3 s Hr HT) as (s' & Hs & Hd).
  exists s, s'. split_and!; [exact E0|exact Hs|apply Hd].
Defined.

Lemma window_lock_statistics_witness : exists s : state (M := epochs),
  _local_lock_time (locks s 0 (0, 0)%nat) = 3 /\ 0 <= _max_local_lock_time (locks s 0 (0, 0)%nat) <= _local_lock_time (locks s 0 (0, 0)%nat).
Proof.
  destruct demo_locks_run as (s & _ & Hr & _ & _ & _ & E). exists s. split; [exact E|].
  exact (proj1 (window_lock_statistics demo_node s 0%nat (0, 0)%nat Hr)).
Defined.
