(* ===== verification/Signal.v ===== *)
(** * Signals

    [src/src/signal/signal.hpp]: the class that stands between the operating system and
    the fault handler of a backend, and the part of [handler] of
    [src/src/backend/mpi/swdsm.cpp] that decodes a fault.  The theorems show that a
    fault in the global memory reaches the handler with the offset and the kind of
    access the DSM model gives it, and any other fault the application. *)

From S2P Require Import Prelude BlockMap DataDistribution FirstTouch GlobalPtr Mem Swdsm SwdsmBase VirtualMemory.

Definition SIGSEGV : Z := 11.
Definition SA_SIGINFO : Z := 4.

(** What a handler gets: the address of the fault, and from the context the error
    code of the processor. *)
Record siginfo := Siginfo { si_addr : Z }.
Record ucontext := Ucontext { gregs_REG_ERR : Z }.

Definition msg_argo_unitialized : string :=
  "ArgoDSM must be configured to capture a signal before application handlers can be installed".

(** ** The class signal_handler *)
Section Class.

(** [W] is the state of the process the handlers work on. *)
Context {W : Type}.

(** The type [handler_ftype]. *)
Definition handler_ftype : Type := Z -> siginfo -> ucontext -> W -> outcome W.

(** The function of a [struct sigaction]: one of the two constants, a handler of one
    argument, one of three, or [argo_signal_handler] itself. *)
Inductive sig_function :=
  | SIG_DFL
  | SIG_IGN
  | Sa_handler (f : Z -> W -> outcome W)
  | Sa_sigaction (f : handler_ftype)
  | Argo_signal_handler.

Record sigaction := Sigaction { sa_flags : Z; sa_function : sig_function }.

(** The static members, and what the operating system has recorded. *)
Record signal_state := SignalState {
  argo_handler : option handler_ftype;
  application_handler : sigaction;
  disposition : sigaction;
}.

Definition install_argo_handler (s : signal_state) (h : handler_ftype) : signal_state :=
  {| argo_handler := Some h; application_handler := disposition s;
     disposition := {| sa_flags := SA_SIGINFO; sa_function := Argo_signal_handler |} |}.

Definition install_application_handler (s : signal_state) (h : sigaction) : outcome (sigaction * signal_state) :=
  match argo_handler s with
  | None => Throw (runtime_error msg_argo_unitialized)
  | Some _ => Ok (application_handler s, {| argo_handler := argo_handler s; application_handler := h; disposition := disposition s |})
  end.

Context {S : Type} (V : virtual_memory S).

(** [fuel] bounds how often [argo_signal_handler] calls itself. *)
Fixpoint argo_signal_handler (fuel : nat) (s : signal_state) (v : S) (sig : Z) (si : siginfo) (context : ucontext) (w : W) : outcome W :=
  let addr := si_addr si in
  let start := vm_start_address V v in
  let end_ := add64 start (vm_size V v) in
  if (addr <? start) || (end_ <=? addr) then
    let h := application_handler s in
    if negb (Z.land (sa_flags h) SA_SIGINFO =? 0) then
      match sa_function h with
      | Sa_sigaction f => f sig si context w
      | Argo_signal_handler =>
        match fuel with O => Hang | Datatypes.S fuel => argo_signal_handler fuel s v sig si context w end
      | _ => Throw (undefined_behaviour "call through sa_sigaction")
      end
    else
      match sa_function h with
      | Sa_handler f => f sig w
      | _ => Throw (undefined_behaviour "call through sa_handler")
      end
  else
    match argo_handler s with
    | Some h => h sig si context w
    | None => Throw (undefined_behaviour "call of a null argo_handler")
    end.

(** The operating system delivers a signal. *)
Definition deliver (s : signal_state) (v : S) (sig : Z) (si : siginfo) (context : ucontext) (w : W) : outcome W :=
  match sa_function (disposition s) with
  | SIG_DFL => Throw (system_error "terminated by a signal")
  | SIG_IGN => Ok w
  | Sa_handler f => f sig w
  | Sa_sigaction f => f sig si context w
  | Argo_signal_handler => argo_signal_handler 0 s v sig si context w
  end.

End Class.
Arguments handler_ftype : clear implicits.
Arguments sig_function : clear implicits.
Arguments sigaction : clear implicits.
Arguments signal_state : clear implicits.

(** ** The fault handler of the MPI backend *)

Definition X86_PF_PROT : Z := 1.
Definition X86_PF_WRITE : Z := 2.
Definition X86_PF_USER : Z := 4.
Definition X86_PF_RSVD : Z := 8.

(** The decoding of the error code, with its assertions. *)
Definition decode_miss (err_num : Z) : outcome access_type :=
  if Z.land err_num X86_PF_USER =? 0 then Throw (assertion_failed "err_num & X86_PF_USER")
  else if negb (err_num <? X86_PF_RSVD) then Throw (assertion_failed "err_num < X86_PF_RSVD")
  else Ok (if Z.land err_num X86_PF_WRITE =? 0 then access_read else access_write).

Section Faults.

Context (c : dsm_config) (pl : placement).

(** [handler] as it is installed; [reg_err] tells whether the platform has [REG_ERR]. *)
Definition mpi_handler (reg_err : bool) (r : Z) : handler_ftype dsm := fun _ si context s =>
  let access_offset := sub64 (si_addr si) (startAddr c) in
  miss_type ← (if reg_err then decode_miss (gregs_REG_ERR context) else Ok access_undefined);
  handler c pl s r access_offset miss_type.

(** The error code of a user's access to a page that is [present] or not. *)
Definition fault_code (write present : bool) : Z :=
  Z.lor X86_PF_USER (Z.lor (if write then X86_PF_WRITE else 0) (if present then X86_PF_PROT else 0)).

Context {S : Type} (V : virtual_memory S) (reg_err : bool) (sg : signal_state dsm) (v : S).

(** Accesses of the application on node [r], with the processor's check of the page
    tables and the delivery of faults; [present] is the processor's choice. *)
Fixpoint user_load (fuel : nat) (present : bool) (s : dsm) (r a : Z) : outcome (dsm * Z) :=
  let p := align_backwards a PAGE_SIZE in
  if can_read s r p then Ok (s, backing_byte s r (fst (vmap s r p)) (a mod PAGE_SIZE))
  else match fuel with
       | O => Hang
       | Datatypes.S fuel =>
         s ← deliver V sg v SIGSEGV {| si_addr := startAddr c + a |} {| gregs_REG_ERR := fault_code false present |} s;
         user_load fuel present s r a
       end.

Fixpoint user_store (fuel : nat) (present : bool) (s : dsm) (r a x : Z) : outcome dsm :=
  let p := align_backwards a PAGE_SIZE in
  if can_write s r p then Ok (put_byte s r (fst (vmap s r p)) (a mod PAGE_SIZE) x)
  else match fuel with
       | O => Hang
       | Datatypes.S fuel =>
         s ← deliver V sg v SIGSEGV {| si_addr := startAddr c + a |} {| gregs_REG_ERR := fault_code true present |} s;
         user_store fuel present s r a x
       end.

End Faults.

(** ** Dispatch *)
Section Dispatch.

Context {W S : Type} (V : virtual_memory S).

(** The application installs handlers one after the other and keeps what it gets back. *)
Fixpoint install_all (s : signal_state W) (acts : list (sigaction W)) : outcome (list (sigaction W) * signal_state W) :=
  match acts with
  | [] => Ok ([], s)
  | h :: acts =>
    '(old, s) ← install_application_handler s h;
    '(olds, s) ← install_all s acts; Ok (old :: olds, s)
  end.

(** The flag and the function of an action agree, and it is a function. *)
Definition callable (h : sigaction W) : Prop :=
  match sa_function h with
  | Sa_handler _ => Z.land (sa_flags h) SA_SIGINFO = 0
  | Sa_sigaction _ => Z.land (sa_flags h) SA_SIGINFO <> 0
  | _ => False
  end.

(** Delivery to an action, as if ArgoDSM were not there. *)
Definition direct (h : sigaction W) (sig : Z) (si : siginfo) (context : ucontext) (w : W) : outcome W :=
  match sa_function h with
  | Sa_handler f => f sig w
  | Sa_sigaction f => f sig si context w
  | _ => Throw (undefined_behaviour "not a function")
  end.

(** The handler installed last. *)
Definition final (h : sigaction W) (acts : list (sigaction W)) : sigaction W := fold_left (fun _ a => a) acts h.

Lemma install_all_spec acts : forall s h, argo_handler s = Some h ->
  exists olds, install_all s acts = Ok (olds, {| argo_handler := Some h; application_handler := final (application_handler s) acts; disposition := disposition s |}) /\
    application_handler s :: acts = olds ++ [final (application_handler s) acts].
Proof using.
  induction acts as [|a acts IH]; intros [ah app d] h Eh; simpl in *; subst ah; [by exists []|].
  destruct (IH {| argo_handler := Some h; application_handler := a; disposition := d |} h eq_refl) as (olds & E & El).
  unfold install_application_handler. cbn [argo_handler application_handler disposition mbind outcome_bind] in *. rewrite E.
  exists (app :: olds). split; [done|]. simpl. unfold final in *. simpl. by rewrite El.
Qed.

Lemma argo_signal_inside fuel (s : signal_state W) v sig si context w h : argo_handler s = Some h ->
  0 <= vm_start_address V v -> 0 <= vm_size V v -> vm_start_address V v + vm_size V v < 2 ^ 64 -> visible V v (si_addr si) ->
  argo_signal_handler V fuel s v sig si context w = h sig si context w.
Proof using.
  intros Eh H1 H2 H3 [Hv1 Hv2]. destruct fuel; simpl; rewrite add64_small by lia;
    destruct (Z.ltb_spec (si_addr si) (vm_start_address V v)); try lia;
    destruct (Z.leb_spec (vm_start_address V v + vm_size V v) (si_addr si)); try lia; simpl; by rewrite Eh.
Qed.

Lemma argo_signal_outside fuel (s : signal_state W) v sig si context w : callable (application_handler s) ->
  0 <= vm_start_address V v -> 0 <= vm_size V v -> vm_start_address V v + vm_size V v < 2 ^ 64 -> ~ visible V v (si_addr si) ->
  argo_signal_handler V fuel s v sig si context w = direct (application_handler s) sig si context w.
Proof using.
  intros Hc H1 H2 H3 Hv. unfold visible, in_range in Hv.
  assert (E : (si_addr si <? vm_start_address V v) || (add64 (vm_start_address V v) (vm_size V v) <=? si_addr si) = true) by (rewrite add64_small by lia; lia).
  unfold callable in Hc. unfold direct. destruct fuel; simpl; rewrite E;
    (destruct (sa_function (application_handler s)); try done; [by rewrite Hc|by destruct (Z.eqb_spec (Z.land (sa_flags (application_handler s)) SA_SIGINFO) 0)]).
Qed.

End Dispatch.

(** Signals reach who they are for.  Once ArgoDSM has installed its handler, and
    whatever handlers the application installs afterwards, a fault in the visible
    range runs ArgoDSM's handler, and any other fault does what it would do if the
    application's last handler were installed with the operating system; the
    application gets back the handlers it replaces, first of all the one that was
    there before ArgoDSM. *)
Theorem signal_dispatch {W S : Type} (V : virtual_memory S) (s0 : signal_state W) (h : handler_ftype W) (acts : list (sigaction W))
    (v : S) (sig : Z) (si : siginfo) (context : ucontext) (w : W) :
  0 <= vm_start_address V v -> 0 <= vm_size V v -> vm_start_address V v + vm_size V v < 2 ^ 64 ->
  exists olds s, install_all (install_argo_handler s0 h) acts = Ok (olds, s) /\
    disposition s0 :: acts = olds ++ [application_handler s] /\
    (visible V v (si_addr si) -> deliver V s v sig si context w = h sig si context w) /\
    (~ visible V v (si_addr si) -> callable (application_handler s) ->
     deliver V s v sig si context w = direct (application_handler s) sig si context w).
Proof.
  intros H1 H2 H3. destruct (install_all_spec acts (install_argo_handler s0 h) h eq_refl) as (olds & E & El).
  eexists olds, _. split; [exact E|]. split; [exact El|]. unfold deliver. cbn [disposition install_argo_handler sa_function application_handler]. split.
  - intros Hv. by apply argo_signal_inside.
  - intros Hv Hc. by apply argo_signal_outside.
Qed.

(** C28: the DSM model's accesses are what the application's accesses do.  Loads and
    stores that fault, with the faults delivered through [argo_signal_handler] and the
    error code decoded by the handler, whatever the processor says of the page's
    presence, behave as [app_load] and [app_store] of the model; without [REG_ERR] the
    handler does not know the kind of access. *)
Theorem faults_reach_handler {S : Type} (V : virtual_memory S) (c : dsm_config) (pl : placement) (reg_err : bool)
    (s0 : signal_state dsm) (acts : list (sigaction dsm)) (olds : list (sigaction dsm)) (sg : signal_state dsm) (v : S) (r a x : Z)
    (fuel : nat) (present : bool) (s : dsm) :
  install_all (install_argo_handler s0 (mpi_handler c pl reg_err r)) acts = Ok (olds, sg) ->
  startAddr c = vm_start_address V v -> 0 <= startAddr c -> size_of_all c <= vm_size V v -> startAddr c + vm_size V v < 2 ^ 64 ->
  0 <= a < size_of_all c ->
  user_load c V sg v fuel present s r a = app_load c pl fuel s r a (if reg_err then access_read else access_undefined) /\
  user_store c V sg v fuel present s r a x = app_store c pl fuel s r a x (if reg_err then access_write else access_undefined).
Proof.
  intros Ei Est Hst Hsz Hend Ha. destruct (install_all_spec acts (install_argo_handler s0 (mpi_handler c pl reg_err r)) _ eq_refl) as (olds' & E & _).
  rewrite E in Ei. injection Ei as <- Esg.
  assert (Hd : forall s write, deliver V sg v SIGSEGV {| si_addr := startAddr c + a |} {| gregs_REG_ERR := fault_code write present |} s =
    handler c pl s r a (if reg_err then if write then access_write else access_read else access_undefined)).
  { intros s1 write. subst sg. unfold deliver. cbn [disposition install_argo_handler sa_function].
    rewrite (argo_signal_inside V 0 _ v SIGSEGV _ _ _ (mpi_handler c pl reg_err r)); [|done|lia|lia|lia|unfold visible, in_range; simpl; lia].
    unfold mpi_handler. cbn [si_addr gregs_REG_ERR]. rewrite sub64_small by lia. replace (startAddr c + a - startAddr c) with a by lia.
    destruct reg_err; [|done]. by destruct write, present. }
  split; revert s; induction fuel as [|fuel IH]; intros s; simpl; try done.
  - destruct (can_read _ _ _); [done|]. rewrite Hd. cbn iota. destruct reg_err; (destruct (handler _ _ _ _ _ _); [apply IH|done|done]).
  - destruct (can_write _ _ _); [done|]. rewrite Hd. cbn iota. destruct reg_err; (destruct (handler _ _ _ _ _ _); [apply IH|done|done]).
Qed.

(** An application with the default action: a fault of its own is answered by a call
    of [SIG_DFL], which is no function. *)
Example default_action_called : forall {S : Type} (V : virtual_memory S) (v : S) (h : handler_ftype dsm) si context w,
  si_addr si < vm_start_address V v ->
  deliver V (install_argo_handler {| argo_handler := None; application_handler := {| sa_flags := 0; sa_function := SIG_DFL |};
    disposition := {| sa_flags := 0; sa_function := SIG_DFL |} |} h) v SIGSEGV si context w = Throw (undefined_behaviour "call through sa_handler").
Proof. intros S V v h si context w H. unfold deliver. simpl. by destruct (Z.ltb_spec (si_addr si) (vm_start_address V v)); [|lia]. Qed.

(** Installed twice, [argo_signal_handler] becomes the application's handler too, and
    calls itself for ever. *)
Example installed_twice_hangs : forall {S : Type} (V : virtual_memory S) (v : S) (s0 : signal_state dsm) h si context w fuel,
  si_addr si < vm_start_address V v ->
  argo_signal_handler V fuel (install_argo_handler (install_argo_handler s0 h) h) v SIGSEGV si context w = Hang.
Proof.
  intros S V v s0 h si context w fuel H. induction fuel as [|fuel IH]; simpl; (destruct (Z.ltb_spec (si_addr si) (vm_start_address V v)); [|lia]); simpl; [done|exact IH].
Qed.

(** ** A small system *)
Definition demo_vm : File.state process := File.State fresh_process ARGO_VM_START (2 ^ 30).
Definition demo_config : dsm_config := DsmConfig 2 2 1 1 (4 * PAGE_SIZE) ARGO_VM_START 2 1.
Definition demo_placement : placement := naive_distribution (set_memory_space 2 ARGO_VM_START (4 * PAGE_SIZE)).
(** The application's own handlers do nothing. *)
Definition quiet : sigaction dsm := {| sa_flags := 0; sa_function := Sa_handler (fun _ s => Ok s) |}.
Definition before_argo : signal_state dsm := {| argo_handler := None; application_handler := quiet; disposition := quiet |}.
Definition demo_signals : signal_state dsm :=
  {| argo_handler := Some (mpi_handler demo_config demo_placement true 0); application_handler := quiet;
     disposition := {| sa_flags := SA_SIGINFO; sa_function := Argo_signal_handler |} |}.

Lemma signal_dispatch_witness : exists olds s,
  install_all (install_argo_handler before_argo (mpi_handler demo_config demo_placement true 0)) [quiet] = Ok (olds, s) /\
  deliver File.impl s demo_vm SIGSEGV {| si_addr := 4096 |} {| gregs_REG_ERR := 6 |} dsm_reset = Ok dsm_reset.
Proof.
  destruct (signal_dispatch File.impl before_argo (mpi_handler demo_config demo_placement true 0) [quiet] demo_vm SIGSEGV
    {| si_addr := 4096 |} {| gregs_REG_ERR := 6 |} dsm_reset) as (olds & s & E & _ & _ & H); [by vm_compute..|].
  exists olds, s. split; [exact E|]. simpl in E. injection E as <- <-. apply H; [|done].
  unfold visible, in_range. cbn [vm_start_address vm_size File.impl si_addr]. unfold File.start_address. cbn [demo_vm File.start_addr].
  unfold ARGO_VM_START. lia.
Defined.

Lemma faults_reach_handler_witness :
  user_load demo_config File.impl demo_signals demo_vm 1 true dsm_reset 0 5 = app_load demo_config demo_placement 1 dsm_reset 0 5 access_read.
Proof.
  refine (proj1 (faults_reach_handler File.impl demo_config demo_placement true before_argo [quiet] [quiet] demo_signals demo_vm 0 5 0 1 true dsm_reset _ _ _ _ _ _));
    [reflexivity|reflexivity|by vm_compute|by vm_compute|by vm_compute|unfold demo_config, PAGE_SIZE; simpl; lia].
Defined.
