(* ===== verification/SingleNodeBackend.v ===== *)
(** * The single-node backend

    The part of [src/src/backend/singlenode/singlenode.cpp] around the atomics and the
    barrier (which are in [Backends.v] and [NodeBarrier.v]): start, reset, the queries
    and the fault handler, on top of the virtual memory layer and the signal handler. *)

From S2P Require Import Prelude BlockMap DataDistribution FirstTouch GlobalPtr Mem Swdsm SwdsmBase Atomics Backends VirtualMemory Signal.

Section Backend.

Context {S W : Type} (V : virtual_memory S) (first_touch : bool).

(** The global variables, with the state of the layers below. *)
Record singlenode := Singlenode {
  sn_vm : S;
  sn_signals : signal_state W;
  memory : Z;
  sn_memory_size : Z;
  sn_distribution : base_distribution;
  global_owners_dir : Z;
  owners : ft_state;
}.

Definition sn_nodes : Z := 1.

(** The message is printed, the signal gets its default action and is raised again:
    the process ends. *)
Definition singlenode_handler : handler_ftype W := fun _ _ _ _ => Throw (system_error "terminated by a signal").

Definition owners_dir_bytes (size : Z) : Z :=
  let owners_dir_size := mul64 3 (size / PAGE_SIZE) in
  let owners_dir_size_bytes := mul64 owners_dir_size 8 in
  mul64 (add64 1 (sub64 owners_dir_size_bytes 1 / PAGE_SIZE)) PAGE_SIZE.

(** The new directory, common to [init] and [reset_coherence]. *)
Definition make_owners_dir (v : S) (size : Z) : outcome (Z * ft_state * S) :=
  '(p, v) ← vm_allocate_mappable V v PAGE_SIZE (owners_dir_bytes size);
  dir ← SingleNode.init_owners_dir size;
  Ok (p, dir, v).

Definition sn_init (v : S) (sg : signal_state W) (argo_size cache_size : Z) : outcome singlenode :=
  '(p, v) ← vm_allocate_mappable V v PAGE_SIZE argo_size;
  let d := set_memory_space sn_nodes p argo_size in
  let sg := install_argo_handler sg singlenode_handler in
  if first_touch then
    '(dir, o, v) ← make_owners_dir v argo_size;
    Ok (Singlenode v sg p argo_size d dir o)
  else Ok (Singlenode v sg p argo_size d 0 ft_reset).

Definition sn_reset_coherence (n : singlenode) : outcome singlenode :=
  if first_touch then
    '(dir, o, v) ← make_owners_dir (sn_vm n) (sn_memory_size n);
    Ok (Singlenode v (sn_signals n) (memory n) (sn_memory_size n) (sn_distribution n) dir o)
  else Ok n.

Definition sn_node_id (n : singlenode) : Z := SingleNode.my_node_id.
Definition sn_number_of_nodes (n : singlenode) : Z := sn_nodes.
Definition sn_global_base (n : singlenode) : Z := memory n.
Definition sn_global_size (n : singlenode) : Z := sn_memory_size n.
Definition sn_is_cached (n : singlenode) (addr : Z) : bool := true.

Fixpoint resets (k : nat) (n : singlenode) : outcome singlenode :=
  match k with O => Ok n | Datatypes.S k => n ← sn_reset_coherence n; resets k n end.

End Backend.
Arguments singlenode : clear implicits.
Arguments sn_init {S W}.

Lemma owners_dir_bytes_spec size : PAGE_SIZE <= size <= 2 ^ 42 ->
  PAGE_SIZE <= owners_dir_bytes size <= 2 ^ 43 /\ (PAGE_SIZE | owners_dir_bytes size) /\ 24 * (size / PAGE_SIZE) <= owners_dir_bytes size.
Proof.
  intros Hs. unfold owners_dir_bytes. assert (Hp : 1 <= size / PAGE_SIZE <= 2 ^ 30).
  { unfold PAGE_SIZE in *. split; [apply Z.div_le_lower_bound; lia|apply Z.div_le_upper_bound; lia]. }
  rewrite (mul64_small 3), (mul64_small (3 * _)), sub64_small by lia.
  pose proof (Z.div_mod (3 * (size / PAGE_SIZE) * 8 - 1) PAGE_SIZE ltac:(done)) as Hd.
  pose proof (Z.mod_pos_bound (3 * (size / PAGE_SIZE) * 8 - 1) PAGE_SIZE ltac:(done)) as Hm.
  set (q := (3 * (size / PAGE_SIZE) * 8 - 1) / PAGE_SIZE) in *. unfold PAGE_SIZE in *.
  rewrite add64_small, mul64_small by lia. split_and!; [lia|lia|by exists (1 + q)|lia].
Qed.

Section Run.

Context {S W : Type} {V : virtual_memory S} {ok : S -> Prop} {shows : S -> Z -> bpage} {taken : S -> Z -> Prop} {obj : object} {base : Z}
  `{!VmLaws V ok shows taken obj base} (ft : bool).

Definition dir_bytes (n : singlenode S W) : Z := owners_dir_bytes (sn_memory_size n).

(** The directory shows every page at its own offset on the one node. *)
Definition dir_ready (n : singlenode S W) : Prop := SingleNode.init_owners_dir (sn_memory_size n) = Ok (owners n).

(** What holds of the backend between two calls. *)
Record sn_inv (v0 : S) (size : Z) (n : singlenode S W) : Prop := {
  si_ok : ok (sn_vm n);
  si_range : vm_start_address V (sn_vm n) = vm_start_address V v0 /\ vm_size V (sn_vm n) = vm_size V v0;
  si_size : sn_memory_size n = size;
  si_page : (PAGE_SIZE | memory n);
  si_dist : sn_distribution n = set_memory_space 1 (memory n) size;
  si_fresh x : in_range (memory n) size x -> ~ taken v0 x /\ ~ visible V v0 x /\ taken (sn_vm n) x;
  si_dir : ft = true -> dir_ready n /\ forall x, in_range (global_owners_dir n) (dir_bytes n) x -> taken (sn_vm n) x /\ ~ in_range (memory n) size x;
}.

Lemma make_owners_dir_ok v size p o v' : ok v -> PAGE_SIZE <= size <= 2 ^ 42 -> make_owners_dir V v size = Ok (p, o, v') ->
  ok v' /\ vm_start_address V v' = vm_start_address V v /\ vm_size V v' = vm_size V v /\
  SingleNode.init_owners_dir size = Ok o /\ (forall x, taken v' x <-> taken v x \/ in_range p (owners_dir_bytes size) x) /\
  forall x, in_range p (owners_dir_bytes size) x -> ~ taken v x.
Proof using VmLaws0.
  intros Hv Hs. unfold make_owners_dir. destruct (owners_dir_bytes_spec size Hs) as (Hb & Hd & _). assert (0 <= PAGE_SIZE) by done. intros E.
  apply outcome_bind_Ok in E as ([p1 v1] & Ea & E). apply outcome_bind_Ok in E as (o1 & Eo & E). injection E as <- <- <-.
  destruct (vl_alloc v (owners_dir_bytes size) p1 v1 Hv ltac:(lia) Hd Ea) as (A1 & A2 & A3 & _ & A4 & A5 & _). split_and!; try done. intros x Hx. by apply A4.
Qed.

Lemma sn_init_ok v0 sg size cache n : ok v0 -> PAGE_SIZE <= size <= 2 ^ 42 -> (PAGE_SIZE | size) -> sn_init V ft v0 sg size cache = Ok n ->
  sn_inv v0 size n /\ sn_signals n = install_argo_handler sg singlenode_handler.
Proof using VmLaws0.
  intros Hv Hs Hd. unfold sn_init. assert (0 <= PAGE_SIZE) by done. intros E. apply outcome_bind_Ok in E as ([p v1] & Ea & E).
  destruct (vl_alloc v0 size p v1 Hv ltac:(lia) Hd Ea) as (A1 & A2 & A3 & A4 & A5 & A6 & _).
  destruct ft eqn:Eft.
  - apply outcome_bind_Ok in E as ([[dir o] v2] & Em & E). injection E as <-.
    destruct (make_owners_dir_ok v1 size dir o v2 A1 Hs Em) as (B1 & B2 & B3 & B4 & B5 & B6). split; [|done].
    split; cbn [sn_vm sn_memory_size memory sn_distribution global_owners_dir]; try done.
    + split; congruence.
    + intros x Hx. destruct (A5 x Hx). split_and!; try done. apply B5. left. apply A6. by right.
    + intros _. split; [done|]. intros x Hx. split; [apply B5; by right|]. intros Hm. apply (B6 x Hx). apply A6. by right.
  - injection E as <-. split; [|done]. split; cbn [sn_vm sn_memory_size memory sn_distribution global_owners_dir]; try done.
    + intros x Hx. destruct (A5 x Hx). split_and!; try done. apply A6. by right.
    + congruence.
Qed.

Lemma sn_reset_ok v0 size n n' : PAGE_SIZE <= size <= 2 ^ 42 -> sn_inv v0 size n -> sn_reset_coherence V ft n = Ok n' ->
  sn_inv v0 size n' /\ sn_signals n' = sn_signals n /\ memory n' = memory n.
Proof using VmLaws0.
  intros Hs Hn. pose proof Hn as [I1 [I2 I2'] I3 I4 I5 I6 I7]. unfold sn_reset_coherence. destruct ft eqn:Eft; intros E; [|by injection E as <-].
  apply outcome_bind_Ok in E as ([[dir o] v2] & Em & E). injection E as <-. rewrite I3 in Em.
  destruct (make_owners_dir_ok (sn_vm n) size dir o v2 I1 Hs Em) as (B1 & B2 & B3 & B4 & B5 & B6). split; [|done].
  split; cbn [sn_vm sn_memory_size memory sn_distribution global_owners_dir]; try done.
  - split; congruence.
  - intros x Hx. destruct (I6 x Hx) as (? & ? & ?). split_and!; try done. apply B5. by left.
  - intros _. unfold dir_ready, dir_bytes. cbn [sn_memory_size owners]. rewrite I3. split; [done|]. intros x Hx.
    split; [apply B5; by right|]. intros Hm. apply (B6 x Hx). by apply I6.
Qed.

Lemma resets_ok v0 size k : forall n n', PAGE_SIZE <= size <= 2 ^ 42 -> sn_inv v0 size n -> resets V ft k n = Ok n' ->
  sn_inv v0 size n' /\ sn_signals n' = sn_signals n /\ memory n' = memory n.
Proof using VmLaws0.
  induction k as [|k IH]; intros n n' Hs Hn E; [by injection E as <-|]. cbn [resets] in E. apply outcome_bind_Ok in E as (n1 & E1 & E).
  destruct (sn_reset_ok v0 size n n1 Hs Hn E1) as (H1 & H2 & H3). destruct (IH n1 n' Hs H1 E) as (H4 & H5 & H6). split_and!; congruence.
Qed.

End Run.

(** C19: a start of the single-node backend that returns, and any number of resets
    that return, leave a working system: the memory lies on a page boundary in
    addresses nobody had, its distribution is a valid one for one node, the
    application's own handler, not the backend's, gets the faults in it, and under the
    first-touch policy every lookup returns what the naive policy returns, from a
    directory that does not overlap the memory. *)
Theorem single_node_backend {S W : Type} (V : virtual_memory S) (ok : S -> Prop) (shows : S -> Z -> bpage) (taken : S -> Z -> Prop)
    (obj : object) (base : Z) (ft : bool) (v0 : S) (sg : signal_state W) (size cache : Z) (k : nat) (n0 n : singlenode S W) :
  VmLaws V ok shows taken obj base -> ok v0 -> PAGE_SIZE <= size <= 2 ^ 42 -> (PAGE_SIZE | size) ->
  sn_init V ft v0 sg size cache = Ok n0 -> resets V ft k n0 = Ok n -> 0 <= memory n0 -> memory n0 + size < 2 ^ 64 ->
  let d := sn_distribution n in
  sn_global_base n = sn_global_base n0 /\ sn_global_size n = size /\ (PAGE_SIZE | sn_global_base n) /\
  space_ok d /\ nodes d = sn_number_of_nodes n /\ start_address d = sn_global_base n /\ total_size d = size /\
  (forall ptr, in_space d ptr -> ~ taken v0 ptr) /\
  (forall ptr context w, in_space d ptr -> callable (disposition sg) -> 0 <= vm_start_address V v0 -> 0 <= vm_size V v0 ->
     vm_start_address V v0 + vm_size V v0 < 2 ^ 64 ->
     deliver V (sn_signals n) (sn_vm n) SIGSEGV (Siginfo ptr) context w = direct (disposition sg) SIGSEGV (Siginfo ptr) context w) /\
  (ft = true -> forall ptr, in_space d ptr -> ~ in_range (global_owners_dir n) (owners_dir_bytes size) ptr /\
     let keep (o : outcome Z) := v ← o; Ok (owners n, v) in
     let self := sn_node_id n in
     ft_homenode d (owners n) self ptr = keep (naive_homenode d ptr) /\
     ft_peek_homenode d (owners n) self ptr = keep (naive_homenode d ptr) /\
     ft_local_offset d (owners n) self ptr = keep (naive_local_offset d ptr) /\
     ft_peek_local_offset d (owners n) self ptr = keep (naive_local_offset d ptr)).
Proof.
  intros HV Hok Hs Hd Ei Er Hm0 Hme. destruct (sn_init_ok ft v0 sg size cache n0 Hok Hs Hd Ei) as [Hi0 Hsg].
  destruct (resets_ok ft v0 size k n0 n Hs Hi0 Er) as (Hi & Hsg' & Hm). destruct Hi as [I1 [I2 I2'] I3 I4 I5 I6 I7].
  cbv zeta. unfold sn_global_base, sn_global_size, sn_number_of_nodes, sn_nodes. rewrite I5, Hm in *. assert (Hp : 1 <= PAGE_SIZE) by done.
  assert (Hsp : space_ok (set_memory_space 1 (memory n0) size)).
  { split; cbn [set_memory_space nodes start_address total_size size_per_node]; rewrite ?Z.div_1_r; lia. }
  assert (Hin : forall ptr, in_space (set_memory_space 1 (memory n0) size) ptr -> in_range (memory n0) size ptr) by done.
  split_and!; try done.
  - intros ptr Hp'. by apply I6, Hin.
  - intros ptr context w Hp' Hc B1 B2 B3. rewrite Hsg', Hsg. unfold deliver. cbn [install_argo_handler disposition sa_function].
    rewrite argo_signal_outside; rewrite ?I2, ?I2'; try done. unfold visible. rewrite I2, I2'. by apply I6, Hin.
  - intros Hft ptr Hp'. destruct (I7 Hft) as [Hdir Hdis]. split.
    { intros Hx. unfold dir_bytes in Hdis. rewrite I3 in Hdis. by apply (Hdis ptr Hx), Hin. }
    destruct (single_node_first_touch (set_memory_space 1 (memory n0) size) ptr Hsp) as (o & Eo & Ho); [done| |done|].
    { cbn [set_memory_space size_per_node]. by rewrite Z.div_1_r. }
    cbn [set_memory_space total_size] in Eo. unfold dir_ready in Hdir. rewrite I3, Eo in Hdir. injection Hdir as <-. exact Ho.
Qed.

(** ** Resets use memory up

    Nothing gives a directory back: on the anonymous virtual memory every reset under
    the first-touch policy takes the space of one more directory, until a reset fails. *)
Section Exhaustion.

Context {K W : Type} `{KernelLaws K}.

Lemma resets_leak size k : forall (n n' : singlenode (Anonymous.state K) W), PAGE_SIZE <= size <= 2 ^ 42 -> sn_memory_size n = size ->
  anonymous_ok (sn_vm n) -> resets Anonymous.impl true k n = Ok n' ->
  anonymous_ok (sn_vm n') /\ Anonymous.backing_offset (sn_vm n') = Anonymous.backing_offset (sn_vm n) + Z.of_nat k * owners_dir_bytes size.
Proof using All.
  induction k as [|k IH]; intros n n' Hs Hsz Hn E; [injection E as <-; split; [done|lia]|].
  cbn [resets] in E. apply outcome_bind_Ok in E as (n1 & E1 & E). unfold sn_reset_coherence in E1.
  apply outcome_bind_Ok in E1 as ([[dir o] v1] & Em & E1). injection E1 as <-. rewrite Hsz in *.
  pose proof (make_owners_dir_ok (sn_vm n) size dir o v1 Hn Hs Em) as (B1 & _). unfold make_owners_dir in Em.
  apply outcome_bind_Ok in Em as ([p1 v2] & Ea & Em). apply outcome_bind_Ok in Em as (o1 & _ & Em). injection Em as <- <- <-.
  destruct (owners_dir_bytes_spec size Hs) as (Hb & Hd & _). assert (0 <= PAGE_SIZE) by done.
  destruct (anonymous_alloc (sn_vm n) _ p1 v2 Hn (conj (Z.le_trans _ _ _ H1 (proj1 Hb)) (proj2 Hb)) Hd Ea) as (_ & _ & _ & _ & F & _).
  destruct (IH (Singlenode v2 (sn_signals n) (memory n) size (sn_distribution n) p1 o1) n' Hs eq_refl B1 E) as [H2 H3]. cbn [sn_vm] in H3.
  split; [done|]. lia.
Qed.

Lemma resets_run_out size (n : singlenode (Anonymous.state K) W) : PAGE_SIZE <= size <= 2 ^ 42 -> sn_memory_size n = size ->
  anonymous_ok (sn_vm n) -> exists k, forall n', resets Anonymous.impl true k n <> Ok n'.
Proof using All.
  intros Hs Hsz Hn. exists (Z.to_nat (2 ^ 44)). intros n' E. destruct (resets_leak size _ n n' Hs Hsz Hn E) as [[_ _ Ho _ _] Hk].
  destruct (owners_dir_bytes_spec size Hs) as (Hb & _). destruct Hn as [_ _ Ho' _ _]. destruct vm_numbers as (N1 & _). rewrite N1 in *.
  unfold PAGE_SIZE in *. nia.
Qed.

End Exhaustion.

(** Four pages on the memory of [memfd.cpp], and two resets. *)
Definition demo_singlenode : outcome (File.state process * singlenode (File.state process) dsm * singlenode (File.state process) dsm) :=
  v ← File.memfd_init fresh_process;
  n0 ← sn_init File.impl true v before_argo (4 * PAGE_SIZE) 0;
  n ← resets File.impl true 2 n0;
  Ok (v, n0, n).

Lemma single_node_backend_witness : exists v n0 n, demo_singlenode = Ok (v, n0, n) /\
  sn_global_base n = 0x10000000 /\ ft_local_offset (sn_distribution n) (owners n) 0 (0x10000000 + 9000) = Ok (owners n, 9000).
Proof.
  destruct (is_ok_Ok demo_singlenode) as [[[v n0] n] E]; [by vm_compute|]. pose proof E as E'. unfold demo_singlenode in E'.
  apply outcome_bind_Ok in E' as (v1 & E1 & E'). apply outcome_bind_Ok in E' as (n1 & E2 & E'). apply outcome_bind_Ok in E' as (n2 & E3 & E').
  injection E' as <- <- <-. exists v1, n1, n2. split; [exact E|].
  assert (Hb : memory n1 = 0x10000000).
  { assert (Hall : match demo_singlenode with Ok (_, n, _) => memory n | _ => 0 end = 0x10000000) by (by vm_compute). rewrite E in Hall. exact Hall. }
  destruct (single_node_backend File.impl file_ok (fun s => resolve (File.kernel s)) (fun s => in_use (File.kernel s)) Backing 0
    true v1 before_argo (4 * PAGE_SIZE) 0 2 n1 n2 _) as (H1 & H2 & _ & _ & H3 & H4 & H5 & _ & _ & H6).
  - by apply (memfd_init_ok fresh_process).
  - unfold PAGE_SIZE. lia.
  - by exists 4.
  - exact E2.
  - exact E3.
  - rewrite Hb. lia.
  - rewrite Hb. unfold PAGE_SIZE. lia.
  - unfold sn_global_base in *. rewrite Hb in H1. split; [exact H1|].
    destruct (H6 eq_refl (0x10000000 + 9000)) as (_ & _ & _ & H7 & _).
    { unfold in_space. rewrite H4, H1, H5. unfold PAGE_SIZE. lia. }
    unfold sn_node_id, SingleNode.my_node_id in H7. rewrite H7. replace (sn_distribution n2) with (set_memory_space 1 0x10000000 (4 * PAGE_SIZE)); [by vm_compute|].
    assert (Hd : match demo_singlenode with Ok (_, _, n) => sn_distribution n | _ => set_memory_space 0 0 0 end = set_memory_space 1 0x10000000 (4 * PAGE_SIZE))
      by (by vm_compute). rewrite E in Hd. symmetry. exact Hd.
Defined.
