(* ===== verification/PoolInit.v ===== *)
(** * Constructing and resetting the global memory pool on the DSM

    The constructor and [reset] of [global_memory_pool]
    ([src/src/mempools/global_mempool.hpp]) as all nodes execute them at the same time,
    with [argo::reset] of [src/src/argo.cpp] around the latter.  Every node constructs
    the pool, so every node stores [init] to the field of the global lock, at the same
    time and without synchronisation, while the home node of the reserved page clears
    the offset.  The stores race but agree, and the barrier at the end of the constructor
    makes them visible: whatever the interleaving, the pool starts from a free lock and
    an offset of 0. *)

From Stdlib Require Import FunctionalExtensionality.
From stdpp Require Import functions.
From S2P Require Import Prelude BlockMap DataDistribution FirstTouch GlobalPtr Mem Swdsm SwdsmBase SwdsmInv SwdsmDir SwdsmOps SwdsmLoad SwdsmHandler SwdsmSync SwdsmBarrier Atomics SwdsmSpec SwdsmTheorems Locks TasOnDsm Mempool PoolOnDsm Reset.

(** ** Interleavings *)

(** The nodes [0 .. n-1] execute their programs; [sched] says who takes a step, and what
    it leaves undone is done after it in the order of the nodes. *)
Fixpoint interleave {A} (n : Z) (prog : Z -> list A) (sched : list Z) : list (Z * A) :=
  match sched with
  | [] => r ← seqZ 0 n; pair r <$> prog r
  | r :: sched =>
    match prog r with
    | x :: rest => if bool_decide (0 <= r < n) then (r, x) :: interleave n (<[r := rest]> prog) sched else interleave n prog sched
    | [] => interleave n prog sched
    end
  end.

Lemma elem_of_interleave {A} n sched : forall (prog : Z -> list A) r x, (r, x) ∈ interleave n prog sched <-> 0 <= r < n /\ x ∈ prog r.
Proof.
  induction sched as [|q sched IH]; intros prog r x; cbn [interleave].
  { rewrite list_elem_of_bind. split.
    - intros (q & Hin & Hq%elem_of_seqZ). apply list_elem_of_fmap in Hin as (y & [= -> ->] & Hy). split; [lia|done].
    - intros [Hr Hx]. exists r. split; [by apply list_elem_of_fmap_2|apply elem_of_seqZ; lia]. }
  destruct (prog q) as [|y rest] eqn:Eq; [apply IH|]. case_bool_decide as Hq; [|apply IH]. rewrite elem_of_cons, IH. split.
  - intros [[= -> ->]|[Hr Hx]]; [rewrite Eq; split; [done|left]|]. split; [done|].
    destruct (decide (r = q)) as [->|Hne]; [rewrite fn_lookup_insert in Hx; rewrite Eq; by right|by rewrite fn_lookup_insert_ne in Hx].
  - intros [Hr Hx]. destruct (decide (r = q)) as [->|Hne]; [|right; by rewrite fn_lookup_insert_ne].
    rewrite Eq in Hx. apply elem_of_cons in Hx as [->|Hx]; [by left|]. right. by rewrite fn_lookup_insert.
Qed.

(** ** The constructor and the reset *)

(** How a store reaches the fault handler; [reg_err] tells whether the platform says so. *)
Definition store_access (reg_err : bool) : access_type := if reg_err then access_write else access_undefined.

Definition store_bytes (reg_err : bool) (at_ : Z) (bs : list Z) : list dsm_op :=
  imap (fun i b => op_store (at_ + Z.of_nat i) b (store_access reg_err)) bs.

(** What node [r] stores in the constructor; [h] is the home node of the reserved page. *)
Definition construct_ops (reg_err : bool) (c : dsm_config) (h r : Z) : list dsm_op :=
  store_bytes reg_err (field_at c) (to_bytes 8 Tas.init) ++
  (if r =? h then store_bytes reg_err (offset_at c) (to_bytes 8 0) else []).

Definition pool_construct (reg_err : bool) (c : dsm_config) (pl : placement) (sched : list Z) (s : dsm) : outcome dsm :=
  h ← get_homenode c pl (pool_max c);
  '(s, _) ← run_ops c pl s (interleave (numtasks c) (construct_ops reg_err c h) sched);
  swdsm_argo_barrier c pl s upgrade_none.

(** [reset] of the pool: its home node clears the offset between two barriers. *)
Definition pool_reset_ops (reg_err : bool) (c : dsm_config) (h : Z) : list (Z * dsm_op) :=
  (0, op_barrier upgrade_none) :: (pair h <$> store_bytes reg_err (offset_at c) (to_bytes 8 0)) ++ [(0, op_barrier upgrade_none)].

(** [argo::reset]: the coherence, the pool and a barrier; the allocators are in
    [NewDelete.v]. *)
Definition argo_reset (reg_err : bool) (c : dsm_config) (pl : placement) (s : dsm) : outcome dsm :=
  s ← argo_reset_coherence c pl s;
  h ← get_homenode c pl (pool_max c);
  '(s, _) ← run_ops c pl s (pool_reset_ops reg_err c h);
  swdsm_argo_barrier c pl s upgrade_none.

(** ** Stores that agree *)
Lemma flat_ops_app ops ops' f f' vs : flat_ops f ops = Some (f', vs) ->
  flat_ops f (ops ++ ops') = '(f, ws) ← flat_ops f' ops'; Some (f, vs ++ ws).
Proof.
  revert f vs. induction ops as [|o ops IH]; intros f vs E; cbn [app flat_ops] in *.
  { injection E as <- <-. by destruct (flat_ops f ops') as [[? ?]|]. }
  destruct (flat_op f o) as [[f1 vs1]|]; [|done]. cbn [mbind option_bind] in *. destruct (flat_ops f1 ops) as [[f2 vs2]|] eqn:E2; [|done].
  cbn in E. injection E as <- <-. rewrite (IH f1 vs2 E2). destruct (flat_ops f2 ops') as [[? ?]|]; [|done]. cbn. by rewrite app_assoc.
Qed.

Definition stores_to (a : Z) (o : Z * dsm_op) : bool := match snd o with op_store b _ _ => b =? a | _ => false end.

(** All of [ops] are stores of the value [val] has for the address. *)
Definition agreeing (val : Z -> Z) (ops : list (Z * dsm_op)) : Prop :=
  Forall (fun o => exists a miss, snd o = op_store a (val a) miss) ops.

(** From synchronised memory the stores are accepted in any order, by any nodes. *)
Lemma flat_agreeing val ops : agreeing val ops -> forall f,
  (forall a, fm_mode f a = Shared (fun _ => true) \/ (fm_byte f a = val a /\ fm_mode f a ≠ Atomic)) ->
  exists f', flat_ops f ops = Some (f', []) /\ (forall a, fm_mode f' a ≠ Atomic) /\
    forall a, fm_byte f' a = if existsb (stores_to a) ops then val a else fm_byte f a.
Proof.
  induction 1 as [|[r op] ops (a & miss & Eop) _ IH]; intros f Hf; [|cbn [snd] in Eop; subst op].
  { exists f. split_and!; [done| |done]. intros a Ea. specialize (Hf a). rewrite Ea in Hf. by destruct Hf as [|[_ []]]. }
  set (f1 := match flat_op f (r, op_store a (val a) miss) with Some (f1, _) => f1 | None => f end).
  assert (H1 : flat_op f (r, op_store a (val a) miss) = Some (f1, []) /\
    (forall b, fm_byte f1 b = if b =? a then val a else fm_byte f b) /\
    forall b, (b = a /\ fm_mode f1 b ≠ Atomic) \/ (b ≠ a /\ fm_mode f1 b = fm_mode f b)).
  { unfold f1. cbn [flat_op]. destruct (may_access (fm_mode f a) r) eqn:Em; [|].
    - cbn [fm_byte fm_mode]. split_and!; [done|done|]. intros b. destruct (Z.eqb_spec b a); [by left|by right].
    - destruct (Hf a) as [E|[E1 E2]]; [by rewrite E in Em|].
      assert (agrees f a (val a) = true) as ->. { unfold agrees. rewrite E1, Z.eqb_refl. by destruct (fm_mode f a). }
      cbn [fm_byte fm_mode]. split_and!; [done| |].
      + intros b. destruct (Z.eqb_spec b a) as [->|]; congruence.
      + intros b. destruct (Z.eqb_spec b a); [by left|by right]. }
  destruct H1 as (E1 & B1 & M1). destruct (IH f1) as (f' & E & H1 & H2).
  { intros b. destruct (M1 b) as [[-> Hm]|[Hne ->]]; [right; split; [by rewrite B1, Z.eqb_refl|done]|].
    rewrite B1. rewrite (proj2 (Z.eqb_neq b a) Hne). apply Hf. }
  exists f'. cbn [flat_ops]. rewrite E1. cbn [mbind option_bind]. rewrite E. split_and!; [done|done|].
  intros b. rewrite H2, B1. unfold stores_to at 2. cbn [existsb snd]. rewrite (Z.eqb_sym a b). destruct (Z.eqb_spec b a) as [->|]; [|done].
  by destruct (existsb _ ops).
Qed.

(** ** The pool's words *)
Section PoolWords.

Context (c : dsm_config) (pl : placement) (Hc : cfg_ok c pl) (Hsize : reserved <= size_of_all c).

(** The memory after [argo::reset]: the pool's offset is 0, the rest is as before. *)
Definition reset_flat (f : flat) : flat :=
  {| fm_byte := fun a => if bool_decide (offset_at c <= a < offset_at c + 8) then 0 else fm_byte f a; fm_mode := fun _ => Shared (fun _ => true) |}.

(** What the constructor stores: 0 to the offset and [init] to the field behind it. *)
Definition pool_byte (a : Z) : Z := if a <? field_at c then 0 else byte_at (to_bytes 8 Tas.init) (a - field_at c).

(** The memory after the constructor. *)
Definition constructed_flat (f : flat) : flat :=
  {| fm_byte := fun a => if bool_decide (offset_at c <= a < field_at c + 8) then pool_byte a else fm_byte f a; fm_mode := fun _ => Shared (fun _ => true) |}.

Lemma elem_of_store_bytes reg_err x bs op : op ∈ store_bytes reg_err x bs <->
  exists a b, op = op_store a b (store_access reg_err) /\ x <= a /\ bs !! Z.to_nat (a - x) = Some b.
Proof.
  unfold store_bytes. split.
  - intros Hin. apply list_elem_of_lookup in Hin as [i Hi]. rewrite list_lookup_imap in Hi. destruct (bs !! i) as [b|] eqn:Eb; [|done].
    injection Hi as <-. exists (x + Z.of_nat i), b. split_and!; [done|lia|]. replace (Z.to_nat (x + Z.of_nat i - x)) with i by lia. done.
  - intros (a & b & -> & Hx & Hb). apply list_elem_of_lookup. exists (Z.to_nat (a - x)). rewrite list_lookup_imap, Hb. cbn.
    do 2 f_equal. lia.
Qed.

Lemma zeros_byte i b : to_bytes 8 0 !! i = Some b -> b = 0.
Proof. intros E. pose proof (lookup_lt_Some _ _ _ E) as Hi. rewrite length_to_bytes in Hi. do 8 (destruct i as [|i]; [by injection E as <-|]). lia. Qed.

(** The bytes of a word are those at the eight addresses from [x]. *)
Lemma store_word_agrees reg_err x w op (val : Z -> Z) :
  (forall a b, x <= a -> to_bytes 8 w !! Z.to_nat (a - x) = Some b -> val a = b) ->
  op ∈ store_bytes reg_err x (to_bytes 8 w) -> exists a, x <= a < x + 8 /\ op = op_store a (val a) (store_access reg_err).
Proof.
  intros Hv (a & b & -> & Hx & Hb)%elem_of_store_bytes. exists a. rewrite (Hv a b Hx Hb). split; [|done].
  apply lookup_lt_Some in Hb. rewrite length_to_bytes in Hb. lia.
Qed.

Lemma store_word_at reg_err x w a : x <= a < x + 8 -> exists b, op_store a b (store_access reg_err) ∈ store_bytes reg_err x (to_bytes 8 w).
Proof.
  intros Ha. destruct (lookup_lt_is_Some_2 (to_bytes 8 w) (Z.to_nat (a - x))) as [b Hb]; [rewrite length_to_bytes; lia|].
  exists b. apply elem_of_store_bytes. exists a, b. split_and!; [done|lia|done].
Qed.

(** Stores that agree and reach exactly the bytes of a range, and a barrier after them. *)
Lemma flat_range val ops lo hi f : agreeing val ops -> (forall a, existsb (stores_to a) ops = bool_decide (lo <= a < hi)) ->
  (forall a, fm_mode f a = Shared (fun _ => true)) -> exists f1, flat_ops f ops = Some (f1, []) /\
    flat_modes f1 at_barrier =
      {| fm_byte := fun a => if bool_decide (lo <= a < hi) then val a else fm_byte f a; fm_mode := fun _ => Shared (fun _ => true) |}.
Proof.
  intros Ha Hr Hf. destruct (flat_agreeing val ops Ha f) as (f1 & E & H1 & H2); [by left|]. exists f1. split; [done|].
  unfold flat_modes. f_equal; apply functional_extensionality; intros a; [by rewrite H2, Hr|]. specialize (H1 a). by destruct (fm_mode f1 a).
Qed.

Lemma stores_range ops lo hi : (forall o, o ∈ ops -> exists a v miss, snd o = op_store a v miss /\ lo <= a < hi) ->
  (forall a, lo <= a < hi -> exists o v miss, o ∈ ops /\ snd o = op_store a v miss) ->
  forall a, existsb (stores_to a) ops = bool_decide (lo <= a < hi).
Proof.
  intros H1 H2 a. apply eq_true_iff_eq. rewrite existsb_exists, bool_decide_eq_true. split.
  - intros (o & Ho & Hs). destruct (H1 o (proj2 (list_elem_of_In _ _) Ho)) as (b & v & miss & E & Hb). unfold stores_to in Hs.
    rewrite E in Hs. apply Z.eqb_eq in Hs. by subst b.
  - intros Ha. destruct (H2 a Ha) as (o & v & miss & Ho & E). exists o. split; [by apply list_elem_of_In|]. unfold stores_to. rewrite E. apply Z.eqb_refl.
Qed.

(** *** The constructor *)
Lemma construct_op reg_err h r op : op ∈ construct_ops reg_err c h r ->
  exists a, offset_at c <= a < field_at c + 8 /\ op = op_store a (pool_byte a) (store_access reg_err).
Proof using.
  unfold construct_ops, pool_byte. assert (E : field_at c = offset_at c + 8) by reflexivity. intros [Hin|Hin]%elem_of_app.
  - destruct (store_word_agrees reg_err (field_at c) Tas.init op pool_byte) as (a & Ha & ->); [|done|exists a; split; [lia|done]].
    intros a b Hx Hb. unfold pool_byte, byte_at. rewrite (proj2 (Z.ltb_ge a _)) by lia. by apply nth_lookup_Some.
  - destruct (r =? h); [|by apply elem_of_nil in Hin].
    destruct (store_word_agrees reg_err (offset_at c) 0 op pool_byte) as (a & Ha & ->); [|done|exists a; split; [lia|done]].
    intros a b Hx Hb. unfold pool_byte. rewrite (zeros_byte _ _ Hb). apply lookup_lt_Some in Hb. rewrite length_to_bytes in Hb.
    rewrite (proj2 (Z.ltb_lt a _)) by lia. done.
Qed.

Lemma construct_agreeing reg_err h sched : agreeing pool_byte (interleave (numtasks c) (construct_ops reg_err c h) sched).
Proof using.
  apply Forall_forall. intros [r op] Hin. apply elem_of_interleave in Hin as [_ (a & _ & ->)%construct_op]. cbn. eauto.
Qed.

Lemma construct_range reg_err h sched : node c h ->
  forall a, existsb (stores_to a) (interleave (numtasks c) (construct_ops reg_err c h) sched) = bool_decide (offset_at c <= a < field_at c + 8).
Proof using.
  intros Hh. apply stores_range.
  - intros [r op] Hin. apply elem_of_interleave in Hin as [_ (a & Ha & ->)%construct_op]. cbn. eauto.
  - intros a Ha. assert (E : field_at c = offset_at c + 8) by reflexivity.
    assert (exists b, op_store a b (store_access reg_err) ∈ construct_ops reg_err c h h) as [b Hb].
    { unfold construct_ops. rewrite Z.eqb_refl. destruct (decide (a < field_at c)) as [Hlt|Hge].
      - destruct (store_word_at reg_err (offset_at c) 0 a) as [b Hb]; [lia|]. exists b. apply elem_of_app. by right.
      - destruct (store_word_at reg_err (field_at c) Tas.init a) as [b Hb]; [lia|]. exists b. apply elem_of_app. by left. }
    eexists (h, _), _, _. split; [apply elem_of_interleave; split; [exact Hh|exact Hb]|done].
Qed.

(** Stores to the pool's words are inside the memory. *)
Lemma pool_store_valid reg_err r a v : node c r -> offset_at c <= a < field_at c + 8 -> op_valid c (r, op_store a v (store_access reg_err)) = true.
Proof using Hc Hsize.
  intros Hr Ha. destruct (pool_max_eq c pl Hc Hsize) as (E & Hb & _). unfold SwdsmBase.node in Hr.
  unfold op_valid, offset_at, field_at, PAGE_SIZE in *. rewrite !andb_true_iff. split_and!; try lia. by destruct reg_err.
Qed.

Lemma pool_page : page c (pool_max c).
Proof using Hc Hsize. destruct (pool_max_eq c pl Hc Hsize) as (E & Hb & Hd). split; [unfold PAGE_SIZE in *; lia|]. by apply Z.mod_divide. Qed.

(** The constructor on all nodes, whatever the interleaving. *)
Lemma pool_construct_ok reg_err sched f s : (forall a, fm_mode f a = Shared (fun _ => true)) -> sim c pl f s ->
  exists s', pool_construct reg_err c pl sched s = Ok s' /\ sim c pl (constructed_flat f) s' /\ forall r, node c r -> wb s' r = [].
Proof using Hc Hsize.
  intros Hf Hs. destruct (lookups_ok c pl Hc _ pool_page) as (Eh & _ & _ & _ & _ & _ & Hh & _). unfold pool_construct. rewrite Eh. cbn [mbind outcome_bind].
  set (ops := interleave _ _ _). destruct (flat_range pool_byte ops (offset_at c) (field_at c + 8) f) as (f1 & Ef & Eb);
    [apply construct_agreeing|by apply construct_range|done|].
  assert (Hv : forallb (op_valid c) ops = true).
  { apply forallb_forall. intros [r op] Hin%list_elem_of_In. apply elem_of_interleave in Hin as [Hr (a & Ha & ->)%construct_op]. by apply pool_store_valid. }
  destruct (sim_ops c pl Hc ops f s f1 [] Hs Hv Ef) as (s1 & E1 & H1). rewrite E1. cbn [mbind outcome_bind].
  destruct (sim_barrier_flushed c pl Hc f1 s1 upgrade_none H1 ltac:(done)) as (s2 & E2 & H2 & Hw). exists s2. rewrite Eb in H2. done.
Qed.

(** *** The reset *)
Lemma reset_ops_flat reg_err h f : (forall a, fm_mode f a = Shared (fun _ => true)) ->
  exists f1, flat_ops f (pool_reset_ops reg_err c h) = Some (f1, []) /\ flat_modes f1 at_barrier = reset_flat f.
Proof using.
  intros Hf. set (f0 := flat_modes f at_barrier).
  assert (H0 : forall a, fm_mode f0 a = Shared (fun _ => true)) by (intros a; unfold f0, flat_modes; cbn [fm_mode]; by rewrite Hf).
  set (ops := pair h <$> store_bytes reg_err (offset_at c) (to_bytes 8 0)).
  assert (Hops : forall o, o ∈ ops -> exists a, offset_at c <= a < offset_at c + 8 /\ snd o = op_store a 0 (store_access reg_err)).
  { intros o (op & -> & Hop)%list_elem_of_fmap. destruct (store_word_agrees reg_err (offset_at c) 0 op (fun _ => 0)) as (a & Ha & ->); [|done|by exists a].
    intros a b _ Hb. symmetry. exact (zeros_byte _ _ Hb). }
  destruct (flat_range (fun _ => 0) ops (offset_at c) (offset_at c + 8) f0) as (f1 & Ef & Eb).
  - apply Forall_forall. intros o Ho. destruct (Hops o Ho) as (a & _ & ->). eauto.
  - apply stores_range; [intros o Ho; destruct (Hops o Ho) as (a & Ha & ->); eauto|]. intros a Ha.
    destruct (store_word_at reg_err (offset_at c) 0 a Ha) as [b Hb]. eexists (h, _), _, _. split; [by apply list_elem_of_fmap_2|done].
  - done.
  - exists (flat_modes f1 at_barrier). split.
    + unfold pool_reset_ops. cbn [flat_ops flat_op mbind option_bind]. fold f0 ops. by rewrite (flat_ops_app _ _ _ _ _ Ef).
    + rewrite Eb. reflexivity.
Qed.

Lemma reset_ops_valid reg_err h : node c h -> forallb (op_valid c) (pool_reset_ops reg_err c h) = true.
Proof using Hc Hsize.
  intros Hh. pose proof (ck_space c pl Hc) as [Hn _ _ _ _ _]. cbn [dist_of set_memory_space nodes] in Hn.
  assert (H0 : op_valid c (0, op_barrier upgrade_none) = true) by (unfold op_valid; rewrite !andb_true_iff; split_and!; [done|lia|done]).
  unfold pool_reset_ops. cbn [forallb]. rewrite forallb_app. cbn [forallb]. rewrite H0. cbn [andb]. rewrite andb_true_r. apply forallb_forall.
  intros o (op & -> & Hop)%list_elem_of_In%list_elem_of_fmap. apply elem_of_store_bytes in Hop as (a & b & -> & Hx & Hb).
  apply lookup_lt_Some in Hb. rewrite length_to_bytes in Hb. apply pool_store_valid; [done|]. unfold field_at, offset_at in *. lia.
Qed.

Lemma argo_reset_ok reg_err f s : strides_inside c -> (forall r, node c r -> wb s r = []) -> sim c pl f s ->
  exists s', argo_reset reg_err c pl s = Ok s' /\ sim c pl (reset_flat f) s' /\ forall r, node c r -> wb s' r = [].
Proof using Hc Hsize.
  intros Hdiv Hwb Hs. destruct (reset_coherence_ok c pl Hc s Hdiv Hwb) as (s1 & E1 & Hf & Ed). pose proof (sim_restart c pl Hc f s s1 Hs Hwb Hf Ed) as H1.
  destruct (lookups_ok c pl Hc _ pool_page) as (Eh & _ & _ & _ & _ & _ & Hh & _). destruct (reset_ops_flat reg_err (home c pl (pool_max c)) (restart f)) as (f1 & Ef & Er); [done|].
  destruct (sim_ops c pl Hc _ _ s1 f1 [] H1 (reset_ops_valid _ _ Hh) Ef) as (s2 & E2 & H2).
  destruct (sim_barrier_flushed c pl Hc f1 s2 upgrade_none H2 ltac:(done)) as (s3 & E3 & H3 & Hw). exists s3. unfold argo_reset. rewrite E1. cbn [mbind outcome_bind].
  rewrite Eh. cbn [mbind outcome_bind]. rewrite E2. cbn [mbind outcome_bind]. split; [done|]. by rewrite Er in H3.
Qed.

(** The constructor and the reset after it, as in [argo::init]. *)
Lemma pool_started reg_err sched f s : strides_inside c -> (forall a, fm_mode f a = Shared (fun _ => true)) -> sim c pl f s ->
  exists s1 s2, pool_construct reg_err c pl sched s = Ok s1 /\ argo_reset reg_err c pl s1 = Ok s2 /\ sim c pl (constructed_flat f) s2.
Proof using Hc Hsize.
  intros Hdiv Hf Hs. destruct (pool_construct_ok reg_err sched f s Hf Hs) as (s1 & E1 & H1 & W1).
  destruct (argo_reset_ok reg_err _ s1 Hdiv W1 H1) as (s2 & E2 & H2 & _). exists s1, s2. split_and!; [done|done|].
  assert (reset_flat (constructed_flat f) = constructed_flat f) as <-; [|done].
  unfold reset_flat, constructed_flat, pool_byte. cbn [fm_byte]. f_equal. apply functional_extensionality. intros a.
  assert (E : field_at c = offset_at c + 8) by reflexivity. case_bool_decide as Ha; [|done].
  rewrite bool_decide_eq_true_2 by lia. by rewrite (proj2 (Z.ltb_lt a _)) by lia.
Qed.

(** The lock is free and the offset 0 after that. *)
Lemma constructed_ready f : lock_ready c (field_at c) (constructed_flat f) /\ forall i, 0 <= i < 8 -> fm_byte (constructed_flat f) (offset_at c + i) = 0.
Proof using Hc.
  assert (E : field_at c = offset_at c + 8) by reflexivity. split; [split_and!|].
  - transitivity ((fun i => byte_at (to_bytes 8 Tas.init) i) <$> seqZ 0 8); [|reflexivity].
    rewrite <- (Z.add_0_r (field_at c)), <- fmap_add_seqZ, <- list_fmap_compose. apply list_fmap_ext. intros k i Hi%list_elem_of_lookup_2%elem_of_seqZ.
    cbn [constructed_flat fm_byte compose]. rewrite bool_decide_eq_true_2 by (cbn; lia). unfold pool_byte. rewrite (proj2 (Z.ltb_ge _ _)) by (cbn; lia).
    f_equal. cbn. lia.
  - done.
  - intros a _. exists (fun _ => true). done.
  - intros i Hi. cbn [constructed_flat fm_byte]. rewrite bool_decide_eq_true_2 by lia. unfold pool_byte. by rewrite (proj2 (Z.ltb_lt _ _)) by lia.
Qed.

End PoolWords.
