(* ===== verification/System.v ===== *)
(** * Starting, resetting and stopping the system

    The composition of the components on all nodes: [argo::init], [argo::reset] and
    [argo::finalize] of [src/src/argo.cpp] with [argo_initialize] and [argo_finalize]
    of [src/src/backend/mpi/swdsm.cpp].  The environment, the virtual memory of each
    node, its signal handler, the windows of MPI and the DSM come together here.  The
    window system of MPI is a parameter with its documented behaviour as laws. *)

From Stdlib Require Import FunctionalExtensionality.
From stdpp Require Import functions.
From S2P Require Import Prelude BlockMap DataDistribution FirstTouch GlobalPtr Mem Swdsm SwdsmBase SwdsmInv SwdsmDir SwdsmOps SwdsmLoad SwdsmHandler SwdsmSync SwdsmBarrier Atomics SwdsmSpec SwdsmTheorems Mempool Env Init Reset VirtualMemory Signal Locks TasOnDsm PoolOnDsm PoolInit.

(** ** Windows *)

(** A window shows a region of every node, in units of [w_unit] bytes. *)
Record window := Window { w_region : region; w_bytes : Z; w_unit : Z }.

Class WindowSystem (M : Type) := {
  MPI_Win_create : M -> window -> Z * M;
  MPI_Win_free : M -> Z -> option M;
  win_live : M -> Z -> option window;
}.

Class WindowLaws (M : Type) `{WindowSystem M} : Prop := {
  wl_create m w h m' : MPI_Win_create m w = (h, m') ->
    win_live m h = None /\ win_live m' h = Some w /\ forall g, g <> h -> win_live m' g = win_live m g;
  wl_free m h : is_Some (win_live m h) ->
    exists m', MPI_Win_free m h = Some m' /\ win_live m' h = None /\ forall g, g <> h -> win_live m' g = win_live m g;
}.

Section Windows.

Context {M : Type} `{WindowSystem M}.

Fixpoint create_row (cols : nat) (w : window) (m : M) : list Z * M :=
  match cols with
  | O => ([], m)
  | Datatypes.S cols => let '(h, m) := MPI_Win_create m w in let '(hs, m) := create_row cols w m in (h :: hs, m)
  end.

Fixpoint create_rows (rows cols : nat) (w : window) (m : M) : list (list Z) * M :=
  match rows with
  | O => ([], m)
  | Datatypes.S rows => let '(r, m) := create_row cols w m in let '(rs, m) := create_rows rows cols w m in (r :: rs, m)
  end.

Record windows := Windows {
  data_windows : list (list Z);
  sharer_windows : list (list Z);
  dir_windows : list Z;   (** [owners_dir_window] and [offsets_tbl_window] *)
}.

Definition data_window (c : dsm_config) : window := Window GlobalData (size_of_all c / numtasks c) 1.
Definition sharer_window (c : dsm_config) : window := Window GlobalSharers (gwritersize c) 8.
Definition dir_window (c : dsm_config) (rg : region) : window := Window rg (region_size c rg) 8.

Definition create_windows (c : dsm_config) (first_touch : bool) (m : M) : windows * M :=
  let rows := Z.to_nat (mpi_windows c) in
  let cols := Z.to_nat (numtasks c) in
  let '(ds, m) := create_rows rows cols (data_window c) m in
  let '(ss, m) := create_rows rows cols (sharer_window c) m in
  if first_touch then
    let '(o, m) := MPI_Win_create m (dir_window c OwnersDir) in
    let '(t, m) := MPI_Win_create m (dir_window c OffsetsTbl) in
    (Windows ds ss [o; t], m)
  else (Windows ds ss [], m).



Context `{!WindowLaws M}.














End Windows.

(** ** The system *)
Section System.

Context {S M : Type} `{WindowSystem M} (V : virtual_memory S).

(** What the nodes have after the start; MPI has the same windows on all of them. *)
Record system := System {
  sy_config : dsm_config;
  sy_layout : file_layout;
  sy_first_touch : bool;
  sy_vm : Z -> S;
  sy_addr : Z -> region -> Z;
  sy_signals : Z -> signal_state dsm;
  sy_mpi : M;
  sy_windows : windows;
  sy_dsm : dsm;
}.

(** The allocations and mappings of all nodes. *)
Definition setup_nodes (c : dsm_config) (f : file_layout) (ft : bool) (vs : Z -> S) : outcome ((Z -> S) * (Z -> region -> Z)) :=
  for_each (seqZ 0 (numtasks c)) (fun r '(vs, addr) =>
    '(v, a) ← setup_memory V c f ft (vs r);
    Ok (<[r := v]> vs, <[r := a]> addr)) (vs, fun _ _ => 0).

(** [argo_initialize] on all [n] nodes; [pl] is the policy over the space it sets up. *)
Definition initialize_nodes (pl : dsm_config -> placement) (reg_err : bool) (st : settings) (n : Z) (vs : Z -> S) (sg : Z -> signal_state dsm)
    (m : M) (s : dsm) (argo_size cache_size : Z) : outcome system :=
  let '(c, f) := argo_initialize st n (vm_start_address V (vs 0)) argo_size cache_size in
  let ft := is_first_touch_policy (value_allocation_policy st) in
  let sg := fun r => install_argo_handler (sg r) (mpi_handler c (pl c) reg_err r) in
  '(vs, addr) ← setup_nodes c f ft vs;
  let '(ws, m) := create_windows c ft m in
  s ← for_each (seqZ 0 n) (fun r s => reset_control c s r) s;
  s ← argo_reset_coherence c (pl c) s;
  Ok (System c f ft vs addr sg m ws s).

Definition with_dsm (sy : system) (s : dsm) : system :=
  System (sy_config sy) (sy_layout sy) (sy_first_touch sy) (sy_vm sy) (sy_addr sy) (sy_signals sy) (sy_mpi sy) (sy_windows sy) s.

(** [argo::init] on all nodes; [sched] is the order of their steps in the constructor of
    the memory pool. *)
Definition system_init (pl : dsm_config -> placement) (reg_err : bool) (env : environment) (n : Z) (vs : Z -> S) (sg : Z -> signal_state dsm)
    (m : M) (s : dsm) (sched : list Z) (argo_size cache_size : Z) : outcome system :=
  st ← Env.init env;
  '(requested_argo_size, requested_cache_size) ← argo_init st argo_size cache_size;
  sy ← initialize_nodes pl reg_err st n vs sg m s requested_argo_size requested_cache_size;
  s ← pool_construct reg_err (sy_config sy) (pl (sy_config sy)) sched (sy_dsm sy);
  s ← argo_reset reg_err (sy_config sy) (pl (sy_config sy)) s;
  Ok (with_dsm sy s).



End System.
Arguments system : clear implicits.

(** ** Start *)

(** The memory as the homes have it, synchronised everywhere. *)
Definition flat_of (c : dsm_config) (pl : placement) (s : dsm) : flat :=
  {| fm_byte := fun a => home_byte c pl s (align_backwards a PAGE_SIZE) (a mod PAGE_SIZE); fm_mode := fun _ => Shared (fun _ => true) |}.

Section Start.

Context (c : dsm_config) (pl : placement) (Hc : cfg_ok c pl).

Lemma fresh_sim s : fresh c s -> sim c pl (flat_of c pl s) s.
Proof using Hc.
  intros Hf. split; [by apply fresh_inv|]. intros a Ha. unfold flat_of. cbn [fm_byte fm_mode]. split; [done|].
  intros x Hx. split; [intros [H _]|intros _ H]; by apply (fresh_unheld c pl Hc) in H.
Qed.

Lemma start_dsm s : strides_inside c -> (forall r, node c r -> wb s r = []) ->
  exists s1 s2, for_each (seqZ 0 (numtasks c)) (fun r s => reset_control c s r) s = Ok s1 /\ argo_reset_coherence c pl s1 = Ok s2 /\
    fresh c s2 /\ globalData s2 = globalData s.
Proof using Hc.
  intros Hd Hwb. destruct (clearing_for_each c (seqZ 0 (numtasks c)) (fun r s => reset_control c s r) _ s (fun r s1 _ => reset_control_ok c s1 r)) as (s1 & E1 & [_ Ed Ew]).
  destruct (reset_coherence_ok c pl Hc s1 Hd) as (s2 & E2 & Hf & Eg). { intros r Hr. unfold wb. rewrite Ew. by apply Hwb. }
  exists s1, s2. split_and!; try done. congruence.
Qed.

(** There is always room for the reserved page. *)
Lemma size_reserved : reserved <= size_of_all c.
Proof using Hc.
  destruct (ck_pages c pl Hc) as [k Hk]. destruct (size_bounds c pl Hc) as (Hs & _). unfold reserved, PAGE_SIZE in *. nia.
Qed.



End Start.

Section Nodes.

Context {S M : Type} `{WindowSystem M} (V : virtual_memory S).

Abbreviation setup_step c f ft := (fun (r : Z) '(vs, addr) => '(v, a) ← setup_memory V c f ft (vs r); Ok (<[r := v]> vs, <[r := a]> addr)).

(** The first [k] nodes, when each of them has room. *)
Lemma setup_first k c f ft vs : 0 <= k -> (forall r, 0 <= r < k -> exists x, setup_memory V c f ft (vs r) = Ok x) ->
  exists vs' addr, for_each (seqZ 0 k) (setup_step c f ft) (vs, fun _ _ => 0) = Ok (vs', addr) /\
    (forall r, 0 <= r < k -> setup_memory V c f ft (vs r) = Ok (vs' r, addr r)) /\ forall r, k <= r -> vs' r = vs r.
Proof using.
  intros Hn Hs.
  destruct (for_range_ok k (setup_step c f ft)
    (fun i '(vs', addr) => (forall r, 0 <= r < i -> setup_memory V c f ft (vs r) = Ok (vs' r, addr r)) /\ forall r, i <= r -> vs' r = vs r) (vs, fun _ _ => 0))
    as ([vs' addr] & E & H1); [done|split; [lia|done]| |by exists vs', addr].
  intros i [vs1 addr1] Hi [H1 H2]. destruct (Hs i Hi) as [[v a] Ei]. rewrite (H2 i) by lia. rewrite Ei. cbn [mbind outcome_bind].
  eexists. split; [reflexivity|]. split; intros r Hr.
  - destruct (decide (r = i)) as [->|Hne]; [by rewrite !fn_lookup_insert|]. rewrite !fn_lookup_insert_ne by done. apply H1. lia.
  - rewrite fn_lookup_insert_ne by lia. apply H2. lia.
Qed.

(** [out] ends as the failure [x] does. *)
Definition fails_as {A B} (x : outcome A) (out : outcome B) : Prop :=
  match x with Ok _ => False | Throw e => out = Throw e | Hang => out = Hang end.

Lemma fails_as_bind {A B C} (x : outcome A) (out : outcome B) (f : B -> outcome C) : fails_as x out -> fails_as x (out ≫= f).
Proof using. destruct x; cbn; [done|by intros ->|by intros ->]. Qed.

(** All nodes have their memory, or the start fails as the first one without. *)
Lemma setup_nodes_cases c f ft vs : 0 <= numtasks c ->
  (exists vs' addr, setup_nodes V c f ft vs = Ok (vs', addr) /\ forall r, node c r -> setup_memory V c f ft (vs r) = Ok (vs' r, addr r)) \/
  exists r, node c r /\ fails_as (setup_memory V c f ft (vs r)) (setup_nodes V c f ft vs).
Proof using.
  intros Hn.
  assert (Hk : forall k, (k <= Z.to_nat (numtasks c))%nat -> (forall r, 0 <= r < Z.of_nat k -> exists x, setup_memory V c f ft (vs r) = Ok x) \/
    exists r, node c r /\ (forall q, 0 <= q < r -> exists x, setup_memory V c f ft (vs q) = Ok x) /\ forall x, setup_memory V c f ft (vs r) <> Ok x).
  { induction k as [|k IH]; intros Hk; [left; lia|]. destruct IH as [IH|IH]; [lia| |by right].
    destruct (setup_memory V c f ft (vs (Z.of_nat k))) as [x| |] eqn:E.
    - left. intros r Hr. destruct (decide (r = Z.of_nat k)) as [->|]; [eauto|apply IH; lia].
    - right. exists (Z.of_nat k). split; [unfold node; lia|]. split; [done|congruence].
    - right. exists (Z.of_nat k). split; [unfold node; lia|]. split; [done|congruence]. }
  destruct (Hk (Z.to_nat (numtasks c)) ltac:(lia)) as [Hall|(r & Hr & Hb & Hf)].
  - left. destruct (setup_first (numtasks c) c f ft vs Hn) as (vs' & addr & E & H1 & _); [intros r Hr; apply Hall; lia|]. exists vs', addr. done.
  - right. exists r. split; [done|]. unfold node in Hr. destruct (setup_first r c f ft vs ltac:(lia) Hb) as (vs' & addr & E & _ & H2).
    unfold setup_nodes. replace (numtasks c) with (r + (numtasks c - r)) by ring. rewrite seqZ_app by lia. rewrite for_each_app, E. cbn [mbind outcome_bind].
    rewrite Z.add_0_l, seqZ_cons by lia. cbn [for_each]. rewrite (H2 r) by lia.
    destruct (setup_memory V c f ft (vs r)) as [x|e|] eqn:Es; [by destruct (Hf x)|done..].
Qed.

(** The memory of a node after the start. *)
Lemma setup_memory_ok {ok shows taken obj base} `{!VmLaws V ok shows taken obj base} st n start request cache c f v v' addr :
  within_limits st n start request -> 0 <= cache -> argo_initialize st n start request cache = (c, f) -> ok v ->
  setup_memory V c f (is_first_touch_policy (value_allocation_policy st)) v = Ok (v', addr) ->
  node_memory V ok shows taken obj base c f (is_first_touch_policy (value_allocation_policy st)) addr v' /\
  vm_start_address V v' = vm_start_address V v /\ vm_size V v' = vm_size V v.
Proof using.
  intros Hlim Hca Ei Hok Es. pose proof (init_layout st n start request cache Hlim Hca) as HL. rewrite Ei in HL. unfold setup_memory in Es.
  apply outcome_bind_Ok in Es as ([s2 addr2] & Ea & Es). apply outcome_bind_Ok in Es as (s3 & Emap & Es). injection Es as -> ->.
  pose proof (allocate_regions_ok V ok shows taken obj base c f _ HL v s2 addr Hok Ea) as Hal.
  destruct (map_regions_ok V ok shows taken obj base c f _ HL v s2 v' addr Hal Emap) as (Hm & E1 & E2).
  destruct (al_start _ _ _ _ _ _ _ _ _ _ _ Hal) as [E3 E4]. split_and!; [done|congruence|congruence].
Qed.

(** ** Stop *)
Context (c : dsm_config) (pl : placement) (Hc : cfg_ok c pl).






End Nodes.

(** ** Theorems *)

(** The starts the theorems are about.  The environment is accepted; up to 64 nodes share
    a memory of at most 2^42 bytes, the padding of the policy included; the policy is one
    of the four static ones; the strides in which the load size clears the directory end
    inside of it, as they do for the default load size; nothing is buffered; and every
    node's virtual memory is in a state its laws allow.  That the memory can be set up is
    not assumed. *)
Section Lifecycle.

Context {S M : Type} `{WindowSystem M} (V : virtual_memory S) (ok : S -> Prop) (shows : S -> Z -> bpage)
  (taken : S -> Z -> Prop) (obj : object) (base : Z) (pl : dsm_config -> placement) (reg_err : bool) (env : environment) (st : settings)
  (n : Z) (vs : Z -> S) (sg : Z -> signal_state dsm) (m : M) (s : dsm) (sched : list Z) (argo_size cache_size request cache : Z).

Abbreviation start := (vm_start_address V (vs 0)).
Abbreviation cfg := (fst (argo_initialize st n start request cache)).
Abbreviation layout := (snd (argo_initialize st n start request cache)).
Abbreviation ft := (is_first_touch_policy (value_allocation_policy st)).

Record startable : Prop := {
  sb_env : Env.init env = Ok st;
  sb_sizes : 0 <= argo_size /\ 0 <= cache_size;
  sb_args : argo_init st argo_size cache_size = Ok (request, cache);
  sb_nodes : 1 <= n <= 64;
  sb_start : 0 <= start /\ start + 2 ^ 42 < 2 ^ 64;
  sb_space : request + PAGE_SIZE * n + PAGE_SIZE * n * padding_of st n <= 2 ^ 42;
  sb_limits : value_load_size st < 2 ^ 62 /\ value_mpi_windows_per_node st < 2 ^ 56 /\ value_allocation_policy st <= 3;
  sb_policy : static_policy (value_allocation_policy st) (value_allocation_block_size st) (dist_of cfg) = Some (pl cfg);
  sb_stride : strides_inside cfg;
  sb_buffers r : node cfg r -> wb s r = [];
  sb_memory r : node cfg r -> ok (vs r);
}.

Abbreviation start_up := (system_init V pl reg_err env n vs sg m s sched argo_size cache_size).

(** The start fails because the set-up of some node's memory does. *)
Definition no_room : Prop := exists r, node cfg r /\ fails_as (setup_memory V cfg layout ft (vs r)) start_up.

(** The memory the application starts with. *)
Definition started_flat : flat := constructed_flat cfg (flat_of cfg (pl cfg) s).

Lemma system_start : WindowLaws M -> VmLaws V ok shows taken obj base -> startable ->
  no_room \/ exists sy, start_up = Ok sy /\ sy_config sy = cfg /\
    cfg_ok cfg (pl cfg) /\ reserved <= size_of_all cfg /\ sim cfg (pl cfg) started_flat (sy_dsm sy) /\
    create_windows cfg (sy_first_touch sy) m = (sy_windows sy, sy_mpi sy) /\
    forall r, node cfg r -> node_memory V ok shows taken obj base cfg layout ft (sy_addr sy r) (sy_vm sy r) /\
      sy_signals sy r = install_argo_handler (sg r) (mpi_handler cfg (pl cfg) reg_err r).
Proof.
  intros HW HV [Ee [Ha Hca] Ei Hn Hst Hm (Hl & Hw & Hp) Es Hdiv Hwb Hvm]. pose proof (init_range env st Ee) as Hr.
  destruct (argo_init_ok _ _ _ _ _ Hr Ha Hca Ei) as (B1 & B2 & B3 & B4 & B5 & B6).
  assert (Hlim : within_limits st n start request) by (destruct Hr; split; done || lia).
  pose proof (init_policy st n start request cache Hlim Hp) as (pl0 & Epl & Hpl).
  pose proof (init_config st n start request cache Hlim B6 pl0 Hpl) as Hc0.
  assert (Hsz : reserved <= size_of_all cfg) by (by apply (size_reserved _ pl0)).
  unfold started_flat. assert (En : numtasks cfg = n) by reflexivity. destruct (argo_initialize st n start request cache) as [c f] eqn:Ec. cbn [fst snd] in *.
  rewrite Es in Epl. injection Epl as <-.
  destruct (setup_nodes_cases V c f ft vs) as [(vs' & addr & Ev & Hv)|(r & Hr' & Hf)]; [lia|right|left].
  2: { exists r. rewrite Ec. cbn [fst snd]. split; [done|]. unfold system_init. rewrite Ee. cbn [mbind outcome_bind]. rewrite Ei. cbn [mbind outcome_bind].
    unfold initialize_nodes. rewrite Ec. by repeat apply fails_as_bind. }
  destruct (start_dsm c (pl c) Hc0 s Hdiv Hwb) as (s1 & s2 & E1 & E2 & Hf & Eg). rewrite En in E1.
  destruct (create_windows c ft m) as [ws m'] eqn:Ew.
  assert (Efl : flat_of c (pl c) s = flat_of c (pl c) s2) by (unfold flat_of, home_byte; by rewrite Eg). rewrite Efl.
  destruct (pool_started c (pl c) Hc0 Hsz reg_err sched (flat_of c (pl c) s2) s2 Hdiv) as (s3 & s4 & E3 & E4 & H4); [done|by apply fresh_sim|].
  eexists. split.
  { unfold system_init. rewrite Ee. cbn [mbind outcome_bind]. rewrite Ei. cbn [mbind outcome_bind]. unfold initialize_nodes. rewrite Ec.
    rewrite Ev. cbn [mbind outcome_bind]. rewrite Ew, E1. cbn [mbind outcome_bind]. rewrite E2. cbn [mbind outcome_bind sy_config sy_dsm].
    rewrite E3. cbn [mbind outcome_bind]. rewrite E4. cbn [mbind outcome_bind]. reflexivity. }
  cbn [with_dsm sy_config sy_addr sy_vm sy_signals sy_windows sy_mpi sy_dsm sy_first_touch]. split_and!; try done.
  intros r Hr'. pose proof (Hvm r Hr') as Hok. split; [|done].
  by apply (setup_memory_ok V st n start request cache c f (vs r) (vs' r) (addr r)); auto.
Qed.



(** C6: the global memory pool of a started system is linearisable.  From a startable
    environment [argo::init] fails as the set-up of some node's memory does, or it
    returns.  Let the nodes then call [reserve] and [available] and take their steps in
    any interleaving: every step returns, and the results of the calls that have returned
    are those of the sequential pool called in that order.  If all sizes asked for are
    below 2^63, successful reservations are disjoint and inside the global memory below
    the reserved page. *)
Theorem system_pool (es : list pool_event) : WindowLaws M -> VmLaws V ok shows taken obj base -> startable ->
  Forall (fun e => node cfg (event_node e)) es ->
  no_room \/ exists sy ps ck, start_up = Ok sy /\
    pool_run cfg (pl cfg) (pool_start (sy_dsm sy)) es = Ok ps /\
    pool_applies (global_memory_pool (startAddr cfg) (size_of_all cfg)) (po_log ps).*1 = ((po_log ps).*2, ck) /\
    (Forall sane (po_log ps).*1 -> forall i p k, reserved_at (po_log ps) i p k ->
       startAddr cfg <= p /\ p + k <= startAddr cfg + size_of_all cfg - reserved /\
       forall j q k', reserved_at (po_log ps) j q k' -> (i < j)%nat -> p + k <= q).
Proof.
  intros HW HV Hst Hes. destruct (system_start HW HV Hst) as [Hno|(sy & E & _ & Hc0 & Hsz & Hs & _)]; [by left|right].
  destruct (constructed_ready cfg (pl cfg) Hc0 (flat_of cfg (pl cfg) s)) as [Hl Hz].
  destruct (pool_from cfg (pl cfg) started_flat (sy_dsm sy) es Hc0 Hsz Hs Hl Hz Hes) as (ps & ck & H'). by exists sy, ps, ck.
Qed.

End Lifecycle.

(** Windows as a table. *)
#[export] Instance table_windows : WindowSystem (gmap Z window) := {|
  MPI_Win_create m w := let h := stdpp.base.fresh (dom m) in (h, <[h := w]> m);
  MPI_Win_free m h := match m !! h with Some _ => Some (delete h m) | None => None end;
  win_live m h := m !! h |}.

#[export] Instance table_laws : WindowLaws (gmap Z window).
Proof.
  split; cbn [MPI_Win_create MPI_Win_free win_live table_windows].
  - intros m w h m' [= <- <-]. split_and!; [apply not_elem_of_dom, is_fresh|by rewrite lookup_insert_eq|]. intros g Hg. by rewrite lookup_insert_ne.
  - intros m h [w ->]. eexists. split_and!; [done|by rewrite lookup_delete_eq|]. intros g Hg. by rewrite lookup_delete_ne.
Qed.

(** Two nodes with eight pages under an empty environment; node 1 publishes a byte of
    node 0's share and node 0 reads it. *)
Definition small_vm : File.state process :=
  match File.memfd_init fresh_process with Ok v => v | _ => demo_vm end.
Definition small_settings : settings := match Env.init ∅ with Ok st => st | _ => unset end.
Definition small_policy (c : dsm_config) : placement := naive_distribution (dist_of c).
Definition small_config : dsm_config := fst (argo_initialize small_settings 2 ARGO_VM_START (8 * PAGE_SIZE) (2 * PAGE_SIZE)).

Lemma small_vm_ok : file_ok small_vm.
Proof.
  apply (memfd_init_ok fresh_process). destruct (is_ok_Ok (File.memfd_init fresh_process)) as [v E]; [by vm_compute|].
  unfold small_vm. by rewrite E.
Qed.

Abbreviation small_startable := (startable File.impl file_ok small_policy ∅ small_settings 2 (fun _ => small_vm) dsm_reset
  (7 * PAGE_SIZE) (2 * PAGE_SIZE) (8 * PAGE_SIZE) (2 * PAGE_SIZE)).

Lemma small_startable_ok : small_startable.
Proof.
  assert (Ec : fst (argo_initialize small_settings 2 (vm_start_address File.impl small_vm) (8 * PAGE_SIZE) (2 * PAGE_SIZE)) = small_config) by (by vm_compute).
  split; [by vm_compute|done|by vm_compute|done|split; by vm_compute|by vm_compute|split_and!; by vm_compute|rewrite Ec..|].
  - assert (Hpol : value_allocation_policy small_settings = 0) by (by vm_compute). rewrite Hpol. reflexivity.
  - by vm_compute.
  - done.
  - intros r Hr. exact small_vm_ok.
Qed.

(** There is room on every node of the small system. *)
Lemma small_room : ~ no_room (M := gmap Z window) File.impl small_policy true ∅ small_settings 2 (fun _ => small_vm) (fun _ => before_argo) ∅ dsm_reset
  (concat (replicate 8 [0; 1])) (7 * PAGE_SIZE) (2 * PAGE_SIZE) (8 * PAGE_SIZE) (2 * PAGE_SIZE).
Proof.
  intros (r & _ & Hf). unfold fails_as in Hf. cbn beta in Hf.
  destruct (is_ok_Ok (setup_memory File.impl (fst (argo_initialize small_settings 2 (vm_start_address File.impl small_vm) (8 * PAGE_SIZE) (2 * PAGE_SIZE)))
    (snd (argo_initialize small_settings 2 (vm_start_address File.impl small_vm) (8 * PAGE_SIZE) (2 * PAGE_SIZE)))
    (is_first_touch_policy (value_allocation_policy small_settings)) small_vm)) as [x Ex]; [by vm_compute|]. by rewrite Ex in Hf.
Qed.

(** The nodes of the small system, taking turns in the constructor. *)
Definition turns : list Z := concat (replicate 8 [0; 1]).

Abbreviation small_system := (system_init File.impl small_policy true ∅ 2 (fun _ => small_vm) (fun _ => before_argo) (∅ : gmap Z window) dsm_reset turns
  (7 * PAGE_SIZE) (2 * PAGE_SIZE)).


(** Nodes 0 and 1 reserve at the same time. *)
Definition two_reservations : list pool_event :=
  [Call 0 (Reserve 64); Call 1 (Reserve 100); Step 0; Step 1] ++ replicate 12 (Step 0) ++ [Step 1] ++ replicate 7 (Step 0) ++
  replicate 24 (Step 1) ++ [Call 0 Available] ++ replicate 12 (Step 0).

Lemma system_pool_witness : exists sy ps ck, small_system = Ok sy /\
  pool_run small_config (small_policy small_config) (pool_start (sy_dsm sy)) two_reservations = Ok ps /\
  pool_applies (global_memory_pool (startAddr small_config) (size_of_all small_config)) (po_log ps).*1 = ((po_log ps).*2, ck).
Proof.
  assert (Ec : fst (argo_initialize small_settings 2 (vm_start_address File.impl small_vm) (8 * PAGE_SIZE) (2 * PAGE_SIZE)) = small_config) by (by vm_compute).
  destruct (system_pool (M := gmap Z window) File.impl file_ok (fun s => resolve (File.kernel s)) (fun s => in_use (File.kernel s)) Backing 0
    small_policy true ∅ small_settings 2 (fun _ => small_vm) (fun _ => before_argo) ∅ dsm_reset turns (7 * PAGE_SIZE) (2 * PAGE_SIZE)
    (8 * PAGE_SIZE) (2 * PAGE_SIZE) two_reservations table_laws file_laws small_startable_ok) as [Hno|(sy & ps & ck & E & R & A & _)].
  - rewrite Ec. apply Forall_forall. intros e He. assert (Hall : forallb (fun e => (event_node e =? 0) || (event_node e =? 1)) two_reservations = true) by (by vm_compute).
    rewrite forallb_forall in Hall. specialize (Hall e (proj1 (list_elem_of_In _ _) He)). assert (numtasks small_config = 2) as En by (by vm_compute).
    unfold node. rewrite En. lia.
  - destruct (small_room Hno).
  - rewrite Ec in R, A. exists sy, ps, ck. split; [exact E|]. split; [exact R|exact A].
Defined.

(** ** Reset *)
(** C20: [argo::reset] between two data-race-free runs of valid operations, on all nodes.
    If the first run leaves no page in a write buffer and the strides of the load size
    end inside of the mapped directory, as those of the default load size do, the reset
    returns, and the second run sees the memory of the first with the offset of the
    global pool back at 0, every node synchronised. *)
Theorem system_reset (reg_err : bool) (c : dsm_config) (pl : placement) (ops ops' : list (Z * dsm_op)) (f f' : flat) (vs vs' : list Z) (s : dsm) :
  cfg_ok c pl -> reserved <= size_of_all c -> strides_inside c ->
  forallb (op_valid c) ops = true -> flat_ops flat_init ops = Some (f, vs) ->
  run_ops c pl dsm_reset ops = Ok (s, vs) -> (forall r, node c r -> wb s r = []) ->
  forallb (op_valid c) ops' = true -> flat_ops (reset_flat c f) ops' = Some (f', vs') ->
  exists s' s'', argo_reset reg_err c pl s = Ok s' /\ run_ops c pl s' ops' = Ok (s'', vs').
Proof.
  intros Hc Hsz Hdiv Hv Hf Hrun Hwb Hv' Hf'.
  destruct (sim_ops c pl Hc ops flat_init dsm_reset f vs) as (s1 & E1 & Hs); [by apply sim_init|done|done|]. rewrite Hrun in E1. injection E1 as <-.
  destruct (argo_reset_ok c pl Hc Hsz reg_err f s Hdiv Hwb Hs) as (s' & E & H1 & _).
  destruct (sim_ops c pl Hc ops' _ s' f' vs' H1 Hv' Hf') as (s'' & E2 & _). by exists s', s''.
Qed.

(** Node 0 writes to node 1's share and to the pool's offset; after the reset both nodes
    find the byte, and the offset cleared. *)
Definition before_system_reset : list (Z * dsm_op) :=
  [(0, op_store 8200 7 access_write); (0, op_store (offset_at demo_dsm) 64 access_write); (0, op_release); (1, op_acquire)].
Definition after_system_reset : list (Z * dsm_op) :=
  [(1, op_load 8200 access_read); (0, op_load (offset_at demo_dsm) access_read); (1, op_load (offset_at demo_dsm) access_read)].

Lemma system_reset_witness : exists s' s'',
  argo_reset false demo_dsm demo_pl (end_state (run_ops demo_dsm demo_pl dsm_reset before_system_reset)) = Ok s' /\
  run_ops demo_dsm demo_pl s' after_system_reset = Ok (s'', [7; 0; 0]).
Proof.
  set (f := match flat_ops flat_init before_system_reset with Some (f, _) => f | None => flat_init end).
  set (f' := match flat_ops (reset_flat demo_dsm f) after_system_reset with Some (f, _) => f | None => flat_init end).
  apply (system_reset false demo_dsm demo_pl before_system_reset after_system_reset f f' [] [7; 0; 0]).
  - exact demo_cfg_ok.
  - by vm_compute.
  - by vm_compute.
  - reflexivity.
  - reflexivity.
  - apply (end_state_run demo_dsm demo_pl before_system_reset f []); [exact demo_cfg_ok|reflexivity|reflexivity].
  - intros r Hr. assert (r = 0 \/ r = 1) as [-> | ->] by (unfold node in Hr; simpl in Hr; lia); by vm_compute.
  - reflexivity.
  - reflexivity.
Defined.

(** ** A barrier with [upgrade_all]

    On the system that [argo::init] makes of an empty environment: node 0 reads a page of
    its own and one of node 1's that uses the same slot, all nodes reset the directories,
    node 1 stores to its page, all nodes pass another barrier, and both nodes read the
    byte. *)
Definition upgrade_all_ops : list (Z * dsm_op) :=
  [(0, op_load 0 access_read); (0, op_load 16384 access_read); (0, op_barrier upgrade_all);
   (1, op_store 16384 5 access_write); (0, op_barrier upgrade_none);
   (0, op_load 16384 access_read); (1, op_load 16384 access_read)].

(** A barrier with [upgrade_all] can make a node miss another node's store for good.
    The program is free of data races and the abstract memory delivers 5 to both nodes;
    node 0 reads 0, because resetting its own page invalidated the slot of the cached
    remote page without revoking the read permission, after which self-invalidation
    skips the slot. *)
Theorem upgrade_all_loses_store :
  (exists f, flat_ops flat_init upgrade_all_ops = Some (f, [0; 0; 5; 5])) /\
  snd <$> run_ops small_config (small_policy small_config) dsm_reset upgrade_all_ops = Ok [0; 0; 0; 5].
Proof. split; [eexists; reflexivity|]. vm_compute. reflexivity. Qed.
