(* ===== verification/WriteBuffer.v ===== *)
(** * The class of the write buffer

    [write_buffer<T>] of [src/src/backend/mpi/write_buffer.hpp] as a class of its own: the
    queue, its statistics, the operations the delegation lock executes ([_add], [_erase],
    [_flush], [flush_partial]), the public operations with the time they are charged
    for, the getters, [reset_stats] and the copy and move operations.  Writing an element
    back is a parameter here; [Swdsm.v] has the same queue inside of the DSM, with
    [write_back_index] in its place, and [HandlerThreads.v] the interleaving of
    the delegated calls.  A time is a number of ticks of [MPI_Wtime]. *)

From stdpp Require Import functions.
From S2P Require Import Prelude.

Section WriteBuffer.

Context {T D : Type} `{EqDecision T} (write_back : D -> T -> outcome D).

Record write_buffer := WriteBuffer {
  _buffer : list T;
  _max_size : Z;
  _write_back_size : Z;
  _page_count : Z;
  _partial_flush_count : Z;
  _flush_time : Z;
  _flush_wait_time : Z;
  _write_back_time : Z;
  _buffer_lock_time : Z;
}.

(** The constructor, with the sizes of the environment. *)
Definition write_buffer_new (max_size write_back_size : Z) : write_buffer := WriteBuffer [] max_size write_back_size 0 0 0 0 0 0.

Definition empty (b : write_buffer) : bool := bool_decide (_buffer b = []).
Definition size (b : write_buffer) : Z := Z.of_nat (length (_buffer b)).
Definition has (b : write_buffer) (val : T) : bool := bool_decide (val ∈ _buffer b).
(** [std::deque::at] checks the index. *)
Definition at_ (b : write_buffer) (i : Z) : outcome T :=
  match (if bool_decide (0 <= i) then _buffer b !! Z.to_nat i else None) with Some x => Ok x | None => Throw (undefined_behaviour "out_of_range") end.

Definition set_buffer (b : write_buffer) (l : list T) : write_buffer :=
  WriteBuffer l (_max_size b) (_write_back_size b) (_page_count b) (_partial_flush_count b) (_flush_time b) (_flush_wait_time b)
    (_write_back_time b) (_buffer_lock_time b).
Definition emplace_back (b : write_buffer) (val : T) : write_buffer := set_buffer b (_buffer b ++ [val]).
Definition pop (b : write_buffer) : outcome (T * write_buffer) :=
  match _buffer b with
  | [] => Throw (undefined_behaviour "front of an empty deque")
  | elem :: l => Ok (elem, set_buffer b l)
  end.

(** [write_back_index(pop())]. *)
Definition pop_write_back '((b, d) : write_buffer * D) : outcome (write_buffer * D) :=
  '(elem, b) ← pop b; d ← write_back d elem; Ok (b, d).

Definition add_write_back_time (b : write_buffer) (dt : Z) : write_buffer :=
  WriteBuffer (_buffer b) (_max_size b) (_write_back_size b) (_page_count b) (add64 (_partial_flush_count b) 1) (_flush_time b) (_flush_wait_time b)
    (_write_back_time b + dt) (_buffer_lock_time b).
Definition add_page (b : write_buffer) : write_buffer :=
  WriteBuffer (_buffer b) (_max_size b) (_write_back_size b) (add64 (_page_count b) 1) (_partial_flush_count b) (_flush_time b) (_flush_wait_time b)
    (_write_back_time b) (_buffer_lock_time b).
Definition add_flush_time (b : write_buffer) (dt : Z) : write_buffer :=
  WriteBuffer (_buffer b) (_max_size b) (_write_back_size b) (_page_count b) (_partial_flush_count b) (_flush_time b + dt) (_flush_wait_time b)
    (_write_back_time b) (_buffer_lock_time b).
(** What the caller of a public operation adds. *)
Definition charge (b : write_buffer) (lock_dt wait_dt : Z) : write_buffer :=
  WriteBuffer (_buffer b) (_max_size b) (_write_back_size b) (_page_count b) (_partial_flush_count b) (_flush_time b) (_flush_wait_time b + wait_dt)
    (_write_back_time b) (_buffer_lock_time b + lock_dt).

Definition flush_partial (t_start t_end : Z) (bd : write_buffer * D) : outcome (write_buffer * D) :=
  '(b, d) ← for_each (seqZ 0 (_write_back_size (fst bd))) (fun _ => pop_write_back) bd;
  Ok (add_write_back_time b (t_end - t_start), d).

Definition _add (val : T) (t_start t_end : Z) (bd : write_buffer * D) : outcome (write_buffer * D) :=
  if has (fst bd) val then Throw (assertion_failed "!has(val)")
  else
    '(b, d) ← (if _max_size (fst bd) <=? size (fst bd) then flush_partial t_start t_end bd else Ok bd);
    Ok (add_page (emplace_back b val), d).

Fixpoint remove_first_of (val : T) (l : list T) : list T :=
  match l with
  | [] => []
  | x :: l => if decide (x = val) then l else x :: remove_first_of val l
  end.
Definition _erase (val : T) (bd : write_buffer * D) : write_buffer * D :=
  (set_buffer (fst bd) (remove_first_of val (_buffer (fst bd))), snd bd).

(** Every round pops, so that the length of the buffer is enough fuel. *)
Fixpoint flush_loop (fuel : nat) (bd : write_buffer * D) : outcome (write_buffer * D) :=
  if empty (fst bd) then Ok bd
  else match fuel with O => Hang | Datatypes.S fuel => bd ← pop_write_back bd; flush_loop fuel bd end.
Definition _flush (t_start t_stop : Z) (bd : write_buffer * D) : outcome (write_buffer * D) :=
  '(b, d) ← flush_loop (length (_buffer (fst bd))) bd;
  Ok (add_flush_time b (t_stop - t_start), d).

(** ** The public operations *)

(** An operation with the times it reads: [lock] is what the caller spends in the
    delegation, [wait] in waiting for a flush, [inside] what the executing thread measures. *)
Inductive wb_op := Add (val : T) (inside lock : Z * Z) | Erase (val : T) (lock : Z * Z) | Flush (inside lock wait : Z * Z).

Definition span (t : Z * Z) : Z := snd t - fst t.

Definition wb_exec (o : wb_op) (bd : write_buffer * D) : outcome (write_buffer * D) :=
  match o with
  | Add val inside lock => '(b, d) ← _add val (fst inside) (snd inside) bd; Ok (charge b (span lock) 0, d)
  | Erase val lock => let '(b, d) := _erase val bd in Ok (charge b (span lock) 0, d)
  | Flush inside lock wait => '(b, d) ← _flush (fst inside) (snd inside) bd; Ok (charge b (span lock) (span wait), d)
  end.

Definition wb_run (ops : list wb_op) (bd : write_buffer * D) : outcome (write_buffer * D) := for_each ops wb_exec bd.

Definition get_flush_time (b : write_buffer) : Z := _flush_time b.
Definition get_flush_wait_time (b : write_buffer) : Z := _flush_wait_time b.
Definition get_write_back_time (b : write_buffer) : Z := _write_back_time b.
Definition get_buffer_lock_time (b : write_buffer) : Z := _buffer_lock_time b.
Definition get_size (b : write_buffer) : Z := Z.of_nat (length (_buffer b)).
Definition get_page_count (b : write_buffer) : Z := _page_count b.
Definition get_partial_flush_count (b : write_buffer) : Z := _partial_flush_count b.

Definition reset_wb_stats (b : write_buffer) : write_buffer := WriteBuffer (_buffer b) (_max_size b) (_write_back_size b) 0 0 0 0 0 0.

(** ** Copies and moves *)

(** The buffers of a program; a copy names its source and its target. *)
Abbreviation wb_heap := (Z -> write_buffer).

Definition copy_fields (other : write_buffer) : write_buffer :=
  WriteBuffer (_buffer other) (_max_size other) (_write_back_size other) (_page_count other) (_partial_flush_count other) (_flush_time other)
    (_flush_wait_time other) (_write_back_time other) (_buffer_lock_time other).

Definition copy_construct (h : wb_heap) (this other : Z) : wb_heap := <[this := copy_fields (h other)]> h.
Definition copy_assign (h : wb_heap) (this other : Z) : wb_heap :=
  if this =? other then h else <[this := copy_fields (h other)]> h.
(** A move leaves [left] in the queue of the source and copies its numbers. *)
Definition move_construct (left : list T) (h : wb_heap) (this other : Z) : wb_heap :=
  <[other := set_buffer (h other) left]> (<[this := copy_fields (h other)]> h).
Definition move_assign (left : list T) (h : wb_heap) (this other : Z) : wb_heap :=
  if this =? other then h else <[other := set_buffer (h other) left]> (<[this := copy_fields (h other)]> h).

(** ** First in, first out *)

Definition adds (ops : list wb_op) : list T := omap (fun o => match o with Add v _ _ => Some v | _ => None end) ops.
Definition erases (ops : list wb_op) : list T := omap (fun o => match o with Erase v _ => Some v | _ => None end) ops.

(** The queue the class promises: a list of what has been written back and a list of
    what is queued.  A full queue first gives up its [back] oldest elements; adding an
    element that is queued is an error. *)
Definition queue_step (max back : Z) (o : wb_op) '((log, q) : list T * list T) : option (list T * list T) :=
  match o with
  | Add v _ _ =>
    if decide (v ∈ q) then None
    else if max <=? Z.of_nat (length q) then Some (log ++ take (Z.to_nat back) q, drop (Z.to_nat back) q ++ [v])
    else Some (log, q ++ [v])
  | Erase v _ => Some (log, filter (fun x => x <> v) q)
  | Flush _ _ _ => Some (log ++ q, [])
  end.
Fixpoint queue_run (max back : Z) (ops : list wb_op) (lq : list T * list T) : option (list T * list T) :=
  match ops with
  | [] => Some lq
  | o :: ops => match queue_step max back o lq with Some lq' => queue_run max back ops lq' | None => None end
  end.

Lemma queue_run_snoc max back ops o lq :
  queue_run max back (ops ++ [o]) lq = match queue_run max back ops lq with Some lq' => queue_step max back o lq' | None => None end.
Proof.
  revert lq. induction ops as [|o' ops IH]; intros lq; cbn; [by destruct (queue_step _ _ _ _)|]. destruct (queue_step _ _ o' lq); [apply IH|done].
Qed.

(** Writing [log] back in this order takes [d] to [d']. *)
Definition written (log : list T) (d d' : D) : Prop := for_each log (fun v d => write_back d v) d = Ok d'.

Lemma written_app log log' d1 d2 d3 : written log d1 d2 -> written log' d2 d3 -> written (log ++ log') d1 d3.
Proof. intros E1 E2. unfold written in *. by rewrite for_each_app, E1. Qed.

(** The outcome is the failure of a write-back, after some others. *)
Definition fails_writing {A} (d : D) (out : outcome A) : Prop :=
  exists log v d', written log d d' /\
    match out with Ok _ => False | Throw e => write_back d' v = Throw e | Hang => write_back d' v = Hang end.

Lemma fails_later {A} log d d' (out : outcome A) : written log d d' -> fails_writing d' out -> fails_writing d out.
Proof. intros W (log' & v & d1 & W' & E). exists (log ++ log'), v, d1. split; [by eapply written_app|done]. Qed.

Lemma fails_bind {A B} d (out : outcome A) (f : A -> outcome B) : fails_writing d out -> fails_writing d (out ≫= f).
Proof. intros (log & v & d' & W & E). exists log, v, d'. split; [done|]. by destruct out. Qed.

Lemma pop_write_back_spec b d x l : _buffer b = x :: l ->
  (exists d', pop_write_back (b, d) = Ok (set_buffer b l, d') /\ written [x] d d') \/ fails_writing d (pop_write_back (b, d)).
Proof.
  intros E. unfold pop_write_back, pop, written. rewrite E. cbn [mbind outcome_bind for_each].
  destruct (write_back d x) as [d'|e|] eqn:Ed; [left; by exists d'|right..]; exists [], x, d; cbn; done.
Qed.

(** Popping [n] elements writes the first [n] back. *)
Lemma pop_many n : forall k b d, (n <= length (_buffer b))%nat ->
  (exists d', for_each (seqZ k (Z.of_nat n)) (fun _ => pop_write_back) (b, d) = Ok (set_buffer b (drop n (_buffer b)), d') /\
    written (take n (_buffer b)) d d') \/
  fails_writing d (for_each (seqZ k (Z.of_nat n)) (fun _ => pop_write_back) (b, d)).
Proof.
  induction n as [|n IH]; intros k b d Hn; [left; exists d; split; [by destruct b|done]|].
  destruct (_buffer b) as [|x l] eqn:Eb; [simpl in Hn; lia|]. rewrite seqZ_cons by lia. cbn [for_each].
  replace (Z.pred (Z.of_nat (S n))) with (Z.of_nat n) by lia.
  destruct (pop_write_back_spec b d x l Eb) as [(d1 & E1 & W1)|F]; [|right; by apply fails_bind]. rewrite E1. cbn [mbind outcome_bind].
  destruct (IH (Z.succ k) (set_buffer b l) d1) as [(d2 & E2 & W2)|F]; [simpl in *; lia| |right; by eapply fails_later].
  left. exists d2. cbn [set_buffer _buffer] in *. split; [rewrite E2; reflexivity|]. simpl. by apply (written_app [x] _ d d1 d2).
Qed.

Lemma flush_loop_spec fuel : forall b d, (length (_buffer b) <= fuel)%nat ->
  (exists d', flush_loop fuel (b, d) = Ok (set_buffer b [], d') /\ written (_buffer b) d d') \/ fails_writing d (flush_loop fuel (b, d)).
Proof.
  induction fuel as [|fuel IH]; intros b d Hl; cbn [flush_loop fst]; unfold empty; destruct (_buffer b) as [|x l] eqn:Eb; simpl in Hl; try lia.
  - left. exists d. split; [destruct b; cbn in *; by subst|done].
  - left. exists d. split; [destruct b; cbn in *; by subst|done].
  - rewrite bool_decide_eq_false_2 by done.
    destruct (pop_write_back_spec b d x l Eb) as [(d1 & E1 & W1)|F]; [|right; by apply fails_bind]. rewrite E1. cbn [mbind outcome_bind].
    destruct (IH (set_buffer b l) d1) as [(d2 & E2 & W2)|F]; [simpl; lia| |right; by eapply fails_later].
    left. exists d2. split; [exact E2|]. by apply (written_app [x] l d d1 d2).
Qed.

(** What a run keeps: the queue is the one promised, [log] has been written back since
    [d0], and the elements added are those in [log], in the queue, and those gone by an
    erase. *)
Record wb_inv (d0 : D) (max back : Z) (ops : list wb_op) (b : write_buffer) (d : D) : Prop := {
  wi_sizes : _max_size b = max /\ _write_back_size b = back;
  wi_len : size b <= max;
  wi_nodup : NoDup (_buffer b);
  wi_log : exists log gone, queue_run max back ops ([], []) = Some (log, _buffer b) /\ written log d0 d /\
    sublist (log ++ _buffer b) (adds ops) /\ adds ops ≡ₚ gone ++ log ++ _buffer b /\ gone ⊆+ erases ops;
  wi_count : _page_count b = u64 (Z.of_nat (length (adds ops)));
}.

Lemma remove_first_filter (v : T) (l : list T) : NoDup l -> remove_first_of v l = filter (fun x => x <> v) l.
Proof.
  induction 1 as [|x l Hx Hl IH]; [done|]. simpl. rewrite filter_cons. destruct (decide (x = v)) as [->|Hne].
  - rewrite decide_False by auto. rewrite <- IH. clear IH Hl. induction l as [|y l IH]; [done|]. apply not_elem_of_cons in Hx as [H1 H2].
    simpl. rewrite decide_False by congruence. f_equal. by apply IH.
  - by rewrite decide_True, IH.
Qed.

Lemma remove_first_of_perm (v : T) (l : list T) : exists gone, l ≡ₚ gone ++ remove_first_of v l /\ gone ⊆+ [v].
Proof.
  induction l as [|x l (gone & P & S)]; [by exists []; split; [|apply submseteq_nil_l]|]. simpl. case_decide as E.
  - subst x. by exists [v].
  - exists gone. split; [|done]. rewrite P at 1. by rewrite Permutation_middle.
Qed.

Lemma sublist_remove_first (v : T) (l : list T) : sublist (remove_first_of v l) l.
Proof. induction l as [|x l IH]; [constructor|]. simpl. case_decide; by constructor. Qed.

Lemma wb_adds_app ops ops' : adds (ops ++ ops') = adds ops ++ adds ops'. Proof. apply omap_app. Qed.
Lemma wb_erases_app ops ops' : erases (ops ++ ops') = erases ops ++ erases ops'. Proof. apply omap_app. Qed.

Context (d0 : D) (max back : Z) (Hback : 1 <= back <= max).

(** Making room in a full buffer. *)
Lemma make_room b d t0 t1 : _max_size b = max -> _write_back_size b = back -> size b <= max ->
  let out := if max <=? size b then flush_partial t0 t1 (b, d) else Ok (b, d) in
  let k := if max <=? size b then Z.to_nat back else 0%nat in
  (exists b1 d1, out = Ok (b1, d1) /\ _buffer b1 = drop k (_buffer b) /\ (length (_buffer b1) < Z.to_nat max)%nat /\
     written (take k (_buffer b)) d d1 /\ _max_size b1 = max /\ _write_back_size b1 = back /\ _page_count b1 = _page_count b) \/
  fails_writing d out.
Proof using Hback.
  intros S1 S2. unfold size. intros Hl. destruct (Z.leb_spec max (Z.of_nat (length (_buffer b)))) as [Hf|Hf]; cbn zeta.
  - unfold flush_partial. cbn [fst]. rewrite S2. destruct (pop_many (Z.to_nat back) 0 b d) as [(d1 & E & W1)|F]; [lia| |].
    + rewrite Z2Nat.id in E by lia. rewrite E. cbn [mbind outcome_bind]. left. eexists _, d1. split; [reflexivity|]. cbn. rewrite length_drop. split_and!; try done. lia.
    + rewrite Z2Nat.id in F by lia. right. by apply fails_bind.
  - left. exists b, d. rewrite drop_0, take_0. split_and!; try done. lia.
Qed.

Lemma wb_exec_add ops b d v inside lock : wb_inv d0 max back ops b d -> v ∉ _buffer b ->
  (exists b' d', wb_exec (Add v inside lock) (b, d) = Ok (b', d') /\ wb_inv d0 max back (ops ++ [Add v inside lock]) b' d') \/
  fails_writing d0 (wb_exec (Add v inside lock) (b, d)).
Proof using Hback.
  intros [[S1 S2] Hl Hn (log & gone & Q & W & Hs & Hp & Hg) Hc] Hv. unfold wb_exec, _add, has. cbn [fst]. rewrite bool_decide_eq_false_2 by done. rewrite S1.
  destruct (make_room b d (fst inside) (snd inside) S1 S2 Hl) as [(b1 & d1 & -> & Eb & Hlt & W1 & T1 & T2 & T3)|F];
    [|right; eapply fails_later; [exact W|]; by repeat apply fails_bind].
  set (k := if max <=? size b then Z.to_nat back else 0%nat) in *. cbn [mbind outcome_bind]. left. eexists _, d1. split; [reflexivity|].
  split; cbn [_buffer _max_size _write_back_size _page_count charge add_page emplace_back set_buffer size].
  - done.
  - unfold size. cbn. rewrite length_app. simpl. lia.
  - rewrite Eb. apply NoDup_app. split_and!; [by eapply sublist_NoDup, sublist_drop| |apply NoDup_singleton]. intros x Hx ->%list_elem_of_singleton.
    apply Hv. by eapply elem_of_sublist, sublist_drop.
  - assert (Ea : (log ++ take k (_buffer b)) ++ _buffer b1 ++ [v] = (log ++ _buffer b) ++ [v]).
    { rewrite Eb, !app_assoc. f_equal. rewrite <- !app_assoc. by rewrite take_drop. }
    exists (log ++ take k (_buffer b)), gone. rewrite queue_run_snoc, Q, wb_adds_app, wb_erases_app, Ea. split_and!.
    + cbn [queue_step]. rewrite decide_False by done. rewrite Eb. fold (size b). unfold k. destruct (max <=? size b); [done|].
      by rewrite take_0, drop_0, app_nil_r.
    + by apply (written_app log _ d0 d d1).
    + by apply sublist_app.
    + cbn. by rewrite Hp, <- !app_assoc.
    + cbn. by rewrite app_nil_r.
  - rewrite T3, Hc, wb_adds_app, length_app. simpl. unfold add64, u64. rewrite Zplus_mod_idemp_l. f_equal. lia.
Qed.

(** What the last operation leaves behind. *)
Definition last_done (o : wb_op) (q : list T) : Prop :=
  match o with Add v _ _ => last q = Some v | Erase v _ => v ∉ q | Flush _ _ _ => q = [] end.

Definition ends_well (ops : list wb_op) (out : outcome (write_buffer * D)) : Prop :=
  match out with
  | Ok (b, d) => wb_inv d0 max back ops b d
  | Throw e => (e = assertion_failed "!has(val)" /\ ~ NoDup (adds ops)) \/ fails_writing d0 out
  | Hang => fails_writing d0 out
  end.

Lemma ends_failed ops out : fails_writing d0 out -> ends_well ops out.
Proof using Type. intros F. destruct out as [[b d]|e|]; [by destruct F as (? & ? & ? & _ & [])|by right|done]. Qed.

Lemma wb_exec_ok ops b d o : wb_inv d0 max back ops b d -> ends_well (ops ++ [o]) (wb_exec o (b, d)).
Proof using Hback.
  intros Hi. destruct o as [v inside lock|v lock|inside lock wait].
  - destruct (decide (v ∈ _buffer b)) as [Hv|Hv].
    + unfold wb_exec, _add, has. cbn [fst]. rewrite bool_decide_eq_true_2 by done. left. split; [done|].
      destruct Hi as [_ _ _ (log & gone & _ & _ & Hs & _) _]. rewrite wb_adds_app. intros (_ & Hd & _)%NoDup_app. apply (Hd v); [|by left].
      eapply elem_of_sublist; [|exact Hs]. apply elem_of_app. by right.
    + destruct (wb_exec_add ops b d v inside lock Hi Hv) as [(b' & d' & -> & H)|F]; [done|by apply ends_failed].
  - destruct Hi as [[S1 S2] Hl Hn (log & gone & Q & W & Hs & Hp & Hg) Hc]. cbn. split; cbn; try done.
    + unfold size in *. cbn. pose proof (sublist_length _ _ (sublist_remove_first v (_buffer b))). lia.
    + by eapply sublist_NoDup, sublist_remove_first.
    + destruct (remove_first_of_perm v (_buffer b)) as (gone' & P & S). exists log, (gone ++ gone').
      rewrite queue_run_snoc, Q, wb_adds_app, wb_erases_app. cbn. rewrite app_nil_r. split_and!.
      * by rewrite remove_first_filter.
      * done.
      * etransitivity; [|exact Hs]. apply sublist_app; [done|apply sublist_remove_first].
      * rewrite Hp, P at 1. rewrite <- app_assoc, (app_assoc log), (app_assoc gone'), (Permutation_app_comm log gone'). by rewrite <- app_assoc.
      * by apply submseteq_app.
    + rewrite wb_adds_app. cbn. by rewrite app_nil_r.
  - destruct Hi as [[S1 S2] Hl Hn (log & gone & Q & W & Hs & Hp & Hg) Hc]. unfold wb_exec, _flush. cbn [fst].
    destruct (flush_loop_spec (length (_buffer b)) b d) as [(d1 & E & W1)|F]; [done| |apply ends_failed; eapply fails_later; [exact W|]; by repeat apply fails_bind].
    rewrite E. cbn [mbind outcome_bind]. split; cbn; try done.
    + unfold size in *. cbn. lia.
    + apply NoDup_nil_2.
    + exists (log ++ _buffer b), gone. rewrite queue_run_snoc, Q, wb_adds_app, wb_erases_app. cbn. rewrite !app_nil_r.
      split_and!; [done|by apply (written_app log _ d0 d d1)|done..].
    + rewrite wb_adds_app. cbn. by rewrite app_nil_r.
Qed.

Lemma wb_run_ok ops' : forall ops b d, wb_inv d0 max back ops b d -> ends_well (ops ++ ops') (wb_run ops' (b, d)).
Proof using Hback.
  induction ops' as [|o ops' IH]; intros ops b d Hi; [by rewrite app_nil_r|]. unfold wb_run in *. cbn [for_each]. pose proof (wb_exec_ok ops b d o Hi) as Ho.
  assert (Ea : ops ++ o :: ops' = (ops ++ [o]) ++ ops') by (by rewrite <- app_assoc). rewrite Ea.
  destruct (wb_exec o (b, d)) as [[b1 d1]|e|]; cbn [mbind outcome_bind]; [by apply IH| |exact Ho].
  destruct Ho as [[-> Hn]|F]; [left; split; [done|]|right; done]. rewrite wb_adds_app. by intros (? & _)%NoDup_app.
Qed.

End WriteBuffer.
Arguments write_buffer : clear implicits.
Arguments wb_op : clear implicits.

(** C9: the write buffer is a bounded FIFO queue.  For sizes with [1 <= write_back_size <=
    max_size], any way to write an element back, which may fail, and any sequence of
    [add], [erase] and [flush] on a new buffer: if the run returns, the queue is the one
    the same operations leave in the reference queue [queue_run] and the elements
    written back are its, in this order.  These two are the elements added, in their
    order and each once, but for some that an [erase] asked for has removed.  The queue
    has no duplicates and never exceeds [max_size], an [erase] or a [flush] at the end
    leaves no such element or none at all, and the page count is the number of additions.  If
    the run does not return, an element was added that is still queued, which the
    assertion of [_add] reports and which is impossible when no element is added twice,
    or a write-back has failed in this way. *)
Theorem write_buffer_fifo {T D : Type} `{EqDecision T} (write_back : D -> T -> outcome D) (d : D) (max back : Z) (ops : list (wb_op T)) :
  1 <= back <= max ->
  match wb_run write_back ops (write_buffer_new max back, d) with
  | Ok (b', d') =>
    (exists log gone, queue_run max back ops ([], []) = Some (log, _buffer b') /\ written write_back log d d' /\
       sublist (log ++ _buffer b') (adds ops) /\ adds ops ≡ₚ gone ++ log ++ _buffer b' /\ gone ⊆+ erases ops) /\
    NoDup (_buffer b') /\ get_size b' <= max /\ (forall o, last ops = Some o -> last_done o (_buffer b')) /\
    get_page_count b' = u64 (Z.of_nat (length (adds ops)))
  | Throw e => (e = assertion_failed "!has(val)" /\ ~ NoDup (adds ops)) \/ fails_writing write_back d (Throw (A := unit) e)
  | Hang => fails_writing write_back d (Hang (A := unit))
  end.
Proof.
  intros Hb. assert (Hi : wb_inv write_back d max back [] (write_buffer_new max back) d).
  { split; cbn; [done|unfold size; cbn; lia|apply NoDup_nil_2| |done]. exists [], []. by split_and!. }
  pose proof (wb_run_ok write_back d max back Hb ops [] (write_buffer_new max back) d Hi) as H. cbn [app] in H.
  destruct (wb_run _ _ _) as [[b' d']|e|]; [|done..]. destruct H as [_ H2 H3 (log & gone & Q & H4) H5]. split_and!; try done; [by exists log, gone|].
  intros o (ops1 & ->)%last_Some. rewrite queue_run_snoc in Q. destruct (queue_run max back ops1 ([], [])) as [[l1 q1]|]; [|done].
  destruct o; cbn in Q |- *.
  - destruct (decide (val ∈ q1)); [done|]. destruct (max <=? _); injection Q as _ <-; by rewrite last_snoc.
  - injection Q as _ <-. by intros [? _]%list_elem_of_filter.
  - by injection Q as _ <-.
Qed.

(** A buffer of three elements that writes two back when it is full; the log is the
    list of write-backs. *)
Definition small_buffer_ops : list (wb_op Z) :=
  [Add 10 (0, 0) (0, 1); Add 11 (1, 1) (1, 2); Add 12 (2, 2) (2, 3); Erase 11 (3, 4); Add 13 (4, 4) (4, 5); Add 14 (5, 9) (5, 10);
   Add 10 (10, 10) (10, 11); Flush (11, 15) (11, 16) (16, 16)].

Lemma write_buffer_fifo_witness :
  exists b log, wb_run (fun (d : list Z) v => Ok (d ++ [v])) small_buffer_ops (write_buffer_new 3 2, []) = Ok (b, log) /\
    log = [10; 12; 13; 14; 10] /\ _buffer b = [] /\ get_page_count b = 6 /\ get_write_back_time b = 4 /\ get_flush_time b = 4.
Proof.
  pose proof (write_buffer_fifo (fun (d : list Z) v => Ok (d ++ [v])) [] 3 2 small_buffer_ops ltac:(done)) as H.
  destruct (wb_run (fun (d : list Z) v => Ok (d ++ [v])) small_buffer_ops (write_buffer_new 3 2, [])) as [[b log]|e|] eqn:E; [|by vm_compute in E..].
  exists b, log. destruct H as (_ & _ & _ & Hf & Hc). split; [done|]. vm_compute in E. injection E as <- <-. done.
Defined.

(** ** Copies *)

(** A copy is the buffer it was made of, and assigning a buffer to itself changes nothing. *)
Lemma copy_equal {T : Type} (h : Z -> write_buffer T) this other : this <> other ->
  copy_construct h this other this = h other /\ copy_assign h this other this = h other /\ copy_assign h this other other = h other /\
  (forall left, move_assign left h this other this = h other /\ move_construct left h this other this = h other).
Proof.
  intros Hne. unfold copy_construct, copy_assign, move_assign, move_construct. rewrite (proj2 (Z.eqb_neq _ _) Hne).
  assert (Ec : copy_fields (h other) = h other) by (by destruct (h other)). rewrite Ec. split_and!; intros.
  - by rewrite fn_lookup_insert.
  - by rewrite fn_lookup_insert.
  - by rewrite fn_lookup_insert_ne.
  - split; (rewrite fn_lookup_insert_ne by done; by rewrite fn_lookup_insert).
Qed.
