(* ===== verification/CacheLock.v ===== *)
(** * The lock of a cache block

    [cache_lock] of [src/src/backend/mpi/swdsm.h]: a mutex that keeps its own statistics.
    Threads take it with [lock] or [try_lock], give it back with [unlock], and read or
    reset the statistics, which are only touched while the mutex is held.  A thread takes
    one step between two calls that can block or that read the clock; a time is a number
    of ticks of [MPI_Wtime]. *)

From stdpp Require Import functions relations.
From S2P Require Import Prelude.

Record cache_lock := CacheLock {
  wait_time : Z;
  hold_time : Z;
  acquire_time : Z;
  num_locks : Z;
}.

Definition cache_lock_new : cache_lock := CacheLock 0 0 0 0.
(** The copy and the move constructor. *)
Definition cache_lock_copy (other : cache_lock) : cache_lock :=
  CacheLock (wait_time other) (hold_time other) (acquire_time other) (num_locks other).

(** [lock] once the mutex is its own: [start] was read before. *)
Definition locked (l : cache_lock) (start end_ : Z) : cache_lock :=
  CacheLock (wait_time l + (end_ - start)) (hold_time l) end_ (add64 (num_locks l) 1).
(** [try_lock] after success. *)
Definition try_locked (l : cache_lock) (now : Z) : cache_lock := CacheLock (wait_time l) (hold_time l) now (add64 (num_locks l) 1).
(** [unlock] before it releases the mutex. *)
Definition released (l : cache_lock) (now : Z) : cache_lock :=
  CacheLock (wait_time l) (hold_time l + (now - acquire_time l)) (acquire_time l) (num_locks l).
Definition get_lock_time (l : cache_lock) : Z := wait_time l.
Definition get_hold_time (l : cache_lock) : Z := hold_time l.
Definition get_num_locks (l : cache_lock) : Z := num_locks l.
Definition reset_stats (l : cache_lock) : cache_lock := CacheLock 0 0 (acquire_time l) 0.

(** ** Threads *)

(** A thread outside, in [lock] before and after it has the mutex, in [try_lock] with the
    mutex, or in its critical section. *)
Inductive pc := Idle | Waiting (start : Z) | Taken (start : Z) | Tried | Holding.
#[export] Instance pc_eq_dec : EqDecision pc.
Proof. solve_decision. Defined.

Definition inside (p : pc) : bool := match p with Taken _ | Tried | Holding => true | _ => false end.

(** [since] is the time of the last reset and [taken] the acquisitions after it. *)
Record state := State { lk : cache_lock; c_mutex : option nat; pcs : nat -> pc; clock : Z; since : Z; taken : Z }.

Inductive action := Start_lock | Take | Note | Try_lock | Unlock | Reset_stats.

(** Thread [t] takes a step at time [now]; [None] when it cannot. *)
Definition act (s : state) (t : nat) (a : action) (now : Z) : option state :=
  let to p := <[t := p]> (pcs s) in
  match a, pcs s t with
  | Start_lock, Idle => Some (State (lk s) (c_mutex s) (to (Waiting now)) now (since s) (taken s))
  | Take, Waiting start =>
    match c_mutex s with
    | None => Some (State (lk s) (Some t) (to (Taken start)) now (since s) (taken s))
    | Some _ => None
    end
  | Note, Taken start => Some (State (locked (lk s) start now) (c_mutex s) (to Holding) now (since s) (taken s + 1))
  | Note, Tried => Some (State (try_locked (lk s) now) (c_mutex s) (to Holding) now (since s) (taken s + 1))
  | Try_lock, Idle =>
    match c_mutex s with
    | None => Some (State (lk s) (Some t) (to Tried) now (since s) (taken s))
    | Some _ => Some (State (lk s) (c_mutex s) (pcs s) now (since s) (taken s))
    end
  | Unlock, Holding => Some (State (released (lk s) now) None (to Idle) now (since s) (taken s))
  | Reset_stats, Idle =>
    match c_mutex s with
    | None => Some (State (reset_stats (lk s)) None (pcs s) now now 0)
    | Some _ => None
    end
  | _, _ => None
  end.

Definition initial : state := State cache_lock_new None (fun _ => Idle) 0 0 0.

Inductive step : state -> state -> Prop :=
  | step_act s t a now s' : clock s <= now -> act s t a now = Some s' -> step s s'.

Definition reachable (s : state) : Prop := rtc step initial s.

(** The mutex is the thread's that is inside; the lock has been held for [hold_time] ticks
    in disjoint intervals after the last reset. *)
Record invariant (s : state) : Prop := {
  in_mutex t : inside (pcs s t) = true <-> c_mutex s = Some t;
  in_since : 0 <= since s <= clock s;
  in_wait : 0 <= wait_time (lk s);
  in_start t : match pcs s t with Waiting start | Taken start => start <= clock s | _ => True end;
  in_hold : 0 <= hold_time (lk s) /\
    match c_mutex s with
    | Some t => if bool_decide (pcs s t = Holding) then hold_time (lk s) <= acquire_time (lk s) - since s /\ acquire_time (lk s) <= clock s
                else hold_time (lk s) <= clock s - since s
    | None => hold_time (lk s) <= clock s - since s
    end;
  in_num : num_locks (lk s) = u64 (taken s);
  in_taken : 0 <= taken s;
}.

Lemma u64_count (n : Z) : add64 (u64 n) 1 = u64 (n + 1).
Proof. unfold add64, u64. by rewrite Zplus_mod_idemp_l. Qed.

Lemma act_invariant s t a now s' : invariant s -> clock s <= now -> act s t a now = Some s' -> invariant s'.
Proof.
  intros [Hm Hs Hw Hst [Hh0 Hh] Hn Ht] Hnow E. pose proof (Hm t) as Hmt. pose proof (Hst t) as Hstt.
  assert (Hlater : forall x, match pcs s x with Waiting start | Taken start => start <= now | _ => True end).
  { intros x. specialize (Hst x). destruct (pcs s x); lia || done. }
  assert (Hupd : forall p, match p with Waiting start | Taken start => start <= now | _ => True end ->
    forall x, match <[t := p]> (pcs s) x with Waiting start | Taken start => start <= now | _ => True end).
  { intros p Hp x. destruct (decide (x = t)) as [->|Hx]; [by rewrite fn_lookup_insert|]. rewrite fn_lookup_insert_ne by done. apply Hlater. }
  assert (Hset : forall p m, (forall x, x <> t -> m = Some x <-> c_mutex s = Some x) -> (inside p = true <-> m = Some t) ->
    forall x, inside (<[t := p]> (pcs s) x) = true <-> m = Some x).
  { intros p m Hx Hp x. destruct (decide (x = t)) as [->|Hne]; [by rewrite fn_lookup_insert|]. rewrite fn_lookup_insert_ne by done.
    rewrite Hm. symmetry. by apply Hx. }
  unfold act in E. destruct a, (pcs s t) as [|start|start| |] eqn:Ep; try done; cbn [inside] in Hmt.
  - injection E as <-. split; cbn; try done; try lia.
    + apply Hset; [done|]. rewrite <- Hmt. done.
    + apply Hupd. lia.
    + split; [done|]. destruct (c_mutex s) as [x|] eqn:Em; [|lia]. assert (x <> t) as Hx by (intros ->; discriminate (proj2 Hmt eq_refl)).
      rewrite fn_lookup_insert_ne by done. case_bool_decide; lia.
  - destruct (c_mutex s) eqn:Em; [done|]. injection E as <-. split; cbn; try done; try lia.
    + apply Hset; [|done]. intros x Hx. split; [by intros [= ->]|done].
    + apply Hupd. lia.
    + split; [done|]. rewrite fn_lookup_insert. rewrite bool_decide_eq_false_2 by done. lia.
  - injection E as <-. assert (Em : c_mutex s = Some t) by (by apply Hmt). rewrite Em in *. rewrite Ep in Hh. rewrite bool_decide_eq_false_2 in Hh by done.
    split; cbn; try done; try lia; [by apply Hset|by apply Hupd| |by rewrite Hn, u64_count].
    split; [done|]. rewrite fn_lookup_insert. rewrite bool_decide_eq_true_2 by done. lia.
  - injection E as <-. assert (Em : c_mutex s = Some t) by (by apply Hmt). rewrite Em in *. rewrite Ep in Hh. rewrite bool_decide_eq_false_2 in Hh by done.
    split; cbn; try done; try lia; [by apply Hset|by apply Hupd| |by rewrite Hn, u64_count].
    split; [done|]. rewrite fn_lookup_insert. rewrite bool_decide_eq_true_2 by done. lia.
  - destruct (c_mutex s) as [x|] eqn:Em; injection E as <-; split; cbn; try done; try lia.
    + split; [done|]. case_bool_decide; lia.
    + apply Hset; [|done]. intros y Hy. split; [by intros [= ->]|done].
    + by apply Hupd.
    + split; [done|]. rewrite fn_lookup_insert. rewrite bool_decide_eq_false_2 by done. lia.
  - injection E as <-. assert (Em : c_mutex s = Some t) by (by apply Hmt). rewrite Em in *. rewrite Ep in Hh. rewrite bool_decide_eq_true_2 in Hh by done.
    split; cbn; try done; try lia; [|by apply Hupd]. apply Hset; [|done]. intros x Hx. split; [done|by intros [= ->]].
  - destruct (c_mutex s) eqn:Em; [done|]. injection E as <-. split; cbn; try done; lia.
Qed.

Lemma reachable_invariant s : reachable s -> invariant s.
Proof.
  assert (Hi : invariant initial) by (split; cbn; try done; lia). unfold reachable. intros Hr. revert Hi.
  induction Hr as [|s1 s2 s3 [s t a now s' Hn E] _ IH]; [done|]. intros Hi. apply IH. by apply (act_invariant s t a now).
Qed.

(** A cache lock excludes, and its statistics are true.  In every reachable state of
    any number of threads that lock, try, unlock and reset, at most one thread is
    between taking and releasing the mutex; when no thread is, the recorded hold time
    is at most the time since the last reset (the intervals it adds up are disjoint);
    the recorded number of acquisitions is the number since the reset; and a reset puts
    both to 0. *)
Theorem cache_lock_statistics (s : state) : reachable s ->
  (forall t u, inside (pcs s t) = true -> inside (pcs s u) = true -> t = u) /\
  0 <= get_lock_time (lk s) /\ 0 <= get_hold_time (lk s) /\
  (c_mutex s = None -> get_hold_time (lk s) <= clock s - since s) /\
  get_num_locks (lk s) = u64 (taken s) /\
  forall t now s', clock s <= now -> act s t Reset_stats now = Some s' ->
    since s' = now /\ taken s' = 0 /\ get_hold_time (lk s') = 0 /\ get_lock_time (lk s') = 0 /\ get_num_locks (lk s') = 0.
Proof.
  intros [Hm Hs Hw Hst [Hh0 Hh] Hn Ht]%reachable_invariant. split_and!; try done.
  - intros t u H1 H2. apply Hm in H1, H2. congruence.
  - intros E. by rewrite E in Hh.
  - intros t now s' _ E. unfold act in E. destruct (pcs s t); try done. destruct (c_mutex s); [done|]. by injection E as <-.
Qed.

(** Two threads: one holds the lock from 2 to 7 while the other waits for it. *)
Definition demo_actions : list (nat * action * Z) :=
  [(0%nat, Start_lock, 1); (0%nat, Take, 2); (0%nat, Note, 2); (1%nat, Start_lock, 3); (1%nat, Try_lock, 3); (0%nat, Unlock, 7); (1%nat, Take, 7); (1%nat, Note, 8); (1%nat, Unlock, 9)].
Fixpoint acts (s : state) (l : list (nat * action * Z)) : state :=
  match l with
  | [] => s
  | (t, a, now) :: l => match act s t a now with Some s' => acts (if clock s <=? now then s' else s) l | None => acts s l end
  end.

Lemma acts_reachable l : forall s, reachable s -> reachable (acts s l).
Proof.
  induction l as [|[[t a] now] l IH]; intros s Hs; [done|]. cbn. destruct (act s t a now) as [s'|] eqn:E; [|by apply IH].
  apply IH. destruct (Z.leb_spec (clock s) now); [|done]. eapply rtc_r; [exact Hs|]. by eapply step_act.
Qed.

Lemma cache_lock_statistics_witness :
  let s := acts initial demo_actions in
  get_num_locks (lk s) = 2 /\ get_hold_time (lk s) = 6 /\ get_lock_time (lk s) = 6 /\ get_hold_time (lk s) <= clock s - since s.
Proof.
  assert (Hr : reachable (acts initial demo_actions)) by (by apply acts_reachable; constructor).
  pose proof (cache_lock_statistics _ Hr) as (_ & _ & _ & H & _). split; [by vm_compute|]. split; [by vm_compute|]. split; [by vm_compute|].
  apply H. by vm_compute.
Defined.
