(* ===== verification/Statistics.v ===== *)
(** * Statistics

    [argo_statistics] of [src/src/backend/mpi/swdsm.h], [argo_reset_stats] and
    [print_statistics] of [src/src/backend/mpi/swdsm.cpp]: what a node has counted, how it
    is cleared, how the statistics of all locks are added up, and what the nodes print.
    The nodes print one after the other; barriers order them.

    A time is a number of ticks of [MPI_Wtime] and an average an exact rational, so that
    the rounding of [double] is not modelled, but its division by zero is.  The
    output is a list of lines, each with the labels and values of its [printf]. *)

From Stdlib Require Import QArith.
From stdpp Require Import functions relations strings.
From S2P Require Import Prelude Env Swdsm MpiLock WriteBuffer CacheLock.
Local Open Scope string_scope.
Local Open Scope list_scope.
Local Open Scope Z_scope.

(** ** The counters of a node *)
Record argo_statistics := ArgoStatistics {
  selfinvtime : Z;
  load_time : Z;
  store_time : Z;
  sync_lock_time : Z;
  barriertime : Z;
  inittime : Z;
  exectime : Z;
  write_misses : Z;
  read_misses : Z;
  barriers : Z;
  locks_held : Z;   (** [locks] *)
  ssi_time : Z;
  ssd_time : Z;
}.

Record node_stats := NodeStats {
  stats : argo_statistics;
  cache_locks : list cache_lock;
  mpi_lock_sharer : Z -> Z -> mpi_lock;
  mpi_lock_data : Z -> Z -> mpi_lock;
  argo_write_buffer : write_buffer Z;
}.

(** The loops over the windows and their targets. *)
Definition lock_indices (mpi_windows numtasks : Z) : list (Z * Z) := i ← seqZ 0 mpi_windows; pair i <$> seqZ 0 numtasks.

Definition reset_lock (locks : Z -> Z -> mpi_lock) '((i, j) : Z * Z) : Z -> Z -> mpi_lock :=
  <[i := <[j := MpiLock.reset_stats (locks i j)]> (locks i)]> locks.
Definition reset_matrix (mpi_windows numtasks : Z) (locks : Z -> Z -> mpi_lock) : Z -> Z -> mpi_lock :=
  foldl reset_lock locks (lock_indices mpi_windows numtasks).

Definition argo_reset_stats (mpi_windows numtasks : Z) (n : node_stats) : node_stats :=
  {| stats := {| selfinvtime := 0; load_time := 0; store_time := 0; sync_lock_time := 0; barriertime := 0;
                 inittime := inittime (stats n); exectime := exectime (stats n);
                 write_misses := 0; read_misses := 0; barriers := 0; locks_held := 0; ssi_time := 0; ssd_time := 0 |};
     cache_locks := CacheLock.reset_stats <$> cache_locks n;
     mpi_lock_sharer := reset_matrix mpi_windows numtasks (mpi_lock_sharer n);
     mpi_lock_data := reset_matrix mpi_windows numtasks (mpi_lock_data n);
     argo_write_buffer := reset_wb_stats (argo_write_buffer n) |}.

(** ** The sums over all locks *)

(** A quotient of [double]s. *)
Inductive quotient := Finite (q : Q) | Infinite | NaN.
Definition divide (total n : Z) : quotient :=
  if n =? 0 then (if total =? 0 then NaN else Infinite) else Finite (total # Z.to_pos n).

Record lock_sums := LockSums {
  num_locks_sum : Z;
  local_lock_sum : Z; local_max_lock : Z;
  local_hold_sum : Z; local_max_hold : Z;
  mpi_lock_sum : Z; mpi_max_lock : Z;
  mpi_unlock_sum : Z; mpi_max_unlock : Z;
  mpi_hold_sum : Z; mpi_max_hold : Z;
}.

Definition no_sums : lock_sums := LockSums 0 0 0 0 0 0 0 0 0 0 0.
Definition larger (x best : Z) : Z := if best <? x then x else best.

(** The body of the loop; [get_num_locks] is an [int] that is added to a [size_t]. *)
Definition sum_lock (a : lock_sums) (l : mpi_lock) : lock_sums := {|
  num_locks_sum := add64 (num_locks_sum a) (u64 (MpiLock.get_num_locks l));
  local_lock_sum := local_lock_sum a + get_local_lock_time l;
  local_hold_sum := local_hold_sum a + get_local_hold_time l;
  local_max_lock := larger (get_max_local_lock_time l) (local_max_lock a);
  local_max_hold := larger (get_max_local_hold_time l) (local_max_hold a);
  mpi_lock_sum := mpi_lock_sum a + get_mpi_lock_time l;
  mpi_unlock_sum := mpi_unlock_sum a + get_mpi_unlock_time l;
  mpi_hold_sum := mpi_hold_sum a + get_mpi_hold_time l;
  mpi_max_lock := larger (get_max_mpi_lock_time l) (mpi_max_lock a);
  mpi_max_unlock := larger (get_max_mpi_unlock_time l) (mpi_max_unlock a);
  mpi_max_hold := larger (get_max_mpi_hold_time l) (mpi_max_hold a);
|}.

Definition sum_locks (mpi_windows numtasks : Z) (locks : Z -> Z -> mpi_lock) : lock_sums :=
  foldl (fun a '(i, j) => sum_lock a (locks i j)) no_sums (lock_indices mpi_windows numtasks).

Definition sum_cache_locks (l : list cache_lock) : Z * Z :=
  foldl (fun '(t, n) c => (t + CacheLock.get_lock_time c, add64 n (CacheLock.get_num_locks c))) (0, 0) l.

(** ** The lines *)
Inductive value := Count (n : Z) | Seconds (t : Z) | Average (q : quotient) | Memory (q : Q) (unit_ : string).
Record line := Line { title : string; values : list (string * value) }.

(** The loop that chooses the unit; [more] units are left. *)
Definition sizes : list string := ["B "; "KB"; "MB"; "GB"; "TB"].
Fixpoint readable (more : nat) (mem_size_readable : Q) (order : nat) : Q * nat :=
  match more with
  | O => (mem_size_readable, order)
  | Datatypes.S more =>
    if Qle_bool 1024 mem_size_readable then readable more (mem_size_readable / 1024) (Datatypes.S order) else (mem_size_readable, order)
  end.
Definition mem_size (size_of_all : Z) : value :=
  let '(q, order) := readable (length sizes - 1) (inject_Z size_of_all) 0 in Memory q (nth order sizes "").

Definition general_info (c : dsm_config) (st : settings) (n : node_stats) : list line :=
  [Line "ArgoDSM statistics" [];
   Line "" [("memory size", mem_size (size_of_all c)); ("page size (p)", Count PAGE_SIZE); ("cache size", Count (cachesize c))];
   Line "" [("write buffer size", Count (value_write_buffer_size st / CACHELINE));
            ("write back size", Count (value_write_buffer_write_back_size st / CACHELINE)); ("CACHELINE", Count CACHELINE)];
   Line "" [("allocation policy", Count (value_allocation_policy st)); ("policy block size", Count (value_allocation_block_size st));
            ("load size", Count (value_load_size st))];
   Line "" [("active time", Seconds (exectime (stats n))); ("init time", Seconds (inittime (stats n)))]; Line "" []].

Definition lock_info (name : string) (a : lock_sums) : list line :=
  let n := num_locks_sum a in
  [Line name [("locks held", Count n)];
   Line "" [("local lock time", Seconds (local_lock_sum a)); ("avg lock time", Average (divide (local_lock_sum a) n)); ("max lock time", Seconds (local_max_lock a))];
   Line "" [("local hold time", Seconds (local_hold_sum a)); ("avg hold time", Average (divide (local_hold_sum a) n)); ("max hold time", Seconds (local_max_hold a))];
   Line "" [("mpi lock time", Seconds (mpi_lock_sum a)); ("avg lock time", Average (divide (mpi_lock_sum a) n)); ("max lock time", Seconds (mpi_max_lock a))];
   Line "" [("mpi unlock time", Seconds (mpi_unlock_sum a)); ("avg unlock time", Average (divide (mpi_unlock_sum a) n)); ("max unlock time", Seconds (mpi_max_unlock a))];
   Line "" [("mpi hold time", Seconds (mpi_hold_sum a)); ("avg hold time", Average (divide (mpi_hold_sum a) n)); ("max hold time", Seconds (mpi_max_hold a))]].

Definition advanced_info (mpi_windows numtasks : Z) (n : node_stats) : list line :=
  let '(cache_lock_time, num_cache_locks) := sum_cache_locks (cache_locks n) in
  [Line "Cache lock" [];
   Line "" [("cache lock time", Seconds cache_lock_time); ("cache locks", Count num_cache_locks); ("sync lock time", Seconds (sync_lock_time (stats n)))]] ++
  lock_info "Data lock" (sum_locks mpi_windows numtasks (mpi_lock_data n)) ++
  lock_info "Sharer lock" (sum_locks mpi_windows numtasks (mpi_lock_sharer n)).

Definition node_info (print_level mpi_windows numtasks workrank : Z) (n : node_stats) : list line :=
  let st := stats n in
  [Line "PROCESS ID" [("", Count workrank)];
   Line "Remote accesses" [];
   Line "" [("read misses", Count (read_misses st)); ("access time", Seconds (load_time st))];
   Line "" [("write misses", Count (write_misses st)); ("access time", Seconds (store_time st))];
   Line "Coherence actions" [];
   Line "" [("locks held", Count (locks_held st)); ("barriers passed", Count (barriers st)); ("barrier time", Seconds (barriertime st))];
   Line "" [("si time", Seconds (selfinvtime st)); ("ssi time", Seconds (ssi_time st)); ("ssd time", Seconds (ssd_time st))];
   Line "Write buffer" [];
   Line "" [("flush time", Seconds (get_flush_time (argo_write_buffer n))); ("wrtbk time", Seconds (get_write_back_time (argo_write_buffer n)));
            ("lock time", Seconds (get_buffer_lock_time (argo_write_buffer n)))]] ++
  (if 2 <? print_level then advanced_info mpi_windows numtasks n else []) ++ [Line "" []].

(** ** Printing *)

(** A node prints a line or waits at [MPI_Barrier]. *)
Inductive event := Print (l : line) | Barrier.

Definition print_statistics (c : dsm_config) (st : settings) (workrank : Z) (n : node_stats) : list event :=
  let print_level := value_print_statistics st in
  if print_level =? 0 then []
  else
    [Barrier] ++ (if workrank =? 0 then Print <$> general_info c st n else []) ++
    (if 1 <? print_level then
       i ← seqZ 0 (numtasks c);
       Barrier :: (if i =? workrank then Print <$> node_info print_level (mpi_windows c) (numtasks c) workrank n else [])
     else []) ++
    [Barrier].

(** The nodes run in any interleaving; a barrier lets all of them pass at once. *)
Definition printing : Type := (Z -> list event) * list (Z * line).

Inductive print_step (n : Z) : printing -> printing -> Prop :=
  | step_print progs out r l rest : 0 <= r < n -> progs r = Print l :: rest -> print_step n (progs, out) (<[r := rest]> progs, out ++ [(r, l)])
  | step_barrier progs out : (forall r, 0 <= r < n -> head (progs r) = Some Barrier) -> print_step n (progs, out) (fun r => tail (progs r), out).

Definition finished (n : Z) (s : printing) : Prop := forall r, 0 <= r < n -> fst s r = [].

(** *** Phases *)

(** Between two barriers only one node prints. *)
Definition phase : Type := Z * list line.
Definition prints (r : Z) (ph : phase) : list event := if fst ph =? r then Print <$> snd ph else [].
Definition prog_of (r : Z) (cur : phase) (rest : list phase) : list event := prints r cur ++ (rest ≫= fun ph => Barrier :: prints r ph).
Definition output (ph : phase) : list (Z * line) := pair (fst ph) <$> snd ph.
Definition weight (cur : phase) (rest : list phase) : nat := length (snd cur) + sum_list ((fun ph => S (length (snd ph))) <$> rest).

Record phased (n : Z) (expected : list (Z * line)) (total k : nat) (s : printing) (cur : phase) (rest : list phase) : Prop := {
  ph_owners : Forall (fun ph : phase => 0 <= fst ph < n) (cur :: rest);
  ph_progs r : 0 <= r < n -> fst s r = prog_of r cur rest;
  ph_out : snd s ++ output cur ++ (rest ≫= output) = expected;
  ph_steps : (k + weight cur rest)%nat = total;
}.

Lemma phased_step n expected total k s cur rest s' : phased n expected total k s cur rest -> print_step n s s' ->
  exists cur' rest', phased n expected total (S k) s' cur' rest'.
Proof.
  intros [Ho Hp Hout Hk] Hs. destruct cur as [o ls]. apply Forall_cons in Ho as [Ho Hr]. cbn in Ho. destruct Hs as [progs out r l rs Hr' E|progs out Hb]; cbn [fst snd] in *.
  - rewrite Hp in E by done. unfold prog_of, prints in E. cbn [fst snd] in E. destruct (Z.eqb_spec o r) as [->|Hne].
    + destruct ls as [|l' ls]; [destruct rest; discriminate E|]. cbn in E. injection E as -> <-. exists (r, ls), rest. split; cbn [fst snd].
      * by apply Forall_cons.
      * intros x Hx. destruct (decide (x = r)) as [->|Hxr].
        -- rewrite fn_lookup_insert. unfold prog_of, prints. cbn [fst snd]. by rewrite Z.eqb_refl.
        -- rewrite fn_lookup_insert_ne, Hp by done. unfold prog_of, prints. cbn [fst snd]. by rewrite (proj2 (Z.eqb_neq r x)) by done.
      * rewrite <- Hout. cbn. by rewrite <- app_assoc.
      * rewrite <- Hk. unfold weight. cbn. lia.
    + destruct rest; discriminate E.
  - assert (ls = []) as ->.
    { specialize (Hb o Ho). rewrite Hp in Hb by done. unfold prog_of, prints in Hb. cbn [fst snd] in Hb. rewrite Z.eqb_refl in Hb. by destruct ls. }
    destruct rest as [|ph rest].
    { specialize (Hb o Ho). rewrite Hp in Hb by done. unfold prog_of, prints in Hb. cbn [fst snd] in Hb. by rewrite Z.eqb_refl in Hb. }
    exists ph, rest. split; cbn [fst snd].
    + done.
    + intros r Hx. rewrite Hp by done. unfold prog_of at 1, prints at 1. cbn [fst snd]. by destruct (o =? r).
    + exact Hout.
    + rewrite <- Hk. unfold weight. cbn. lia.
Qed.

Lemma phased_progress n expected total k s cur rest : phased n expected total k s cur rest ->
  (k <= total)%nat /\ snd s `prefix_of` expected /\ (finished n s -> k = total /\ snd s = expected) /\ (~ finished n s -> exists s', print_step n s s').
Proof.
  intros [Ho Hp Hout Hk]. destruct cur as [o ls]. apply Forall_cons in Ho as [Ho Hr]. cbn in Ho. split_and!.
  - lia.
  - rewrite <- Hout. by apply prefix_app_r.
  - intros Hf. specialize (Hf o Ho). rewrite Hp in Hf by done. unfold prog_of, prints in Hf. cbn [fst snd] in Hf. rewrite Z.eqb_refl in Hf.
    apply app_nil in Hf as [H1 H2]. destruct ls; [|done]. destruct rest; [|done]. cbn in *. rewrite app_nil_r in Hout. split; [lia|done].
  - intros Hf. destruct s as [progs out]. cbn [fst snd] in *. destruct ls as [|l ls].
    + destruct rest as [|ph rest].
      * exfalso. apply Hf. intros r Hx. cbn [fst]. rewrite Hp by done. unfold prog_of, prints. cbn. by destruct (o =? r).
      * eexists. apply step_barrier. intros r Hx. rewrite Hp by done. unfold prog_of, prints. cbn [fst snd]. by destruct (o =? r).
    + eexists. eapply (step_print n _ _ o l); [done|]. rewrite Hp by done. unfold prog_of, prints. cbn [fst snd]. rewrite Z.eqb_refl. reflexivity.
Qed.

Lemma phased_steps n expected total s cur rest j : forall k s', phased n expected total k s cur rest -> nsteps (print_step n) j s s' ->
  exists cur' rest', phased n expected total (k + j) s' cur' rest'.
Proof.
  intros k s' H Hn. revert k cur rest H. induction Hn as [s|j s1 s2 s3 H1 _ IH]; intros k cur rest H; [exists cur, rest; by rewrite Nat.add_0_r|].
  destruct (phased_step _ _ _ _ _ _ _ _ H H1) as (cur' & rest' & H'). destruct (IH (S k) cur' rest' H') as (cur2 & rest2 & H2). exists cur2, rest2.
  by rewrite <- Nat.add_succ_comm.
Qed.

Lemma list_bind_fmap {A B C} (f : B -> list C) (g : A -> B) l : (g <$> l) ≫= f = l ≫= (fun x => f (g x)).
Proof. induction l as [|x l IH]; [done|]. rewrite fmap_cons, !bind_cons. by rewrite IH. Qed.

(** What the statistics of a system look like. *)
Definition expected_output (c : dsm_config) (st : settings) (nodes : Z -> node_stats) : list (Z * line) :=
  let level := value_print_statistics st in
  if level =? 0 then []
  else (pair 0 <$> general_info c st (nodes 0)) ++
    (if 1 <? level then i ← seqZ 0 (numtasks c); pair i <$> node_info level (mpi_windows c) (numtasks c) i (nodes i) else []).

Definition phases_of (c : dsm_config) (st : settings) (nodes : Z -> node_stats) : list phase :=
  let level := value_print_statistics st in
  if level =? 0 then []
  else (0, general_info c st (nodes 0)) ::
    (if 1 <? level then (fun i => (i, node_info level (mpi_windows c) (numtasks c) i (nodes i))) <$> seqZ 0 (numtasks c) else []) ++ [(0, [])].

Lemma print_phases c st nodes r : print_statistics c st r (nodes r) = prog_of r (0, []) (phases_of c st nodes).
Proof.
  unfold print_statistics, prog_of, phases_of, prints. set (level := value_print_statistics st). cbn [fst snd fmap list_fmap].
  destruct (level =? 0); [by destruct (0 =? r)|]. cbn [mbind list_bind app fst snd]. rewrite bind_app. cbn [mbind list_bind app fst snd fmap list_fmap].
  replace (if 0 =? r then [] else []) with (@nil event) by (by destruct (0 =? r)). cbn [app]. f_equal. rewrite (Z.eqb_sym 0 r).
  f_equal; [destruct (Z.eqb_spec r 0) as [->|]; done|].
  replace (if r =? 0 then [] else []) with (@nil event) by (by destruct (r =? 0)). f_equal.
  destruct (1 <? level); [|done]. rewrite list_bind_fmap. apply list_bind_ext; [|done]. intros i. cbn [fst snd compose].
  f_equal. destruct (Z.eqb_spec i r) as [->|]; done.
Qed.

(** C35: the statistics come out whole and in order.  When all nodes call
    [print_statistics], then in every interleaving of their [printf]s and barriers no
    node ever waits for ever: as long as one is not done, some node can go on, and after a
    fixed number of steps all are done.  The output is then the general information of
    node 0 (if the level is not 0) and, from level 2 on, the blocks of the nodes in
    the order of their ranks, none of them interrupted by another node; before that it
    is a prefix of this. *)
Theorem statistics_in_order (c : dsm_config) (st : settings) (nodes : Z -> node_stats) : 1 <= numtasks c ->
  exists total, forall k s, nsteps (print_step (numtasks c)) k (fun r => print_statistics c st r (nodes r), []) s ->
    (k <= total)%nat /\ snd s `prefix_of` expected_output c st nodes /\
    (finished (numtasks c) s -> k = total /\ snd s = expected_output c st nodes) /\
    (~ finished (numtasks c) s -> exists s', print_step (numtasks c) s s').
Proof.
  intros Hn. set (total := weight (0, []) (phases_of c st nodes)). exists total. intros k s Hs.
  assert (H0 : phased (numtasks c) (expected_output c st nodes) total 0 (fun r => print_statistics c st r (nodes r), []) (0, []) (phases_of c st nodes)).
  { split; cbn [fst snd].
    - apply Forall_cons. split; [cbn; lia|]. unfold phases_of. destruct (_ =? 0); [done|]. apply Forall_cons. split; [cbn; lia|]. apply Forall_app.
      split; [|apply Forall_singleton; cbn; lia]. destruct (1 <? _); [|done]. apply Forall_fmap, Forall_forall. intros i Hi%elem_of_seqZ. cbn. lia.
    - intros r Hr. apply print_phases.
    - unfold expected_output, phases_of. set (level := value_print_statistics st). destruct (level =? 0); [done|]. cbn [mbind list_bind app]. unfold output at 1 2.
      cbn [fst snd fmap list_fmap app]. f_equal. rewrite bind_app. cbn. rewrite app_nil_r. destruct (1 <? level); [|done]. rewrite list_bind_fmap. by apply list_bind_ext.
    - done. }
  destruct (phased_steps _ _ _ _ _ _ k 0 s H0 Hs) as (cur & rest & H). by apply (phased_progress _ _ _ k s cur rest).
Qed.

(** ** Sums, maxima and resets *)
Definition all_locks (mpi_windows numtasks : Z) (locks : Z -> Z -> mpi_lock) : list mpi_lock :=
  (fun '(i, j) => locks i j) <$> lock_indices mpi_windows numtasks.
Definition sum_over {A} (get : A -> Z) (l : list A) : Z := foldr (fun x a => get x + a) 0 l.
Definition max_over {A} (get : A -> Z) (l : list A) : Z := foldr (fun x a => get x `max` a) 0 l.

Lemma foldl_sum {A B} (f : B -> A -> B) (proj : B -> Z) (get : A -> Z) l : (forall a x, proj (f a x) = proj a + get x) ->
  forall a, proj (foldl f a l) = proj a + sum_over get l.
Proof. intros Hf. unfold sum_over. induction l as [|x l IH]; intros a; cbn [foldl foldr]; [lia|]. rewrite IH, Hf. lia. Qed.

Lemma foldl_max {A B} (f : B -> A -> B) (proj : B -> Z) (get : A -> Z) l : (forall a x, proj (f a x) = larger (get x) (proj a)) ->
  forall a, 0 <= proj a -> proj (foldl f a l) = proj a `max` max_over get l.
Proof.
  intros Hf. unfold max_over. induction l as [|x l IH]; intros a Ha; cbn [foldl foldr]; [lia|].
  assert (proj (f a x) = get x `max` proj a) as E by (rewrite Hf; unfold larger; destruct (Z.ltb_spec (proj a) (get x)); lia). rewrite IH; lia.
Qed.

Lemma foldl_count {A B} (f : B -> A -> B) (proj : B -> Z) (get : A -> Z) l : (forall a x, proj (f a x) = add64 (proj a) (u64 (get x))) ->
  forall a z, proj a = u64 z -> proj (foldl f a l) = u64 (z + sum_over get l).
Proof.
  intros Hf. unfold sum_over. induction l as [|x l IH]; intros a z Ha; cbn [foldl foldr]; [rewrite Ha; f_equal; lia|]. rewrite (IH _ (z + get x)); [f_equal; lia|].
  rewrite Hf, Ha. unfold add64, u64. by rewrite Zplus_mod_idemp_l, Zplus_mod_idemp_r.
Qed.

Lemma sum_locks_all w n locks : sum_locks w n locks = foldl sum_lock no_sums (all_locks w n locks).
Proof.
  unfold sum_locks, all_locks. generalize no_sums. induction (lock_indices w n) as [|[i j] l IH]; intros a; [done|]. cbn. apply IH.
Qed.

Lemma max_over_nonneg {A} (get : A -> Z) l : 0 <= max_over get l.
Proof. induction l as [|x l IH]; [done|]. unfold max_over in *. cbn [foldr]. lia. Qed.

Lemma max_le_sum {A} (mx sm : A -> Z) l : Forall (fun x => 0 <= mx x <= sm x) l -> max_over mx l <= sum_over sm l.
Proof.
  intros H. cut (0 <= max_over mx l <= sum_over sm l); [tauto|]. unfold max_over, sum_over. induction H as [|x l Hx _ IH]; cbn [foldr]; lia.
Qed.

Lemma sum_le_sum {A} (f g : A -> Z) l : Forall (fun x => f x <= g x) l -> sum_over f l <= sum_over g l.
Proof. unfold sum_over. induction 1 as [|x l Hx _ IH]; cbn [foldr]; lia. Qed.

(** The printed totals of the window locks are the sums over all windows and targets (the
    count modulo 2^64), the printed maxima the largest of their maxima, and for locks
    whose own statistics are consistent ([counters_ok], which every run keeps) no
    maximum exceeds its total. *)
Theorem statistics_add_up (w n : Z) (locks : Z -> Z -> mpi_lock) :
  let l := all_locks w n locks in let a := sum_locks w n locks in
  num_locks_sum a = u64 (sum_over MpiLock.get_num_locks l) /\
  local_lock_sum a = sum_over get_local_lock_time l /\ local_max_lock a = max_over get_max_local_lock_time l /\
  local_hold_sum a = sum_over get_local_hold_time l /\ local_max_hold a = max_over get_max_local_hold_time l /\
  mpi_lock_sum a = sum_over get_mpi_lock_time l /\ mpi_max_lock a = max_over get_max_mpi_lock_time l /\
  mpi_unlock_sum a = sum_over get_mpi_unlock_time l /\ mpi_max_unlock a = max_over get_max_mpi_unlock_time l /\
  mpi_hold_sum a = sum_over get_mpi_hold_time l /\ mpi_max_hold a = max_over get_max_mpi_hold_time l /\
  ((forall i j, counters_ok (locks i j)) ->
     local_max_lock a <= local_lock_sum a /\ local_max_hold a <= local_hold_sum a /\ mpi_max_lock a <= mpi_lock_sum a /\
     mpi_max_hold a <= mpi_hold_sum a /\ mpi_unlock_sum a <= mpi_hold_sum a).
Proof.
  intros l a. unfold a. rewrite sum_locks_all. fold l.
  pose proof (foldl_count sum_lock num_locks_sum MpiLock.get_num_locks l (fun _ _ => eq_refl) no_sums 0 eq_refl) as E0.
  pose proof (foldl_sum sum_lock local_lock_sum get_local_lock_time l (fun _ _ => eq_refl) no_sums) as E1.
  pose proof (foldl_sum sum_lock local_hold_sum get_local_hold_time l (fun _ _ => eq_refl) no_sums) as E2.
  pose proof (foldl_sum sum_lock mpi_lock_sum get_mpi_lock_time l (fun _ _ => eq_refl) no_sums) as E3.
  pose proof (foldl_sum sum_lock mpi_unlock_sum get_mpi_unlock_time l (fun _ _ => eq_refl) no_sums) as E4.
  pose proof (foldl_sum sum_lock mpi_hold_sum get_mpi_hold_time l (fun _ _ => eq_refl) no_sums) as E5.
  assert (Hm : forall proj get, (forall a x, proj (sum_lock a x) = larger (get x) (proj a)) -> proj no_sums = 0 ->
    proj (foldl sum_lock no_sums l) = max_over get l).
  { intros proj get Hf H0. rewrite (foldl_max sum_lock proj get l Hf no_sums); rewrite H0; [|done].
    pose proof (max_over_nonneg get l). lia. }
  split_and!; try done; try (by apply Hm). intros Hok.
  rewrite (Hm local_max_lock get_max_local_lock_time), (Hm local_max_hold get_max_local_hold_time), (Hm mpi_max_lock get_max_mpi_lock_time),
    (Hm mpi_max_hold get_max_mpi_hold_time) by done. rewrite E1, E2, E3, E4, E5. cbn [no_sums local_lock_sum local_hold_sum mpi_lock_sum mpi_unlock_sum mpi_hold_sum].
  rewrite !Z.add_0_l. assert (Hl : Forall counters_ok l).
  { apply Forall_fmap, Forall_forall. intros [i j] _. apply Hok. }
  split_and!; [apply max_le_sum..|apply sum_le_sum]; (eapply Forall_impl; [exact Hl|]); intros x [H1 H2 H3 H4 H5 _]; done || apply H5.
Qed.

(** *** The unit of the memory size *)
Lemma readable_spec more : forall q order q' order', readable more q order = (q', order') -> (0 <= q)%Q ->
  (order <= order' <= order + more)%nat /\ (q == q' * inject_Z (1024 ^ Z.of_nat (order' - order)))%Q /\
  ((order' < order + more)%nat -> (q' < 1024)%Q) /\ ((order < order')%nat -> (1 <= q')%Q).
Proof.
  induction more as [|more IH]; intros q order q' order' E Hq; cbn in E.
  { injection E as <- <-. split_and!; try lia. rewrite Nat.sub_diag. symmetry. apply Qmult_1_r. }
  destruct (Qle_bool 1024 q) eqn:El.
  - apply Qle_bool_iff in El.
    assert (Hd : (1 <= q / 1024)%Q). { apply Qle_shift_div_l; [done|]. by rewrite Qmult_1_l. }
    apply IH in E; [|by apply (Qle_trans _ 1)]. destruct E as (H1 & H2 & H3 & H4). split_and!; try lia.
    + assert (Eq : (q == q / 1024 * 1024)%Q) by (field; done). rewrite Eq, H2. replace (order' - order)%nat with (S (order' - S order)) by lia.
      rewrite Nat2Z.inj_succ, Z.pow_succ_r by lia. rewrite inject_Z_mult. ring.
    + intros Hlt. apply H3. lia.
    + intros _. destruct (decide (S order < order')%nat) as [Hlt|Hge]; [by apply H4|]. replace (order' - S order)%nat with 0%nat in H2 by lia.
      change (inject_Z (1024 ^ Z.of_nat 0)) with 1%Q in H2. rewrite Qmult_1_r in H2. by rewrite <- H2.
  - injection E as <- <-. split_and!; try lia.
    + rewrite Nat.sub_diag. symmetry. apply Qmult_1_r.
    + intros _. apply Qnot_le_lt. intros H%Qle_bool_iff. congruence.
Qed.

(** *** Resets *)
Lemma reset_matrix_at ix : forall locks i j,
  foldl reset_lock locks ix i j = if decide ((i, j) ∈ ix) then MpiLock.reset_stats (locks i j) else locks i j.
Proof.
  induction ix as [|[i' j'] ix IH]; intros locks i j; [done|]. cbn [foldl]. rewrite IH. clear IH. unfold reset_lock.
  destruct (decide ((i, j) = (i', j'))) as [E|Hne].
  - injection E as -> ->. rewrite !fn_lookup_insert. rewrite (decide_True _ _ (list_elem_of_here (i', j') ix)). by case_decide.
  - assert (Es : forall (m : Z -> Z -> mpi_lock) x, (<[i' := <[j' := x]> (m i')]> m) i j = m i j).
    { intros m x. destruct (decide (i = i')) as [->|]; [|by rewrite fn_lookup_insert_ne]. rewrite fn_lookup_insert. rewrite fn_lookup_insert_ne; congruence. }
    rewrite Es. destruct (decide ((i, j) ∈ ix)) as [Hin|Hin]; [rewrite decide_True by (by right)|rewrite decide_False]; [done|done|].
    intros [E|?]%elem_of_cons; done.
Qed.

Lemma reset_sums w n locks : sum_locks w n (reset_matrix w n locks) = no_sums.
Proof.
  unfold sum_locks. assert (H : forall i j, (i, j) ∈ lock_indices w n -> reset_matrix w n locks i j = MpiLock.reset_stats (locks i j)).
  { intros i j Hin. unfold reset_matrix. by rewrite reset_matrix_at, decide_True. }
  revert H. induction (lock_indices w n) as [|[i j] ix IH]; intros H; [done|]. cbn [foldl]. rewrite H by left.
  change (sum_lock no_sums (MpiLock.reset_stats (locks i j))) with no_sums. apply IH. intros x y Hin. apply H. by right.
Qed.

(** [argo_reset_stats] clears what [print_statistics] shows: all counters and times but
    the initialisation and the execution time, all lock totals and maxima, the cache
    locks' and the write buffer's statistics; the buffered pages stay.  The averages
    of a system without a lock acquisition since then are NaN: the divisor is 0. *)
Theorem reset_clears_statistics (w n : Z) (s : node_stats) :
  let s' := argo_reset_stats w n s in
  stats s' = ArgoStatistics 0 0 0 0 0 (inittime (stats s)) (exectime (stats s)) 0 0 0 0 0 0 /\
  sum_locks w n (mpi_lock_data s') = no_sums /\ sum_locks w n (mpi_lock_sharer s') = no_sums /\ sum_cache_locks (cache_locks s') = (0, 0) /\
  length (cache_locks s') = length (cache_locks s) /\
  _buffer (argo_write_buffer s') = _buffer (argo_write_buffer s) /\ get_page_count (argo_write_buffer s') = 0 /\
  get_flush_time (argo_write_buffer s') = 0 /\ get_write_back_time (argo_write_buffer s') = 0 /\ get_buffer_lock_time (argo_write_buffer s') = 0 /\
  Line "" [("local lock time", Seconds 0); ("avg lock time", Average NaN); ("max lock time", Seconds 0)] ∈ advanced_info w n s'.
Proof.
  intros s'. assert (Hd : sum_locks w n (mpi_lock_data s') = no_sums) by apply reset_sums.
  assert (Hs : sum_locks w n (mpi_lock_sharer s') = no_sums) by apply reset_sums.
  assert (Hc : sum_cache_locks (cache_locks s') = (0, 0)). { cbn. induction (cache_locks s) as [|x l IH]; [done|]. exact IH. }
  split_and!; try done.
  - cbn. apply length_fmap.
  - unfold advanced_info. rewrite Hc, Hd, Hs. set_solver.
Qed.

(** ** A system of two nodes *)
Definition quiet_node : node_stats :=
  NodeStats (ArgoStatistics 0 0 0 0 0 3 9 0 0 2 0 0 0) [cache_lock_new] (fun _ _ => mpi_lock_new) (fun _ _ => mpi_lock_new) (write_buffer_new 4 2).
Definition two_nodes : dsm_config := {| numtasks := 2; size_of_all := 65536; startAddr := 4096; cachesize := 4; Swdsm.load_size := 1; mpi_windows := 1;
  wb_max_size := 4; wb_write_back_size := 2 |}.
Definition print_some : settings := Settings 0 0 512 32 0 16 1 1 2 true.

Lemma statistics_in_order_witness :
  (exists s', print_step 2 (fun r => print_statistics two_nodes print_some r quiet_node, []) s') /\
  length (expected_output two_nodes print_some (fun _ => quiet_node)) = 26%nat /\
  (mem_size 65536, mem_size (3 * 2 ^ 50)) = (Memory (65536 # 1024) "KB", Memory (inject_Z (3 * 2 ^ 50) / 1024 / 1024 / 1024 / 1024) "TB").
Proof.
  destruct (statistics_in_order two_nodes print_some (fun _ => quiet_node) ltac:(done)) as (total & H).
  split; [|split; by vm_compute].
  destruct (H 0%nat (fun r => print_statistics two_nodes print_some r quiet_node, []) (nsteps_O _ _)) as (_ & _ & _ & Hgo).
  apply Hgo. intros Hf. discriminate (Hf 0 ltac:(done)).
Defined.
