(* ===== verification/Interface.v ===== *)
(** * The synchronisation interface and the start of MPI

    The public barriers of [src/src/synchronization/synchronization.cpp], [broadcast] of
    [src/src/synchronization/broadcast.hpp] over the backend's, the [null_lock] of
    [src/src/allocators/null_lock.hpp] and [initmpi] of [src/src/backend/mpi/swdsm.cpp].
    MPI is not part of the program: it is a class with its documented behaviour as laws. *)

From S2P Require Import Prelude BlockMap DataDistribution FirstTouch GlobalPtr Mem Swdsm SwdsmBase SwdsmInv SwdsmDir SwdsmOps SwdsmLoad SwdsmHandler SwdsmSync SwdsmBarrier Atomics SwdsmSpec SwdsmTheorems.

(** ** Barriers *)

(** On all nodes at once; [ThreadBarrier.v] has the threads that wait for each other. *)
Definition barrier (c : dsm_config) (pl : placement) (s : dsm) : outcome dsm := swdsm_argo_barrier c pl s upgrade_none.
Definition barrier_upgrade_writers (c : dsm_config) (pl : placement) (s : dsm) : outcome dsm := swdsm_argo_barrier c pl s upgrade_writers.
Definition barrier_upgrade_all (c : dsm_config) (pl : placement) (s : dsm) : outcome dsm := swdsm_argo_barrier c pl s upgrade_all.

(** The barriers that keep the classification of the pages sound publish everything:
    after any run the memory model accepts, each returns, and then every node loads the
    latest byte of every address that is not used atomically. *)
Theorem barriers_publish (c : dsm_config) (pl : placement) (ops : list (Z * dsm_op)) (f : flat) (vs : list Z) (upgrade : bool) (r a : Z) :
  cfg_ok c pl -> forallb (op_valid c) ops = true -> flat_ops flat_init ops = Some (f, vs) -> node c r -> 0 <= a < size_of_all c -> fm_mode f a ≠ Atomic ->
  exists s s' s'', run_ops c pl dsm_reset ops = Ok (s, vs) /\ (if upgrade then barrier_upgrade_writers else barrier) c pl s = Ok s' /\
    app_load c pl 1 s' r a access_undefined = Ok (s'', fm_byte f a).
Proof.
  intros Hc Hv Hf Hr Ha Hm. destruct (sim_ops c pl Hc ops flat_init dsm_reset f vs) as (s & E & Hs); [by apply sim_init|done|done|].
  destruct (sim_barrier c pl Hc f s (if upgrade then upgrade_writers else upgrade_none) Hs ltac:(by destruct upgrade)) as (s' & E' & Hs').
  destruct (sim_load c pl Hc _ s' r a access_undefined Hs' Hr Ha ltac:(done)) as (s'' & E'' & _).
  { unfold flat_modes. cbn [fm_mode]. by destruct (fm_mode f a). }
  exists s, s', s''. split_and!; [done|by destruct upgrade|exact E''].
Qed.

(** ** Broadcast *)

(** [MPI_Bcast] on all nodes: the buffers before and after. *)
Class Broadcast (T : Type) := { MPI_Bcast : Z -> list T -> option (list T) }.
Class BroadcastLaws (T : Type) `{Broadcast T} : Prop := {
  bl_bcast source bufs v : bufs !! Z.to_nat source = Some v -> 0 <= source -> MPI_Bcast source bufs = Some (replicate (length bufs) v);
}.

(** Every node passes its value, and gets the one of node [from] back in a copy. *)
Definition broadcast {T} `{Broadcast T} (from : Z) (value : list T) : option (list T * list T) :=
  let v := value in v ← MPI_Bcast from v; Some (v, value).

Lemma broadcast_agrees {T} `{BroadcastLaws T} from (value : list T) x : 0 <= from -> value !! Z.to_nat from = Some x ->
  broadcast from value = Some (replicate (length value) x, value).
Proof. intros Hf Hx. unfold broadcast. by rewrite (bl_bcast from value x). Qed.

(** ** The null lock *)
Definition null_lock : Type := unit.
Definition null_lock_lock (l : null_lock) : null_lock := l.
Definition null_lock_unlock (l : null_lock) : null_lock := l.

(** ** The start of MPI *)

(** [MPI_Init_thread] gives a status and the thread level it provides. *)
Record mpi_runtime := MpiRuntime {
  MPI_Initialized : bool;
  MPI_Init_thread : Z -> Z * Z;
  MPI_Comm_size : Z;
  MPI_Comm_rank : Z;
}.
Definition MPI_SUCCESS : Z := 0.

Inductive start := Started (numtasks workrank : Z) | Exited (abort : option Z) (message : string).

Definition initmpi (thread_multiple : Z) (m : mpi_runtime) : start :=
  if MPI_Initialized m then Exited None "MPI was already initialized before starting ArgoDSM - shutting down"
  else
    let '(ret, thread_status) := MPI_Init_thread m thread_multiple in
    if negb (ret =? MPI_SUCCESS) || negb (thread_status =? thread_multiple) then Exited (Some ret) "MPI not able to start properly"
    else Started (MPI_Comm_size m) (MPI_Comm_rank m).

(** ArgoDSM runs only on an MPI it has started itself and that supports threads fully;
    only a failing start of MPI aborts the other processes. *)
Lemma initmpi_started level m n r : initmpi level m = Started n r <->
  MPI_Initialized m = false /\ MPI_Init_thread m level = (MPI_SUCCESS, level) /\ n = MPI_Comm_size m /\ r = MPI_Comm_rank m.
Proof.
  unfold initmpi. destruct (MPI_Initialized m); [split; [done|by intros [? _]]|]. destruct (MPI_Init_thread m level) as [ret status].
  destruct (Z.eqb_spec ret MPI_SUCCESS) as [->|Hr]; [destruct (Z.eqb_spec status level) as [->|Hl]|]; cbn [negb orb].
  - split; [by intros [= <- <-]|]. by intros (_ & _ & -> & ->).
  - split; [done|]. by intros (_ & [= ->] & _).
  - split; [done|]. by intros (_ & [= ->] & _).
Qed.
